(* ===== verification/_CoqProject ===== *)
-Q . S2P
Prelude.v
GoStrings.v
Sha256.v
Model.v
Database.v
Store.v
WorkerStore.v
Outbox.v
Scheduling.v
Replay.v
Lifecycle.v
Refinement.v
Scenario.v
Reliability.v
Admission.v
Recovery.v
Hash.v
Netip.v
GoUrl.v
IpText.v
Calendar.v
HttpDate.v
Json.v
Utf8.v
JsonText.v
Timestamp.v
Limiter.v
Dispatch.v
Amqp.v
Publishing.v
Worker.v
Processing.v
Outbound.v
Consumer.v
Consuming.v
Http.v
Api.v
Answers.v
Requests.v
Pipeline.v
Journey.v
Persistence.v
Service.v
Operation.v
Process.v
Probe.v
Routing.v
