(* ===== verification/Prelude.v ===== *)
(** * Reliable HTTP notification service: verification development

    ** The program

    Business systems submit notifications over HTTP; the service stores them
    and delivers them, at least once, to registered suppliers.

    - internal/delivery holds the facts: a PostgreSQL store of deliveries,
      Outbox events, attempts, callers and destination versions, and the HTTP
      API over it.  A submission commits a delivery and the event that
      announces it in one transaction, and only then answers 202.
    - internal/dispatch publishes each event as a signal - delivery,
      generation, trace - on RabbitMQ and records it only after the confirm.
    - internal/worker consumes signals, takes a permit of the destination's
      limiter, claims the delivery under a lease, sends, and commits the
      result behind a fence of generation, owner, token and time.
    - internal/outbound sends one HTTPS request to the address it has just
      resolved and checked.
    - cmd/notifier starts all this and runs the loops: Publisher, Worker,
      retry scheduler, lease recovery with the signal watchdog, retention,
      alerts.
    - Beside the service, cmd/fake-supplier is a supplier for local runs and
      cmd/toolchain-probe checks what the service expects of RabbitMQ and of
      a pinned HTTPS dialer.

    ** Files, and the sources they model

    Prelude: results, effects, tactics, generic lemmas.  GoStrings, Utf8,
    GoUrl, Json, JsonText, Sha256, Netip, IpText, Calendar, HttpDate and
    Timestamp: what the program uses of Go's strings, strconv, unicode/utf8,
    net/url, encoding/json, crypto/sha256, net/netip, time and
    http.ParseTime; Netip also holds the address policy of
    internal/outbound/client.go.
    Model: model.go, uuid.go.  Database: the tables, constraints and
    statements of migrations/.  Store: store.go.  WorkerStore: worker_store.go.
    Outbox: outbox.go.  Replay: replay.go.  Scheduling: scheduling.go,
    maintenance.go.  Hash: hash.go.  Http: http.go, submission_metrics.go;
    Answers: the JSON texts of http.go's answers.
    Limiter: internal/worker/limiter.go.  Worker: worker.go.  Consumer and
    Consuming: internal/worker/rabbit.go, one message and the goroutines of
    Run.  Dispatch: internal/dispatch/rabbit.go and publisher.go.  Amqp: the
    connections of both rabbit.go files and internal/dispatch/metrics.go.
    Outbound: internal/outbound/client.go.  Service: cmd/notifier; Process: its
    main, from startup to where goroutines, signal and shutdown meet.  Probe:
    cmd/toolchain-probe.  Routing: http.ServeMux with the routes of
    cmd/notifier/main.go and API.Register, and cmd/fake-supplier.

    A Go function is a definition of the same name.  The database is a record
    [DB] of maps; a statement or transaction is a [Tx], and an operation maps
    [DB] to a result and [DB].  Components that call each other are joined by
    classes of the calls they make - [WorkerEnv], [PublisherEnv],
    [ConsumerEnv], [SenderEnv], [AmqpEnv], [ProbeEnv], [HttpsEnv], [Runtime],
    [LinkEnv] - over an abstract world, in the monad [Eff] that records the calls; the store
    is an instance in Processing and Publishing, and Pipeline makes the Worker
    with the store and the sender an instance for the consumer.  The loop of
    the consumer, the confirm protocol and the process, where the order of
    events is not the program's choice, are step relations.

    ** What the theorems show

    - Lifecycle states what a delivery may do as a labelled transition
      system, with the invariant [Inv] and the events that are there
      ([announced]); Refinement shows that every operation of the store,
      whatever calls fail, is a step of it; Reliability draws the
      consequences for runs: consistency, one claim and one result per
      generation, finality of success, immutability of accepted content.
    - Admission, Hash, Api: what a caller can rely on - 202 is durable,
      resubmission and conflict under an idempotency key, the backlog bound,
      refusals that change nothing, isolation of status, replay for operators
      only, and that what the API admits the sender does not refuse.
    - Utf8, JsonText, Timestamp: a valid text, an integer, an instant and
      every JSON value built of them are read back as they were written.
      Requests: what a client writes as JSON and base64 is what POST
      /deliveries reads and stores, byte for byte.  Answers: what a handler
      answers is what a client reads from the body.
    - Recovery: when claims succeed, and that no due delivery is out of reach
      of the loops; retries scheduled, expired leases recovered, retention.
    - Processing, Consumer, Consuming, Limiter: the protocol of a signal, the
      settlement of a message, the wait for all goroutines, the time of the
      next attempt from Retry-After in seconds or as a date, the bounds on
      rate and concurrency.  Calendar and HttpDate show that dates are read
      back as they are written.
    - Pipeline puts consumer, Worker, store, limiter and sender together: a
      message about a due delivery, met by no failure, is acknowledged after
      the result its supplier's answer calls for is committed.  Journey adds
      the API and the Publisher before it: from the 202, through the round
      that announces the delivery, to that result.  Persistence repeats it,
      scheduling pass included, until an answer settles the delivery, and
      shows that a recovery and a scheduling pass after its deadline close it.
    - Routing composes the handlers behind the router: what a 202 named can
      be fetched at once, only authenticated POSTs write, the counters count
      submissions, and the fixtures of a local run fit together.
    - Probe: a probe passes only after the conversation it stands for, fails
      only with an error it has seen, leaves nothing open, and stays pinned.
    - Publishing, Dispatch, Amqp: an event is published only after its
      confirm, identifiers and signals are well formed and survive the queue,
      connections do not leak.
    - Outbound, Netip: connections stay inside the boundary, the forbidden
      addresses are exactly the reserved ones, the headers of a request,
      what a permanent error means.
    - Operation: loops end only when cancelled, retention drains and ends,
      the test policy needs a test build, startup.  Process: what each exit
      status means, and progress after a signal or an error.

    Scenario is a concrete run; the witnesses evaluate the model on it.

    ** Bounds and fuel

    Integers are Z; int64 and uint64 arithmetic that can wrap is written with
    its wrap-around (limiter sequence numbers, submission counters, drained
    totals), and conversions from float64 with their rounding (lease
    durations, rates).  [FormatInt] has fuel for 20 digits, enough for 64
    bits.  The JSON parser has fuel of twice the length of its input plus one;
    [next_value_fuel] shows that more changes nothing.  Its nesting limit is
    the 10000 of encoding/json.  The service loops take a number of rounds and
    answer [None] when it is used up; the theorems on them hold for every
    number, and [retention_drains] gives one that is enough.

    ** Parameters

    The tables of package unicode above ASCII ([Unicode], with
    [lower_is_lower] and [upper_is_upper] where a theorem needs them), the
    server of net/http ([HttpServer], with [ServerLaws]), IP literals in the
    brackets of a URL ([IpLiteral], as Go versions differ), the abbreviations
    of the local time zone ([HttpTime]), the input of the uuid type
    ([Postgres]; that a canonical text is read as itself, where needed), the
    zone an answer's instants are written in, random bytes, clocks, the
    iteration order of maps (every entry once, where a theorem needs it:
    [visits_all]), the order and locks a scan meets, and what other requests
    do to the database between two calls of a handler or loop. Every call to
    the database can fail, and a commit can take effect although its answer
    is lost. A transaction acts atomically when it commits; the row locks and
    advisory locks by which PostgreSQL serialises them are not modelled below
    that. Text columns take any byte string.

    ** Not modelled

    The HTTP server between a connection and a handler, and its timeouts; TLS
    and the HTTP transport inside one request; the AMQP client; log records,
    but for the warnings of the loops; the Prometheus text format; context
    deadlines, except as calls that fail; the interleaving of two goroutines
    inside one message of the consumer.  internal/toolchain only imports
    packages. *)

From stdpp Require Export gmap strings list fin_maps sorting.
From Stdlib Require Export ZArith Lia.

Declare Scope notifier_scope.
Delimit Scope notifier_scope with notifier.

(** ** Results: the [(value, error)] pairs the Go functions return *)

Inductive result (E A : Type) : Type :=
  | Ok (a : A)
  | Err (e : E).
Arguments Ok {E A} a.
Arguments Err {E A} e.

#[global] Instance result_ret {E} : MRet (result E) := λ A a, Ok a.
#[global] Instance result_bind {E} : MBind (result E) := λ A B f m,
  match m with Ok a => f a | Err e => Err e end.

Lemma Ok_inj {E A} (a b : A) : @Ok E A a = Ok b → a = b.
Proof. congruence. Qed.

Definition is_ok {E A} (r : result E A) : bool :=
  match r with Ok _ => true | Err _ => false end.

Lemma result_bind_Ok {E A B} (m : result E A) (f : A → result E B) b :
  m ≫= f = Ok b ↔ ∃ a, m = Ok a ∧ f a = Ok b.
Proof. destruct m; naive_solver. Qed.

(** ** Effects: a world threaded through, and the calls made *)

Definition Eff (E W A : Type) : Type := W → A * list E * W.

#[global] Instance Eff_ret {E W} : MRet (Eff E W) := λ A a w, (a, [], w).
#[global] Instance Eff_bind {E W} : MBind (Eff E W) := λ A B f m w,
  let '(a, t, w) := m w in
  let '(b, t', w) := f a w in
  (b, t ++ t', w).

(** A call that is not recorded, and one that is. *)
Definition quietly {E W A} (op : W → A * W) : Eff E W A := λ w, let '(a, w) := op w in (a, [], w).
Definition perform {E W A} (ev : A → E) (op : W → A * W) : Eff E W A := λ w,
  let '(a, w) := op w in (a, [ev a], w).

(** An event without a call. *)
Definition emit {E W} (e : E) : Eff E W unit := perform (λ _, e) (λ w, (tt, w)).

(** Split [m ≫= f] into the run of [m] and the run of what follows. *)
Lemma eff_bind_inv {E W A B} (m : Eff E W A) (f : A → Eff E W B) w b t w' :
  (m ≫= f) w = (b, t, w') →
  ∃ a t1 w1 t2, m w = (a, t1, w1) ∧ f a w1 = (b, t2, w') ∧ t = t1 ++ t2.
Proof.
  unfold mbind, Eff_bind. destruct (m w) as [[a t1] w1]. destruct (f a w1) as [[b2 t2] w2] eqn:E'.
  intros [= <- <- <-]. by exists a, t1, w1, t2.
Qed.

Lemma eff_ret_inv {E W A} (a b : A) (w : W) (t : list E) w' :
  (mret a : Eff E W A) w = (b, t, w') → b = a ∧ t = [] ∧ w' = w.
Proof. by intros [= <- <- <-]. Qed.

Lemma perform_inv {E W A} (ev : A → E) op (w : W) a t w' :
  perform ev op w = (a, t, w') → t = [ev a] ∧ op w = (a, w').
Proof. unfold perform. destruct (op w) as [a1 w1]. by intros [= <- <- <-]. Qed.

Lemma quietly_inv {E W A} (op : W → A * W) (w : W) a (t : list E) w' :
  quietly op w = (a, t, w') → t = [] ∧ op w = (a, w').
Proof. unfold quietly. destruct (op w) as [a1 w1]. by intros [= <- <- <-]. Qed.

Lemma emit_inv {E W} (e : E) (w : W) u t w' : emit e w = (u, t, w') → t = [e] ∧ w' = w.
Proof. by intros [= <- <- <-]. Qed.

Ltac eff_inv :=
  repeat match goal with
  | H : mbind _ _ _ = (_, _, _) |- _ =>
      apply eff_bind_inv in H as (? & ? & ? & ? & ? & H & ?); subst; cbn beta in H
  | H : mret _ _ = (_, _, _) |- _ => apply eff_ret_inv in H as (? & ? & ?); subst
  | H : perform _ _ _ = (_, _, _) |- _ => apply perform_inv in H as (? & ?); subst
  | H : quietly _ _ = (_, _, _) |- _ => apply quietly_inv in H as (? & ?); subst
  | H : emit _ _ = (_, _, _) |- _ => apply emit_inv in H as (? & ?); subst
  | H : (if ?b then _ else _) _ = (_, _, _) |- _ => destruct b eqn:?; cbn [negb] in H; cbn beta iota in H
  end.

(** ** Tactics *)

Create HintDb notifier.

(** Case analysis on the innermost [match]/[if] of a hypothesis or the goal. *)
Ltac case_match_in H :=
  match type of H with
  | context [ match ?x with _ => _ end ] =>
      lazymatch x with
      | context [ match _ with _ => _ end ] => fail
      | _ => let E := fresh "E" in destruct x eqn:E; simplify_eq/=
      end
  end.

Ltac split_ands := repeat match goal with H : _ ∧ _ |- _ => destruct H end.

(** Turn the boolean tests of the model into propositions. *)
Ltac to_prop :=
  repeat match goal with
  | H : andb _ _ = true |- _ => apply andb_true_iff in H; destruct H
  | H : orb _ _ = false |- _ => apply orb_false_iff in H; destruct H
  | H : negb _ = true |- _ => apply negb_true_iff in H
  | H : negb _ = false |- _ => apply negb_false_iff in H
  | H : bool_decide _ = true |- _ => apply bool_decide_eq_true in H
  | H : bool_decide _ = false |- _ => apply bool_decide_eq_false in H
  | H : Z.ltb _ _ = true |- _ => apply Z.ltb_lt in H
  | H : Z.ltb _ _ = false |- _ => apply Z.ltb_ge in H
  | H : Z.leb _ _ = true |- _ => apply Z.leb_le in H
  | H : Z.leb _ _ = false |- _ => apply Z.leb_gt in H
  | H : Z.eqb _ _ = true |- _ => apply Z.eqb_eq in H
  | H : Z.eqb _ _ = false |- _ => apply Z.eqb_neq in H
  | H : String.eqb _ _ = true |- _ => apply String.eqb_eq in H
  | H : String.eqb _ _ = false |- _ => apply String.eqb_neq in H
  end.

(** ** Rewriting the rows of a table in place

    [map_update f m] replaces the rows for which [f] answers [Some]; the
    rows it replaced, under their new contents, are [map_touched f m]. *)

Section map_update.
Context {K A : Type} `{Countable K}.
Implicit Types (m : gmap K A) (f : K → A → option A).

Definition map_touched f m : gmap K A := map_imap f m.
Definition map_update f m : gmap K A := map_touched f m ∪ m.

Lemma lookup_map_touched f m k :
  map_touched f m !! k = m !! k ≫= f k.
Proof. apply map_lookup_imap. Qed.

Lemma lookup_map_update f m k :
  map_update f m !! k = (λ a, default a (f k a)) <$> m !! k.
Proof.
  unfold map_update. rewrite lookup_union, lookup_map_touched.
  destruct (m !! k) as [a|]; simpl; [|done]. by destruct (f k a).
Qed.

Lemma lookup_map_update_Some f m k a' :
  map_update f m !! k = Some a' ↔
  ∃ a, m !! k = Some a ∧ a' = default a (f k a).
Proof. rewrite lookup_map_update, fmap_Some. naive_solver. Qed.

Lemma dom_map_update f m : dom (map_update f m) = dom m.
Proof.
  apply set_eq; intros k. rewrite !elem_of_dom, lookup_map_update.
  by rewrite fmap_is_Some.
Qed.
End map_update.

(** ** First row satisfying a test *)

Definition map_find {K A} `{Countable K} (P : K → A → bool) (m : gmap K A)
    : option (K * A) :=
  head (filter (λ kv, P kv.1 kv.2 = true) (map_to_list m)).

Lemma map_find_Some {K A} `{Countable K} (P : K → A → bool) (m : gmap K A) k a :
  map_find P m = Some (k, a) → m !! k = Some a ∧ P k a = true.
Proof.
  unfold map_find. intros Hh.
  assert (Hin : (k, a) ∈ filter (λ kv : K * A, P kv.1 kv.2 = true) (map_to_list m)).
  { destruct (filter _ _) eqn:E; simplify_eq/=. left. }
  apply list_elem_of_filter in Hin as [HP Hin].
  by apply elem_of_map_to_list in Hin.
Qed.

Lemma map_find_None {K A} `{Countable K} (P : K → A → bool) (m : gmap K A) :
  map_find P m = None ↔ ∀ k a, m !! k = Some a → P k a = false.
Proof.
  unfold map_find. split.
  - intros Hh k a Hk. destruct (P k a) eqn:HP; [|done].
    assert (Hin : (k, a) ∈ filter (λ kv : K * A, P kv.1 kv.2 = true) (map_to_list m)).
    { apply list_elem_of_filter. split; [done|]. by apply elem_of_map_to_list. }
    destruct (filter _ _); [by apply not_elem_of_nil in Hin|done].
  - intros HP. destruct (filter _ _) as [|[k a] l] eqn:E; [done|exfalso].
    assert (Hin : (k, a) ∈ filter (λ kv : K * A, P kv.1 kv.2 = true) (map_to_list m))
      by (rewrite E; left).
    apply list_elem_of_filter in Hin as [HPk Hin]. apply elem_of_map_to_list in Hin.
    apply HP in Hin. simpl in *. congruence.
Qed.

(** ** Counting rows *)

Definition map_count {K A} `{Countable K} (P : A → bool) (m : gmap K A) : Z :=
  Z.of_nat (length (filter (λ kv, P kv.2 = true) (map_to_list m))).

(** ** Lists *)

Lemma NoDup_take {A} n (l : list A) : NoDup l → NoDup (take n l).
Proof.
  intros Hl. rewrite <- (take_drop n l) in Hl. by apply NoDup_app in Hl as [? _].
Qed.

Lemma StronglySorted_take {A} (R : A → A → Prop) n l :
  StronglySorted R l → StronglySorted R (take n l).
Proof. intros Hs. rewrite <- (take_drop n l) in Hs. by eapply StronglySorted_app_1_l. Qed.

Lemma StronglySorted_fmap {A B} (R : A → A → Prop) (R' : B → B → Prop) (f : A → B) l :
  (∀ a b, R a b → R' (f a) (f b)) → StronglySorted R l → StronglySorted R' (f <$> l).
Proof.
  intros Hf. induction 1 as [|x l _ IH Hx]; constructor; [done|].
  apply Forall_fmap. eapply Forall_impl; [exact Hx|]. intros. by apply Hf.
Qed.
