(* ===== verification/GoStrings.v ===== *)
(** * Go strings

    A Go [string] or [[]byte] is a sequence of bytes; both are modelled by
    [string], whose characters are 8-bit.  The functions of the packages
    [strings], [strconv] and [unicode/utf8] that the program calls are
    written out here.  The case tables of package [unicode] above ASCII are a
    parameter, the class [Unicode]; below [0x80] they are computed. *)

From S2P Require Import Prelude.
From Stdlib Require Import Ascii.

Local Open Scope Z_scope.

(** ** Bytes *)

Definition byte_of (c : ascii) : Z := Z.of_N (N_of_ascii c).
Definition char_of (b : Z) : ascii := ascii_of_N (Z.to_N b).

Fixpoint bytes_of (s : string) : list Z :=
  match s with
  | EmptyString => []
  | String c s => byte_of c :: bytes_of s
  end.

Fixpoint string_of (l : list Z) : string :=
  match l with
  | [] => EmptyString
  | b :: l => String (char_of b) (string_of l)
  end.

(** [len(s)] *)
Definition len (s : string) : Z := Z.of_nat (String.length s).

Definition is_byte (b : Z) : Prop := 0 ≤ b < 256.

(** A test that holds of all bytes. *)
Lemma all_bytes (P : Z → bool) : forallb P (seqZ 0 256) = true → ∀ b, is_byte b → P b = true.
Proof.
  intros Hall b Hb. rewrite forallb_forall in Hall. apply Hall.
  apply list_elem_of_In, elem_of_seqZ. unfold is_byte in Hb. lia.
Qed.

(** The number a byte string spells, most significant byte first. *)
Fixpoint be_value (l : list Z) : Z :=
  match l with
  | [] => 0
  | b :: l => b * 256 ^ Z.of_nat (length l) + be_value l
  end.

Lemma byte_of_range c : is_byte (byte_of c).
Proof.
  unfold is_byte, byte_of. pose proof (N_ascii_bounded c). lia.
Qed.

Lemma char_of_byte_of c : char_of (byte_of c) = c.
Proof. unfold char_of, byte_of. rewrite N2Z.id. apply ascii_N_embedding. Qed.

Lemma byte_of_char_of b : is_byte b → byte_of (char_of b) = b.
Proof.
  intros Hb. unfold char_of, byte_of, is_byte in *.
  rewrite N_ascii_embedding by lia. lia.
Qed.

Lemma string_of_bytes_of s : string_of (bytes_of s) = s.
Proof. induction s as [|c s IH]; simpl; [done|]. by rewrite char_of_byte_of, IH. Qed.

Lemma bytes_of_string_of l : Forall is_byte l → bytes_of (string_of l) = l.
Proof. induction 1; simpl; [done|]. rewrite byte_of_char_of by done. by f_equal. Qed.

Lemma bytes_of_range s : Forall is_byte (bytes_of s).
Proof. induction s; simpl; constructor; auto using byte_of_range. Qed.

Lemma bytes_of_inj s t : bytes_of s = bytes_of t → s = t.
Proof. intros E. by rewrite <- (string_of_bytes_of s), E, string_of_bytes_of. Qed.

Lemma length_bytes_of s : length (bytes_of s) = String.length s.
Proof. induction s; simpl; congruence. Qed.

Lemma bytes_of_app s t : bytes_of (s +:+ t) = bytes_of s ++ bytes_of t.
Proof. induction s as [|c s IH]; [done|]. simpl. f_equal. exact IH. Qed.

(** ** UTF-8: [for _, r := range s] and [utf8.AppendRune] *)

Definition RuneError : Z := 65533.

Definition cont (b : Z) : bool := (128 <=? b) && (b <=? 191).

(** Range allowed for the second byte of a three-byte sequence. *)
Definition second3 (b0 b1 : Z) : bool :=
  if b0 =? 224 then (160 <=? b1) && (b1 <=? 191)
  else if b0 =? 237 then (128 <=? b1) && (b1 <=? 159)
  else cont b1.

(** Range allowed for the second byte of a four-byte sequence. *)
Definition second4 (b0 b1 : Z) : bool :=
  if b0 =? 240 then (144 <=? b1) && (b1 <=? 191)
  else if b0 =? 244 then (128 <=? b1) && (b1 <=? 143)
  else cont b1.

(** The runes a [range] loop yields: a byte that starts no valid sequence
    gives [RuneError] and advances by one. *)
Fixpoint runes (l : list Z) : list Z :=
  match l with
  | [] => []
  | b0 :: t =>
      if b0 <? 128 then b0 :: runes t
      else if (194 <=? b0) && (b0 <=? 223) then
        match t with
        | b1 :: t1 =>
            if cont b1
            then Z.lor (Z.shiftl (Z.land b0 31) 6) (Z.land b1 63) :: runes t1
            else RuneError :: runes t
        | [] => [RuneError]
        end
      else if (224 <=? b0) && (b0 <=? 239) then
        match t with
        | b1 :: (b2 :: t2) as t1 =>
            if second3 b0 b1 && cont b2
            then Z.lor (Z.shiftl (Z.land b0 15) 12)
                   (Z.lor (Z.shiftl (Z.land b1 63) 6) (Z.land b2 63)) :: runes t2
            else RuneError :: runes t
        | _ => RuneError :: runes t
        end
      else if (240 <=? b0) && (b0 <=? 244) then
        match t with
        | b1 :: b2 :: b3 :: t3 =>
            if second4 b0 b1 && cont b2 && cont b3
            then Z.lor (Z.shiftl (Z.land b0 7) 18)
                   (Z.lor (Z.shiftl (Z.land b1 63) 12)
                      (Z.lor (Z.shiftl (Z.land b2 63) 6) (Z.land b3 63))) :: runes t3
            else RuneError :: runes t
        | _ => RuneError :: runes t
        end
      else RuneError :: runes t
  end.

(** [utf8.AppendRune]: surrogates and out-of-range values encode [RuneError]. *)
Definition encode_rune (r : Z) : list Z :=
  if (0 <=? r) && (r <? 128) then [r]
  else if (128 <=? r) && (r <? 2048) then
    [Z.lor 192 (Z.shiftr r 6); Z.lor 128 (Z.land r 63)]
  else if ((2048 <=? r) && (r <? 55296)) || ((57344 <=? r) && (r <? 65536)) then
    [Z.lor 224 (Z.shiftr r 12); Z.lor 128 (Z.land (Z.shiftr r 6) 63);
     Z.lor 128 (Z.land r 63)]
  else if (65536 <=? r) && (r <=? 1114111) then
    [Z.lor 240 (Z.shiftr r 18); Z.lor 128 (Z.land (Z.shiftr r 12) 63);
     Z.lor 128 (Z.land (Z.shiftr r 6) 63); Z.lor 128 (Z.land r 63)]
  else [239; 191; 189].

(** The runes of a string, and a string mapped rune by rune ([strings.Map]). *)
Definition range_runes (s : string) : list Z := runes (bytes_of s).
Definition map_runes (f : Z → Z) (s : string) : string :=
  string_of (mjoin ((λ r, encode_rune (f r)) <$> range_runes s)).

(** ** Case tables *)

Class Unicode := {
  to_lower_hi : Z → Z;      (* unicode.ToLower above U+007F *)
  to_upper_hi : Z → Z;      (* unicode.ToUpper above U+007F *)
  fold_hi : Z → Z → bool;   (* same SimpleFold orbit, one rune above U+007F *)
}.

Section strings.
Context `{Unicode}.

Definition unicode_ToLower (r : Z) : Z :=
  if r <? 128 then (if (65 <=? r) && (r <=? 90) then r + 32 else r)
  else to_lower_hi r.

Definition unicode_ToUpper (r : Z) : Z :=
  if r <? 128 then (if (97 <=? r) && (r <=? 122) then r - 32 else r)
  else to_upper_hi r.

Definition ToLower (s : string) : string := map_runes unicode_ToLower s.
Definition ToUpper (s : string) : string := map_runes unicode_ToUpper s.

(** [strings.EqualFold] compares rune by rune under simple folding. *)
Definition fold_eq (sr tr : Z) : bool :=
  (sr =? tr) ||
  (if (sr <? 128) && (tr <? 128)
   then let lo := Z.min sr tr in let hi := Z.max sr tr in
        (65 <=? lo) && (lo <=? 90) && (hi =? lo + 32)
   else fold_hi (Z.min sr tr) (Z.max sr tr)).

Fixpoint all2 (f : Z → Z → bool) (l k : list Z) : bool :=
  match l, k with
  | [], [] => true
  | a :: l, b :: k => f a b && all2 f l k
  | _, _ => false
  end.

Definition EqualFold (s t : string) : bool :=
  all2 fold_eq (range_runes s) (range_runes t).
End strings.

(** ** Trimming *)

(** [unicode.IsSpace] *)
Definition IsSpace (r : Z) : bool :=
  ((9 <=? r) && (r <=? 13)) || (r =? 32) || (r =? 133) || (r =? 160) ||
  (r =? 5760) || ((8192 <=? r) && (r <=? 8202)) || (r =? 8232) || (r =? 8233) ||
  (r =? 8239) || (r =? 8287) || (r =? 12288).

(** The byte sequences of one rune each, in order, as the decoder cuts them. *)
Fixpoint rune_chunks (l : list Z) : list (Z * list Z) :=
  match l with
  | [] => []
  | b0 :: t =>
      let bad := (RuneError, [b0]) in
      if b0 <? 128 then (b0, [b0]) :: rune_chunks t
      else if (194 <=? b0) && (b0 <=? 223) then
        match t with
        | b1 :: t1 =>
            if cont b1
            then (Z.lor (Z.shiftl (Z.land b0 31) 6) (Z.land b1 63), [b0; b1])
                   :: rune_chunks t1
            else bad :: rune_chunks t
        | [] => [bad]
        end
      else if (224 <=? b0) && (b0 <=? 239) then
        match t with
        | b1 :: (b2 :: t2) as t1 =>
            if second3 b0 b1 && cont b2
            then (Z.lor (Z.shiftl (Z.land b0 15) 12)
                   (Z.lor (Z.shiftl (Z.land b1 63) 6) (Z.land b2 63)), [b0; b1; b2])
                   :: rune_chunks t2
            else bad :: rune_chunks t
        | _ => bad :: rune_chunks t
        end
      else if (240 <=? b0) && (b0 <=? 244) then
        match t with
        | b1 :: b2 :: b3 :: t3 =>
            if second4 b0 b1 && cont b2 && cont b3
            then (Z.lor (Z.shiftl (Z.land b0 7) 18)
                   (Z.lor (Z.shiftl (Z.land b1 63) 12)
                      (Z.lor (Z.shiftl (Z.land b2 63) 6) (Z.land b3 63))),
                  [b0; b1; b2; b3]) :: rune_chunks t3
            else bad :: rune_chunks t
        | _ => bad :: rune_chunks t
        end
      else bad :: rune_chunks t
  end.

Fixpoint drop_while {A} (P : A → bool) (l : list A) : list A :=
  match l with
  | [] => []
  | a :: t => if P a then drop_while P t else l
  end.

Definition trim_by {A} (P : A → bool) (l : list A) : list A :=
  reverse (drop_while P (reverse (drop_while P l))).

(** [strings.TrimSpace]: drop leading and trailing Unicode white space. *)
Definition TrimSpace (s : string) : string :=
  string_of (mjoin (snd <$> trim_by (λ c, IsSpace c.1) (rune_chunks (bytes_of s)))).

(** [strings.Trim(s, cutset)] for an ASCII cutset. *)
Definition Trim (s cutset : string) : string :=
  string_of (trim_by (λ b, bool_decide (b ∈ bytes_of cutset)) (bytes_of s)).

(** ** Searching *)

(** [strings.ContainsRune] for an ASCII haystack. *)
Definition ContainsRune (s : string) (r : Z) : bool := bool_decide (r ∈ bytes_of s).

(** [strings.ContainsAny] for an ASCII set of characters. *)
Definition ContainsAny (s chars : string) : bool :=
  existsb (λ b, bool_decide (b ∈ bytes_of chars)) (bytes_of s).

(** [strings.HasPrefix] *)
Definition HasPrefix (s prefix : string) : bool := String.prefix prefix s.

(** [s[n:]] *)
Fixpoint from_index (n : nat) (s : string) : string :=
  match n, s with
  | S n, String _ s => from_index n s
  | _, _ => s
  end.

(** ** Numbers as text *)

(** [strconv.FormatInt(n, 10)] *)
Definition digit_char (d : Z) : ascii := char_of (48 + d).

Fixpoint format_digits (fuel : nat) (n : Z) (acc : string) : string :=
  match fuel with
  | O => acc
  | S fuel =>
      let acc := String (digit_char (n mod 10)) acc in
      if n / 10 =? 0 then acc else format_digits fuel (n / 10) acc
  end.

(** Twenty digits hold every 64-bit magnitude. *)
Definition FormatInt (n : Z) : string :=
  if n <? 0 then String "-" (format_digits 20 (- n) "")
  else format_digits 20 n "".

Definition max_int64 : Z := 2 ^ 63 - 1.
Definition min_int64 : Z := - 2 ^ 63.
Definition is_int64 (n : Z) : Prop := min_int64 ≤ n ≤ max_int64.

(** [strconv.ParseInt(s, 10, 64)]: optional sign, at least one digit, only
    digits, and the value in range; [None] for any error. *)
Definition digit_value (b : Z) : option Z :=
  if (48 <=? b) && (b <=? 57) then Some (b - 48) else None.

Fixpoint parse_digits (l : list Z) (acc : Z) : option Z :=
  match l with
  | [] => Some acc
  | b :: l => d ← digit_value b; parse_digits l (10 * acc + d)
  end.

Definition ParseInt (s : string) : option Z :=
  let '(neg, digits) :=
    match bytes_of s with
    | 45 :: t => (true, t)
    | 43 :: t => (false, t)
    | t => (false, t)
    end in
  match digits with
  | [] => None
  | _ =>
      n ← parse_digits digits 0;
      let v := if neg : bool then - n else n in
      if (min_int64 <=? v) && (v <=? max_int64) then Some v else None
  end.

(** ** Texts of ASCII characters *)

Definition is_ascii (b : Z) : Prop := 0 ≤ b < 128.

Lemma is_ascii_byte l : Forall is_ascii l → Forall is_byte l.
Proof. intros Hl. eapply Forall_impl; [done|]. unfold is_ascii, is_byte. simpl. lia. Qed.

Lemma runes_ascii l : Forall is_ascii l → runes l = l.
Proof.
  induction 1 as [|b l Hb _ IH]; [done|]. cbn [runes]. unfold is_ascii in Hb.
  rewrite (proj2 (Z.ltb_lt b 128)) by lia. by rewrite IH.
Qed.

Lemma rune_chunks_ascii l : Forall is_ascii l → rune_chunks l = (λ b, (b, [b])) <$> l.
Proof.
  induction 1 as [|b l Hb _ IH]; [done|]. cbn [rune_chunks]. unfold is_ascii in Hb.
  rewrite (proj2 (Z.ltb_lt b 128)) by lia. by rewrite IH.
Qed.

Lemma map_runes_ascii f s :
  Forall is_ascii (bytes_of s) → (∀ b, is_ascii b → is_ascii (f b)) →
  bytes_of (map_runes f s) = f <$> bytes_of s.
Proof.
  intros Hs Hf. unfold map_runes, range_runes. rewrite runes_ascii by done.
  assert (mjoin ((λ r, encode_rune (f r)) <$> bytes_of s) = f <$> bytes_of s) as ->.
  { induction Hs as [|b l Hb _ IH]; [done|]. rewrite !fmap_cons. rewrite <- IH.
    change (mjoin (?x :: ?l)) with (x ++ mjoin l). unfold encode_rune at 1.
    destruct (Hf b Hb). by rewrite (proj2 (Z.leb_le 0 _)), (proj2 (Z.ltb_lt _ 128)) by lia. }
  apply bytes_of_string_of, is_ascii_byte, Forall_fmap. eapply Forall_impl; [done|]. simpl. auto.
Qed.

Lemma drop_while_none {A} (P : A → bool) l : Forall (λ a, P a = false) l → drop_while P l = l.
Proof. destruct 1 as [|a l Ha]; [done|]. simpl. by rewrite Ha. Qed.

Lemma trim_by_none {A} (P : A → bool) l : Forall (λ a, P a = false) l → trim_by P l = l.
Proof.
  intros Hl. unfold trim_by. rewrite (drop_while_none P l) by done.
  rewrite drop_while_none by (by apply Forall_reverse). apply reverse_involutive.
Qed.

Lemma TrimSpace_ascii s :
  Forall (λ b, is_ascii b ∧ IsSpace b = false) (bytes_of s) → TrimSpace s = s.
Proof.
  intros Hs%Forall_and. destruct Hs as [Ha Hn]. unfold TrimSpace.
  rewrite rune_chunks_ascii by done. rewrite trim_by_none by (by apply Forall_fmap).
  rewrite <- list_fmap_compose. rewrite <- (string_of_bytes_of s) at 2. f_equal.
  clear. induction (bytes_of s) as [|b l IH]; [done|]. rewrite fmap_cons.
  change (b :: mjoin ((λ b, [b]) <$> l) = b :: l). by f_equal.
Qed.

Lemma trim_by_ends {A} (P : A → bool) a l b :
  P a = false → P b = false → trim_by P (a :: l ++ [b]) = a :: l ++ [b].
Proof.
  intros Ha Hb. unfold trim_by. cbn [drop_while]. rewrite Ha.
  change (a :: l ++ [b]) with ((a :: l) ++ [b]). rewrite (reverse_app (a :: l) [b]).
  change (reverse [b] ++ reverse (a :: l)) with (b :: reverse (a :: l)). cbn [drop_while]. rewrite Hb.
  change (b :: reverse (a :: l)) with (reverse [b] ++ reverse (a :: l)).
  by rewrite <- (reverse_app (a :: l) [b]), reverse_involutive.
Qed.

(** Text that neither starts nor ends with white space. *)
Lemma TrimSpace_ends s a l b :
  Forall is_ascii (bytes_of s) → bytes_of s = a :: l ++ [b] → IsSpace a = false → IsSpace b = false →
  TrimSpace s = s.
Proof.
  intros Hs E Ha Hb. unfold TrimSpace. rewrite rune_chunks_ascii by done.
  assert (trim_by (λ c, IsSpace c.1) ((λ b, (b, [b])) <$> bytes_of s) = (λ b, (b, [b])) <$> bytes_of s) as ->.
  { rewrite E, fmap_cons, fmap_app. by apply trim_by_ends. }
  rewrite <- list_fmap_compose. rewrite <- (string_of_bytes_of s) at 2. f_equal.
  clear. induction (bytes_of s) as [|x m IH]; [done|]. rewrite fmap_cons.
  change (x :: mjoin ((λ x, [x]) <$> m) = x :: m). by f_equal.
Qed.

Section ascii.
Context `{Unicode}.

Lemma ToLower_ascii s :
  Forall is_ascii (bytes_of s) → bytes_of (ToLower s) = unicode_ToLower <$> bytes_of s.
Proof.
  intros Hs. apply map_runes_ascii; [done|]. intros b. unfold is_ascii, unicode_ToLower.
  intros Hb. rewrite (proj2 (Z.ltb_lt b 128)) by lia.
  destruct ((65 <=? b) && (b <=? 90)) eqn:E; [|lia]. apply andb_true_iff in E. lia.
Qed.

Lemma all2_refl l : all2 fold_eq l l = true.
Proof. induction l as [|r l IH]; [done|]. simpl. unfold fold_eq at 1. by rewrite Z.eqb_refl, IH. Qed.

Lemma EqualFold_refl s : EqualFold s s = true.
Proof. apply all2_refl. Qed.

(** ASCII texts that agree in lower case are equal under folding. *)
Lemma EqualFold_ascii s t :
  Forall is_ascii (bytes_of s) → Forall is_ascii (bytes_of t) →
  unicode_ToLower <$> bytes_of s = unicode_ToLower <$> bytes_of t → EqualFold s t = true.
Proof.
  intros Hs Ht. unfold EqualFold, range_runes. rewrite !runes_ascii by done.
  revert Ht. generalize (bytes_of t). induction Hs as [|a l Ha _ IH]; intros k Hk.
  { by destruct k. }
  destruct Hk as [|b k Hb Hk]; [done|]. cbn [fmap list_fmap]. intros Heq. simplify_eq/=.
  rewrite IH by done. rewrite andb_true_r. unfold fold_eq, unicode_ToLower, is_ascii in *.
  rewrite (proj2 (Z.ltb_lt a 128)), (proj2 (Z.ltb_lt b 128)) in * by lia. cbn [andb].
  destruct ((65 <=? a) && (a <=? 90)) eqn:E1, ((65 <=? b) && (b <=? 90)) eqn:E2;
    rewrite ?andb_true_iff, ?andb_false_iff, ?Z.leb_le, ?Z.leb_gt in *;
    destruct (Z.eqb_spec a b); [done|lia|done| |done| |done|lia]; simpl;
    rewrite !andb_true_iff, !Z.leb_le, Z.eqb_eq; lia.
Qed.
End ascii.

(** ** Decimal text *)

Definition digits_value (l : list Z) (acc : Z) : Z := foldl (λ a b, 10 * a + (b - 48)) acc l.

Lemma byte_of_digit d : 0 ≤ d < 10 → byte_of (digit_char d) = 48 + d.
Proof. intros. unfold digit_char. apply byte_of_char_of. unfold is_byte. lia. Qed.

Lemma format_digits_value fuel n acc :
  0 ≤ n < 10 ^ Z.of_nat fuel → (0 < fuel)%nat →
  digits_value (bytes_of (format_digits fuel n acc)) 0 = digits_value (bytes_of acc) n.
Proof.
  revert n acc. induction fuel as [|fuel IH]; intros n acc Hn Hf; [lia|]. cbn [format_digits].
  rewrite Nat2Z.inj_succ, Z.pow_succ_r in Hn by lia.
  pose proof (Z.mod_pos_bound n 10 ltac:(lia)). pose proof (Z.div_mod n 10 ltac:(lia)) as Hdm.
  destruct (Z.eqb_spec (n / 10) 0) as [E|E].
  - unfold digits_value. cbn [bytes_of foldl]. rewrite byte_of_digit by lia. f_equal. lia.
  - rewrite IH.
    + unfold digits_value. cbn [bytes_of foldl]. rewrite byte_of_digit by lia. f_equal. lia.
    + split; [apply Z.div_pos; lia|]. apply Z.div_lt_upper_bound; lia.
    + destruct fuel; [|lia]. exfalso. apply E. apply Z.div_small. lia.
Qed.

Lemma format_digits_first fuel n acc :
  (0 < fuel)%nat → ∃ b l, bytes_of (format_digits fuel n acc) = b :: l ∧ 48 ≤ b ≤ 57.
Proof.
  revert n acc. induction fuel as [|fuel IH]; intros n acc Hf; [lia|]. cbn [format_digits].
  pose proof (Z.mod_pos_bound n 10 ltac:(lia)).
  destruct (Z.eqb_spec (n / 10) 0); [|destruct fuel; [|apply IH; lia]];
    simpl; rewrite byte_of_digit by lia; do 2 eexists; (split; [done|lia]).
Qed.

Lemma String_tail c s t : String c s = String c t → s = t.
Proof. congruence. Qed.

Lemma cons_head (x y : Z) l k : x :: l = y :: k → x = y.
Proof. congruence. Qed.

Lemma FormatInt_inj n m : is_int64 n → is_int64 m → FormatInt n = FormatInt m → n = m.
Proof.
  unfold is_int64, min_int64, max_int64, FormatInt. intros Hn Hm Heq.
  assert (Hval : ∀ k, 0 ≤ k ≤ 2 ^ 63 → digits_value (bytes_of (format_digits 20 k "")) 0 = k).
  { intros k Hk. rewrite format_digits_value; [done| |lia]. change (10 ^ Z.of_nat 20) with (10 ^ 20). lia. }
  assert (Hsign : ∀ a b, String "-"%char (format_digits 20 a "") ≠ format_digits 20 b "").
  { intros a b Hab. apply (f_equal bytes_of) in Hab.
    destruct (format_digits_first 20 b "") as (c & l & Hc & Hr); [lia|].
    rewrite Hc in Hab. cbn [bytes_of] in Hab. apply cons_head in Hab.
    assert (byte_of "-"%char = 45) by reflexivity. lia. }
  destruct (Z.ltb_spec n 0), (Z.ltb_spec m 0).
  - apply String_tail in Heq. pose proof (Hval (- n) ltac:(lia)) as Hvn.
    rewrite Heq, Hval in Hvn by lia. lia.
  - by apply Hsign in Heq.
  - symmetry in Heq. by apply Hsign in Heq.
  - pose proof (Hval n ltac:(lia)) as Hvn. rewrite Heq, Hval in Hvn by lia. lia.
Qed.

Lemma parse_digits_value l acc :
  Forall (λ b, 48 ≤ b ≤ 57) l → parse_digits l acc = Some (digits_value l acc).
Proof.
  intros Hl. revert acc. induction Hl as [|b l Hb _ IH]; intros acc; [done|]. cbn [parse_digits].
  unfold digit_value. rewrite (proj2 (Z.leb_le 48 b)), (proj2 (Z.leb_le b 57)) by lia.
  cbn. by rewrite IH.
Qed.

Lemma format_digits_digits fuel n acc :
  Forall (λ b, 48 ≤ b ≤ 57) (bytes_of acc) →
  Forall (λ b, 48 ≤ b ≤ 57) (bytes_of (format_digits fuel n acc)).
Proof.
  revert n acc. induction fuel as [|fuel IH]; intros n acc Hacc; [done|]. cbn [format_digits].
  pose proof (Z.mod_pos_bound n 10 ltac:(lia)).
  assert (Forall (λ b, 48 ≤ b ≤ 57) (bytes_of (String (digit_char (n mod 10)) acc))).
  { cbn [bytes_of]. constructor; [|done]. rewrite byte_of_digit; lia. }
  destruct (n / 10 =? 0); auto.
Qed.

(** No leading zero, except in the text of zero. *)
Lemma format_digits_head fuel n acc :
  0 ≤ n < 10 ^ Z.of_nat fuel → (0 < fuel)%nat →
  ∃ b l, bytes_of (format_digits fuel n acc) = b :: l ∧ (b = 48 → n = 0 ∧ l = bytes_of acc).
Proof.
  revert n acc. induction fuel as [|fuel IH]; intros n acc Hn Hf; [lia|]. cbn [format_digits].
  rewrite Nat2Z.inj_succ, Z.pow_succ_r in Hn by lia.
  pose proof (Z.mod_pos_bound n 10 ltac:(lia)). pose proof (Z.div_mod n 10 ltac:(lia)) as Hdm.
  destruct (Z.eqb_spec (n / 10) 0) as [E|E].
  - cbn [bytes_of]. rewrite byte_of_digit by lia. do 2 eexists. split; [done|]. intros. split; [lia|done].
  - destruct (IH (n / 10) (String (digit_char (n mod 10)) acc)) as (b & l & -> & Hb).
    + split; [apply Z.div_pos; lia|]. apply Z.div_lt_upper_bound; lia.
    + destruct fuel; [|lia]. exfalso. apply E. apply Z.div_small. lia.
    + exists b, l. split; [done|]. intros ->. destruct (Hb eq_refl). lia.
Qed.

(** The text of a natural number: digits, no leading zero, and it reads back. *)
Lemma FormatInt_nat n : 0 ≤ n ≤ max_int64 →
  ∃ b l, bytes_of (FormatInt n) = b :: l ∧ Forall (λ c, 48 ≤ c ≤ 57) (b :: l) ∧
    (b = 48 → l = []) ∧ ParseInt (FormatInt n) = Some n.
Proof.
  unfold max_int64. intros Hn. unfold ParseInt, FormatInt. rewrite (proj2 (Z.ltb_ge n 0)) by lia.
  assert (Hr : 0 ≤ n < 10 ^ Z.of_nat 20) by (change (10 ^ Z.of_nat 20) with (10 ^ 20); lia).
  destruct (format_digits_head 20 n "" Hr ltac:(lia)) as (b & l & E & Hb).
  pose proof (format_digits_digits 20 n "" (Forall_nil_2 _)) as Hd.
  pose proof (format_digits_value 20 n "" Hr ltac:(lia)) as Hv. rewrite E in *.
  exists b, l. split; [done|]. split; [done|]. split; [intros E0; by destruct (Hb E0)|].
  assert (48 ≤ b ≤ 57) by (by apply Forall_cons in Hd as [? _]).
  assert ((match b :: l with 45 :: t => (true, t) | 43 :: t => (false, t) | t => (false, t) end) =
    (false, b :: l)) as ->.
  { destruct b as [|[p|p|]|]; try lia; repeat (destruct p as [p|p|]; try done; try lia). }
  rewrite parse_digits_value by done. rewrite Hv. simpl.
  unfold min_int64, max_int64. rewrite (proj2 (Z.leb_le _ _)), (proj2 (Z.leb_le _ _)) by lia. done.
Qed.

(** ** Bytes, runes and their encoding *)

Lemma lor_ge k a b : 0 ≤ k → 0 ≤ a → 0 ≤ b → 2 ^ k ≤ a ∨ 2 ^ k ≤ b → 2 ^ k ≤ Z.lor a b.
Proof.
  intros Hk Ha Hb Hor. pose proof (Z.pow_pos_nonneg 2 k ltac:(lia) Hk).
  assert (0 ≤ Z.lor a b) by (by apply Z.lor_nonneg).
  assert (Z.lor a b ≠ 0) by (rewrite Z.lor_eq_0_iff; lia).
  apply Z.log2_le_pow2; [lia|]. rewrite Z.log2_lor by done.
  destruct Hor as [Hp|Hp]; apply Z.log2_le_pow2 in Hp; lia.
Qed.

Lemma land_byte_bounds b k : 0 ≤ k → 0 ≤ Z.land b (Z.ones k) < 2 ^ k.
Proof. intros Hk. rewrite Z.land_ones by done. apply Z.mod_pos_bound. by apply Z.pow_pos_nonneg. Qed.

Lemma two_byte_rune b0 b1 : 194 ≤ b0 ≤ 223 →
  128 ≤ Z.lor (Z.shiftl (Z.land b0 31) 6) (Z.land b1 63).
Proof.
  intros Hb. change 31 with (Z.ones 5). change 63 with (Z.ones 6).
  pose proof (land_byte_bounds b1 6 ltac:(lia)). rewrite Z.land_ones, Z.shiftl_mul_pow2 by lia.
  apply (lor_ge 7); [lia| |lia|left]; Z.to_euclidean_division_equations; lia.
Qed.

Lemma three_byte_rune b0 b1 b2 : 224 ≤ b0 ≤ 239 → 0 ≤ b1 < 256 → second3 b0 b1 = true →
  128 ≤ Z.lor (Z.shiftl (Z.land b0 15) 12) (Z.lor (Z.shiftl (Z.land b1 63) 6) (Z.land b2 63)).
Proof.
  intros Hb Hb1 Hs. change 15 with (Z.ones 4). change 63 with (Z.ones 6).
  pose proof (land_byte_bounds b2 6 ltac:(lia)). pose proof (land_byte_bounds b1 6 ltac:(lia)).
  rewrite !Z.shiftl_mul_pow2 by lia.
  assert (0 ≤ Z.lor (Z.land b1 (Z.ones 6) * 2 ^ 6) (Z.land b2 (Z.ones 6)))
    by (apply Z.lor_nonneg; lia).
  pose proof (land_byte_bounds b0 4 ltac:(lia)).
  apply (lor_ge 7); [lia|lia|done|].
  destruct (decide (b0 = 224)) as [->|].
  - right. unfold second3 in Hs. simpl in Hs. to_prop. apply (lor_ge 7); [lia|lia|lia|left].
    rewrite Z.land_ones by lia. Z.to_euclidean_division_equations; lia.
  - left. rewrite Z.land_ones by lia. Z.to_euclidean_division_equations; lia.
Qed.

Lemma four_byte_rune b0 b1 b2 b3 : 240 ≤ b0 ≤ 244 → 0 ≤ b1 < 256 → second4 b0 b1 = true →
  128 ≤ Z.lor (Z.shiftl (Z.land b0 7) 18) (Z.lor (Z.shiftl (Z.land b1 63) 12)
          (Z.lor (Z.shiftl (Z.land b2 63) 6) (Z.land b3 63))).
Proof.
  intros Hb Hb1 Hs. change 7 with (Z.ones 3). change 63 with (Z.ones 6).
  pose proof (land_byte_bounds b1 6 ltac:(lia)). pose proof (land_byte_bounds b2 6 ltac:(lia)).
  pose proof (land_byte_bounds b3 6 ltac:(lia)). pose proof (land_byte_bounds b0 3 ltac:(lia)).
  rewrite !Z.shiftl_mul_pow2 by lia.
  set (t := Z.lor (Z.land b2 (Z.ones 6) * 2 ^ 6) (Z.land b3 (Z.ones 6))).
  assert (0 ≤ t) by (apply Z.lor_nonneg; lia).
  assert (0 ≤ Z.lor (Z.land b1 (Z.ones 6) * 2 ^ 12) t) by (apply Z.lor_nonneg; lia).
  apply (lor_ge 7); [lia|lia|done|].
  destruct (decide (b0 = 240)) as [->|].
  - right. unfold second4 in Hs. simpl in Hs. to_prop. apply (lor_ge 7); [lia|lia|lia|left].
    rewrite Z.land_ones by lia. Z.to_euclidean_division_equations; lia.
  - left. rewrite Z.land_ones by lia. Z.to_euclidean_division_equations; lia.
Qed.

(** One step of the decoder: an ASCII byte is itself; any other byte and the
    continuation bytes it takes are one rune beyond ASCII. *)
Lemma runes_step b l : Forall is_byte (b :: l) →
  (b < 128 ∧ runes (b :: l) = b :: runes l) ∨
  (128 ≤ b ∧ ∃ r pre suf, l = pre ++ suf ∧ Forall (λ c, 128 ≤ c) pre ∧ 128 ≤ r ∧
     runes (b :: l) = r :: runes suf).
Proof.
  intros Hl. apply Forall_cons in Hl as [Hb Hl]. unfold is_byte in Hb.
  assert (Hbad : runes (b :: l) = RuneError :: runes l → 128 ≤ b →
    ∃ r pre suf, l = pre ++ suf ∧ Forall (λ c, 128 ≤ c) pre ∧ 128 ≤ r ∧
      runes (b :: l) = r :: runes suf).
  { intros Hr _. exists RuneError, [], l. by split_and!. }
  assert (Hcont : ∀ c, cont c = true → 128 ≤ c) by (unfold cont; intros; to_prop; lia).
  cbn [runes] in *. destruct (Z.ltb_spec b 128); [by left|]. right. split; [done|].
  repeat case_match; try (by apply Hbad); to_prop.
  - eexists _, [_], _. split_and!; [done|by repeat constructor; auto|by apply two_byte_rune|done].
  - apply Forall_cons in Hl as [Hb1 _]. eexists _, [_; _], _.
    split_and!; [done| |by apply three_byte_rune|done]. repeat constructor; [|by auto].
    unfold second3, cont in *. repeat case_match; to_prop; lia.
  - apply Forall_cons in Hl as [Hb1 _]. eexists _, [_; _; _], _.
    split_and!; [done| |by apply four_byte_rune|done]. repeat constructor; [|by auto|by auto].
    unfold second4, cont in *. repeat case_match; to_prop; lia.
Qed.

Lemma runes_ind (P : list Z → Prop) :
  P [] →
  (∀ b l, is_ascii b → P l → P (b :: l)) →
  (∀ b pre suf r, 128 ≤ b → Forall (λ c, 128 ≤ c) pre → 128 ≤ r →
     runes (b :: pre ++ suf) = r :: runes suf → P suf → P (b :: pre ++ suf)) →
  ∀ l, Forall is_byte l → P l.
Proof.
  intros Hnil Hascii Hhigh l Hl. remember (length l) as n eqn:Hn.
  revert l Hl Hn. induction (Nat.lt_wf_0 n) as [n _ IH]. intros [|b l] Hl Hn; [done|].
  pose proof Hl as [Hb Hl']%Forall_cons. unfold is_byte in Hb. simpl in Hn.
  destruct (runes_step b l Hl) as [[Hlt _]|(Hge & r & pre & suf & -> & Hpre & Hr & E)].
  - apply Hascii; [unfold is_ascii; lia|]. apply (IH (length l)); [lia|done|done].
  - apply (Hhigh b pre suf r); try done. apply Forall_app in Hl' as [_ Hsuf].
    apply (IH (length suf)); [rewrite length_app in Hn; lia|done|done].
Qed.

Lemma runes_cons_ascii b l : is_ascii b → runes (b :: l) = b :: runes l.
Proof. unfold is_ascii. intros Hb. cbn [runes]. by rewrite (proj2 (Z.ltb_lt b 128)) by lia. Qed.

(** A text without runes beyond ASCII is ASCII. *)
Lemma ascii_runes l : Forall is_byte l → Forall (λ r, r < 128) (runes l) → Forall is_ascii l.
Proof.
  revert l. refine (runes_ind _ _ _ _); [done| |].
  - intros b l Hb IH. rewrite runes_cons_ascii by done. intros [_ Hl]%Forall_cons. auto.
  - intros b pre suf r _ _ Hr -> _ [? _]%Forall_cons. lia.
Qed.

(** An ASCII byte is there exactly if the rune is. *)
Lemma elem_of_runes_ascii c l : is_ascii c → Forall is_byte l → c ∈ runes l ↔ c ∈ l.
Proof.
  intros Hc. revert l. refine (runes_ind _ _ _ _); [done| |].
  - intros b l Hb IH. rewrite runes_cons_ascii by done. by rewrite !elem_of_cons, IH.
  - intros b pre suf r Hb Hpre Hr -> IH. unfold is_ascii in Hc.
    rewrite !elem_of_cons, elem_of_app, IH. split; [intros [->|?]; [lia|auto]|].
    intros [->|[Hin|?]]; [lia| |auto]. rewrite Forall_forall in Hpre. specialize (Hpre _ Hin). lia.
Qed.

Lemma lor_lt k a b : 0 < k → 0 ≤ a < 2 ^ k → 0 ≤ b < 2 ^ k → 0 ≤ Z.lor a b < 2 ^ k.
Proof.
  intros Hk Ha Hb. assert (0 ≤ Z.lor a b) by (apply Z.lor_nonneg; lia). split; [done|].
  destruct (decide (Z.lor a b = 0)) as [->|]; [lia|]. apply Z.log2_lt_pow2; [lia|].
  rewrite Z.log2_lor by lia.
  destruct (decide (a = 0)) as [->|], (decide (b = 0)) as [->|]; [done|..];
    repeat match goal with |- context [Z.log2 ?x] =>
      assert_fails (is_const x); pose proof (proj1 (Z.log2_lt_pow2 x k ltac:(lia)) ltac:(lia));
      generalize dependent (Z.log2 x); intros end;
    change (Z.log2 0) with 0 in *; lia.
Qed.

Lemma lead_byte p x : 128 ≤ p < 256 → 0 ≤ x < 256 → 128 ≤ Z.lor p x < 256.
Proof.
  intros Hp Hx. split; [apply (lor_ge 7); lia|]. apply (lor_lt 8); lia.
Qed.

Lemma land63_byte x : 0 ≤ Z.land x 63 < 256.
Proof. change 63 with (Z.ones 6). pose proof (land_byte_bounds x 6 ltac:(lia)). lia. Qed.

(** The encoding of a rune: itself if ASCII, bytes beyond ASCII otherwise. *)
Lemma encode_rune_bytes r :
  (is_ascii r ∧ encode_rune r = [r]) ∨ Forall (λ b, 128 ≤ b < 256) (encode_rune r).
Proof.
  assert (Hs : ∀ r k m, 0 ≤ k → 0 ≤ r < m * 2 ^ k → m ≤ 256 → 0 ≤ Z.shiftr r k < 256).
  { intros r' k m Hk Hr Hm. rewrite Z.shiftr_div_pow2 by done.
    pose proof (Z.pow_pos_nonneg 2 k ltac:(lia) Hk).
    split; [apply Z.div_pos; lia|]. apply Z.div_lt_upper_bound; [done|]. nia. }
  unfold encode_rune. repeat case_match; rewrite ?orb_true_iff in *; to_prop;
    [by left; split; [unfold is_ascii; lia|]|right..];
    repeat apply Forall_cons_2; try apply Forall_nil_2; try lia;
    try (apply lead_byte; [lia|]; try apply land63_byte);
    rewrite ?andb_true_iff, ?Z.leb_le, ?Z.ltb_lt in *.
  - apply (Hs r 6 32); lia.
  - apply (Hs r 12 16); lia.
  - apply (Hs r 18 256); lia.
Qed.

Lemma encode_rune_range r : Forall is_byte (encode_rune r).
Proof.
  destruct (encode_rune_bytes r) as [[Hr ->]|Hf].
  - repeat apply Forall_cons_2; [|by apply Forall_nil_2]. unfold is_ascii, is_byte in *. lia.
  - eapply Forall_impl; [done|]. unfold is_byte. simpl. lia.
Qed.

Lemma bytes_of_map_runes f s :
  bytes_of (map_runes f s) = mjoin ((λ r, encode_rune (f r)) <$> range_runes s).
Proof.
  unfold map_runes. apply bytes_of_string_of. apply Forall_forall. intros b Hb.
  apply list_elem_of_join in Hb as (k & Hb & Hk). apply list_elem_of_fmap in Hk as (r & -> & _).
  pose proof (encode_rune_range (f r)) as Hf. rewrite Forall_forall in Hf. auto.
Qed.

(** The ASCII bytes of a mapped text are images of its runes. *)
Lemma ascii_of_map_runes f s b :
  is_ascii b → b ∈ bytes_of (map_runes f s) → ∃ r, r ∈ range_runes s ∧ b = f r.
Proof.
  intros Hb Hin. rewrite bytes_of_map_runes in Hin.
  apply list_elem_of_join in Hin as (k & Hin & Hk). apply list_elem_of_fmap in Hk as (r & -> & Hr).
  exists r. split; [done|]. destruct (encode_rune_bytes (f r)) as [[_ E]|Hf].
  - rewrite E in Hin. by apply list_elem_of_singleton in Hin.
  - rewrite Forall_forall in Hf. specialize (Hf _ Hin). unfold is_ascii in Hb. simpl in Hf. lia.
Qed.
