(* ===== verification/Sha256.v ===== *)
(** * SHA-256

    The digest the program takes from [crypto/sha256], of a byte string, with
    32-bit words kept in [[0, 2^32)].  [Sum256] is the digest as a 32-byte
    string. *)

From S2P Require Import Prelude GoStrings.

Local Open Scope Z_scope.

Definition w32 (x : Z) : Z := x mod 2 ^ 32.
Definition add32 (x y : Z) : Z := w32 (x + y).
Definition rotr (n x : Z) : Z := Z.lor (Z.shiftr x n) (w32 (Z.shiftl x (32 - n))).
Definition not32 (x : Z) : Z := Z.lxor x (2 ^ 32 - 1).

Definition round_constants : list Z :=
  [
    1116352408; 1899447441; 3049323471; 3921009573; 961987163; 1508970993;
    2453635748; 2870763221; 3624381080; 310598401; 607225278; 1426881987;
    1925078388; 2162078206; 2614888103; 3248222580; 3835390401; 4022224774;
    264347078; 604807628; 770255983; 1249150122; 1555081692; 1996064986; 2554220882;
    2821834349; 2952996808; 3210313671; 3336571891; 3584528711; 113926993;
    338241895; 666307205; 773529912; 1294757372; 1396182291; 1695183700; 1986661051;
    2177026350; 2456956037; 2730485921; 2820302411; 3259730800; 3345764771;
    3516065817; 3600352804; 4094571909; 275423344; 430227734; 506948616; 659060556;
    883997877; 958139571; 1322822218; 1537002063; 1747873779; 1955562222;
    2024104815; 2227730452; 2361852424; 2428436474; 2756734187; 3204031479;
    3329325298
  ].

Definition initial_hash : list Z :=
  [
    1779033703; 3144134277; 1013904242; 2773480762; 1359893119; 2600822924;
    528734635; 1541459225
  ].

Definition ch (x y z : Z) : Z := Z.lxor (Z.land x y) (Z.land (not32 x) z).
Definition maj (x y z : Z) : Z := Z.lxor (Z.land x y) (Z.lxor (Z.land x z) (Z.land y z)).
Definition big_sigma0 (x : Z) : Z := Z.lxor (rotr 2 x) (Z.lxor (rotr 13 x) (rotr 22 x)).
Definition big_sigma1 (x : Z) : Z := Z.lxor (rotr 6 x) (Z.lxor (rotr 11 x) (rotr 25 x)).
Definition small_sigma0 (x : Z) : Z := Z.lxor (rotr 7 x) (Z.lxor (rotr 18 x) (Z.shiftr x 3)).
Definition small_sigma1 (x : Z) : Z := Z.lxor (rotr 17 x) (Z.lxor (rotr 19 x) (Z.shiftr x 10)).

(** Big-endian encoding of [n] bytes. *)
Fixpoint big_endian (n : nat) (x : Z) : list Z :=
  match n with
  | O => []
  | S n => (x / 256 ^ Z.of_nat n) mod 256 :: big_endian n x
  end.

(** Padding: a one bit, zeros, and the bit length on 64 bits. *)
Definition pad (msg : list Z) : list Z :=
  let l := Z.of_nat (length msg) in
  msg ++ [128] ++ replicate (Z.to_nat ((55 - l) mod 64)) 0 ++ big_endian 8 (8 * l).

Fixpoint words (l : list Z) : list Z :=
  match l with
  | a :: b :: c :: d :: t => (a * 2 ^ 24 + b * 2 ^ 16 + c * 2 ^ 8 + d) :: words t
  | _ => []
  end.

(** The message schedule, most recent word first. *)
Fixpoint schedule (n : nat) (recent : list Z) : list Z :=
  match n with
  | O => recent
  | S n =>
      let w := add32 (add32 (small_sigma1 (nth 1 recent 0)) (nth 6 recent 0))
                 (add32 (small_sigma0 (nth 14 recent 0)) (nth 15 recent 0)) in
      schedule n (w :: recent)
  end.

Record state := St { sa : Z; sb : Z; sc : Z; sd : Z; se : Z; sf : Z; sg : Z; sh : Z }.

Definition round (s : state) (kw : Z * Z) : state :=
  let t1 := add32 (add32 (sh s) (big_sigma1 (se s)))
              (add32 (ch (se s) (sf s) (sg s)) (add32 kw.1 kw.2)) in
  let t2 := add32 (big_sigma0 (sa s)) (maj (sa s) (sb s) (sc s)) in
  St (add32 t1 t2) (sa s) (sb s) (sc s) (add32 (sd s) t1) (se s) (sf s) (sg s).

Definition compress (h : list Z) (block : list Z) : list Z :=
  let w := reverse (schedule 48 (reverse (words block))) in
  let s0 := St (nth 0 h 0) (nth 1 h 0) (nth 2 h 0) (nth 3 h 0)
               (nth 4 h 0) (nth 5 h 0) (nth 6 h 0) (nth 7 h 0) in
  let s := foldl round s0 (zip round_constants w) in
  zip_with add32 h [sa s; sb s; sc s; sd s; se s; sf s; sg s; sh s].

Fixpoint blocks (n : nat) (h : list Z) (l : list Z) : list Z :=
  match n with
  | O => h
  | S n => blocks n (compress h (take 64 l)) (drop 64 l)
  end.

Definition sha256 (msg : string) : list Z :=
  let padded := pad (bytes_of msg) in
  mjoin (big_endian 4 <$> blocks (length padded / 64)%nat initial_hash padded).

(** [sha256.Sum256] *)
Definition Sum256 (s : string) : string := string_of (sha256 s).

(** The digest of "abc" from FIPS 180-4. *)
Example sha256_abc :
  sha256 "abc" =
  [186; 120; 22; 191; 143; 1; 207; 234; 65; 65; 64; 222; 93; 174; 34; 35;
   176; 3; 97; 163; 150; 23; 122; 156; 180; 16; 255; 97; 242; 0; 21; 173].
Proof. vm_compute. reflexivity. Qed.
