(* ===== verification/Model.v ===== *)
(** * The delivery data model: internal/delivery/model.go and uuid.go

    The structs of package [delivery], its sentinel errors, the supported
    outbound methods, and the generation of version-4 UUID texts. *)

From S2P Require Import Prelude GoStrings.
From Stdlib Require Import Ascii SpecFloat.

Local Open Scope Z_scope.

(** ** Statuses *)

Inductive Status : Type :=
  | StatusPending
  | StatusDelivering
  | StatusSucceeded
  | StatusFailedPermanent.

#[global] Instance Status_eq_dec : EqDecision Status.
Proof. solve_decision. Defined.

Definition status_text (s : Status) : string :=
  match s with
  | StatusPending => "pending"
  | StatusDelivering => "delivering"
  | StatusSucceeded => "succeeded"
  | StatusFailedPermanent => "failed_permanent"
  end.

(** The values of [delivery_attempts.result_class], passed as text by
    [completeResult]. *)
Inductive ResultClass : Type :=
  | ClassSucceeded
  | ClassRetryableFailure
  | ClassPermanentFailure.

#[global] Instance ResultClass_eq_dec : EqDecision ResultClass.
Proof. solve_decision. Defined.

Definition class_text (c : ResultClass) : string :=
  match c with
  | ClassSucceeded => "succeeded"
  | ClassRetryableFailure => "retryable_failure"
  | ClassPermanentFailure => "permanent_failure"
  end.

(** ** Errors

    The sentinels keep their identity through [errors.Is].  Every error of the
    database driver, a violated constraint included, is [ErrDatabase]; the
    checks on arguments are [ErrInvalidArgument]; a failing random source is
    [ErrRandom].  Message texts are not kept. *)

Inductive error : Type :=
  | ErrUnauthorized
  | ErrDestinationDenied
  | ErrIdempotencyConflict
  | ErrBacklogCapacity
  | ErrNotFound
  | ErrReplayConflict
  | ErrDeliveryNotClaimable
  | ErrWorkerLeaseLost
  | ErrOutboxLeaseLost
  | ErrBootstrapConflict
  | ErrInvalidArgument
  | ErrRandom
  | ErrDatabase.

#[global] Instance error_eq_dec : EqDecision error.
Proof. solve_decision. Defined.

(** ** Structs *)

(** A Go slice: [None] is the nil slice, which differs from the empty one
    under [reflect.DeepEqual] and is encoded as SQL NULL. *)
Definition slice (A : Type) : Type := option (list A).
Definition elems {A} (s : slice A) : list A := default [] s.

Module Principal.
Record t := mk { CallerID : string; IsOperator : bool }.
End Principal.

Module DestinationVersion.
Record t := mk {
  DestinationID : string;
  Version : Z;
  URL : string;
  NetworkPolicy : string;
  AllowedMethods : slice string;
  AllowedHeaders : slice string;
  SecretRef : string;
  CredentialHeader : string;
  IdempotencyHeader : string;
  SuccessStatuses : slice Z;
  RetryStatuses : slice Z;
  ConnectTimeout : Z;      (* time.Duration, nanoseconds *)
  RequestTimeout : Z;
  RatePerSecond : spec_float;   (* float64 *)
  MaxConcurrency : Z
}.
End DestinationVersion.

(** Instants are nanoseconds since the Unix epoch; Go's zero time stands for an
    absent one. *)
Module Delivery.
Record t := mk {
  ID : string;
  CallerID : string;
  DestinationID : string;
  DestinationVersion : Z;
  Method : string;
  CallerHeaders : gmap string string;
  Body : string;
  SupplierIdempotencyValue : string;
  Status : Status;
  Generation : Z;
  AcceptedAt : Z;
  RetryDeadline : Z;
  NextAttemptAt : Z;
  LeaseOwner : string;
  LeaseToken : string;
  LeaseUntil : option Z
}.
End Delivery.

Module AttemptSummary.
Record t := mk {
  Generation : Z;
  ResultClass : ResultClass;
  ResponseStatus : option Z;
  ErrorCategory : option string;
  StartedAt : Z;
  FinishedAt : Z
}.
End AttemptSummary.

Module Submission.
Record t := mk {
  CallerID : string;
  IdempotencyKey : string;
  RequestHash : string;      (* [32]byte *)
  DestinationID : string;
  DestinationVersion : Z;
  Method : string;
  CallerHeaders : gmap string string;
  Body : string;
  SupplierIdempotencyValue : string;
  AcceptedAt : Z;
  RetryDeadline : Z
}.
End Submission.

Module BootstrapConfig.
Record t := mk {
  CallerID : string;
  CallerAPIKey : string;
  Destination : DestinationVersion.t
}.
End BootstrapConfig.

Module AttemptResult.
Record t := mk {
  DeliveryID : string;
  Generation : Z;
  LeaseOwner : string;
  LeaseToken : string;
  ResponseStatus : option Z;
  ErrorCategory : string;
  StartedAt : Z;
  FinishedAt : Z
}.
End AttemptResult.

Module OutboxEvent.
Record t := mk {
  ID : string;
  DeliveryID : string;
  Generation : Z;
  TraceID : string;
  LeaseOwner : string;
  LeaseToken : string
}.
End OutboxEvent.

(** ** Supported methods *)

Definition IsSupportedOutboundMethod `{Unicode} (method : string) : bool :=
  EqualFold method "POST" || EqualFold method "PUT" ||
  EqualFold method "PATCH" || EqualFold method "DELETE".

(** ** UUIDs *)

Definition hex_char (n : Z) : ascii :=
  char_of (if n <? 10 then 48 + n else 87 + n).

(** [%x] of a byte slice: two lower-case digits per byte. *)
Fixpoint hex_string (l : list Z) (rest : string) : string :=
  match l with
  | [] => rest
  | b :: l => String (hex_char (Z.shiftr b 4)) (String (hex_char (Z.land b 15)) (hex_string l rest))
  end.

(** [newUUID] with the sixteen bytes [rand.Read] gave, or its failure. *)
Definition newUUID (random : option string) : result error string :=
  match random with
  | None => Err ErrRandom
  | Some value =>
      let value := bytes_of value in
      let value := <[6%nat := Z.lor (Z.land (value !!! 6%nat) 15) 64]> value in
      let value := <[8%nat := Z.lor (Z.land (value !!! 8%nat) 63) 128]> value in
      Ok (hex_string (take 4 value) (String "-"
         (hex_string (take 2 (drop 4 value)) (String "-"
         (hex_string (take 2 (drop 6 value)) (String "-"
         (hex_string (take 2 (drop 8 value)) (String "-"
         (hex_string (take 6 (drop 10 value)) "")))))))))
  end.
