(* ===== verification/Database.v ===== *)
(** * The PostgreSQL side: schema, statements, transactions

    The tables of migrations/ with their constraints, and the meaning of the
    statements the store sends: rows rewritten in place, constrained inserts,
    cascading deletes, ordered selections with SKIP LOCKED, transactions that
    roll back on error, and commits whose outcome the client may not learn. *)

From S2P Require Import Prelude GoStrings Model.
From Stdlib Require Import SpecFloat.

Local Open Scope Z_scope.

(** ** Time

    [timestamptz] has microsecond resolution: pgx truncates a Go instant when
    it encodes it.  A statement reads [statement_timestamp()] once; each
    occurrence of [clock_timestamp()] is evaluated for each row on its own. *)

Definition timestamptz_of (t : Z) : Z := t / 1000.
Definition time_of (ts : Z) : Z := ts * 1000.

Record clock := Clock {
  statement_timestamp : Z;
  clock_timestamp : string → nat → Z    (* row, occurrence in the statement *)
}.

(** A clock that does not move during the statement. *)
Definition still (ts : Z) : clock := Clock ts (λ _ _, ts).

Definition ms : Z := 1000.                    (* interval '1 millisecond' *)
Definition hours24 : Z := 86400000000.        (* interval '24 hours' *)

(** [duration.Milliseconds()] truncates toward zero. *)
Definition Milliseconds (d : Z) : Z := Z.quot d 1000000.

(** ** Rows *)

Record caller_row := CallerRow {
  c_api_key_hash : string;
  c_is_operator : bool
}.

Record version_row := VersionRow {
  v_url : string;
  v_network_policy : string;
  v_allowed_methods : list string;
  v_allowed_headers : list string;
  v_secret_ref : string;
  v_credential_header : string;
  v_idempotency_header : string;
  v_success_statuses : list Z;
  v_retry_statuses : list Z;
  v_connect_timeout_ms : Z;
  v_request_timeout_ms : Z;
  v_rate_per_second : spec_float;
  v_max_concurrency : Z
}.

Record delivery_row := DeliveryRow {
  d_caller_id : string;
  d_idempotency_key : string;
  d_request_hash : string;
  d_destination_id : string;
  d_destination_version : Z;
  d_method : string;
  d_caller_headers : gmap string string;
  d_body : string;
  d_supplier_idempotency_value : string;
  d_accepted_at : Z;
  d_created_at : Z;
  d_status : Status;
  d_generation : Z;
  d_retry_deadline : Z;
  d_next_attempt_at : Z;
  d_updated_at : Z;
  d_lease_owner : option string;
  d_lease_token : option string;
  d_lease_until : option Z
}.

Record outbox_row := OutboxRow {
  e_delivery_id : string;
  e_generation : Z;
  e_trace_id : string;
  e_available_at : Z;
  e_published_at : option Z;
  e_observed_at : option Z;
  e_lease_owner : option string;
  e_lease_token : option string;
  e_lease_until : option Z;
  e_created_at : Z
}.

Record attempt_row := AttemptRow {
  a_delivery_id : string;
  a_generation : Z;
  a_lease_token : string;
  a_result_class : ResultClass;
  a_response_status : option Z;
  a_error_category : option string;
  a_started_at : Z;
  a_finished_at : Z
}.

Record audit_row := AuditRow {
  r_delivery_id : string;
  r_from_generation : Z;
  r_to_generation : Z;
  r_operator_id : string;
  r_reason : string;
  r_replayed_at : Z
}.

(** [UPDATE deliveries SET ...]: the columns some statement of the program
    assigns; an assignment [col = col] leaves it. *)
Definition set_delivery (r : delivery_row) (status : Status)
    (generation next_attempt_at retry_deadline updated_at : Z)
    (lease_owner lease_token : option string) (lease_until : option Z) : delivery_row :=
  {| d_caller_id := d_caller_id r;
     d_idempotency_key := d_idempotency_key r;
     d_request_hash := d_request_hash r;
     d_destination_id := d_destination_id r;
     d_destination_version := d_destination_version r;
     d_method := d_method r;
     d_caller_headers := d_caller_headers r;
     d_body := d_body r;
     d_supplier_idempotency_value := d_supplier_idempotency_value r;
     d_accepted_at := d_accepted_at r;
     d_created_at := d_created_at r;
     d_status := status;
     d_generation := generation;
     d_retry_deadline := retry_deadline;
     d_next_attempt_at := next_attempt_at;
     d_updated_at := updated_at;
     d_lease_owner := lease_owner;
     d_lease_token := lease_token;
     d_lease_until := lease_until |}.

(** [UPDATE outbox_events SET ...] *)
Definition set_event (e : outbox_row) (trace_id : string) (available_at : Z)
    (published_at observed_at : option Z)
    (lease_owner lease_token : option string) (lease_until : option Z) : outbox_row :=
  {| e_delivery_id := e_delivery_id e;
     e_generation := e_generation e;
     e_trace_id := trace_id;
     e_available_at := available_at;
     e_published_at := published_at;
     e_observed_at := observed_at;
     e_lease_owner := lease_owner;
     e_lease_token := lease_token;
     e_lease_until := lease_until;
     e_created_at := e_created_at e |}.

(** A freshly inserted Outbox row. *)
Definition new_event (delivery_id : string) (generation : Z) (trace_id : string)
    (available_at created_at : Z) : outbox_row :=
  OutboxRow delivery_id generation trace_id available_at None None None None None created_at.

(** ** The database *)

Record DB := mkDB {
  callers : gmap string caller_row;
  destinations : gmap string Z;      (* current_version *)
  destination_versions : gmap (string * Z) version_row;
  caller_destinations : gset (string * string);
  deliveries : gmap string delivery_row;
  outbox_events : gmap string outbox_row;
  delivery_attempts : gmap string attempt_row;
  replay_audits : gmap string audit_row
}.

Definition empty_db : DB := mkDB ∅ ∅ ∅ ∅ ∅ ∅ ∅ ∅.

Definition set_deliveries (m : gmap string delivery_row) (db : DB) : DB :=
  mkDB (callers db) (destinations db) (destination_versions db) (caller_destinations db)
    m (outbox_events db) (delivery_attempts db) (replay_audits db).
Definition set_outbox_events (m : gmap string outbox_row) (db : DB) : DB :=
  mkDB (callers db) (destinations db) (destination_versions db) (caller_destinations db)
    (deliveries db) m (delivery_attempts db) (replay_audits db).
Definition set_delivery_attempts (m : gmap string attempt_row) (db : DB) : DB :=
  mkDB (callers db) (destinations db) (destination_versions db) (caller_destinations db)
    (deliveries db) (outbox_events db) m (replay_audits db).
Definition set_replay_audits (m : gmap string audit_row) (db : DB) : DB :=
  mkDB (callers db) (destinations db) (destination_versions db) (caller_destinations db)
    (deliveries db) (outbox_events db) (delivery_attempts db) m.

(** ** CHECK constraints *)

(** deliveries_lease_tuple_consistent *)
Definition lease_tuple_consistent (r : delivery_row) : bool :=
  match d_status r with
  | StatusDelivering =>
      bool_decide (is_Some (d_lease_owner r)) && bool_decide (is_Some (d_lease_token r)) &&
      bool_decide (is_Some (d_lease_until r))
  | _ =>
      bool_decide (d_lease_owner r = None) && bool_decide (d_lease_token r = None) &&
      bool_decide (d_lease_until r = None)
  end.

(** generation bigint CHECK (generation >= 0) *)
Definition generation_ok (g : Z) : bool := (0 <=? g) && (g <=? max_int64).

Definition check_delivery (r : delivery_row) : bool :=
  (len (d_request_hash r) =? 32) && generation_ok (d_generation r) &&
  lease_tuple_consistent r.

(** outbox_lease_is_complete *)
Definition outbox_lease_is_complete (e : outbox_row) : bool :=
  (bool_decide (e_lease_owner e = None) && bool_decide (e_lease_token e = None) &&
   bool_decide (e_lease_until e = None)) ||
  (bool_decide (is_Some (e_lease_owner e)) && bool_decide (is_Some (e_lease_token e)) &&
   bool_decide (is_Some (e_lease_until e))).

Definition check_event (e : outbox_row) : bool :=
  generation_ok (e_generation e) && outbox_lease_is_complete e.

Definition check_attempt (a : attempt_row) : bool :=
  generation_ok (a_generation a) && (a_started_at a <=? a_finished_at a).

(** [length(reason)] counts characters. *)
Definition check_audit (r : audit_row) : bool :=
  let n := Z.of_nat (length (range_runes (r_reason r))) in
  (0 <=? r_from_generation r) && (r_to_generation r =? r_from_generation r + 1) &&
  (1 <=? n) && (n <=? 1000).

Definition check_version (v : version_row) : bool :=
  (0 <? v_connect_timeout_ms v) && (v_connect_timeout_ms v <? 2 ^ 31) &&
  (0 <? v_request_timeout_ms v) && (v_request_timeout_ms v <=? 60000) &&
  negb (SFleb (v_rate_per_second v) (S754_zero false)) &&
  (0 <? v_max_concurrency v) && (v_max_concurrency v <? 2 ^ 31).

(** ** Calls and transactions

    A call to the server can fail; an autocommitted statement or a COMMIT
    whose answer is lost may still have been applied. *)

Inductive io_outcome : Type :=
  | IoOk
  | IoErr (applied : bool).

(** What happens to the n-th call of an operation. *)
Definition IO : Type := nat → io_outcome.
Definition healthy : IO := λ _, IoOk.

Definition Tx (A : Type) : Type := DB → result error (A * DB).

#[global] Instance Tx_ret : MRet Tx := λ A a db, Ok (a, db).
#[global] Instance Tx_bind : MBind Tx := λ A B f m db,
  match m db with
  | Ok (a, db') => f a db'
  | Err e => Err e
  end.

Definition tx_fail {A} (e : error) : Tx A := λ _, Err e.
Definition tx_read {A} (f : DB → A) : Tx A := λ db, Ok (f db, db).
Definition tx_lift {A} (r : result error A) : Tx A := λ db,
  match r with Ok a => Ok (a, db) | Err e => Err e end.
Definition tx_guard (b : bool) (e : error) : Tx unit := λ db,
  if b then Ok (tt, db) else Err e.

(** A statement inside a transaction. *)
Definition call {A} (io : IO) (n : nat) (m : Tx A) : Tx A :=
  match io n with IoOk => m | IoErr _ => tx_fail ErrDatabase end.

(** A transaction: begin, run, commit; the deferred Rollback undoes the body
    on every error before the commit. *)
Definition run_tx {A} (io : IO) (begin_call commit_call : nat) (body : Tx A) (db : DB)
    : result error A * DB :=
  match io begin_call with
  | IoErr _ => (Err ErrDatabase, db)
  | IoOk =>
      match body db with
      | Err e => (Err e, db)
      | Ok (a, db') =>
          match io commit_call with
          | IoOk => (Ok a, db')
          | IoErr applied => (Err ErrDatabase, if applied then db' else db)
          end
      end
  end.

(** A single statement sent through the pool, autocommitted. *)
Definition exec {A} (io : IO) (n : nat) (m : Tx A) (db : DB) : result error A * DB :=
  match m db with
  | Err e => (match io n with IoOk => Err e | IoErr _ => Err ErrDatabase end, db)
  | Ok (a, db') =>
      match io n with
      | IoOk => (Ok a, db')
      | IoErr applied => (Err ErrDatabase, if applied then db' else db)
      end
  end.

(** A query through the pool: [None] is [pgx.ErrNoRows]. *)
Definition query_row {A} (io : IO) (n : nat) (no_rows : error) (row : option A)
    : result error A :=
  match io n with
  | IoErr _ => Err ErrDatabase
  | IoOk => match row with Some a => Ok a | None => Err no_rows end
  end.

(** ** Text as uuid

    [uuid_in] is PostgreSQL's input function for [uuid]: the canonical text of
    the value, or a syntax error. *)

Class Postgres := { uuid_in : string → option string }.

Definition as_uuid `{Postgres} (s : string) : result error string :=
  match uuid_in s with Some u => Ok u | None => Err ErrDatabase end.

(** ** Statements *)

(** UPDATE: the rows with a new value; a violated CHECK fails the statement. *)
Definition update_deliveries (f : string → delivery_row → option delivery_row)
    : Tx (gmap string delivery_row) := λ db,
  let touched := map_touched f (deliveries db) in
  if bool_decide (map_Forall (λ _ r, check_delivery r = true) touched)
  then Ok (touched, set_deliveries (map_update f (deliveries db)) db)
  else Err ErrDatabase.

Definition update_events (f : string → outbox_row → option outbox_row)
    : Tx (gmap string outbox_row) := λ db,
  let touched := map_touched f (outbox_events db) in
  if bool_decide (map_Forall (λ _ e, check_event e = true) touched)
  then Ok (touched, set_outbox_events (map_update f (outbox_events db)) db)
  else Err ErrDatabase.

(** INSERT INTO deliveries *)
Definition same_key (r r' : delivery_row) : bool :=
  bool_decide (d_caller_id r = d_caller_id r' ∧ d_idempotency_key r = d_idempotency_key r').

Definition insert_delivery (id : string) (r : delivery_row) : Tx unit := λ db,
  if bool_decide (is_Some (deliveries db !! id)) then Err ErrDatabase
  else if bool_decide (is_Some (map_find (λ _ r', same_key r r') (deliveries db)))
  then Err ErrDatabase
  else if bool_decide (callers db !! d_caller_id r = None) then Err ErrDatabase
  else if bool_decide
      (destination_versions db !! (d_destination_id r, d_destination_version r) = None)
  then Err ErrDatabase
  else if check_delivery r
  then Ok (tt, set_deliveries (<[id := r]> (deliveries db)) db)
  else Err ErrDatabase.

(** UNIQUE (delivery_id, generation) *)
Definition event_for (delivery_id : string) (generation : Z) (e : outbox_row) : bool :=
  bool_decide (e_delivery_id e = delivery_id ∧ e_generation e = generation).

Definition has_event (db : DB) (delivery_id : string) (generation : Z) : bool :=
  bool_decide (is_Some (map_find (λ _ e, event_for delivery_id generation e) (outbox_events db))).

(** INSERT INTO outbox_events *)
Definition insert_event (id : string) (e : outbox_row) : Tx unit := λ db,
  if bool_decide (is_Some (outbox_events db !! id)) then Err ErrDatabase
  else if has_event db (e_delivery_id e) (e_generation e) then Err ErrDatabase
  else if bool_decide (deliveries db !! e_delivery_id e = None) then Err ErrDatabase
  else if check_event e
  then Ok (tt, set_outbox_events (<[id := e]> (outbox_events db)) db)
  else Err ErrDatabase.

(** INSERT ... ON CONFLICT (delivery_id, generation) DO NOTHING: the number
    of rows inserted. *)
Definition insert_event_or_nothing (id : string) (e : outbox_row) : Tx Z := λ db,
  if has_event db (e_delivery_id e) (e_generation e) then Ok (0, db)
  else match insert_event id e db with
       | Ok (_, db') => Ok (1, db')
       | Err err => Err err
       end.

(** INSERT INTO delivery_attempts *)
Definition insert_attempt (id : string) (a : attempt_row) : Tx unit := λ db,
  if bool_decide (is_Some (delivery_attempts db !! id)) then Err ErrDatabase
  else if bool_decide (deliveries db !! a_delivery_id a = None) then Err ErrDatabase
  else if check_attempt a
  then Ok (tt, set_delivery_attempts (<[id := a]> (delivery_attempts db)) db)
  else Err ErrDatabase.

(** INSERT INTO replay_audits *)
Definition insert_audit (id : string) (r : audit_row) : Tx unit := λ db,
  if bool_decide (is_Some (replay_audits db !! id)) then Err ErrDatabase
  else if bool_decide (is_Some (map_find (λ _ r', bool_decide
      (r_delivery_id r' = r_delivery_id r ∧ r_to_generation r' = r_to_generation r))
      (replay_audits db)))
  then Err ErrDatabase
  else if bool_decide (deliveries db !! r_delivery_id r = None) then Err ErrDatabase
  else if bool_decide (callers db !! r_operator_id r = None) then Err ErrDatabase
  else if check_audit r
  then Ok (tt, set_replay_audits (<[id := r]> (replay_audits db)) db)
  else Err ErrDatabase.

(** DELETE FROM deliveries, with ON DELETE CASCADE of the other tables: the
    number of deliveries deleted. *)
Definition delete_deliveries (ids : gset string) : Tx Z := λ db,
  Ok (Z.of_nat (size (filter (λ kr, kr.1 ∈ ids) (deliveries db))),
      mkDB (callers db) (destinations db) (destination_versions db) (caller_destinations db)
        (filter (λ kr, kr.1 ∉ ids) (deliveries db))
        (filter (λ ke, e_delivery_id ke.2 ∉ ids) (outbox_events db))
        (filter (λ ka, a_delivery_id ka.2 ∉ ids) (delivery_attempts db))
        (filter (λ kr, r_delivery_id kr.2 ∉ ids) (replay_audits db))).

(** One insertion per row of a query, in order; the affected rows add up. *)
Fixpoint for_each {A} (f : A → Tx Z) (l : list A) : Tx Z :=
  match l with
  | [] => mret 0
  | a :: l => n ← f a; k ← for_each f l; mret (n + k)
  end.

(** ** Selections

    SELECT ... WHERE ... ORDER BY ... LIMIT n FOR UPDATE SKIP LOCKED: the scan
    yields the rows in some physical order, which decides ties; rows locked by
    other transactions are skipped before the limit counts. *)

Record scan := Scan {
  scan_order : list string;
  scan_locked : string → bool;
  scan_rank : string → Z         (* order in which RETURNING yields its rows *)
}.

Definition rank_le {R} (sc : scan) (a b : string * R) : Prop :=
  scan_rank sc a.1 ≤ scan_rank sc b.1.

#[global] Instance rank_le_dec {R} (sc : scan) : RelDecision (rank_le (R := R) sc).
Proof. intros a b. unfold rank_le. apply _. Defined.

(** A scan that sees every row of a table. *)
Definition covers {R} (sc : scan) (m : gmap string R) : Prop :=
  ∀ id, is_Some (m !! id) → id ∈ scan_order sc.

Definition scan_rows {R} (sc : scan) (m : gmap string R) : list (string * R) :=
  omap (λ id, pair id <$> m !! id) (remove_dups (scan_order sc)).

Definition key_le {R} (key : R → Z * Z) (a b : string * R) : Prop :=
  (key a.2).1 < (key b.2).1 ∨
  ((key a.2).1 = (key b.2).1 ∧ (key a.2).2 ≤ (key b.2).2).

#[global] Instance key_le_dec {R} (key : R → Z * Z) : RelDecision (key_le key).
Proof. intros a b. unfold key_le. solve_decision. Defined.

Definition select_for_update {R} (sc : scan) (where_ : string → R → bool)
    (order_by : R → Z * Z) (limit : Z) (m : gmap string R) : list (string * R) :=
  take (Z.to_nat limit)
    (filter (λ kr, scan_locked sc kr.1 = false)
      (merge_sort (key_le order_by)
        (filter (λ kr, where_ kr.1 kr.2 = true) (scan_rows sc m)))).

(** ** Reasoning about statements *)

Lemma tx_bind_Ok {A B} (m : Tx A) (f : A → Tx B) db b db' :
  (m ≫= f) db = Ok (b, db') ↔
  ∃ a db1, m db = Ok (a, db1) ∧ f a db1 = Ok (b, db').
Proof.
  unfold mbind, Tx_bind. destruct (m db) as [[a db1]|e]; naive_solver.
Qed.

Lemma tx_ret_Ok {A} (a a' : A) db db' :
  (mret a : Tx A) db = Ok (a', db') ↔ a' = a ∧ db' = db.
Proof. unfold mret, Tx_ret. naive_solver. Qed.

Lemma tx_read_Ok {A} (f : DB → A) db a db' :
  tx_read f db = Ok (a, db') ↔ a = f db ∧ db' = db.
Proof. unfold tx_read. naive_solver. Qed.

Lemma tx_lift_Ok {A} (r : result error A) db a db' :
  tx_lift r db = Ok (a, db') ↔ r = Ok a ∧ db' = db.
Proof. unfold tx_lift. destruct r; naive_solver. Qed.

Lemma tx_guard_Ok b e db db' u :
  tx_guard b e db = Ok (u, db') ↔ b = true ∧ db' = db.
Proof. unfold tx_guard. destruct b, u; naive_solver. Qed.

Lemma call_Ok {A} io n (m : Tx A) db a db' :
  call io n m db = Ok (a, db') ↔ io n = IoOk ∧ m db = Ok (a, db').
Proof. unfold call, tx_fail. destruct (io n); naive_solver. Qed.

Lemma as_uuid_Ok `{Postgres} s u : as_uuid s = Ok u ↔ uuid_in s = Some u.
Proof. unfold as_uuid. destruct (uuid_in s); naive_solver. Qed.

(** Break a successful run of a transaction body into its statements. *)
Ltac tx_inv :=
  repeat match goal with
  | H : (_ ≫= _) _ = Ok _ |- _ => apply tx_bind_Ok in H as (? & ? & ? & H)
  | H : mret _ _ = Ok (_, _) |- _ => apply tx_ret_Ok in H as [? ?]; subst
  | H : tx_read _ _ = Ok _ |- _ => apply tx_read_Ok in H as [? ?]; subst
  | H : tx_lift _ _ = Ok _ |- _ => apply tx_lift_Ok in H as [? ?]; subst
  | H : tx_guard _ _ _ = Ok _ |- _ => apply tx_guard_Ok in H as [? ?]; subst
  | H : call _ _ _ _ = Ok _ |- _ => apply call_Ok in H as [? H]
  | H : tx_fail _ _ = Ok _ |- _ => discriminate H
  | H : as_uuid _ = Ok _ |- _ => apply as_uuid_Ok in H
  end.

(** Whatever the client is told, the database either kept its state or took
    the one the body computed. *)
Lemma run_tx_cases {A} io b c (body : Tx A) db r db' :
  run_tx io b c body db = (r, db') → db' = db ∨ ∃ a, body db = Ok (a, db').
Proof.
  unfold run_tx. destruct (io b); [|naive_solver].
  destruct (body db) as [[a d]|]; [|naive_solver].
  destruct (io c) as [|[]]; naive_solver.
Qed.

Lemma run_tx_Ok {A} io b c (body : Tx A) db a db' :
  run_tx io b c body db = (Ok a, db') → body db = Ok (a, db').
Proof.
  unfold run_tx. destruct (io b); [|naive_solver].
  destruct (body db) as [[? d]|]; [|naive_solver].
  destruct (io c) as [|[]]; naive_solver.
Qed.

Lemma run_tx_Err {A} io b c (body : Tx A) db e db' :
  run_tx io b c body db = (Err e, db') → e ≠ ErrDatabase → db' = db ∧ body db = Err e.
Proof.
  unfold run_tx. destruct (io b); [|naive_solver].
  destruct (body db) as [[? d]|]; [|naive_solver].
  destruct (io c) as [|[]]; naive_solver.
Qed.

Lemma run_tx_healthy {A} b c (body : Tx A) db :
  run_tx healthy b c body db =
  match body db with Ok (a, db') => (Ok a, db') | Err e => (Err e, db) end.
Proof. done. Qed.

Lemma exec_cases {A} io n (m : Tx A) db r db' :
  exec io n m db = (r, db') → db' = db ∨ ∃ a, m db = Ok (a, db').
Proof.
  unfold exec. destruct (m db) as [[a d]|]; [|naive_solver].
  destruct (io n) as [|[]]; naive_solver.
Qed.

Lemma exec_Ok {A} io n (m : Tx A) db a db' :
  exec io n m db = (Ok a, db') → m db = Ok (a, db').
Proof.
  unfold exec. destruct (m db) as [[? d]|], (io n) as [|[]]; naive_solver.
Qed.

(** Successful statements. *)

Lemma update_deliveries_Ok f db t db' :
  update_deliveries f db = Ok (t, db') ↔
  map_Forall (λ _ r, check_delivery r = true) t ∧
  t = map_touched f (deliveries db) ∧
  db' = set_deliveries (map_update f (deliveries db)) db.
Proof. unfold update_deliveries. case_bool_decide; naive_solver. Qed.

Lemma update_events_Ok f db t db' :
  update_events f db = Ok (t, db') ↔
  map_Forall (λ _ e, check_event e = true) t ∧
  t = map_touched f (outbox_events db) ∧
  db' = set_outbox_events (map_update f (outbox_events db)) db.
Proof. unfold update_events. case_bool_decide; naive_solver. Qed.

Lemma has_event_true db d g :
  has_event db d g = true ↔
  ∃ id e, outbox_events db !! id = Some e ∧ e_delivery_id e = d ∧ e_generation e = g.
Proof.
  unfold has_event. rewrite bool_decide_eq_true. split.
  - intros [[id e] [Hl He]%map_find_Some]. unfold event_for in He. to_prop. naive_solver.
  - intros (id & e & He & Hd & Hg).
    destruct (map_find _ _) eqn:E; [by eexists|].
    rewrite map_find_None in E. apply E in He. unfold event_for in He.
    to_prop. naive_solver.
Qed.

Lemma has_event_false db d g :
  has_event db d g = false ↔
  ∀ id e, outbox_events db !! id = Some e → e_delivery_id e = d → e_generation e ≠ g.
Proof.
  rewrite <- not_true_iff_false, has_event_true. naive_solver.
Qed.

Lemma insert_delivery_Ok id r db u db' :
  insert_delivery id r db = Ok (u, db') ↔
  deliveries db !! id = None ∧
  (∀ id' r', deliveries db !! id' = Some r' → same_key r r' = false) ∧
  is_Some (callers db !! d_caller_id r) ∧
  is_Some (destination_versions db !! (d_destination_id r, d_destination_version r)) ∧
  check_delivery r = true ∧
  db' = set_deliveries (<[id := r]> (deliveries db)) db.
Proof.
  unfold insert_delivery. destruct u.
  destruct (deliveries db !! id) eqn:E1; simpl; [naive_solver|].
  destruct (map_find _ _) as [[id' r']|] eqn:E2; simpl.
  { apply map_find_Some in E2 as [? ?]. naive_solver congruence. }
  rewrite map_find_None in E2.
  repeat case_bool_decide; simpl;
    rewrite <- ?not_eq_None_Some; destruct (check_delivery r); naive_solver.
Qed.

Lemma insert_event_Ok id e db u db' :
  insert_event id e db = Ok (u, db') ↔
  outbox_events db !! id = None ∧
  has_event db (e_delivery_id e) (e_generation e) = false ∧
  is_Some (deliveries db !! e_delivery_id e) ∧
  check_event e = true ∧
  db' = set_outbox_events (<[id := e]> (outbox_events db)) db.
Proof.
  unfold insert_event. destruct u.
  destruct (outbox_events db !! id) eqn:E1; simpl; [naive_solver|].
  destruct (has_event _ _ _); simpl; [naive_solver|].
  case_bool_decide; rewrite <- ?not_eq_None_Some; destruct (check_event e); naive_solver.
Qed.

Lemma insert_attempt_Ok id a db u db' :
  insert_attempt id a db = Ok (u, db') ↔
  delivery_attempts db !! id = None ∧
  is_Some (deliveries db !! a_delivery_id a) ∧
  check_attempt a = true ∧
  db' = set_delivery_attempts (<[id := a]> (delivery_attempts db)) db.
Proof.
  unfold insert_attempt. destruct u.
  destruct (delivery_attempts db !! id) eqn:E1; simpl; [naive_solver|].
  case_bool_decide; rewrite <- ?not_eq_None_Some; destruct (check_attempt a); naive_solver.
Qed.

Lemma insert_audit_Ok id r db u db' :
  insert_audit id r db = Ok (u, db') ↔
  replay_audits db !! id = None ∧
  (∀ id' r', replay_audits db !! id' = Some r' →
     r_delivery_id r' = r_delivery_id r → r_to_generation r' ≠ r_to_generation r) ∧
  is_Some (deliveries db !! r_delivery_id r) ∧
  is_Some (callers db !! r_operator_id r) ∧
  check_audit r = true ∧
  db' = set_replay_audits (<[id := r]> (replay_audits db)) db.
Proof.
  unfold insert_audit. destruct u.
  destruct (replay_audits db !! id) eqn:E1; simpl; [naive_solver|].
  destruct (map_find _ _) as [[id' r']|] eqn:E2; simpl.
  { apply map_find_Some in E2 as [? ?]. to_prop. naive_solver. }
  rewrite map_find_None in E2.
  assert (HU : ∀ id' r', replay_audits db !! id' = Some r' →
     r_delivery_id r' = r_delivery_id r → r_to_generation r' ≠ r_to_generation r).
  { intros id' r' Hl. apply E2 in Hl. to_prop. naive_solver. }
  clear E2.
  repeat case_bool_decide; simpl;
    rewrite <- ?not_eq_None_Some; destruct (check_audit r); naive_solver.
Qed.

(** ** Selections *)

Lemma scan_rows_elem {R} sc (m : gmap string R) id r :
  (id, r) ∈ scan_rows sc m ↔ id ∈ scan_order sc ∧ m !! id = Some r.
Proof.
  unfold scan_rows. rewrite list_elem_of_omap. split.
  - intros (id' & Hin & Heq). apply fmap_Some in Heq as (r' & ? & ?). simplify_eq.
    by rewrite elem_of_remove_dups in Hin.
  - intros [Hin Hl]. exists id. rewrite elem_of_remove_dups, Hl. done.
Qed.

Lemma scan_rows_NoDup {R} sc (m : gmap string R) : NoDup (scan_rows sc m).*1.
Proof.
  unfold scan_rows. pose proof (NoDup_remove_dups (scan_order sc)) as Hnd.
  induction Hnd as [|id l Hin Hnd IH]; csimpl; [constructor|].
  destruct (m !! id) as [r|] eqn:E; csimpl; [|done].
  constructor; [|done]. intros Hf. apply Hin.
  apply list_elem_of_fmap in Hf as ([id' r'] & -> & Hf).
  apply list_elem_of_omap in Hf as (id2 & Hin2 & Heq).
  apply fmap_Some in Heq as (? & ? & ?). by simplify_eq/=.
Qed.

Lemma select_elem {R} sc w ord limit (m : gmap string R) id r :
  (id, r) ∈ select_for_update sc w ord limit m →
  m !! id = Some r ∧ w id r = true ∧ scan_locked sc id = false.
Proof.
  unfold select_for_update. intros Hin.
  apply elem_of_take in Hin as (i & Hin & _).
  apply list_elem_of_lookup_2 in Hin.
  apply list_elem_of_filter in Hin as [Hl Hin].
  rewrite merge_sort_Permutation in Hin.
  apply list_elem_of_filter in Hin as [Hw Hin].
  apply scan_rows_elem in Hin as [_ ?]. naive_solver.
Qed.

Lemma NoDup_filter_fst {R} (P : string * R → Prop) `{!∀ x, Decision (P x)} l :
  NoDup l.*1 → NoDup (filter P l).*1.
Proof.
  induction l as [|[k r] l IH]; csimpl; [done|]. intros [Hn Hd]%NoDup_cons.
  rewrite filter_cons. case_decide; csimpl; [|auto].
  constructor; [|auto]. contradict Hn.
  apply list_elem_of_fmap in Hn as (x & -> & Hx).
  apply list_elem_of_filter in Hx as [_ Hx]. apply list_elem_of_fmap. eauto.
Qed.

Lemma select_NoDup {R} sc w ord limit (m : gmap string R) :
  NoDup (select_for_update sc w ord limit m).*1.
Proof.
  unfold select_for_update. rewrite fmap_take.
  eapply NoDup_take, NoDup_filter_fst.
  rewrite merge_sort_Permutation. apply NoDup_filter_fst, scan_rows_NoDup.
Qed.

Lemma select_length {R} sc w ord limit (m : gmap string R) :
  (length (select_for_update sc w ord limit m) ≤ Z.to_nat limit)%nat.
Proof. unfold select_for_update. rewrite length_take. lia. Qed.

(** A scan that sees the table selects every unlocked matching row when the
    limit leaves room for all the matching ones. *)
Lemma select_complete {R} sc w ord limit (m : gmap string R) id r :
  covers sc m → Z.of_nat (size m) ≤ limit →
  m !! id = Some r → w id r = true → scan_locked sc id = false →
  (id, r) ∈ select_for_update sc w ord limit m.
Proof.
  intros Hc Hlim Hl Hw Hlk. unfold select_for_update.
  rewrite take_ge.
  - apply list_elem_of_filter; split; [done|]. rewrite merge_sort_Permutation.
    apply list_elem_of_filter; split; [done|]. apply scan_rows_elem. eauto.
  - assert (Hlen : (length (scan_rows sc m) ≤ size m)%nat).
    { rewrite <- (length_fmap fst).
      assert (Hsub : list_to_set (scan_rows sc m).*1 ⊆ dom m).
      { intros k. rewrite elem_of_list_to_set, elem_of_dom, list_elem_of_fmap.
        intros ([k' r'] & -> & Hin). apply scan_rows_elem in Hin as [_ ?]. eauto. }
      apply subseteq_size in Hsub.
      rewrite size_list_to_set, size_dom in Hsub; [done|apply scan_rows_NoDup]. }
    etrans; [apply length_filter|]. rewrite merge_sort_Permutation.
    etrans; [apply length_filter|]. lia.
Qed.
