(* ===== verification/Store.v ===== *)
(** * internal/delivery/store.go

    Callers and destinations, submission under the admission lock, status
    queries, and the local bootstrap of the registry.  Every operation takes
    the outcome of each database call, the clocks its statements read and the
    random bytes it draws; it gives what the caller sees and the database the
    operation leaves. *)

From S2P Require Import Prelude GoStrings Sha256 Model Database.
From Stdlib Require Import SpecFloat.

Local Open Scope Z_scope.

Record Store := mkStore { backlogLimit : Z }.

Definition NewStore (pool_is_nil : bool) (limit : Z) : result error Store :=
  if pool_is_nil then Err ErrInvalidArgument
  else if limit <=? 0 then Err ErrInvalidArgument
  else Ok (mkStore limit).

(** The random source of an operation: the bytes of its n-th [rand.Read]. *)
Definition random : Type := nat → option string.

(** ** Reading rows *)

(** A string map through [json.Marshal], a [jsonb] column and
    [json.Unmarshal]: invalid UTF-8 becomes U+FFFD; keys are written in order
    and the last of equal keys is kept. *)
Definition json_string (s : string) : string := map_runes (λ r, r) s.

Definition key_order (a b : string * string) : Prop := String.le a.1 b.1.
#[global] Instance key_order_dec : RelDecision key_order.
Proof. intros a b. unfold key_order. apply _. Defined.

Definition json_headers (m : gmap string string) : gmap string string :=
  foldl (λ acc kv, <[json_string kv.1 := json_string kv.2]> acc) ∅
    (merge_sort key_order (map_to_list m)).

(** The columns [queryDelivery] scans; it reads no lease. *)
Definition delivery_of (id : string) (r : delivery_row) : Delivery.t :=
  {| Delivery.ID := id;
     Delivery.CallerID := d_caller_id r;
     Delivery.DestinationID := d_destination_id r;
     Delivery.DestinationVersion := d_destination_version r;
     Delivery.Method := d_method r;
     Delivery.CallerHeaders := d_caller_headers r;
     Delivery.Body := d_body r;
     Delivery.SupplierIdempotencyValue := d_supplier_idempotency_value r;
     Delivery.Status := d_status r;
     Delivery.Generation := d_generation r;
     Delivery.AcceptedAt := time_of (d_accepted_at r);
     Delivery.RetryDeadline := time_of (d_retry_deadline r);
     Delivery.NextAttemptAt := time_of (d_next_attempt_at r);
     Delivery.LeaseOwner := "";
     Delivery.LeaseToken := "";
     Delivery.LeaseUntil := None |}.

Definition queryDelivery (where_ : string → delivery_row → bool) (db : DB)
    : option (Delivery.t * string) :=
  '(id, r) ← map_find where_ (deliveries db);
  Some (delivery_of id r, d_request_hash r).

Definition queryDeliveryByIdempotency (callerID idempotencyKey : string) (db : DB)
    : option (Delivery.t * string) :=
  queryDelivery (λ _ r, bool_decide
    (d_caller_id r = callerID ∧ d_idempotency_key r = idempotencyKey)) db.

Definition destination_of (id : string) (version : Z) (v : version_row) : DestinationVersion.t :=
  {| DestinationVersion.DestinationID := id;
     DestinationVersion.Version := version;
     DestinationVersion.URL := v_url v;
     DestinationVersion.NetworkPolicy := v_network_policy v;
     DestinationVersion.AllowedMethods := Some (v_allowed_methods v);
     DestinationVersion.AllowedHeaders := Some (v_allowed_headers v);
     DestinationVersion.SecretRef := v_secret_ref v;
     DestinationVersion.CredentialHeader := v_credential_header v;
     DestinationVersion.IdempotencyHeader := v_idempotency_header v;
     DestinationVersion.SuccessStatuses := Some (v_success_statuses v);
     DestinationVersion.RetryStatuses := Some (v_retry_statuses v);
     DestinationVersion.ConnectTimeout := v_connect_timeout_ms v * 1000000;
     DestinationVersion.RequestTimeout := v_request_timeout_ms v * 1000000;
     DestinationVersion.RatePerSecond := v_rate_per_second v;
     DestinationVersion.MaxConcurrency := v_max_concurrency v |}.

(** internal/delivery/worker_store.go *)
Definition queryDestinationVersion (destinationID : string) (version : Z) (db : DB)
    : option DestinationVersion.t :=
  destination_of destinationID version <$> destination_versions db !! (destinationID, version).

Section operations.
Context `{Unicode, Postgres}.

(** ** Authentication and authorization *)

Definition AuthenticatePrincipal (io : IO) (apiKey : string) (db : DB)
    : result error Principal.t :=
  let digest := Sum256 apiKey in
  query_row io 0 ErrUnauthorized
    ('(id, c) ← map_find (λ _ c, bool_decide (c_api_key_hash c = digest)) (callers db);
     Some (Principal.mk id (c_is_operator c))).

Definition AuthorizedDestination (io : IO) (callerID destinationID : string) (db : DB)
    : result error DestinationVersion.t :=
  query_row io 0 ErrDestinationDenied
    (if bool_decide ((callerID, destinationID) ∈ caller_destinations db)
     then current ← destinations db !! destinationID;
          queryDestinationVersion destinationID current db
     else None).

(** ** Submission *)

(** SELECT count of the rows whose status is pending or delivering *)
Definition is_active (r : delivery_row) : bool :=
  bool_decide (d_status r = StatusPending ∨ d_status r = StatusDelivering).
Definition active_count (db : DB) : Z := map_count is_active (deliveries db).

Definition submitted_row (clk : clock) (deliveryID supplierValue : string)
    (submission : Submission.t) : delivery_row :=
  {| d_caller_id := Submission.CallerID submission;
     d_idempotency_key := Submission.IdempotencyKey submission;
     d_request_hash := Submission.RequestHash submission;
     d_destination_id := Submission.DestinationID submission;
     d_destination_version := Submission.DestinationVersion submission;
     d_method := Submission.Method submission;
     d_caller_headers := json_headers (Submission.CallerHeaders submission);
     d_body := Submission.Body submission;
     d_supplier_idempotency_value := supplierValue;
     d_accepted_at := timestamptz_of (Submission.AcceptedAt submission);
     d_created_at := clock_timestamp clk deliveryID 0;
     d_status := StatusPending;
     d_generation := 0;
     d_retry_deadline := timestamptz_of (Submission.RetryDeadline submission);
     d_next_attempt_at := timestamptz_of (Submission.AcceptedAt submission);
     d_updated_at := clock_timestamp clk deliveryID 1;
     d_lease_owner := None;
     d_lease_token := None;
     d_lease_until := None |}.

Definition submitted_delivery (deliveryID supplierValue : string)
    (submission : Submission.t) : Delivery.t :=
  {| Delivery.ID := deliveryID;
     Delivery.CallerID := Submission.CallerID submission;
     Delivery.DestinationID := Submission.DestinationID submission;
     Delivery.DestinationVersion := Submission.DestinationVersion submission;
     Delivery.Method := Submission.Method submission;
     Delivery.CallerHeaders := Submission.CallerHeaders submission;
     Delivery.Body := Submission.Body submission;
     Delivery.SupplierIdempotencyValue := supplierValue;
     Delivery.Status := StatusPending;
     Delivery.Generation := 0;
     Delivery.AcceptedAt := Submission.AcceptedAt submission;
     Delivery.RetryDeadline := Submission.RetryDeadline submission;
     Delivery.NextAttemptAt := Submission.AcceptedAt submission;
     Delivery.LeaseOwner := "";
     Delivery.LeaseToken := "";
     Delivery.LeaseUntil := None |}.

(** Calls: 0 begin, 1 advisory lock, 2 lookup, 3 count, 4 and 5 inserts,
    6 commit. *)
Definition submit_body (store : Store) (io : IO) (clk : nat → clock) (rand : random)
    (submission : Submission.t) : Tx Delivery.t :=
  call io 1 (mret tt) ≫= λ _,
  call io 2 (tx_read (queryDeliveryByIdempotency
    (Submission.CallerID submission) (Submission.IdempotencyKey submission))) ≫= λ found,
  match found with
  | Some (existing, existingHash) =>
      tx_guard (String.eqb existingHash (Submission.RequestHash submission))
        ErrIdempotencyConflict ≫= λ _,
      mret existing
  | None =>
      call io 3 (tx_read active_count) ≫= λ active,
      tx_guard (negb (backlogLimit store <=? active)) ErrBacklogCapacity ≫= λ _,
      tx_lift (newUUID (rand 0%nat)) ≫= λ deliveryID,
      tx_lift (newUUID (rand 1%nat)) ≫= λ outboxID,
      tx_lift (newUUID (rand 2%nat)) ≫= λ traceID,
      let supplierValue :=
        if String.eqb (Submission.SupplierIdempotencyValue submission) ""
        then deliveryID else Submission.SupplierIdempotencyValue submission in
      call io 4 (insert_delivery deliveryID
        (submitted_row (clk 4%nat) deliveryID supplierValue submission)) ≫= λ _,
      call io 5 (insert_event outboxID
        (new_event deliveryID 0 traceID
           (timestamptz_of (Submission.AcceptedAt submission))
           (clock_timestamp (clk 5%nat) outboxID 0))) ≫= λ _,
      mret (submitted_delivery deliveryID supplierValue submission)
  end.

Definition Submit (store : Store) (io : IO) (clk : nat → clock) (rand : random)
    (submission : Submission.t) (db : DB) : result error Delivery.t * DB :=
  run_tx io 0 6 (submit_body store io clk rand submission) db.

(** ** Status queries *)

Definition Get (io : IO) (callerID deliveryID : string) (db : DB)
    : result error Delivery.t :=
  as_uuid deliveryID ≫= λ id,
  query_row io 0 ErrNotFound
    (fst <$> queryDelivery (λ id' r, bool_decide (id' = id ∧ d_caller_id r = callerID)) db).

(** ORDER BY started_at DESC, id DESC *)
Definition newest_first (a b : string * attempt_row) : Prop :=
  a_started_at b.2 < a_started_at a.2 ∨
  (a_started_at b.2 = a_started_at a.2 ∧ String.le b.1 a.1).
#[export] Instance newest_first_dec : RelDecision newest_first.
Proof. intros a b. unfold newest_first. apply _. Defined.

Definition summary_of (a : attempt_row) : AttemptSummary.t :=
  {| AttemptSummary.Generation := a_generation a;
     AttemptSummary.ResultClass := a_result_class a;
     AttemptSummary.ResponseStatus := a_response_status a;
     AttemptSummary.ErrorCategory := a_error_category a;
     AttemptSummary.StartedAt := time_of (a_started_at a);
     AttemptSummary.FinishedAt := time_of (a_finished_at a) |}.

Definition ListAttemptSummaries (io : IO) (callerID deliveryID : string) (limit : Z) (db : DB)
    : result error (list AttemptSummary.t) :=
  if limit <=? 0 then Err ErrInvalidArgument else
  as_uuid deliveryID ≫= λ id,
  match io 0%nat with
  | IoErr _ => Err ErrDatabase
  | IoOk =>
      let visible (a : attempt_row) :=
        match deliveries db !! a_delivery_id a with
        | Some r => bool_decide (a_delivery_id a = id ∧ d_caller_id r = callerID)
        | None => false
        end in
      Ok (summary_of ∘ snd <$>
        take (Z.to_nat limit) (merge_sort newest_first
          (filter (λ ka, visible ka.2 = true) (map_to_list (delivery_attempts db)))))
  end.

(** ** Bootstrap *)

(** The [destination_versions] row of a configuration; a nil slice is
    encoded as NULL, which the columns refuse. *)
Definition version_of (d : DestinationVersion.t) : option version_row :=
  methods ← DestinationVersion.AllowedMethods d;
  headers ← DestinationVersion.AllowedHeaders d;
  successes ← DestinationVersion.SuccessStatuses d;
  retries ← DestinationVersion.RetryStatuses d;
  Some {| v_url := DestinationVersion.URL d;
          v_network_policy := DestinationVersion.NetworkPolicy d;
          v_allowed_methods := methods;
          v_allowed_headers := headers;
          v_secret_ref := DestinationVersion.SecretRef d;
          v_credential_header := DestinationVersion.CredentialHeader d;
          v_idempotency_header := DestinationVersion.IdempotencyHeader d;
          v_success_statuses := successes;
          v_retry_statuses := retries;
          v_connect_timeout_ms := Milliseconds (DestinationVersion.ConnectTimeout d);
          v_request_timeout_ms := Milliseconds (DestinationVersion.RequestTimeout d);
          v_rate_per_second := DestinationVersion.RatePerSecond d;
          v_max_concurrency := DestinationVersion.MaxConcurrency d |}.

(** [reflect.DeepEqual] on destination versions. *)
Definition DeepEqual (a b : DestinationVersion.t) : bool :=
  bool_decide (DestinationVersion.DestinationID a = DestinationVersion.DestinationID b) &&
  bool_decide (DestinationVersion.Version a = DestinationVersion.Version b) &&
  bool_decide (DestinationVersion.URL a = DestinationVersion.URL b) &&
  bool_decide (DestinationVersion.NetworkPolicy a = DestinationVersion.NetworkPolicy b) &&
  bool_decide (DestinationVersion.AllowedMethods a = DestinationVersion.AllowedMethods b) &&
  bool_decide (DestinationVersion.AllowedHeaders a = DestinationVersion.AllowedHeaders b) &&
  bool_decide (DestinationVersion.SecretRef a = DestinationVersion.SecretRef b) &&
  bool_decide (DestinationVersion.CredentialHeader a = DestinationVersion.CredentialHeader b) &&
  bool_decide (DestinationVersion.IdempotencyHeader a = DestinationVersion.IdempotencyHeader b) &&
  bool_decide (DestinationVersion.SuccessStatuses a = DestinationVersion.SuccessStatuses b) &&
  bool_decide (DestinationVersion.RetryStatuses a = DestinationVersion.RetryStatuses b) &&
  bool_decide (DestinationVersion.ConnectTimeout a = DestinationVersion.ConnectTimeout b) &&
  bool_decide (DestinationVersion.RequestTimeout a = DestinationVersion.RequestTimeout b) &&
  SFeqb (DestinationVersion.RatePerSecond a) (DestinationVersion.RatePerSecond b) &&
  bool_decide (DestinationVersion.MaxConcurrency a = DestinationVersion.MaxConcurrency b).

(** INSERT INTO callers ... ON CONFLICT (id) DO NOTHING *)
Definition insert_caller_or_nothing (id hash : string) : Tx unit := λ db,
  if bool_decide (is_Some (callers db !! id)) then Ok (tt, db)
  else if bool_decide (is_Some
      (map_find (λ _ c, bool_decide (c_api_key_hash c = hash)) (callers db)))
  then Err ErrDatabase
  else Ok (tt, mkDB (<[id := CallerRow hash false]> (callers db)) (destinations db)
                 (destination_versions db) (caller_destinations db) (deliveries db)
                 (outbox_events db) (delivery_attempts db) (replay_audits db)).

(** INSERT INTO destinations ... ON CONFLICT (id) DO UPDATE *)
Definition upsert_destination (id : string) (version : Z) : Tx unit := λ db,
  Ok (tt, mkDB (callers db) (<[id := version]> (destinations db))
            (destination_versions db) (caller_destinations db) (deliveries db)
            (outbox_events db) (delivery_attempts db) (replay_audits db)).

(** INSERT INTO destination_versions ... ON CONFLICT DO NOTHING; the
    constraints of the proposed row are checked first. *)
Definition insert_version_or_nothing (id : string) (version : Z) (row : option version_row)
    : Tx unit := λ db,
  match row with
  | None => Err ErrDatabase
  | Some v =>
      if negb (check_version v) then Err ErrDatabase
      else if bool_decide (is_Some (destination_versions db !! (id, version)))
      then Ok (tt, db)
      else Ok (tt, mkDB (callers db) (destinations db)
                     (<[(id, version) := v]> (destination_versions db))
                     (caller_destinations db) (deliveries db) (outbox_events db)
                     (delivery_attempts db) (replay_audits db))
  end.

Definition insert_authorization (callerID destinationID : string) : Tx unit := λ db,
  Ok (tt, mkDB (callers db) (destinations db) (destination_versions db)
            ({[(callerID, destinationID)]} ∪ caller_destinations db) (deliveries db)
            (outbox_events db) (delivery_attempts db) (replay_audits db)).

Definition bootstrap_body (io : IO) (config : BootstrapConfig.t) : Tx unit :=
  let destination := BootstrapConfig.Destination config in
  let id := DestinationVersion.DestinationID destination in
  let version := DestinationVersion.Version destination in
  let apiKeyHash := Sum256 (BootstrapConfig.CallerAPIKey config) in
  call io 1 (insert_caller_or_nothing (BootstrapConfig.CallerID config) apiKeyHash) ≫= λ _,
  call io 2 (tx_read (λ db, callers db !! BootstrapConfig.CallerID config)) ≫= λ row,
  match row with
  | None => tx_fail ErrDatabase
  | Some c =>
      tx_guard (bool_decide (c_api_key_hash c = apiKeyHash)) ErrBootstrapConflict ≫= λ _,
      call io 3 (upsert_destination id version) ≫= λ _,
      call io 4 (insert_version_or_nothing id version (version_of destination)) ≫= λ _,
      call io 5 (tx_read (queryDestinationVersion id version)) ≫= λ existing,
      match existing with
      | None => tx_fail ErrDatabase
      | Some existingDestination =>
          tx_guard (DeepEqual existingDestination destination) ErrBootstrapConflict ≫= λ _,
          call io 6 (insert_authorization (BootstrapConfig.CallerID config) id)
      end
  end.

Definition Bootstrap (io : IO) (config : BootstrapConfig.t) (db : DB)
    : result error unit * DB :=
  let destination := BootstrapConfig.Destination config in
  if String.eqb (BootstrapConfig.CallerID config) "" ||
     String.eqb (BootstrapConfig.CallerAPIKey config) "" ||
     String.eqb (DestinationVersion.DestinationID destination) "" ||
     (DestinationVersion.Version destination <=? 0)
  then (Err ErrInvalidArgument, db)
  else if negb (forallb IsSupportedOutboundMethod
                  (elems (DestinationVersion.AllowedMethods destination)))
  then (Err ErrInvalidArgument, db)
  else run_tx io 0 7 (bootstrap_body io config) db.
End operations.
