(* ===== verification/WorkerStore.v ===== *)
(** * internal/delivery/worker_store.go

    What a Worker asks of the store: eligibility of a signal, observation,
    the claim that takes a lease, and the fenced commit of a result. *)

From S2P Require Import Prelude GoStrings Model Database Store.
From Stdlib Require Import SpecFloat.

Local Open Scope Z_scope.

(** ** [interval]: a duration as text, read back as microseconds

    [fmt.Sprintf("%f seconds", d.Seconds())] rounds the float64 number of
    seconds to six decimals. *)

Definition float64_of_Z (z : Z) : spec_float := binary_normalize 53 1024 z 0 false.

Definition Seconds (d : Z) : spec_float :=
  SFadd 53 1024 (float64_of_Z (Z.quot d 1000000000))
    (SFdiv 53 1024 (float64_of_Z (Z.rem d 1000000000)) (float64_of_Z 1000000000)).

Definition round_half_even (num den : Z) : Z :=
  let q := num / den in
  let r := num mod den in
  if 2 * r <? den then q
  else if den <? 2 * r then q + 1
  else if Z.even q then q else q + 1.

Definition micros_of_float (f : spec_float) : Z :=
  match f with
  | S754_finite s m e =>
      let num := Z.pos m * 1000000 in
      let v := if 0 <=? e then num * 2 ^ e else round_half_even num (2 ^ (- e)) in
      if s then - v else v
  | _ => 0
  end.

Definition interval (duration : Z) : Z := micros_of_float (Seconds duration).

Section operations.
Context `{Postgres}.

(** ** Eligibility *)

(** The predicate shared by the eligibility query, the observation and the
    claim; [due] and [open_] are the two readings of the clock. *)
Definition claimable (generation due open_ : Z) (r : delivery_row) : bool :=
  (d_generation r =? generation) && bool_decide (d_status r = StatusPending) &&
  (d_next_attempt_at r <=? due) && (open_ <? d_retry_deadline r).

Definition EligibleDestination (io : IO) (clk : clock) (deliveryID : string) (generation : Z)
    (db : DB) : result error DestinationVersion.t :=
  as_uuid deliveryID ≫= λ id,
  query_row io 0 ErrDeliveryNotClaimable
    (r ← deliveries db !! id;
     if claimable generation (clock_timestamp clk id 0) (clock_timestamp clk id 1) r
     then Some r else None) ≫= λ r,
  query_row io 1 ErrDatabase
    (queryDestinationVersion (d_destination_id r) (d_destination_version r) db).

(** ** Observation *)

Definition observe_body (clk : clock) (id : string) (generation : Z)
    : Tx (gmap string outbox_row) := λ db,
  update_events (λ eid e,
    if event_for id generation e
    then match deliveries db !! e_delivery_id e with
         | Some r =>
             if claimable (e_generation e)
                  (clock_timestamp clk eid 1) (clock_timestamp clk eid 2) r
             then Some (set_event e (e_trace_id e) (e_available_at e) (e_published_at e)
                          (Some (clock_timestamp clk eid 0))
                          (e_lease_owner e) (e_lease_token e) (e_lease_until e))
             else None
         | None => None
         end
    else None) db.

Definition ObserveSignal (io : IO) (clk : clock) (deliveryID : string) (generation : Z)
    (db : DB) : result error unit * DB :=
  match as_uuid deliveryID with
  | Err e => (Err e, db)
  | Ok id =>
      let '(r, db') := exec io 0 (observe_body clk id generation) db in
      (match r with Ok _ => Ok tt | Err e => Err e end, db')
  end.

(** ** Claim *)

Definition claimed_row (clk : clock) (id owner token : string) (lease : Z)
    (r : delivery_row) : delivery_row :=
  set_delivery r StatusDelivering (d_generation r) (d_next_attempt_at r)
    (d_retry_deadline r) (clock_timestamp clk id 1)
    (Some owner) (Some token) (Some (clock_timestamp clk id 0 + lease)).

Definition claim_update (clk : clock) (id : string) (generation : Z)
    (owner token : string) (lease : Z) (id' : string) (r : delivery_row)
    : option delivery_row :=
  if bool_decide (id' = id) &&
     claimable generation (clock_timestamp clk id 2) (clock_timestamp clk id 3) r
  then Some (claimed_row clk id owner token lease r) else None.

(** The row RETURNING scans, with its lease. *)
Definition leased_delivery (id : string) (r : delivery_row) : Delivery.t :=
  {| Delivery.ID := id;
     Delivery.CallerID := d_caller_id r;
     Delivery.DestinationID := d_destination_id r;
     Delivery.DestinationVersion := d_destination_version r;
     Delivery.Method := d_method r;
     Delivery.CallerHeaders := d_caller_headers r;
     Delivery.Body := d_body r;
     Delivery.SupplierIdempotencyValue := d_supplier_idempotency_value r;
     Delivery.Status := d_status r;
     Delivery.Generation := d_generation r;
     Delivery.AcceptedAt := time_of (d_accepted_at r);
     Delivery.RetryDeadline := time_of (d_retry_deadline r);
     Delivery.NextAttemptAt := time_of (d_next_attempt_at r);
     Delivery.LeaseOwner := default "" (d_lease_owner r);
     Delivery.LeaseToken := default "" (d_lease_token r);
     Delivery.LeaseUntil := time_of <$> d_lease_until r |}.

Definition claim_body (io : IO) (clk : clock) (deliveryID : string) (generation : Z)
    (owner token : string) (lease : Z) : Tx (Delivery.t * DestinationVersion.t) :=
  call io 1 (
    tx_lift (as_uuid deliveryID) ≫= λ id,
    update_deliveries (claim_update clk id generation owner token lease) ≫= λ touched,
    mret (pair id <$> touched !! id)) ≫= λ claimed,
  match claimed with
  | None => tx_fail ErrDeliveryNotClaimable
  | Some (id, r) =>
      call io 2 (tx_read
        (queryDestinationVersion (d_destination_id r) (d_destination_version r))) ≫= λ found,
      match found with
      | None => tx_fail ErrDatabase
      | Some destination => mret (leased_delivery id r, destination)
      end
  end.

Definition ClaimDelivery (io : IO) (clk : clock) (rand : random)
    (deliveryID : string) (generation : Z) (owner : string) (leaseDuration : Z) (db : DB)
    : result error (Delivery.t * DestinationVersion.t) * DB :=
  if String.eqb owner "" || (leaseDuration <=? 0) then (Err ErrInvalidArgument, db) else
  match newUUID (rand 0%nat) with
  | Err e => (Err e, db)
  | Ok token =>
      run_tx io 0 3 (claim_body io clk deliveryID generation owner token
                       (interval leaseDuration)) db
  end.

(** ** Fenced results *)

(** The WHERE clause of [completeResult] at one row. *)
Definition fence (now generation : Z) (owner token : string) (class : ResultClass)
    (next : option Z) (r : delivery_row) : bool :=
  (d_generation r =? generation) && bool_decide (d_status r = StatusDelivering) &&
  bool_decide (d_lease_owner r = Some owner) && bool_decide (d_lease_token r = Some token) &&
  match d_lease_until r with Some u => now <? u | None => false end &&
  (negb (bool_decide (class = ClassRetryableFailure)) ||
   match next with Some n => n <? d_retry_deadline r | None => false end).

Definition completed_row (updated_at : Z) (class : ResultClass) (next : option Z)
    (r : delivery_row) : delivery_row :=
  set_delivery r
    (match class with
     | ClassRetryableFailure => StatusPending
     | ClassPermanentFailure => StatusFailedPermanent
     | ClassSucceeded => StatusSucceeded
     end)
    (match class with ClassRetryableFailure => d_generation r + 1 | _ => d_generation r end)
    (match class with
     | ClassRetryableFailure => default (d_next_attempt_at r) next
     | _ => d_next_attempt_at r
     end)
    (d_retry_deadline r) updated_at None None None.

Definition complete_update (clk : clock) (id : string) (generation : Z)
    (owner token : string) (class : ResultClass) (next : option Z)
    (id' : string) (r : delivery_row) : option delivery_row :=
  if bool_decide (id' = id) &&
     fence (clock_timestamp clk id 1) generation owner token class next r
  then Some (completed_row (clock_timestamp clk id 0) class next r) else None.

Definition attempt_of (id token : string) (class : ResultClass)
    (result : AttemptResult.t) : attempt_row :=
  {| a_delivery_id := id;
     a_generation := AttemptResult.Generation result;
     a_lease_token := token;
     a_result_class := class;
     a_response_status := AttemptResult.ResponseStatus result;
     a_error_category :=
       if String.eqb (AttemptResult.ErrorCategory result) "" then None
       else Some (AttemptResult.ErrorCategory result);
     a_started_at := timestamptz_of (AttemptResult.StartedAt result);
     a_finished_at := timestamptz_of (AttemptResult.FinishedAt result) |}.

Definition complete_body (io : IO) (clk : clock) (attemptID : string)
    (result : AttemptResult.t) (class : ResultClass) (nextAttemptAt : option Z) : Tx unit :=
  call io 1 (
    tx_lift (as_uuid (AttemptResult.DeliveryID result)) ≫= λ id,
    tx_lift (as_uuid (AttemptResult.LeaseToken result)) ≫= λ token,
    update_deliveries (complete_update clk id (AttemptResult.Generation result)
      (AttemptResult.LeaseOwner result) token class (timestamptz_of <$> nextAttemptAt))
      ≫= λ touched,
    mret (id, token, size touched)) ≫= λ '(id, token, affected),
  tx_guard (bool_decide (affected = 1%nat)) ErrWorkerLeaseLost ≫= λ _,
  call io 2 (insert_attempt attemptID (attempt_of id token class result)).

Definition completeResult (io : IO) (clk : clock) (rand : random)
    (result : AttemptResult.t) (class : ResultClass) (nextAttemptAt : option Z) (db : DB)
    : Prelude.result error unit * DB :=
  match newUUID (rand 0%nat) with
  | Err e => (Err e, db)
  | Ok attemptID => run_tx io 0 3 (complete_body io clk attemptID result class nextAttemptAt) db
  end.

Definition CompleteSuccess io clk rand result db :=
  completeResult io clk rand result ClassSucceeded None db.

Definition CompleteRetry io clk rand result (nextAttemptAt : Z) db :=
  completeResult io clk rand result ClassRetryableFailure (Some nextAttemptAt) db.

Definition CompletePermanent io clk rand result db :=
  completeResult io clk rand result ClassPermanentFailure None db.
End operations.
