(* ===== verification/Outbox.v ===== *)
(** * internal/delivery/outbox.go

    The Outbox side of the store: the Publisher claims unpublished events
    under a lease, records their publication, or gives them back. *)

From S2P Require Import Prelude GoStrings Model Database Store.

Local Open Scope Z_scope.

Section operations.
Context `{Postgres}.

(** ** Claim *)

Definition publishable (clk : clock) (eid : string) (e : outbox_row) : bool :=
  bool_decide (e_published_at e = None) &&
  (e_available_at e <=? clock_timestamp clk eid 0) &&
  match e_lease_until e with
  | None => true
  | Some u => u <=? clock_timestamp clk eid 1
  end.

Definition lease_event (clk : clock) (eid owner token : string) (lease : Z)
    (e : outbox_row) : outbox_row :=
  set_event e (e_trace_id e) (e_available_at e) (e_published_at e) (e_observed_at e)
    (Some owner) (Some token) (Some (clock_timestamp clk eid 2 + lease * ms)).

Definition event_of (owner token eid : string) (e : outbox_row) : OutboxEvent.t :=
  {| OutboxEvent.ID := eid;
     OutboxEvent.DeliveryID := e_delivery_id e;
     OutboxEvent.Generation := e_generation e;
     OutboxEvent.TraceID := e_trace_id e;
     OutboxEvent.LeaseOwner := owner;
     OutboxEvent.LeaseToken := token |}.

Definition claim_outbox_body (clk : clock) (sc : scan) (owner token : string)
    (lease limit : Z) : Tx (list OutboxEvent.t) := λ db,
  let candidates := select_for_update sc (publishable clk)
    (λ e, (e_available_at e, e_created_at e)) limit (outbox_events db) in
  (update_events (λ eid e,
     if bool_decide (eid ∈ candidates.*1)
     then Some (lease_event clk eid owner token lease e) else None) ≫= λ touched,
   mret ((λ ke, event_of owner token ke.1 ke.2) <$>
         merge_sort (rank_le sc) (map_to_list touched))) db.

Definition ClaimOutbox (io : IO) (clk : clock) (sc : scan) (rand : random)
    (owner : string) (leaseDuration limit : Z) (db : DB)
    : result error (list OutboxEvent.t) * DB :=
  if String.eqb owner "" || (leaseDuration <=? 0) || (limit <=? 0)
  then (Err ErrInvalidArgument, db)
  else match newUUID (rand 0%nat) with
  | Err e => (Err e, db)
  | Ok token =>
      exec io 0 (claim_outbox_body clk sc owner token (Milliseconds leaseDuration) limit) db
  end.

(** ** Publication and release *)

(** The lease predicate of both updates. *)
Definition holds_lease (owner token : string) (e : outbox_row) : bool :=
  bool_decide (e_published_at e = None) && bool_decide (e_lease_owner e = Some owner) &&
  bool_decide (e_lease_token e = Some token).

Definition published_event (now : Z) (e : outbox_row) : outbox_row :=
  set_event e (e_trace_id e) (e_available_at e) (Some now) None None None None.

Definition released_event (e : outbox_row) : outbox_row :=
  set_event e (e_trace_id e) (e_available_at e) (e_published_at e) (e_observed_at e)
    None None None.

Definition mark_body (clk : clock) (event : OutboxEvent.t) : Tx unit :=
  tx_lift (as_uuid (OutboxEvent.ID event)) ≫= λ id,
  tx_lift (as_uuid (OutboxEvent.LeaseToken event)) ≫= λ token,
  update_events (λ eid e,
    if bool_decide (eid = id) && holds_lease (OutboxEvent.LeaseOwner event) token e &&
       match e_lease_until e with
       | Some u => clock_timestamp clk eid 1 <? u
       | None => false
       end
    then Some (published_event (clock_timestamp clk eid 0) e) else None) ≫= λ touched,
  tx_guard (bool_decide (size touched = 1%nat)) ErrOutboxLeaseLost.

Definition MarkOutboxPublished (io : IO) (clk : clock) (event : OutboxEvent.t) (db : DB)
    : result error unit * DB :=
  exec io 0 (mark_body clk event) db.

Definition release_body (event : OutboxEvent.t) : Tx (string * nat) :=
  tx_lift (as_uuid (OutboxEvent.ID event)) ≫= λ id,
  tx_lift (as_uuid (OutboxEvent.LeaseToken event)) ≫= λ token,
  update_events (λ eid e,
    if bool_decide (eid = id) && holds_lease (OutboxEvent.LeaseOwner event) token e
    then Some (released_event e) else None) ≫= λ touched,
  mret (id, size touched).

Definition ReleaseOutbox (io : IO) (event : OutboxEvent.t) (db : DB)
    : result error unit * DB :=
  match exec io 0 (release_body event) db with
  | (Err e, db') => (Err e, db')
  | (Ok (id, affected), db') =>
      if bool_decide (affected = 0%nat)
      then (match query_row io 1 ErrOutboxLeaseLost (outbox_events db' !! id) with
            | Err e => Err e
            | Ok e =>
                if bool_decide (is_Some (e_published_at e)) then Ok tt
                else Err ErrOutboxLeaseLost
            end, db')
      else (Ok tt, db')
  end.
End operations.
