(* ===== verification/Scheduling.v ===== *)
(** * internal/delivery/scheduling.go and maintenance.go

    The periodic statements: scheduling due retries, recovering expired
    leases, republishing stalled signals, retention, and the operational
    snapshot.  Each is one SQL statement whose common table expressions all
    read the state before it. *)

From S2P Require Import Prelude GoStrings Model Database Store.

Local Open Scope Z_scope.

(** [gen_random_uuid()]: the value drawn for a row at an occurrence. *)
Definition uuid_source : Type := string → nat → string.

(** ** Retry scheduler *)

(** CTE [expired] *)
Definition retry_expired (clk : clock) (r : delivery_row) : bool :=
  bool_decide (d_status r = StatusPending) &&
  (d_retry_deadline r <=? statement_timestamp clk).

Definition expired_row (clk : clock) (id : string) (r : delivery_row) : delivery_row :=
  set_delivery r StatusFailedPermanent (d_generation r) (d_next_attempt_at r)
    (d_retry_deadline r) (clock_timestamp clk id 0)
    (d_lease_owner r) (d_lease_token r) (d_lease_until r).

Definition expire_update (clk : clock) (id : string) (r : delivery_row) : option delivery_row :=
  if retry_expired clk r then Some (expired_row clk id r) else None.

(** CTE [due] *)
Definition retry_due (clk : clock) (db : DB) (id : string) (r : delivery_row) : bool :=
  bool_decide (d_status r = StatusPending) && (0 <? d_generation r) &&
  (d_next_attempt_at r <=? clock_timestamp clk id 1) &&
  (statement_timestamp clk <? d_retry_deadline r) &&
  negb (has_event db id (d_generation r)).

Definition schedule_event (clk : clock) (gen : uuid_source) (due : string * delivery_row) : Tx Z :=
  let '(id, r) := due in
  let eid := gen id 0%nat in
  insert_event_or_nothing eid
    (new_event id (d_generation r) (gen id 1%nat) (d_next_attempt_at r)
       (clock_timestamp clk eid 2)).

Definition schedule_body (clk : clock) (sc : scan) (gen : uuid_source) (limit : Z) : Tx Z := λ db,
  let due := select_for_update sc (retry_due clk db)
    (λ r, (d_next_attempt_at r, d_created_at r)) limit (deliveries db) in
  (update_deliveries (expire_update clk) ≫= λ _,
   for_each (schedule_event clk gen) due) db.

Definition ScheduleDueRetries (io : IO) (clk : clock) (sc : scan) (gen : uuid_source)
    (limit : Z) (db : DB) : result error Z * DB :=
  if limit <=? 0 then (Err ErrInvalidArgument, db)
  else exec io 0 (schedule_body clk sc gen limit) db.

(** ** Lease recovery *)

(** CTE [expired] *)
Definition lease_expired (clk : clock) (_ : string) (r : delivery_row) : bool :=
  bool_decide (d_status r = StatusDelivering) &&
  match d_lease_until r with Some u => u <=? statement_timestamp clk | None => false end.

(** CTE [recovered]: past the retry deadline the delivery fails, otherwise it
    is pending again under the next generation. *)
Definition past_deadline (clk : clock) (r : delivery_row) : bool :=
  d_retry_deadline r <=? statement_timestamp clk.

Definition recovered_row (clk : clock) (id : string) (r : delivery_row) : delivery_row :=
  set_delivery r
    (if past_deadline clk r then StatusFailedPermanent else StatusPending)
    (if past_deadline clk r then d_generation r else d_generation r + 1)
    (clock_timestamp clk id 0) (d_retry_deadline r) (clock_timestamp clk id 1)
    None None None.

Definition recover_update (clk : clock) (expired : list (string * delivery_row))
    (id : string) (r : delivery_row) : option delivery_row :=
  if bool_decide ((id, d_generation r) ∈
       (λ x : string * delivery_row, (x.1, d_generation x.2)) <$> expired) &&
     bool_decide (d_status r = StatusDelivering)
  then Some (recovered_row clk id r) else None.

(** CTE [recorded] *)
Definition recovery_attempt (clk : clock) (id : string) (r : delivery_row) (token : string)
    : attempt_row :=
  {| a_delivery_id := id;
     a_generation := d_generation r;
     a_lease_token := token;
     a_result_class :=
       if past_deadline clk r then ClassPermanentFailure else ClassRetryableFailure;
     a_response_status := None;
     a_error_category :=
       Some (if past_deadline clk r then "retry_deadline_exhausted" else "lease_expired");
     a_started_at := d_updated_at r;
     a_finished_at := clock_timestamp clk id 1 |}.

Definition record_recovery (clk : clock) (gen : uuid_source) (row : string * delivery_row)
    : Tx Z :=
  let '(id, r) := row in
  match d_lease_token r with
  | None => tx_fail ErrDatabase
  | Some token =>
      insert_attempt (gen id 0%nat) (recovery_attempt clk id r token) ≫= λ _, mret 1
  end.

(** CTE [signalled] *)
Definition signal_recovery (clk : clock) (gen : uuid_source) (row : string * delivery_row)
    : Tx Z :=
  let '(id, r) := row in
  if past_deadline clk r then mret 0
  else let eid := gen id 1%nat in
       insert_event_or_nothing eid
         (new_event id (d_generation r + 1) (gen id 2%nat)
            (clock_timestamp clk id 1) (clock_timestamp clk eid 2)).

Definition recover_body (io : IO) (clk : clock) (sc : scan) (gen : uuid_source) (limit : Z)
    : Tx Z := λ db,
  let expired := select_for_update sc (lease_expired clk)
    (λ r, (default 0 (d_lease_until r), d_created_at r)) limit (deliveries db) in
  call io 1 (update_deliveries (recover_update clk expired) ≫= λ recovered,
   for_each (record_recovery clk gen) expired ≫= λ _,
   for_each (signal_recovery clk gen) expired ≫= λ _,
   mret (Z.of_nat (size recovered))) db.

Definition RecoverExpiredDeliveries (io : IO) (clk : clock) (sc : scan) (gen : uuid_source)
    (limit : Z) (db : DB) : result error Z * DB :=
  if limit <=? 0 then (Err ErrInvalidArgument, db)
  else run_tx io 0 2 (recover_body io clk sc gen limit) db.

(** ** Stalled signals *)

Definition stalled (clk : clock) (watchdog : Z) (db : DB) (eid : string) (e : outbox_row) : bool :=
  match deliveries db !! e_delivery_id e with
  | Some r =>
      (d_generation r =? e_generation e) && bool_decide (d_status r = StatusPending) &&
      (d_next_attempt_at r <=? clock_timestamp clk eid 0) &&
      (statement_timestamp clk <? d_retry_deadline r) &&
      match e_published_at e with
      | Some p => p <=? clock_timestamp clk eid 1 - watchdog * ms
      | None => false
      end &&
      match e_observed_at e with
      | Some o => o <=? clock_timestamp clk eid 2 - watchdog * ms
      | None => true
      end &&
      bool_decide (e_lease_owner e = None) && bool_decide (e_lease_token e = None) &&
      bool_decide (e_lease_until e = None)
  | None => false
  end.

Definition republished_event (clk : clock) (gen : uuid_source) (eid : string) (e : outbox_row)
    : outbox_row :=
  set_event e (gen eid 0%nat) (clock_timestamp clk eid 3) None None
    (e_lease_owner e) (e_lease_token e) (e_lease_until e).

Definition reconcile_body (clk : clock) (sc : scan) (gen : uuid_source) (watchdog limit : Z)
    : Tx Z := λ db,
  let candidates := select_for_update sc (stalled clk watchdog db)
    (λ e, (default 0 (e_published_at e), e_created_at e)) limit (outbox_events db) in
  (update_events (λ eid e,
     if bool_decide (eid ∈ candidates.*1) && bool_decide (is_Some (e_published_at e))
     then Some (republished_event clk gen eid e) else None) ≫= λ touched,
   mret (Z.of_nat (size touched))) db.

Definition ReconcileStalledSignals (io : IO) (clk : clock) (sc : scan) (gen : uuid_source)
    (watchdog limit : Z) (db : DB) : result error Z * DB :=
  if (watchdog <=? 0) || (limit <=? 0) then (Err ErrInvalidArgument, db)
  else exec io 0 (reconcile_body clk sc gen (Milliseconds watchdog) limit) db.

(** ** Retention *)

Definition retention_expired (clk : clock) (success failure : Z) (id : string)
    (r : delivery_row) : bool :=
  match d_status r with
  | StatusSucceeded => d_updated_at r <=? clock_timestamp clk id 0 - success * ms
  | StatusFailedPermanent => d_updated_at r <=? clock_timestamp clk id 1 - failure * ms
  | _ => false
  end.

Definition is_terminal (r : delivery_row) : bool :=
  bool_decide (d_status r = StatusSucceeded ∨ d_status r = StatusFailedPermanent).

Definition retention_body (clk : clock) (sc : scan) (success failure limit : Z) : Tx Z := λ db,
  let expired := select_for_update sc (retention_expired clk success failure)
    (λ r, (d_updated_at r, d_created_at r)) limit (deliveries db) in
  delete_deliveries
    (list_to_set (filter (λ kr : string * delivery_row, is_terminal kr.2 = true) expired).*1) db.

Definition DeleteExpiredTerminal (io : IO) (clk : clock) (sc : scan)
    (successRetention failureRetention limit : Z) (db : DB) : result error Z * DB :=
  if (successRetention <=? 0) || (failureRetention <=? 0) || (limit <=? 0)
  then (Err ErrInvalidArgument, db)
  else exec io 0 (retention_body clk sc (Milliseconds successRetention)
                    (Milliseconds failureRetention) limit) db.

(** ** Operational snapshot

    The two ages are in microseconds, before the division into float
    seconds. *)

Module OperationalSnapshot.
Record t := mk {
  OldestPending : Z;
  OldestOutbox : Z;
  ExpiredLeases : Z;
  PermanentFailures : Z;
  ResultClasses : list (ResultClass * Z)
}.
End OperationalSnapshot.

(** MIN over the selected rows: NULL without one. *)
Definition sql_min (l : list Z) : option Z :=
  match l with
  | [] => None
  | x :: l => Some (foldl Z.min x l)
  end.

Definition oldest_age (now : Z) (times : list Z) : Z :=
  match sql_min times with
  | Some t => Z.max 0 (now - t)
  | None => 0
  end.

Definition class_counts (db : DB) : list (ResultClass * Z) :=
  filter (λ cn, 0 < cn.2)
    ((λ c, (c, map_count (λ a, bool_decide (a_result_class a = c)) (delivery_attempts db))) <$>
       [ClassSucceeded; ClassRetryableFailure; ClassPermanentFailure]).

Definition OperationalMetrics (io : IO) (clk : clock) (db : DB)
    : result error OperationalSnapshot.t :=
  match io 0%nat with
  | IoErr _ => Err ErrDatabase
  | IoOk =>
      match io 1%nat with
      | IoErr _ => Err ErrDatabase
      | IoOk =>
          let rows := map_to_list (deliveries db) in
          Ok {| OperationalSnapshot.OldestPending :=
                  oldest_age (clock_timestamp clk "" 0)
                    (d_next_attempt_at ∘ snd <$>
                       filter (λ kr : string * delivery_row,
                         bool_decide (d_status kr.2 = StatusPending) &&
                         (d_next_attempt_at kr.2 <=? clock_timestamp clk kr.1 1) = true) rows);
                OperationalSnapshot.OldestOutbox :=
                  oldest_age (clock_timestamp clk "" 2)
                    (e_available_at ∘ snd <$>
                       filter (λ ke : string * outbox_row, e_published_at ke.2 = None)
                         (map_to_list (outbox_events db)));
                OperationalSnapshot.ExpiredLeases :=
                  Z.of_nat (length (filter (λ kr : string * delivery_row,
                    bool_decide (d_status kr.2 = StatusDelivering) &&
                    match d_lease_until kr.2 with
                    | Some u => u <=? clock_timestamp clk kr.1 3
                    | None => false
                    end = true) rows));
                OperationalSnapshot.PermanentFailures :=
                  map_count (λ r, bool_decide (d_status r = StatusFailedPermanent))
                    (deliveries db);
                OperationalSnapshot.ResultClasses := class_counts db |}
      end
  end.
