(* ===== verification/Replay.v ===== *)
(** * internal/delivery/replay.go

    The audited manual replay of a permanently failed delivery. *)

From S2P Require Import Prelude GoStrings Model Database Store.

Local Open Scope Z_scope.

Section operations.
Context `{Postgres}.

Definition replayed_row (replayedAt : Z) (r : delivery_row) : delivery_row :=
  set_delivery r StatusPending (d_generation r + 1) replayedAt (replayedAt + hours24)
    replayedAt None None None.

Definition replay_update (replayedAt : Z) (id id' : string) (r : delivery_row)
    : option delivery_row :=
  if bool_decide (id' = id) && bool_decide (d_status r = StatusFailedPermanent)
  then Some (replayed_row replayedAt r) else None.

(** Calls: 0 begin, 1 clock, 2 update, 3 existence check, 4 audit, 5 Outbox,
    6 commit. *)
Definition replay_body (io : IO) (clk : nat → clock) (auditID outboxID traceID : string)
    (deliveryID operatorID reason : string) : Tx Delivery.t :=
  call io 1 (mret (clock_timestamp (clk 1%nat) "" 0)) ≫= λ replayedAt,
  call io 2 (
    tx_lift (as_uuid deliveryID) ≫= λ id,
    update_deliveries (replay_update replayedAt id) ≫= λ touched,
    mret (id, touched !! id)) ≫= λ '(id, replayed),
  match replayed with
  | None =>
      call io 3 (tx_read (λ db, bool_decide (is_Some (deliveries db !! id)))) ≫= λ exists_,
      tx_fail (if exists_ : bool then ErrReplayConflict else ErrNotFound)
  | Some r =>
      call io 4 (insert_audit auditID
        (AuditRow id (d_generation r - 1) (d_generation r) operatorID reason replayedAt))
        ≫= λ _,
      call io 5 (insert_event outboxID
        (new_event id (d_generation r) traceID replayedAt
           (clock_timestamp (clk 5%nat) outboxID 0))) ≫= λ _,
      mret (delivery_of id r)
  end.

Definition Replay (io : IO) (clk : nat → clock) (rand : random)
    (deliveryID operatorID reason : string) (db : DB) : result error Delivery.t * DB :=
  match newUUID (rand 0%nat), newUUID (rand 1%nat), newUUID (rand 2%nat) with
  | Ok auditID, Ok outboxID, Ok traceID =>
      run_tx io 0 6 (replay_body io clk auditID outboxID traceID
                       deliveryID operatorID reason) db
  | _, _, _ => (Err ErrRandom, db)
  end.
End operations.
