(* ===== verification/Lifecycle.v ===== *)
(** * The delivery lifecycle, as a specification

    An abstract machine over the tables: in one step every delivery takes one
    [transition], and the other tables change only as the transitions of their
    delivery allow.  [Inv] is the invariant the machine keeps; the operations
    of the store are shown to be steps of it in [Refinement]. *)

From S2P Require Import Prelude GoStrings Model Database Scheduling.

Local Open Scope Z_scope.

(** ** Transitions of one delivery *)

(** The columns fixed at acceptance. *)
Record content := Content {
  caller_id : string; idempotency_key : string; request_hash : string;
  destination_id : string; destination_version : Z;
  method : string; caller_headers : gmap string string; body : string;
  supplier_idempotency_value : string; accepted_at : Z; created_at : Z
}.

Definition content_of (r : delivery_row) : content :=
  Content (d_caller_id r) (d_idempotency_key r) (d_request_hash r)
    (d_destination_id r) (d_destination_version r) (d_method r) (d_caller_headers r)
    (d_body r) (d_supplier_idempotency_value r) (d_accepted_at r) (d_created_at r).

Inductive label : Type :=
  | Keep
  | Accept
  | Claim
  | Finish (class : ResultClass)
  | Expire
  | Restart      (* manual replay *)
  | Retire.      (* retention *)

#[global] Instance label_eq_dec : EqDecision label.
Proof. solve_decision. Defined.

Definition status_after (class : ResultClass) : Status :=
  match class with
  | ClassSucceeded => StatusSucceeded
  | ClassRetryableFailure => StatusPending
  | ClassPermanentFailure => StatusFailedPermanent
  end.

Definition generation_after (class : ResultClass) (g : Z) : Z :=
  match class with ClassRetryableFailure => g + 1 | _ => g end.

Definition unleased (r : delivery_row) : Prop :=
  d_lease_owner r = None ∧ d_lease_token r = None ∧ d_lease_until r = None.

Inductive transition : label → option delivery_row → option delivery_row → Prop :=
  | t_keep o : transition Keep o o
  | t_accept r :
      d_status r = StatusPending → d_generation r = 0 → unleased r →
      transition Accept None (Some r)
  | t_claim r r' :
      d_status r = StatusPending → d_status r' = StatusDelivering →
      content_of r' = content_of r → d_generation r' = d_generation r →
      d_retry_deadline r' = d_retry_deadline r →
      transition Claim (Some r) (Some r')
  | t_finish class r r' :
      d_status r = StatusDelivering → d_status r' = status_after class →
      content_of r' = content_of r →
      d_generation r' = generation_after class (d_generation r) → unleased r' →
      d_retry_deadline r' = d_retry_deadline r →
      transition (Finish class) (Some r) (Some r')
  | t_expire r r' :
      d_status r = StatusPending → d_status r' = StatusFailedPermanent →
      content_of r' = content_of r → d_generation r' = d_generation r →
      d_retry_deadline r' = d_retry_deadline r →
      transition Expire (Some r) (Some r')
  | t_restart r r' :
      d_status r = StatusFailedPermanent → d_status r' = StatusPending →
      content_of r' = content_of r → d_generation r' = d_generation r + 1 →
      transition Restart (Some r) (Some r')
  | t_retire r :
      is_terminal r = true → transition Retire (Some r) None.

#[export] Hint Constructors transition : notifier.

(** ** Steps of the whole database *)

Record rows_step (T : string → label) (db db' : DB) : Prop := {
  rs_transition id : transition (T id) (deliveries db !! id) (deliveries db' !! id);
  rs_check id r' : T id ≠ Keep → deliveries db' !! id = Some r' → check_delivery r' = true;
  rs_accept_one id id' : T id = Accept → T id' = Accept → id = id';
  rs_accept_key id r id' r' :
    T id = Accept → deliveries db' !! id = Some r → deliveries db !! id' = Some r' →
    same_key r r' = false;
  rs_accept_version id r :
    T id = Accept → deliveries db' !! id = Some r →
    is_Some (destination_versions db' !! (d_destination_id r, d_destination_version r))
}.

(** Destination versions are immutable. *)
Definition registry_step (db db' : DB) : Prop :=
  ∀ k v, destination_versions db !! k = Some v → destination_versions db' !! k = Some v.

Definition attempt_matches (a : attempt_row) (id : string) (g : Z) (class : ResultClass) : Prop :=
  a_delivery_id a = id ∧ a_generation a = g ∧ a_result_class a = class.

Record attempts_step (T : string → label) (db db' : DB) : Prop := {
  at_kept aid a :
    delivery_attempts db !! aid = Some a → T (a_delivery_id a) ≠ Retire →
    delivery_attempts db' !! aid = Some a;
  at_origin aid a :
    delivery_attempts db' !! aid = Some a →
    (delivery_attempts db !! aid = Some a ∧ T (a_delivery_id a) ≠ Retire) ∨
    (delivery_attempts db !! aid = None ∧
     T (a_delivery_id a) = Finish (a_result_class a) ∧
     ∃ r, deliveries db !! a_delivery_id a = Some r ∧ a_generation a = d_generation r);
  at_made id class r :
    T id = Finish class → deliveries db !! id = Some r →
    ∃ aid a, delivery_attempts db' !! aid = Some a ∧
      attempt_matches a id (d_generation r) class;
  at_one aid1 aid2 a1 a2 :
    delivery_attempts db' !! aid1 = Some a1 → delivery_attempts db' !! aid2 = Some a2 →
    delivery_attempts db !! aid1 = None → delivery_attempts db !! aid2 = None →
    a_delivery_id a1 = a_delivery_id a2 → aid1 = aid2
}.

Definition same_signal (e e' : outbox_row) : Prop :=
  e_delivery_id e = e_delivery_id e' ∧ e_generation e = e_generation e'.

(** A published event holds no lease. *)
Definition event_ok (e : outbox_row) : Prop :=
  check_event e = true ∧
  (is_Some (e_published_at e) →
   e_lease_owner e = None ∧ e_lease_token e = None ∧ e_lease_until e = None).

Record events_step (T : string → label) (db db' : DB) : Prop := {
  ev_kept eid e :
    outbox_events db !! eid = Some e → T (e_delivery_id e) ≠ Retire →
    ∃ e', outbox_events db' !! eid = Some e' ∧ same_signal e' e;
  ev_origin eid e' :
    outbox_events db' !! eid = Some e' →
    (∃ e, outbox_events db !! eid = Some e ∧ same_signal e' e ∧
          T (e_delivery_id e) ≠ Retire ∧ (event_ok e → event_ok e')) ∨
    (outbox_events db !! eid = None ∧ event_ok e' ∧
     has_event db (e_delivery_id e') (e_generation e') = false ∧
     ∃ r', deliveries db' !! e_delivery_id e' = Some r' ∧
           d_status r' = StatusPending ∧ e_generation e' = d_generation r');
  ev_one eid1 eid2 e1 e2 :
    outbox_events db' !! eid1 = Some e1 → outbox_events db' !! eid2 = Some e2 →
    outbox_events db !! eid1 = None → outbox_events db !! eid2 = None →
    e_delivery_id e1 = e_delivery_id e2 → eid1 = eid2;
  ev_made id r' :
    T id = Accept ∨ T id = Restart → deliveries db' !! id = Some r' →
    has_event db' id (d_generation r') = true
}.

Record audits_step (T : string → label) (db db' : DB) : Prop := {
  au_kept uid u :
    replay_audits db !! uid = Some u → T (r_delivery_id u) ≠ Retire →
    replay_audits db' !! uid = Some u;
  au_origin uid u :
    replay_audits db' !! uid = Some u →
    (replay_audits db !! uid = Some u ∧ T (r_delivery_id u) ≠ Retire) ∨
    (T (r_delivery_id u) = Restart ∧ check_audit u = true ∧
     ∃ r', deliveries db' !! r_delivery_id u = Some r' ∧ r_to_generation u = d_generation r');
  au_made id r' :
    T id = Restart → deliveries db' !! id = Some r' →
    ∃ uid u, replay_audits db' !! uid = Some u ∧ r_delivery_id u = id ∧
             r_to_generation u = d_generation r'
}.

Record spec_step (T : string → label) (db db' : DB) : Prop := {
  sp_rows : rows_step T db db';
  sp_registry : registry_step db db';
  sp_attempts : attempts_step T db db';
  sp_events : events_step T db db';
  sp_audits : audits_step T db db'
}.

(** ** The invariant *)

Record Inv (db : DB) : Prop := {
  inv_check id r : deliveries db !! id = Some r → check_delivery r = true;
  inv_key id1 id2 r1 r2 :
    deliveries db !! id1 = Some r1 → deliveries db !! id2 = Some r2 →
    same_key r1 r2 = true → id1 = id2;
  inv_version id r :
    deliveries db !! id = Some r →
    is_Some (destination_versions db !! (d_destination_id r, d_destination_version r));
  inv_event eid e :
    outbox_events db !! eid = Some e →
    ∃ r, deliveries db !! e_delivery_id e = Some r ∧ e_generation e ≤ d_generation r;
  inv_event_unique eid1 eid2 e1 e2 :
    outbox_events db !! eid1 = Some e1 → outbox_events db !! eid2 = Some e2 →
    same_signal e1 e2 → eid1 = eid2;
  inv_event_ok eid e : outbox_events db !! eid = Some e → event_ok e;
  inv_attempt aid a :
    delivery_attempts db !! aid = Some a →
    ∃ r, deliveries db !! a_delivery_id a = Some r ∧ a_generation a ≤ d_generation r ∧
         (a_generation a = d_generation r → is_terminal r = true) ∧
         (a_result_class a = ClassSucceeded →
          d_status r = StatusSucceeded ∧ d_generation r = a_generation a);
  inv_attempt_unique aid1 aid2 a1 a2 :
    delivery_attempts db !! aid1 = Some a1 → delivery_attempts db !! aid2 = Some a2 →
    a_delivery_id a1 = a_delivery_id a2 → a_generation a1 = a_generation a2 → aid1 = aid2;
  inv_succeeded id r :
    deliveries db !! id = Some r → d_status r = StatusSucceeded →
    ∃ aid a, delivery_attempts db !! aid = Some a ∧
             attempt_matches a id (d_generation r) ClassSucceeded;
  inv_initial id r :
    deliveries db !! id = Some r → d_status r = StatusPending → d_generation r = 0 →
    has_event db id 0 = true;
  inv_audit uid u :
    replay_audits db !! uid = Some u →
    check_audit u = true ∧
    ∃ r, deliveries db !! r_delivery_id u = Some r ∧ r_to_generation u ≤ d_generation r
}.

(** Which generations have an event of their own: the first of every delivery,
    and every generation a replay opened. *)
Record announced (db : DB) : Prop := {
  an_first id : is_Some (deliveries db !! id) → has_event db id 0 = true;
  an_replay uid u :
    replay_audits db !! uid = Some u →
    has_event db (r_delivery_id u) (r_to_generation u) = true
}.

(** ** Facts about rows *)

Lemma check_delivery_generation r :
  check_delivery r = true → 0 ≤ d_generation r ≤ max_int64.
Proof. unfold check_delivery, generation_ok. intros ?. to_prop. lia. Qed.

Lemma check_delivery_lease r :
  check_delivery r = true → d_status r = StatusDelivering →
  ∃ owner token until, d_lease_owner r = Some owner ∧ d_lease_token r = Some token ∧
                       d_lease_until r = Some until.
Proof.
  unfold check_delivery, lease_tuple_consistent. intros ? Hs. to_prop.
  rewrite Hs in *. to_prop.
  repeat match goal with H : is_Some _ |- _ => destruct H end. naive_solver.
Qed.

Lemma check_delivery_unleased r :
  check_delivery r = true → d_status r ≠ StatusDelivering → unleased r.
Proof.
  unfold check_delivery, lease_tuple_consistent, unleased. intros ? Hs. to_prop.
  destruct (d_status r); try done; to_prop; auto.
Qed.

Lemma same_key_content r r' s :
  content_of r' = content_of r → same_key r' s = same_key r s.
Proof.
  intros Hc. unfold same_key. injection Hc as -> ->. done.
Qed.

Lemma same_key_sym r s : same_key r s = same_key s r.
Proof. unfold same_key. apply bool_decide_ext. naive_solver. Qed.

(** What every transition keeps of a row that survives it. *)
Lemma transition_survives l r r' :
  transition l (Some r) (Some r') →
  content_of r' = content_of r ∧
  d_generation r ≤ d_generation r' ∧
  (d_generation r' = d_generation r → is_terminal r = true → d_status r' = d_status r).
Proof.
  inversion 1; subst;
    repeat match goal with class : ResultClass |- _ => destruct class end; simpl in *;
    (split_and!; [done || auto|lia|]);
    unfold is_terminal; intros; to_prop; try lia; destruct_or?; congruence.
Qed.

Lemma transition_from_None l r' :
  transition l None (Some r') → l = Accept ∧ d_status r' = StatusPending ∧ d_generation r' = 0.
Proof. inversion 1; naive_solver. Qed.

Lemma transition_to_None l r : transition l (Some r) None → l = Retire ∧ is_terminal r = true.
Proof. inversion 1; naive_solver. Qed.

(** ** The invariant is inductive *)

Section preservation.
Context (T : string → label) (db db' : DB).
Hypothesis Hinv : Inv db.
Hypothesis Hstep : spec_step T db db'.

Let Hrows := sp_rows _ _ _ Hstep.
Let Hreg := sp_registry _ _ _ Hstep.
Let Hatt := sp_attempts _ _ _ Hstep.
Let Hev := sp_events _ _ _ Hstep.
Let Haud := sp_audits _ _ _ Hstep.

(** A row of the new state is new, or the successor of a row. *)
Lemma row_origin id r' :
  deliveries db' !! id = Some r' →
  (T id = Accept ∧ deliveries db !! id = None ∧
   d_status r' = StatusPending ∧ d_generation r' = 0) ∨
  (∃ r, deliveries db !! id = Some r ∧ transition (T id) (Some r) (Some r')).
Proof.
  intros Hl. pose proof (rs_transition _ _ _ Hrows id) as Ht. rewrite Hl in Ht.
  destruct (deliveries db !! id) as [r|] eqn:E; [eauto|].
  left. apply transition_from_None in Ht. naive_solver.
Qed.

(** A row that is not retired has a successor. *)
Lemma row_successor id r :
  deliveries db !! id = Some r → T id ≠ Retire →
  ∃ r', deliveries db' !! id = Some r' ∧ transition (T id) (Some r) (Some r').
Proof.
  intros Hl Hn. pose proof (rs_transition _ _ _ Hrows id) as Ht. rewrite Hl in Ht.
  destruct (deliveries db' !! id) as [r'|] eqn:E; [eauto|].
  apply transition_to_None in Ht. naive_solver.
Qed.

Lemma step_check id r' : deliveries db' !! id = Some r' → check_delivery r' = true.
Proof.
  intros Hl. destruct (decide (T id = Keep)) as [Hk|Hk].
  - pose proof (rs_transition _ _ _ Hrows id) as Ht. rewrite Hk, Hl in Ht.
    inversion Ht as [o Ho| | | | | |]; subst. symmetry in Ho. by eapply inv_check.
  - by eapply rs_check.
Qed.

Lemma step_key id1 id2 r1 r2 :
  deliveries db' !! id1 = Some r1 → deliveries db' !! id2 = Some r2 →
  same_key r1 r2 = true → id1 = id2.
Proof.
  intros H1 H2 Hk.
  destruct (row_origin _ _ H1) as [(A1 & _)|(s1 & L1 & [C1 _]%transition_survives)];
  destruct (row_origin _ _ H2) as [(A2 & _)|(s2 & L2 & [C2 _]%transition_survives)].
  - by eapply rs_accept_one.
  - pose proof (rs_accept_key _ _ _ Hrows _ _ _ _ A1 H1 L2) as Hf.
    rewrite same_key_sym, (same_key_content _ _ _ C2), same_key_sym in Hk. congruence.
  - pose proof (rs_accept_key _ _ _ Hrows _ _ _ _ A2 H2 L1) as Hf.
    rewrite (same_key_content _ _ _ C1), same_key_sym in Hk. congruence.
  - rewrite (same_key_content _ _ _ C1), same_key_sym, (same_key_content _ _ _ C2),
      same_key_sym in Hk. by eapply inv_key.
Qed.

Lemma step_version id r :
  deliveries db' !! id = Some r →
  is_Some (destination_versions db' !! (d_destination_id r, d_destination_version r)).
Proof.
  intros Hl. destruct (row_origin _ _ Hl) as [(A & _)|(s & L & [C _]%transition_survives)].
  - by eapply rs_accept_version.
  - pose proof (f_equal destination_id C) as Ed.
    pose proof (f_equal destination_version C) as Ev. simpl in *. rewrite Ed, Ev.
    destruct (inv_version _ Hinv _ _ L) as [v Hv]. exists v. by apply Hreg.
Qed.

Lemma step_event eid e :
  outbox_events db' !! eid = Some e →
  ∃ r, deliveries db' !! e_delivery_id e = Some r ∧ e_generation e ≤ d_generation r.
Proof.
  intros Hl. destruct (ev_origin _ _ _ Hev _ _ Hl)
    as [(e0 & L0 & [-> ->] & Hr & _)|(_ & _ & _ & r & Hr & _ & ->)].
  - destruct (inv_event _ Hinv _ _ L0) as (r & Lr & Hg).
    destruct (row_successor _ _ Lr Hr) as (r' & Lr' & (_ & Hg' & _)%transition_survives).
    exists r'. split; [done|lia].
  - exists r. split; [done|lia].
Qed.

Lemma step_event_unique eid1 eid2 e1 e2 :
  outbox_events db' !! eid1 = Some e1 → outbox_events db' !! eid2 = Some e2 →
  same_signal e1 e2 → eid1 = eid2.
Proof.
  intros L1 L2 [Hd Hg].
  destruct (ev_origin _ _ _ Hev _ _ L1)
    as [(f1 & M1 & [S1 G1] & _)|(N1 & _ & F1 & _)];
  destruct (ev_origin _ _ _ Hev _ _ L2)
    as [(f2 & M2 & [S2 G2] & _)|(N2 & _ & F2 & _)].
  - eapply (inv_event_unique _ Hinv _ _ _ _ M1 M2). split; congruence.
  - rewrite has_event_false in F2. exfalso. eapply F2; [exact M1|congruence..].
  - rewrite has_event_false in F1. exfalso. eapply F1; [exact M2|congruence..].
  - by eapply ev_one.
Qed.

Lemma step_event_ok eid e : outbox_events db' !! eid = Some e → event_ok e.
Proof.
  intros Hl. destruct (ev_origin _ _ _ Hev _ _ Hl) as [(e0 & L0 & _ & _ & Hok)|(_ & ? & _)];
    [|done]. by eapply Hok, inv_event_ok.
Qed.

Lemma step_attempt aid a :
  delivery_attempts db' !! aid = Some a →
  ∃ r, deliveries db' !! a_delivery_id a = Some r ∧ a_generation a ≤ d_generation r ∧
       (a_generation a = d_generation r → is_terminal r = true) ∧
       (a_result_class a = ClassSucceeded →
        d_status r = StatusSucceeded ∧ d_generation r = a_generation a).
Proof.
  intros Hl. destruct (at_origin _ _ _ Hatt _ _ Hl) as [[L0 Hr]|(_ & HT & r & Lr & Hg)].
  - destruct (inv_attempt _ Hinv _ _ L0) as (r & Lr & Hg & Ht & Hs).
    destruct (row_successor _ _ Lr Hr) as (r' & Lr' & Hx).
    pose proof (transition_survives _ _ _ Hx) as (_ & Hg' & Hfix).
    exists r'. split_and!; [done|lia| |].
    + intros Heq. assert (d_generation r' = d_generation r) as Heq' by lia.
      assert (is_terminal r = true) as Htr by (apply Ht; lia).
      unfold is_terminal in *. by rewrite Hfix.
    + intros Hc. destruct (Hs Hc) as [Hst Hgen].
      assert (d_generation r' = d_generation r) as Heq'.
      { inversion Hx; subst; simpl in *; congruence. }
      split; [|congruence]. rewrite Hfix; [done|done|].
      unfold is_terminal. rewrite Hst. by apply bool_decide_eq_true; left.
  - destruct (row_successor _ _ Lr) as (r' & Lr' & Hx); [by rewrite HT|].
    rewrite HT in Hx. inversion Hx as [| | |class r0 r0' Hs Hs' _ Hgen| | |]; subst.
    exists r'. rewrite Hg, Hgen. unfold is_terminal.
    destruct (a_result_class a); simpl in *; rewrite Hs'; split_and!; try done; try lia;
      intros; try lia; apply bool_decide_eq_true; naive_solver.
Qed.

Lemma step_attempt_unique aid1 aid2 a1 a2 :
  delivery_attempts db' !! aid1 = Some a1 → delivery_attempts db' !! aid2 = Some a2 →
  a_delivery_id a1 = a_delivery_id a2 → a_generation a1 = a_generation a2 → aid1 = aid2.
Proof.
  intros L1 L2 Hd Hg.
  assert (Hex : ∀ b c (bid cid : string),
    delivery_attempts db !! bid = Some b →
    a_delivery_id b = a_delivery_id c → a_generation b = a_generation c →
    T (a_delivery_id c) = Finish (a_result_class c) →
    (∃ r, deliveries db !! a_delivery_id c = Some r ∧ a_generation c = d_generation r) →
    False).
  { intros b c bid cid Lb Hbc Hgbc HT (r & Lr & Hgr).
    destruct (inv_attempt _ Hinv _ _ Lb) as (r0 & Lr0 & _ & Ht & _).
    rewrite Hbc in Lr0. simplify_eq.
    pose proof (rs_transition _ _ _ Hrows (a_delivery_id c)) as Hx.
    rewrite HT, Lr in Hx. assert (is_terminal r = true) as Htm by (apply Ht; congruence).
    unfold is_terminal in Htm. to_prop.
    inversion Hx; subst; destruct Htm; congruence. }
  destruct (at_origin _ _ _ Hatt _ _ L1) as [[M1 _]|(N1 & T1 & R1)];
  destruct (at_origin _ _ _ Hatt _ _ L2) as [[M2 _]|(N2 & T2 & R2)].
  - by eapply inv_attempt_unique.
  - exfalso. by eapply (Hex a1 a2 aid1 aid2).
  - exfalso. by eapply (Hex a2 a1 aid2 aid1).
  - by eapply at_one.
Qed.

Lemma step_succeeded id r' :
  deliveries db' !! id = Some r' → d_status r' = StatusSucceeded →
  ∃ aid a, delivery_attempts db' !! aid = Some a ∧
           attempt_matches a id (d_generation r') ClassSucceeded.
Proof.
  intros Hl Hs. destruct (row_origin _ _ Hl) as [(_ & _ & Hp & _)|(r & Lr & Hx)];
    [congruence|].
  destruct (T id) as [| | |class| | |] eqn:HT; inversion Hx; subst; try congruence.
  - destruct (inv_succeeded _ Hinv _ _ Lr Hs) as (aid & a & La & Hm).
    exists aid, a. split; [|done]. eapply at_kept; [done..|].
    destruct Hm as [-> _]. by rewrite HT.
  - destruct class; simpl in *; try congruence.
    destruct (at_made _ _ _ Hatt id ClassSucceeded r HT Lr) as (aid & a & La & Hm).
    exists aid, a. split; [done|]. by replace (d_generation r') with (d_generation r).
Qed.

Lemma has_event_kept id g :
  has_event db id g = true → T id ≠ Retire → has_event db' id g = true.
Proof.
  rewrite !has_event_true. intros (eid & e & L & <- & <-) Hr.
  destruct (ev_kept _ _ _ Hev _ _ L Hr) as (e' & L' & [? ?]). eauto.
Qed.

Lemma step_initial id r' :
  deliveries db' !! id = Some r' → d_status r' = StatusPending → d_generation r' = 0 →
  has_event db' id 0 = true.
Proof.
  intros Hl Hs Hg. destruct (row_origin _ _ Hl) as [(A & _)|(r & Lr & Hx)].
  - rewrite <- Hg. by eapply ev_made; [done|left|].
  - pose proof (check_delivery_generation _ (inv_check _ Hinv _ _ Lr)).
    destruct (T id) as [| | |class| | |] eqn:HT; inversion Hx; subst;
      try congruence; try lia.
    + eapply has_event_kept; [by eapply inv_initial|]. by rewrite HT.
    + destruct class; simpl in *; congruence || lia.
Qed.

Lemma step_audit uid u :
  replay_audits db' !! uid = Some u →
  check_audit u = true ∧
  ∃ r, deliveries db' !! r_delivery_id u = Some r ∧ r_to_generation u ≤ d_generation r.
Proof.
  intros Hl. destruct (au_origin _ _ _ Haud _ _ Hl) as [[L0 Hr]|(HT & Hc & r & Lr & ->)].
  - destruct (inv_audit _ Hinv _ _ L0) as (Hc & r & Lr & Hg).
    destruct (row_successor _ _ Lr Hr) as (r' & Lr' & (_ & Hg' & _)%transition_survives).
    split; [done|]. exists r'. split; [done|lia].
  - split; [done|]. exists r. split; [done|lia].
Qed.

Lemma Inv_step : Inv db'.
Proof.
  constructor; eauto using step_check, step_key, step_version, step_event,
    step_event_unique, step_event_ok, step_attempt, step_attempt_unique,
    step_succeeded, step_initial, step_audit.
Qed.

(** No event is lost while its delivery is retained. *)
Lemma announced_step : announced db → announced db'.
Proof.
  intros [Hfirst Hreplay]. constructor.
  - intros id [r' Hl]. destruct (row_origin _ _ Hl) as [(A & _ & _ & Hg)|(r & Lr & Hx)].
    + rewrite <- Hg. by eapply ev_made; [done|left|].
    + apply has_event_kept; [eauto|]. intros HT. rewrite HT in Hx. inversion Hx.
  - intros uid u Hl. destruct (au_origin _ _ _ Haud _ _ Hl) as [[L0 HT]|(HT & _ & r & Lr & ->)].
    + apply has_event_kept; eauto.
    + by eapply ev_made; [done|right|].
Qed.
End preservation.

Lemma announced_initial db :
  deliveries db = ∅ → replay_audits db = ∅ → announced db.
Proof.
  intros Hd Hr. constructor; intros *; rewrite ?Hd, ?Hr, lookup_empty; [by intros [? ?]|done].
Qed.

Lemma Inv_initial db :
  deliveries db = ∅ → outbox_events db = ∅ → delivery_attempts db = ∅ →
  replay_audits db = ∅ → Inv db.
Proof.
  intros Hd He Ha Hr. constructor; intros *;
    rewrite ?Hd, ?He, ?Ha, ?Hr, !lookup_empty; naive_solver.
Qed.
