(* ===== verification/Refinement.v ===== *)
(** * The store implements the lifecycle

    Every operation of the store that writes, whatever its arguments, its
    clocks, the random values it draws and the outcome of its calls, leaves a
    database reachable by one step of the machine of [Lifecycle]. *)

From S2P Require Import Prelude GoStrings Model Database Store WorkerStore Outbox Scheduling Replay Lifecycle.

Local Open Scope Z_scope.

(** ** Tables an operation leaves alone or rewrites *)

Definition quiet (T : string → label) : Prop :=
  ∀ id, T id = Keep ∨ T id = Claim ∨ T id = Expire.

Definition only (id : string) (l : label) : string → label :=
  λ id', if decide (id' = id) then l else Keep.

Lemma only_eq id l : only id l id = l.
Proof. unfold only. by rewrite decide_True. Qed.

Lemma only_ne id l id' : id' ≠ id → only id l id' = Keep.
Proof. intros. unfold only. by rewrite decide_False. Qed.

Lemma only_inv id l l' id' : only id l id' = l' → l' ≠ Keep → id' = id ∧ l' = l.
Proof. unfold only. case_decide; naive_solver. Qed.

Lemma quiet_keep : quiet (λ _, Keep).
Proof. intros id. auto. Qed.

Lemma quiet_only id l : l = Claim ∨ l = Expire → quiet (only id l).
Proof. intros Hl id'. unfold only. case_decide; naive_solver. Qed.

Lemma registry_refl db db' :
  destination_versions db' = destination_versions db → registry_step db db'.
Proof. intros E k v. by rewrite E. Qed.

Lemma rows_keep db db' : deliveries db' = deliveries db → rows_step (λ _, Keep) db db'.
Proof. intros E. constructor; try done. intros id. rewrite E. constructor. Qed.

Lemma rows_update T f db db' :
  deliveries db' = map_update f (deliveries db) →
  map_Forall (λ _ r, check_delivery r = true) (map_touched f (deliveries db)) →
  (∀ id, deliveries db !! id = None → T id = Keep) →
  (∀ id r, deliveries db !! id = Some r →
     match f id r with
     | None => T id = Keep
     | Some r' => T id ≠ Accept ∧ transition (T id) (Some r) (Some r')
     end) →
  rows_step T db db'.
Proof.
  intros Hd Hc Hn Ht.
  assert (Hna : ∀ id, T id ≠ Accept).
  { intros id. destruct (deliveries db !! id) as [r|] eqn:E.
    - specialize (Ht _ _ E). destruct (f id r); [by destruct Ht|congruence].
    - by rewrite Hn. }
  constructor.
  - intros id. rewrite Hd, lookup_map_update.
    destruct (deliveries db !! id) as [r|] eqn:E; simpl.
    + specialize (Ht _ _ E). destruct (f id r); simpl; [naive_solver|].
      rewrite Ht. constructor.
    + rewrite Hn by done. constructor.
  - intros id r' Hk. rewrite Hd, lookup_map_update_Some. intros (r & Hl & ->).
    specialize (Ht _ _ Hl). destruct (f id r) as [r'|] eqn:Ef; [|done]. simpl.
    apply (Hc id). by rewrite lookup_map_touched, Hl.
  - intros id id' Ha. by apply Hna in Ha.
  - intros id r id' r' Ha. by apply Hna in Ha.
  - intros id r Ha. by apply Hna in Ha.
Qed.

Lemma attempts_keep T db db' :
  delivery_attempts db' = delivery_attempts db →
  (∀ id, T id ≠ Retire) → (∀ id c, T id ≠ Finish c) → attempts_step T db db'.
Proof.
  intros E Hr Hf. constructor.
  - intros aid a Hl _. by rewrite E.
  - intros aid a Hl. rewrite E in Hl. left. eauto.
  - intros id c r HT. by apply Hf in HT.
  - intros aid1 aid2 a1 a2 L1 _ N1. congruence.
Qed.

Lemma events_map T f db db' :
  outbox_events db' = map_update f (outbox_events db) →
  (∀ eid e e', outbox_events db !! eid = Some e → f eid e = Some e' →
     same_signal e' e ∧ (event_ok e → event_ok e')) →
  (∀ id, T id ≠ Retire ∧ T id ≠ Accept ∧ T id ≠ Restart) → events_step T db db'.
Proof.
  intros E Hf HT. constructor.
  - intros eid e Hl _. rewrite E, lookup_map_update, Hl. simpl.
    destruct (f eid e) as [e'|] eqn:Ef; simpl.
    + exists e'. split; [done|]. by eapply Hf.
    + by exists e.
  - intros eid e' Hl. rewrite E in Hl.
    apply lookup_map_update_Some in Hl as (e & Hl & ->). left. exists e.
    destruct (f eid e) as [e'|] eqn:Ef; simpl.
    + destruct (Hf _ _ _ Hl Ef). split_and!; [done|done|apply HT|done].
    + split_and!; [done|done|apply HT|done].
  - intros eid1 eid2 e1 e2 L1 _ N1. rewrite E, lookup_map_update, N1 in L1. done.
  - intros id r' [H|H]; destruct (HT id) as (_ & ? & ?); contradiction.
Qed.

Lemma events_keep T db db' :
  outbox_events db' = outbox_events db →
  (∀ id, T id ≠ Retire ∧ T id ≠ Accept ∧ T id ≠ Restart) → events_step T db db'.
Proof.
  intros E HT. apply (events_map T (λ _ _, None)); [|done|done].
  rewrite E. apply map_eq. intros i. rewrite lookup_map_update. by destruct (_ !! i).
Qed.

Lemma audits_keep T db db' :
  replay_audits db' = replay_audits db →
  (∀ id, T id ≠ Retire ∧ T id ≠ Restart) → audits_step T db db'.
Proof.
  intros E HT. constructor.
  - intros uid u Hl _. by rewrite E.
  - intros uid u Hl. rewrite E in Hl. left. split; [done|apply HT].
  - intros id r' H. destruct (HT id). contradiction.
Qed.

Lemma quiet_inv T id : quiet T →
  T id ≠ Retire ∧ T id ≠ Accept ∧ T id ≠ Restart ∧ (∀ c, T id ≠ Finish c).
Proof. intros Hq. destruct (Hq id) as [->|[->| ->]]; naive_solver. Qed.

(** Operations that touch only the rows of deliveries, quietly. *)
Lemma quiet_spec T db db' :
  quiet T → rows_step T db db' →
  destination_versions db' = destination_versions db →
  outbox_events db' = outbox_events db →
  delivery_attempts db' = delivery_attempts db →
  replay_audits db' = replay_audits db → spec_step T db db'.
Proof.
  intros Hq Hr Hv He Ha Hu. constructor; [done|by apply registry_refl|..].
  - apply attempts_keep; [done|intros id|intros id c]; by apply (quiet_inv _ id) in Hq as (?&?&?&?).
  - apply events_keep; [done|]. intros id. by apply (quiet_inv _ id) in Hq as (?&?&?&?).
  - apply audits_keep; [done|]. intros id. by apply (quiet_inv _ id) in Hq as (?&?&?&?).
Qed.

Lemma spec_refl db : spec_step (λ _, Keep) db db.
Proof. apply quiet_spec; auto using quiet_keep, rows_keep. Qed.

(** Operations that only rewrite Outbox rows. *)
Lemma events_only_spec f db t db' :
  update_events f db = Ok (t, db') →
  (∀ eid e e', outbox_events db !! eid = Some e → f eid e = Some e' →
     same_signal e' e ∧ (event_ok e → event_ok e')) →
  spec_step (λ _, Keep) db db'.
Proof.
  intros (_ & _ & ->)%update_events_Ok Hf. constructor.
  - by apply rows_keep.
  - by apply registry_refl.
  - by apply attempts_keep.
  - by eapply events_map.
  - by apply audits_keep.
Qed.

(** ** Inserting one row per selected delivery *)

Definition insert_opt (o : option (string * outbox_row)) : Tx Z :=
  match o with
  | None => mret 0
  | Some (eid, e) => insert_event_or_nothing eid e
  end.

Lemma insert_event_or_nothing_Ok eid e db n db' :
  insert_event_or_nothing eid e db = Ok (n, db') →
  has_event db' (e_delivery_id e) (e_generation e) = true ∧
  (db' = db ∨
   outbox_events db !! eid = None ∧ check_event e = true ∧
   has_event db (e_delivery_id e) (e_generation e) = false ∧
   is_Some (deliveries db !! e_delivery_id e) ∧
   db' = set_outbox_events (<[eid := e]> (outbox_events db)) db).
Proof.
  unfold insert_event_or_nothing. destruct (has_event db _ _) eqn:E.
  { intros [= <- <-]. auto. }
  destruct (insert_event eid e db) as [[u d]|] eqn:Ei; [|done]. intros [= <- <-].
  apply insert_event_Ok in Ei as (Hn & Hh & Hd & Hc & ->). split; [|naive_solver].
  apply has_event_true. exists eid, e. simpl. by rewrite lookup_insert_eq.
Qed.

Record inserted {A} (o : A → option (string * outbox_row)) (l : list A) (db db' : DB) : Prop := {
  ins_frame : db' = set_outbox_events (outbox_events db') db;
  ins_kept eid e : outbox_events db !! eid = Some e → outbox_events db' !! eid = Some e;
  ins_origin eid e :
    outbox_events db' !! eid = Some e → outbox_events db !! eid = Some e ∨
    (outbox_events db !! eid = None ∧ check_event e = true ∧
     has_event db (e_delivery_id e) (e_generation e) = false ∧
     ∃ x, x ∈ l ∧ o x = Some (eid, e));
  ins_made x eid e : x ∈ l → o x = Some (eid, e) →
    has_event db' (e_delivery_id e) (e_generation e) = true;
  ins_one eid1 eid2 e1 e2 :
    outbox_events db' !! eid1 = Some e1 → outbox_events db' !! eid2 = Some e2 →
    outbox_events db !! eid1 = None → outbox_events db !! eid2 = None →
    same_signal e1 e2 → eid1 = eid2
}.

Lemma set_outbox_events_id db : set_outbox_events (outbox_events db) db = db.
Proof. by destruct db. Qed.

Lemma has_event_mono db db' id g :
  (∀ eid e, outbox_events db !! eid = Some e → outbox_events db' !! eid = Some e) →
  has_event db id g = true → has_event db' id g = true.
Proof. intros Hm. rewrite !has_event_true. naive_solver. Qed.

Lemma for_each_inserted {A} (o : A → option (string * outbox_row)) l db n db' :
  for_each (λ x, insert_opt (o x)) l db = Ok (n, db') → inserted o l db db'.
Proof.
  revert db n. induction l as [|x l IH]; intros db n Hf; simpl in Hf.
  { apply tx_ret_Ok in Hf as [_ ->]. constructor; try naive_solver.
    - by rewrite set_outbox_events_id.
    - intros x eid e Hin. by apply not_elem_of_nil in Hin. }
  apply tx_bind_Ok in Hf as (n1 & db1 & Hi & Hf).
  apply tx_bind_Ok in Hf as (n2 & db2 & Hl & Hf).
  apply tx_ret_Ok in Hf as [_ ->]. rename db2 into db'.
  apply IH in Hl as [Fr Kp Or Mk On]. clear IH.
  assert (Hcase : db1 = db ∧ o x = None ∨ ∃ eid e, o x = Some (eid, e) ∧
    has_event db1 (e_delivery_id e) (e_generation e) = true ∧
    (db1 = db ∨ outbox_events db !! eid = None ∧ check_event e = true ∧
     has_event db (e_delivery_id e) (e_generation e) = false ∧
     is_Some (deliveries db !! e_delivery_id e) ∧
     db1 = set_outbox_events (<[eid := e]> (outbox_events db)) db)).
  { unfold insert_opt in Hi. destruct (o x) as [[eid e]|]; [|tx_inv; auto].
    apply insert_event_or_nothing_Ok in Hi. right. exists eid, e. by split. }
  assert (Hmade : ∀ y eid e, y ∈ x :: l → o y = Some (eid, e) →
    has_event db' (e_delivery_id e) (e_generation e) = true).
  { intros y eid e [->|Hin]%elem_of_cons Ho; [|by eapply Mk].
    destruct Hcase as [[_ ?]|(eid' & e' & Ho' & Hh & _)]; [congruence|].
    simplify_eq. by eapply has_event_mono. }
  destruct Hcase as [[-> _]|(eid & e & Ho & _ & [->|(Hn & Hc & Hh & Hd & ->)])];
    [constructor; auto; intros eid0 e0 H0; destruct (Or _ _ H0) as [?|(?&?&?&?&?&?)];
       [by left|right; set_solver]..|].
  simpl in *. constructor; auto.
  - intros eid0 e0 H0. apply Kp. rewrite lookup_insert_ne; [done|]. naive_solver.
  - intros eid0 e0 H0. destruct (Or _ _ H0) as [H1|(H1 & Hc1 & Hh1 & y & Hy & Hoy)].
    + destruct (decide (eid0 = eid)) as [->|Hne].
      * rewrite lookup_insert_eq in H1. simplify_eq. right. set_solver.
      * rewrite lookup_insert_ne in H1 by done. by left.
    + right. rewrite lookup_insert_None in H1. destruct H1 as [H1 _].
      split_and!; [done|done| |set_solver].
      apply not_true_iff_false. intros Hx.
      eapply (has_event_mono db (set_outbox_events (<[eid:=e]> (outbox_events db)) db))
        in Hx; [simpl in *; congruence|].
      intros k v Hk. simpl. rewrite lookup_insert_ne; [done|]. naive_solver.
  - intros eid1 eid2 e1 e2 L1 L2 N1 N2 Hs.
    destruct (decide (eid1 = eid)) as [->|H1], (decide (eid2 = eid)) as [->|H2]; [done| | |].
    + exfalso. assert (E1 : outbox_events db' !! eid = Some e).
      { apply Kp. by rewrite lookup_insert_eq. }
      simplify_eq. destruct (Or _ _ L2) as [Hx|(_ & _ & Hx & _)].
      * rewrite lookup_insert_ne in Hx by done. congruence.
      * rewrite has_event_false in Hx. destruct Hs.
        eapply (Hx eid e1); simpl; [by rewrite lookup_insert_eq|done..].
    + exfalso. assert (E1 : outbox_events db' !! eid = Some e).
      { apply Kp. by rewrite lookup_insert_eq. }
      simplify_eq. destruct (Or _ _ L1) as [Hx|(_ & _ & Hx & _)].
      * rewrite lookup_insert_ne in Hx by done. congruence.
      * rewrite has_event_false in Hx. destruct Hs.
        eapply (Hx eid e2); simpl; [by rewrite lookup_insert_eq|done..].
    + eapply On; [done|done| | |done]; by rewrite lookup_insert_ne.
Qed.

Record recorded (clk : clock) (gen : uuid_source) (l : list (string * delivery_row))
    (db db' : DB) : Prop := {
  rec_frame : db' = set_delivery_attempts (delivery_attempts db') db;
  rec_kept aid a : delivery_attempts db !! aid = Some a → delivery_attempts db' !! aid = Some a;
  rec_origin aid a :
    delivery_attempts db' !! aid = Some a → delivery_attempts db !! aid = Some a ∨
    (delivery_attempts db !! aid = None ∧
     ∃ id r token, (id, r) ∈ l ∧ aid = gen id 0%nat ∧ a = recovery_attempt clk id r token);
  rec_made id r : (id, r) ∈ l →
    ∃ token, delivery_attempts db' !! gen id 0%nat = Some (recovery_attempt clk id r token)
}.

Lemma for_each_recorded clk gen l db n db' :
  for_each (record_recovery clk gen) l db = Ok (n, db') → recorded clk gen l db db'.
Proof.
  revert db n. induction l as [|[id r] l IH]; intros db n Hf; simpl in Hf.
  { apply tx_ret_Ok in Hf as [_ ->]. constructor; [by destruct db|naive_solver..|].
    intros id r Hin. by apply not_elem_of_nil in Hin. }
  apply tx_bind_Ok in Hf as (n1 & db1 & Hi & Hf).
  apply tx_bind_Ok in Hf as (n2 & db2 & Hl & Hf).
  apply tx_ret_Ok in Hf as [_ ->]. rename db2 into db'.
  apply IH in Hl as [Fr Kp Or Mk]. clear IH.
  destruct (d_lease_token r) as [token|] eqn:Et; [|done].
  apply tx_bind_Ok in Hi as (u & db3 & Hi & Hr). apply tx_ret_Ok in Hr as [_ ->].
  apply insert_attempt_Ok in Hi as (Hn & Hd & Hc & ->). simpl in *. constructor; auto.
  - intros aid a Ha. apply Kp. rewrite lookup_insert_ne; [done|]. naive_solver.
  - intros aid a Ha. destruct (Or _ _ Ha) as [Hx|(Hx & id1 & r1 & t1 & Hin & -> & ->)].
    + destruct (decide (aid = gen id 0%nat)) as [->|Hne].
      * rewrite lookup_insert_eq in Hx. simplify_eq. right. split; [done|].
        exists id, r, token. split; [left|done].
      * rewrite lookup_insert_ne in Hx by done. by left.
    + right. rewrite lookup_insert_None in Hx. destruct Hx as [Hx _]. split; [done|].
      exists id1, r1, t1. split; [by right|done].
  - intros id1 r1 [Heq|Hin]%elem_of_cons; [|by apply Mk]. simplify_eq.
    exists token. apply Kp. by rewrite lookup_insert_eq.
Qed.

(** ** The operations *)

Definition refines (db db' : DB) : Prop := ∃ T, spec_step T db db'.

Lemma refines_refl db : refines db db.
Proof. eexists. apply spec_refl. Qed.

(** A committed body is a step, hence so is the operation. *)
Lemma run_tx_refines {A} io b c (body : Tx A) db r db' :
  run_tx io b c body db = (r, db') →
  (∀ a db1, body db = Ok (a, db1) → refines db db1) → refines db db'.
Proof. intros [->|[a Ha]]%run_tx_cases Hb; eauto using refines_refl. Qed.

Lemma exec_refines {A} io n (m : Tx A) db r db' :
  exec io n m db = (r, db') →
  (∀ a db1, m db = Ok (a, db1) → refines db db1) → refines db db'.
Proof. intros [->|[a Ha]]%exec_cases Hb; eauto using refines_refl. Qed.

(** Rows rewritten by the Outbox operations. *)
Lemma set_event_signal e tr av pu ob ow tk un :
  same_signal (set_event e tr av pu ob ow tk un) e.
Proof. done. Qed.

Lemma event_ok_generation e : event_ok e → generation_ok (e_generation e) = true.
Proof. unfold event_ok, check_event. intros [Hc _]. to_prop. done. Qed.

(** An event with no lease, or with a full lease and unpublished, is well formed. *)
Lemma event_ok_unleased e tr av pu ob :
  event_ok e → event_ok (set_event e tr av pu ob None None None).
Proof.
  intros Hok%event_ok_generation. split; [|done].
  unfold check_event, outbox_lease_is_complete. simpl. by rewrite Hok.
Qed.

Lemma event_ok_leased e tr av ob ow tk un :
  event_ok e → event_ok (set_event e tr av None ob (Some ow) (Some tk) (Some un)).
Proof.
  intros Hok%event_ok_generation. split; [|simpl; by intros [? ?]].
  unfold check_event, outbox_lease_is_complete. simpl. by rewrite Hok.
Qed.

(** An update that keeps the lease and does not publish. *)
Lemma event_ok_same_lease e tr av pu ob :
  event_ok e → (is_Some pu → is_Some (e_published_at e)) →
  event_ok (set_event e tr av pu ob (e_lease_owner e) (e_lease_token e) (e_lease_until e)).
Proof.
  intros [Hc Hp] Hpu. split; [|simpl; auto].
  unfold check_event, outbox_lease_is_complete in *. simpl in *. done.
Qed.

#[export] Hint Resolve set_event_signal event_ok_unleased event_ok_leased : notifier.

Section operations.
Context `{Unicode, Postgres}.

Lemma ObserveSignal_refines io clk id g db r db' :
  ObserveSignal io clk id g db = (r, db') → refines db db'.
Proof.
  unfold ObserveSignal. destruct (as_uuid id) as [u|]; [|intros [= _ <-]; apply refines_refl].
  destruct (exec _ _ _ _) as [r1 db1] eqn:Hx. intros [= _ <-].
  eapply exec_refines; [exact Hx|]. intros a db2 Hu. eexists.
  unfold observe_body in Hu. eapply events_only_spec; [exact Hu|].
  intros eid e e' Hl Hf; cbn beta in Hf. repeat case_match; simplify_eq. split; [done|].
  intros Hok. apply event_ok_same_lease; auto.
Qed.

Lemma ClaimOutbox_refines io clk sc rand owner lease limit db r db' :
  ClaimOutbox io clk sc rand owner lease limit db = (r, db') → refines db db'.
Proof.
  unfold ClaimOutbox. case_match; [intros [= _ <-]; apply refines_refl|].
  destruct (newUUID _) as [token|]; [|intros [= _ <-]; apply refines_refl].
  intros Hx. eapply exec_refines; [exact Hx|]. intros a db2 Hu. eexists.
  unfold claim_outbox_body in Hu. apply tx_bind_Ok in Hu as (t & db3 & Hu & Hr).
  apply tx_ret_Ok in Hr as [_ ->]. eapply events_only_spec; [exact Hu|].
  intros eid e e' Hl Hf; cbn beta in Hf. case_bool_decide as Hin; simplify_eq. split; [done|].
  apply list_elem_of_fmap in Hin as ([eid' e0] & -> & Hin). simpl in *.
  apply select_elem in Hin as (Hl' & Hp & _). simplify_eq.
  unfold publishable in Hp. to_prop. unfold lease_event.
  match goal with Hn : e_published_at _ = None |- _ => rewrite Hn end.
  apply event_ok_leased.
Qed.

Lemma MarkOutboxPublished_refines io clk ev db r db' :
  MarkOutboxPublished io clk ev db = (r, db') → refines db db'.
Proof.
  unfold MarkOutboxPublished. intros Hx. eapply exec_refines; [exact Hx|].
  intros a db2 Hu. unfold mark_body in Hu. tx_inv. eexists.
  eapply events_only_spec; [eassumption|]. intros eid e e' Hl Hf; cbn beta in Hf.
  case_match; simplify_eq. split; [done|]. apply event_ok_unleased.
Qed.

Lemma ReleaseOutbox_refines io ev db r db' :
  ReleaseOutbox io ev db = (r, db') → refines db db'.
Proof.
  unfold ReleaseOutbox. destruct (exec _ _ _ _) as [r1 db1] eqn:Hx. intros Hr.
  assert (db' = db1) as ->.
  { destruct r1 as [[? ?]|]; [|naive_solver]. case_bool_decide; naive_solver. }
  clear Hr. eapply exec_refines; [exact Hx|].
  intros a db2 Hu. unfold release_body in Hu. tx_inv. eexists.
  eapply events_only_spec; [eassumption|]. intros eid e e' Hl Hf; cbn beta in Hf.
  case_match; simplify_eq. split; [done|]. apply event_ok_unleased.
Qed.

Lemma ReconcileStalledSignals_refines io clk sc gen w limit db r db' :
  ReconcileStalledSignals io clk sc gen w limit db = (r, db') → refines db db'.
Proof.
  unfold ReconcileStalledSignals. case_match; [intros [= _ <-]; apply refines_refl|].
  intros Hx. eapply exec_refines; [exact Hx|]. intros a db2 Hu.
  unfold reconcile_body in Hu. apply tx_bind_Ok in Hu as (t & db3 & Hu & Hr).
  apply tx_ret_Ok in Hr as [_ ->]. eexists. eapply events_only_spec; [exact Hu|].
  intros eid e e' Hl Hf; cbn beta in Hf. case_match; simplify_eq. split; [done|].
  intros Hok. apply event_ok_same_lease; [done|]. by intros [? ?].
Qed.

(** The registry statements leave every delivery table alone and never
    change a destination version. *)
Definition registry_only (db db' : DB) : Prop :=
  deliveries db' = deliveries db ∧ outbox_events db' = outbox_events db ∧
  delivery_attempts db' = delivery_attempts db ∧ replay_audits db' = replay_audits db ∧
  registry_step db db'.

Lemma registry_only_trans db1 db2 db3 :
  registry_only db1 db2 → registry_only db2 db3 → registry_only db1 db3.
Proof.
  intros (?&?&?&?&R1) (?&?&?&?&R2). split_and!; [congruence..|].
  intros k v Hk. by apply R2, R1.
Qed.

Lemma registry_only_refl db : registry_only db db.
Proof. split_and!; auto using registry_refl. Qed.

Lemma insert_caller_registry id h db u db' :
  insert_caller_or_nothing id h db = Ok (u, db') → registry_only db db'.
Proof.
  unfold insert_caller_or_nothing. repeat case_bool_decide; intros [= <- <-];
    [apply registry_only_refl|split_and!; try done; by apply registry_refl].
Qed.

Lemma upsert_destination_registry id v db u db' :
  upsert_destination id v db = Ok (u, db') → registry_only db db'.
Proof. intros [= <- <-]. split_and!; try done. by apply registry_refl. Qed.

Lemma insert_version_registry id v row db u db' :
  insert_version_or_nothing id v row db = Ok (u, db') → registry_only db db'.
Proof.
  unfold insert_version_or_nothing. destruct row as [vr|]; [|done].
  destruct (check_version vr); [|done]. simpl.
  case_bool_decide as Hs; intros [= <- <-]; [apply registry_only_refl|].
  split_and!; try done. intros k w Hk. simpl.
  rewrite lookup_insert_ne; [done|]. intros <-. apply Hs. by eexists.
Qed.

Lemma insert_authorization_registry c d db u db' :
  insert_authorization c d db = Ok (u, db') → registry_only db db'.
Proof. intros [= <- <-]. split_and!; try done. by apply registry_refl. Qed.

Lemma Bootstrap_refines io config db r db' :
  Bootstrap io config db = (r, db') → refines db db'.
Proof.
  unfold Bootstrap. do 2 (case_match; [intros [= _ <-]; apply refines_refl|]).
  intros Hx. eapply run_tx_refines; [exact Hx|]. intros a db1 Hb. clear Hx.
  assert (registry_only db db1) as (Hd & He & Ha & Hu & Hv).
  { unfold bootstrap_body in Hb. tx_inv. case_match; [|done]. tx_inv. case_match; [|done].
    tx_inv. repeat match goal with
    | H : insert_caller_or_nothing _ _ _ = _ |- _ => apply insert_caller_registry in H
    | H : upsert_destination _ _ _ = _ |- _ => apply upsert_destination_registry in H
    | H : insert_version_or_nothing _ _ _ _ = _ |- _ => apply insert_version_registry in H
    | H : insert_authorization _ _ _ = _ |- _ => apply insert_authorization_registry in H
    end. eauto using registry_only_trans. }
  exists (λ _, Keep).
  constructor; auto using rows_keep, attempts_keep, events_keep, audits_keep.
Qed.

(** ** Operations on one delivery *)

Lemma rows_update_one id l f db db' r r' :
  deliveries db' = map_update f (deliveries db) →
  map_Forall (λ _ s, check_delivery s = true) (map_touched f (deliveries db)) →
  deliveries db !! id = Some r → f id r = Some r' →
  (∀ id' s, id' ≠ id → f id' s = None) → l ≠ Accept →
  transition l (Some r) (Some r') → rows_step (only id l) db db'.
Proof.
  intros Hd Hc Hl Hf Hne Ha Ht. eapply rows_update; [done|done| |].
  - intros id' Hn. apply only_ne. congruence.
  - intros id' s Hs. destruct (decide (id' = id)) as [->|Hid].
    + simplify_eq. rewrite Hf, only_eq. done.
    + rewrite Hne by done. by apply only_ne.
Qed.

Lemma claimable_pending g due open_ r :
  claimable g due open_ r = true →
  d_status r = StatusPending ∧ d_generation r = g ∧
  d_next_attempt_at r ≤ due ∧ open_ < d_retry_deadline r.
Proof. unfold claimable. intros ?. to_prop. done. Qed.

Lemma claim_update_Some clk id g ow tk ls id' r r' :
  claim_update clk id g ow tk ls id' r = Some r' →
  id' = id ∧ claimable g (clock_timestamp clk id 2) (clock_timestamp clk id 3) r = true ∧
  r' = claimed_row clk id ow tk ls r.
Proof. unfold claim_update. case_match; [|done]. intros [= <-]. by to_prop. Qed.

Lemma claim_update_ne clk id g ow tk ls id' r :
  id' ≠ id → claim_update clk id g ow tk ls id' r = None.
Proof. intros Hne. unfold claim_update. by rewrite bool_decide_false. Qed.

Lemma ClaimDelivery_refines io clk rand did g owner lease db r db' :
  ClaimDelivery io clk rand did g owner lease db = (r, db') → refines db db'.
Proof.
  unfold ClaimDelivery. case_match; [intros [= _ <-]; apply refines_refl|].
  destruct (newUUID _) as [token|]; [|intros [= _ <-]; apply refines_refl].
  intros Hx. eapply run_tx_refines; [exact Hx|]. intros a db1 Hb. clear Hx.
  unfold claim_body in Hb. tx_inv.
  match goal with Hu : update_deliveries _ _ = _ |- _ =>
    apply update_deliveries_Ok in Hu as (Hc & -> & ->) end.
  destruct (map_touched _ _ !! _) as [r0|] eqn:Ht; simpl in Hb; [|done]. tx_inv.
  case_match; [|done]. tx_inv.
  rewrite lookup_map_touched in Ht. apply bind_Some in Ht as (r1 & Hl & Hf).
  exists (only x1 Claim). apply quiet_spec; try done; [by apply quiet_only; left|].
  eapply rows_update_one; [done|done|exact Hl|exact Hf|..]; [|done|].
  { intros. by apply claim_update_ne. }
  apply claim_update_Some in Hf as (_ & Hcl & ->).
  apply claimable_pending in Hcl as (? & _). by constructor.
Qed.

Lemma fence_inv now g ow tk class next r :
  fence now g ow tk class next r = true →
  d_generation r = g ∧ d_status r = StatusDelivering ∧
  d_lease_owner r = Some ow ∧ d_lease_token r = Some tk ∧
  (∃ u, d_lease_until r = Some u ∧ now < u) ∧
  (class = ClassRetryableFailure → ∃ n, next = Some n ∧ n < d_retry_deadline r).
Proof.
  unfold fence. intros Hf. to_prop. split_and!; try done.
  - destruct (d_lease_until r); [|done]. to_prop. eauto.
  - intros ->. simpl in *. destruct next; [|done]. to_prop. eauto.
Qed.

Lemma complete_update_Some clk id g ow tk c n id' r r' :
  complete_update clk id g ow tk c n id' r = Some r' →
  id' = id ∧ fence (clock_timestamp clk id 1) g ow tk c n r = true ∧
  r' = completed_row (clock_timestamp clk id 0) c n r.
Proof. unfold complete_update. case_match; [|done]. intros [= <-]. by to_prop. Qed.

Lemma complete_update_ne clk id g ow tk c n id' r :
  id' ≠ id → complete_update clk id g ow tk c n id' r = None.
Proof. intros Hne. unfold complete_update. by rewrite bool_decide_false. Qed.

Lemma completed_transition ts c n r :
  d_status r = StatusDelivering →
  transition (Finish c) (Some r) (Some (completed_row ts c n r)).
Proof. intros Hs. constructor; try done; by destruct c. Qed.

(** An update of one row touches one row or none. *)
Lemma touched_one {R} (f : string → R → option R) (m : gmap string R) id :
  (∀ id' s, id' ≠ id → f id' s = None) → size (map_touched f m) = 1%nat →
  ∃ r r', m !! id = Some r ∧ f id r = Some r'.
Proof.
  intros Hne Hs. destruct (map_touched f m !! id) as [r'|] eqn:E.
  - rewrite lookup_map_touched in E. apply bind_Some in E as (r & ? & ?). eauto.
  - exfalso. assert (map_touched f m = ∅) as He; [|by rewrite He, map_size_empty in Hs].
    apply map_eq. intros i. rewrite lookup_empty.
    destruct (decide (i = id)) as [->|Hi]; [done|].
    rewrite lookup_map_touched. destruct (m !! i); [|done]. simpl. by apply Hne.
Qed.

(** What a committed result did. *)
Lemma complete_body_Ok io clk aid res class next db u db' :
  complete_body io clk aid res class next db = Ok (u, db') →
  ∃ id token r,
    uuid_in (AttemptResult.DeliveryID res) = Some id ∧
    uuid_in (AttemptResult.LeaseToken res) = Some token ∧
    deliveries db !! id = Some r ∧
    fence (clock_timestamp clk id 1) (AttemptResult.Generation res)
      (AttemptResult.LeaseOwner res) token class (timestamptz_of <$> next) r = true ∧
    delivery_attempts db !! aid = None ∧
    check_attempt (attempt_of id token class res) = true ∧
    map_Forall (λ _ s, check_delivery s = true)
      (map_touched (complete_update clk id (AttemptResult.Generation res)
         (AttemptResult.LeaseOwner res) token class (timestamptz_of <$> next))
         (deliveries db)) ∧
    db' = set_delivery_attempts
      (<[aid := attempt_of id token class res]> (delivery_attempts db))
      (set_deliveries (map_update (complete_update clk id (AttemptResult.Generation res)
         (AttemptResult.LeaseOwner res) token class (timestamptz_of <$> next))
         (deliveries db)) db).
Proof.
  unfold complete_body. intros Hb. apply tx_bind_Ok in Hb as ([[id token] n] & db1 & Hb & Hk).
  tx_inv. simplify_eq.
  match goal with Hu : update_deliveries _ _ = _ |- _ =>
    apply update_deliveries_Ok in Hu as (Hc & -> & ->) end.
  match goal with Hi : insert_attempt _ _ _ = _ |- _ =>
    apply insert_attempt_Ok in Hi as (Hn & Hd & Hca & ->) end.
  to_prop. match goal with Hs : size _ = 1%nat |- _ =>
    eapply touched_one in Hs as (r & r' & Hl & Hf);
      [|intros; by apply complete_update_ne] end.
  apply complete_update_Some in Hf as (_ & Hf & _). simpl in *. eauto 15.
Qed.

Lemma completeResult_refines io clk rand res class next db r db' :
  completeResult io clk rand res class next db = (r, db') → refines db db'.
Proof.
  unfold completeResult. destruct (newUUID _) as [aid|]; [|intros [= _ <-]; apply refines_refl].
  intros Hx. eapply run_tx_refines; [exact Hx|]. intros a db1 Hb. clear Hx.
  apply complete_body_Ok in Hb as (id & tok & r0 & _ & _ & Hl & Hf & Hn & _ & Hc & ->).
  assert (Hf' := Hf). apply fence_inv in Hf' as (Hg & Hs & _).
  exists (only id (Finish class)). constructor; [|by apply registry_refl|..].
  - eapply rows_update_one; [done|done|exact Hl| | |done|by apply completed_transition].
    + unfold complete_update. by rewrite bool_decide_true, Hf.
    + intros. by apply complete_update_ne.
  - constructor; simpl.
    + intros aid' a' Ha _. rewrite lookup_insert_ne; [done|]. naive_solver.
    + intros aid' a' [[<- <-]|[Hne Ha]]%lookup_insert_Some; simpl.
      * right. rewrite only_eq. split_and!; [done|done|]. eauto.
      * left. split; [done|]. unfold only. by case_decide.
    + intros id' c' r' HT Hr'. apply only_inv in HT as [-> [= ->]]; [|done]. simplify_eq.
      exists aid. eexists. rewrite lookup_insert_eq. split; [done|]. done.
    + intros aid1 aid2 a1 a2 L1 L2 N1 N2 _.
      rewrite lookup_insert_Some in L1, L2. naive_solver.
  - apply events_keep; [done|]. intros id'. unfold only. by case_decide.
  - apply audits_keep; [done|]. intros id'. unfold only. by case_decide.
Qed.

(** What a committed submission did: it found the delivery of the same key,
    or inserted the delivery and its generation-0 event. *)
Lemma submit_body_Ok store io clk rand sub db d db' :
  submit_body store io clk rand sub db = Ok (d, db') →
  (db' = db ∧
   queryDeliveryByIdempotency (Submission.CallerID sub) (Submission.IdempotencyKey sub) db =
     Some (d, Submission.RequestHash sub)) ∨
  (queryDeliveryByIdempotency (Submission.CallerID sub) (Submission.IdempotencyKey sub) db =
     None ∧
   active_count db < backlogLimit store ∧
   ∃ id oid tid supplier,
     newUUID (rand 0%nat) = Ok id ∧ newUUID (rand 1%nat) = Ok oid ∧
     newUUID (rand 2%nat) = Ok tid ∧
     supplier = (if String.eqb (Submission.SupplierIdempotencyValue sub) ""
                 then id else Submission.SupplierIdempotencyValue sub) ∧
     d = submitted_delivery id supplier sub ∧
     let r := submitted_row (clk 4%nat) id supplier sub in
     let e := new_event id 0 tid (timestamptz_of (Submission.AcceptedAt sub))
                (clock_timestamp (clk 5%nat) oid 0) in
     insert_delivery id r db = Ok (tt, set_deliveries (<[id := r]> (deliveries db)) db) ∧
     outbox_events db !! oid = None ∧ has_event db id 0 = false ∧ check_event e = true ∧
     db' = set_outbox_events (<[oid := e]> (outbox_events db))
             (set_deliveries (<[id := r]> (deliveries db)) db)).
Proof.
  unfold submit_body. intros Hb. tx_inv. case_match; [case_match; subst|]; tx_inv.
  { left. to_prop. by subst. }
  right. to_prop. split_and!; [done|done|].
  match goal with Hi : insert_delivery _ _ _ = Ok (?u, _) |- _ =>
    assert (Hi' := Hi); apply insert_delivery_Ok in Hi' as (?&?&?&?&?&->); destruct u end.
  match goal with He : insert_event _ _ _ = Ok _ |- _ =>
    apply insert_event_Ok in He as (?&?&?&?&->) end.
  simpl in *. do 4 eexists. split_and!; try done.
Qed.

Lemma Submit_refines store io clk rand sub db r db' :
  Submit store io clk rand sub db = (r, db') → refines db db'.
Proof.
  unfold Submit. intros Hx. eapply run_tx_refines; [exact Hx|]. intros d db1 Hb. clear Hx.
  apply submit_body_Ok in Hb as [[-> _]|(_ & _ & id & oid & tid & sv & _ & _ & _ & _ & _ & Hb)];
    [apply refines_refl|].
  destruct Hb as (Hi & Ho & Hh & Hce & ->).
  apply insert_delivery_Ok in Hi as (Hn & Hk & _ & Hv & Hc & _).
  exists (only id Accept). constructor; [|by apply registry_refl|..]; simpl.
  - constructor; simpl.
    + intros id'. destruct (decide (id' = id)) as [->|Hne].
      * rewrite lookup_insert_eq, only_eq, Hn. by constructor.
      * rewrite lookup_insert_ne, only_ne by done. constructor.
    + intros id' r' HT. rewrite lookup_insert_Some. intros [[_ <-]|[Hne _]]; [done|].
      by rewrite only_ne in HT.
    + intros id1 id2 H1 H2. apply only_inv in H1 as [-> _]; [|done].
      by apply only_inv in H2 as [-> _].
    + intros id1 r1 id2 r2 HT. apply only_inv in HT as [-> _]; [|done].
      rewrite lookup_insert_eq. intros [= <-]. apply Hk.
    + intros id1 r1 HT. apply only_inv in HT as [-> _]; [|done].
      rewrite lookup_insert_eq. by intros [= <-].
  - apply attempts_keep; [done|intros id'|intros id' c]; unfold only; by case_decide.
  - constructor; simpl.
    + intros eid e He _. exists e. rewrite lookup_insert_ne; [done|]. naive_solver.
    + intros eid e [[<- <-]|[Hne He]]%lookup_insert_Some.
      * right. split_and!; [done|split; [done|by intros [? ?]]|done|].
        eexists. rewrite lookup_insert_eq. done.
      * left. exists e. split_and!; try done. unfold only. by case_decide.
    + intros eid1 eid2 e1 e2 L1 L2 N1 N2 _.
      rewrite lookup_insert_Some in L1, L2. naive_solver.
    + intros id1 r1 HT Hr1. assert (id1 = id) as ->.
      { destruct HT as [HT|HT]; by apply only_inv in HT as [-> _]. }
      rewrite lookup_insert_eq in Hr1. simplify_eq. apply has_event_true.
      exists oid. eexists. simpl. by rewrite lookup_insert_eq.
  - apply audits_keep; [done|]. intros id'. unfold only. by case_decide.
Qed.

Lemma replay_update_Some ts id id' r r' :
  replay_update ts id id' r = Some r' →
  id' = id ∧ d_status r = StatusFailedPermanent ∧ r' = replayed_row ts r.
Proof. unfold replay_update. case_match; [|done]. intros [= <-]. by to_prop. Qed.

Lemma replay_update_ne ts id id' r : id' ≠ id → replay_update ts id id' r = None.
Proof. intros Hne. unfold replay_update. by rewrite bool_decide_false. Qed.

(** What a committed replay did. *)
Lemma replay_body_Ok io clk aid oid tid did op reason db d db' :
  replay_body io clk aid oid tid did op reason db = Ok (d, db') →
  ∃ id r, let at_ := clock_timestamp (clk 1%nat) "" 0 in
    let r' := replayed_row at_ r in
    let u := AuditRow id (d_generation r' - 1) (d_generation r') op reason at_ in
    let e := new_event id (d_generation r') tid at_ (clock_timestamp (clk 5%nat) oid 0) in
    uuid_in did = Some id ∧ deliveries db !! id = Some r ∧
    d_status r = StatusFailedPermanent ∧
    map_Forall (λ _ s, check_delivery s = true)
      (map_touched (replay_update at_ id) (deliveries db)) ∧
    replay_audits db !! aid = None ∧ check_audit u = true ∧
    is_Some (callers db !! op) ∧
    outbox_events db !! oid = None ∧ has_event db id (d_generation r') = false ∧
    check_event e = true ∧ d = delivery_of id r' ∧
    db' = set_outbox_events (<[oid := e]> (outbox_events db))
            (set_replay_audits (<[aid := u]> (replay_audits db))
              (set_deliveries (map_update (replay_update at_ id) (deliveries db)) db)).
Proof.
  unfold replay_body. intros Hb.
  tx_inv.
  match goal with Hu : update_deliveries _ _ = _ |- _ =>
    apply update_deliveries_Ok in Hu as (Hc & -> & ->) end.
  destruct (map_touched _ _ !! _) as [r'|] eqn:Ht; tx_inv.
  rewrite lookup_map_touched in Ht. apply bind_Some in Ht as (r & Hl & Hf).
  apply replay_update_Some in Hf as (_ & Hs & ->).
  match goal with Hi : insert_audit _ _ _ = _ |- _ =>
    apply insert_audit_Ok in Hi as (?&?&?&?&?&->) end.
  match goal with He : insert_event _ _ _ = Ok _ |- _ =>
    apply insert_event_Ok in He as (?&?&?&?&->) end.
  simpl in *. do 2 eexists. split_and!; try done.
Qed.

Lemma Replay_refines io clk rand did op reason db r db' :
  Replay io clk rand did op reason db = (r, db') → refines db db'.
Proof.
  unfold Replay. destruct (newUUID _) as [aid|]; [|intros [= _ <-]; apply refines_refl].
  destruct (newUUID _) as [oid|]; [|intros [= _ <-]; apply refines_refl].
  destruct (newUUID _) as [tid|]; [|intros [= _ <-]; apply refines_refl].
  intros Hx. eapply run_tx_refines; [exact Hx|]. intros d db1 Hb. clear Hx.
  apply replay_body_Ok in Hb as (id & r0 & _ & Hl & Hs & Hc & Ha & Hca & _ & Ho & Hh & Hce & _ & ->).
  set (ts := clock_timestamp _ _ _) in *.
  assert (Hf : replay_update ts id id r0 = Some (replayed_row ts r0)).
  { unfold replay_update. by rewrite !bool_decide_true. }
  assert (Hl' : map_update (replay_update ts id) (deliveries db) !! id =
    Some (replayed_row ts r0)) by by rewrite lookup_map_update, Hl; simpl; rewrite Hf.
  exists (only id Restart). constructor; [|by apply registry_refl|..]; simpl.
  - eapply rows_update_one; [done|done|exact Hl|exact Hf| |done|by constructor].
    intros. by apply replay_update_ne.
  - apply attempts_keep; [done|intros id'|intros id' c]; unfold only; by case_decide.
  - constructor; simpl.
    + intros eid e He _. exists e. rewrite lookup_insert_ne; [done|]. naive_solver.
    + intros eid e [[<- <-]|[Hne He]]%lookup_insert_Some.
      * right. split_and!; [done|split; [done|by intros [? ?]]|done|]. eauto.
      * left. exists e. split_and!; try done. unfold only. by case_decide.
    + intros eid1 eid2 e1 e2 L1 L2 N1 N2 _.
      rewrite lookup_insert_Some in L1, L2. naive_solver.
    + intros id1 r1 HT Hr1. assert (id1 = id) as ->.
      { destruct HT as [HT|HT]; by apply only_inv in HT as [-> _]. }
      rewrite Hl' in Hr1. simplify_eq. apply has_event_true.
      exists oid. eexists. simpl. by rewrite lookup_insert_eq.
  - constructor; simpl.
    + intros uid u Hu _. rewrite lookup_insert_ne; [done|]. naive_solver.
    + intros uid u [[<- <-]|[Hne He]]%lookup_insert_Some; simpl.
      * right. rewrite only_eq. eauto.
      * left. split; [done|]. unfold only. by case_decide.
    + intros id1 r1 HT Hr1. apply only_inv in HT as [-> _]; [|done].
      rewrite Hl' in Hr1. simplify_eq. exists aid. eexists.
      by rewrite lookup_insert_eq.
Qed.
End operations.

(** ** Periodic statements *)

Lemma for_each_ext {A} (f g : A → Tx Z) l db :
  (∀ x d, f x d = g x d) → for_each f l db = for_each g l db.
Proof.
  intros Hfg. revert db. induction l as [|x l IH]; intros db; [done|]. simpl.
  unfold mbind, Tx_bind. rewrite Hfg. destruct (g x db) as [[n d]|]; [|done]. by rewrite IH.
Qed.

Definition scheduled_event (clk : clock) (gen : uuid_source) (due : string * delivery_row)
    : option (string * outbox_row) :=
  Some (gen due.1 0%nat,
    new_event due.1 (d_generation due.2) (gen due.1 1%nat) (d_next_attempt_at due.2)
      (clock_timestamp clk (gen due.1 0%nat) 2)).

Definition schedule_label (clk : clock) (db : DB) (id : string) : label :=
  match deliveries db !! id with
  | Some r => if retry_expired clk r then Expire else Keep
  | None => Keep
  end.

Lemma schedule_quiet clk db : quiet (schedule_label clk db).
Proof. intros id. unfold schedule_label. repeat case_match; auto. Qed.

(** The scheduled deliveries, and what the statement leaves. *)
Lemma schedule_body_Ok clk sc gen limit db n db' :
  schedule_body clk sc gen limit db = Ok (n, db') →
  map_Forall (λ _ s, check_delivery s = true) (map_touched (expire_update clk) (deliveries db)) ∧
  inserted (scheduled_event clk gen)
    (select_for_update sc (retry_due clk db) (λ r, (d_next_attempt_at r, d_created_at r)) limit
       (deliveries db))
    (set_deliveries (map_update (expire_update clk) (deliveries db)) db) db'.
Proof.
  unfold schedule_body. intros Hb. apply tx_bind_Ok in Hb as (t & db1 & Hu & Hb).
  apply update_deliveries_Ok in Hu as (Hc & -> & ->). split; [done|].
  erewrite for_each_ext in Hb; [by eapply for_each_inserted|].
  by intros [id r] d.
Qed.

(** An expired row and a due row are different rows. *)
Lemma retry_due_not_expired clk db id r :
  retry_due clk db id r = true → retry_expired clk r = false ∧ d_status r = StatusPending ∧
  0 < d_generation r ∧ d_next_attempt_at r ≤ clock_timestamp clk id 1 ∧
  statement_timestamp clk < d_retry_deadline r ∧ has_event db id (d_generation r) = false.
Proof.
  unfold retry_due, retry_expired. intros Hd. to_prop. split_and!; try done.
  apply andb_false_iff. right. apply Z.leb_gt. done.
Qed.

Lemma new_event_ok id g t av cr :
  check_event (new_event id g t av cr) = true → event_ok (new_event id g t av cr).
Proof. intros Hc. split; [done|]. by intros [? ?]. Qed.

Lemma ScheduleDueRetries_refines io clk sc gen limit db r db' :
  ScheduleDueRetries io clk sc gen limit db = (r, db') → refines db db'.
Proof.
  unfold ScheduleDueRetries. case_match; [intros [= _ <-]; apply refines_refl|].
  intros Hx. eapply exec_refines; [exact Hx|]. intros n db1 Hb. clear Hx.
  apply schedule_body_Ok in Hb as [Hc [Fr Kp Or Mk On]].
  set (sel := select_for_update _ _ _ _ _) in *. simpl in *.
  exists (schedule_label clk db). pose proof (schedule_quiet clk db) as Hq.
  assert (Hd : deliveries db1 = map_update (expire_update clk) (deliveries db)) by by rewrite Fr.
  constructor.
  - eapply rows_update; [done|done| |].
    + intros id Hn. unfold schedule_label. by rewrite Hn.
    + intros id r0 Hl. unfold schedule_label, expire_update. rewrite Hl.
      destruct (retry_expired clk r0) eqn:He; [|done]. split; [done|].
      unfold retry_expired in He. to_prop. by constructor.
  - rewrite Fr. by apply registry_refl.
  - apply attempts_keep; [by rewrite Fr|intros id|intros id c];
      by apply (quiet_inv _ id) in Hq as (?&?&?&?).
  - constructor.
    + intros eid e He _. exists e. split; [by apply Kp|done].
    + intros eid e He. destruct (Or _ _ He) as [Ho|(Hn & Hce & Hh & [id r0] & Hin & Hev)].
      * left. exists e. split; [done|]. split; [done|]. split; [|done].
        by apply (quiet_inv _ (e_delivery_id e)) in Hq as (?&?&?&?).
      * unfold scheduled_event in Hev. simplify_eq. simpl in *.
        right. split_and!; [done|by apply new_event_ok|done|].
        apply select_elem in Hin as (Hl & Hw & _).
        apply retry_due_not_expired in Hw as (Hx & Hp & _). simpl.
        exists r0. split; [|done]. rewrite Hd, lookup_map_update, Hl. simpl.
        unfold expire_update. by rewrite Hx.
    + intros eid1 eid2 e1 e2 L1 L2 N1 N2 Hde. eapply On; try done. split; [done|].
      destruct (Or _ _ L1) as [?|(_ & _ & _ & [i1 r1] & H1 & E1)]; [congruence|].
      destruct (Or _ _ L2) as [?|(_ & _ & _ & [i2 r2] & H2 & E2)]; [congruence|].
      unfold scheduled_event in E1, E2. simplify_eq. simpl in *. subst i2.
      apply select_elem in H1 as (H1 & _), H2 as (H2 & _). congruence.
    + intros id r0 HT. exfalso. apply (quiet_inv _ id) in Hq as (?&?&?&?).
      by destruct HT.
  - apply audits_keep; [by rewrite Fr|]. intros id. by apply (quiet_inv _ id) in Hq as (?&?&?&?).
Qed.

(** *** Lease recovery *)

Definition recovery_class (clk : clock) (r : delivery_row) : ResultClass :=
  if past_deadline clk r then ClassPermanentFailure else ClassRetryableFailure.

Definition recover_label (clk : clock) (expired : list (string * delivery_row)) (db : DB)
    (id : string) : label :=
  match deliveries db !! id with
  | Some r => if bool_decide (id ∈ expired.*1) then Finish (recovery_class clk r) else Keep
  | None => Keep
  end.

Definition recovery_event (clk : clock) (gen : uuid_source) (row : string * delivery_row)
    : option (string * outbox_row) :=
  if past_deadline clk row.2 then None
  else Some (gen row.1 1%nat,
    new_event row.1 (d_generation row.2 + 1) (gen row.1 2%nat)
      (clock_timestamp clk row.1 1) (clock_timestamp clk (gen row.1 1%nat) 2)).

Lemma recovered_transition clk id r :
  d_status r = StatusDelivering →
  transition (Finish (recovery_class clk r)) (Some r) (Some (recovered_row clk id r)).
Proof.
  intros Hs. unfold recovery_class, recovered_row.
  destruct (past_deadline clk r); by constructor.
Qed.

Lemma recover_update_in clk l id r :
  (id, r) ∈ l → d_status r = StatusDelivering →
  recover_update clk l id r = Some (recovered_row clk id r).
Proof.
  intros Hin Hs. unfold recover_update. rewrite !bool_decide_true; [done|done|].
  apply list_elem_of_fmap. by exists (id, r).
Qed.

Lemma recover_update_out clk l id r : id ∉ l.*1 → recover_update clk l id r = None.
Proof.
  intros Hin. unfold recover_update. rewrite bool_decide_false; [done|].
  intros ([i s] & E & Hi)%list_elem_of_fmap. simplify_eq/=.
  apply Hin, list_elem_of_fmap. by exists (i, s).
Qed.

Definition recover_selection (clk : clock) (sc : scan) (limit : Z) (db : DB) :=
  select_for_update sc (lease_expired clk)
    (λ r, (default 0 (d_lease_until r), d_created_at r)) limit (deliveries db).

Lemma recover_body_Ok io clk sc gen limit db n db' :
  recover_body io clk sc gen limit db = Ok (n, db') →
  let l := recover_selection clk sc limit db in
  let f := recover_update clk l in
  map_Forall (λ _ s, check_delivery s = true) (map_touched f (deliveries db)) ∧
  ∃ db2, recorded clk gen l (set_deliveries (map_update f (deliveries db)) db) db2 ∧
         inserted (recovery_event clk gen) l db2 db'.
Proof.
  unfold recover_body. intros Hb. apply call_Ok in Hb as [_ Hb].
  apply tx_bind_Ok in Hb as (t & db1 & Hu & Hb).
  apply update_deliveries_Ok in Hu as (Hc & -> & ->).
  apply tx_bind_Ok in Hb as (n1 & db2 & Ha & Hb).
  apply tx_bind_Ok in Hb as (n2 & db3 & He & Hb). apply tx_ret_Ok in Hb as [_ ->].
  split; [done|]. exists db2. split; [by eapply for_each_recorded|].
  erewrite for_each_ext in He; [by eapply for_each_inserted|].
  intros [id r] d. simpl. unfold recovery_event. simpl. by destruct (past_deadline clk r).
Qed.

Lemma recover_selection_elem clk sc limit db id r :
  (id, r) ∈ recover_selection clk sc limit db →
  deliveries db !! id = Some r ∧ d_status r = StatusDelivering ∧
  ∃ u, d_lease_until r = Some u ∧ u ≤ statement_timestamp clk.
Proof.
  intros (Hl & Hw & _)%select_elem. unfold lease_expired in Hw. to_prop.
  destruct (d_lease_until r); [|done]. to_prop. eauto.
Qed.

(** Selected rows and the labels they get. *)
Lemma recover_label_selected clk l db id r :
  (∀ i s, (i, s) ∈ l → deliveries db !! i = Some s) → (id, r) ∈ l →
  recover_label clk l db id = Finish (recovery_class clk r).
Proof.
  intros Hl Hin. unfold recover_label. rewrite (Hl _ _ Hin), bool_decide_true; [done|].
  apply list_elem_of_fmap. by exists (id, r).
Qed.

Lemma recover_label_inv clk l db id la :
  (∀ i s, (i, s) ∈ l → deliveries db !! i = Some s) →
  recover_label clk l db id = la → la ≠ Keep →
  ∃ r, deliveries db !! id = Some r ∧ (id, r) ∈ l ∧ la = Finish (recovery_class clk r).
Proof.
  intros Hl <- Hk. unfold recover_label in *. destruct (deliveries db !! id) as [r|] eqn:E; [|done].
  case_bool_decide as Hin; [|done]. exists r. split_and!; [done| |done].
  apply list_elem_of_fmap in Hin as ([i s] & -> & Hin). simpl in *.
  specialize (Hl _ _ Hin). by simplify_eq.
Qed.

Lemma RecoverExpiredDeliveries_refines io clk sc gen limit db r db' :
  RecoverExpiredDeliveries io clk sc gen limit db = (r, db') → refines db db'.
Proof.
  unfold RecoverExpiredDeliveries. case_match; [intros [= _ <-]; apply refines_refl|].
  intros Hx. eapply run_tx_refines; [exact Hx|]. intros n db1 Hb. clear Hx.
  apply recover_body_Ok in Hb as [Hc (db2 & [Fa Ka Oa Ma] & [Fe Ke Oe _ One])].
  pose proof (recover_selection_elem clk sc limit db) as Hsel.
  set (l := recover_selection _ _ _ _) in *.
  assert (Hl : ∀ i s, (i, s) ∈ l → deliveries db !! i = Some s) by (intros; by apply Hsel).
  assert (Hd : deliveries db1 = map_update (recover_update clk l) (deliveries db))
    by by rewrite Fe, Fa.
  assert (Ha1 : delivery_attempts db1 = delivery_attempts db2) by by rewrite Fe.
  assert (Ho2 : outbox_events db2 = outbox_events db) by by rewrite Fa.
  assert (Hlab : ∀ id, recover_label clk l db id = Keep ∨
    ∃ c, recover_label clk l db id = Finish c).
  { intros id. unfold recover_label. repeat case_match; eauto. }
  exists (recover_label clk l db). simpl in *. constructor.
  - eapply rows_update; [done|done| |].
    + intros id Hn. unfold recover_label. by rewrite Hn.
    + intros id r0 Hr0. destruct (decide (id ∈ l.*1)) as [Hin|Hin].
      * apply list_elem_of_fmap in Hin as ([i s] & -> & Hin). simpl in *.
        destruct (Hsel _ _ Hin) as (Hs & Hst & _). assert (s = r0) as -> by congruence.
        rewrite (recover_update_in _ _ _ _ Hin Hst). erewrite recover_label_selected by done.
        split; [done|]. by apply recovered_transition.
      * rewrite recover_update_out by done. unfold recover_label.
        by rewrite Hr0, bool_decide_false.
  - rewrite Fe, Fa. by apply registry_refl.
  - rewrite <- Ha1 in *. constructor.
    + intros aid a Hat _. by apply Ka.
    + intros aid a Hat. destruct (Oa _ _ Hat) as [Hx|(Hx & id & r0 & tok & Hin & -> & ->)].
      * left. split; [done|]. destruct (Hlab (a_delivery_id a)) as [->|[c ->]]; done.
      * right. simpl. split_and!; [done| |eauto]. by erewrite recover_label_selected.
    + intros id c r0 HT Hr0. destruct (recover_label_inv _ _ _ _ _ Hl HT)
        as (r1 & H1 & Hin & [= ->]); [done|]. simplify_eq.
      destruct (Ma _ _ Hin) as [tok Htok]. by eexists _, _.
    + intros aid1 aid2 a1 a2 L1 L2 N1 N2 Hde.
      destruct (Oa _ _ L1) as [?|(_ & i1 & r1 & t1 & _ & -> & ->)]; [congruence|].
      destruct (Oa _ _ L2) as [?|(_ & i2 & r2 & t2 & _ & -> & ->)]; [congruence|].
      simpl in *. congruence.
  - rewrite Ho2 in *. constructor.
    + intros eid e He _. exists e. split; [by apply Ke|done].
    + intros eid e He. destruct (Oe _ _ He) as [Ho|(Hn & Hce & Hh & [id r0] & Hin & Hev)].
      * left. exists e. split; [done|]. split; [done|]. split; [|done].
        destruct (Hlab (e_delivery_id e)) as [->|[c ->]]; done.
      * unfold recovery_event in Hev. simpl in Hev.
        destruct (past_deadline clk r0) eqn:Hp; [done|]. simplify_eq. simpl in *.
        right. split_and!; [done|by apply new_event_ok| |].
        { revert Hh. by rewrite Fa. }
        destruct (Hsel _ _ Hin) as (Hr0 & Hst & _).
        exists (recovered_row clk id r0). rewrite Hd, lookup_map_update, Hr0. simpl.
        rewrite (recover_update_in _ _ _ _ Hin Hst). unfold recovered_row. by rewrite Hp.
    + intros eid1 eid2 e1 e2 L1 L2 N1 N2 Hde. eapply One; try done. split; [done|].
      destruct (Oe _ _ L1) as [?|(_ & _ & _ & [i1 r1] & H1 & E1)]; [congruence|].
      destruct (Oe _ _ L2) as [?|(_ & _ & _ & [i2 r2] & H2 & E2)]; [congruence|].
      unfold recovery_event in E1, E2. repeat case_match; simplify_eq. simpl in *. subst i2.
      apply Hl in H1, H2. by simplify_eq.
    + intros id r0 HT. exfalso. destruct (Hlab id) as [E|[c E]]; rewrite E in HT; by destruct HT.
  - apply audits_keep; [by rewrite Fe, Fa|]. intros id.
    destruct (Hlab id) as [->|[c ->]]; done.
Qed.

(** *** Retention *)

Definition retire_label (ids : gset string) (db : DB) (id : string) : label :=
  if bool_decide (id ∈ ids) then
    match deliveries db !! id with Some _ => Retire | None => Keep end
  else Keep.

Lemma delete_spec ids db n db' :
  Inv db → (∀ id r, id ∈ ids → deliveries db !! id = Some r → is_terminal r = true) →
  delete_deliveries ids db = Ok (n, db') → spec_step (retire_label ids db) db db'.
Proof.
  intros Hinv Hterm [= _ <-].
  assert (Hlab : ∀ id, retire_label ids db id = Keep ∨ retire_label ids db id = Retire).
  { intros id. unfold retire_label. repeat case_match; auto. }
  assert (Hin : ∀ id r, deliveries db !! id = Some r →
    retire_label ids db id ≠ Retire ↔ id ∉ ids).
  { intros id r Hl. unfold retire_label. rewrite Hl. case_bool_decide; naive_solver. }
  constructor; simpl; [|by apply registry_refl|..].
  - constructor; simpl.
    + intros id. rewrite map_lookup_filter. unfold retire_label.
      destruct (deliveries db !! id) as [r|] eqn:E; simpl; [|case_bool_decide; constructor].
      case_bool_decide; case_guard; try done; constructor. by eapply Hterm.
    + intros id r' HT Hl. apply map_lookup_filter_Some in Hl as [Hl Hn]. simpl in *.
      destruct (Hlab id) as [|Hr]; [done|]. by apply (Hin _ _ Hl) in Hn.
    + intros id id' HT. destruct (Hlab id) as [E|E]; congruence.
    + intros id r id' r' HT. destruct (Hlab id) as [E|E]; congruence.
    + intros id r HT. destruct (Hlab id) as [E|E]; congruence.
  - constructor; simpl.
    + intros aid a Ha Hr. apply map_lookup_filter_Some. split; [done|]. simpl.
      destruct (inv_attempt _ Hinv _ _ Ha) as (r & Hl & _). by eapply Hin.
    + intros aid a Ha. apply map_lookup_filter_Some in Ha as [Ha Hn]. left. split; [done|].
      destruct (inv_attempt _ Hinv _ _ Ha) as (r & Hl & _). by eapply Hin.
    + intros id c r HT. destruct (Hlab id) as [E|E]; congruence.
    + intros aid1 aid2 a1 a2 L1 _ N1. apply map_lookup_filter_Some in L1. naive_solver.
  - constructor; simpl.
    + intros eid e He Hr. exists e. split; [|done]. apply map_lookup_filter_Some.
      split; [done|]. simpl. destruct (inv_event _ Hinv _ _ He) as (r & Hl & _). by eapply Hin.
    + intros eid e He. apply map_lookup_filter_Some in He as [He Hn]. left. exists e.
      split_and!; try done. destruct (inv_event _ Hinv _ _ He) as (r & Hl & _). by eapply Hin.
    + intros eid1 eid2 e1 e2 L1 _ N1. apply map_lookup_filter_Some in L1. naive_solver.
    + intros id r [HT|HT]; destruct (Hlab id) as [E|E]; congruence.
  - constructor; simpl.
    + intros uid u Hu Hr. apply map_lookup_filter_Some. split; [done|]. simpl.
      destruct (inv_audit _ Hinv _ _ Hu) as (_ & r & Hl & _). by eapply Hin.
    + intros uid u Hu. apply map_lookup_filter_Some in Hu as [Hu Hn]. left. split; [done|].
      destruct (inv_audit _ Hinv _ _ Hu) as (_ & r & Hl & _). by eapply Hin.
    + intros id r HT. destruct (Hlab id) as [E|E]; congruence.
Qed.

Lemma DeleteExpiredTerminal_refines io clk sc s f limit db r db' :
  Inv db → DeleteExpiredTerminal io clk sc s f limit db = (r, db') → refines db db'.
Proof.
  intros Hinv. unfold DeleteExpiredTerminal. case_match; [intros [= _ <-]; apply refines_refl|].
  intros Hx. eapply exec_refines; [exact Hx|]. intros n db1 Hb. clear Hx.
  unfold retention_body in Hb. eexists. eapply delete_spec; [done| |exact Hb].
  intros id r0 Hin Hl. rewrite elem_of_list_to_set in Hin.
  apply list_elem_of_fmap in Hin as ([i s0] & -> & Hin).
  apply list_elem_of_filter in Hin as [Ht Hin]. simpl in *.
  apply select_elem in Hin as (Hl' & _). by simplify_eq.
Qed.
