(* ===== verification/Scenario.v ===== *)
(** * A concrete run

    One caller, one destination and one notification taken through the store:
    bootstrapped, submitted, claimed and completed in each way.  The witnesses
    of the theorems evaluate the definitions on these states. *)

From S2P Require Import Prelude GoStrings Sha256 Model Database Store WorkerStore Outbox Scheduling Replay.
From Stdlib Require Import SpecFloat.

Local Open Scope Z_scope.

(** Case tables restricted to ASCII. *)
#[global] Instance ascii_only : Unicode :=
  {| to_lower_hi := λ r, r; to_upper_hi := λ r, r; fold_hi := λ a b, a =? b |}.

(** PostgreSQL on canonical texts: lower-case hexadecimal digits with hyphens
    after the 8th, 12th, 16th and 20th. *)
Definition lower_hex (b : Z) : bool := ((48 <=? b) && (b <=? 57)) || ((97 <=? b) && (b <=? 102)).
Definition canonical_text (s : string) : bool :=
  all2 (λ t b, if t =? 45 then b =? 45 else lower_hex b)
    (bytes_of "hhhhhhhh-hhhh-hhhh-hhhh-hhhhhhhhhhhh") (bytes_of s).
#[global] Instance canonical_uuid : Postgres :=
  {| uuid_in := λ s, if canonical_text s then Some s else None |}.

Definition store0 : Store := mkStore 100.

Definition second : Z := 1000000.
Definition hour : Z := 3600 * second.
Definition noon : Z := 1767268800 * second.    (* microseconds *)

(** The clocks of an operation that runs at [noon + t]. *)
Definition at_ (t : Z) : nat → clock := λ _, still (noon + t).

(** Sixteen bytes per draw, different for every operation and draw. *)
Definition draws (operation : Z) : random := λ n,
  Some (string_of (replicate 14 operation ++ [Z.of_nat n; 7])).

Definition uuid_of (drawn : option string) : string :=
  match newUUID drawn with Ok u => u | Err _ => "" end.

Definition destination0 : DestinationVersion.t :=
  {| DestinationVersion.DestinationID := "billing";
     DestinationVersion.Version := 1;
     DestinationVersion.URL := "https://supplier.example/hook";
     DestinationVersion.NetworkPolicy := "external_https";
     DestinationVersion.AllowedMethods := Some ["POST"];
     DestinationVersion.AllowedHeaders := Some ["X-Event"];
     DestinationVersion.SecretRef := "";
     DestinationVersion.CredentialHeader := "";
     DestinationVersion.IdempotencyHeader := "Idempotency-Key";
     DestinationVersion.SuccessStatuses := Some [];
     DestinationVersion.RetryStatuses := Some [];
     DestinationVersion.ConnectTimeout := 1000000000;
     DestinationVersion.RequestTimeout := 5000000000;
     DestinationVersion.RatePerSecond := S754_finite false 5629499534213120 (-50);
     DestinationVersion.MaxConcurrency := 2 |}.

Definition config0 : BootstrapConfig.t :=
  BootstrapConfig.mk "shop" "shop-key" destination0.

Definition sub0 : Submission.t :=
  {| Submission.CallerID := "shop";
     Submission.IdempotencyKey := "order-1";
     Submission.RequestHash := Sum256 "order-1 paid";
     Submission.DestinationID := "billing";
     Submission.DestinationVersion := 1;
     Submission.Method := "POST";
     Submission.CallerHeaders := {["x-event" := "paid"]};
     Submission.Body := "paid";
     Submission.SupplierIdempotencyValue := "";
     Submission.AcceptedAt := time_of noon;
     Submission.RetryDeadline := time_of (noon + 24 * hour) |}.

Definition boot : result error unit * DB := Bootstrap healthy config0 empty_db.
Definition db_boot : DB := boot.2.

Definition submitted : result error Delivery.t * DB :=
  Submit store0 healthy (at_ 0) (draws 1) sub0 db_boot.
Definition db_sub : DB := submitted.2.
Definition delivery0 : Delivery.t :=
  match submitted.1 with Ok d => d | Err _ => submitted_delivery "" "" sub0 end.
Definition id0 : string := Delivery.ID delivery0.

(** The row of the delivery in a state. *)
Definition row0 (db : DB) : delivery_row :=
  default (submitted_row (still 0) "" "" sub0) (deliveries db !! id0).

(** Claimed by a worker one second later, for thirty seconds. *)
Definition claim_at (t : Z) (owner : string) (operation g : Z) (db : DB) :=
  ClaimDelivery healthy (still (noon + t)) (draws operation) id0 g owner 30000000000 db.
Definition claimed : result error (Delivery.t * DestinationVersion.t) * DB :=
  claim_at second "w1" 2 0 db_sub.
Definition db_claimed : DB := claimed.2.
Definition task0 : Delivery.t * DestinationVersion.t :=
  match claimed.1 with Ok t => t | Err _ => (delivery0, destination0) end.

Definition result_of (db : DB) (category : string) : AttemptResult.t :=
  {| AttemptResult.DeliveryID := id0;
     AttemptResult.Generation := d_generation (row0 db);
     AttemptResult.LeaseOwner := default "" (d_lease_owner (row0 db));
     AttemptResult.LeaseToken := default "" (d_lease_token (row0 db));
     AttemptResult.ResponseStatus := None;
     AttemptResult.ErrorCategory := category;
     AttemptResult.StartedAt := time_of (noon + second);
     AttemptResult.FinishedAt := time_of (noon + 2 * second) |}.

Definition complete_at (t operation : Z) (class : ResultClass) (next : option Z) (db : DB) :=
  completeResult healthy (still (noon + t)) (draws operation) (result_of db_claimed "") class next db.

Definition succeeded := complete_at (2 * second) 3 ClassSucceeded None db_claimed.
Definition db_succeeded : DB := succeeded.2.
Definition db_failed : DB := (complete_at (2 * second) 3 ClassPermanentFailure None db_claimed).2.
Definition db_retry : DB :=
  (complete_at (2 * second) 3 ClassRetryableFailure (Some (time_of (noon + 3 * second))) db_claimed).2.

(** A scan of the whole delivery or Outbox table, nothing locked. *)
Definition scan_all {R} (m : gmap string R) : scan := Scan (map_to_list m).*1 (λ _, false) (λ _, 0).

(** Identifiers the run never drew. *)
Definition fresh_gen : uuid_source := λ id n, "u" +:+ FormatInt (Z.of_nat n) +:+ id.

Example boot_ok : boot.1 = Ok tt.
Proof. vm_compute. reflexivity. Qed.
Example submitted_ok : is_ok submitted.1 = true.
Proof. vm_compute. reflexivity. Qed.
Example claimed_ok : is_ok claimed.1 = true.
Proof. vm_compute. reflexivity. Qed.
Example succeeded_ok : succeeded.1 = Ok tt.
Proof. vm_compute. reflexivity. Qed.
