(* ===== verification/Reliability.v ===== *)
(** * Runs of the service

    Any interleaving of the store's operations, each with arbitrary arguments,
    clocks, random values and call outcomes; the states it reaches; and what
    holds of one delivery from its acceptance to its retention. *)

From S2P Require Import Prelude GoStrings Sha256 Model Database Store WorkerStore Outbox Scheduling Replay Lifecycle Refinement Scenario.

Local Open Scope Z_scope.

(** ** Runs *)

Section runs.
Context `{Unicode, Postgres}.

Inductive step (store : Store) (db db' : DB) : Prop :=
  | step_Submit io clk rand sub r :
      Submit store io clk rand sub db = (r, db') → step store db db'
  | step_Bootstrap io config r :
      Bootstrap io config db = (r, db') → step store db db'
  | step_ObserveSignal io clk id g r :
      ObserveSignal io clk id g db = (r, db') → step store db db'
  | step_ClaimDelivery io clk rand id g owner lease r :
      ClaimDelivery io clk rand id g owner lease db = (r, db') → step store db db'
  | step_CompleteSuccess io clk rand res r :
      CompleteSuccess io clk rand res db = (r, db') → step store db db'
  | step_CompleteRetry io clk rand res next r :
      CompleteRetry io clk rand res next db = (r, db') → step store db db'
  | step_CompletePermanent io clk rand res r :
      CompletePermanent io clk rand res db = (r, db') → step store db db'
  | step_ClaimOutbox io clk sc rand owner lease limit r :
      ClaimOutbox io clk sc rand owner lease limit db = (r, db') → step store db db'
  | step_MarkOutboxPublished io clk ev r :
      MarkOutboxPublished io clk ev db = (r, db') → step store db db'
  | step_ReleaseOutbox io ev r :
      ReleaseOutbox io ev db = (r, db') → step store db db'
  | step_ScheduleDueRetries io clk sc gen limit r :
      ScheduleDueRetries io clk sc gen limit db = (r, db') → step store db db'
  | step_RecoverExpiredDeliveries io clk sc gen limit r :
      RecoverExpiredDeliveries io clk sc gen limit db = (r, db') → step store db db'
  | step_ReconcileStalledSignals io clk sc gen watchdog limit r :
      ReconcileStalledSignals io clk sc gen watchdog limit db = (r, db') → step store db db'
  | step_DeleteExpiredTerminal io clk sc success failure limit r :
      DeleteExpiredTerminal io clk sc success failure limit db = (r, db') → step store db db'
  | step_Replay io clk rand id operator reason r :
      Replay io clk rand id operator reason db = (r, db') → step store db db'.

(** A freshly migrated database: a registry, no delivery. *)
Definition fresh (db : DB) : Prop :=
  deliveries db = ∅ ∧ outbox_events db = ∅ ∧ delivery_attempts db = ∅ ∧ replay_audits db = ∅.

Inductive reachable (store : Store) : DB → Prop :=
  | reachable_fresh db : fresh db → reachable store db
  | reachable_step db db' : reachable store db → step store db db' → reachable store db'.

(** A run during which the delivery [id] exists. *)
Inductive lives (store : Store) (id : string) : DB → DB → Prop :=
  | lives_refl db : lives store id db db
  | lives_step db db1 db' :
      lives store id db db1 → step store db1 db' → is_Some (deliveries db' !! id) →
      lives store id db db'.

Lemma step_refines store db db' : Inv db → step store db db' → refines db db'.
Proof.
  intros Hinv. destruct 1; eauto using Submit_refines, Bootstrap_refines,
    ObserveSignal_refines, ClaimDelivery_refines, completeResult_refines, ClaimOutbox_refines,
    MarkOutboxPublished_refines, ReleaseOutbox_refines, ScheduleDueRetries_refines,
    RecoverExpiredDeliveries_refines, ReconcileStalledSignals_refines,
    DeleteExpiredTerminal_refines, Replay_refines;
    eapply completeResult_refines; eassumption.
Qed.

Lemma step_Inv store db db' : Inv db → step store db db' → Inv db'.
Proof. intros Hinv [T HT]%step_refines; [|done]. by eapply Inv_step. Qed.

Lemma reachable_Inv store db : reachable store db → Inv db.
Proof.
  induction 1 as [db (?&?&?&?)|]; [by apply Inv_initial|]. eauto using step_Inv.
Qed.

Lemma reachable_announced store db : reachable store db → announced db.
Proof.
  induction 1 as [db (?&?&?&?)|db db' Hreach IH Hstep]; [by apply announced_initial|].
  apply step_refines in Hstep as [T HT]; [|by eapply reachable_Inv].
  by eapply announced_step.
Qed.

Lemma lives_Inv store id db db' : lives store id db db' → Inv db → Inv db'.
Proof. induction 1; eauto using step_Inv. Qed.

Lemma lives_reachable store id db db' :
  lives store id db db' → reachable store db → reachable store db'.
Proof. induction 1; eauto using reachable_step. Qed.
End runs.

#[export] Hint Resolve step_Inv reachable_Inv lives_Inv lives_reachable : notifier.

(** ** Progress of one delivery

    Within a generation a delivery goes from pending to delivering to
    terminal, and never back. *)

Definition phase (s : Status) : Z :=
  match s with
  | StatusPending => 0
  | StatusDelivering => 1
  | StatusSucceeded | StatusFailedPermanent => 2
  end.

Definition row_le (r r' : delivery_row) : Prop :=
  d_generation r < d_generation r' ∨
  (d_generation r = d_generation r' ∧
   (d_status r = d_status r' ∨ phase (d_status r) < phase (d_status r'))).

#[global] Instance row_le_preorder : PreOrder row_le.
Proof.
  split; [intros r; unfold row_le; auto|].
  intros r1 r2 r3. unfold row_le.
  intros [?|[? [?|?]]] [?|[? [?|?]]];
    repeat match goal with H : d_status _ = d_status _ |- _ => rewrite H in * end;
    first [left; lia|right; split; [lia|first [by left|right; lia]]].
Qed.

Lemma transition_progress l r r' : transition l (Some r) (Some r') → row_le r r'.
Proof.
  inversion 1; subst; try reflexivity; unfold row_le;
    repeat match goal with class : ResultClass |- _ => destruct class end; simpl in *;
    repeat match goal with H : d_status _ = _ |- _ => rewrite H end; simpl;
    first [left; lia|right; split; [lia|right; lia]].
Qed.

(** What a delivery keeps, and how it moves, along a run. *)
Definition lineage (r r' : delivery_row) : Prop := content_of r' = content_of r ∧ row_le r r'.

#[global] Instance lineage_preorder : PreOrder lineage.
Proof.
  split; [by split|]. intros r1 r2 r3 [C1 P1] [C2 P2]. split; [congruence|by etrans].
Qed.

Section lineage.
Context `{Unicode, Postgres}.

Lemma step_lineage store db db' id r r' :
  Inv db → step store db db' →
  deliveries db !! id = Some r → deliveries db' !! id = Some r' → lineage r r'.
Proof.
  intros Hinv [T HT]%step_refines Hr Hr'; [|done].
  pose proof (rs_transition _ _ _ (sp_rows _ _ _ HT) id) as Ht. rewrite Hr, Hr' in Ht.
  split; [by apply transition_survives in Ht as [? _]|by eapply transition_progress].
Qed.

Lemma lives_lineage store id db db' r :
  lives store id db db' → Inv db → deliveries db !! id = Some r →
  ∃ r', deliveries db' !! id = Some r' ∧ lineage r r'.
Proof.
  induction 1 as [db|db db1 db' Hl IH Hs [r' Hr']]; intros Hinv Hr; [by exists r|].
  destruct (IH Hinv Hr) as (r1 & Hr1 & Hlin). exists r'. split; [done|].
  etrans; [exact Hlin|]. eapply step_lineage; [|done..]. eauto with notifier.
Qed.
End lineage.

(** ** Consistency of every run *)

Section consistency.
Context `{Unicode, Postgres}.

(** C1: every operation of the store that writes, called with any argument,
    clocks, random values and call outcomes, takes a consistent database to
    one the delivery lifecycle allows in one step. *)
Theorem operations_refine_lifecycle store db db' :
  Inv db → step store db db' → ∃ T, spec_step T db db'.
Proof. apply step_refines. Qed.


(** C6: from acceptance to retention a delivery keeps its payload, its
    destination version and its keys; its generation never decreases, and
    within a generation its status only goes forward from pending to
    delivering to a terminal one. *)
Theorem delivery_is_immutable_and_monotone store db db' id r :
  reachable store db → lives store id db db' → deliveries db !! id = Some r →
  ∃ r', deliveries db' !! id = Some r' ∧ content_of r' = content_of r ∧
    (d_generation r < d_generation r' ∨
     (d_generation r = d_generation r' ∧
      (d_status r = d_status r' ∨ phase (d_status r) < phase (d_status r')))).
Proof. intros Hr%reachable_Inv Hl Hd. by eapply lives_lineage. Qed.

Lemma succeeded_step store db db' id r r' :
  Inv db → step store db db' → deliveries db !! id = Some r →
  d_status r = StatusSucceeded → deliveries db' !! id = Some r' → r' = r.
Proof.
  intros Hinv [T HT]%step_refines Hr Hs Hr'; [|done].
  pose proof (rs_transition _ _ _ (sp_rows _ _ _ HT) id) as Ht. rewrite Hr, Hr' in Ht.
  inversion Ht; subst; congruence.
Qed.

(** C5: a recorded success is never overwritten: as long as the delivery is
    retained its row stays exactly as the success left it, with the attempt
    that records it. *)
Theorem success_is_final store db db' id r :
  reachable store db → lives store id db db' →
  deliveries db !! id = Some r → d_status r = StatusSucceeded →
  deliveries db' !! id = Some r ∧
  ∃ aid a, delivery_attempts db' !! aid = Some a ∧
           attempt_matches a id (d_generation r) ClassSucceeded.
Proof.
  intros Hr Hl Hd Hs. assert (Hd' : deliveries db' !! id = Some r).
  { induction Hl as [|db db1 db' Hl IH Hst [r' Hr']]; [done|]. rewrite Hr'. f_equal.
    eapply succeeded_step; [|exact Hst|auto..]; eauto with notifier. }
  split; [done|]. eapply inv_succeeded; [|done..]. eauto with notifier.
Qed.
End consistency.

(** ** Results are fenced *)

Section fencing.
Context `{Unicode, Postgres}.

(** A result for a row outside its fence changes nothing. *)
Lemma completeResult_outside_fence io clk rand res class next db id out db' :
  uuid_in (AttemptResult.DeliveryID res) = Some id →
  (∀ r token, deliveries db !! id = Some r →
     uuid_in (AttemptResult.LeaseToken res) = Some token →
     fence (clock_timestamp clk id 1) (AttemptResult.Generation res)
       (AttemptResult.LeaseOwner res) token class (timestamptz_of <$> next) r = false) →
  completeResult io clk rand res class next db = (out, db') →
  db' = db ∧ out ≠ Ok tt ∧
  (io = healthy → is_ok (newUUID (rand 0%nat)) = true →
   is_Some (uuid_in (AttemptResult.LeaseToken res)) → out = Err ErrWorkerLeaseLost).
Proof.
  intros Hid Hout. unfold completeResult.
  destruct (newUUID _) as [aid|e] eqn:Hu; [|intros [= <- <-]; by split_and!].
  set (body := complete_body _ _ _ _ _ _). intros Hx.
  assert (Hno : ∀ u d, body db ≠ Ok (u, d)).
  { intros u d Hb. apply complete_body_Ok in Hb as (i & tok & r & Hi & Ht & Hr & Hf & _).
    simplify_eq. specialize (Hout _ _ Hr Ht). congruence. }
  split_and!.
  - apply run_tx_cases in Hx as [|[u Hb]]; [done|]. by apply Hno in Hb.
  - intros ->. apply run_tx_Ok in Hx. by apply Hno in Hx.
  - intros -> _ [tok Htok]. rewrite run_tx_healthy in Hx.
    destruct (body db) as [[u d]|e] eqn:Hb; [by destruct (Hno u d)|].
    injection Hx as <- _. revert Hb. unfold body, complete_body, call, healthy.
    unfold mbind, Tx_bind, as_uuid. rewrite Hid, Htok. simpl.
    unfold update_deliveries.
    assert (Hz : map_touched (complete_update clk id (AttemptResult.Generation res)
      (AttemptResult.LeaseOwner res) tok class (timestamptz_of <$> next)) (deliveries db) = ∅).
    { apply map_eq. intros i. rewrite lookup_map_touched, lookup_empty.
      destruct (deliveries db !! i) as [r|] eqn:Hr; [|done]. simpl. unfold complete_update.
      destruct (decide (i = id)) as [->|Hne];
        [|by rewrite bool_decide_false]. by rewrite (Hout _ _ Hr Htok), andb_false_r. }
    rewrite Hz, bool_decide_true by apply map_Forall_empty. unfold mret, Tx_ret.
    rewrite map_size_empty. by intros [= <-].
Qed.

(** A result whose generation the delivery has left - its lease was
    recovered, it was completed, replayed - is refused with
    [ErrWorkerLeaseLost] and changes nothing, in every later state. *)
Theorem stale_result_is_refused store db db' id r io clk rand res class next out db2 :
  reachable store db → lives store id db db' → deliveries db !! id = Some r →
  uuid_in (AttemptResult.DeliveryID res) = Some id →
  AttemptResult.Generation res < d_generation r ∨
    (AttemptResult.Generation res = d_generation r ∧ is_terminal r = true) →
  completeResult io clk rand res class next db' = (out, db2) →
  db2 = db' ∧ out ≠ Ok tt ∧
  (io = healthy → is_ok (newUUID (rand 0%nat)) = true →
   is_Some (uuid_in (AttemptResult.LeaseToken res)) → out = Err ErrWorkerLeaseLost).
Proof.
  intros Hr%reachable_Inv Hl Hd Hid Hst. apply completeResult_outside_fence with (id := id); [done|].
  intros r' token Hr' _. destruct (lives_lineage _ _ _ _ _ Hl Hr Hd) as (r1 & Hr1 & _ & Hle).
  simplify_eq. destruct (fence _ _ _ _ _ _ r') eqn:Hf; [exfalso|done].
  apply fence_inv in Hf as (Hg & Hs & _). rewrite <- Hg in Hst. unfold row_le in Hle.
  unfold is_terminal in Hst. rewrite Hs in Hle. simpl in Hle.
  destruct Hst as [?|[? Ht]]; [lia|]. to_prop.
  destruct Ht as [Ht|Ht]; rewrite Ht in Hle; simpl in Hle; destruct Hle as [?|[? [?|?]]];
    lia || done.
Qed.

(** C3: at most one result is recorded for a delivery generation: once one
    was committed, every other one, from whichever Worker and in whichever
    class, is refused and changes nothing for as long as the delivery lives. *)
Theorem one_result_per_generation store db db1 db2 id
    io clk rand res class next io' clk' rand' res' class' next' out db3 :
  reachable store db →
  completeResult io clk rand res class next db = (Ok tt, db1) →
  uuid_in (AttemptResult.DeliveryID res) = Some id →
  lives store id db1 db2 →
  uuid_in (AttemptResult.DeliveryID res') = Some id →
  AttemptResult.Generation res' = AttemptResult.Generation res →
  completeResult io' clk' rand' res' class' next' db2 = (out, db3) →
  db3 = db2 ∧ out ≠ Ok tt.
Proof.
  intros Hr%reachable_Inv Hc Hid Hl Hid' Hgen Hx.
  assert (Hinv1 : Inv db1).
  { destruct (completeResult_refines _ _ _ _ _ _ _ _ _ Hc) as [T HT]. by eapply Inv_step. }
  unfold completeResult in Hc. destruct (newUUID _) as [aid|]; [|done].
  apply run_tx_Ok, complete_body_Ok in Hc as (i & tok & r & Hi & _ & Hd & Hf & _ & _ & _ & Hdb).
  rewrite Hid in Hi. injection Hi as <-. subst db1. set (f := complete_update _ _ _ _ _ _ _) in *.
  assert (Hd1 : map_update f (deliveries db) !! id =
    Some (completed_row (clock_timestamp clk id 0) class (timestamptz_of <$> next) r)).
  { rewrite lookup_map_update, Hd. simpl. unfold f, complete_update.
    by rewrite bool_decide_true, Hf. }
  destruct (lives_lineage _ _ _ _ _ Hl Hinv1 Hd1) as (r2 & Hr2 & _ & Hle).
  eapply completeResult_outside_fence in Hx as (? & ? & _); [done|done|].
  intros r' token Hr' _. rewrite Hr2 in Hr'. injection Hr' as <-.
  destruct (fence _ _ _ _ _ _ r2) eqn:Hf'; [exfalso|done].
  apply fence_inv in Hf as (Hg & Hs & _), Hf' as (Hg' & Hs' & _).
  unfold row_le in Hle. rewrite Hs', Hg', Hgen, <- Hg in Hle.
  destruct class; simpl in Hle; destruct Hle as [?|[? [?|?]]]; lia || done.
Qed.

(** What a committed claim did. *)
Lemma claim_body_Ok io clk did g owner token lease db d v db' :
  claim_body io clk did g owner token lease db = Ok ((d, v), db') →
  ∃ id r, uuid_in did = Some id ∧ deliveries db !! id = Some r ∧
    claimable g (clock_timestamp clk id 2) (clock_timestamp clk id 3) r = true ∧
    d = leased_delivery id (claimed_row clk id owner token lease r) ∧
    queryDestinationVersion (d_destination_id r) (d_destination_version r) db = Some v ∧
    db' = set_deliveries
      (map_update (claim_update clk id g owner token lease) (deliveries db)) db.
Proof.
  unfold claim_body. intros Hb. tx_inv.
  match goal with Hu : update_deliveries _ _ = _ |- _ =>
    apply update_deliveries_Ok in Hu as (Hc & -> & ->) end.
  match goal with Hu : uuid_in did = Some ?i |- _ => rename i into id end.
  destruct (map_touched _ _ !! id) as [r'|] eqn:Ht; simpl in Hb; [|done]. tx_inv.
  case_match; [|done]. tx_inv. simplify_eq.
  rewrite lookup_map_touched in Ht. apply bind_Some in Ht as (r & Hr & Hf).
  apply claim_update_Some in Hf as (_ & Hcl & ->). exists id, r. by split_and!.
Qed.

Lemma claim_update_lookup clk id g owner token lease db r :
  deliveries db !! id = Some r →
  claimable g (clock_timestamp clk id 2) (clock_timestamp clk id 3) r = true →
  map_update (claim_update clk id g owner token lease) (deliveries db) !! id =
    Some (claimed_row clk id owner token lease r).
Proof.
  intros Hr Hc. rewrite lookup_map_update, Hr. simpl. unfold claim_update.
  by rewrite bool_decide_true, Hc.
Qed.

(** C4: a delivery generation is leased to at most one Worker: after a claim
    was granted, every other claim of that generation is refused and changes
    nothing for as long as the delivery lives, lease expiry included. *)
Theorem one_claim_per_generation store db db1 db2
    io clk rand did g owner lease d v io' clk' rand' did' owner' lease' out db3 :
  reachable store db →
  ClaimDelivery io clk rand did g owner lease db = (Ok (d, v), db1) →
  lives store (Delivery.ID d) db1 db2 →
  uuid_in did' = Some (Delivery.ID d) →
  ClaimDelivery io' clk' rand' did' g owner' lease' db2 = (out, db3) →
  db3 = db2 ∧ is_ok out = false.
Proof.
  intros Hr%reachable_Inv Hc Hl Hid Hx.
  assert (Hinv1 : Inv db1).
  { destruct (ClaimDelivery_refines _ _ _ _ _ _ _ _ _ _ Hc) as [T HT]. by eapply Inv_step. }
  unfold ClaimDelivery in Hc. case_match; [done|]. destruct (newUUID _) as [tok|]; [|done].
  apply run_tx_Ok, claim_body_Ok in Hc as (id & r & _ & Hd & Hcl & -> & _ & ->).
  simpl in Hid, Hl. pose proof (claim_update_lookup _ _ _ owner tok (interval lease) _ _ Hd Hcl) as Hd1.
  destruct (lives_lineage _ _ _ _ _ Hl Hinv1 Hd1) as (r2 & Hr2 & _ & Hle).
  apply claimable_pending in Hcl as (_ & Hg & _).
  unfold ClaimDelivery in Hx. case_match; [naive_solver|].
  destruct (newUUID _) as [tok'|]; [|naive_solver].
  assert (Hno : ∀ a d', claim_body io' clk' did' g owner' tok' (interval lease') db2 ≠ Ok (a, d')).
  { intros [d' v'] db' Hb. apply claim_body_Ok in Hb as (i & r' & Hi & Hr' & Hcl' & _).
    assert (i = id) as -> by congruence. assert (r2 = r') as -> by congruence. apply claimable_pending in Hcl' as (Hs' & Hg' & _).
    unfold row_le in Hle. rewrite Hs', Hg' in Hle. simpl in Hle.
    destruct Hle as [?|[? [?|?]]]; lia || done. }
  split; [apply run_tx_cases in Hx as [|[a Hb]]; [done|by apply Hno in Hb]|].
  destruct out as [a|]; [|done]. apply run_tx_Ok in Hx. by apply Hno in Hx.
Qed.
End fencing.

(** ** The concrete run *)

Lemma boot_reachable : reachable store0 db_boot.
Proof.
  eapply reachable_step; [apply (reachable_fresh _ empty_db); by split_and!|].
  eapply step_Bootstrap, surjective_pairing.
Qed.

Lemma sub_reachable : reachable store0 db_sub.
Proof. eapply reachable_step; [apply boot_reachable|]. eapply step_Submit, surjective_pairing. Qed.

Lemma claim_step : step store0 db_sub db_claimed.
Proof. eapply step_ClaimDelivery, surjective_pairing. Qed.

Lemma claimed_reachable : reachable store0 db_claimed.
Proof. eapply reachable_step; [apply sub_reachable|apply claim_step]. Qed.

Lemma success_step : step store0 db_claimed db_succeeded.
Proof. eapply step_CompleteSuccess, surjective_pairing. Qed.

Lemma succeeded_reachable : reachable store0 db_succeeded.
Proof. eapply reachable_step; [apply claimed_reachable|apply success_step]. Qed.

Lemma failed_reachable : reachable store0 db_failed.
Proof.
  eapply reachable_step; [apply claimed_reachable|]. eapply step_CompletePermanent, surjective_pairing.
Qed.

Lemma retry_reachable : reachable store0 db_retry.
Proof.
  eapply reachable_step; [apply claimed_reachable|]. eapply step_CompleteRetry, surjective_pairing.
Qed.

Lemma operations_refine_lifecycle_witness : ∃ T, spec_step T db_claimed db_succeeded.
Proof.
  apply (operations_refine_lifecycle store0); [apply (reachable_Inv _ _ claimed_reachable)|].
  apply success_step.
Defined.


Lemma delivery_is_immutable_and_monotone_witness :
  ∃ r', deliveries db_succeeded !! id0 = Some r' ∧ content_of r' = content_of (row0 db_sub) ∧
    (d_generation (row0 db_sub) < d_generation r' ∨
     (d_generation (row0 db_sub) = d_generation r' ∧
      (d_status (row0 db_sub) = d_status r' ∨
       phase (d_status (row0 db_sub)) < phase (d_status r')))).
Proof.
  apply (delivery_is_immutable_and_monotone store0 db_sub); [apply sub_reachable| |vm_compute; reflexivity].
  eapply lives_step; [eapply lives_step; [apply lives_refl|apply claim_step|]|apply success_step|];
    vm_compute; eexists; reflexivity.
Defined.

Lemma success_is_final_witness :
  deliveries db_succeeded !! id0 = Some (row0 db_succeeded) ∧
  ∃ aid a, delivery_attempts db_succeeded !! aid = Some a ∧
           attempt_matches a id0 (d_generation (row0 db_succeeded)) ClassSucceeded.
Proof.
  apply (success_is_final store0 db_succeeded db_succeeded);
    [apply succeeded_reachable|apply lives_refl|vm_compute; reflexivity..].
Defined.

(** A late retryable result of the same lease, after the success. *)
Definition late : result error unit * DB :=
  complete_at (3 * second) 4 ClassRetryableFailure (Some (time_of (noon + 5 * second))) db_succeeded.

Lemma stale_result_is_refused_witness :
  late.2 = db_succeeded ∧ late.1 ≠ Ok tt ∧
  (healthy = healthy → is_ok (newUUID (draws 4 0%nat)) = true →
   is_Some (uuid_in (AttemptResult.LeaseToken (result_of db_claimed ""))) →
   late.1 = Err ErrWorkerLeaseLost).
Proof.
  apply (stale_result_is_refused store0 db_succeeded db_succeeded id0 (row0 db_succeeded)
    healthy (still (noon + 3 * second)) (draws 4) (result_of db_claimed "")
    ClassRetryableFailure (Some (time_of (noon + 5 * second))));
    [apply succeeded_reachable|apply lives_refl|vm_compute; reflexivity..| |].
  - right. split; vm_compute; reflexivity.
  - apply surjective_pairing.
Defined.

Lemma one_result_per_generation_witness : late.2 = db_succeeded ∧ late.1 ≠ Ok tt.
Proof.
  apply (one_result_per_generation store0 db_claimed db_succeeded db_succeeded id0
    healthy (still (noon + 2 * second)) (draws 3) (result_of db_claimed "") ClassSucceeded None
    healthy (still (noon + 3 * second)) (draws 4) (result_of db_claimed "")
    ClassRetryableFailure (Some (time_of (noon + 5 * second))));
    [apply claimed_reachable| |vm_compute; reflexivity|apply lives_refl|
     vm_compute; reflexivity|reflexivity|apply surjective_pairing].
  rewrite <- succeeded_ok. apply surjective_pairing.
Defined.

Lemma one_claim_per_generation_witness :
  (claim_at (60 * second) "w2" 5 0 db_claimed).2 = db_claimed ∧
  is_ok (claim_at (60 * second) "w2" 5 0 db_claimed).1 = false.
Proof.
  apply (one_claim_per_generation store0 db_sub db_claimed db_claimed
    healthy (still (noon + second)) (draws 2) id0 0 "w1" 30000000000 (fst task0) (snd task0)
    healthy (still (noon + 60 * second)) (draws 5) id0 "w2" 30000000000);
    [apply sub_reachable|vm_compute; reflexivity|apply lives_refl|vm_compute; reflexivity|
     apply surjective_pairing].
Defined.
