(* ===== verification/Admission.v ===== *)
(** * Submission and the registry: what callers can rely on

    Acceptance is durable, submission is idempotent and bounded by the
    backlog, status is visible to its caller only, and a destination version
    once bootstrapped is never changed. *)

From S2P Require Import Prelude GoStrings Sha256 Model Database Store WorkerStore Scheduling Lifecycle Refinement Scenario Reliability.
From Stdlib Require Import SpecFloat.

Local Open Scope Z_scope.

(** ** Lookup by idempotency key *)

Definition has_key (sub : Submission.t) (r : delivery_row) : Prop :=
  d_caller_id r = Submission.CallerID sub ∧ d_idempotency_key r = Submission.IdempotencyKey sub.

Definition lookup_key (sub : Submission.t) (db : DB) : option (Delivery.t * string) :=
  queryDeliveryByIdempotency (Submission.CallerID sub) (Submission.IdempotencyKey sub) db.

Lemma lookup_key_Some sub db d h :
  lookup_key sub db = Some (d, h) →
  ∃ r, deliveries db !! Delivery.ID d = Some r ∧ has_key sub r ∧
       d = delivery_of (Delivery.ID d) r ∧ h = d_request_hash r.
Proof.
  unfold lookup_key, queryDeliveryByIdempotency, queryDelivery.
  destruct (map_find _ _) as [[id r]|] eqn:E; [|done]. simpl. intros [= <- <-].
  apply map_find_Some in E as [Hr Hk]. to_prop. exists r. by split_and!.
Qed.

Lemma lookup_key_None sub db :
  lookup_key sub db = None → ∀ id r, deliveries db !! id = Some r → ¬ has_key sub r.
Proof.
  unfold lookup_key, queryDeliveryByIdempotency, queryDelivery.
  destruct (map_find _ _) as [[id r]|] eqn:E; [done|]. intros _ id r Hr.
  rewrite map_find_None in E. apply E in Hr. by to_prop.
Qed.

Lemma has_key_same_key sub r1 r2 : has_key sub r1 → has_key sub r2 → same_key r1 r2 = true.
Proof. intros [? ?] [? ?]. apply bool_decide_eq_true. split; congruence. Qed.

(** Keys are unique, so the lookup finds the row that has the key. *)
Lemma lookup_key_unique sub db id r :
  Inv db → deliveries db !! id = Some r → has_key sub r →
  lookup_key sub db = Some (delivery_of id r, d_request_hash r).
Proof.
  intros Hinv Hr Hk. destruct (lookup_key sub db) as [[d h]|] eqn:E.
  - apply lookup_key_Some in E as (r' & Hr' & Hk' & Hd & ->).
    assert (Delivery.ID d = id) as Hid.
    { eapply inv_key; [done..|]. by eapply has_key_same_key. }
    rewrite Hid in *. by simplify_eq.
  - exfalso. by eapply lookup_key_None.
Qed.

Lemma has_key_content sub r r' : content_of r' = content_of r → has_key sub r → has_key sub r'.
Proof. unfold has_key. intros Hc. by injection Hc as -> ->. Qed.

(** ** Counting active deliveries *)

Lemma map_count_insert_new {A} (P : A → bool) (m : gmap string A) k a :
  m !! k = None → map_count P (<[k := a]> m) = map_count P m + (if P a then 1 else 0).
Proof.
  intros Hk. unfold map_count. rewrite map_to_list_insert, filter_cons by done.
  destruct (P a) eqn:E; [rewrite decide_True by (simpl; done)|rewrite decide_False by (simpl; congruence)];
    simpl; lia.
Qed.

Section submission.
Context `{Unicode, Postgres}.

Definition new_active (store : Store) (db db' : DB) : Prop :=
  active_count db < backlogLimit store ∧ active_count db' = active_count db + 1.

(** The row holds what was submitted. *)
Definition holds_submission (sub : Submission.t) (r : delivery_row) : Prop :=
  d_destination_id r = Submission.DestinationID sub ∧
  d_destination_version r = Submission.DestinationVersion sub ∧
  d_method r = Submission.Method sub ∧
  d_caller_headers r = json_headers (Submission.CallerHeaders sub) ∧
  d_body r = Submission.Body sub.

(** The two ways a submission commits. *)
Lemma Submit_Ok store io clk rand sub db d db' :
  submit_body store io clk rand sub db = Ok (d, db') →
  ∃ r, deliveries db' !! Delivery.ID d = Some r ∧ has_key sub r ∧
    d_request_hash r = Submission.RequestHash sub ∧
    ((db' = db ∧ d = delivery_of (Delivery.ID d) r) ∨
     (deliveries db !! Delivery.ID d = None ∧ d_status r = StatusPending ∧
      d_generation r = 0 ∧ has_event db' (Delivery.ID d) 0 = true ∧
      holds_submission sub r ∧ new_active store db db')).
Proof.
  intros Hb. apply submit_body_Ok in Hb as [[-> Hq]|(Hq & Hlt & id & oid & tid & sv & _ & _ & _ & _ & -> & Hb)].
  - apply lookup_key_Some in Hq as (r & Hr & Hk & Hd & Hh). exists r. repeat split; [done|apply Hk|apply Hk|done|]. by left.
  - destruct Hb as (Hi & Ho & Hh & _ & ->). simpl.
    apply insert_delivery_Ok in Hi as (Hn & _).
    eexists. rewrite lookup_insert_eq. split; [done|]. split; [done|]. split; [done|].
    right. split_and!; try done.
    + apply has_event_true. exists oid. eexists. simpl. by rewrite lookup_insert_eq.
    + split; [done|]. by apply (map_count_insert_new is_active).
Qed.

(** A submission answered with success is durable, whatever happened to
    the calls: the committed database holds the delivery under the caller's
    key and hash - the one that was there, untouched, or a new pending
    generation-0 delivery with its Outbox event, admitted below the backlog
    limit. *)
Theorem accepted_submission_is_durable store io clk rand sub db d db' :
  Submit store io clk rand sub db = (Ok d, db') →
  ∃ r, deliveries db' !! Delivery.ID d = Some r ∧
    d_caller_id r = Submission.CallerID sub ∧
    d_idempotency_key r = Submission.IdempotencyKey sub ∧
    d_request_hash r = Submission.RequestHash sub ∧
    ((db' = db ∧ d = delivery_of (Delivery.ID d) r) ∨
     (deliveries db !! Delivery.ID d = None ∧ d_status r = StatusPending ∧
      d_generation r = 0 ∧ has_event db' (Delivery.ID d) 0 = true ∧
      active_count db < backlogLimit store ∧ active_count db' = active_count db + 1)).
Proof.
  intros Hx%run_tx_Ok. apply Submit_Ok in Hx as (r & Hr & [Hc Hk] & Hh & Hor). exists r.
  destruct Hor as [?|(? & ? & ? & ? & _ & ?)]; auto 10.
Qed.

(** A key that is present decides the submission. *)
Lemma Submit_known store clk rand sub db id r :
  Inv db → deliveries db !! id = Some r → has_key sub r →
  Submit store healthy clk rand sub db =
    (if String.eqb (d_request_hash r) (Submission.RequestHash sub)
     then Ok (delivery_of id r) else Err ErrIdempotencyConflict, db).
Proof.
  intros Hinv Hr Hk. pose proof (lookup_key_unique _ _ _ _ Hinv Hr Hk) as Hq.
  unfold Submit. rewrite run_tx_healthy. unfold submit_body, call, healthy, mbind, Tx_bind.
  simpl. unfold lookup_key in Hq. rewrite Hq. simpl. unfold tx_guard.
  by destruct (String.eqb _ _).
Qed.

(** The delivery of an accepted submission, later in its life. *)
Lemma accepted_later store io clk rand sub db d db1 db2 :
  reachable store db → Submit store io clk rand sub db = (Ok d, db1) →
  lives store (Delivery.ID d) db1 db2 →
  Inv db2 ∧ ∃ r, deliveries db2 !! Delivery.ID d = Some r ∧ has_key sub r ∧
    d_request_hash r = Submission.RequestHash sub.
Proof.
  intros Hre Hx Hl.
  assert (Hre1 : reachable store db1) by (eapply reachable_step; [done|by econstructor]).
  split; [eauto with notifier|].
  apply run_tx_Ok, Submit_Ok in Hx as (r & Hr & Hk & Hh & _).
  destruct (lives_lineage _ _ _ _ _ Hl (reachable_Inv _ _ Hre1) Hr) as (r2 & Hr2 & Hc & _).
  exists r2. split; [done|]. split; [by eapply has_key_content|].
  rewrite <- Hh. by apply (f_equal request_hash) in Hc.
Qed.

(** C7: submission is idempotent: repeating an accepted request (same
    caller, key and canonical hash), at any later time of the delivery's life
    and even when the backlog is full, returns the original delivery in its
    current state and changes nothing. *)
Theorem resubmission_returns_original store io clk rand sub db d db1 db2 clk' rand' sub' :
  reachable store db → Submit store io clk rand sub db = (Ok d, db1) →
  lives store (Delivery.ID d) db1 db2 →
  Submission.CallerID sub' = Submission.CallerID sub →
  Submission.IdempotencyKey sub' = Submission.IdempotencyKey sub →
  Submission.RequestHash sub' = Submission.RequestHash sub →
  ∃ r, deliveries db2 !! Delivery.ID d = Some r ∧
    Submit store healthy clk' rand' sub' db2 = (Ok (delivery_of (Delivery.ID d) r), db2).
Proof.
  intros Hre Hx Hl Hc Hk Hh. destruct (accepted_later _ _ _ _ _ _ _ _ _ Hre Hx Hl)
    as (Hinv & r & Hr & [Hc' Hk'] & Hh'). exists r. split; [done|].
  rewrite (Submit_known _ _ _ _ _ _ _ Hinv Hr) by (split; congruence).
  by rewrite Hh', <- Hh, String.eqb_refl.
Qed.

(** C16: reusing a key for another request is a conflict and changes nothing. *)
Theorem reused_key_is_conflict store io clk rand sub db d db1 db2 clk' rand' sub' :
  reachable store db → Submit store io clk rand sub db = (Ok d, db1) →
  lives store (Delivery.ID d) db1 db2 →
  Submission.CallerID sub' = Submission.CallerID sub →
  Submission.IdempotencyKey sub' = Submission.IdempotencyKey sub →
  Submission.RequestHash sub' ≠ Submission.RequestHash sub →
  Submit store healthy clk' rand' sub' db2 = (Err ErrIdempotencyConflict, db2).
Proof.
  intros Hre Hx Hl Hc Hk Hh. destruct (accepted_later _ _ _ _ _ _ _ _ _ Hre Hx Hl)
    as (Hinv & r & Hr & [Hc' Hk'] & Hh').
  rewrite (Submit_known _ _ _ _ _ _ _ Hinv Hr) by (split; congruence).
  rewrite Hh'. by destruct (String.eqb_spec (Submission.RequestHash sub) (Submission.RequestHash sub')).
Qed.

(** C27: submissions never push the active backlog past its limit, whatever
    the outcome of their calls. *)
Theorem backlog_is_bounded store io clk rand sub db out db' :
  Submit store io clk rand sub db = (out, db') →
  active_count db' ≤ Z.max (active_count db) (backlogLimit store).
Proof.
  intros [->|[d Hb]]%run_tx_cases; [lia|].
  apply Submit_Ok in Hb as (r & _ & _ & _ & [[-> _]|(_ & _ & _ & _ & _ & Hlt & Heq)]); lia.
Qed.

(** The store can accept: what the statements of a new submission need. *)
Record can_accept (store : Store) (rand : random) (sub : Submission.t) (db : DB)
    (id oid tid : string) : Prop := {
  ca_key id' r' : deliveries db !! id' = Some r' → ¬ has_key sub r';
  ca_backlog : active_count db < backlogLimit store;
  ca_id : newUUID (rand 0%nat) = Ok id; ca_oid : newUUID (rand 1%nat) = Ok oid;
  ca_tid : newUUID (rand 2%nat) = Ok tid;
  ca_fresh : deliveries db !! id = None; ca_ofresh : outbox_events db !! oid = None;
  ca_caller : is_Some (callers db !! Submission.CallerID sub);
  ca_version : is_Some (destination_versions db !!
    (Submission.DestinationID sub, Submission.DestinationVersion sub));
  ca_hash : len (Submission.RequestHash sub) = 32
}.

Lemma insert_delivery_succeeds id r db :
  deliveries db !! id = None →
  (∀ id' r', deliveries db !! id' = Some r' → same_key r r' = false) →
  is_Some (callers db !! d_caller_id r) →
  is_Some (destination_versions db !! (d_destination_id r, d_destination_version r)) →
  check_delivery r = true →
  insert_delivery id r db = Ok (tt, set_deliveries (<[id := r]> (deliveries db)) db).
Proof. intros. by apply insert_delivery_Ok. Qed.

Lemma insert_event_succeeds id e db :
  outbox_events db !! id = None → has_event db (e_delivery_id e) (e_generation e) = false →
  is_Some (deliveries db !! e_delivery_id e) → check_event e = true →
  insert_event id e db = Ok (tt, set_outbox_events (<[id := e]> (outbox_events db)) db).
Proof. intros. by apply insert_event_Ok. Qed.

(** A new submission below the backlog limit, from a known caller to a
    known destination version, is accepted: the delivery and its generation-0
    event are committed together. *)
Theorem new_submission_is_accepted store clk rand sub db id oid tid :
  Inv db → can_accept store rand sub db id oid tid →
  ∃ supplier,
    Submit store healthy clk rand sub db =
      (Ok (submitted_delivery id supplier sub),
       set_outbox_events
         (<[oid := new_event id 0 tid (timestamptz_of (Submission.AcceptedAt sub))
                     (clock_timestamp (clk 5%nat) oid 0)]> (outbox_events db))
         (set_deliveries (<[id := submitted_row (clk 4%nat) id supplier sub]> (deliveries db)) db)).
Proof.
  intros Hinv [Hk Hb Hu1 Hu2 Hu3 Hf Hof Hc Hv Hh]. eexists.
  assert (Hq : lookup_key sub db = None).
  { destruct (lookup_key sub db) as [[d h]|] eqn:E; [|done].
    apply lookup_key_Some in E as (r & Hr & Hhk & _). by destruct (Hk _ _ Hr). }
  unfold Submit. rewrite run_tx_healthy. unfold submit_body, call, healthy, mbind, Tx_bind.
  simpl. unfold lookup_key in Hq. rewrite Hq. simpl. unfold tx_guard.
  rewrite (proj2 (Z.leb_gt _ _)) by done. simpl. rewrite Hu1, Hu2, Hu3. simpl.
  rewrite insert_delivery_succeeds; [|done| |done|done|].
  - rewrite insert_event_succeeds; [done|done| | |done].
    + apply has_event_false. simpl. intros eid e He Hid Hg.
      destruct (inv_event _ Hinv _ _ He) as (r & Hr & _). rewrite Hid in Hr. congruence.
    + simpl. rewrite lookup_insert_eq. by eexists.
  - intros id' r' Hr'. apply not_true_iff_false. intros Hs. apply (Hk _ _ Hr').
    unfold same_key in Hs. to_prop. simpl in Hs. destruct Hs. by split.
  - unfold check_delivery. simpl. by rewrite (proj2 (Z.eqb_eq _ _) Hh).
Qed.
End submission.

(** ** Status queries *)

Section queries.
Context `{Unicode, Postgres}.

(** A status query finds a delivery exactly when it exists and belongs to the
    asking caller; otherwise it answers not found, as for an unknown id. *)
Lemma Get_eq io callerID deliveryID db :
  Get io callerID deliveryID db =
    match uuid_in deliveryID, io 0%nat with
    | Some id, IoOk =>
        match deliveries db !! id with
        | Some r => if bool_decide (d_caller_id r = callerID) then Ok (delivery_of id r)
                    else Err ErrNotFound
        | None => Err ErrNotFound
        end
    | _, _ => Err ErrDatabase
    end.
Proof.
  unfold Get, as_uuid, query_row, queryDelivery.
  destruct (uuid_in deliveryID) as [id|]; [|done]. simpl. destruct (io 0%nat); [|done].
  destruct (map_find _ _) as [[id' r']|] eqn:E; simpl.
  - apply map_find_Some in E as [Hr Hp]. to_prop. destruct Hp as [-> Hc].
    by rewrite Hr, bool_decide_true.
  - rewrite map_find_None in E. destruct (deliveries db !! id) as [r|] eqn:Hr; [|done].
    apply E in Hr. to_prop. rewrite bool_decide_false; [done|]. naive_solver.
Qed.

#[local] Instance newest_first_trans : Transitive newest_first.
Proof.
  intros a b c. unfold newest_first. intros [?|[? ?]] [?|[? ?]];
    [left; lia|left; lia|left; lia|right; split; [lia|by etrans]].
Qed.
#[local] Instance newest_first_total : Total newest_first.
Proof.
  intros a b. unfold newest_first.
  destruct (Z.lt_trichotomy (a_started_at a.2) (a_started_at b.2)) as [?|[Heq|?]];
    [auto| |auto]. destruct (total String.le a.1 b.1); auto.
Qed.

(** An attempt of the delivery [id] of [callerID]. *)
Definition owned (callerID id : string) (db : DB) (a : attempt_row) : Prop :=
  a_delivery_id a = id ∧ ∃ r, deliveries db !! id = Some r ∧ d_caller_id r = callerID.

(** The attempt history a caller sees is a list of recorded attempts of the
    delivery it names and owns, at most [limit] and newest first; when fewer
    are listed none is left out. *)
Lemma ListAttemptSummaries_rows io callerID deliveryID limit db l :
  ListAttemptSummaries io callerID deliveryID limit db = Ok l →
  ∃ id rows, uuid_in deliveryID = Some id ∧ l = summary_of ∘ snd <$> rows ∧
  Z.of_nat (length rows) ≤ limit ∧ NoDup rows ∧ StronglySorted newest_first rows ∧
  (∀ aid a, (aid, a) ∈ rows → delivery_attempts db !! aid = Some a ∧ owned callerID id db a) ∧
  (Z.of_nat (length rows) < limit →
   ∀ aid a, delivery_attempts db !! aid = Some a → owned callerID id db a → (aid, a) ∈ rows).
Proof.
  unfold ListAttemptSummaries, as_uuid. case_match eqn:Hlim; [done|]. to_prop.
  destruct (uuid_in deliveryID) as [id|] eqn:Hid; [|done]. simpl.
  destruct (io 0%nat); [|done]. set (P := filter _ _). intros [= <-].
  exists id. eexists. split; [done|]. split; [done|].
  assert (Hown : ∀ aid a, (aid, a) ∈ P ↔ delivery_attempts db !! aid = Some a ∧ owned callerID id db a).
  { intros aid a. unfold P. rewrite list_elem_of_filter, elem_of_map_to_list. simpl.
    unfold owned. destruct (deliveries db !! a_delivery_id a) as [r|] eqn:E.
    - rewrite bool_decide_eq_true. naive_solver.
    - naive_solver. }
  assert (Hlen : length (merge_sort newest_first P) = length P)
    by by rewrite merge_sort_Permutation.
  rewrite length_take, Hlen. split_and!; [lia| | | |].
  - eapply sublist_NoDup; [|apply sublist_take]. rewrite merge_sort_Permutation.
    apply NoDup_filter, NoDup_map_to_list.
  - apply StronglySorted_take, StronglySorted_merge_sort; apply _.
  - intros aid a Hin. apply elem_of_take in Hin as (i & Hin & _). apply list_elem_of_lookup_2 in Hin.
    by rewrite merge_sort_Permutation, Hown in Hin.
  - intros Hlt aid a Ha Ho. rewrite take_ge by lia. rewrite merge_sort_Permutation. by apply Hown.
Qed.

Lemma ListAttemptSummaries_Ok io callerID deliveryID limit db l :
  ListAttemptSummaries io callerID deliveryID limit db = Ok l →
  ∃ id, uuid_in deliveryID = Some id ∧
  Z.of_nat (length l) ≤ limit ∧
  StronglySorted (λ s s', AttemptSummary.StartedAt s' ≤ AttemptSummary.StartedAt s) l ∧
  (∀ s, s ∈ l → ∃ aid a, delivery_attempts db !! aid = Some a ∧ owned callerID id db a ∧ s = summary_of a) ∧
  (Z.of_nat (length l) < limit →
   ∀ aid a, delivery_attempts db !! aid = Some a → owned callerID id db a → summary_of a ∈ l).
Proof.
  intros (id & rows & Hid & -> & Hlen & _ & Hsort & Hin & Hall)%ListAttemptSummaries_rows.
  exists id. rewrite length_fmap. split_and!; [done|done| | |].
  - apply (StronglySorted_fmap newest_first); [|done].
    intros [k1 a1] [k2 a2] Hn. unfold newest_first in Hn. simpl in *. unfold time_of. lia.
  - intros s ([aid a] & -> & [? ?]%Hin)%list_elem_of_fmap. by exists aid, a.
  - intros Hlt aid a Ha Ho. apply list_elem_of_fmap. exists (aid, a). split; [done|]. auto.
Qed.
End queries.

(** ** Registry *)

Section registry.
Context `{Unicode, Postgres}.

(** No operation ever changes a destination version that exists. *)
Theorem destination_versions_are_immutable store db db' k v :
  reachable store db → rtc (step store) db db' →
  destination_versions db !! k = Some v → destination_versions db' !! k = Some v.
Proof.
  intros Hre Hs. induction Hs as [db|db db1 db' Hst _ IH]; [done|]. intros Hk.
  apply IH; [by eapply reachable_step|].
  destruct (step_refines _ _ _ (reachable_Inv _ _ Hre) Hst) as [T HT].
  by apply (sp_registry _ _ _ HT).
Qed.

(** What a committed bootstrap established. *)
Record bootstrapped (config : BootstrapConfig.t) (db : DB) : Prop := {
  bs_caller : ∃ c, callers db !! BootstrapConfig.CallerID config = Some c ∧
    c_api_key_hash c = Sum256 (BootstrapConfig.CallerAPIKey config);
  bs_current : destinations db !!
    DestinationVersion.DestinationID (BootstrapConfig.Destination config) =
    Some (DestinationVersion.Version (BootstrapConfig.Destination config));
  bs_row : ∃ v, version_of (BootstrapConfig.Destination config) = Some v ∧ check_version v = true;
  bs_version : ∃ d, queryDestinationVersion
    (DestinationVersion.DestinationID (BootstrapConfig.Destination config))
    (DestinationVersion.Version (BootstrapConfig.Destination config)) db = Some d ∧
    DeepEqual d (BootstrapConfig.Destination config) = true;
  bs_authorized : (BootstrapConfig.CallerID config,
    DestinationVersion.DestinationID (BootstrapConfig.Destination config)) ∈
    caller_destinations db
}.

Lemma insert_caller_Ok i h db u db' :
  insert_caller_or_nothing i h db = Ok (u, db') →
  destinations db' = destinations db ∧ destination_versions db' = destination_versions db ∧
  caller_destinations db' = caller_destinations db.
Proof.
  unfold insert_caller_or_nothing. repeat case_bool_decide; intros Hx; simplify_eq; done.
Qed.

Lemma insert_version_Ok i n row db u db' :
  insert_version_or_nothing i n row db = Ok (u, db') →
  (∃ v, row = Some v ∧ check_version v = true) ∧
  callers db' = callers db ∧ destinations db' = destinations db ∧
  caller_destinations db' = caller_destinations db.
Proof.
  unfold insert_version_or_nothing. destruct row as [v|]; [|done].
  destruct (check_version v) eqn:E; simpl; [|done].
  case_bool_decide; intros Hx; simplify_eq; (split; [by exists v|done]).
Qed.

Lemma bootstrap_body_Ok io config db u db' :
  bootstrap_body io config db = Ok (u, db') → bootstrapped config db'.
Proof.
  unfold bootstrap_body. intros Hb. tx_inv. case_match; [|done]. tx_inv. case_match; [|done].
  tx_inv. to_prop.
  repeat match goal with
  | Hi : insert_authorization _ _ _ = _ |- _ => injection Hi as ? <-
  | Hi : upsert_destination _ _ _ = _ |- _ => injection Hi as ? <-
  | Hi : insert_version_or_nothing _ _ _ _ = _ |- _ =>
      apply insert_version_Ok in Hi as ((? & ? & ?) & Hcal & Hdest & _)
  end.
  simpl in *. constructor; simpl.
  - rewrite Hcal. eauto.
  - rewrite Hdest. by rewrite lookup_insert_eq.
  - eauto.
  - eauto.
  - set_solver.
Qed.

Definition valid_bootstrap (config : BootstrapConfig.t) : bool :=
  let destination := BootstrapConfig.Destination config in
  negb (String.eqb (BootstrapConfig.CallerID config) "" ||
     String.eqb (BootstrapConfig.CallerAPIKey config) "" ||
     String.eqb (DestinationVersion.DestinationID destination) "" ||
     (DestinationVersion.Version destination <=? 0)) &&
  forallb IsSupportedOutboundMethod (elems (DestinationVersion.AllowedMethods destination)).

Lemma Bootstrap_valid io config db :
  Bootstrap io config db =
  if valid_bootstrap config then run_tx io 0 7 (bootstrap_body io config) db
  else (Err ErrInvalidArgument, db).
Proof.
  unfold Bootstrap, valid_bootstrap. destruct (_ || _); simpl; [done|]. by destruct (forallb _ _).
Qed.

Lemma DB_eta db : mkDB (callers db) (destinations db) (destination_versions db)
  (caller_destinations db) (deliveries db) (outbox_events db) (delivery_attempts db)
  (replay_audits db) = db.
Proof. by destruct db. Qed.

Lemma bootstrapped_again config db :
  bootstrapped config db → bootstrap_body healthy config db = Ok (tt, db).
Proof.
  intros [(c & Hc & Hh) Hcur (v & Hv & Hcv) (d & Hd & Heq) Hau].
  unfold bootstrap_body, call, healthy, mbind, Tx_bind.
  unfold insert_caller_or_nothing at 1. rewrite Hc, bool_decide_true by eauto.
  cbn [tx_read]. unfold tx_read. rewrite Hc. unfold tx_guard.
  rewrite bool_decide_true by done. unfold upsert_destination.
  rewrite (insert_id (destinations db)), DB_eta by done.
  unfold insert_version_or_nothing. rewrite Hv, Hcv. simpl negb.
  assert (is_Some (destination_versions db !!
    (DestinationVersion.DestinationID (BootstrapConfig.Destination config),
     DestinationVersion.Version (BootstrapConfig.Destination config)))) as Hs.
  { unfold queryDestinationVersion in Hd. by apply fmap_Some in Hd as (? & -> & _). }
  rewrite bool_decide_true by done. rewrite Hd.
  rewrite Heq. unfold insert_authorization.
  rewrite (subseteq_union_1_L _ (caller_destinations db)) by set_solver. by rewrite DB_eta.
Qed.

(** Bootstrapping the same configuration again succeeds and changes
    nothing, even when the first run's other calls met failures. *)
Theorem bootstrap_is_idempotent io config db db' :
  Bootstrap io config db = (Ok tt, db') → Bootstrap healthy config db' = (Ok tt, db').
Proof.
  rewrite !Bootstrap_valid. destruct (valid_bootstrap config); [|done].
  intros Hx%run_tx_Ok%bootstrap_body_Ok%bootstrapped_again.
  by rewrite run_tx_healthy, Hx.
Qed.

(** A configuration that contradicts the stored version of its
    destination is refused and changes nothing. *)
Theorem bootstrap_refuses_changes io config db d out db' :
  queryDestinationVersion
    (DestinationVersion.DestinationID (BootstrapConfig.Destination config))
    (DestinationVersion.Version (BootstrapConfig.Destination config)) db = Some d →
  DeepEqual d (BootstrapConfig.Destination config) = false →
  Bootstrap io config db = (out, db') → out ≠ Ok tt ∧ db' = db.
Proof.
  intros Hq Hne. rewrite Bootstrap_valid. destruct (valid_bootstrap config); [|naive_solver].
  intros Hx. assert (Hno : ∀ u d', bootstrap_body io config db ≠ Ok (u, d')).
  { intros u d' Hb. unfold bootstrap_body in Hb. tx_inv. case_match; [|done]. tx_inv.
    case_match; [|done]. tx_inv. simplify_eq.
    repeat match goal with
    | Hi : insert_caller_or_nothing _ _ _ = _ |- _ => apply insert_caller_registry in Hi as (_&_&_&_&R1)
    | Hi : upsert_destination _ _ _ = _ |- _ => apply upsert_destination_registry in Hi as (_&_&_&_&R2)
    | Hi : insert_version_or_nothing _ _ _ _ = _ |- _ =>
        apply insert_version_registry in Hi as (_&_&_&_&R3)
    end.
    unfold queryDestinationVersion in *. apply fmap_Some in Hq as (v & Hv & ->).
    match goal with Hf : destination_of _ _ <$> _ = Some _ |- _ =>
      rewrite (R3 _ _ (R2 _ _ (R1 _ _ Hv))) in Hf end. simpl in *. simplify_eq. congruence. }
  split.
  - intros ->. apply run_tx_Ok in Hx. by apply Hno in Hx.
  - apply run_tx_cases in Hx as [|[u Hb]]; [done|]. by apply Hno in Hb.
Qed.
End registry.

(** ** The concrete run *)

Lemma submitted_eq : Submit store0 healthy (at_ 0) (draws 1) sub0 db_boot = (Ok delivery0, db_sub).
Proof. vm_compute. reflexivity. Qed.

Lemma accepted_submission_is_durable_witness :
  ∃ r, deliveries db_sub !! id0 = Some r ∧ d_caller_id r = "shop" ∧
    d_idempotency_key r = "order-1" ∧ d_request_hash r = Sum256 "order-1 paid" ∧
    ((db_sub = db_boot ∧ delivery0 = delivery_of id0 r) ∨
     (deliveries db_boot !! id0 = None ∧ d_status r = StatusPending ∧ d_generation r = 0 ∧
      has_event db_sub id0 0 = true ∧ active_count db_boot < backlogLimit store0 ∧
      active_count db_sub = active_count db_boot + 1)).
Proof. apply (accepted_submission_is_durable store0 healthy (at_ 0) (draws 1) sub0), submitted_eq. Defined.

Lemma resubmission_returns_original_witness :
  ∃ r, deliveries db_claimed !! id0 = Some r ∧
    Submit store0 healthy (at_ hour) (draws 9) sub0 db_claimed = (Ok (delivery_of id0 r), db_claimed).
Proof.
  apply (resubmission_returns_original store0 healthy (at_ 0) (draws 1) sub0 db_boot delivery0 db_sub);
    [apply boot_reachable|apply submitted_eq| |reflexivity..].
  eapply lives_step; [apply lives_refl|apply claim_step|]. vm_compute. eexists. reflexivity.
Defined.

Definition sub_other : Submission.t :=
  Submission.mk "shop" "order-1" (Sum256 "order-1 refunded") "billing" 1 "POST" ∅ "refunded" ""
    (time_of noon) (time_of (noon + 24 * hour)).

Lemma reused_key_is_conflict_witness :
  Submit store0 healthy (at_ hour) (draws 9) sub_other db_sub = (Err ErrIdempotencyConflict, db_sub).
Proof.
  apply (reused_key_is_conflict store0 healthy (at_ 0) (draws 1) sub0 db_boot delivery0 db_sub);
    [apply boot_reachable|apply submitted_eq|apply lives_refl|reflexivity..|].
  vm_compute. discriminate.
Defined.

Lemma backlog_is_bounded_witness :
  active_count db_sub ≤ Z.max (active_count db_boot) (backlogLimit store0).
Proof. apply (backlog_is_bounded store0 healthy (at_ 0) (draws 1) sub0 _ (Ok delivery0)), submitted_eq. Defined.

(** The identifiers the first submission draws. *)
Definition uuid_at (n : nat) : string := uuid_of (draws 1 n).

Lemma new_submission_is_accepted_witness :
  ∃ supplier, Submit store0 healthy (at_ 0) (draws 1) sub0 db_boot =
    (Ok (submitted_delivery (uuid_at 0) supplier sub0),
     set_outbox_events
       (<[uuid_at 1 := new_event (uuid_at 0) 0 (uuid_at 2) noon noon]> (outbox_events db_boot))
       (set_deliveries
          (<[uuid_at 0 := submitted_row (still (noon + 0)) (uuid_at 0) supplier sub0]>
             (deliveries db_boot)) db_boot)).
Proof.
  apply (new_submission_is_accepted store0 (at_ 0) (draws 1) sub0 db_boot).
  - apply (reachable_Inv _ _ boot_reachable).
  - constructor; [|vm_compute; reflexivity..| | |].
    + intros id' r'. vm_compute. discriminate.
    + vm_compute. eexists. reflexivity.
    + vm_compute. eexists. reflexivity.
    + vm_compute. reflexivity.
Defined.

Lemma destination_versions_are_immutable_witness :
  destination_versions db_succeeded !! ("billing", 1) =
    destination_versions db_boot !! ("billing", 1) ∧
  is_Some (destination_versions db_boot !! ("billing", 1)).
Proof.
  destruct (destination_versions db_boot !! ("billing", 1)) as [v|] eqn:E.
  - split; [|eexists; reflexivity].
    apply (destination_versions_are_immutable store0 db_boot); [apply boot_reachable| |exact E].
    eapply rtc_l; [eapply step_Submit, surjective_pairing|].
    eapply rtc_l; [apply claim_step|]. eapply rtc_l; [apply success_step|]. apply rtc_refl.
  - exfalso. revert E. vm_compute. discriminate.
Defined.

Lemma boot_eq : Bootstrap healthy config0 empty_db = (Ok tt, db_boot).
Proof. vm_compute. reflexivity. Qed.

Lemma bootstrap_is_idempotent_witness : Bootstrap healthy config0 db_boot = (Ok tt, db_boot).
Proof. apply (bootstrap_is_idempotent healthy config0 empty_db), boot_eq. Defined.

(** The same version with another URL. *)
Definition config_changed : BootstrapConfig.t :=
  BootstrapConfig.mk "shop" "shop-key"
    (DestinationVersion.mk "billing" 1 "https://elsewhere.example/" "external_https"
       (Some ["POST"]) (Some ["X-Event"]) "" "" "Idempotency-Key" (Some []) (Some [])
       1000000000 5000000000 (S754_finite false 5629499534213120 (-50)) 2).

Lemma bootstrap_refuses_changes_witness :
  (Bootstrap healthy config_changed db_boot).1 ≠ Ok tt ∧
  (Bootstrap healthy config_changed db_boot).2 = db_boot.
Proof.
  apply (bootstrap_refuses_changes healthy config_changed db_boot destination0);
    [vm_compute; reflexivity|vm_compute; reflexivity|apply surjective_pairing].
Defined.
