(* ===== verification/Recovery.v ===== *)
(** * Claims, results and the loops that keep deliveries moving

    Under working calls each operation does what it promises: a claimable
    delivery is claimed, a fenced result is committed, due retries get their
    signal, expired leases are recovered, and a pending delivery is always in
    reach of one of the loops. *)

From S2P Require Import Prelude GoStrings Sha256 Model Database Store WorkerStore Outbox Scheduling Replay Lifecycle Refinement Scenario Reliability.

Local Open Scope Z_scope.

(** An update of a single row is an insertion. *)
Lemma map_update_one {A} (f : string → A → option A) (m : gmap string A) id r r' :
  m !! id = Some r → f id r = Some r' → (∀ id' s, id' ≠ id → f id' s = None) →
  map_update f m = <[id := r']> m ∧ map_touched f m = {[id := r']}.
Proof.
  intros Hr Hf Hne. split; apply map_eq; intros i;
    rewrite ?lookup_map_update, ?lookup_map_touched;
    (destruct (decide (i = id)) as [->|Hi];
      [rewrite Hr; simpl; rewrite Hf, ?lookup_insert_eq, ?lookup_singleton_eq; done|]).
  - rewrite lookup_insert_ne by done. destruct (m !! i) eqn:E; simpl; [|done]. by rewrite Hne.
  - rewrite lookup_singleton_ne by done. destruct (m !! i) eqn:E; simpl; [|done]. by rewrite Hne.
Qed.

Lemma map_update_none {A} (f : string → A → option A) (m : gmap string A) :
  (∀ id r, m !! id = Some r → f id r = None) → map_touched f m = ∅ ∧ map_update f m = m.
Proof.
  intros Hn. split; apply map_eq; intros i;
    rewrite ?lookup_map_update, ?lookup_map_touched, ?lookup_empty;
    destruct (m !! i) eqn:E; simpl; try done; by rewrite (Hn _ _ E).
Qed.

Lemma set_deliveries_id db : set_deliveries (deliveries db) db = db.
Proof. by destruct db. Qed.

Lemma update_deliveries_one f db id r r' :
  deliveries db !! id = Some r → f id r = Some r' → (∀ id' s, id' ≠ id → f id' s = None) →
  check_delivery r' = true →
  update_deliveries f db = Ok ({[id := r']}, set_deliveries (<[id := r']> (deliveries db)) db).
Proof.
  intros Hr Hf Hne Hc. destruct (map_update_one f _ _ _ _ Hr Hf Hne) as [Hu Ht].
  apply update_deliveries_Ok. rewrite Hu, Ht. split_and!; [|done..]. by apply map_Forall_singleton.
Qed.

Lemma update_deliveries_none f db :
  (∀ id r, deliveries db !! id = Some r → f id r = None) →
  update_deliveries f db = Ok (∅, db).
Proof.
  intros Hn. destruct (map_update_none f _ Hn) as [Ht Hu].
  apply update_deliveries_Ok. rewrite Ht, Hu, set_deliveries_id. split_and!; [|done..].
  apply map_Forall_empty.
Qed.

Lemma check_delivery_set r st g na dl up lo lt lu :
  check_delivery r = true → 0 ≤ g ≤ max_int64 →
  lease_tuple_consistent (set_delivery r st g na dl up lo lt lu) = true →
  check_delivery (set_delivery r st g na dl up lo lt lu) = true.
Proof.
  unfold check_delivery, generation_ok. intros ? ? ->. to_prop. simpl.
  rewrite (proj2 (Z.eqb_eq _ _)) by done. rewrite !(proj2 (Z.leb_le _ _)) by lia. done.
Qed.

(** ** Claims and results *)

Section claims.
Context `{Unicode, Postgres}.

Lemma check_claimed clk id owner token lease r :
  check_delivery r = true → check_delivery (claimed_row clk id owner token lease r) = true.
Proof. intros Hc. apply check_delivery_set; [done|by apply check_delivery_generation|done]. Qed.

Lemma check_completed ts class next r :
  check_delivery r = true →
  (class = ClassRetryableFailure → d_generation r < max_int64) →
  check_delivery (completed_row ts class next r) = true.
Proof.
  intros Hc Hm. pose proof (check_delivery_generation _ Hc).
  apply check_delivery_set; [done| |by destruct class].
  destruct class; [done| |done]. specialize (Hm eq_refl). lia.
Qed.

(** A claim decides by the delivery alone: when the row is pending under
    that generation, due and before its deadline, the claim is granted - the
    row holds the caller's lease and the caller gets the delivery with the
    destination version pinned at acceptance; otherwise it is refused with
    [ErrDeliveryNotClaimable] and nothing changes. *)
Theorem claim_decides clk rand did id g owner lease token db :
  Inv db → uuid_in did = Some id → owner ≠ "" → 0 < lease →
  newUUID (rand 0%nat) = Ok token →
  (∃ r v, let r' := claimed_row clk id owner token (interval lease) r in
    deliveries db !! id = Some r ∧
    claimable g (clock_timestamp clk id 2) (clock_timestamp clk id 3) r = true ∧
    destination_versions db !! (d_destination_id r, d_destination_version r) = Some v ∧
    ClaimDelivery healthy clk rand did g owner lease db =
      (Ok (leased_delivery id r', destination_of (d_destination_id r) (d_destination_version r) v),
       set_deliveries (<[id := r']> (deliveries db)) db)) ∨
  ((∀ r, deliveries db !! id = Some r →
      claimable g (clock_timestamp clk id 2) (clock_timestamp clk id 3) r = false) ∧
   ClaimDelivery healthy clk rand did g owner lease db = (Err ErrDeliveryNotClaimable, db)).
Proof.
  intros Hinv Hid Ho Hl Hu. unfold ClaimDelivery.
  rewrite (proj2 (String.eqb_neq _ _) Ho), (proj2 (Z.leb_gt _ _) Hl), Hu. simpl.
  rewrite run_tx_healthy. unfold claim_body, call, healthy, mbind, Tx_bind, as_uuid.
  rewrite Hid. simpl. set (f := claim_update _ _ _ _ _ _).
  destruct (deliveries db !! id) as [r|] eqn:Hr;
    [destruct (claimable g (clock_timestamp clk id 2) (clock_timestamp clk id 3) r) eqn:Hc|].
  - left. destruct (inv_version _ Hinv _ _ Hr) as [v Hv]. exists r, v. split_and!; try done.
    rewrite (update_deliveries_one f _ id r
      (claimed_row clk id owner token (interval lease) r)); [|done| | |].
    + unfold mret, Tx_ret. rewrite lookup_singleton_eq. simpl.
      unfold queryDestinationVersion. simpl. by rewrite Hv.
    + unfold f, claim_update. by rewrite bool_decide_true, Hc.
    + intros. by apply claim_update_ne.
    + apply check_claimed. by eapply inv_check.
  - right. split; [by intros ? [= <-]|].
    rewrite update_deliveries_none; [done|]. intros i s Hs. unfold f, claim_update.
    case_bool_decide; [subst|done]. simplify_eq. by rewrite Hc.
  - right. split; [done|]. rewrite update_deliveries_none; [done|].
    intros i s Hs. apply claim_update_ne. congruence.
Qed.

Lemma completeResult_in_fence clk rand res class next db id token aid r :
  Inv db → uuid_in (AttemptResult.DeliveryID res) = Some id →
  uuid_in (AttemptResult.LeaseToken res) = Some token →
  newUUID (rand 0%nat) = Ok aid → delivery_attempts db !! aid = None →
  deliveries db !! id = Some r →
  fence (clock_timestamp clk id 1) (AttemptResult.Generation res)
    (AttemptResult.LeaseOwner res) token class (timestamptz_of <$> next) r = true →
  AttemptResult.StartedAt res ≤ AttemptResult.FinishedAt res →
  (class = ClassRetryableFailure → d_generation r < max_int64) →
  completeResult healthy clk rand res class next db =
    (Ok tt, set_delivery_attempts
      (<[aid := attempt_of id token class res]> (delivery_attempts db))
      (set_deliveries
        (<[id := completed_row (clock_timestamp clk id 0) class (timestamptz_of <$> next) r]>
           (deliveries db)) db)).
Proof.
  intros Hinv Hid Htok Hu Ha Hr Hf Ht Hmax. unfold completeResult. rewrite Hu, run_tx_healthy.
  unfold complete_body, call, healthy, mbind, Tx_bind, as_uuid. rewrite Hid, Htok. simpl.
  pose proof (inv_check _ Hinv _ _ Hr) as Hck.
  rewrite (update_deliveries_one _ _ id r
    (completed_row (clock_timestamp clk id 0) class (timestamptz_of <$> next) r)); [|done| | |].
  - unfold mret, Tx_ret. rewrite map_size_singleton. simpl.
    match goal with |- context [insert_attempt ?i ?a ?d] =>
      assert (insert_attempt i a d = Ok (tt, set_delivery_attempts (<[i := a]> (delivery_attempts d)) d)) as Hi end.
    { apply insert_attempt_Ok. simpl. split_and!; [done| | |done].
      - rewrite lookup_insert_eq. by eexists.
      - apply fence_inv in Hf as (Hg & _). apply check_delivery_generation in Hck.
        unfold check_attempt, generation_ok. simpl. rewrite <- Hg.
        repeat (apply andb_true_iff; split); apply Z.leb_le; try lia.
        apply Z.div_le_mono; lia. }
    by rewrite Hi.
  - unfold complete_update. by rewrite bool_decide_true, Hf.
  - intros. by apply complete_update_ne.
  - by apply check_completed.
Qed.

(** A result inside its fence - right generation, owner and token, the
    lease unexpired, a retry before the deadline - is committed: the row takes
    the result's status with its lease cleared, and the attempt is recorded
    with it. *)
Theorem fenced_result_is_committed clk rand res class next db id token aid r :
  Inv db → uuid_in (AttemptResult.DeliveryID res) = Some id →
  uuid_in (AttemptResult.LeaseToken res) = Some token →
  newUUID (rand 0%nat) = Ok aid → delivery_attempts db !! aid = None →
  deliveries db !! id = Some r →
  fence (clock_timestamp clk id 1) (AttemptResult.Generation res)
    (AttemptResult.LeaseOwner res) token class (timestamptz_of <$> next) r = true →
  AttemptResult.StartedAt res ≤ AttemptResult.FinishedAt res →
  (class = ClassRetryableFailure → d_generation r < max_int64) →
  completeResult healthy clk rand res class next db =
    (Ok tt, set_delivery_attempts
      (<[aid := attempt_of id token class res]> (delivery_attempts db))
      (set_deliveries
        (<[id := completed_row (clock_timestamp clk id 0) class (timestamptz_of <$> next) r]>
           (deliveries db)) db)).
Proof. apply completeResult_in_fence. Qed.
End claims.

(** ** Periodic statements succeed

    [gen_random_uuid()] answers values not yet used, different for each row. *)

Definition fresh_uuids {R} (gen : uuid_source) (n : nat) (db : DB) (m : gmap string R) : Prop :=
  ∀ id r, deliveries db !! id = Some r →
    m !! gen id n = None ∧
    ∀ id' r', deliveries db !! id' = Some r' → gen id n = gen id' n → id = id'.

Lemma fresh_uuids_ids {R R'} gen n db (m : gmap string R) (l : list (string * R')) :
  fresh_uuids gen n db m → (∀ x, x ∈ l → is_Some (deliveries db !! x.1)) →
  (∀ x, x ∈ l → m !! gen x.1 n = None) ∧
  ∀ x y, x ∈ l → y ∈ l → gen x.1 n = gen y.1 n → x.1 = y.1.
Proof.
  intros Hf Hl. split.
  - intros x Hx. destruct (Hl x Hx) as [r Hr]. by destruct (Hf _ _ Hr).
  - intros x y Hx Hy. destruct (Hl x Hx) as [r Hr], (Hl y Hy) as [r' Hr'].
    destruct (Hf _ _ Hr) as [_ Hi]. by eapply Hi.
Qed.

(** A batch of insertions succeeds. *)
Lemma for_each_insert_opt_succeeds {A} (o : A → option (string * outbox_row)) l db :
  (∀ x eid e, x ∈ l → o x = Some (eid, e) →
     check_event e = true ∧ is_Some (deliveries db !! e_delivery_id e) ∧
     outbox_events db !! eid = None) →
  NoDup (omap (λ x, fst <$> o x) l) →
  ∃ n db', for_each (λ x, insert_opt (o x)) l db = Ok (n, db').
Proof.
  revert db. induction l as [|x l IH]; intros db Hl Hnd; [by do 2 eexists|].
  assert (∃ n db1, insert_opt (o x) db = Ok (n, db1) ∧ deliveries db1 = deliveries db ∧
    (∀ k, outbox_events db !! k = None → (∀ eid e, o x = Some (eid, e) → k ≠ eid) →
          outbox_events db1 !! k = None)) as (n1 & db1 & Hi & Hd & Ho).
  { destruct (o x) as [[eid e]|] eqn:Hx; simpl; [|by exists 0, db].
    destruct (Hl x eid e) as (Hc & Hdl & Hn); [left|done|].
    unfold insert_event_or_nothing. destruct (has_event _ _ _) eqn:Hh; [by exists 0, db|].
    assert (insert_event eid e db =
      Ok (tt, set_outbox_events (<[eid := e]> (outbox_events db)) db)) as ->
      by by apply insert_event_Ok.
    do 2 eexists. split_and!; [done|done|]. simpl. intros k Hk Hne.
    rewrite lookup_insert_ne; [done|]. intros <-. by destruct (Hne _ _ eq_refl). }
  simpl in Hnd. destruct (IH db1) as (n2 & db2 & Hf).
  - intros y eid e Hy Hoy. destruct (Hl y eid e) as (Hc & Hdl & Hn); [by right|done|].
    rewrite Hd. split_and!; [done|done|]. apply Ho; [done|].
    intros eid' e' Hox ->. rewrite Hox in Hnd. simpl in Hnd.
    apply NoDup_cons in Hnd as [Hnin _]. apply Hnin, list_elem_of_omap.
    exists y. by rewrite Hoy.
  - destruct (fst <$> o x); [by apply NoDup_cons in Hnd as [_ ?]|done].
  - exists (n1 + n2), db2. simpl. unfold mbind, Tx_bind. by rewrite Hi, Hf.
Qed.

(** Distinct rows draw distinct identifiers. *)
Lemma NoDup_drawn {R} (gen : uuid_source) n (o : string * R → option (string * outbox_row)) l :
  (∀ x y, x ∈ l → y ∈ l → gen x.1 n = gen y.1 n → x.1 = y.1) →
  (∀ x eid e, o x = Some (eid, e) → eid = gen x.1 n) →
  NoDup l.*1 → NoDup (omap (λ x, fst <$> o x) l).
Proof.
  intros Hinj Ho. induction l as [|x l IH]; csimpl; [constructor|].
  intros [Hn Hnd]%NoDup_cons. destruct (o x) as [[eid e]|] eqn:Hx; simpl; [|apply IH; [set_solver|done]].
  constructor; [|apply IH; [set_solver|done]]. intros (y & Hy & Hoy)%list_elem_of_omap.
  apply fmap_Some in Hoy as ([eid' e'] & Hoy & Heq). simpl in Heq. subst eid'.
  apply Ho in Hx, Hoy. apply Hn, list_elem_of_fmap. exists y. split; [|done].
  apply Hinj; [left|by right|congruence].
Qed.

Lemma check_expired clk id r :
  check_delivery r = true → retry_expired clk r = true →
  check_delivery (expired_row clk id r) = true.
Proof.
  intros Hc He. unfold retry_expired in He. to_prop.
  apply check_delivery_set; [done|by apply check_delivery_generation|].
  assert (unleased r) as (-> & -> & ->); [|done].
  apply check_delivery_unleased; congruence.
Qed.

Lemma schedule_body_succeeds clk sc gen limit db :
  Inv db → fresh_uuids gen 0 db (outbox_events db) →
  ∃ n db', schedule_body clk sc gen limit db = Ok (n, db').
Proof.
  intros Hinv Hfr. unfold schedule_body. set (l := select_for_update _ _ _ _ _).
  destruct (fresh_uuids_ids gen 0 db (outbox_events db) l Hfr) as [Hf Hinj].
  { intros [id r] Hx. apply select_elem in Hx as (Hr & _). by eexists. }
  assert (Hu : update_deliveries (expire_update clk) db =
    Ok (map_touched (expire_update clk) (deliveries db),
        set_deliveries (map_update (expire_update clk) (deliveries db)) db)).
  { apply update_deliveries_Ok. split_and!; [|done..]. intros id r' Hr'.
    rewrite lookup_map_touched in Hr'. apply bind_Some in Hr' as (r & Hr & He).
    unfold expire_update in He. destruct (retry_expired clk r) eqn:E; [|done]. simplify_eq.
    apply check_expired; [|done]. by eapply inv_check. }
  unfold mbind, Tx_bind. rewrite Hu.
  destruct (for_each_insert_opt_succeeds (scheduled_event clk gen) l
    (set_deliveries (map_update (expire_update clk) (deliveries db)) db)) as (n & db' & Hn).
  - intros [id r] eid e Hin Ho. unfold scheduled_event in Ho. simplify_eq. simpl.
    pose proof (Hf _ Hin). apply select_elem in Hin as (Hr & _). split_and!; [| |done].
    + pose proof (check_delivery_generation _ (inv_check _ Hinv _ _ Hr)).
      unfold check_event, generation_ok. simpl.
      by rewrite !(proj2 (Z.leb_le _ _)) by lia.
    + rewrite lookup_map_update, Hr. by eexists.
  - eapply (NoDup_drawn gen 0); [done| |apply select_NoDup].
    intros [id r] eid e Ho. unfold scheduled_event in Ho. by simplify_eq.
  - exists n, db'. rewrite <- Hn. apply for_each_ext. by intros [id r] d.
Qed.

Definition schedule_selection (clk : clock) (sc : scan) (limit : Z) (db : DB) :=
  select_for_update sc (retry_due clk db) (λ r, (d_next_attempt_at r, d_created_at r)) limit
    (deliveries db).

(** What a pass without failures leaves. *)
Lemma ScheduleDueRetries_healthy clk sc gen limit db :
  Inv db → 0 < limit → fresh_uuids gen 0 db (outbox_events db) →
  ∃ n db', ScheduleDueRetries healthy clk sc gen limit db = (Ok n, db') ∧
    (∀ id, deliveries db' !! id = (λ r, default r (expire_update clk id r)) <$> deliveries db !! id) ∧
    inserted (scheduled_event clk gen) (schedule_selection clk sc limit db)
      (set_deliveries (map_update (expire_update clk) (deliveries db)) db) db'.
Proof.
  intros Hinv Hlim Hfr. destruct (schedule_body_succeeds clk sc gen limit db Hinv Hfr) as (n & db' & Hb).
  exists n, db'. unfold ScheduleDueRetries, exec. rewrite (proj2 (Z.leb_gt _ _) Hlim), Hb. simpl.
  apply schedule_body_Ok in Hb as [_ Hins]. split_and!; [done| |exact Hins].
  intros id. by rewrite (ins_frame _ _ _ _ Hins), <- lookup_map_update.
Qed.

(** A pending delivery past its deadline fails; one before it stays. *)
Lemma expire_update_past clk id r :
  d_status r = StatusPending → d_retry_deadline r ≤ statement_timestamp clk →
  default r (expire_update clk id r) = expired_row clk id r.
Proof.
  intros Hs Hx. unfold expire_update, retry_expired. by rewrite bool_decide_true, (proj2 (Z.leb_le _ _) Hx).
Qed.
Lemma expire_update_before clk id r :
  statement_timestamp clk < d_retry_deadline r → default r (expire_update clk id r) = r.
Proof.
  intros Hdl. unfold expire_update, retry_expired. by rewrite (proj2 (Z.leb_gt _ _) Hdl), andb_false_r.
Qed.

(** A due delivery without an event is among those selected. *)
Lemma due_selected clk sc limit db id r :
  Inv db → 0 < limit → covers sc (deliveries db) → Z.of_nat (size (deliveries db)) ≤ limit →
  deliveries db !! id = Some r → d_status r = StatusPending →
  d_next_attempt_at r ≤ clock_timestamp clk id 1 → statement_timestamp clk < d_retry_deadline r →
  scan_locked sc id = false → has_event db id (d_generation r) = false →
  (id, r) ∈ schedule_selection clk sc limit db.
Proof.
  intros Hinv Hlim Hcov Hsz Hr Hs Hnx Hdl Hlk Hh. apply select_complete; try done.
  unfold retry_due. rewrite bool_decide_true, Hh by done. simpl.
  rewrite (proj2 (Z.leb_le _ _) Hnx), (proj2 (Z.ltb_lt _ _) Hdl), !andb_true_r.
  apply Z.ltb_lt. pose proof (check_delivery_generation _ (inv_check _ Hinv _ _ Hr)).
  assert (d_generation r ≠ 0); [|lia]. intros H0.
  pose proof (inv_initial _ Hinv _ _ Hr Hs H0). congruence.
Qed.

(** C18: a scheduling pass whose call works and whose new identifiers are fresh
    succeeds; afterwards every pending delivery past its deadline has the status
    failed_permanent, with its payload, generation and deadline as they were,
    and every due one before its deadline is as it was and has the Outbox event
    of its generation - when the pass sees the whole table, its limit covers
    it, and no other transaction holds the row. *)
Theorem due_retries_are_scheduled clk sc gen limit db :
  Inv db → 0 < limit → fresh_uuids gen 0 db (outbox_events db) →
  ∃ n db', ScheduleDueRetries healthy clk sc gen limit db = (Ok n, db') ∧
    (∀ id r, deliveries db !! id = Some r → d_status r = StatusPending →
       d_retry_deadline r ≤ statement_timestamp clk →
       ∃ r', deliveries db' !! id = Some r' ∧ d_status r' = StatusFailedPermanent ∧
         content_of r' = content_of r ∧ d_generation r' = d_generation r ∧
         d_retry_deadline r' = d_retry_deadline r ∧
         d_updated_at r' = clock_timestamp clk id 0) ∧
    (covers sc (deliveries db) → Z.of_nat (size (deliveries db)) ≤ limit →
     ∀ id r, deliveries db !! id = Some r → d_status r = StatusPending →
       d_next_attempt_at r ≤ clock_timestamp clk id 1 →
       statement_timestamp clk < d_retry_deadline r → scan_locked sc id = false →
       deliveries db' !! id = Some r ∧ has_event db' id (d_generation r) = true).
Proof.
  intros Hinv Hlim Hfr. destruct (ScheduleDueRetries_healthy clk sc gen limit db Hinv Hlim Hfr)
    as (n & db' & Hx & Hd & [_ Kp _ Mk _]). exists n, db'. split_and!; [done| |].
  - intros id r Hr Hs Hdl. exists (expired_row clk id r). split; [|done].
    rewrite Hd, Hr. simpl. by rewrite expire_update_past.
  - intros Hcov Hsz id r Hr Hs Hnx Hdl Hlk. split; [rewrite Hd, Hr; simpl; by rewrite expire_update_before|].
    destruct (has_event db id (d_generation r)) eqn:Hh.
    + eapply has_event_mono; [apply Kp|exact Hh].
    + refine (Mk (id, r) _ _ _ eq_refl). by apply due_selected.
Qed.

(** *** Lease recovery *)

Lemma for_each_recover_succeeds clk gen (l : list (string * delivery_row)) db :
  (∀ id r, (id, r) ∈ l → is_Some (deliveries db !! id) ∧ is_Some (d_lease_token r) ∧
     check_attempt (recovery_attempt clk id r "") = true) →
  NoDup l.*1 → (∀ x, x ∈ l → delivery_attempts db !! gen x.1 0%nat = None) →
  (∀ x y, x ∈ l → y ∈ l → gen x.1 0%nat = gen y.1 0%nat → x.1 = y.1) →
  ∃ n db', for_each (record_recovery clk gen) l db = Ok (n, db').
Proof.
  intros Hl Hnd Hf Hinj.
  revert db Hl Hf. induction l as [|[id r] l IH]; intros db Hl Hf; [by do 2 eexists|].
  csimpl in *. apply NoDup_cons in Hnd as [Hn Hnd].
  destruct (Hl id r) as (Hd & [tok Ht] & Hc); [left|].
  assert (Hi : insert_attempt (gen id 0%nat) (recovery_attempt clk id r tok) db =
    Ok (tt, set_delivery_attempts
      (<[gen id 0%nat := recovery_attempt clk id r tok]> (delivery_attempts db)) db)).
  { apply insert_attempt_Ok. split_and!; [apply (Hf (id, r)); left|done|done|done]. }
  match type of Hi with _ = Ok (_, ?d) => destruct (IH Hnd ltac:(set_solver) d) as (n & db' & Hx) end.
  - intros i s Hin. by apply Hl; right.
  - intros [i s] Hin. simpl. rewrite lookup_insert_ne; [by apply (Hf (i, s)); right|].
    intros Heq. apply Hn, list_elem_of_fmap. exists (i, s). split; [|done].
    apply (Hinj (id, r) (i, s)); [left|by right|done].
  - exists (1 + n), db'. simpl. unfold mbind, Tx_bind. rewrite Ht, Hi. simpl. by rewrite Hx.
Qed.

Lemma check_recovered clk id r :
  check_delivery r = true → d_generation r < max_int64 →
  check_delivery (recovered_row clk id r) = true.
Proof.
  intros Hc Hm. pose proof (check_delivery_generation _ Hc).
  unfold recovered_row. apply check_delivery_set; [done| |]; destruct (past_deadline clk r);
    done || lia.
Qed.

Lemma recover_update_selected clk sc limit db id r :
  (id, r) ∈ recover_selection clk sc limit db →
  recover_update clk (recover_selection clk sc limit db) id r = Some (recovered_row clk id r).
Proof.
  intros Hin. destruct (recover_selection_elem _ _ _ _ _ _ Hin) as (Hr & Hs & _).
  by apply recover_update_in.
Qed.

(** The rows under lease leave room for the next generation, and the clock
    has not gone behind their last update. *)
Definition recoverable (clk : clock) (db : DB) : Prop :=
  ∀ id r, deliveries db !! id = Some r → d_status r = StatusDelivering →
    d_generation r < max_int64 ∧ d_updated_at r ≤ clock_timestamp clk id 1.

Lemma recover_body_succeeds clk sc gen limit db :
  Inv db → recoverable clk db → fresh_uuids gen 0 db (delivery_attempts db) →
  fresh_uuids gen 1 db (outbox_events db) →
  ∃ n db', recover_body healthy clk sc gen limit db = Ok (n, db').
Proof.
  intros Hinv Hrec Hfr0 Hfr1. unfold recover_body, call, healthy.
  fold (recover_selection clk sc limit db). set (l := recover_selection clk sc limit db).
  pose proof (recover_selection_elem clk sc limit db) as Hsel. fold l in Hsel.
  assert (Hnd : NoDup l.*1) by apply select_NoDup.
  assert (Hids : ∀ x, x ∈ l → is_Some (deliveries db !! x.1)).
  { intros [id r] Hx. destruct (Hsel _ _ Hx) as (Hr & _). by eexists. }
  destruct (fresh_uuids_ids _ _ _ _ _ Hfr0 Hids) as [Hf0 Hinj0], (fresh_uuids_ids _ _ _ _ _ Hfr1 Hids) as [Hf1 Hinj1].
  assert (Hu : update_deliveries (recover_update clk l) db =
    Ok (map_touched (recover_update clk l) (deliveries db),
        set_deliveries (map_update (recover_update clk l) (deliveries db)) db)).
  { apply update_deliveries_Ok. split_and!; [|done..]. intros id r' Hr'.
    rewrite lookup_map_touched in Hr'. apply bind_Some in Hr' as (r & Hr & He).
    unfold recover_update in He. case_match; [|done]. simplify_eq. to_prop.
    apply check_recovered; [by eapply inv_check|by eapply Hrec]. }
  unfold mbind, Tx_bind. rewrite Hu.
  assert (Hdom : ∀ id r, (id, r) ∈ l →
    is_Some (map_update (recover_update clk l) (deliveries db) !! id)).
  { intros id r Hin. destruct (Hsel _ _ Hin) as (Hr & _). rewrite lookup_map_update, Hr. by eexists. }
  assert (Hg : ∀ id r, (id, r) ∈ l → 0 ≤ d_generation r ∧ d_generation r < max_int64).
  { intros id r Hin. destruct (Hsel _ _ Hin) as (Hr & Hs & _).
    destruct (Hrec _ _ Hr Hs). pose proof (check_delivery_generation _ (inv_check _ Hinv _ _ Hr)). lia. }
  match goal with |- context [for_each (record_recovery clk gen) l ?d] =>
    destruct (for_each_recover_succeeds clk gen l d) as (n1 & db2 & Hr1); [|done|done|done|] end.
  { intros id r Hin. destruct (Hsel _ _ Hin) as (Hr & Hs & _). split_and!; [by eapply Hdom| |].
    - destruct (check_delivery_lease _ (inv_check _ Hinv _ _ Hr) Hs) as (? & tok & ? & _ & Ht & _). eauto.
    - destruct (Hrec _ _ Hr Hs) as [_ Hup]. destruct (Hg _ _ Hin).
      unfold check_attempt, generation_ok. simpl. by rewrite !(proj2 (Z.leb_le _ _)) by lia. }
  rewrite Hr1. apply for_each_recorded in Hr1 as [Fr _ _ _].
  destruct (for_each_insert_opt_succeeds (recovery_event clk gen) l db2) as (n2 & db3 & Hr2).
  { intros [id r] eid e Hin Ho. unfold recovery_event in Ho. case_match; [done|]. simplify_eq.
    simpl. rewrite Fr. simpl. destruct (Hg _ _ Hin). split_and!; [|by eapply Hdom|by apply (Hf1 (id, r))].
    unfold check_event, generation_ok. simpl. by rewrite !(proj2 (Z.leb_le _ _)) by lia. }
  { eapply (NoDup_drawn gen 1); [done| |done]. intros [id r] eid e Ho.
    unfold recovery_event in Ho. case_match; by simplify_eq. }
  erewrite for_each_ext, Hr2; [by do 2 eexists|].
  intros [id r] d. simpl. unfold recovery_event. simpl. by destruct (past_deadline clk r).
Qed.

(** What a pass without failures leaves. *)
Lemma RecoverExpiredDeliveries_healthy clk sc gen limit db :
  Inv db → 0 < limit → recoverable clk db →
  fresh_uuids gen 0 db (delivery_attempts db) → fresh_uuids gen 1 db (outbox_events db) →
  let l := recover_selection clk sc limit db in
  ∃ n db', RecoverExpiredDeliveries healthy clk sc gen limit db = (Ok n, db') ∧
    deliveries db' = map_update (recover_update clk l) (deliveries db) ∧
    ∃ db2, recorded clk gen l (set_deliveries (map_update (recover_update clk l) (deliveries db)) db) db2 ∧
      inserted (recovery_event clk gen) l db2 db'.
Proof.
  intros Hinv Hlim Hrec Hf0 Hf1 l.
  destruct (recover_body_succeeds clk sc gen limit db Hinv Hrec Hf0 Hf1) as (n & db' & Hb).
  exists n, db'. unfold RecoverExpiredDeliveries. rewrite (proj2 (Z.leb_gt _ _) Hlim), run_tx_healthy, Hb.
  split; [done|]. apply recover_body_Ok in Hb as [_ (db2 & Ha & He)]. split; [|by exists db2].
  by rewrite (ins_frame _ _ _ _ He), (rec_frame _ _ _ _ _ Ha).
Qed.

(** The row after recovery, by its deadline. *)
Lemma recovered_row_past clk id r :
  d_retry_deadline r ≤ statement_timestamp clk →
  d_status (recovered_row clk id r) = StatusFailedPermanent ∧
  d_generation (recovered_row clk id r) = d_generation r ∧
  recovery_class clk r = ClassPermanentFailure.
Proof.
  intros Hx. unfold recovered_row, recovery_class. assert (past_deadline clk r = true) as -> by by apply Z.leb_le.
  done.
Qed.
Lemma recovered_row_before clk id r :
  statement_timestamp clk < d_retry_deadline r →
  d_status (recovered_row clk id r) = StatusPending ∧
  d_generation (recovered_row clk id r) = d_generation r + 1 ∧
  recovery_class clk r = ClassRetryableFailure.
Proof.
  intros Hx. unfold recovered_row, recovery_class. assert (past_deadline clk r = false) as -> by by apply Z.leb_gt.
  done.
Qed.

(** C19: a recovery pass takes back every expired lease: when its calls work,
    its limit covers the table it sees, the rows under lease leave room for the
    next generation and are not younger than the clock, and its new identifiers
    are fresh, it succeeds, and each delivery whose lease has ended and whose
    row no other transaction holds has its payload and deadline as before and
    no lease; before its deadline it is pending under the next generation, due
    now, with the event of that generation, and its attempt is recorded as a
    retryable failure; from the deadline on it has failed permanently, and so
    has its attempt, both under the generation it held. *)
Theorem expired_leases_are_recovered clk sc gen limit db :
  Inv db → 0 < limit → recoverable clk db →
  fresh_uuids gen 0 db (delivery_attempts db) → fresh_uuids gen 1 db (outbox_events db) →
  covers sc (deliveries db) → Z.of_nat (size (deliveries db)) ≤ limit →
  ∃ n db', RecoverExpiredDeliveries healthy clk sc gen limit db = (Ok n, db') ∧
    ∀ id r until, deliveries db !! id = Some r → d_status r = StatusDelivering →
      d_lease_until r = Some until → until ≤ statement_timestamp clk →
      scan_locked sc id = false →
      ∃ r' aid a, deliveries db' !! id = Some r' ∧ content_of r' = content_of r ∧
        d_retry_deadline r' = d_retry_deadline r ∧ unleased r' ∧
        delivery_attempts db' !! aid = Some a ∧
        a_delivery_id a = id ∧ a_generation a = d_generation r ∧
        (statement_timestamp clk < d_retry_deadline r →
         d_status r' = StatusPending ∧ d_generation r' = d_generation r + 1 ∧
         d_next_attempt_at r' = clock_timestamp clk id 0 ∧
         a_result_class a = ClassRetryableFailure ∧
         has_event db' id (d_generation r + 1) = true) ∧
        (d_retry_deadline r ≤ statement_timestamp clk →
         d_status r' = StatusFailedPermanent ∧ d_generation r' = d_generation r ∧
         a_result_class a = ClassPermanentFailure).
Proof.
  intros Hinv Hlim Hrec Hf0 Hf1 Hcov Hsz.
  destruct (RecoverExpiredDeliveries_healthy clk sc gen limit db Hinv Hlim Hrec Hf0 Hf1)
    as (n & db' & Hrun & Hd & db2 & [Fa Ka _ Ma] & [Fe _ _ Me _]). exists n, db'. split; [done|].
  intros id r until Hr Hs Hu Hx Hlk.
  assert (Hin : (id, r) ∈ recover_selection clk sc limit db).
  { apply select_complete; try done. unfold lease_expired.
    by rewrite bool_decide_true, Hu, (proj2 (Z.leb_le _ _) Hx). }
  destruct (Ma _ _ Hin) as [tok Htok]. eexists (recovered_row clk id r), _, _.
  split_and!; [|done|done|done|rewrite Fe; exact Htok|done|done| |].
  - rewrite Hd, lookup_map_update, Hr. simpl. by rewrite recover_update_selected.
  - intros Hdl. destruct (recovered_row_before clk id r Hdl) as (? & ? & ?). split_and!; try done.
    assert (Hp : past_deadline clk r = false) by by apply Z.leb_gt.
    assert (He : recovery_event clk gen (id, r) = Some (gen id 1%nat,
      new_event id (d_generation r + 1) (gen id 2%nat) (clock_timestamp clk id 1)
        (clock_timestamp clk (gen id 1%nat) 2))) by (unfold recovery_event; simpl; by rewrite Hp).
    by apply Me in He.
  - intros Hdl. destruct (recovered_row_past clk id r Hdl) as (? & ? & ?). done.
Qed.

(** ** Retention *)

(** A terminal row whose last update lies as far back as its status asks: the
    first duration for a success, the second for a permanent failure. *)
Definition outlived (clk : clock) (success failure : Z) (id : string) (r : delivery_row) : Prop :=
  (d_status r = StatusSucceeded ∧
   d_updated_at r + Milliseconds success * ms ≤ clock_timestamp clk id 0) ∨
  (d_status r = StatusFailedPermanent ∧
   d_updated_at r + Milliseconds failure * ms ≤ clock_timestamp clk id 1).

Lemma retention_expired_outlived clk success failure id r :
  retention_expired clk (Milliseconds success) (Milliseconds failure) id r = true ↔
  outlived clk success failure id r.
Proof.
  unfold retention_expired, outlived. destruct (d_status r); rewrite ?Z.leb_le;
    (split; [intros Hx|intros [[Hs Hx]|[Hs Hx]]]); try done; try lia; [left|right]; split; done || lia.
Qed.

(** C23: a retention pass, whatever the outcome of its call, removes only
    deliveries that succeeded and were last updated at least the success
    retention ago, or failed permanently and were last updated at least the
    failure retention ago, both in whole milliseconds - with every event,
    attempt and audit of theirs - and leaves each other delivery as it was. *)
Theorem retention_removes_only_old_terminal io clk sc success failure limit db out db' :
  DeleteExpiredTerminal io clk sc success failure limit db = (out, db') →
  ∀ id r, deliveries db !! id = Some r →
    deliveries db' !! id = Some r ∨
    (((d_status r = StatusSucceeded ∧
       d_updated_at r + Milliseconds success * ms ≤ clock_timestamp clk id 0) ∨
      (d_status r = StatusFailedPermanent ∧
       d_updated_at r + Milliseconds failure * ms ≤ clock_timestamp clk id 1)) ∧
     deliveries db' !! id = None ∧
     (∀ eid e, outbox_events db' !! eid = Some e → e_delivery_id e ≠ id) ∧
     (∀ aid a, delivery_attempts db' !! aid = Some a → a_delivery_id a ≠ id) ∧
     (∀ uid u, replay_audits db' !! uid = Some u → r_delivery_id u ≠ id)).
Proof.
  unfold DeleteExpiredTerminal. case_match; [intros [= _ <-]; auto|].
  intros [->|[n Hb]]%exec_cases; [auto|]. intros id r Hr.
  unfold retention_body, delete_deliveries in Hb. set (l := select_for_update _ _ _ _ _) in Hb.
  set (ids := list_to_set _) in Hb. injection Hb as _ <-. simpl.
  destruct (decide (id ∈ ids)) as [Hin|Hin].
  - right. unfold ids in Hin. rewrite elem_of_list_to_set in Hin.
    apply list_elem_of_fmap in Hin as Hin2. destruct Hin2 as ([i s] & -> & Hin2).
    apply list_elem_of_filter in Hin2 as [Ht Hl]. apply select_elem in Hl as (Hs & Hre & _).
    simpl in *. simplify_eq. split_and!; [by apply retention_expired_outlived| | | |].
    + apply map_lookup_filter_None. right. intros ? _. unfold ids. simpl. set_solver.
    + intros eid e He. apply map_lookup_filter_Some in He as [_ Hn]. simpl in Hn.
      intros Heq. apply Hn. rewrite Heq. unfold ids. set_solver.
    + intros aid a Ha. apply map_lookup_filter_Some in Ha as [_ Hn]. simpl in Hn.
      intros Heq. apply Hn. rewrite Heq. unfold ids. set_solver.
    + intros uid u Hu. apply map_lookup_filter_Some in Hu as [_ Hn]. simpl in Hn.
      intros Heq. apply Hn. rewrite Heq. unfold ids. set_solver.
  - left. by apply map_lookup_filter_Some.
Qed.

(** ** No delivery is forgotten *)

(** Everything the loops wait for has passed at [t]: the event is available,
    leases are over, and the watchdog has run since publication and
    observation. *)
Definition settled (t watchdog : Z) (e : outbox_row) : Prop :=
  e_available_at e ≤ t ∧
  (∀ u, e_lease_until e = Some u → u ≤ t) ∧
  (∀ p, e_published_at e = Some p → p + watchdog * ms ≤ t) ∧
  (∀ o, e_observed_at e = Some o → o + watchdog * ms ≤ t).

(** A pending delivery that is due and before its deadline is always in
    reach of a loop: its event is waiting for the Publisher, or it was
    published and the watchdog will publish it again, or it has no event yet
    and the scheduler will create one.  A delivery under a lease is in reach of
    recovery once the lease ends, and one past its deadline of expiry. *)
Theorem no_delivery_is_forgotten t watchdog db id r :
  Inv db → deliveries db !! id = Some r → is_active r = true →
  d_next_attempt_at r ≤ t → (∀ u, d_lease_until r = Some u → u ≤ t) →
  (∀ eid e, outbox_events db !! eid = Some e → event_for id (d_generation r) e = true →
     settled t watchdog e) →
  (∃ eid e, outbox_events db !! eid = Some e ∧ event_for id (d_generation r) e = true ∧
     (publishable (still t) eid e = true ∨ stalled (still t) watchdog db eid e = true)) ∨
  retry_due (still t) db id r = true ∨
  lease_expired (still t) id r = true ∨
  retry_expired (still t) r = true.
Proof.
  intros Hinv Hr Hact Hnx Hlu Hev. unfold is_active in Hact. to_prop.
  destruct Hact as [Hs|Hs]; last first.
  { right; right; left. destruct (check_delivery_lease _ (inv_check _ Hinv _ _ Hr) Hs)
      as (_ & _ & u & _ & _ & Hu). unfold lease_expired. rewrite bool_decide_true, Hu by done.
    by apply Z.leb_le, Hlu. }
  destruct (decide (d_retry_deadline r ≤ t)) as [Hd|Hd].
  { right; right; right. unfold retry_expired. rewrite bool_decide_true by done. by apply Z.leb_le. }
  destruct (has_event db id (d_generation r)) eqn:Hh.
  - left. apply has_event_true in Hh as (eid & e & He & Hi & Hg).
    assert (Hfor : event_for id (d_generation r) e = true) by by apply bool_decide_eq_true.
    destruct (Hev _ _ He Hfor) as (Ha & Hl & Hp & Ho). exists eid, e. split_and!; [done|done|].
    destruct (inv_event_ok _ Hinv _ _ He) as [_ Hok].
    destruct (e_published_at e) as [p|] eqn:Ep; [right|left].
    + unfold stalled. rewrite Hi, Hr, Ep. destruct Hok as (-> & -> & ->); [by eexists|].
      specialize (Hp _ eq_refl). simpl. rewrite Hg, Z.eqb_refl, !bool_decide_true by done. simpl.
      rewrite (proj2 (Z.leb_le _ _) Hnx), (proj2 (Z.ltb_lt _ _)), (proj2 (Z.leb_le p _)) by lia.
      simpl. destruct (e_observed_at e) as [o|]; [|done]. rewrite !andb_true_r.
      apply Z.leb_le. specialize (Ho _ eq_refl). lia.
    + unfold publishable. simpl. rewrite Ep, bool_decide_true, (proj2 (Z.leb_le _ _) Ha) by done.
      destruct (e_lease_until e) as [u|]; [|done]. by apply Z.leb_le, Hl.
  - right; left. unfold retry_due. simpl. rewrite bool_decide_true, Hh by done.
    rewrite (proj2 (Z.leb_le _ _) Hnx), (proj2 (Z.ltb_lt t _)), !andb_true_r by lia.
    apply Z.ltb_lt. pose proof (check_delivery_generation _ (inv_check _ Hinv _ _ Hr)).
    assert (d_generation r ≠ 0); [|lia]. intros H0.
    pose proof (inv_initial _ Hinv _ _ Hr Hs H0). congruence.
Qed.

(** ** Manual replay *)

Section replay.
Context `{Unicode, Postgres}.

(** What a replay that reports success did. *)
Lemma Replay_Ok io clk rand did operator reason db d db' :
  Replay io clk rand did operator reason db = (Ok d, db') →
  ∃ r r' aid u, let now := clock_timestamp (clk 1%nat) "" 0 in
    uuid_in did = Some (Delivery.ID d) ∧
    deliveries db !! Delivery.ID d = Some r ∧ d_status r = StatusFailedPermanent ∧
    deliveries db' !! Delivery.ID d = Some r' ∧ d = delivery_of (Delivery.ID d) r' ∧
    d_status r' = StatusPending ∧ d_generation r' = d_generation r + 1 ∧
    content_of r' = content_of r ∧
    d_next_attempt_at r' = now ∧ d_retry_deadline r' = now + hours24 ∧
    has_event db' (Delivery.ID d) (d_generation r') = true ∧
    replay_audits db' !! aid = Some u ∧
    u = AuditRow (Delivery.ID d) (d_generation r) (d_generation r') operator reason now ∧
    is_Some (callers db !! operator).
Proof.
  unfold Replay. destruct (newUUID _) as [aid|]; [|done]. destruct (newUUID _) as [oid|]; [|done].
  destruct (newUUID _) as [tid|]; [|done]. intros Hx%run_tx_Ok.
  apply replay_body_Ok in Hx
    as (id & r & Hid & Hr & Hs & Hc & Ha & Hca & Hop & Ho & Hh & Hce & -> & ->).
  set (now := clock_timestamp _ _ _) in *. simpl.
  assert (Hu : map_update (replay_update now id) (deliveries db) !! id = Some (replayed_row now r)).
  { rewrite lookup_map_update, Hr. simpl. unfold replay_update. by rewrite !bool_decide_true. }
  exists r, (replayed_row now r), aid. eexists. split_and!; try done.
  - apply has_event_true. exists oid. eexists. simpl. by rewrite lookup_insert_eq.
  - simpl. rewrite lookup_insert_eq. do 2 f_equal. simpl. lia.
Qed.

(** A replay that succeeds, whatever happened to its calls, took a
    permanently failed delivery back to pending under the next generation
    with its payload and destination unchanged, a new 24-hour window, the
    signal of that generation, and an audit naming operator and reason. *)
Theorem replay_restarts_and_audits io clk rand did operator reason db d db' :
  Replay io clk rand did operator reason db = (Ok d, db') →
  ∃ r r' aid u, let now := clock_timestamp (clk 1%nat) "" 0 in
    uuid_in did = Some (Delivery.ID d) ∧
    deliveries db !! Delivery.ID d = Some r ∧ d_status r = StatusFailedPermanent ∧
    deliveries db' !! Delivery.ID d = Some r' ∧ d = delivery_of (Delivery.ID d) r' ∧
    d_status r' = StatusPending ∧ d_generation r' = d_generation r + 1 ∧
    content_of r' = content_of r ∧
    d_next_attempt_at r' = now ∧ d_retry_deadline r' = now + hours24 ∧
    has_event db' (Delivery.ID d) (d_generation r') = true ∧
    replay_audits db' !! aid = Some u ∧
    u = AuditRow (Delivery.ID d) (d_generation r) (d_generation r') operator reason now ∧
    is_Some (callers db !! operator).
Proof. apply Replay_Ok. Qed.
End replay.

(** ** The concrete run *)

Lemma fresh_gen_inj n id id' : fresh_gen id n = fresh_gen id' n → id = id'.
Proof. unfold fresh_gen. by intros ?%(inj _)%(inj _). Qed.

Lemma prefix_mark s : String.prefix "u" ("u" +:+ s) = true.
Proof. by destruct s. Qed.

(** A table whose keys do not start with the mark of [fresh_gen]. *)
Lemma fresh_gen_fresh {R} db (m : gmap string R) n :
  forallb (λ k, negb (String.prefix "u" k)) (map_to_list m).*1 = true → fresh_uuids fresh_gen n db m.
Proof.
  intros Hall id r0 _. split; [|intros id' _ _; apply fresh_gen_inj].
  destruct (m !! fresh_gen id n) as [r|] eqn:E; [|done].
  rewrite forallb_forall in Hall. specialize (Hall (fresh_gen id n)).
  assert (In (fresh_gen id n) (map_to_list m).*1) as Hin.
  { apply list_elem_of_In, list_elem_of_fmap. exists (fresh_gen id n, r). split; [done|].
    by apply elem_of_map_to_list. }
  specialize (Hall Hin). unfold fresh_gen in Hall. by rewrite prefix_mark in Hall.
Qed.

Lemma scan_all_covers {R} (m : gmap string R) : covers (scan_all m) m.
Proof.
  intros id [r Hr]. apply list_elem_of_fmap. exists (id, r). split; [done|].
  by apply elem_of_map_to_list.
Qed.

Lemma claim_decides_witness :
  (∃ r v, let r' := claimed_row (still (noon + second)) id0 "w1"
      (default "" (d_lease_token (row0 db_claimed))) (interval 30000000000) r in
    deliveries db_sub !! id0 = Some r ∧
    claimable 0 (noon + second) (noon + second) r = true ∧
    destination_versions db_sub !! (d_destination_id r, d_destination_version r) = Some v ∧
    claimed =
      (Ok (leased_delivery id0 r', destination_of (d_destination_id r) (d_destination_version r) v),
       set_deliveries (<[id0 := r']> (deliveries db_sub)) db_sub)) ∨
  ((∀ r, deliveries db_sub !! id0 = Some r →
      claimable 0 (noon + second) (noon + second) r = false) ∧
   claimed = (Err ErrDeliveryNotClaimable, db_sub)).
Proof.
  apply (claim_decides (still (noon + second)) (draws 2) id0 id0 0 "w1" 30000000000);
    [apply (reachable_Inv _ _ sub_reachable)|vm_compute; reflexivity|discriminate|lia|
     vm_compute; reflexivity].
Defined.

Lemma fenced_result_is_committed_witness : ∃ aid,
  succeeded = (Ok tt, set_delivery_attempts
    (<[aid := attempt_of id0 (default "" (d_lease_token (row0 db_claimed))) ClassSucceeded
               (result_of db_claimed "")]> (delivery_attempts db_claimed))
    (set_deliveries
      (<[id0 := completed_row (noon + 2 * second) ClassSucceeded None (row0 db_claimed)]>
         (deliveries db_claimed)) db_claimed)).
Proof.
  eexists. apply (fenced_result_is_committed (still (noon + 2 * second)) (draws 3)
    (result_of db_claimed "") ClassSucceeded None db_claimed id0);
    [apply (reachable_Inv _ _ claimed_reachable)|vm_compute; reflexivity..| |discriminate].
  vm_compute. discriminate.
Defined.

Lemma due_retries_are_scheduled_witness :
  (∃ n db', ScheduleDueRetries healthy (still (noon + 10 * second)) (scan_all (deliveries db_retry))
             fresh_gen 10 db_retry = (Ok n, db') ∧ has_event db' id0 1 = true) ∧
  (∃ n db' r', ScheduleDueRetries healthy (still (noon + 25 * hour)) (scan_all (deliveries db_retry))
             fresh_gen 10 db_retry = (Ok n, db') ∧
     deliveries db' !! id0 = Some r' ∧ d_status r' = StatusFailedPermanent).
Proof.
  assert (Hf : fresh_uuids fresh_gen 0 db_retry (outbox_events db_retry)).
  { apply fresh_gen_fresh. vm_compute. reflexivity. }
  split.
  - destruct (due_retries_are_scheduled (still (noon + 10 * second)) (scan_all (deliveries db_retry))
      fresh_gen 10 db_retry (reachable_Inv _ _ retry_reachable) ltac:(lia) Hf) as (n & db' & Hx & _ & Hdue).
    exists n, db'. split; [exact Hx|].
    apply (Hdue (scan_all_covers _)) with (id := id0) (r := row0 db_retry);
      vm_compute; reflexivity || discriminate.
  - destruct (due_retries_are_scheduled (still (noon + 25 * hour)) (scan_all (deliveries db_retry))
      fresh_gen 10 db_retry (reachable_Inv _ _ retry_reachable) ltac:(lia) Hf) as (n & db' & Hx & Hpast & _).
    destruct (Hpast id0 (row0 db_retry)) as (r' & Hr' & Hs & _);
      [vm_compute; reflexivity|vm_compute; reflexivity|vm_compute; discriminate|].
    exists n, db', r'. split; [exact Hx|]. split; [exact Hr'|exact Hs].
Defined.

Lemma claimed_only id r : deliveries db_claimed !! id = Some r → r = row0 db_claimed.
Proof.
  unfold row0. rewrite <- (list_to_map_to_list (deliveries db_claimed)).
  set (l := map_to_list (deliveries db_claimed)). vm_compute in l. subst l. simpl.
  rewrite lookup_insert_Some, lookup_empty. intros [[_ <-]|[_ ?]]; [|done].
  vm_compute. reflexivity.
Qed.

Lemma expired_leases_are_recovered_witness :
  ∃ n db', RecoverExpiredDeliveries healthy (still (noon + hour)) (scan_all (deliveries db_claimed))
             fresh_gen 10 db_claimed = (Ok n, db') ∧
    has_event db' id0 1 = true ∧
    ∃ r', deliveries db' !! id0 = Some r' ∧ d_status r' = StatusPending ∧ d_generation r' = 1.
Proof.
  destruct (expired_leases_are_recovered (still (noon + hour)) (scan_all (deliveries db_claimed))
    fresh_gen 10 db_claimed) as (n & db' & Hx & Hrec).
  - apply (reachable_Inv _ _ claimed_reachable).
  - lia.
  - intros id r ->%claimed_only _.
    split; vm_compute; reflexivity || discriminate.
  - apply fresh_gen_fresh. vm_compute. reflexivity.
  - apply fresh_gen_fresh. vm_compute. reflexivity.
  - apply scan_all_covers.
  - vm_compute. discriminate.
  - exists n, db'. split; [exact Hx|].
    destruct (Hrec id0 (row0 db_claimed) (default 0 (d_lease_until (row0 db_claimed))))
      as (r' & aid & a & Hd & _ & _ & _ & _ & _ & _ & Hb & _); [vm_compute; reflexivity|
       vm_compute; reflexivity|vm_compute; reflexivity|vm_compute; discriminate|reflexivity|].
    destruct Hb as (Hs & Hg & _ & _ & He); [vm_compute; reflexivity|].
    assert (Hz : d_generation (row0 db_claimed) = 0) by (vm_compute; reflexivity).
    rewrite Hz in Hg, He. split; [exact He|]. exists r'. split; [exact Hd|]. split; [exact Hs|exact Hg].
Defined.

(** A success is kept for a week, and gone the day after. *)
Definition week : Z := 7 * 24 * 3600 * 1000000000.
Definition sweep (t : Z) : DB :=
  (DeleteExpiredTerminal healthy (still (noon + t)) (scan_all (deliveries db_succeeded))
     week (4 * week) 10 db_succeeded).2.

Lemma retention_removes_only_old_terminal_witness :
  deliveries (sweep (6 * 24 * hour)) !! id0 = Some (row0 db_succeeded) ∧
  deliveries (sweep (8 * 24 * hour)) !! id0 = None ∧
  ∀ aid a, delivery_attempts (sweep (8 * 24 * hour)) !! aid = Some a → a_delivery_id a ≠ id0.
Proof.
  split.
  - destruct (retention_removes_only_old_terminal healthy (still (noon + 6 * 24 * hour))
      (scan_all (deliveries db_succeeded)) week (4 * week) 10 db_succeeded _ _
      (surjective_pairing _) id0 (row0 db_succeeded)) as [Hk|([[_ Ho]|[Hs _]] & _)];
      [vm_compute; reflexivity|exact Hk| |].
    + exfalso. revert Ho. vm_compute. intros Ho. by apply Ho.
    + exfalso. revert Hs. vm_compute. discriminate.
  - destruct (retention_removes_only_old_terminal healthy (still (noon + 8 * 24 * hour))
      (scan_all (deliveries db_succeeded)) week (4 * week) 10 db_succeeded _ _
      (surjective_pairing _) id0 (row0 db_succeeded)) as [Hk|(_ & Hn & _ & Ha & _)];
      [vm_compute; reflexivity| |split; [exact Hn|exact Ha]].
    exfalso. revert Hk. vm_compute. discriminate.
Defined.

Lemma no_delivery_is_forgotten_witness :
  lease_expired (still (noon + hour)) id0 (row0 db_claimed) = true.
Proof.
  destruct (no_delivery_is_forgotten (noon + hour) 60000 db_claimed id0 (row0 db_claimed))
    as [(eid & e & He & Hf & _)|[Hx|[Hx|Hx]]].
  - apply (reachable_Inv _ _ claimed_reachable).
  - vm_compute. reflexivity.
  - vm_compute. reflexivity.
  - vm_compute. discriminate.
  - intros u Hu. vm_compute in Hu. injection Hu as <-. vm_compute. discriminate.
  - intros eid e He _. revert He.
    rewrite <- (list_to_map_to_list (outbox_events db_claimed)).
    set (l := map_to_list (outbox_events db_claimed)). vm_compute in l. subst l. simpl.
    rewrite lookup_insert_Some, lookup_empty. intros [[_ <-]|[_ ?]]; [|done].
    split_and!; [vm_compute; discriminate|discriminate..].
  - vm_compute. reflexivity.
  - exfalso. revert Hx. vm_compute. discriminate.
  - exact Hx.
  - exfalso. revert Hx. vm_compute. discriminate.
Defined.

Definition replayed : result error Delivery.t * DB :=
  Replay healthy (at_ hour) (draws 6) id0 "shop" "supplier fixed" db_failed.

Lemma replay_restarts_and_audits_witness : ∃ d r',
  replayed.1 = Ok d ∧ deliveries replayed.2 !! Delivery.ID d = Some r' ∧
  d_status r' = StatusPending ∧ d_retry_deadline r' = noon + hour + hours24.
Proof.
  destruct replayed as [[d|e] db'] eqn:E; [|exfalso; revert E; vm_compute; discriminate].
  destruct (replay_restarts_and_audits healthy (at_ hour) (draws 6) id0 "shop" "supplier fixed"
    db_failed d db' E) as (r & r' & aid & u & _ & _ & _ & Hr' & _ & Hs & _ & _ & _ & Hd & _).
  exists d, r'. repeat split; [exact Hr'|exact Hs|exact Hd].
Defined.
