(* ===== verification/Hash.v ===== *)
(** * internal/delivery/hash.go

    Canonical caller headers and the request hash that decides whether two
    submissions under one idempotency key are the same request.  A Go map is
    enumerated in an unspecified order, so the loops over maps take the order
    as an argument. *)

From S2P Require Import Prelude GoStrings Sha256 Model Scenario.
From Stdlib Require Import Ascii.

Local Open Scope Z_scope.

Inductive header_error : Type :=
  | ErrDuplicateHeader
  | ErrInvalidHeader.

Module HashInput.
Record t := mk {
  DestinationID : string;
  DestinationVersion : Z;
  Method : string;
  CallerHeaders : gmap string string;
  Body : string
}.
End HashInput.

(** An order in which [range m] can visit the map. *)
Definition enumerates (order : list (string * string)) (m : gmap string string) : Prop :=
  order ≡ₚ map_to_list m.

(** The characters of "()<>@,;:\\" and so on. *)
Definition separators : list Z :=
  [40; 41; 60; 62; 64; 44; 59; 58; 92; 34; 47; 91; 93; 63; 61; 123; 125; 32; 9].

Definition validHeaderName (name : string) : bool :=
  negb (String.eqb name "") &&
  forallb (λ c, negb ((c <? 33) || (126 <? c) || bool_decide (c ∈ separators)))
    (range_runes name).

Definition validHeaderValue (value : string) : bool :=
  forallb (λ c, negb ((c =? 13) || (c =? 10) || (c =? 127) || ((c <? 32) && negb (c =? 9))))
    (range_runes value).

(** [strings.Trim(value, " \t")] *)
Definition blanks : string := string_of [32; 9].
Definition trimOptionalWhitespace (value : string) : string := Trim value blanks.

(** The bytes written to the digest so far. *)
Definition writeHashField (digest : list Z) (value : string) : list Z :=
  digest ++ big_endian 8 (len value mod 2 ^ 64) ++ bytes_of value.

Section headers.
Context `{Unicode}.

Definition canonical_name (rawName : string) : string := ToLower (TrimSpace rawName).

Fixpoint canonical_loop (order : list (string * string)) (headers : gmap string string)
    : result header_error (gmap string string) :=
  match order with
  | [] => Ok headers
  | (rawName, rawValue) :: order =>
      let name := canonical_name rawName in
      if negb (validHeaderName name) || negb (validHeaderValue rawValue)
      then Err ErrInvalidHeader
      else if bool_decide (is_Some (headers !! name)) then Err ErrDuplicateHeader
      else canonical_loop order (<[name := trimOptionalWhitespace rawValue]> headers)
  end.

Definition CanonicalCallerHeaders (order : list (string * string))
    : result header_error (gmap string string) := canonical_loop order ∅.

(** [names] after [sort.Strings]; [keys] is the order of the second loop. *)
Definition sorted_names (keys : list string) : list string := merge_sort String.le keys.

Definition hash_fields (input : HashInput.t) (headers : gmap string string)
    (keys : list string) : list string :=
  [HashInput.DestinationID input;
   FormatInt (HashInput.DestinationVersion input);
   ToUpper (HashInput.Method input)] ++
  mjoin ((λ name, [name; default "" (headers !! name)]) <$> sorted_names keys) ++
  [HashInput.Body input].

(** What is written to the digest. *)
Definition digest_input (input : HashInput.t) (headers : gmap string string) (keys : list string)
    : string := string_of (foldl writeHashField [] (hash_fields input headers keys)).

Definition RequestHash (order : list (string * string)) (keys : gmap string string → list string)
    (input : HashInput.t) : result header_error (list Z) :=
  headers ← CanonicalCallerHeaders order;
  Ok (sha256 (digest_input input headers (keys headers))).
End headers.

(** The second loop's order is one of the map's. *)
Definition key_orders (keys : gmap string string → list string) : Prop :=
  ∀ m, keys m ≡ₚ (map_to_list m).*1.

(** ** Sorting removes the order *)

Lemma sorted_names_unique keys keys' :
  keys ≡ₚ keys' → sorted_names keys = sorted_names keys'.
Proof.
  intros Hp. unfold sorted_names. apply (StronglySorted_unique String.le).
  - apply StronglySorted_merge_sort; apply _.
  - apply StronglySorted_merge_sort; apply _.
  - by rewrite !merge_sort_Permutation.
Qed.

Section canonical.
Context `{Unicode}.

(** What the loop computes: every header valid, canonical names distinct. *)
Definition canonical_pairs (order : list (string * string)) : list (string * string) :=
  (λ kv, (canonical_name kv.1, trimOptionalWhitespace kv.2)) <$> order.

Definition all_valid (order : list (string * string)) : Prop :=
  Forall (λ kv, validHeaderName (canonical_name kv.1) = true ∧ validHeaderValue kv.2 = true) order.

Lemma canonical_loop_Ok order acc m :
  canonical_loop order acc = Ok m ↔
  all_valid order ∧ NoDup (canonical_pairs order).*1 ∧
  (∀ k, k ∈ (canonical_pairs order).*1 → acc !! k = None) ∧
  m = list_to_map (canonical_pairs order) ∪ acc.
Proof.
  revert acc. induction order as [|[k v] order IH]; intros acc; csimpl.
  { rewrite (left_id_L ∅ (∪)). unfold all_valid. split; [|naive_solver].
    intros [= ->]. split_and!; try done; [constructor|]. intros ? []%not_elem_of_nil. }
  set (name := canonical_name k). unfold all_valid in *. rewrite Forall_cons. csimpl. fold name.
  destruct (validHeaderName name); simpl; [|naive_solver].
  destruct (validHeaderValue v); simpl; [|naive_solver].
  destruct (acc !! name) as [w|] eqn:Ha; simpl.
  { split; [done|]. intros (_ & _ & Hacc & _). rewrite Hacc in Ha; [done|left]. }
  rewrite IH, NoDup_cons. split.
  - intros (Hv & Hnd & Hacc & ->). split_and!; try done.
    + intros Hin. specialize (Hacc _ Hin). by rewrite lookup_insert_eq in Hacc.
    + intros k' [->|Hin]%elem_of_cons; [done|]. specialize (Hacc _ Hin).
      by apply lookup_insert_None in Hacc as [? _].
    + rewrite <- insert_union_r, insert_union_l; [done|].
      apply not_elem_of_list_to_map_1. intros Hin. specialize (Hacc _ Hin).
      by rewrite lookup_insert_eq in Hacc.
  - intros ([_ Hv] & [Hn Hnd] & Hacc & ->). split_and!; try done.
    + intros k' Hin. rewrite lookup_insert_ne; [apply Hacc; by right|]. by intros ->.
    + rewrite <- insert_union_r, insert_union_l; [done|]. by apply not_elem_of_list_to_map_1.
Qed.

Lemma CanonicalCallerHeaders_Ok order m :
  CanonicalCallerHeaders order = Ok m ↔
  all_valid order ∧ NoDup (canonical_pairs order).*1 ∧ m = list_to_map (canonical_pairs order).
Proof.
  unfold CanonicalCallerHeaders. rewrite canonical_loop_Ok, (right_id_L ∅ (∪)).
  naive_solver (auto using lookup_empty).
Qed.

Lemma CanonicalCallerHeaders_order order order' m :
  order ≡ₚ order' → CanonicalCallerHeaders order = Ok m → CanonicalCallerHeaders order' = Ok m.
Proof.
  intros Hp. rewrite !CanonicalCallerHeaders_Ok. intros (Hv & Hnd & ->).
  assert (Hpp : canonical_pairs order ≡ₚ canonical_pairs order')
    by (unfold canonical_pairs; by rewrite Hp).
  split_and!.
  - unfold all_valid in *. by rewrite <- Hp.
  - by rewrite <- Hpp.
  - by apply list_to_map_proper.
Qed.
End canonical.

(** ** Reading the digest's input back *)

Lemma length_big_endian n x : length (big_endian n x) = n.
Proof. induction n; simpl; congruence. Qed.

Lemma be_value_big_endian n x : be_value (big_endian n x) = x mod 256 ^ Z.of_nat n.
Proof.
  induction n as [|n IH]; [by rewrite Z.mod_1_r|]. cbn [big_endian be_value].
  rewrite IH, length_big_endian, Nat2Z.inj_succ, Z.pow_succ_r by lia.
  rewrite (Z.mul_comm 256), Z.rem_mul_r; lia.
Qed.

Definition field (value : string) : list Z :=
  big_endian 8 (len value mod 2 ^ 64) ++ bytes_of value.

Definition fits (s : string) : Prop := len s < 2 ^ 64.

Lemma foldl_writeHashField fields acc :
  foldl writeHashField acc fields = acc ++ mjoin (field <$> fields).
Proof.
  revert acc. induction fields as [|f fields IH]; intros acc; simpl; [by rewrite app_nil_r|].
  rewrite IH. unfold writeHashField. by rewrite <- !app_assoc.
Qed.

Lemma field_inj v v' r r' :
  fits v → fits v' → field v ++ r = field v' ++ r' → v = v' ∧ r = r'.
Proof.
  unfold fits, field. intros Hf Hf' Heq. rewrite <- !app_assoc in Heq.
  apply app_inj_1 in Heq as [Hl Hr]; [|by rewrite !length_big_endian].
  apply (f_equal be_value) in Hl. rewrite !be_value_big_endian in Hl.
  change (256 ^ Z.of_nat 8) with (2 ^ 64) in Hl.
  assert (0 ≤ len v ∧ 0 ≤ len v') as [? ?] by (unfold len; lia).
  rewrite !Z.mod_mod, !Z.mod_small in Hl by lia.
  apply app_inj_1 in Hr as [Hb ->].
  - split; [by apply bytes_of_inj|done].
  - rewrite !length_bytes_of. unfold len in Hl. lia.
Qed.

Lemma mjoin_fields_cons v l : mjoin (field <$> v :: l) = field v ++ mjoin (field <$> l).
Proof. done. Qed.

Lemma fields_inj l l' :
  Forall fits l → Forall fits l' → mjoin (field <$> l) = mjoin (field <$> l') → l = l'.
Proof.
  intros Hl. revert l'. induction Hl as [|v l Hv Hl IH]; intros [|v' l'] Hl'; rewrite ?mjoin_fields_cons; [done| | |].
  - intros Heq. apply (f_equal length) in Heq. unfold field in Heq.
    rewrite !length_app, length_big_endian in Heq. simpl in Heq. lia.
  - intros Heq. apply (f_equal length) in Heq. unfold field in Heq.
    rewrite !length_app, length_big_endian in Heq. simpl in Heq. lia.
  - inversion Hl'; subst. intros [-> Heq]%field_inj; [|done..]. f_equal. auto.
Qed.

(** ** The hash identifies the request *)

Lemma pairs_inj (f f' : string → string) l l' :
  mjoin ((λ n, [n; f n]) <$> l) = mjoin ((λ n, [n; f' n]) <$> l') →
  l = l' ∧ Forall (λ n, f n = f' n) l.
Proof.
  revert l'. induction l as [|n l IH]; intros [|n' l']; csimpl; try done.
  intros Heq. injection Heq as -> Hf Heq. apply IH in Heq as [-> Hall]. split; [done|]. by constructor.
Qed.

Section request_hash.
Context `{Unicode}.

Definition fits_request (input : HashInput.t) (headers : gmap string string) : Prop :=
  fits (HashInput.DestinationID input) ∧ fits (ToUpper (HashInput.Method input)) ∧
  fits (HashInput.Body input) ∧ is_int64 (HashInput.DestinationVersion input) ∧
  map_Forall (λ k v, fits k ∧ fits v) headers.

(** The request up to what the hash ignores: the case of the method, the
    case and padding of header names and the padding of values. *)
Definition same_request (input input' : HashInput.t) (headers headers' : gmap string string)
    : Prop :=
  HashInput.DestinationID input = HashInput.DestinationID input' ∧
  HashInput.DestinationVersion input = HashInput.DestinationVersion input' ∧
  ToUpper (HashInput.Method input) = ToUpper (HashInput.Method input') ∧
  headers = headers' ∧ HashInput.Body input = HashInput.Body input'.

Lemma length_FormatInt n : fits (FormatInt n).
Proof.
  assert (Hd : ∀ fuel k acc, (String.length (format_digits fuel k acc) ≤ fuel + String.length acc)%nat).
  { induction fuel as [|fuel IH]; intros k acc; simpl; [lia|].
    destruct (_ =? 0); simpl; [lia|]. etrans; [apply IH|]. simpl. lia. }
  unfold fits, len, FormatInt. destruct (n <? 0).
  - pose proof (Hd 20%nat (- n) "") as H1. cbn [String.length] in *. lia.
  - pose proof (Hd 20%nat n "") as H1. cbn [String.length] in *. lia.
Qed.

Lemma hash_fields_fit input headers keys :
  fits_request input headers → keys ≡ₚ (map_to_list headers).*1 →
  Forall fits (hash_fields input headers keys).
Proof.
  intros (Hd & Hm & Hb & _ & Hh) Hk. unfold hash_fields, sorted_names.
  rewrite !Forall_app. split_and!.
  - repeat constructor; auto using length_FormatInt.
  - apply Forall_forall. intros s Hs.
    apply list_elem_of_join in Hs as (p & Hs & Hp).
    apply list_elem_of_fmap in Hp as (n & -> & Hn).
    rewrite merge_sort_Permutation, Hk in Hn.
    apply list_elem_of_fmap in Hn as ([k v] & -> & Hkv). apply elem_of_map_to_list in Hkv.
    destruct (Hh _ _ Hkv). simpl in Hs. rewrite Hkv in Hs.
    apply elem_of_cons in Hs as [->|Hs]; [done|]. by apply list_elem_of_singleton in Hs as ->.
  - by repeat constructor.
Qed.

(** The fields determine the request. *)
Lemma hash_fields_inj input input' headers headers' keys keys' :
  is_int64 (HashInput.DestinationVersion input) → is_int64 (HashInput.DestinationVersion input') →
  keys ≡ₚ (map_to_list headers).*1 → keys' ≡ₚ (map_to_list headers').*1 →
  hash_fields input headers keys = hash_fields input' headers' keys' →
  same_request input input' headers headers'.
Proof.
  intros Hv Hv' Hk Hk' Heq. unfold hash_fields in Heq. simpl in Heq.
  injection Heq as Hd Hver Hm Hrest. apply app_inj_tail in Hrest as [Hp Hb].
  apply pairs_inj in Hp as [Hn Hall]. split_and!; try done; [by apply FormatInt_inj|].
  assert (Hdom : ∀ (h : gmap string string) ks n,
    ks ≡ₚ (map_to_list h).*1 → n ∈ sorted_names ks ↔ is_Some (h !! n)).
  { intros h ks n Hks. unfold sorted_names. rewrite merge_sort_Permutation, Hks, list_elem_of_fmap.
    split; [intros ([k v] & -> & Hkv); apply elem_of_map_to_list in Hkv; by eexists|].
    intros [v Hkv]. exists (n, v). by rewrite elem_of_map_to_list. }
  apply map_eq. intros n. rewrite Forall_forall in Hall.
  destruct (headers !! n) as [v|] eqn:E, (headers' !! n) as [v'|] eqn:E'; try done.
  - specialize (Hall n). rewrite (Hdom headers), E, E' in Hall by done.
    f_equal. apply Hall. by eexists.
  - exfalso. assert (n ∈ sorted_names keys) as Hin by (rewrite (Hdom headers), E by done; by eexists).
    rewrite Hn, (Hdom headers'), E' in Hin by done. by destruct Hin.
  - exfalso. assert (n ∈ sorted_names keys') as Hin by (rewrite (Hdom headers'), E' by done; by eexists).
    rewrite <- Hn, (Hdom headers), E in Hin by done. by destruct Hin.
Qed.

(** The request hash does not depend on the order in which the Go maps
    are visited: any two visits of the same headers accept or refuse alike
    and give the same hash. *)
Theorem request_hash_ignores_map_order m order order' keys keys' input :
  enumerates order m → enumerates order' m → key_orders keys → key_orders keys' →
  is_ok (RequestHash order keys input) = is_ok (RequestHash order' keys' input) ∧
  (∀ h, RequestHash order keys input = Ok h → RequestHash order' keys' input = Ok h).
Proof.
  intros Ho Ho' Hk Hk'. assert (Hp : order ≡ₚ order') by (etrans; [exact Ho|by symmetry]).
  assert (Hs : ∀ o k o' k' h, key_orders k → key_orders k' → o ≡ₚ o' →
    RequestHash o k input = Ok h → RequestHash o' k' input = Ok h).
  { unfold RequestHash. intros o k o' k' h Hke Hke' Hoo Hx.
    apply result_bind_Ok in Hx as (hs & Hc & Hx).
    rewrite (CanonicalCallerHeaders_order _ _ _ Hoo Hc). simpl. rewrite <- Hx. do 2 f_equal.
    unfold digest_input, hash_fields. by rewrite (sorted_names_unique (k hs) (k' hs)) by (etrans; [apply Hke|symmetry; apply Hke']). }
  split; [|intros h; by apply Hs].
  destruct (RequestHash order keys input) as [h|e] eqn:E.
  - by rewrite (Hs _ _ _ _ _ Hk Hk' Hp E).
  - destruct (RequestHash order' keys' input) as [h|e'] eqn:E'; [|done].
    rewrite (Hs order' keys' order keys h) in E; done.
Qed.

Lemma big_endian_bytes n x : Forall is_byte (big_endian n x).
Proof. induction n; simpl; constructor; [|done]. unfold is_byte. apply Z.mod_pos_bound. lia. Qed.

Lemma fields_bytes l : Forall is_byte (mjoin (field <$> l)).
Proof.
  induction l as [|v l IH]; [constructor|]. rewrite mjoin_fields_cons. unfold field.
  repeat apply Forall_app_2; auto using big_endian_bytes, bytes_of_range.
Qed.

Lemma bytes_of_digest_input input headers keys :
  bytes_of (digest_input input headers keys) = mjoin (field <$> hash_fields input headers keys).
Proof.
  unfold digest_input. rewrite foldl_writeHashField, app_nil_l.
  apply bytes_of_string_of, fields_bytes.
Qed.

(** The digest input determines the request. *)
Lemma digest_input_inj input input' headers headers' keys keys' :
  keys ≡ₚ (map_to_list headers).*1 → keys' ≡ₚ (map_to_list headers').*1 →
  fits_request input headers → fits_request input' headers' →
  digest_input input headers keys = digest_input input' headers' keys' →
  same_request input input' headers headers'.
Proof.
  intros Hk Hk' Hf Hf' Heq. apply (f_equal bytes_of) in Heq. rewrite !bytes_of_digest_input in Heq.
  apply fields_inj in Heq; [|by apply hash_fields_fit..].
  eapply hash_fields_inj; [apply Hf|apply Hf'|exact Hk|exact Hk'|exact Heq].
Qed.

(** C26: two submissions with the same hash are the same request - same
    destination version, method up to case, canonical headers and body - or
    the two byte strings written to the digest for them, which then differ,
    are a SHA-256 collision. *)
Theorem equal_hash_is_same_request order order' keys keys' input input' headers headers' h :
  key_orders keys → key_orders keys' →
  CanonicalCallerHeaders order = Ok headers → CanonicalCallerHeaders order' = Ok headers' →
  fits_request input headers → fits_request input' headers' →
  RequestHash order keys input = Ok h → RequestHash order' keys' input' = Ok h →
  same_request input input' headers headers' ∨
  (digest_input input headers (keys headers) ≠ digest_input input' headers' (keys' headers') ∧
   sha256 (digest_input input headers (keys headers)) =
     sha256 (digest_input input' headers' (keys' headers'))).
Proof.
  intros Hk Hk' Hc Hc' Hf Hf'. unfold RequestHash. rewrite Hc, Hc'.
  unfold mbind, result_bind. intros Hh%Ok_inj Hh'%Ok_inj.
  destruct (decide (digest_input input headers (keys headers) =
    digest_input input' headers' (keys' headers'))) as [Heq|Hne].
  - left. exact (digest_input_inj _ _ _ _ _ _ (Hk _) (Hk' _) Hf Hf' Heq).
  - right. split; [done|congruence].
Qed.
End request_hash.

(** ** The concrete run *)

Definition input0 : HashInput.t :=
  HashInput.mk "billing" 1 "post" {["X-Event" := " paid "]} "paid".
Definition visit0 : list (string * string) := map_to_list (HashInput.CallerHeaders input0).
Definition keys0 (m : gmap string string) : list string := (map_to_list m).*1.
Definition keys1 (m : gmap string string) : list string := reverse (map_to_list m).*1.

Lemma keys0_orders : key_orders keys0.
Proof. intros m. reflexivity. Qed.
Lemma keys1_orders : key_orders keys1.
Proof. intros m. unfold keys1. by rewrite reverse_Permutation. Qed.

Lemma request_hash_ignores_map_order_witness :
  RequestHash visit0 keys0 input0 = RequestHash visit0 keys1 input0.
Proof.
  destruct (request_hash_ignores_map_order (HashInput.CallerHeaders input0) visit0 visit0 keys0 keys1
    input0) as [_ Hh]; [unfold enumerates; reflexivity|unfold enumerates; reflexivity|apply keys0_orders|apply keys1_orders|].
  destruct (RequestHash visit0 keys0 input0) as [h|e] eqn:E.
  - symmetry. by apply Hh.
  - exfalso. revert E. vm_compute. discriminate.
Defined.

(** The same request spelled differently. *)
Definition input1 : HashInput.t := HashInput.mk "billing" 1 "POST" {["x-event" := "paid"]} "paid".
Definition visit1 : list (string * string) := map_to_list (HashInput.CallerHeaders input1).
Definition hash0 : list Z :=
  match RequestHash visit0 keys0 input0 with Ok h => h | Err _ => [] end.

Lemma equal_hash_is_same_request_witness :
  same_request input0 input1 {["x-event" := "paid"]} {["x-event" := "paid"]}.
Proof.
  destruct (equal_hash_is_same_request visit0 visit1 keys0 keys0 input0 input1
    {["x-event" := "paid"]} {["x-event" := "paid"]} hash0) as [Hsame|[Hne _]];
    [apply keys0_orders|apply keys0_orders|vm_compute; reflexivity|vm_compute; reflexivity| | |
     vm_compute; reflexivity|vm_compute; reflexivity|exact Hsame|].
  1, 2: unfold fits_request; rewrite map_Forall_singleton; split_and!; vm_compute; split_and?;
    reflexivity || discriminate.
  exfalso. apply Hne. vm_compute. reflexivity.
Defined.
