(* ===== verification/Netip.v ===== *)
(** * The address policy of internal/outbound/client.go

    The part of package [net/netip] the client uses, the list of forbidden
    prefixes and [forbidden] itself; then its equivalence with a table of
    address ranges. *)

From S2P Require Import Prelude GoStrings.

Local Open Scope Z_scope.

(** ** netip.Addr without zones: a 32-bit or a 128-bit number *)

Inductive Addr : Type :=
  | V4 (n : Z)
  | V6 (n : Z).

(** [netip.AddrFromSlice] *)
Definition AddrFromSlice (slice : list Z) : option Addr :=
  match length slice with
  | 4%nat => Some (V4 (be_value slice))
  | 16%nat => Some (V6 (be_value slice))
  | _ => None
  end.

(** [Is4In6] and [Unmap]: ::ffff:a.b.c.d stands for a.b.c.d. *)
Definition Is4In6 (n : Z) : bool := Z.shiftr n 32 =? 65535.

Definition Unmap (a : Addr) : Addr :=
  match a with
  | V6 n => if Is4In6 n then V4 (Z.land n (2 ^ 32 - 1)) else a
  | V4 _ => a
  end.

(** The i-th byte of an IPv4 address; the first sixteen bits of an IPv6 one. *)
Definition v4 (n i : Z) : Z := Z.land (Z.shiftr n (24 - 8 * i)) 255.
Definition v6u16 (n : Z) : Z := Z.shiftr n 112.

Definition IsLoopback (a : Addr) : bool :=
  match a with V4 n => v4 n 0 =? 127 | V6 n => n =? 1 end.

Definition IsMulticast (a : Addr) : bool :=
  match a with
  | V4 n => Z.land (v4 n 0) 240 =? 224
  | V6 n => Z.shiftr n 120 =? 255
  end.

Definition IsLinkLocalUnicast (a : Addr) : bool :=
  match a with
  | V4 n => (v4 n 0 =? 169) && (v4 n 1 =? 254)
  | V6 n => Z.land (v6u16 n) 65472 =? 65152
  end.

Definition IsPrivate (a : Addr) : bool :=
  match a with
  | V4 n => (v4 n 0 =? 10) || ((v4 n 0 =? 172) && (Z.land (v4 n 1) 240 =? 16)) ||
            ((v4 n 0 =? 192) && (v4 n 1 =? 168))
  | V6 n => Z.land (Z.shiftr n 120) 254 =? 252
  end.

Definition IsUnspecified (a : Addr) : bool :=
  match a with V4 n => n =? 0 | V6 n => n =? 0 end.

Definition IsGlobalUnicast (a : Addr) : bool :=
  match a with
  | V4 n => negb ((n =? 0) || (n =? 2 ^ 32 - 1))
  | V6 n => negb (n =? 0)
  end && negb (IsLoopback a) && negb (IsMulticast a) && negb (IsLinkLocalUnicast a).

(** ** netip.Prefix *)

Record Prefix := mkPrefix { prefix_ip : Addr; prefix_bits : Z }.

Definition Contains (p : Prefix) (a : Addr) : bool :=
  match prefix_ip p, a with
  | V4 q, V4 n => Z.shiftr (Z.lxor n q) (32 - prefix_bits p) =? 0
  | V6 q, V6 n => Z.shiftr (Z.lxor n q) (128 - prefix_bits p) =? 0
  | _, _ => false
  end.

Definition p4 (a b c d bits : Z) : Prefix := mkPrefix (V4 (be_value [a; b; c; d])) bits.

(** An IPv6 prefix by its leading 16-bit groups; the others are zero. *)
Definition groups (l : list Z) : Z :=
  foldl (λ acc g, acc * 65536 + g) 0 (take 8 (l ++ replicate 8 0)).
Definition p6 (l : list Z) (bits : Z) : Prefix := mkPrefix (V6 (groups l)) bits.

Definition forbiddenPrefixes : list Prefix :=
  [p4 0 0 0 0 8; p4 100 64 0 0 10; p4 192 0 0 0 24; p4 192 0 2 0 24; p4 192 88 99 0 24;
   p4 192 31 196 0 24; p4 192 175 48 0 24; p4 198 18 0 0 15; p4 198 51 100 0 24;
   p4 203 0 113 0 24; p4 240 0 0 0 4;
   p6 [0x64; 0xff9b] 96; p6 [0x64; 0xff9b; 1] 48; p6 [0x100] 64; p6 [0x2001] 23;
   p6 [0x2001; 0xdb8] 32; p6 [0x2002] 16; p6 [0x2620; 0x4f; 0x8000] 48; p6 [0x3fff] 20;
   p6 [0x5f00] 16].

Definition forbidden (address : list Z) : bool :=
  match AddrFromSlice address with
  | None => true
  | Some parsed =>
      let parsed := Unmap parsed in
      if negb (IsGlobalUnicast parsed) || IsPrivate parsed || IsLoopback parsed ||
         IsLinkLocalUnicast parsed || IsMulticast parsed || IsUnspecified parsed
      then true
      else existsb (λ prefix, Contains prefix parsed) forbiddenPrefixes
  end.

(** ** The ranges the policy keeps out of reach

    Base and number of leading bits, as address registries list them; the
    range runs from the base over all values of the other bits. *)

Definition reserved4 : list (Z * Z) :=
  [(be_value [0; 0; 0; 0], 8);           (* this network *)
   (be_value [10; 0; 0; 0], 8);          (* private *)
   (be_value [100; 64; 0; 0], 10);       (* shared address space *)
   (be_value [127; 0; 0; 0], 8);         (* loopback *)
   (be_value [169; 254; 0; 0], 16);      (* link local, cloud metadata *)
   (be_value [172; 16; 0; 0], 12);       (* private *)
   (be_value [192; 0; 0; 0], 24);        (* protocol assignments *)
   (be_value [192; 0; 2; 0], 24);        (* documentation *)
   (be_value [192; 31; 196; 0], 24);     (* AS112 *)
   (be_value [192; 88; 99; 0], 24);      (* 6to4 relay *)
   (be_value [192; 168; 0; 0], 16);      (* private *)
   (be_value [192; 175; 48; 0], 24);     (* AS112 *)
   (be_value [198; 18; 0; 0], 15);       (* benchmarking *)
   (be_value [198; 51; 100; 0], 24);     (* documentation *)
   (be_value [203; 0; 113; 0], 24);      (* documentation *)
   (be_value [224; 0; 0; 0], 4);         (* multicast *)
   (be_value [240; 0; 0; 0], 4)].        (* reserved, limited broadcast *)

Definition reserved6 : list (Z * Z) :=
  [(groups [], 128);                     (* unspecified *)
   (groups [0; 0; 0; 0; 0; 0; 0; 1], 128);   (* loopback *)
   (groups [0x64; 0xff9b], 96);          (* NAT64 *)
   (groups [0x64; 0xff9b; 1], 48);       (* local NAT64 *)
   (groups [0x100], 64);                 (* discard *)
   (groups [0x2001], 23);                (* protocol assignments, Teredo *)
   (groups [0x2001; 0xdb8], 32);         (* documentation *)
   (groups [0x2002], 16);                (* 6to4 *)
   (groups [0x2620; 0x4f; 0x8000], 48);  (* AS112 *)
   (groups [0x3fff], 20);                (* documentation *)
   (groups [0x5f00], 16);                (* segment routing *)
   (groups [0xfc00], 7);                 (* unique local *)
   (groups [0xfe80], 10);                (* link local *)
   (groups [0xff00], 8)].                (* multicast *)

Definition in_range (width n : Z) (r : Z * Z) : Prop :=
  r.1 ≤ n < r.1 + 2 ^ (width - r.2).

Definition in_table (width n : Z) (t : list (Z * Z)) : Prop := Exists (in_range width n) t.

(** Whether a well-formed address is out of reach, mapped addresses read as
    the IPv4 addresses they stand for. *)
Definition reserved (a : Addr) : Prop :=
  match a with
  | V4 n => in_table 32 n reserved4
  | V6 n =>
      if decide (be_value [255; 255] * 2 ^ 32 ≤ n < be_value [255; 255] * 2 ^ 32 + 2 ^ 32)
      then in_table 32 (n mod 2 ^ 32) reserved4
      else in_table 128 n reserved6
  end.

(** ** From bits to ranges *)

Lemma shiftr_range n k q : 0 ≤ k → (Z.shiftr n k =? q) = true ↔ q * 2 ^ k ≤ n < q * 2 ^ k + 2 ^ k.
Proof.
  intros Hk. rewrite Z.eqb_eq, Z.shiftr_div_pow2 by lia.
  pose proof (Z.pow_pos_nonneg 2 k ltac:(lia) Hk). split.
  - intros <-. pose proof (Z.div_mod n (2 ^ k)). pose proof (Z.mod_pos_bound n (2 ^ k)). nia.
  - intros ?. symmetry. apply (Z.div_unique n (2 ^ k) q (n - q * 2 ^ k)); lia.
Qed.

Lemma prefix_range n q k : 0 ≤ k →
  (Z.shiftr (Z.lxor n (q * 2 ^ k)) k =? 0) = true ↔ q * 2 ^ k ≤ n < q * 2 ^ k + 2 ^ k.
Proof.
  intros Hk. rewrite <- shiftr_range by done. rewrite !Z.eqb_eq, Z.shiftr_lxor, Z.lxor_eq_0_iff.
  rewrite (Z.shiftr_div_pow2 (q * _)), Z.div_mul by (try apply Z.pow_nonzero; lia). done.
Qed.

Lemma be_value_range l : Forall is_byte l → 0 ≤ be_value l < 256 ^ Z.of_nat (length l).
Proof.
  induction 1 as [|b l Hb _ IH]; simpl be_value; [done|]. simpl length.
  rewrite Nat2Z.inj_succ, Z.pow_succ_r by lia. unfold is_byte in Hb. nia.
Qed.

Lemma v4_digits n : 0 ≤ n < 2 ^ 32 →
  ∃ r, n = v4 n 0 * 2 ^ 24 + v4 n 1 * 2 ^ 16 + r ∧ 0 ≤ r < 2 ^ 16 ∧
    0 ≤ v4 n 0 < 256 ∧ 0 ≤ v4 n 1 < 256.
Proof.
  intros Hn. unfold v4. change 255 with (Z.ones 8).
  rewrite !Z.land_ones, !Z.shiftr_div_pow2 by lia. simpl (24 - _).
  exists (n mod 2 ^ 16). Z.to_euclidean_division_equations. lia.
Qed.

(** A mask of high bits on a small number selects an aligned range. *)
Lemma land_shiftl n m k : 0 ≤ k → Z.land n (Z.shiftl m k) = Z.shiftl (Z.land (Z.shiftr n k) m) k.
Proof.
  intros Hk. apply Z.bits_inj'. intros i Hi. rewrite Z.land_spec, !Z.shiftl_spec by lia.
  destruct (decide (i < k)); [by rewrite !(Z.testbit_neg_r _ (i - k)), andb_false_r by lia|].
  rewrite Z.land_spec, Z.shiftr_spec by lia. by replace (i - k + k) with i by lia.
Qed.

Lemma land_high (width k n q : Z) : 0 ≤ k ≤ width → 0 ≤ n < 2 ^ width →
  (Z.land n (2 ^ width - 2 ^ k) =? q * 2 ^ k) = true ↔ q * 2 ^ k ≤ n < q * 2 ^ k + 2 ^ k.
Proof.
  intros Hk Hn. pose proof (Z.pow_pos_nonneg 2 k ltac:(lia) ltac:(lia)).
  replace (2 ^ width - 2 ^ k) with (Z.shiftl (Z.ones (width - k)) k).
  2: { rewrite Z.shiftl_mul_pow2, Z.ones_equiv by lia.
       replace (2 ^ width) with (2 ^ (width - k) * 2 ^ k) by (rewrite <- Z.pow_add_r by lia; f_equal; lia).
       lia. }
  assert (0 ≤ n / 2 ^ k < 2 ^ (width - k)).
  { split; [apply Z.div_pos; lia|]. apply Z.div_lt_upper_bound; [lia|].
    rewrite <- Z.pow_add_r by lia. replace (k + (width - k)) with width by lia. lia. }
  rewrite land_shiftl, Z.land_ones, Z.shiftr_div_pow2, Z.mod_small, Z.shiftl_mul_pow2 by lia.
  rewrite <- shiftr_range by lia. rewrite !Z.eqb_eq, Z.shiftr_div_pow2 by lia. nia.
Qed.

(** ** The tests as ranges *)

Section ipv4.
Context (n : Z) (Hn : 0 ≤ n < 2 ^ 32).

Lemma IsLoopback_v4 : IsLoopback (V4 n) = true ↔ in_range 32 n (be_value [127; 0; 0; 0], 8).
Proof.
  destruct (v4_digits n Hn) as (r & Hr & ?). unfold IsLoopback, in_range. cbn [fst snd].
  rewrite Z.eqb_eq. cbn. lia.
Qed.

Lemma IsMulticast_v4 : IsMulticast (V4 n) = true ↔ in_range 32 n (be_value [224; 0; 0; 0], 4).
Proof.
  destruct (v4_digits n Hn) as (r & Hr & ?). unfold IsMulticast, in_range. cbn [fst snd].
  change 240 with (2 ^ 8 - 2 ^ 4). change 224 with (14 * 2 ^ 4) at 1. rewrite land_high by lia.
  cbn. lia.
Qed.

Lemma IsLinkLocalUnicast_v4 :
  IsLinkLocalUnicast (V4 n) = true ↔ in_range 32 n (be_value [169; 254; 0; 0], 16).
Proof.
  destruct (v4_digits n Hn) as (r & Hr & ?). unfold IsLinkLocalUnicast, in_range. cbn [fst snd].
  rewrite andb_true_iff, !Z.eqb_eq. cbn. lia.
Qed.

Lemma IsPrivate_v4 :
  IsPrivate (V4 n) = true ↔ in_range 32 n (be_value [10; 0; 0; 0], 8) ∨
    in_range 32 n (be_value [172; 16; 0; 0], 12) ∨ in_range 32 n (be_value [192; 168; 0; 0], 16).
Proof.
  destruct (v4_digits n Hn) as (r & Hr & ?). unfold IsPrivate, in_range. cbn [fst snd].
  change 240 with (2 ^ 8 - 2 ^ 4). change 16 with (1 * 2 ^ 4) at 1.
  rewrite !orb_true_iff, !andb_true_iff, land_high, !Z.eqb_eq by lia. cbn. lia.
Qed.
End ipv4.

Section ipv6.
Context (n : Z) (Hn : 0 ≤ n < 2 ^ 128).

Lemma IsMulticast_v6 : IsMulticast (V6 n) = true ↔ in_range 128 n (groups [0xff00], 8).
Proof. unfold IsMulticast. rewrite shiftr_range by lia. unfold in_range. cbn. lia. Qed.

Lemma IsLinkLocalUnicast_v6 :
  IsLinkLocalUnicast (V6 n) = true ↔ in_range 128 n (groups [0xfe80], 10).
Proof.
  unfold IsLinkLocalUnicast, v6u16. change 65472 with (2 ^ 16 - 2 ^ 6).
  change 65152 with (1018 * 2 ^ 6). rewrite Z.shiftr_div_pow2 by lia.
  rewrite land_high by (try lia; Z.to_euclidean_division_equations; lia).
  unfold in_range. cbn [fst snd groups foldl take app replicate]. 
  Z.to_euclidean_division_equations; lia.
Qed.

Lemma IsPrivate_v6 : IsPrivate (V6 n) = true ↔ in_range 128 n (groups [0xfc00], 7).
Proof.
  unfold IsPrivate. change 254 with (2 ^ 8 - 2 ^ 1). change 252 with (126 * 2 ^ 1).
  rewrite Z.shiftr_div_pow2 by lia.
  rewrite land_high by (try lia; Z.to_euclidean_division_equations; lia).
  unfold in_range. cbn [fst snd groups foldl take app replicate].
  Z.to_euclidean_division_equations; lia.
Qed.
End ipv6.

(** ** The prefix list as ranges *)

Definition aligned (p : Prefix) : bool :=
  match prefix_ip p with
  | V4 q => (q mod 2 ^ (32 - prefix_bits p) =? 0) && (prefix_bits p <=? 32)
  | V6 q => (q mod 2 ^ (128 - prefix_bits p) =? 0) && (prefix_bits p <=? 128)
  end.

Definition range4 (p : Prefix) : option (Z * Z) :=
  match prefix_ip p with V4 q => Some (q, prefix_bits p) | V6 _ => None end.
Definition range6 (p : Prefix) : option (Z * Z) :=
  match prefix_ip p with V6 q => Some (q, prefix_bits p) | V4 _ => None end.

Lemma aligned_range width n q bits :
  q mod 2 ^ (width - bits) = 0 → bits ≤ width →
  (Z.shiftr (Z.lxor n q) (width - bits) =? 0) = true ↔ in_range width n (q, bits).
Proof.
  intros Hq Hb. pose proof (Z.pow_pos_nonneg 2 (width - bits) ltac:(lia) ltac:(lia)).
  rewrite (Z.div_mod q (2 ^ (width - bits))), Hq, Z.add_0_r, Z.mul_comm, prefix_range by lia. done.
Qed.

Lemma Contains_v4 ps n : forallb aligned ps = true →
  existsb (λ p, Contains p (V4 n)) ps = true ↔ in_table 32 n (omap range4 ps).
Proof.
  unfold in_table. induction ps as [|[[q|q] bits] ps IH]; cbn; [by rewrite Exists_nil|..];
    intros [Ha Hps]%andb_true_iff; [|by apply IH].
  unfold aligned in Ha. simpl in Ha. to_prop.
  by rewrite orb_true_iff, IH, Exists_cons, aligned_range by done.
Qed.

Lemma Contains_v6 ps n : forallb aligned ps = true →
  existsb (λ p, Contains p (V6 n)) ps = true ↔ in_table 128 n (omap range6 ps).
Proof.
  unfold in_table. induction ps as [|[[q|q] bits] ps IH]; cbn; [by rewrite Exists_nil|..];
    intros [Ha Hps]%andb_true_iff; [by apply IH|].
  unfold aligned in Ha. simpl in Ha. to_prop.
  by rewrite orb_true_iff, IH, Exists_cons, aligned_range by done.
Qed.

Lemma in_table_split width n t1 t2 t :
  (∀ r, r ∈ t ↔ r ∈ t1 ++ t2) → in_table width n t ↔ in_table width n t1 ∨ in_table width n t2.
Proof.
  intros Ht. unfold in_table. rewrite <- Exists_app, !Exists_exists.
  split; intros (r & Hr & ?); exists r; (split; [by apply Ht|done]).
Qed.

Lemma elem_of_all {A} `{EqDecision A} (l k : list A) :
  bool_decide (Forall (λ a, a ∈ k) l ∧ Forall (λ a, a ∈ l) k) = true → ∀ a, a ∈ l ↔ a ∈ k.
Proof. rewrite bool_decide_eq_true, !Forall_forall. naive_solver. Qed.

(** ** [forbidden] is the table *)

Definition special4 : list (Z * Z) :=
  [(be_value [127; 0; 0; 0], 8); (be_value [224; 0; 0; 0], 4); (be_value [169; 254; 0; 0], 16);
   (be_value [10; 0; 0; 0], 8); (be_value [172; 16; 0; 0], 12); (be_value [192; 168; 0; 0], 16)].

Definition special6 : list (Z * Z) :=
  [(groups [], 128); (groups [0; 0; 0; 0; 0; 0; 0; 1], 128); (groups [0xff00], 8);
   (groups [0xfe80], 10); (groups [0xfc00], 7)].

(** The tests before the loop over the prefixes. *)
Definition special (a : Addr) : bool :=
  negb (IsGlobalUnicast a) || IsPrivate a || IsLoopback a || IsLinkLocalUnicast a ||
  IsMulticast a || IsUnspecified a.

Lemma special_v4 n : 0 ≤ n < 2 ^ 32 →
  special (V4 n) = true ↔ in_table 32 n special4 ∨ n = 0 ∨ n = 2 ^ 32 - 1.
Proof.
  intros Hn. unfold special, IsGlobalUnicast, IsUnspecified, in_table, special4.
  rewrite !orb_true_iff, negb_true_iff, !andb_false_iff, !negb_false_iff, orb_true_iff, !Z.eqb_eq.
  rewrite IsLoopback_v4, IsMulticast_v4, IsLinkLocalUnicast_v4, IsPrivate_v4 by done.
  rewrite !Exists_cons, Exists_nil. tauto.
Qed.

Lemma special_v6 n : 0 ≤ n < 2 ^ 128 → special (V6 n) = true ↔ in_table 128 n special6.
Proof.
  intros Hn. unfold special, IsGlobalUnicast, IsUnspecified, in_table, special6.
  rewrite !orb_true_iff, negb_true_iff, !andb_false_iff, !negb_false_iff, !Z.eqb_eq.
  rewrite IsMulticast_v6, IsLinkLocalUnicast_v6, IsPrivate_v6 by done.
  assert (IsLoopback (V6 n) = true ↔ in_range 128 n (groups [0; 0; 0; 0; 0; 0; 0; 1], 128)) as ->
    by (unfold in_range; cbn; rewrite Z.eqb_eq; lia).
  assert (n = 0 ↔ in_range 128 n (groups [], 128)) as -> by (unfold in_range; cbn; lia).
  rewrite !Exists_cons, Exists_nil. tauto.
Qed.

Lemma forbidden_v4 n : 0 ≤ n < 2 ^ 32 →
  special (V4 n) || existsb (λ p, Contains p (V4 n)) forbiddenPrefixes = true ↔
  in_table 32 n reserved4.
Proof.
  intros Hn. rewrite orb_true_iff, special_v4, Contains_v4 by done.
  rewrite (in_table_split 32 n special4 (omap range4 forbiddenPrefixes) reserved4)
    by (apply elem_of_all; vm_compute; reflexivity).
  split; [|tauto]. intros [[?|[->| ->]]|?]; auto; right; apply Exists_exists.
  - exists (be_value [0; 0; 0; 0], 8). split; [apply (bool_decide_unpack _); by vm_compute|done].
  - exists (be_value [240; 0; 0; 0], 4). split; [apply (bool_decide_unpack _); by vm_compute|done].
Qed.

Lemma forbidden_v6 n : 0 ≤ n < 2 ^ 128 →
  special (V6 n) || existsb (λ p, Contains p (V6 n)) forbiddenPrefixes = true ↔
  in_table 128 n reserved6.
Proof.
  intros Hn. rewrite orb_true_iff, special_v6, Contains_v6 by done.
  symmetry. apply in_table_split, elem_of_all. by vm_compute.
Qed.

Lemma forbidden_unfold address a : AddrFromSlice address = Some a →
  forbidden address = special (Unmap a) || existsb (λ p, Contains p (Unmap a)) forbiddenPrefixes.
Proof. intros Ha. unfold forbidden. rewrite Ha. unfold special. by destruct (_ || _). Qed.

Lemma forbidden_reserved address :
  Forall is_byte address →
  forbidden address = true ↔
  match AddrFromSlice address with None => True | Some a => reserved a end.
Proof.
  intros Hb. pose proof (be_value_range _ Hb) as Hr.
  destruct (AddrFromSlice address) as [a|] eqn:Ha; [|by unfold forbidden; rewrite Ha].
  rewrite (forbidden_unfold _ _ Ha). unfold AddrFromSlice in Ha.
  destruct (length address) as [|[|[|[|[|[|[|[|[|[|[|[|[|[|[|[|[|]]]]]]]]]]]]]]]]] eqn:El;
    try done; injection Ha as <-; rewrite ?El in Hr.
  - simpl Unmap. by apply forbidden_v4.
  - unfold reserved, Unmap. set (n := be_value address) in *.
    change (be_value [255; 255]) with 65535.
    destruct (Is4In6 n) eqn:E; unfold Is4In6 in E.
    + rewrite shiftr_range in E by lia. rewrite decide_True by done.
      change (2 ^ 32 - 1) with (Z.ones 32). rewrite Z.land_ones by lia.
      apply forbidden_v4. by apply Z.mod_pos_bound.
    + rewrite decide_False by (rewrite <- shiftr_range by lia; by rewrite E).
      by apply forbidden_v6.
Qed.

(** C29: the address filter refuses exactly the addresses of the table above:
    private, loopback, link-local, multicast, unspecified, documentation,
    translation and other special ranges, in IPv4, in IPv6 and in IPv4 written
    as IPv6 - and every slice that is no address at all. *)
Theorem forbidden_exactly_reserved address :
  Forall is_byte address →
  forbidden address = true ↔
  match AddrFromSlice address with None => True | Some a => reserved a end.
Proof. apply forbidden_reserved. Qed.

Lemma forbidden_exactly_reserved_witness :
  forbidden [169; 254; 169; 254] = true ∧ reserved (V4 2852039166) ∧
  forbidden [8; 8; 8; 8] = false ∧ ¬ reserved (V4 134744072).
Proof.
  assert (H1 : Forall is_byte [169; 254; 169; 254]) by (repeat constructor; unfold is_byte; lia).
  assert (H2 : Forall is_byte [8; 8; 8; 8]) by (repeat constructor; unfold is_byte; lia).
  split; [reflexivity|]. split; [by apply (forbidden_exactly_reserved _ H1)|].
  split; [reflexivity|]. intros Hr. by apply (forbidden_exactly_reserved _ H2) in Hr.
Defined.
