(* ===== verification/GoUrl.v ===== *)
(** * Package net/url, as far as internal/outbound/client.go uses it

    [url.ParseRequestURI] on byte strings, with [Hostname] and [Port].  A host
    in brackets goes through the IPv6 grammar of [netip.ParseAddr], which is
    a parameter; every other branch is written out. *)

From S2P Require Import Prelude GoStrings.

Local Open Scope Z_scope.

(** The IP-literal branch of [parseHost]: the unescaped host, or an error. *)
Class IpLiteral := { parse_ip_literal : list Z → option (list Z) }.

(** ** Cutting byte strings *)

Fixpoint cut_at (c : Z) (l : list Z) : option (list Z * list Z) :=
  match l with
  | [] => None
  | b :: l => if b =? c then Some ([], l)
              else '(x, y) ← cut_at c l; Some (b :: x, y)
  end.

(** Around the last occurrence. *)
Definition cut_last (c : Z) (l : list Z) : option (list Z * list Z) :=
  '(y, x) ← cut_at c (reverse l); Some (reverse x, reverse y).

Definition mem (c : Z) (l : list Z) : bool := existsb (Z.eqb c) l.

(** [strings.HasPrefix] *)
Definition starts (p l : list Z) : bool := bool_decide (take (length p) l = p).

Definition is_digit (b : Z) : bool := (48 <=? b) && (b <=? 57).
Definition is_alpha (b : Z) : bool := ((97 <=? b) && (b <=? 122)) || ((65 <=? b) && (b <=? 90)).
Definition is_hex (b : Z) : bool :=
  is_digit b || ((97 <=? b) && (b <=? 102)) || ((65 <=? b) && (b <=? 70)).
Definition unhex (b : Z) : Z :=
  if is_digit b then b - 48 else if 97 <=? b then b - 87 else b - 55.

(** ** Percent escapes *)

Inductive encoding : Type := encodeHost | encodePath | encodeUserPassword.

(** [shouldEscape(c, encodeHost)]: neither a letter, a digit, a sub-delimiter,
    a colon, bracket, angle bracket or double quote, nor one of -_.~ *)
Definition host_must_escape (b : Z) : bool :=
  negb (is_alpha b || is_digit b ||
        mem b [33; 36; 38; 39; 40; 41; 42; 43; 44; 59; 61; 58; 91; 93; 60; 62; 34] ||
        mem b [45; 95; 46; 126]).

Fixpoint unescape (mode : encoding) (l : list Z) : option (list Z) :=
  match l with
  | [] => Some []
  | b :: l1 =>
      if b =? 37 then
        match l1 with
        | h :: l' :: rest =>
            if negb (is_hex h && is_hex l') then None
            else if match mode with encodeHost => true | _ => false end && (unhex h <? 8) &&
                    negb ((h =? 50) && (l' =? 53))
            then None
            else cons (Z.lor (Z.shiftl (unhex h) 4) (unhex l')) <$> unescape mode rest
        | _ => None
        end
      else if match mode with encodeHost => true | _ => false end && (b <? 128) && host_must_escape b
      then None
      else cons b <$> unescape mode l1
  end.

(** ** The URL *)

Module Url.
Record t := mk {
  Scheme : list Z;
  User : bool;             (* User != nil *)
  Host : list Z;
  Path : list Z;
  RawQuery : list Z;
  Fragment : list Z
}.
End Url.

(** [getScheme]: the bytes before the colon, when they spell a scheme. *)
Fixpoint get_scheme (first : bool) (l : list Z) : option (option (list Z * list Z)) :=
  match l with
  | [] => Some None
  | b :: rest =>
      if is_alpha b || ((is_digit b || mem b [43; 45; 46]) && negb first) then
        match get_scheme false rest with
        | Some (Some (s, r)) => Some (Some (b :: s, r))
        | other => other
        end
      else if b =? 58 then (if first then None else Some (Some ([], rest)))
      else Some None
  end.

Definition lower_ascii (b : Z) : Z := if (65 <=? b) && (b <=? 90) then b + 32 else b.

(** [validOptionalPort] *)
Definition validOptionalPort (port : list Z) : bool :=
  match port with
  | [] => true
  | b :: digits => (b =? 58) && forallb is_digit digits
  end.

Definition valid_userinfo_byte (b : Z) : bool :=
  is_alpha b || is_digit b ||
  mem b [45; 46; 95; 58; 126; 33; 36; 38; 39; 40; 41; 42; 43; 44; 59; 61; 37; 64].

Section parsing.
Context `{IpLiteral}.

Definition parseHost (host : list Z) : option (list Z) :=
  if mem 91 host then parse_ip_literal host
  else match cut_at 58 host with
  | Some (_, port) => if validOptionalPort (58 :: port) then unescape encodeHost host else None
  | None => unescape encodeHost host
  end.

(** The user information, if any, and the host. *)
Definition parseAuthority (authority : list Z) : option (bool * list Z) :=
  match cut_last 64 authority with
  | None => host ← parseHost authority; Some (false, host)
  | Some (userinfo, host) =>
      host ← parseHost host;
      if forallb valid_userinfo_byte userinfo
      then _ ← unescape encodeUserPassword userinfo; Some (true, host)
      else None
  end.

Definition setPath (scheme : list Z) (user : bool) (host rest query : list Z) : option Url.t :=
  path ← unescape encodePath rest;
  Some (Url.mk scheme user host path query []).

(** [parse(rawURL, true)]: the text after '#' is not treated apart. *)
Definition ParseRequestURI (raw : string) : option Url.t :=
  let raw := bytes_of raw in
  if existsb (λ b, (b <? 32) || (b =? 127)) raw then None
  else if bool_decide (raw = []) then None
  else if bool_decide (raw = [42]) then Some (Url.mk [] false [] [42] [] [])
  else
    found ← get_scheme true raw;
    let '(scheme, rest) := match found with
                           | Some (s, r) => (lower_ascii <$> s, r)
                           | None => ([], raw)
                           end in
    let '(rest, query) := default (rest, []) (cut_at 63 rest) in
    if negb (starts [47] rest) then
      if bool_decide (scheme = []) then None
      else Some (Url.mk scheme false [] [] query [])     (* opaque *)
    else if negb (bool_decide (scheme = [])) && starts [47; 47] rest then
      let authority := drop 2 rest in
      let '(authority, rest) := match cut_at 47 authority with
                                | Some (a, p) => (a, 47 :: p)
                                | None => (authority, [])
                                end in
      '(user, host) ← parseAuthority authority;
      setPath scheme user host rest query
    else setPath scheme false [] rest query.
End parsing.

(** [splitHostPort], hence [Hostname] and [Port]. *)
Definition splitHostPort (hostPort : list Z) : list Z * list Z :=
  let '(host, port) := match cut_last 58 hostPort with
                       | Some (h, p) => if validOptionalPort (58 :: p) then (h, p) else (hostPort, [])
                       | None => (hostPort, [])
                       end in
  match host with
  | 91 :: inner =>
      match reverse inner with
      | 93 :: inner' => (reverse inner', port)
      | _ => (host, port)
      end
  | _ => (host, port)
  end.

Definition Hostname (u : Url.t) : string := string_of (splitHostPort (Url.Host u)).1.
Definition Port (u : Url.t) : string := string_of (splitHostPort (Url.Host u)).2.
