(* ===== verification/IpText.v ===== *)
(** * IP addresses as text: [netip.ParseAddr] and [net.ParseIP]

    The grammars of package net/netip on byte strings.  An address is the
    list of its four or sixteen bytes. *)

From S2P Require Import Prelude GoStrings GoUrl.

Local Open Scope Z_scope.

(** [parseIPv4Fields]: the fields already read, the value and the number of
    digits of the one being read.  A dot needs digits before it and text after
    it. *)
Fixpoint parseIPv4Fields (l : list Z) (fields : list Z) (val : Z) (digLen : nat)
    : option (list Z) :=
  match l with
  | [] => if (length fields <? 3)%nat then None else Some (fields ++ [val])
  | c :: rest =>
      if is_digit c then
        if (digLen =? 1)%nat && (val =? 0) then None
        else
          let val := val * 10 + (c - 48) in
          if 255 <? val then None else parseIPv4Fields rest fields val (S digLen)
      else if c =? 46 then
        if (digLen =? 0)%nat || bool_decide (rest = []) then None
        else if (length fields =? 3)%nat then None
        else parseIPv4Fields rest (fields ++ [val]) 0 0
      else None
  end.

Fixpoint take_while (P : Z → bool) (l : list Z) : list Z :=
  match l with
  | [] => []
  | b :: l => if P b then b :: take_while P l else []
  end.

Definition hex_value (l : list Z) : Z := foldl (λ acc c, Z.shiftl acc 4 + unhex c) 0 l.

(** The loop of [parseIPv6]: the text left, the bytes read and where the
    ellipsis stands.  Every round but the last reads two of sixteen bytes, so
    eight rounds are all there are. *)
Fixpoint parseIPv6Groups (rounds : nat) (s ip : list Z) (ellipsis : option nat)
    : option (list Z * list Z * option nat) :=
  match rounds with
  | O => Some (s, ip, ellipsis)
  | S rounds =>
      let group := take_while is_hex s in
      let rest := drop (length group) s in
      if (4 <? length group)%nat then None
      else if bool_decide (group = []) then None
      else if starts [46] rest then
        if bool_decide (ellipsis = None) && negb (length ip =? 12)%nat then None
        else if (16 <? length ip + 4)%nat then None
        else fields ← parseIPv4Fields s [] 0 0; Some ([], ip ++ fields, ellipsis)
      else
        let acc := hex_value group in
        let ip := ip ++ [Z.shiftr acc 8; Z.land acc 255] in
        match rest with
        | [] => Some ([], ip, ellipsis)
        | c :: s =>
            if negb (c =? 58) then None
            else match s with
            | [] => None
            | c :: s' =>
                if c =? 58 then
                  match ellipsis with
                  | Some _ => None
                  | None => if bool_decide (s' = []) then Some ([], ip, Some (length ip))
                            else parseIPv6Groups rounds s' ip (Some (length ip))
                  end
                else parseIPv6Groups rounds s ip ellipsis
            end
        end
  end.

Definition parseIPv6 (text : list Z) : option (list Z * list Z) :=
  let '(s, zone) := default (text, []) (cut_at 37 text) in
  if mem 37 text && bool_decide (zone = []) then None
  else
    let '(s, ellipsis) := if starts [58; 58] s then (drop 2 s, Some 0%nat) else (s, None) in
    if bool_decide (ellipsis = Some 0%nat ∧ s = []) then Some (replicate 16 0, zone)
    else
      '(s, ip, ellipsis) ← parseIPv6Groups 8 s [] ellipsis;
      if negb (bool_decide (s = [])) then None
      else if (length ip <? 16)%nat then
        e ← ellipsis;
        Some (take e ip ++ replicate (16 - length ip) 0 ++ drop e ip, zone)
      else match ellipsis with Some _ => None | None => Some (ip, zone) end.

(** [netip.ParseAddr]: the bytes and the zone. *)
Definition ParseAddr (text : list Z) : option (list Z * list Z) :=
  match find (λ c, mem c [46; 58; 37]) text with
  | Some 46 => fields ← parseIPv4Fields text [] 0 0; Some (fields, [])
  | Some 58 => parseIPv6 text
  | _ => None
  end.

(** [net.ParseIP]: sixteen bytes, without a zone. *)
Definition ParseIP (s : string) : option (list Z) :=
  '(ip, zone) ← ParseAddr (bytes_of s);
  if negb (bool_decide (zone = [])) then None
  else Some (if (length ip =? 4)%nat then replicate 10 0 ++ [255; 255] ++ ip else ip).

(** ** The text of an IPv4 address *)

Definition dotted (a b c d : Z) : string :=
  FormatInt a +:+ "." +:+ FormatInt b +:+ "." +:+ FormatInt c +:+ "." +:+ FormatInt d.

(** What the digits of one field do. *)
Fixpoint read_octet (l : list Z) (val : Z) (digLen : nat) : option (Z * nat) :=
  match l with
  | [] => Some (val, digLen)
  | c :: l =>
      if negb (is_digit c) || ((digLen =? 1)%nat && (val =? 0)) || (255 <? val * 10 + (c - 48)) then None
      else read_octet l (val * 10 + (c - 48)) (S digLen)
  end.

Lemma read_octet_fields l rest fields val n val' n' :
  read_octet l val n = Some (val', n') →
  parseIPv4Fields (l ++ rest) fields val n = parseIPv4Fields rest fields val' n'.
Proof.
  revert val n. induction l as [|c l IH]; intros val n; cbn [read_octet app]; [congruence|].
  destruct (is_digit c) eqn:Ed, ((n =? 1)%nat && (val =? 0)) eqn:Ez, (255 <? _) eqn:Eb; try done.
  intros Hr. cbn [parseIPv4Fields]. rewrite Ed, Ez, Eb. by apply IH.
Qed.

Lemma format_octet b : is_byte b →
  ∃ n, read_octet (bytes_of (FormatInt b)) 0 0 = Some (b, S n).
Proof.
  intros Hb.
  pose proof (all_bytes (λ b, match read_octet (bytes_of (FormatInt b)) 0 0 with
    | Some (v, S _) => v =? b | _ => false end) ltac:(by vm_compute) b Hb) as H. cbn beta in H.
  destruct (read_octet _ _ _) as [[v [|n]]|]; [done| |done]. to_prop. subst. eauto.
Qed.

Lemma parse_dotted a b c d :
  is_byte a → is_byte b → is_byte c → is_byte d →
  parseIPv4Fields (bytes_of (dotted a b c d)) [] 0 0 = Some [a; b; c; d].
Proof.
  intros Ha Hb Hc Hd. unfold dotted. rewrite !bytes_of_app. change (bytes_of ".") with [46].
  apply format_octet in Ha as [? Ha]. apply format_octet in Hb as [? Hb].
  apply format_octet in Hc as [? Hc]. apply format_octet in Hd as [? Hd].
  erewrite read_octet_fields by exact Ha. cbn.
  rewrite bool_decide_false by (by destruct (bytes_of (FormatInt b))).
  erewrite read_octet_fields by exact Hb. cbn.
  rewrite bool_decide_false by (by destruct (bytes_of (FormatInt c))).
  erewrite read_octet_fields by exact Hc. cbn.
  rewrite bool_decide_false by (by destruct (bytes_of (FormatInt d))).
  rewrite <- (app_nil_r (bytes_of (FormatInt d))).
  erewrite read_octet_fields by exact Hd. done.
Qed.

Example parse_loopback : ParseIP "127.0.0.1" = Some (replicate 10 0 ++ [255; 255; 127; 0; 0; 1]).
Proof. vm_compute. reflexivity. Qed.
Example parse_compressed :
  ParseIP "2001:db8::7:0" = Some [32; 1; 13; 184; 0; 0; 0; 0; 0; 0; 0; 0; 0; 7; 0; 0].
Proof. vm_compute. reflexivity. Qed.
Example parse_mapped : ParseIP "::ffff:10.0.0.7" = ParseIP "10.0.0.7".
Proof. vm_compute. reflexivity. Qed.
Example parse_refused :
  ParseIP <$> ["not-an-ip"; "1.2.3"; "1.2.3.04"; "1.2.3.256"; "1::2::3"; "1:2:3:4:5:6:7:8::"; "fe80::1%eth0"; ""]
  = replicate 8 None.
Proof. vm_compute. reflexivity. Qed.
