(* ===== verification/Calendar.v ===== *)
(** * Dates: the proleptic Gregorian calendar of package time

    Days and dates, both ways, and the instants [time.Date] makes in UTC.
    That this is the calendar is checked against the rule that names the day
    after a date. *)

From S2P Require Import Prelude GoStrings.

Local Open Scope Z_scope.

Record date := mkDate { year : Z; month : Z; day : Z }.

#[global] Instance date_eq_dec : EqDecision date.
Proof. solve_decision. Defined.

Definition is_leap (y : Z) : bool :=
  (y mod 4 =? 0) && (negb (y mod 100 =? 0) || (y mod 400 =? 0)).

(** [daysIn] *)
Definition days_in (m y : Z) : Z :=
  if m =? 2 then (if is_leap y then 29 else 28)
  else if (m =? 4) || (m =? 6) || (m =? 9) || (m =? 11) then 30 else 31.

Definition valid_date (d : date) : bool :=
  (1 <=? month d) && (month d <=? 12) && (1 <=? day d) && (day d <=? days_in (month d) (year d)).

(** ** Counting days

    Years are taken from March on, so that the leap day is the last one. *)

(** The days before the 1st of March of the year. *)
Definition year_start (y : Z) : Z := 365 * y + y / 4 - y / 100 + y / 400.
(** The days from the 1st of March to the 1st of the month, March being 0. *)
Definition month_start (mp : Z) : Z := (153 * mp + 2) / 5.

(** Months and years from March on. *)
Definition march_month (m : Z) : Z := if 2 <? m then m - 3 else m + 9.
Definition march_year (y m : Z) : Z := if 2 <? m then y else y - 1.

(** Days since 1970-01-01. *)
Definition days_of (dt : date) : Z :=
  year_start (march_year (year dt) (month dt)) + month_start (march_month (month dt)) +
  (day dt - 1) - 719468.

(** The year whose days hold the day [n]: at most one off the mean. *)
Definition year_of (n : Z) : Z :=
  let guess := n * 400 / 146097 in
  if n <? year_start guess then guess - 1
  else if n <? year_start (guess + 1) then guess else guess + 1.

Definition date_of (days : Z) : date :=
  let n := days + 719468 in
  let y := year_of n in
  let doy := n - year_start y in
  let mp := (5 * doy + 2) / 153 in
  mkDate (if mp <? 10 then y else y + 1) (if mp <? 10 then mp + 3 else mp - 9) (doy - month_start mp + 1).

(** ** Years *)

Lemma year_start_next y :
  year_start (y + 1) = year_start y + (if is_leap (y + 1) then 366 else 365).
Proof.
  unfold year_start, is_leap.
  destruct (Z.eqb_spec ((y + 1) mod 4) 0), (Z.eqb_spec ((y + 1) mod 100) 0), (Z.eqb_spec ((y + 1) mod 400) 0);
    cbn [andb orb negb]; Z.div_mod_to_equations; lia.
Qed.

Lemma year_of_spec n : year_start (year_of n) ≤ n < year_start (year_of n + 1).
Proof.
  unfold year_of. set (g := n * 400 / 146097).
  assert (146097 * g ≤ n * 400 < 146097 * (g + 1)) by (unfold g; Z.div_mod_to_equations; lia).
  assert (Hlow : year_start (g - 1) ≤ n) by (unfold year_start; Z.div_mod_to_equations; lia).
  assert (Hhigh : n < year_start (g + 1 + 1)) by (unfold year_start; Z.div_mod_to_equations; lia).
  destruct (Z.ltb_spec n (year_start g)); [replace (g - 1 + 1) with g by lia; lia|].
  destruct (Z.ltb_spec n (year_start (g + 1))); lia.
Qed.

Lemma year_start_mono y y' : y < y' → year_start y + 365 ≤ year_start y'.
Proof. unfold year_start. Z.div_mod_to_equations. lia. Qed.

Lemma year_of_unique y n : year_start y ≤ n < year_start (y + 1) → year_of n = y.
Proof.
  intros Hn. pose proof (year_of_spec n). destruct (Z.lt_trichotomy (year_of n) y) as [Hlt|[?|Hlt]]; [|done|].
  - assert (year_of n + 1 < y ∨ year_of n + 1 = y) as [Hl|Hl] by lia.
    + apply year_start_mono in Hl. lia.
    + rewrite Hl in *. lia.
  - assert (y + 1 < year_of n ∨ y + 1 = year_of n) as [Hl|Hl] by lia.
    + apply year_start_mono in Hl. lia.
    + rewrite Hl in *. lia.
Qed.

(** ** Months, by computation over one year *)

Fixpoint upto (n : nat) (z : Z) (P : Z → bool) : bool :=
  match n with
  | O => true
  | S n => P z && upto n (z + 1) P
  end.

Lemma upto_true n z P : upto n z P = true → ∀ x, z ≤ x < z + Z.of_nat n → P x = true.
Proof.
  revert z. induction n as [|n IH]; intros z Hu x Hx; [lia|].
  cbn [upto] in Hu. apply andb_true_iff in Hu as [Hz Hu]. destruct (decide (x = z)) as [->|]; [done|].
  apply (IH (z + 1)); [done|lia].
Qed.

Definition month_of (doy : Z) : Z := (5 * doy + 2) / 153.

Lemma month_of_spec doy : 0 ≤ doy ≤ 365 →
  0 ≤ month_of doy ≤ 11 ∧ 1 ≤ doy - month_start (month_of doy) + 1 ∧
  (month_of doy ≠ 11 → doy - month_start (month_of doy) + 1 ≤
     days_in (if month_of doy <? 10 then month_of doy + 3 else month_of doy - 9) 1).
Proof.
  intros Hd.
  pose proof (upto_true 366 0 (λ doy, (0 <=? month_of doy) && (month_of doy <=? 11) &&
    (1 <=? doy - month_start (month_of doy) + 1) && ((month_of doy =? 11) ||
     (doy - month_start (month_of doy) + 1 <=?
        days_in (if month_of doy <? 10 then month_of doy + 3 else month_of doy - 9) 1)))
    ltac:(vm_compute; reflexivity) doy ltac:(lia)) as Hok. cbn beta in Hok. to_prop.
  match goal with H : _ || _ = true |- _ => apply orb_true_iff in H as [H|H] end; to_prop;
    split_and!; try lia.
Qed.

Lemma days_in_1 m y : m ≠ 2 → days_in m y = days_in m 1.
Proof. unfold days_in. intros Hm. by rewrite (proj2 (Z.eqb_neq m 2)). Qed.

Lemma month_of_start m d : 1 ≤ m ≤ 12 → 1 ≤ d ≤ (if m =? 2 then 29 else days_in m 1) →
  0 ≤ month_start (march_month m) + (d - 1) ≤ 365 ∧
  (m ≠ 2 ∨ d ≤ 28 → month_start (march_month m) + (d - 1) ≤ 364) ∧
  month_of (month_start (march_month m) + (d - 1)) = march_month m.
Proof.
  intros Hm Hd. assert (Hd31 : (if m =? 2 then 29 else days_in m 1) ≤ 31)
    by (unfold days_in; repeat case_match; lia).
  pose proof (upto_true 12 1 (λ m, upto 31 1 (λ d, if d <=? (if m =? 2 then 29 else days_in m 1) then
    (0 <=? month_start (march_month m) + (d - 1)) && (month_start (march_month m) + (d - 1) <=? 365) &&
    (((m =? 2) && (d =? 29)) || (month_start (march_month m) + (d - 1) <=? 364)) &&
    (month_of (month_start (march_month m) + (d - 1)) =? march_month m) else true))
    ltac:(vm_compute; reflexivity) m ltac:(lia)) as Hok. cbn beta in Hok.
  eapply upto_true with (x := d) in Hok; [|lia]. cbn beta in Hok.
  rewrite (proj2 (Z.leb_le _ _)) in Hok by lia. to_prop.
  match goal with H : _ || _ = true |- _ => apply orb_true_iff in H as [H|H] end; to_prop;
    split_and!; try lia.
Qed.

(** ** Both ways *)

Lemma valid_date_true dt :
  valid_date dt = true ↔ 1 ≤ month dt ≤ 12 ∧ 1 ≤ day dt ≤ days_in (month dt) (year dt).
Proof. unfold valid_date. rewrite !andb_true_iff, !Z.leb_le. lia. Qed.

(** The last year whose February the year from March on holds. *)
Lemma days_in_february y : days_in 2 y = if is_leap y then 29 else 28.
Proof. done. Qed.

Lemma date_of_days_of dt : valid_date dt = true → date_of (days_of dt) = dt.
Proof.
  rewrite valid_date_true. destruct dt as [y m d]. cbn [year month day]. intros [Hm Hd].
  unfold days_of, date_of. cbn [year month day].
  set (doy := month_start (march_month m) + (d - 1)).
  destruct (month_of_start m d Hm) as (Hdoy & Hshort & Hmonth).
  { destruct (Z.eqb_spec m 2) as [->|Hne]; [rewrite days_in_february in Hd; destruct (is_leap y); lia|].
    by rewrite <- (days_in_1 m y). }
  fold doy in Hdoy, Hshort, Hmonth.
  replace (year_start (march_year y m) + month_start (march_month m) + (d - 1) - 719468 + 719468)
    with (year_start (march_year y m) + doy) by (unfold doy; lia).
  assert (Hy : year_of (year_start (march_year y m) + doy) = march_year y m).
  { apply year_of_unique. rewrite year_start_next. split; [lia|].
    destruct (decide (m = 2)) as [->|Hne]; [|specialize (Hshort (or_introl Hne)); destruct (is_leap _); lia].
    unfold march_year. cbn [Z.ltb Z.compare Pos.compare Pos.compare_cont]. replace (y - 1 + 1) with y by lia.
    rewrite days_in_february in Hd. destruct (is_leap y); [lia|]. specialize (Hshort ltac:(lia)). lia. }
  rewrite Hy. replace (year_start (march_year y m) + doy - year_start (march_year y m)) with doy by lia.
  change ((5 * doy + 2) / 153) with (month_of doy). rewrite Hmonth. unfold march_month, march_year in *.
  destruct (Z.ltb_spec 2 m).
  - rewrite (proj2 (Z.ltb_lt (m - 3) 10)) by lia. f_equal; unfold doy; lia.
  - rewrite (proj2 (Z.ltb_ge (m + 9) 10)) by lia. f_equal; unfold doy; lia.
Qed.

Lemma days_of_date_of n : days_of (date_of n) = n ∧ valid_date (date_of n) = true.
Proof.
  unfold date_of. set (k := n + 719468). pose proof (year_of_spec k) as Hy.
  rewrite year_start_next in Hy. set (doy := k - year_start (year_of k)).
  change ((5 * doy + 2) / 153) with (month_of doy).
  destruct (month_of_spec doy) as (Hmp & Hd1 & Hd2); [unfold doy; destruct (is_leap _); lia|].
  assert (Hback : march_month (if month_of doy <? 10 then month_of doy + 3 else month_of doy - 9) = month_of doy
    ∧ march_year (if month_of doy <? 10 then year_of k else year_of k + 1)
        (if month_of doy <? 10 then month_of doy + 3 else month_of doy - 9) = year_of k).
  { unfold march_month, march_year. destruct (Z.ltb_spec (month_of doy) 10).
    - rewrite (proj2 (Z.ltb_lt 2 _)) by lia. lia.
    - rewrite (proj2 (Z.ltb_ge 2 _)) by lia. lia. }
  destruct Hback as [Hm Hyr]. split.
  - unfold days_of. cbn [year month day]. rewrite Hm, Hyr. unfold doy, k. lia.
  - apply valid_date_true. cbn [year month day].
    split; [destruct (Z.ltb_spec (month_of doy) 10); lia|]. split; [lia|].
    destruct (decide (month_of doy = 11)) as [H11|H11].
    + rewrite H11. cbn [Z.ltb Z.compare Pos.compare Pos.compare_cont Z.sub Z.add Z.opp Z.pos_sub Pos.pred_double].
      change (11 - 9) with 2. rewrite days_in_february. change (month_start 11) with 337.
      unfold doy. destruct (is_leap _); lia.
    + rewrite days_in_1; [by apply Hd2|]. destruct (Z.ltb_spec (month_of doy) 10); lia.
Qed.

(** ** It is the calendar *)

Definition next_day (dt : date) : date :=
  if day dt <? days_in (month dt) (year dt) then mkDate (year dt) (month dt) (day dt + 1)
  else if month dt <? 12 then mkDate (year dt) (month dt + 1) 1
  else mkDate (year dt + 1) 1 1.

(** 1970-01-01 is day 0, and the day after a date has the next number. *)
Theorem days_follow_the_calendar dt :
  days_of (mkDate 1970 1 1) = 0 ∧ (valid_date dt = true → days_of (next_day dt) = days_of dt + 1).
Proof.
  split; [reflexivity|]. rewrite valid_date_true. destruct dt as [y m d]. cbn [year month day]. intros [Hm Hd].
  unfold next_day. cbn [year month day]. destruct (Z.ltb_spec d (days_in m y)); unfold days_of; cbn [year month day]; [lia|].
  assert (d = days_in m y) as -> by lia. clear Hd.
  assert (m = 1 ∨ m = 2 ∨ m = 3 ∨ m = 4 ∨ m = 5 ∨ m = 6 ∨ m = 7 ∨ m = 8 ∨ m = 9 ∨ m = 10 ∨ m = 11 ∨ m = 12)
    as Hcase by lia.
  destruct (decide (m = 2)) as [->|Hne].
  - pose proof (year_start_next (y - 1)) as Hn. replace (y - 1 + 1) with y in Hn by lia.
    change (2 <? 12) with true. cbn [year month day]. change (march_year y (2 + 1)) with y.
    change (march_year y 2) with (y - 1). change (month_start (march_month (2 + 1))) with 0.
    change (month_start (march_month 2)) with 337. rewrite days_in_february. destruct (is_leap y); lia.
  - rewrite (days_in_1 m y Hne). destruct (decide (m = 12)) as [->|H12].
    + change (12 <? 12) with false. cbn [year month day]. change (march_year (y + 1) 1) with (y + 1 - 1).
      change (march_year y 12) with y. replace (y + 1 - 1) with y by lia.
      change (month_start (march_month 1)) with 306. change (month_start (march_month 12)) with 275.
      change (days_in 12 1) with 31. lia.
    + rewrite (proj2 (Z.ltb_lt m 12)) by lia. cbn [year month day].
      assert (march_year y (m + 1) = march_year y m) as ->
        by (unfold march_year; destruct (Z.ltb_spec 2 m), (Z.ltb_spec 2 (m + 1)); lia).
      assert (month_start (march_month (m + 1)) = month_start (march_month m) + days_in m 1); [|lia].
      destruct Hcase as [->|[->|[->|[->|[->|[->|[->|[->|[->|[->|[->| ->]]]]]]]]]]]; done.
Qed.
