(* ===== verification/HttpDate.v ===== *)
(** * HTTP dates: [http.ParseTime] and the parts of [time.Parse] it uses

    The three layouts of RFC 9110 as package time reads them - names in any
    case, one-digit hours, spaces that may repeat, a fraction of the second -
    and the format [http.TimeFormat] itself.  The zone abbreviation of the
    second layout is looked up in the local zone of the process, which is a
    parameter. *)

From S2P Require Import Prelude GoStrings GoUrl IpText Calendar.

Local Open Scope Z_scope.

(** The offset in seconds of an abbreviation in the local zone, at a time in
    seconds since 1970; [time.Local] is UTC where it knows none. *)
Class HttpTime := { lookupName : list Z → Z → option Z }.

(** ** Elements of a layout *)

(** [match], ASCII letters in any case. *)
Definition same_letter (c1 c2 : Z) : bool :=
  (c1 =? c2) ||
  ((Z.lor c1 32 =? Z.lor c2 32) && (97 <=? Z.lor c1 32) && (Z.lor c1 32 <=? 122)).

Definition has_name (name value : list Z) : bool :=
  (length name <=? length value)%nat && all2 same_letter (take (length name) value) name.

(** [lookup]: the index of the first name the value starts with. *)
Fixpoint lookup_name (i : Z) (names : list (list Z)) (value : list Z) : option (Z * list Z) :=
  match names with
  | [] => None
  | name :: names =>
      if has_name name value then Some (i, drop (length name) value) else lookup_name (i + 1) names value
  end.

Definition longDayNames : list (list Z) :=
  bytes_of <$> ["Sunday"; "Monday"; "Tuesday"; "Wednesday"; "Thursday"; "Friday"; "Saturday"].
Definition shortDayNames : list (list Z) :=
  bytes_of <$> ["Sun"; "Mon"; "Tue"; "Wed"; "Thu"; "Fri"; "Sat"].
Definition shortMonthNames : list (list Z) :=
  bytes_of <$> ["Jan"; "Feb"; "Mar"; "Apr"; "May"; "Jun"; "Jul"; "Aug"; "Sep"; "Oct"; "Nov"; "Dec"].

(** [getnum]: two digits, or one where [fixed] does not forbid it. *)
Definition getnum (fixed : bool) (s : list Z) : option (Z * list Z) :=
  match s with
  | a :: rest =>
      if negb (is_digit a) then None
      else match rest with
      | b :: rest' =>
          if is_digit b then Some ((a - 48) * 10 + (b - 48), rest')
          else if fixed then None else Some (a - 48, rest)
      | [] => if fixed then None else Some (a - 48, [])
      end
  | [] => None
  end.

(** [skip]: the literal text between elements; a run of spaces in it stands
    for a run of spaces, or for the end of the value. *)
Fixpoint skip (after_space : bool) (prefix value : list Z) : option (list Z) :=
  match prefix with
  | [] => Some value
  | 32 :: prefix =>
      if after_space then skip true prefix value
      else match value with
      | [] => skip true prefix []
      | c :: _ => if c =? 32 then skip true prefix (drop_while (Z.eqb 32) value) else None
      end
  | p :: prefix =>
      match value with
      | c :: value => if c =? p then skip false prefix value else None
      | [] => None
      end
  end.

Definition literal (s : string) (value : list Z) : option (list Z) := skip false (bytes_of s) value.

Definition digits_of (l : list Z) : option Z :=
  if forallb is_digit l then Some (foldl (λ a b, 10 * a + (b - 48)) 0 l) else None.

Definition long_year (value : list Z) : option (Z * list Z) :=
  if (length value <? 4)%nat then None
  else y ← digits_of (take 4 value); Some (y, drop 4 value).

(** Two characters for [atoi], so a sign and a digit will do. *)
Definition short_year (value : list Z) : option (Z * list Z) :=
  match value with
  | a :: b :: rest =>
      y ← (if (a =? 43) || (a =? 45)
           then (if is_digit b then Some (if a =? 45 then - (b - 48) else b - 48) else None)
           else digits_of [a; b]);
      Some (if 69 <=? y then y + 1900 else y + 2000, rest)
  | _ => None
  end.

Definition month_name (value : list Z) : option (Z * list Z) :=
  '(m, rest) ← lookup_name 1 shortMonthNames value; Some (m, rest).

Definition below (bound : Z) (r : Z * list Z) : option (Z * list Z) :=
  if r.1 <? bound then Some r else None.

(** A fraction after the seconds, although no layout has one. *)
Definition fraction (value : list Z) : Z * list Z :=
  match value with
  | c :: d :: _ =>
      if ((c =? 46) || (c =? 44)) && is_digit d then
        let digits := take_while is_digit (drop 1 value) in
        let kept := take 9 digits in
        (foldl (λ a b, 10 * a + (b - 48)) 0 kept * 10 ^ (9 - Z.of_nat (length kept)),
         drop (S (length digits)) value)
      else (0, value)
  | _ => (0, value)
  end.

(** 15:04:05, as nanoseconds of the day. *)
Definition clock_time (value : list Z) : option (Z * list Z) :=
  '(hour, v) ← getnum false value ≫= below 24;
  v ← literal ":" v;
  '(min, v) ← getnum true v ≫= below 60;
  v ← literal ":" v;
  '(sec, v) ← getnum true v ≫= below 60;
  let '(nsec, v) := fraction v in
  Some ((hour * 3600 + min * 60 + sec) * 1000000000 + nsec, v).

(** ** Zones *)

Definition parseSignedOffset (value : list Z) : nat :=
  match value with
  | sign :: rest =>
      let digits := take_while is_digit rest in
      if negb ((sign =? 45) || (sign =? 43)) || bool_decide (digits = []) ||
         (23 <? foldl (λ a b, 10 * a + (b - 48)) 0 digits)
      then 0%nat else S (length digits)
  | [] => 0%nat
  end.

Definition is_upper (b : Z) : bool := (65 <=? b) && (b <=? 90).

(** [parseTimeZone]: the length of the abbreviation. *)
Definition parseTimeZone (value : list Z) : option nat :=
  if (length value <? 3)%nat then None
  else if starts (bytes_of "ChST") value || starts (bytes_of "MeST") value then Some 4%nat
  else if starts (bytes_of "GMT") value then Some (3 + parseSignedOffset (drop 3 value))%nat
  else if mem (default 0 (head value)) [43; 45] then
    let n := parseSignedOffset value in if (n =? 0)%nat then None else Some n
  else match length (take_while is_upper (take 6 value)) with
  | 5%nat => if value !!! 4%nat =? 84 then Some 5%nat else None
  | 4%nat => if (value !!! 3%nat =? 84) || starts (bytes_of "WITA") value then Some 4%nat else None
  | 3%nat => Some 3%nat
  | _ => None
  end.

(** [time.Date] in UTC, in nanoseconds since 1970. *)
Definition Date (y m d nanos : Z) : option Z :=
  if valid_date (mkDate y m d) then Some (days_of (mkDate y m d) * 86400000000000 + nanos) else None.

(** [UTC] is itself; other abbreviations are moved by the offset the local
    zone gives them, if any. *)
Definition zone `{HttpTime} (value : list Z) (t : Z) : option (Z * list Z) :=
  if starts (bytes_of "UTC") value then Some (t, drop 3 value)
  else n ← parseTimeZone value;
       Some (t - 1000000000 * default 0 (lookupName (take n value) (t / 1000000000)), drop n value).

(** ** The three layouts *)

Definition at_end {A} (r : A * list Z) : option A := if bool_decide (r.2 = []) then Some r.1 else None.

(** Mon, 02 Jan 2006 15:04:05 GMT *)
Definition parse_imf (value : list Z) : option Z :=
  '(_, v) ← lookup_name 0 shortDayNames value;
  v ← literal ", " v;
  '(d, v) ← getnum true v;
  v ← literal " " v;
  '(m, v) ← month_name v;
  v ← literal " " v;
  '(y, v) ← long_year v;
  v ← literal " " v;
  '(nanos, v) ← clock_time v;
  v ← literal " GMT" v;
  t ← Date y m d nanos; at_end (t, v).

(** Monday, 02-Jan-06 15:04:05 MST *)
Definition parse_rfc850 `{HttpTime} (value : list Z) : option Z :=
  '(_, v) ← lookup_name 0 longDayNames value;
  v ← literal ", " v;
  '(d, v) ← getnum true v;
  v ← literal "-" v;
  '(m, v) ← month_name v;
  v ← literal "-" v;
  '(y, v) ← short_year v;
  v ← literal " " v;
  '(nanos, v) ← clock_time v;
  v ← literal " " v;
  t ← Date y m d nanos; zone v t ≫= at_end.

(** Mon Jan _2 15:04:05 2006 *)
Definition parse_ansic (value : list Z) : option Z :=
  '(_, v) ← lookup_name 0 shortDayNames value;
  v ← literal " " v;
  '(m, v) ← month_name v;
  v ← literal " " v;
  '(d, v) ← getnum false (if starts [32] v then drop 1 v else v);
  v ← literal " " v;
  '(nanos, v) ← clock_time v;
  v ← literal " " v;
  '(y, v) ← long_year v;
  t ← Date y m d nanos; at_end (t, v).

(** [http.ParseTime]: the instant, in nanoseconds since 1970. *)
Definition ParseTime `{HttpTime} (text : string) : option Z :=
  let value := bytes_of text in
  match parse_imf value with
  | Some t => Some t
  | None => match parse_rfc850 value with Some t => Some t | None => parse_ansic value end
  end.

Section examples.
#[local] Instance utc_only : HttpTime := {| lookupName := λ _ _, None |}.

(** The example of RFC 9110, in its three forms, and some near misses. *)
Example rfc_dates : ParseTime <$> ["Sun, 06 Nov 1994 08:49:37 GMT"; "Sunday, 06-Nov-94 08:49:37 GMT";
    "Sun Nov  6 08:49:37 1994"; "sun, 06 nov 1994 8:49:37.5   GMT"] =
  [Some 784111777000000000; Some 784111777000000000; Some 784111777000000000; Some 784111777500000000].
Proof. vm_compute. reflexivity. Qed.
Example not_dates : ParseTime <$> ["Sun, 6 Nov 1994 08:49:37 GMT"; "Sun, 31 Nov 1994 08:49:37 GMT";
    "Sun, 06 Nov 1994 24:00:00 GMT"; "Sun, 06 Nov 1994 08:49:37 UTC"; "Sun, 06 Nov 1994 08:49:37 GMT ";
    "tomorrow"; "Sunday, 06-Nov-94 08:49:37"] = replicate 7 None.
Proof. vm_compute. reflexivity. Qed.
End examples.

(** ** Writing a date *)

Definition two (n : Z) : list Z := [48 + n / 10; 48 + n mod 10].
Definition four (n : Z) : list Z := two (n / 100) ++ two (n mod 100).

Definition weekday (days : Z) : Z := (days + 4) mod 7.

(** [time.Format(http.TimeFormat)] of a time in seconds since 1970, with a year
    of four digits. *)
Definition http_date (seconds : Z) : list Z :=
  let days := seconds / 86400 in
  let s := seconds mod 86400 in
  let d := date_of days in
  (shortDayNames !!! Z.to_nat (weekday days)) ++ [44; 32] ++ two (day d) ++ [32] ++
  (shortMonthNames !!! Z.to_nat (month d - 1)) ++ [32] ++ four (year d) ++ [32] ++
  two (s / 3600) ++ [58] ++ two (s / 60 mod 60) ++ [58] ++ two (s mod 60) ++ bytes_of " GMT".

Definition four_digit_year (seconds : Z) : Prop := 0 ≤ year (date_of (seconds / 86400)) ≤ 9999.

(** ** Reading back what was written *)

Lemma two_digits n : 0 ≤ n < 100 → is_digit (48 + n / 10) = true ∧ is_digit (48 + n mod 10) = true.
Proof. unfold is_digit. intros Hn. rewrite !andb_true_iff, !Z.leb_le. Z.div_mod_to_equations. lia. Qed.

Lemma getnum_two fixed n rest : 0 ≤ n < 100 → getnum fixed (two n ++ rest) = Some (n, rest).
Proof.
  intros Hn. destruct (two_digits n Hn) as [H1 H2]. cbn. rewrite H1. cbn [negb]. rewrite H2.
  do 2 f_equal. Z.div_mod_to_equations. lia.
Qed.

Lemma long_year_four n rest : 0 ≤ n ≤ 9999 → long_year (four n ++ rest) = Some (n, rest).
Proof.
  intros Hn. destruct (two_digits (n / 100)) as [H1 H2]; [Z.div_mod_to_equations; lia|].
  destruct (two_digits (n mod 100)) as [H3 H4]; [Z.div_mod_to_equations; lia|].
  unfold long_year, four, two, digits_of. cbn [app length take drop Nat.ltb Nat.leb forallb].
  rewrite H1, H2, H3, H4, take_0, drop_0. cbn [andb forallb foldl mbind option_bind]. do 2 f_equal.
  Z.div_mod_to_equations. lia.
Qed.

(** A name of a list is found under its index. *)
Lemma lookup_short_day i rest : 0 ≤ i < 7 →
  lookup_name 0 shortDayNames ((shortDayNames !!! Z.to_nat i) ++ rest) = Some (i, rest).
Proof.
  intros Hi. assert (i = 0 ∨ i = 1 ∨ i = 2 ∨ i = 3 ∨ i = 4 ∨ i = 5 ∨ i = 6) as Hc by lia.
  destruct Hc as [->|[->|[->|[->|[->|[->| ->]]]]]]; by destruct rest.
Qed.

Lemma lookup_month m rest : 1 ≤ m ≤ 12 →
  month_name ((shortMonthNames !!! Z.to_nat (m - 1)) ++ rest) = Some (m, rest).
Proof.
  intros Hm. assert (m = 1 ∨ m = 2 ∨ m = 3 ∨ m = 4 ∨ m = 5 ∨ m = 6 ∨ m = 7 ∨ m = 8 ∨ m = 9 ∨ m = 10 ∨ m = 11 ∨ m = 12)
    as Hc by lia.
  destruct Hc as [->|[->|[->|[->|[->|[->|[->|[->|[->|[->|[->| ->]]]]]]]]]]]; by destruct rest.
Qed.

(** A space before something that is none. *)
Lemma literal_space c rest : c ≠ 32 → literal " " (32 :: c :: rest) = Some (c :: rest).
Proof.
  intros Hc. change (literal " " (32 :: c :: rest)) with (Some (drop_while (Z.eqb 32) (c :: rest))).
  cbn [drop_while]. by rewrite (proj2 (Z.eqb_neq 32 c)) by congruence.
Qed.

Lemma clock_time_fraction s rest nsec rest' : 0 ≤ s < 86400 → fraction rest = (nsec, rest') →
  clock_time (two (s / 3600) ++ 58 :: two (s / 60 mod 60) ++ 58 :: two (s mod 60) ++ rest) =
    Some (s * 1000000000 + nsec, rest').
Proof.
  intros Hs Hr. unfold clock_time, below, literal.
  assert (0 ≤ s / 3600 < 24) by (Z.div_mod_to_equations; lia).
  assert (0 ≤ s / 60 mod 60 < 60) by (apply Z.mod_pos_bound; lia).
  assert (0 ≤ s mod 60 < 60) by (apply Z.mod_pos_bound; lia).
  rewrite getnum_two by lia. cbn [mbind option_bind fst]. rewrite (proj2 (Z.ltb_lt (s / 3600) 24)) by lia.
  cbn [mbind option_bind]. change (skip false (bytes_of ":") (58 :: ?v)) with (Some v).
  cbn [mbind option_bind]. rewrite getnum_two by lia. cbn [mbind option_bind fst].
  rewrite (proj2 (Z.ltb_lt (s / 60 mod 60) 60)) by lia. cbn [mbind option_bind].
  change (skip false (bytes_of ":") (58 :: ?v)) with (Some v).
  cbn [mbind option_bind]. rewrite getnum_two by lia. cbn [mbind option_bind fst].
  rewrite (proj2 (Z.ltb_lt (s mod 60) 60)) by lia. cbn [mbind option_bind].
  rewrite Hr. do 2 f_equal. Z.div_mod_to_equations. lia.
Qed.

Lemma clock_time_text s rest : 0 ≤ s < 86400 → head rest = Some 32 →
  clock_time (two (s / 3600) ++ 58 :: two (s / 60 mod 60) ++ 58 :: two (s mod 60) ++ rest) =
    Some (s * 1000000000, rest).
Proof.
  intros Hs Hr. rewrite (clock_time_fraction s rest 0 rest) by
    (done || by destruct rest as [|c [|d rest]]; [done|done|injection Hr as ->]).
  by rewrite Z.add_0_r.
Qed.

Lemma date_of_seconds seconds :
  let d := date_of (seconds / 86400) in
  1 ≤ month d ≤ 12 ∧ 1 ≤ day d < 100 ∧
  Date (year d) (month d) (day d) (seconds mod 86400 * 1000000000) = Some (seconds * 1000000000).
Proof.
  intros d. destruct (days_of_date_of (seconds / 86400)) as [Hd Hv]. fold d in Hd, Hv.
  apply valid_date_true in Hv as Hr.
  assert (days_in (month d) (year d) ≤ 31) by (unfold days_in; repeat case_match; lia).
  split; [lia|]. split; [lia|]. unfold Date.
  assert (mkDate (year d) (month d) (day d) = d) as -> by by destruct d.
  rewrite Hv, Hd. f_equal. pose proof (Z.div_mod seconds 86400). lia.
Qed.

(** Literals before a number or a name. *)
Lemma literal_space_app l rest c : head l = Some c → c ≠ 32 → literal " " (32 :: l ++ rest) = Some (l ++ rest).
Proof. intros Hl Hc. destruct l as [|c' l]; [done|]. injection Hl as ->. by apply literal_space. Qed.

Lemma literal_comma_app l rest c :
  head l = Some c → c ≠ 32 → literal ", " (44 :: 32 :: l ++ rest) = Some (l ++ rest).
Proof.
  intros Hl Hc. destruct l as [|c' l]; [done|]. injection Hl as ->.
  exact (literal_space c (l ++ rest) Hc).
Qed.

Lemma two_head n : 0 ≤ n < 100 → head (two n) = Some (48 + n / 10) ∧ 48 + n / 10 ≠ 32.
Proof. intros Hn. split; [done|]. Z.div_mod_to_equations. lia. Qed.

Lemma month_head m : 1 ≤ m ≤ 12 →
  ∃ c, head (shortMonthNames !!! Z.to_nat (m - 1)) = Some c ∧ c ≠ 32.
Proof.
  intros Hm. assert (m = 1 ∨ m = 2 ∨ m = 3 ∨ m = 4 ∨ m = 5 ∨ m = 6 ∨ m = 7 ∨ m = 8 ∨ m = 9 ∨ m = 10 ∨ m = 11 ∨ m = 12)
    as Hc by lia.
  destruct Hc as [->|[->|[->|[->|[->|[->|[->|[->|[->|[->|[->| ->]]]]]]]]]]]; eexists; split; [reflexivity|done..].
Qed.

Lemma parse_imf_text seconds : four_digit_year seconds →
  parse_imf (http_date seconds) = Some (seconds * 1000000000).
Proof.
  unfold four_digit_year. intros Hy. destruct (date_of_seconds seconds) as (Hm & Hd & Hdate).
  unfold http_date, parse_imf. set (dt := date_of (seconds / 86400)) in *. set (s := seconds mod 86400) in *.
  assert (Hs : 0 ≤ s < 86400) by (apply Z.mod_pos_bound; lia).
  assert (H1 : 0 ≤ day dt < 100) by lia. assert (H2 : 0 ≤ year dt / 100 < 100) by (Z.div_mod_to_equations; lia).
  assert (H3 : 0 ≤ s / 3600 < 100) by (Z.div_mod_to_equations; lia).
  destruct (two_head _ H1) as [? ?], (two_head _ H2) as [? ?], (two_head _ H3) as [? ?], (month_head _ Hm) as (? & ? & ?).
  rewrite lookup_short_day by (apply Z.mod_pos_bound; lia). cbn [mbind option_bind app].
  erewrite literal_comma_app by eassumption. cbn [mbind option_bind].
  rewrite getnum_two by done. cbn [mbind option_bind].
  erewrite literal_space_app by eassumption. cbn [mbind option_bind].
  rewrite lookup_month by done. cbn [mbind option_bind].
  unfold four. rewrite <- app_assoc. erewrite literal_space_app by eassumption. cbn [mbind option_bind].
  rewrite (app_assoc (two (year dt / 100))). fold (four (year dt)). rewrite long_year_four by done.
  cbn [mbind option_bind]. erewrite literal_space_app by eassumption. cbn [mbind option_bind].
  rewrite clock_time_text by done. cbn [mbind option_bind].
  change (literal " GMT" (bytes_of " GMT")) with (Some (@nil Z)). cbn [mbind option_bind].
  by rewrite Hdate.
Qed.

(** [http.ParseTime] reads what [http.TimeFormat] writes. *)
Lemma ParseTime_http_date `{HttpTime} seconds : four_digit_year seconds → Forall is_byte (http_date seconds) →
  ParseTime (string_of (http_date seconds)) = Some (seconds * 1000000000).
Proof. intros Hy Hb. unfold ParseTime. by rewrite bytes_of_string_of, parse_imf_text by done. Qed.
