(* ===== verification/Json.v ===== *)
(** * Package encoding/json, as far as the service uses it

    The decoder's grammar on byte strings with Go's treatment of escapes, of
    invalid UTF-8 and of nesting, values as trees with their members in order
    and repeated keys kept, and the encoder's string quoting. *)

From S2P Require Import Prelude GoStrings GoUrl.

Local Open Scope Z_scope.

Inductive json : Type :=
  | JNull
  | JBool (b : bool)
  | JNum (literal : list Z)
  | JStr (s : list Z)
  | JArr (l : list json)
  | JObj (l : list (list Z * json)).

(** A byte the grammar does not allow, or input that ends inside a value. *)
Inductive json_error : Type := Syntax | UnexpectedEnd.

Notation parsed A := (result json_error (A * list Z)).

(** ** Lexical elements *)

Definition is_ws (b : Z) : bool := (b =? 32) || (b =? 9) || (b =? 13) || (b =? 10).

Fixpoint skip_ws (l : list Z) : list Z :=
  match l with
  | b :: t => if is_ws b then skip_ws t else l
  | [] => []
  end.

Fixpoint expect (word l : list Z) : parsed unit :=
  match word, l with
  | [], _ => Ok (tt, l)
  | _, [] => Err UnexpectedEnd
  | w :: word, b :: l => if b =? w then expect word l else Err Syntax
  end.

(** The longest run of digits. *)
Fixpoint span_digits (l : list Z) : list Z * list Z :=
  match l with
  | b :: t => if is_digit b then let '(ds, r) := span_digits t in (b :: ds, r) else ([], l)
  | [] => ([], [])
  end.

Definition digits1 (l : list Z) : parsed (list Z) :=
  match span_digits l with
  | ([], []) => Err UnexpectedEnd
  | ([], _) => Err Syntax
  | (ds, r) => Ok (ds, r)
  end.

Definition number_int (l : list Z) : parsed (list Z) :=
  match l with
  | [] => Err UnexpectedEnd
  | b :: t => if b =? 48 then Ok ([b], t) else digits1 l
  end.

Definition number_frac (l : list Z) : parsed (list Z) :=
  match l with
  | b :: t => if b =? 46 then '(ds, r) ← digits1 t; Ok (b :: ds, r) else Ok ([], l)
  | [] => Ok ([], l)
  end.

Definition number_exp (l : list Z) : parsed (list Z) :=
  match l with
  | b :: t =>
      if (b =? 101) || (b =? 69) then
        match t with
        | s :: t' => if (s =? 43) || (s =? 45)
                     then '(ds, r) ← digits1 t'; Ok (b :: s :: ds, r)
                     else '(ds, r) ← digits1 t; Ok (b :: ds, r)
        | [] => Err UnexpectedEnd
        end
      else Ok ([], l)
  | [] => Ok ([], l)
  end.

Definition parse_number (l : list Z) : parsed (list Z) :=
  let '(sign, l) := match l with
                    | b :: t => if b =? 45 then ([b], t) else ([], l)
                    | [] => ([], l)
                    end in
  '(i, l) ← number_int l;
  '(f, l) ← number_frac l;
  '(e, l) ← number_exp l;
  Ok (sign ++ i ++ f ++ e, l).

(** [\uXXXX] *)
Definition hex4 (a b c d : Z) : option Z :=
  if is_hex a && is_hex b && is_hex c && is_hex d
  then Some (((unhex a * 16 + unhex b) * 16 + unhex c) * 16 + unhex d)
  else None.

Definition is_surrogate (r : Z) : bool := (55296 <=? r) && (r <? 57344).

(** [utf16.DecodeRune], or [None] for U+FFFD. *)
Definition surrogate_pair (r r' : Z) : option Z :=
  if (55296 <=? r) && (r <? 56320) && (56320 <=? r') && (r' <? 57344)
  then Some ((r - 55296) * 1024 + (r' - 56320) + 65536)
  else None.

Definition escape_char (e : Z) : option Z :=
  if (e =? 34) || (e =? 92) || (e =? 47) then Some e
  else if e =? 98 then Some 8
  else if e =? 102 then Some 12
  else if e =? 110 then Some 10
  else if e =? 114 then Some 13
  else if e =? 116 then Some 9
  else None.

(** The bytes of a string literal after its opening quote, escapes replaced;
    [sanitize] then replaces what is not UTF-8. *)
Fixpoint string_bytes (l : list Z) : parsed (list Z) :=
  match l with
  | [] => Err UnexpectedEnd
  | b :: t =>
      if b =? 34 then Ok ([], t)
      else if b =? 92 then
        match t with
        | [] => Err UnexpectedEnd
        | e :: t1 =>
            if e =? 117 then
              match t1 with
              | h1 :: h2 :: h3 :: h4 :: t2 =>
                  match hex4 h1 h2 h3 h4 with
                  | None => Err Syntax
                  | Some r =>
                      let plain rune := '(s, rest) ← string_bytes t2; Ok (encode_rune rune ++ s, rest) in
                      if is_surrogate r then
                        match t2 with
                        | b' :: u' :: g1 :: g2 :: g3 :: g4 :: t3 =>
                            match (if (b' =? 92) && (u' =? 117) then hex4 g1 g2 g3 g4 else None) with
                            | Some r' =>
                                match surrogate_pair r r' with
                                | Some rune => '(s, rest) ← string_bytes t3; Ok (encode_rune rune ++ s, rest)
                                | None => plain RuneError
                                end
                            | None => plain RuneError
                            end
                        | _ => plain RuneError
                        end
                      else plain r
                  end
              | _ => if forallb is_hex t1 then Err UnexpectedEnd else Err Syntax
              end
            else match escape_char e with
            | None => Err Syntax
            | Some c => '(s, rest) ← string_bytes t1; Ok (c :: s, rest)
            end
        end
      else if b <? 32 then Err Syntax
      else '(s, rest) ← string_bytes t; Ok (b :: s, rest)
  end.

Definition sanitize (l : list Z) : list Z := mjoin (encode_rune <$> runes l).

Definition parse_string (l : list Z) : parsed (list Z) :=
  '(s, rest) ← string_bytes l; Ok (sanitize s, rest).

(** ** Values *)

(** The deepest nesting the scanner accepts. *)
Definition maxNestingDepth : Z := 10000.

(** Every call consumes input, so twice the length of the input is fuel
    enough. *)
Fixpoint parse_value (fuel : nat) (depth : Z) (l : list Z) : parsed json :=
  match fuel with
  | O => Err Syntax
  | S fuel =>
      match skip_ws l with
      | [] => Err UnexpectedEnd
      | b :: t =>
          if b =? 123 then
            if depth <=? 0 then Err Syntax
            else match skip_ws t with
            | [] => Err UnexpectedEnd
            | c :: t' =>
                if c =? 125 then Ok (JObj [], t')
                else '(ms, r) ← parse_members fuel (depth - 1) t; Ok (JObj ms, r)
            end
          else if b =? 91 then
            if depth <=? 0 then Err Syntax
            else match skip_ws t with
            | [] => Err UnexpectedEnd
            | c :: t' =>
                if c =? 93 then Ok (JArr [], t')
                else '(vs, r) ← parse_elements fuel (depth - 1) t; Ok (JArr vs, r)
            end
          else if b =? 34 then '(s, r) ← parse_string t; Ok (JStr s, r)
          else if b =? 116 then '(_, r) ← expect (bytes_of "rue") t; Ok (JBool true, r)
          else if b =? 102 then '(_, r) ← expect (bytes_of "alse") t; Ok (JBool false, r)
          else if b =? 110 then '(_, r) ← expect (bytes_of "ull") t; Ok (JNull, r)
          else if (b =? 45) || is_digit b then '(n, r) ← parse_number (b :: t); Ok (JNum n, r)
          else Err Syntax
      end
  end
with parse_members (fuel : nat) (depth : Z) (l : list Z) : parsed (list (list Z * json)) :=
  match fuel with
  | O => Err Syntax
  | S fuel =>
      match skip_ws l with
      | [] => Err UnexpectedEnd
      | q :: t =>
          if negb (q =? 34) then Err Syntax
          else
            '(k, t) ← parse_string t;
            match skip_ws t with
            | [] => Err UnexpectedEnd
            | c :: t =>
                if negb (c =? 58) then Err Syntax
                else
                  '(v, t) ← parse_value fuel depth t;
                  match skip_ws t with
                  | [] => Err UnexpectedEnd
                  | c :: t =>
                      if c =? 125 then Ok ([(k, v)], t)
                      else if c =? 44 then
                        '(ms, r) ← parse_members fuel depth t; Ok ((k, v) :: ms, r)
                      else Err Syntax
                  end
            end
      end
  end
with parse_elements (fuel : nat) (depth : Z) (l : list Z) : parsed (list json) :=
  match fuel with
  | O => Err Syntax
  | S fuel =>
      '(v, t) ← parse_value fuel depth l;
      match skip_ws t with
      | [] => Err UnexpectedEnd
      | c :: t =>
          if c =? 93 then Ok ([v], t)
          else if c =? 44 then '(vs, r) ← parse_elements fuel depth t; Ok (v :: vs, r)
          else Err Syntax
      end
  end.

(** The next value of a stream. *)
Definition next_value (l : list Z) : parsed json :=
  parse_value (S (2 * length l)) maxNestingDepth l.

(** ** Quoting: [json.Marshal] of a string *)

Definition hex_digit_of (n : Z) : Z := if n <? 10 then 48 + n else 87 + n.

Definition quote_ascii (b : Z) : list Z :=
  if (b =? 34) || (b =? 92) then [92; b]
  else if b =? 8 then [92; 98]
  else if b =? 12 then [92; 102]
  else if b =? 10 then [92; 110]
  else if b =? 13 then [92; 114]
  else if b =? 9 then [92; 116]
  else if (b <? 32) || (b =? 60) || (b =? 62) || (b =? 38)
  then [92; 117; 48; 48; hex_digit_of (Z.shiftr b 4); hex_digit_of (Z.land b 15)]
  else [b].

Definition quote_rune (chunk : Z * list Z) : list Z :=
  let '(r, bytes) := chunk in
  if r <? 128 then quote_ascii r
  else if (r =? RuneError) && (length bytes =? 1)%nat then bytes_of "\ufffd"
  else if r =? 8232 then bytes_of "\u2028"
  else if r =? 8233 then bytes_of "\u2029"
  else bytes.

Definition quote (s : string) : list Z :=
  34 :: mjoin (quote_rune <$> rune_chunks (bytes_of s)) ++ [34].

(** ** Plain texts read back *)

(** A character that stands for itself in a string literal. *)
Definition plain (b : Z) : Prop :=
  32 ≤ b < 127 ∧ b ≠ 34 ∧ b ≠ 92 ∧ b ≠ 60 ∧ b ≠ 62 ∧ b ≠ 38.

Lemma plain_ascii l : Forall plain l → Forall is_ascii l.
Proof. intros Hl. eapply Forall_impl; [done|]. unfold plain, is_ascii. simpl. lia. Qed.

Lemma string_bytes_plain p rest :
  Forall plain p → string_bytes (p ++ 34 :: rest) = Ok (p, rest).
Proof.
  induction 1 as [|b p Hb _ IH]; [done|]. cbn [app string_bytes]. unfold plain in Hb.
  rewrite (proj2 (Z.eqb_neq b 34)), (proj2 (Z.eqb_neq b 92)), (proj2 (Z.ltb_ge b 32)) by lia.
  by rewrite IH.
Qed.

Lemma mjoin_singletons {A} (f : A → list A) l :
  Forall (λ a, f a = [a]) l → mjoin (f <$> l) = l.
Proof.
  induction 1 as [|a l Ha _ IH]; [done|]. rewrite fmap_cons.
  change (f a ++ mjoin (f <$> l) = a :: l). by rewrite Ha, IH.
Qed.

Lemma sanitize_ascii l : Forall is_ascii l → sanitize l = l.
Proof.
  intros Hl. unfold sanitize. rewrite runes_ascii by done. apply mjoin_singletons.
  eapply Forall_impl; [exact Hl|]. unfold is_ascii, encode_rune. intros b Hb.
  by rewrite (proj2 (Z.leb_le 0 b)), (proj2 (Z.ltb_lt b 128)) by lia.
Qed.

Lemma parse_string_plain p rest :
  Forall plain p → parse_string (p ++ 34 :: rest) = Ok (p, rest).
Proof.
  intros Hp. unfold parse_string. rewrite string_bytes_plain by done. cbn.
  by rewrite sanitize_ascii by (by apply plain_ascii).
Qed.

Lemma quote_plain s : Forall plain (bytes_of s) → quote s = 34 :: bytes_of s ++ [34].
Proof.
  intros Hs. unfold quote. rewrite rune_chunks_ascii by (by apply plain_ascii).
  rewrite <- list_fmap_compose. do 2 f_equal. apply mjoin_singletons.
  eapply Forall_impl; [exact Hs|]. unfold plain, compose, quote_rune, quote_ascii. intros b Hb.
  rewrite (proj2 (Z.ltb_lt b 128)), (proj2 (Z.eqb_neq b 34)), (proj2 (Z.eqb_neq b 92)),
    (proj2 (Z.eqb_neq b 8)), (proj2 (Z.eqb_neq b 12)), (proj2 (Z.eqb_neq b 10)),
    (proj2 (Z.eqb_neq b 13)), (proj2 (Z.eqb_neq b 9)), (proj2 (Z.ltb_ge b 32)),
    (proj2 (Z.eqb_neq b 60)), (proj2 (Z.eqb_neq b 62)), (proj2 (Z.eqb_neq b 38)) by lia. done.
Qed.

(** A byte that ends a number. *)
Definition ends_number (c : Z) : Prop := is_digit c = false ∧ c ≠ 46 ∧ c ≠ 101 ∧ c ≠ 69.

Lemma span_digits_app ds c r :
  Forall (λ b, 48 ≤ b ≤ 57) ds → is_digit c = false → span_digits (ds ++ c :: r) = (ds, c :: r).
Proof.
  intros Hd Hc. induction Hd as [|b ds Hb _ IH]; cbn; [by rewrite Hc|]. unfold is_digit at 1.
  rewrite (proj2 (Z.leb_le 48 b)), (proj2 (Z.leb_le b 57)) by lia. cbn. by rewrite IH.
Qed.

Lemma parse_number_nat b ds c r :
  Forall (λ b, 48 ≤ b ≤ 57) (b :: ds) → (b = 48 → ds = []) → ends_number c →
  parse_number (b :: ds ++ c :: r) = Ok (b :: ds, c :: r).
Proof.
  intros Hd Hz (Hc & H1 & H2 & H3). unfold parse_number.
  assert (Hb : 48 ≤ b ≤ 57) by (by apply Forall_cons in Hd as [? _]).
  rewrite (proj2 (Z.eqb_neq b 45)) by lia. cbn [app].
  assert (number_int (b :: ds ++ c :: r) = Ok (b :: ds, c :: r)) as ->.
  { unfold number_int. destruct (Z.eqb_spec b 48) as [E|]; [by rewrite (Hz E)|].
    unfold digits1. change (b :: ds ++ c :: r) with ((b :: ds) ++ c :: r).
    by rewrite span_digits_app. }
  cbn. rewrite (proj2 (Z.eqb_neq c 46)) by done. cbn.
  rewrite (proj2 (Z.eqb_neq c 101)), (proj2 (Z.eqb_neq c 69)) by done. cbn.
  by rewrite !app_nil_r.
Qed.

(** ** The fuel is enough *)

Lemma skip_ws_length l : (length (skip_ws l) ≤ length l)%nat.
Proof. induction l as [|b l IH]; cbn; [done|]. destruct (is_ws b); cbn; lia. Qed.

Lemma expect_length word l r : expect word l = Ok (tt, r) → (length r ≤ length l)%nat.
Proof.
  revert l. induction word as [|w word IH]; intros [|b l]; cbn; try (intros [= <-]; cbn; lia); try done.
  destruct (b =? w); [|done]. intros Hr%IH. lia.
Qed.

Lemma span_digits_length l : (length (span_digits l).2 ≤ length l)%nat.
Proof.
  induction l as [|b l IH]; cbn; [done|]. destruct (is_digit b); [|done].
  destruct (span_digits l). cbn in *. lia.
Qed.

Lemma digits1_length l ds r : digits1 l = Ok (ds, r) → (length r ≤ length l)%nat.
Proof.
  unfold digits1. pose proof (span_digits_length l) as Hl.
  destruct (span_digits l) as [[|d ds'] r']; cbn in Hl; [by destruct r'|]. by intros [= _ <-].
Qed.

Lemma parse_number_length l n r : parse_number l = Ok (n, r) → (length r ≤ length l)%nat.
Proof.
  unfold parse_number. intros Hp.
  destruct (match l with b :: t => _ | [] => _ end) as [sign l1] eqn:E1.
  assert (length l1 ≤ length l)%nat by (destruct l; [|case_match]; simplify_eq/=; lia).
  apply result_bind_Ok in Hp as ([i l2] & Hi & Hp).
  apply result_bind_Ok in Hp as ([f l3] & Hf & Hp).
  apply result_bind_Ok in Hp as ([e l4] & He & [= _ <-]).
  assert (length l2 ≤ length l1)%nat.
  { unfold number_int in Hi. destruct l1; [done|]. case_match; [simplify_eq/=; lia|].
    by eapply digits1_length. }
  assert (length l3 ≤ length l2)%nat.
  { unfold number_frac in Hf. destruct l2; [by simplify_eq|]. case_match; [|by simplify_eq].
    apply result_bind_Ok in Hf as ([ds r'] & Hd%digits1_length & [= _ <-]). cbn. lia. }
  assert (length l4 ≤ length l3)%nat; [|lia].
  unfold number_exp in He. destruct l3 as [|b t]; [by simplify_eq|]. case_match; [|by simplify_eq].
  destruct t as [|s t']; [done|].
  case_match; apply result_bind_Ok in He as ([ds r'] & Hd%digits1_length & [= _ <-]); cbn in *; lia.
Qed.

Lemma string_bytes_length l s r : string_bytes l = Ok (s, r) → (length r ≤ length l)%nat.
Proof.
  remember (length l) as n eqn:Hn. revert l s r Hn.
  induction (lt_wf n) as [n _ IH]. intros l s r -> Hs.
  assert (Hrec : ∀ l' pre, (length l' < length l)%nat →
    ('(s, rest) ← string_bytes l'; Ok (pre ++ s, rest)) = Ok (s, r) → (length r ≤ length l)%nat).
  { intros l' pre Hl Hr. apply result_bind_Ok in Hr as ([s' r'] & Hr & [= _ <-]).
    apply (IH (length l') Hl l' s' r') in Hr; [lia|done]. }
  destruct l as [|b t]; [done|]. cbn [string_bytes] in Hs.
  destruct (b =? 34); [simplify_eq/=; lia|]. destruct (b =? 92).
  - destruct t as [|e t1]; [done|]. destruct (e =? 117).
    + destruct t1 as [|h1 [|h2 [|h3 [|h4 t2]]]]; try (by case_match).
      destruct (hex4 h1 h2 h3 h4) as [c|]; [|done].
      destruct (is_surrogate c); [|eapply Hrec; [|exact Hs]; cbn; lia].
      repeat (case_match; try (eapply Hrec; [|exact Hs]; cbn; lia)).
    + destruct (escape_char e) as [c|]; [|done]. eapply (Hrec _ [c]); [|exact Hs]. cbn; lia.
  - destruct (b <? 32); [done|]. eapply (Hrec _ [b]); [|exact Hs]. cbn; lia.
Qed.

Lemma parse_string_length l s r : parse_string l = Ok (s, r) → (length r ≤ length l)%nat.
Proof.
  unfold parse_string. intros ([s' r'] & Hs & [= _ <-])%result_bind_Ok. by eapply string_bytes_length.
Qed.

(** What follows a value is shorter than where it started. *)
Lemma parse_lengths fuel :
  (∀ d l v r, parse_value fuel d l = Ok (v, r) → (length r ≤ length l)%nat) ∧
  (∀ d l ms r, parse_members fuel d l = Ok (ms, r) → (length r ≤ length l)%nat) ∧
  (∀ d l vs r, parse_elements fuel d l = Ok (vs, r) → (length r ≤ length l)%nat).
Proof.
  induction fuel as [|fuel (IHv & IHm & IHe)]; [by split_and!|].
  split_and!; intros d l x r Hp; cbn [parse_value parse_members parse_elements] in Hp.
  - pose proof (skip_ws_length l). destruct (skip_ws l) as [|b t]; [done|]. cbn [length] in *.
    assert (Hd : ∀ {A} (m : parsed A) (f : A → json),
      (∀ a r', m = Ok (a, r') → (length r' ≤ S (length t))%nat) →
      ('(a, r') ← m; Ok (f a, r')) = Ok (x, r) → (length r ≤ length l)%nat).
    { intros A m f Hm ([a r'] & Ha & [= _ <-])%result_bind_Ok. apply Hm in Ha. lia. }
    pose proof (skip_ws_length t).
    destruct (b =? 123); [|destruct (b =? 91)].
    1, 2: destruct (d <=? 0); [done|]; destruct (skip_ws t) as [|c t']; [done|]; cbn [length] in *;
      case_match; [simplify_eq; lia|]; eapply Hd; [|exact Hp]; naive_solver lia.
    destruct (b =? 34); [eapply Hd; [|exact Hp]; intros ? ? ?%parse_string_length; lia|].
    do 3 (case_match; [eapply Hd; [|exact Hp]; intros [] ? ?%expect_length; lia|]).
    repeat case_match; try done; (eapply Hd; [|exact Hp]);
      intros ? ? Hn%parse_number_length; exact Hn.
  - pose proof (skip_ws_length l). destruct (skip_ws l) as [|q t]; [done|]. cbn [length] in *.
    case_match; [done|]. apply result_bind_Ok in Hp as ([k t1] & Hk%parse_string_length & Hp).
    pose proof (skip_ws_length t1). destruct (skip_ws t1) as [|c t2]; [done|]. cbn [length] in *.
    case_match; [done|]. apply result_bind_Ok in Hp as ([v t3] & Hv%IHv & Hp).
    pose proof (skip_ws_length t3). destruct (skip_ws t3) as [|c' t4]; [done|]. cbn [length] in *.
    case_match; [simplify_eq; lia|]. case_match; [|done].
    apply result_bind_Ok in Hp as ([ms r'] & Hm%IHm & [= _ <-]). lia.
  - apply result_bind_Ok in Hp as ([v t] & Hv%IHv & Hp).
    pose proof (skip_ws_length t). destruct (skip_ws t) as [|c t']; [done|]. cbn [length] in *.
    case_match; [simplify_eq; lia|]. case_match; [|done].
    apply result_bind_Ok in Hp as ([vs r'] & Hm%IHe & [= _ <-]). lia.
Qed.

Lemma bind_ext {A B} (m m' : result json_error A) (f g : A → result json_error B) :
  m = m' → (∀ a, m' = Ok a → f a = g a) → m ≫= f = m' ≫= g.
Proof. intros -> Hf. destruct m'; cbn; auto. Qed.

(** Any two amounts of fuel above twice the length give the same answer. *)
Lemma parse_fuel n m :
  (∀ d l, (2 * length l < n)%nat → (2 * length l < m)%nat → parse_value n d l = parse_value m d l) ∧
  (∀ d l, (S (2 * length l) < n)%nat → (S (2 * length l) < m)%nat →
     parse_members n d l = parse_members m d l) ∧
  (∀ d l, (S (2 * length l) < n)%nat → (S (2 * length l) < m)%nat →
     parse_elements n d l = parse_elements m d l).
Proof.
  revert m. induction n as [|n IH]; intros m; [split_and!; intros; lia|].
  destruct m as [|m]; [split_and!; intros; lia|].
  destruct (IH m) as (IHv & IHm & IHe). destruct (parse_lengths m) as (Lv & Lm & Le).
  split_and!; intros d l Hn Hm; cbn [parse_value parse_members parse_elements].
  - pose proof (skip_ws_length l). destruct (skip_ws l) as [|b t]; [done|]. cbn [length] in *.
    repeat (case_match; try done); apply bind_ext; try done; [apply IHm|apply IHe]; lia.
  - pose proof (skip_ws_length l). destruct (skip_ws l) as [|q t]; [done|]. cbn [length] in *.
    case_match; [done|]. apply bind_ext; [done|]. intros [k t1] Hk%parse_string_length.
    pose proof (skip_ws_length t1). destruct (skip_ws t1) as [|c t2]; [done|]. cbn [length] in *.
    case_match; [done|]. apply bind_ext; [apply IHv; lia|]. intros [v t3] Hv%Lv.
    pose proof (skip_ws_length t3). destruct (skip_ws t3) as [|c' t4]; [done|]. cbn [length] in *.
    case_match; [done|]. case_match; [|done]. apply bind_ext; [apply IHm; lia|done].
  - apply bind_ext; [apply IHv; lia|]. intros [v t] Hv%Lv.
    pose proof (skip_ws_length t). destruct (skip_ws t) as [|c t']; [done|]. cbn [length] in *.
    case_match; [done|]. case_match; [|done]. apply bind_ext; [apply IHe; lia|done].
Qed.

(** [next_value] is the grammar without a bound on the work. *)
Lemma next_value_fuel l fuel :
  (2 * length l < fuel)%nat → next_value l = parse_value fuel maxNestingDepth l.
Proof. intros Hf. unfold next_value. apply (parse_fuel (S (2 * length l)) fuel); lia. Qed.
