(* ===== verification/Utf8.v ===== *)
(** * Valid UTF-8

    The chunks the decoder cuts a text into are what the encoder writes for
    their runes, so that a valid text is its own sanitised form. *)

From S2P Require Import Prelude GoStrings GoUrl Json.

Local Open Scope Z_scope.

(** ** The bits of a sequence as arithmetic *)

Lemma lor_shiftl a c k : 0 ≤ k → 0 ≤ c < 2 ^ k → Z.lor (Z.shiftl a k) c = a * 2 ^ k + c.
Proof.
  intros Hk Hc. pose proof (Z.add_lor_land (Z.shiftl a k) c) as Hadd.
  assert (Z.land (Z.shiftl a k) c = 0) as E.
  { rewrite <- (Z.mod_small c (2 ^ k)), <- Z.land_ones by lia.
    rewrite (Z.land_comm c), Z.land_assoc, Z.land_ones, Z.shiftl_mul_pow2, Z.mod_mul by lia.
    apply Z.land_0_l. }
  rewrite Z.shiftl_mul_pow2 in * by done. lia.
Qed.

(** Continuation and lead bytes. *)
Lemma lor_128 c : 0 ≤ c < 64 → Z.lor 128 c = 128 + c.
Proof. intros Hc. change 128 with (Z.shiftl 2 6). rewrite lor_shiftl by lia. done. Qed.
Lemma lor_192 c : 0 ≤ c < 64 → Z.lor 192 c = 192 + c.
Proof. intros Hc. change 192 with (Z.shiftl 3 6). rewrite lor_shiftl by lia. done. Qed.
Lemma lor_224 c : 0 ≤ c < 16 → Z.lor 224 c = 224 + c.
Proof. intros Hc. change 224 with (Z.shiftl 14 4). rewrite lor_shiftl by lia. done. Qed.
Lemma lor_240 c : 0 ≤ c < 8 → Z.lor 240 c = 240 + c.
Proof. intros Hc. change 240 with (Z.shiftl 30 3). rewrite lor_shiftl by lia. done. Qed.

Lemma land_low b k : 0 ≤ k → Z.land b (Z.ones k) = b mod 2 ^ k.
Proof. intros. by apply Z.land_ones. Qed.

Ltac bits_to_arith :=
  change 63 with (Z.ones 6) in *; change 31 with (Z.ones 5) in *;
  change 15 with (Z.ones 4) in *; change 7 with (Z.ones 3) in *;
  rewrite ?land_low in * by lia;
  change (2 ^ 6) with 64 in *; change (2 ^ 5) with 32 in *; change (2 ^ 4) with 16 in *;
  change (2 ^ 3) with 8 in *.

Lemma mod_byte b m k : 0 < m → k * m ≤ b < (k + 1) * m → b mod m = b - k * m.
Proof. intros Hm Hb. symmetry. apply (Z.mod_unique _ _ k); lia. Qed.

(** The value of a sequence, and what the encoder makes of it. *)
Lemma two_value b0 b1 : 194 ≤ b0 ≤ 223 → 128 ≤ b1 ≤ 191 →
  Z.lor (Z.shiftl (Z.land b0 31) 6) (Z.land b1 63) = (b0 - 192) * 64 + (b1 - 128).
Proof.
  intros H0 H1. bits_to_arith. rewrite (mod_byte b0 32 6), (mod_byte b1 64 2) by lia.
  rewrite lor_shiftl by lia. lia.
Qed.

Lemma three_value b0 b1 b2 : 224 ≤ b0 ≤ 239 → 128 ≤ b1 ≤ 191 → 128 ≤ b2 ≤ 191 →
  Z.lor (Z.shiftl (Z.land b0 15) 12) (Z.lor (Z.shiftl (Z.land b1 63) 6) (Z.land b2 63)) =
    (b0 - 224) * 4096 + (b1 - 128) * 64 + (b2 - 128).
Proof.
  intros H0 H1 H2. bits_to_arith.
  rewrite (mod_byte b0 16 14), (mod_byte b1 64 2), (mod_byte b2 64 2) by lia.
  rewrite (lor_shiftl _ _ 6), lor_shiftl by lia. lia.
Qed.

Lemma four_value b0 b1 b2 b3 : 240 ≤ b0 ≤ 244 → 128 ≤ b1 ≤ 191 → 128 ≤ b2 ≤ 191 → 128 ≤ b3 ≤ 191 →
  Z.lor (Z.shiftl (Z.land b0 7) 18) (Z.lor (Z.shiftl (Z.land b1 63) 12)
    (Z.lor (Z.shiftl (Z.land b2 63) 6) (Z.land b3 63))) =
    (b0 - 240) * 262144 + (b1 - 128) * 4096 + (b2 - 128) * 64 + (b3 - 128).
Proof.
  intros H0 H1 H2 H3. bits_to_arith.
  rewrite (mod_byte b0 8 30), (mod_byte b1 64 2), (mod_byte b2 64 2), (mod_byte b3 64 2) by lia.
  rewrite (lor_shiftl _ _ 6) by lia. rewrite (lor_shiftl _ _ 12) by lia. rewrite lor_shiftl by lia. lia.
Qed.

Lemma shiftr_div r k : 0 ≤ k → Z.shiftr r k = r / 2 ^ k.
Proof. apply Z.shiftr_div_pow2. Qed.

(** The encodings by length. *)
Lemma encode_two x y : 2 ≤ x < 32 → 0 ≤ y < 64 → encode_rune (x * 64 + y) = [192 + x; 128 + y].
Proof.
  intros Hx Hy. unfold encode_rune.
  rewrite (proj2 (Z.ltb_ge _ 128)), andb_false_r, (proj2 (Z.leb_le 128 _)), (proj2 (Z.ltb_lt _ 2048)) by lia.
  cbn [andb]. rewrite shiftr_div by lia. bits_to_arith.
  rewrite Z.div_add_l, Z.div_small, Z.add_0_r by lia. rewrite Z.add_comm, Z.mod_add, Z.mod_small by lia.
  by rewrite lor_192, lor_128 by lia.
Qed.

Lemma encode_three x y z : 0 ≤ x < 16 → 0 ≤ y < 64 → 0 ≤ z < 64 →
  2048 ≤ x * 4096 + y * 64 + z → ¬ 55296 ≤ x * 4096 + y * 64 + z < 57344 →
  encode_rune (x * 4096 + y * 64 + z) = [224 + x; 128 + y; 128 + z].
Proof.
  intros Hx Hy Hz Hlo Hsur. set (r := x * 4096 + y * 64 + z) in *.
  assert (r / 4096 = x) as E1 by (symmetry; apply (Z.div_unique_pos _ _ _ (y * 64 + z)); lia).
  assert (r / 64 = x * 64 + y) as E2 by (symmetry; apply (Z.div_unique_pos _ _ _ z); lia).
  assert (r mod 64 = z) as E3 by (symmetry; apply (Z.mod_unique_pos _ _ (x * 64 + y)); lia).
  unfold encode_rune. rewrite (proj2 (Z.ltb_ge r 128)), andb_false_r by lia.
  rewrite (proj2 (Z.ltb_ge r 2048)), andb_false_r by lia.
  rewrite (proj2 (Z.leb_le 2048 r)), (proj2 (Z.ltb_lt r 65536)) by lia.
  assert ((true && (r <? 55296)) || ((57344 <=? r) && true) = true) as ->.
  { rewrite andb_true_r. apply orb_true_iff. rewrite Z.leb_le. cbn [andb]. rewrite Z.ltb_lt. lia. }
  rewrite !shiftr_div by lia. bits_to_arith. change (2 ^ 12) with 4096. rewrite E1, E2, E3.
  rewrite (Z.add_comm (x * 64)), Z.mod_add, Z.mod_small by lia. by rewrite lor_224, !lor_128 by lia.
Qed.

Lemma encode_four w x y z : 0 ≤ w < 8 → 0 ≤ x < 64 → 0 ≤ y < 64 → 0 ≤ z < 64 →
  65536 ≤ w * 262144 + x * 4096 + y * 64 + z ≤ 1114111 →
  encode_rune (w * 262144 + x * 4096 + y * 64 + z) = [240 + w; 128 + x; 128 + y; 128 + z].
Proof.
  intros Hw Hx Hy Hz Hr. set (r := w * 262144 + x * 4096 + y * 64 + z) in *.
  assert (r / 262144 = w) as E0 by (symmetry; apply (Z.div_unique_pos _ _ _ (x * 4096 + y * 64 + z)); lia).
  assert (r / 4096 = w * 64 + x) as E1 by (symmetry; apply (Z.div_unique_pos _ _ _ (y * 64 + z)); lia).
  assert (r / 64 = (w * 64 + x) * 64 + y) as E2 by (symmetry; apply (Z.div_unique_pos _ _ _ z); lia).
  assert (r mod 64 = z) as E3 by (symmetry; apply (Z.mod_unique_pos _ _ ((w * 64 + x) * 64 + y)); lia).
  unfold encode_rune. rewrite (proj2 (Z.ltb_ge r 128)), andb_false_r by lia.
  rewrite (proj2 (Z.ltb_ge r 2048)), andb_false_r by lia.
  rewrite (proj2 (Z.ltb_ge r 55296)), (proj2 (Z.ltb_ge r 65536)), !andb_false_r by lia. cbn [orb].
  rewrite (proj2 (Z.leb_le 65536 r)), (proj2 (Z.leb_le r 1114111)) by lia. cbn [andb].
  rewrite !shiftr_div by lia. bits_to_arith. change (2 ^ 12) with 4096. change (2 ^ 18) with 262144.
  rewrite E0, E1, E2, E3.
  rewrite (Z.add_comm (w * 64)), Z.mod_add, (Z.mod_small x), (Z.add_comm (_ * 64) y), Z.mod_add, (Z.mod_small y) by lia.
  by rewrite lor_240, !lor_128 by lia.
Qed.

(** ** Decoding what was encoded *)

(** The rune that is written for a number: surrogates and numbers out of range
    give the replacement character. *)
Definition written_rune (r : Z) : Z :=
  if ((0 <=? r) && (r <? 55296)) || ((57344 <=? r) && (r <=? 1114111)) then r else RuneError.

Lemma cont_tail y : 0 ≤ y < 64 → cont (128 + y) = true.
Proof. intros Hy. unfold cont. rewrite andb_true_iff, !Z.leb_le. lia. Qed.

Lemma runes_two x y rest : 2 ≤ x < 32 → 0 ≤ y < 64 →
  runes ([192 + x; 128 + y] ++ rest) = x * 64 + y :: runes rest.
Proof.
  intros Hx Hy. cbn [app runes]. rewrite (proj2 (Z.ltb_ge _ 128)) by lia.
  rewrite (proj2 (Z.leb_le 194 _)), (proj2 (Z.leb_le _ 223)), cont_tail by lia. cbn [andb].
  rewrite two_value by lia. f_equal; lia.
Qed.

Lemma runes_three x y z rest : 0 ≤ x < 16 → 0 ≤ y < 64 → 0 ≤ z < 64 →
  2048 ≤ x * 4096 + y * 64 + z → ¬ 55296 ≤ x * 4096 + y * 64 + z < 57344 →
  runes ([224 + x; 128 + y; 128 + z] ++ rest) = x * 4096 + y * 64 + z :: runes rest.
Proof.
  intros Hx Hy Hz Hlo Hsur. cbn [app runes]. rewrite (proj2 (Z.ltb_ge _ 128)) by lia.
  rewrite (proj2 (Z.leb_gt (224 + x) 223)), andb_false_r by lia.
  rewrite (proj2 (Z.leb_le 224 _)), (proj2 (Z.leb_le _ 239)), (cont_tail z) by lia. cbn [andb].
  assert (second3 (224 + x) (128 + y) = true) as ->.
  { unfold second3, cont. repeat case_match; to_prop; rewrite andb_true_iff, !Z.leb_le; lia. }
  cbn [andb]. rewrite three_value by lia. f_equal; lia.
Qed.

Lemma runes_four w x y z rest : 0 ≤ w < 8 → 0 ≤ x < 64 → 0 ≤ y < 64 → 0 ≤ z < 64 →
  65536 ≤ w * 262144 + x * 4096 + y * 64 + z ≤ 1114111 →
  runes ([240 + w; 128 + x; 128 + y; 128 + z] ++ rest) =
    w * 262144 + x * 4096 + y * 64 + z :: runes rest.
Proof.
  intros Hw Hx Hy Hz Hr. cbn [app runes]. rewrite (proj2 (Z.ltb_ge _ 128)) by lia.
  rewrite (proj2 (Z.leb_gt (240 + w) 223)), (proj2 (Z.leb_gt (240 + w) 239)), !andb_false_r by lia.
  rewrite (proj2 (Z.leb_le 240 _)), (proj2 (Z.leb_le _ 244)), (cont_tail y), (cont_tail z) by lia.
  cbn [andb]. assert (second4 (240 + w) (128 + x) = true) as ->.
  { unfold second4, cont. repeat case_match; to_prop; rewrite andb_true_iff, !Z.leb_le; lia. }
  cbn [andb]. rewrite four_value by lia. f_equal; lia.
Qed.

(** Reading one written number gives it back, or the replacement character. *)
Lemma runes_encode r rest : runes (encode_rune r ++ rest) = written_rune r :: runes rest.
Proof.
  unfold written_rune. destruct (decide (0 ≤ r < 128)) as [Ha|Ha].
  { rewrite (proj2 (Z.leb_le 0 r)), (proj2 (Z.ltb_lt r 55296)) by lia. unfold encode_rune.
    rewrite (proj2 (Z.leb_le 0 r)), (proj2 (Z.ltb_lt r 128)) by lia. cbn [andb orb app runes].
    by rewrite (proj2 (Z.ltb_lt r 128)) by lia. }
  pose proof (Z.div_mod r 64 ltac:(lia)) as E1. pose proof (Z.mod_pos_bound r 64 ltac:(lia)).
  pose proof (Z.div_mod (r / 64) 64 ltac:(lia)) as E2. pose proof (Z.mod_pos_bound (r / 64) 64 ltac:(lia)).
  pose proof (Z.div_mod (r / 64 / 64) 64 ltac:(lia)) as E3.
  pose proof (Z.mod_pos_bound (r / 64 / 64) 64 ltac:(lia)).
  set (z := r mod 64) in *. set (y := (r / 64) mod 64) in *. set (x := (r / 64 / 64) mod 64) in *.
  set (w := r / 64 / 64 / 64) in *.
  destruct (_ || _) eqn:Hv;
    [apply orb_true_iff in Hv; rewrite !andb_true_iff, !Z.leb_le, Z.ltb_lt in Hv|].
  - destruct (decide (r < 2048)) as [H2|H2]; [|destruct (decide (r < 65536)) as [H3|H3]].
    + assert (r = r / 64 * 64 + z) as E by lia. rewrite E at 1.
      rewrite encode_two, runes_two by lia. f_equal; lia.
    + assert (r = r / 64 / 64 * 4096 + y * 64 + z) as E by lia. rewrite E at 1.
      rewrite encode_three, runes_three by lia. f_equal; lia.
    + assert (r = w * 262144 + x * 4096 + y * 64 + z) as E by lia. rewrite E at 1.
      rewrite encode_four, runes_four by lia. f_equal; lia.
  - apply orb_false_iff in Hv. rewrite !andb_false_iff, !Z.leb_gt, Z.ltb_ge in Hv.
    assert (encode_rune r = [239; 191; 189]) as ->; [|reflexivity].
    unfold encode_rune. repeat case_match; rewrite ?orb_true_iff in *; to_prop; try lia; done.
Qed.

Lemma runes_encoded l : runes (mjoin (encode_rune <$> l)) = written_rune <$> l.
Proof.
  induction l as [|r l IH]; [done|]. rewrite !fmap_cons, <- IH. apply runes_encode.
Qed.

(** The runes of a text mapped rune by rune. *)
Lemma runes_map_runes f s : range_runes (map_runes f s) = (written_rune ∘ f) <$> range_runes s.
Proof.
  unfold range_runes at 1. rewrite bytes_of_map_runes, (list_fmap_compose f encode_rune).
  by rewrite runes_encoded, list_fmap_compose.
Qed.

(** ** Chunks *)

(** A chunk of the decoder: a rune with its encoding, or a byte that starts no
    sequence. *)
Definition ascii_chunk (c : Z * list Z) : Prop := 0 ≤ c.1 < 128 ∧ c.2 = [c.1].
Definition high_chunk (c : Z * list Z) : Prop :=
  128 ≤ c.1 ∧ encode_rune c.1 = c.2 ∧ Forall (λ b, 128 ≤ b < 256) c.2.
Definition bad_chunk (c : Z * list Z) : bool := (c.1 =? RuneError) && (length c.2 =? 1)%nat.

Lemma cont_iff b : cont b = true ↔ 128 ≤ b ≤ 191.
Proof. unfold cont. rewrite andb_true_iff, !Z.leb_le. done. Qed.

Lemma second3_iff b0 b1 : 224 ≤ b0 ≤ 239 → second3 b0 b1 = true ↔
  128 ≤ b1 ≤ 191 ∧ (b0 = 224 → 160 ≤ b1) ∧ (b0 = 237 → b1 ≤ 159).
Proof.
  intros Hb. unfold second3. repeat case_match; to_prop; rewrite ?cont_iff, ?andb_true_iff, ?Z.leb_le; lia.
Qed.

Lemma second4_iff b0 b1 : 240 ≤ b0 ≤ 244 → second4 b0 b1 = true ↔
  128 ≤ b1 ≤ 191 ∧ (b0 = 240 → 144 ≤ b1) ∧ (b0 = 244 → b1 ≤ 143).
Proof.
  intros Hb. unfold second4. repeat case_match; to_prop; rewrite ?cont_iff, ?andb_true_iff, ?Z.leb_le; lia.
Qed.

Lemma two_chunk b0 b1 : 194 ≤ b0 ≤ 223 → cont b1 = true →
  high_chunk (Z.lor (Z.shiftl (Z.land b0 31) 6) (Z.land b1 63), [b0; b1]).
Proof.
  rewrite cont_iff. intros H0 H1. unfold high_chunk. cbn [fst snd]. rewrite two_value by lia. split_and!.
  - lia.
  - rewrite encode_two by lia. repeat f_equal; lia.
  - repeat constructor; lia.
Qed.

Lemma three_chunk b0 b1 b2 : 224 ≤ b0 ≤ 239 → second3 b0 b1 && cont b2 = true →
  high_chunk (Z.lor (Z.shiftl (Z.land b0 15) 12)
    (Z.lor (Z.shiftl (Z.land b1 63) 6) (Z.land b2 63)), [b0; b1; b2]).
Proof.
  intros H0. rewrite andb_true_iff, second3_iff, cont_iff by done. intros [(H1 & Ha & Hb) H2].
  unfold high_chunk. cbn [fst snd]. rewrite three_value by lia. split_and!.
  - lia.
  - rewrite encode_three by lia. repeat f_equal; lia.
  - repeat constructor; lia.
Qed.

Lemma four_chunk b0 b1 b2 b3 : 240 ≤ b0 ≤ 244 → second4 b0 b1 && cont b2 && cont b3 = true →
  high_chunk (Z.lor (Z.shiftl (Z.land b0 7) 18) (Z.lor (Z.shiftl (Z.land b1 63) 12)
    (Z.lor (Z.shiftl (Z.land b2 63) 6) (Z.land b3 63))), [b0; b1; b2; b3]).
Proof.
  intros H0. rewrite !andb_true_iff, second4_iff, !cont_iff by done. intros [[(H1 & Ha & Hb) H2] H3].
  unfold high_chunk. cbn [fst snd]. rewrite four_value by lia. split_and!.
  - lia.
  - rewrite encode_four by lia. repeat f_equal; lia.
  - repeat constructor; lia.
Qed.

(** The first chunk of a text, and what is left. *)
Lemma rune_chunks_step b t : is_byte b → ∃ c suf,
  b :: t = c.2 ++ suf ∧ c.2 ≠ [] ∧
  rune_chunks (b :: t) = c :: rune_chunks suf ∧ runes (b :: t) = c.1 :: runes suf ∧
  (ascii_chunk c ∨ high_chunk c ∨ bad_chunk c = true).
Proof.
  intros Hb. cbn [rune_chunks runes].
  assert (Hbad : ∀ cs rs, cs = (RuneError, [b]) :: rune_chunks t → rs = RuneError :: runes t → ∃ c suf,
    b :: t = c.2 ++ suf ∧ c.2 ≠ [] ∧ cs = c :: rune_chunks suf ∧ rs = c.1 :: runes suf ∧
    (ascii_chunk c ∨ high_chunk c ∨ bad_chunk c = true)).
  { intros cs rs -> ->. exists (RuneError, [b]), t. auto 10. }
  destruct (b <? 128) eqn:E1.
  { exists (b, [b]), t. split_and!; try done. left. apply Z.ltb_lt in E1. unfold ascii_chunk, is_byte in *.
    cbn. split; [lia|done]. }
  destruct (_ && _) eqn:E2; [|clear E2; destruct (_ && _) eqn:E3; [|clear E3; destruct (_ && _) eqn:E4]];
    [| | |by apply Hbad];
    rewrite andb_true_iff, !Z.leb_le in *.
  - destruct t as [|b1 t1]; [by apply Hbad|].
    destruct (cont b1) eqn:Hc; [|by apply Hbad].
    eexists (_, [b; b1]), t1. split_and!; [done|done|reflexivity|reflexivity|]. right; left. by apply two_chunk.
  - destruct t as [|b1 [|b2 t2]]; [by apply Hbad|by apply Hbad|].
    destruct (second3 b b1 && cont b2) eqn:Hc; [|by apply Hbad].
    eexists (_, [b; b1; b2]), t2. split_and!; [done|done|reflexivity|reflexivity|]. right; left. by apply three_chunk.
  - destruct t as [|b1 [|b2 [|b3 t3]]]; [by apply Hbad|by apply Hbad|by apply Hbad|].
    destruct (second4 b b1 && cont b2 && cont b3) eqn:Hc; [|by apply Hbad].
    eexists (_, [b; b1; b2; b3]), t3. split_and!; [done|done|reflexivity|reflexivity|]. right; left.
    by apply four_chunk.
Qed.

(** ** Valid texts *)

(** [utf8.Valid]: no byte of the text starts no sequence. *)
Definition valid_utf8 (l : list Z) : bool := forallb (λ c, negb (bad_chunk c)) (rune_chunks l).

(** What is shown of the empty text and, given a valid text's first rune and
    the rest of it, of the text, holds of every valid text. *)
Lemma valid_ind (P : list Z → Prop) :
  P [] →
  (∀ c suf, ascii_chunk c ∨ high_chunk c → Forall is_byte suf → valid_utf8 suf = true →
     rune_chunks (c.2 ++ suf) = c :: rune_chunks suf → runes (c.2 ++ suf) = c.1 :: runes suf →
     P suf → P (c.2 ++ suf)) →
  ∀ l, Forall is_byte l → valid_utf8 l = true → P l.
Proof.
  intros Hnil Hstep l. remember (length l) as n eqn:Hn. revert l Hn.
  induction (lt_wf n) as [n _ IH]. intros [|b t] -> Hb Hv; [done|].
  destruct (rune_chunks_step b t) as (c & suf & Hl & Hne & Hc & Hr & Hclass).
  { by apply Forall_cons in Hb as [? _]. }
  unfold valid_utf8 in Hv. rewrite Hc in Hv. cbn [forallb] in Hv.
  apply andb_true_iff in Hv as [Hgood Hv]. apply negb_true_iff in Hgood.
  rewrite Hl in Hb, Hc, Hr |- *. apply Forall_app in Hb as [_ Hb].
  apply Hstep; try done; [naive_solver congruence|].
  apply (IH (length suf)); try done. apply (f_equal length) in Hl. rewrite length_app in Hl.
  destruct c as [r [|]]; cbn in *; [done|lia].
Qed.

(** A valid text is its own sanitised form. *)
Lemma sanitize_valid l : Forall is_byte l → valid_utf8 l = true → sanitize l = l.
Proof.
  intros Hb Hv. revert l Hb Hv. apply valid_ind; [done|].
  intros c suf Hc _ _ _ Hr IH. unfold sanitize in *. rewrite Hr, fmap_cons.
  change (encode_rune c.1 ++ mjoin (encode_rune <$> runes suf) = c.2 ++ suf). rewrite IH. f_equal.
  destruct Hc as [[Hr' ->]|(_ & -> & _)]; [|done]. unfold encode_rune.
  by rewrite (proj2 (Z.leb_le 0 c.1)), (proj2 (Z.ltb_lt c.1 128)) by lia.
Qed.

Lemma valid_ascii l : Forall is_ascii l → valid_utf8 l = true.
Proof.
  intros Hl. unfold valid_utf8. rewrite rune_chunks_ascii by done.
  induction Hl as [|b l Hb _ IH]; [done|]. cbn [fmap list_fmap forallb]. rewrite IH, andb_true_r.
  unfold bad_chunk, is_ascii, RuneError in *. cbn [fst]. by rewrite (proj2 (Z.eqb_neq b 65533)) by lia.
Qed.

(** ** Trimming ASCII from a valid text *)

Lemma rune_chunks_cons a l : 0 ≤ a < 128 → rune_chunks (a :: l) = (a, [a]) :: rune_chunks l.
Proof. intros Ha. cbn [rune_chunks]. by rewrite (proj2 (Z.ltb_lt a 128)) by lia. Qed.

Lemma not_second a b0 : 0 ≤ a < 128 → cont a = false ∧ second3 b0 a = false ∧ second4 b0 a = false.
Proof.
  intros Ha. assert (Hc : ∀ lo hi, 128 ≤ lo → (lo <=? a) && (a <=? hi) = false).
  { intros lo hi Hlo. by rewrite (proj2 (Z.leb_gt lo a)) by lia. }
  unfold second3, second4, cont. rewrite !Hc by lia. by repeat case_match.
Qed.

(** An ASCII character at the end is a chunk of its own, whatever is before. *)
Lemma rune_chunks_snoc l a : 0 ≤ a < 128 → rune_chunks (l ++ [a]) = rune_chunks l ++ [(a, [a])].
Proof.
  intros Ha. remember (length l) as n eqn:Hn. revert l Hn.
  induction (lt_wf n) as [n _ IH]. intros l ->.
  assert (IH' : ∀ k, (length k < length l)%nat → rune_chunks (k ++ [a]) = rune_chunks k ++ [(a, [a])]).
  { intros k Hk. by apply (IH (length k)). }
  clear IH. destruct l as [|b0 t]; [by apply rune_chunks_cons|].
  destruct (not_second a b0 Ha) as (Hc & H3 & H4).
  assert (Ht : rune_chunks (t ++ [a]) = rune_chunks t ++ [(a, [a])]) by (apply IH'; cbn; lia).
  cbn [app rune_chunks]. rewrite Ht.
  destruct t as [|b1 [|b2 [|b3 t]]]; cbn [app] in *; rewrite ?Hc, ?H3, ?H4, ?andb_false_r; cbn [andb];
    repeat case_match; try done; rewrite <- app_comm_cons; f_equal;
    first [done | apply (IH' []); cbn; lia | apply (IH' [_]); cbn; lia | apply (IH' [_; _]); cbn; lia
          | apply IH'; cbn; lia | apply (IH' (_ :: t)); cbn; lia
          | apply (IH' (_ :: _ :: t)); cbn; lia].
Qed.

Lemma valid_cons a l : 0 ≤ a < 128 → valid_utf8 (a :: l) = valid_utf8 l.
Proof.
  intros Ha. unfold valid_utf8. rewrite rune_chunks_cons by done. cbn [forallb].
  unfold bad_chunk at 1, RuneError. cbn [fst]. by rewrite (proj2 (Z.eqb_neq a 65533)) by lia.
Qed.

Lemma valid_snoc a l : 0 ≤ a < 128 → valid_utf8 (l ++ [a]) = valid_utf8 l.
Proof.
  intros Ha. unfold valid_utf8. rewrite rune_chunks_snoc, forallb_app by done. cbn [forallb].
  unfold bad_chunk at 2, RuneError. cbn [fst].
  by rewrite (proj2 (Z.eqb_neq a 65533)), !andb_true_r by lia.
Qed.

Lemma valid_trim (P : Z → bool) l : (∀ b, P b = true → 0 ≤ b < 128) →
  valid_utf8 l = true → valid_utf8 (trim_by P l) = true.
Proof.
  intros HP Hl. unfold trim_by.
  assert (Hdrop : ∀ k, valid_utf8 k = true → valid_utf8 (drop_while P k) = true).
  { intros k. induction k as [|b k IH]; [done|]. cbn [drop_while].
    destruct (P b) eqn:Hb; [|done]. rewrite valid_cons by auto. done. }
  apply Hdrop in Hl. generalize dependent (drop_while P l). clear l. intros l.
  induction l as [|b l IH] using rev_ind; [done|]. rewrite reverse_app. cbn [drop_while reverse app].
  change (reverse [b] ++ reverse l) with (b :: reverse l). cbn [drop_while].
  destruct (P b) eqn:Hb; [rewrite valid_snoc by auto; done|].
  intros Hl. change (b :: reverse l) with (reverse [b] ++ reverse l). by rewrite <- reverse_app, reverse_involutive.
Qed.
