(* ===== verification/JsonText.v ===== *)
(** * JSON texts

    The compact text [json.Marshal] writes for a value, and that the decoder
    reads it back: strings with their escapes, integers, arrays and objects,
    nested up to the decoder's depth. *)

From S2P Require Import Prelude GoStrings GoUrl Json Utf8.

Local Open Scope Z_scope.

(** ** Values by induction *)

Section json_ind.
Context (P : json → Prop)
  (Hnull : P JNull) (Hbool : ∀ b, P (JBool b)) (Hnum : ∀ l, P (JNum l)) (Hstr : ∀ s, P (JStr s))
  (Harr : ∀ l, Forall P l → P (JArr l))
  (Hobj : ∀ ms, Forall (λ m, P m.2) ms → P (JObj ms)).

Fixpoint json_nested_ind (v : json) : P v :=
  match v with
  | JNull => Hnull
  | JBool b => Hbool b
  | JNum l => Hnum l
  | JStr s => Hstr s
  | JArr l =>
      Harr l ((fix go l : Forall P l :=
        match l with [] => List.Forall_nil _ | v :: l => List.Forall_cons _ _ _ (json_nested_ind v) (go l) end) l)
  | JObj ms =>
      Hobj ms ((fix go ms : Forall (λ m, P m.2) ms :=
        match ms with
        | [] => List.Forall_nil _
        | m :: ms => List.Forall_cons _ _ _ (json_nested_ind m.2) (go ms)
        end) ms)
  end.
End json_ind.

(** ** The encoder *)

Definition quote_bytes (l : list Z) : list Z :=
  34 :: mjoin (quote_rune <$> rune_chunks l) ++ [34].

Fixpoint commas (l : list (list Z)) : list Z :=
  match l with
  | [] => []
  | [x] => x
  | x :: l => x ++ 44 :: commas l
  end.

Definition member (k x : list Z) : list Z := quote_bytes k ++ 58 :: x.

Fixpoint encode (v : json) : list Z :=
  match v with
  | JNull => bytes_of "null"
  | JBool b => bytes_of (if b then "true" else "false")
  | JNum literal => literal
  | JStr s => quote_bytes s
  | JArr l => 91 :: commas (map encode l) ++ [93]
  | JObj ms => 123 :: commas (map (λ m, member m.1 (encode m.2)) ms) ++ [125]
  end.

(** ** What reads back *)

(** An integer as [strconv] writes it. *)
Definition natural_literal (l : list Z) : bool :=
  match l with
  | [] => false
  | b :: ds => forallb is_digit l && (negb (b =? 48) || bool_decide (ds = []))
  end.
Definition integer_literal (l : list Z) : bool :=
  match l with
  | b :: ds => if b =? 45 then natural_literal ds else natural_literal l
  | [] => false
  end.

Definition text (l : list Z) : bool :=
  forallb (λ b, (0 <=? b) && (b <? 256)) l && valid_utf8 l.

Fixpoint readable (v : json) : bool :=
  match v with
  | JNull | JBool _ => true
  | JNum literal => integer_literal literal
  | JStr s => text s
  | JArr l => forallb readable l
  | JObj ms => forallb (λ m, text m.1 && readable m.2) ms
  end.

(** How deep arrays and objects nest in a value. *)
Fixpoint height (v : json) : Z :=
  match v with
  | JArr l => 1 + fold_right Z.max 0 (map height l)
  | JObj ms => 1 + fold_right Z.max 0 (map (λ m, height m.2) ms)
  | _ => 0
  end.

(** ** Strings *)

Lemma string_bytes_ascii b tail : 0 ≤ b < 128 →
  string_bytes (quote_ascii b ++ tail) = ('(s, rest) ← string_bytes tail; Ok (b :: s, rest)).
Proof.
  intros Hb. assert (Forall (λ b, string_bytes (quote_ascii b ++ tail) =
    ('(s, rest) ← string_bytes tail; Ok (b :: s, rest))) (seqZ 0 128)) as Hall.
  { cbv [seqZ seq Z.to_nat fmap list_fmap Pos.to_nat Pos.iter_op Nat.add].
    repeat (apply List.Forall_cons; [reflexivity|]). apply List.Forall_nil. }
  rewrite Forall_forall in Hall. apply Hall, elem_of_seqZ. lia.
Qed.

Lemma string_bytes_high bs tail : Forall (λ b, 128 ≤ b < 256) bs →
  string_bytes (bs ++ tail) = ('(s, rest) ← string_bytes tail; Ok (bs ++ s, rest)).
Proof.
  induction 1 as [|b bs Hb _ IH]; cbn [app string_bytes].
  { by destruct (string_bytes tail) as [[]|]. }
  rewrite (proj2 (Z.eqb_neq b 34)), (proj2 (Z.eqb_neq b 92)), (proj2 (Z.ltb_ge b 32)) by lia.
  rewrite IH. by destruct (string_bytes tail) as [[]|].
Qed.

Lemma string_bytes_chunk c tail : ascii_chunk c ∨ high_chunk c → bad_chunk c = false →
  string_bytes (quote_rune c ++ tail) = ('(s, rest) ← string_bytes tail; Ok (c.2 ++ s, rest)).
Proof.
  destruct c as [r bs]. intros [[Hr Hbs]|(Hr & Hbs & Hhigh)] Hbad; cbn [fst snd] in *; unfold quote_rune.
  - rewrite (proj2 (Z.ltb_lt r 128)), string_bytes_ascii, Hbs by lia. done.
  - rewrite (proj2 (Z.ltb_ge r 128)) by lia. unfold bad_chunk in Hbad. cbn [fst snd] in Hbad. rewrite Hbad.
    destruct (Z.eqb_spec r 8232) as [->|]; [by rewrite <- Hbs|].
    destruct (Z.eqb_spec r 8233) as [->|]; [by rewrite <- Hbs|]. by apply string_bytes_high.
Qed.

Lemma bad_chunk_false c : ascii_chunk c ∨ high_chunk c → bad_chunk c = false.
Proof.
  destruct c as [r bs]. unfold ascii_chunk, high_chunk, bad_chunk, RuneError. cbn [fst snd].
  intros [[Hr ->]|(Hr & <- & _)].
  - by rewrite (proj2 (Z.eqb_neq r 65533)) by lia.
  - by destruct (Z.eqb_spec r 65533) as [->|].
Qed.

Lemma text_spec l : text l = true ↔ Forall is_byte l ∧ valid_utf8 l = true.
Proof.
  unfold text. rewrite andb_true_iff, forallb_forall, Forall_forall. f_equiv. unfold is_byte.
  setoid_rewrite andb_true_iff. setoid_rewrite Z.leb_le. setoid_rewrite Z.ltb_lt.
  by setoid_rewrite list_elem_of_In.
Qed.

(** A quoted text reads as the text. *)
Lemma parse_string_quoted s rest : text s = true →
  parse_string (mjoin (quote_rune <$> rune_chunks s) ++ 34 :: rest) = Ok (s, rest).
Proof.
  rewrite text_spec. intros [Hb Hv]. unfold parse_string.
  enough (string_bytes (mjoin (quote_rune <$> rune_chunks s) ++ 34 :: rest) = Ok (s, rest)) as ->.
  { cbn. by rewrite sanitize_valid. }
  revert s Hb Hv. apply valid_ind; [done|]. intros c suf Hc _ _ Hch _ IH. rewrite Hch, fmap_cons.
  change (mjoin (?x :: ?l)) with (x ++ mjoin l). rewrite <- app_assoc.
  rewrite string_bytes_chunk, IH by auto using bad_chunk_false. done.
Qed.

(** ** Numbers *)

Lemma is_digit_range b : is_digit b = true ↔ 48 ≤ b ≤ 57.
Proof. unfold is_digit. rewrite andb_true_iff, !Z.leb_le. done. Qed.

Lemma natural_literal_spec l : natural_literal l = true →
  ∃ b ds, l = b :: ds ∧ Forall (λ b, 48 ≤ b ≤ 57) (b :: ds) ∧ (b = 48 → ds = []).
Proof.
  destruct l as [|b ds]; [done|]. unfold natural_literal. rewrite andb_true_iff, forallb_forall.
  intros [Hd Hz]. exists b, ds. split_and!; [done| |].
  - rewrite Forall_forall. intros x Hx. apply is_digit_range, Hd. by apply list_elem_of_In.
  - intros ->. by apply orb_true_iff in Hz as [?|?%bool_decide_eq_true].
Qed.

Lemma natural_literal_intro b ds :
  Forall (λ b, 48 ≤ b ≤ 57) (b :: ds) → (b = 48 → ds = []) → natural_literal (b :: ds) = true.
Proof.
  intros Hd Hz. unfold natural_literal. rewrite andb_true_iff, forallb_forall. split.
  - intros x Hx. apply is_digit_range. rewrite Forall_forall in Hd. by apply Hd, list_elem_of_In.
  - destruct (Z.eqb_spec b 48) as [->|]; [|done]. by rewrite bool_decide_true by auto.
Qed.

Lemma parse_number_integer l c r : integer_literal l = true → ends_number c →
  parse_number (l ++ c :: r) = Ok (l, c :: r).
Proof.
  intros Hl Hc. destruct l as [|b l]; [done|]. cbn [integer_literal] in Hl.
  destruct (Z.eqb_spec b 45) as [->|Hb].
  - apply natural_literal_spec in Hl as (d & ds & -> & Hd & Hz).
    pose proof (parse_number_nat d ds c r Hd Hz Hc) as E. unfold parse_number in *. cbn [app] in *.
    rewrite Z.eqb_refl. assert (d ≠ 45) by (apply Forall_cons in Hd as [? _]; lia).
    rewrite (proj2 (Z.eqb_neq d 45)) in E by done. cbn [app] in E.
    apply result_bind_Ok in E as ([i l1] & -> & E). cbn.
    apply result_bind_Ok in E as ([f l2] & -> & E). cbn.
    apply result_bind_Ok in E as ([e l3] & -> & E). cbn.
    cbn in E. by injection E as -> ->.
  - apply natural_literal_spec in Hl as (d & ds & E & Hd & Hz). simplify_eq.
    by apply parse_number_nat.
Qed.

Lemma integer_literal_head l : integer_literal l = true →
  ∃ b t, l = b :: t ∧ (b = 45 ∨ 48 ≤ b ≤ 57).
Proof.
  destruct l as [|b l]; [done|]. cbn [integer_literal]. intros Hl. exists b, l. split; [done|].
  destruct (Z.eqb_spec b 45) as [->|Hb]; [by left|right].
  apply natural_literal_spec in Hl as (d & ds & E & Hd & _). simplify_eq. by apply Forall_cons in Hd as [? _].
Qed.

(** Every 64-bit integer is written as a literal that [strconv.ParseInt]
    reads back. *)
Lemma FormatInt_integer n : is_int64 n → integer_literal (bytes_of (FormatInt n)) = true.
Proof.
  unfold is_int64, min_int64, max_int64. intros Hn. unfold FormatInt.
  assert (Hnat : ∀ k, 0 ≤ k ≤ 2 ^ 63 → natural_literal (bytes_of (format_digits 20 k "")) = true).
  { intros k Hk. destruct (format_digits_head 20 k "") as (b & l & E & Hb); [|lia|].
    { change (10 ^ Z.of_nat 20) with (10 ^ 20). lia. }
    pose proof (format_digits_digits 20 k "" (Forall_nil_2 _)) as Hd. rewrite E in *.
    apply natural_literal_intro; [done|]. intros E0. by destruct (Hb E0). }
  destruct (Z.ltb_spec n 0).
  - cbn [bytes_of integer_literal]. change (byte_of _) with 45. rewrite Z.eqb_refl. apply Hnat. lia.
  - pose proof (Hnat n ltac:(lia)) as Hl. destruct (natural_literal_spec _ Hl) as (b & ds & E & Hd & _).
    rewrite E in *. cbn [integer_literal]. apply Forall_cons in Hd as [? _].
    by rewrite (proj2 (Z.eqb_neq b 45)) by lia.
Qed.

(** ** Values *)

(** A text that starts with neither white space nor a closing bracket. *)
Definition opens (l : list Z) : Prop :=
  ∃ b t, l = b :: t ∧ is_ws b = false ∧ b ≠ 93 ∧ b ≠ 125.

Lemma encode_opens v : readable v = true → opens (encode v).
Proof.
  destruct v as [|[]|l|s|l|ms]; cbn [encode readable]; intros Hv;
    try (eexists _, _; split_and!; [reflexivity|done|done|done]).
  apply integer_literal_head in Hv as (b & t & -> & Hb). exists b, t. split; [done|].
  unfold is_ws. rewrite (proj2 (Z.eqb_neq b 32)), (proj2 (Z.eqb_neq b 9)), (proj2 (Z.eqb_neq b 13)),
    (proj2 (Z.eqb_neq b 10)) by lia. split_and!; [done|lia|lia].
Qed.

(** The byte after a number ends it. *)
Definition delimited (rest : list Z) : Prop := ∃ c r, rest = c :: r ∧ ends_number c.
Definition follows (v : json) (rest : list Z) : Prop :=
  match v with JNum _ => delimited rest | _ => True end.

Lemma delimiter_follows v c r : c ∈ [44; 93; 125; 10] → follows v (c :: r).
Proof.
  intros Hc. destruct v; cbn; try done. exists c, r. split; [done|]. unfold ends_number, is_digit.
  set_unfold in Hc. destruct_or?; subst; try done; split_and!; done || lia.
Qed.

(** The text of a value reads as the value. *)
Definition reads (v : json) : Prop := ∀ fuel depth rest,
  height v ≤ depth → (2 * length (encode v ++ rest) < fuel)%nat → follows v rest →
  parse_value fuel depth (encode v ++ rest) = Ok (v, rest).

Lemma skip_ws_opens l rest : opens l → skip_ws (l ++ rest) = l ++ rest.
Proof. intros (b & t & -> & Hb & _). cbn [app skip_ws]. by rewrite Hb. Qed.

Lemma commas_cons x y l : commas (x :: y :: l) = x ++ 44 :: commas (y :: l).
Proof. done. Qed.

Lemma parse_elements_text l : l ≠ [] → Forall reads l → Forall (λ v, readable v = true) l →
  ∀ fuel depth rest, Forall (λ v, height v ≤ depth) l →
  (S (2 * length (commas (map encode l) ++ 93%Z :: rest)) < fuel)%nat →
  parse_elements fuel depth (commas (map encode l) ++ 93 :: rest) = Ok (l, rest).
Proof.
  intros Hne. induction l as [|v [|v' l] IH]; [done| |]; intros Hr Ho fuel depth rest Hh Hf;
    (destruct fuel as [|fuel]; [lia|]); apply Forall_cons in Hr as [Hr Hrs];
    apply Forall_cons in Ho as [Ho Hos]; apply Forall_cons in Hh as [Hh Hhs].
  - cbn [map commas] in *. cbn [parse_elements]. rewrite Hr; [done|done|lia|].
    by apply delimiter_follows; set_solver.
  - cbn [map] in *. rewrite commas_cons, <- app_assoc in *. cbn [parse_elements].
    rewrite length_app in Hf. cbn [app length] in Hf.
    rewrite Hr; [|done|rewrite length_app; cbn [app length]; lia|by apply delimiter_follows; set_solver].
    cbn [mbind result_bind app skip_ws is_ws Z.eqb Pos.eqb orb].
    rewrite IH; [done|done|done|done|done|lia].
Qed.

Definition member_text (m : list Z * json) : list Z := member m.1 (encode m.2).

Lemma member_app k x rest :
  member k x ++ rest = 34 :: mjoin (quote_rune <$> rune_chunks k) ++ 34 :: 58 :: x ++ rest.
Proof. unfold member, quote_bytes. cbn [app]. by rewrite <- !app_assoc. Qed.

Lemma parse_members_text ms : ms ≠ [] → Forall (λ m, reads m.2) ms → Forall (λ m, text m.1 = true) ms →
  ∀ fuel depth rest, Forall (λ m, height m.2 ≤ depth) ms →
  (S (2 * length (commas (map member_text ms) ++ 125%Z :: rest)) < fuel)%nat →
  parse_members fuel depth (commas (map member_text ms) ++ 125 :: rest) = Ok (ms, rest).
Proof.
  intros Hne. induction ms as [|[k v] [|m ms] IH]; [done| |]; intros Hr Hk fuel depth rest Hh Hf;
    (destruct fuel as [|fuel]; [lia|]); apply Forall_cons in Hr as [Hr Hrs];
    apply Forall_cons in Hk as [Hk Hks]; apply Forall_cons in Hh as [Hh Hhs]; cbn [fst snd] in *;
    cbn [map] in *; rewrite ?commas_cons, <- ?app_assoc in *; cbn [commas] in *;
    unfold member_text in Hf at 1; unfold member_text at 1; cbn [fst snd] in *;
    rewrite member_app in *; cbn [length] in Hf; rewrite !length_app in Hf; cbn [length] in Hf;
    rewrite length_app in Hf; cbn [app length] in Hf; rewrite ?length_app in Hf; cbn [app length] in Hf;
    cbn [parse_members skip_ws is_ws Z.eqb Pos.eqb orb negb];
    rewrite parse_string_quoted by done;
    cbn [mbind result_bind skip_ws is_ws Z.eqb Pos.eqb orb negb];
    (rewrite Hr; [|done|rewrite !length_app; cbn [length]; rewrite ?length_app; cbn [length]; lia
                 |by apply delimiter_follows; set_solver]); cbn [mbind result_bind app skip_ws is_ws Z.eqb Pos.eqb orb].
  - done.
  - rewrite IH; [done|done|done|done|done|]. rewrite length_app. cbn [length]. lia.
Qed.

Lemma heights_below {A} (f : A → Z) l d :
  fold_right Z.max 0 (map f l) ≤ d → Forall (λ a, f a ≤ d) l.
Proof. induction l as [|a l IH]; cbn; intros Hd; constructor; [lia|]. apply IH. lia. Qed.

Lemma heights_nonneg {A} (f : A → Z) l : 0 ≤ fold_right Z.max 0 (map f l).
Proof. induction l; cbn; lia. Qed.

Lemma forallb_Forall {A} (f : A → bool) l : forallb f l = true ↔ Forall (λ a, f a = true) l.
Proof. rewrite forallb_forall, Forall_forall. by setoid_rewrite list_elem_of_In. Qed.

Lemma commas_opens x l : opens x → opens (commas (x :: l)).
Proof.
  intros (b & t & -> & Hb). destruct l as [|y l]; [by exists b, t|]. rewrite commas_cons.
  by exists b, (t ++ 44 :: commas (y :: l)).
Qed.

Lemma reads_scalar v : readable v = true → height v = 0 → reads v.
Proof.
  intros Hv Hz [|fuel] depth rest Hd Hf Hrest; [lia|].
  destruct v as [|[]|l|s|l|ms]; cbn [encode readable height] in *; try done.
  - destruct (integer_literal_head l Hv) as (b & t & E & Hb). destruct Hrest as (c & r & -> & Hc).
    pose proof (parse_number_integer l c r Hv Hc) as Hp. rewrite E in Hp |- *. cbn [app parse_value skip_ws] in *.
    unfold is_ws. rewrite !(proj2 (Z.eqb_neq b _)) by lia. cbn [orb]. rewrite !(proj2 (Z.eqb_neq b _)) by lia.
    assert ((b =? 45) || is_digit b = true) as ->.
    { rewrite orb_true_iff, Z.eqb_eq, is_digit_range. lia. }
    by rewrite Hp.
  - unfold quote_bytes. cbn [app parse_value skip_ws is_ws Z.eqb Pos.eqb orb]. rewrite <- app_assoc. cbn [app].
    by rewrite parse_string_quoted.
  - pose proof (heights_nonneg height l). lia.
  - pose proof (heights_nonneg (λ m, height m.2) ms). lia.
Qed.

Lemma reads_array l : Forall reads l → forallb readable l = true → reads (JArr l).
Proof.
  rewrite forallb_Forall. intros Hl Hv [|fuel] depth rest Hd Hf _; [lia|]. cbn [encode height] in *.
  pose proof (heights_nonneg height l). rewrite <- app_comm_cons, <- app_assoc in *. cbn [app] in *.
  cbn [parse_value skip_ws is_ws Z.eqb Pos.eqb orb]. rewrite (proj2 (Z.leb_gt depth 0)) by lia.
  destruct l as [|v l]; [done|].
  assert (opens (commas (map encode (v :: l)))) as Ho.
  { apply commas_opens, encode_opens. by apply Forall_cons in Hv as [? _]. }
  rewrite skip_ws_opens by done. pose proof Ho as (b & t & E & _ & H93 & _).
  assert (b :: t ++ 93 :: rest = commas (map encode (v :: l)) ++ 93 :: rest) as E' by (by rewrite E).
  rewrite <- E' at 1. rewrite (proj2 (Z.eqb_neq b 93)) by done.
  rewrite parse_elements_text; [done|done|done|done|apply heights_below; lia|].
  cbn [length] in Hf. lia.
Qed.

Lemma reads_object ms : Forall (λ m, reads m.2) ms →
  forallb (λ m, text m.1 && readable m.2) ms = true → reads (JObj ms).
Proof.
  rewrite forallb_Forall. intros Hms Hv [|fuel] depth rest Hd Hf _; [lia|]. cbn [encode height] in *.
  pose proof (heights_nonneg (λ m, height m.2) ms). rewrite <- app_comm_cons, <- app_assoc in *. cbn [app] in *.
  change (map (λ m : list Z * json, member m.1 (encode m.2)) ms) with (map member_text ms) in *.
  cbn [parse_value skip_ws is_ws Z.eqb Pos.eqb orb]. rewrite (proj2 (Z.leb_gt depth 0)) by lia.
  destruct ms as [|[k v] ms]; [done|].
  assert (opens (commas (map member_text ((k, v) :: ms)))) as Ho.
  { apply commas_opens. by eexists _, _. }
  rewrite skip_ws_opens by done. pose proof Ho as (b & t & E & _ & _ & H125).
  assert (b :: t ++ 125 :: rest = commas (map member_text ((k, v) :: ms)) ++ 125 :: rest) as E' by (by rewrite E).
  rewrite <- E' at 1. rewrite (proj2 (Z.eqb_neq b 125)) by done.
  rewrite parse_members_text; [done|done|done| |apply (heights_below (λ m, height m.2)); lia|].
  - eapply Forall_impl; [exact Hv|]. intros m [? _]%andb_true_iff. done.
  - cbn [length] in Hf. lia.
Qed.

Lemma readable_reads v : readable v = true → reads v.
Proof.
  induction v as [|b|l|s|l IH|ms IH] using json_nested_ind; intros Hv; try (by apply reads_scalar).
  - apply reads_array; [|done]. cbn [readable] in Hv. rewrite forallb_Forall in Hv.
    rewrite Forall_forall in *. auto.
  - apply reads_object; [|done]. cbn [readable] in Hv. rewrite forallb_Forall in Hv.
    rewrite Forall_forall in *. intros m Hm. apply IH; [done|]. by apply Hv, andb_true_iff in Hm as [_ ?].
Qed.

(** The decoder reads from a stream the value whose text it starts with. *)
Lemma next_value_encode v rest :
  readable v = true → height v ≤ maxNestingDepth → follows v rest →
  next_value (encode v ++ rest) = Ok (v, rest).
Proof. intros Hv Hh Hr. apply readable_reads; [done|done|lia|done]. Qed.
