(* ===== verification/Timestamp.v ===== *)
(** * RFC 3339 timestamps

    The text [time.Time.MarshalJSON] writes for an instant in a location, and
    that a client reads the instant back from it. *)

From S2P Require Import Prelude GoStrings GoUrl IpText Json Calendar HttpDate.

Local Open Scope Z_scope.

(** ** Writing *)

(** The [n] lowest decimal digits. *)
Fixpoint padded (n : nat) (v : Z) : list Z :=
  match n with
  | O => []
  | S n => padded n (v / 10) ++ [48 + v mod 10]
  end.

(** [.999999999]: nine digits without the zeros at the end. *)
Definition fraction_digits (nanos : Z) : list Z :=
  reverse (drop_while (Z.eqb 48) (reverse (padded 9 nanos))).
Definition fraction_text (nanos : Z) : list Z :=
  if nanos =? 0 then [] else 46 :: fraction_digits nanos.

(** [Z07:00] for an offset in seconds east of UTC. *)
Definition zone_text (offset : Z) : list Z :=
  if offset =? 0 then [90]
  else let zone := Z.quot offset 60 in
    (if zone <? 0 then 45 else 43) :: two (Z.abs zone / 60) ++ 58 :: two (Z.abs zone mod 60).

(** [appendStrictRFC3339] of the instant [t], in nanoseconds since 1970, where
    clocks are [offset] seconds ahead of UTC: an error for a year that has not
    four digits, or an offset of a day or more. *)
Definition rfc3339 (offset t : Z) : option (list Z) :=
  let seconds := t / 1000000000 + offset in
  let d := date_of (seconds / 86400) in
  let s := seconds mod 86400 in
  if (0 <=? year d) && (year d <=? 9999) && (Z.abs (Z.quot offset 60) / 60 <? 24) then
    Some (four (year d) ++ 45 :: two (month d) ++ 45 :: two (day d) ++ 84 ::
          two (s / 3600) ++ 58 :: two (s / 60 mod 60) ++ 58 :: two (s mod 60) ++
          fraction_text (t mod 1000000000) ++ zone_text offset)
  else None.

(** ** Reading *)

Definition read_zone (value : list Z) : option (Z * list Z) :=
  match value with
  | c :: rest =>
      if c =? 90 then Some (0, rest)
      else if (c =? 43) || (c =? 45) then
        '(h, rest) ← getnum true rest ≫= below 24;
        rest ← literal ":" rest;
        '(m, rest) ← getnum true rest ≫= below 60;
        Some ((if c =? 45 then - (h * 3600 + m * 60) else h * 3600 + m * 60), rest)
      else None
  | [] => None
  end.

Definition read_rfc3339 (value : list Z) : option Z :=
  '(y, v) ← long_year value;
  v ← literal "-" v;
  '(m, v) ← getnum true v;
  v ← literal "-" v;
  '(d, v) ← getnum true v;
  v ← literal "T" v;
  '(nanos, v) ← clock_time v;
  '(offset, v) ← read_zone v;
  if bool_decide (v = []) then
    t ← Date y m d nanos; Some (t - offset * 1000000000)
  else None.

Module examples.
Example plain : string_of <$> rfc3339 0 1700000000000000000 = Some "2023-11-14T22:13:20Z".
Proof. vm_compute. reflexivity. Qed.
Example zoned : string_of <$> rfc3339 (-12600) 1700000000123450000 = Some "2023-11-14T18:43:20.12345-03:30".
Proof. vm_compute. reflexivity. Qed.
Example back : (rfc3339 (-12600) 1700000000123450000 ≫= read_rfc3339) = Some 1700000000123450000.
Proof. vm_compute. reflexivity. Qed.
Example late : rfc3339 0 (253402300800 * 1000000000) = None.
Proof. vm_compute. reflexivity. Qed.
End examples.

(** ** Fractions *)

Definition digits_val (l : list Z) : Z := foldl (λ a b, 10 * a + (b - 48)) 0 l.

Lemma digits_val_snoc l b : digits_val (l ++ [b]) = 10 * digits_val l + (b - 48).
Proof. unfold digits_val. by rewrite foldl_app. Qed.

Lemma digits_val_zeros l k :
  digits_val (l ++ replicate k 48) = digits_val l * 10 ^ Z.of_nat k.
Proof.
  induction k as [|k IH]; [rewrite app_nil_r; lia|].
  rewrite replicate_S_end, app_assoc, digits_val_snoc, IH, Nat2Z.inj_succ, Z.pow_succ_r; lia.
Qed.

Lemma padded_spec n v : 0 ≤ v →
  length (padded n v) = n ∧ Forall (λ b, is_digit b = true) (padded n v) ∧
  digits_val (padded n v) = v mod 10 ^ Z.of_nat n.
Proof.
  revert v. induction n as [|n IH]; intros v Hv; cbn [padded].
  { split_and!; [done|constructor|]. by rewrite Z.mod_1_r. }
  destruct (IH (v / 10)) as (Hl & Hd & Hval); [by apply Z.div_pos|].
  pose proof (Z.mod_pos_bound v 10 ltac:(lia)). split_and!.
  - rewrite length_app, Hl. cbn. lia.
  - apply Forall_app. split; [done|]. constructor; [|constructor].
    unfold is_digit. rewrite andb_true_iff, !Z.leb_le. lia.
  - rewrite digits_val_snoc, Hval, Nat2Z.inj_succ, Z.pow_succ_r by lia.
    rewrite Z.rem_mul_r by lia. lia.
Qed.

Lemma drop_zeros l : ∃ k, l = replicate k 48 ++ drop_while (Z.eqb 48) l.
Proof.
  induction l as [|b l [k IH]]; [by exists 0%nat|]. cbn [drop_while].
  destruct (Z.eqb_spec 48 b) as [<-|]; [|by exists 0%nat]. exists (S k). cbn. by f_equal.
Qed.

Lemma fraction_digits_spec n : ∃ k, padded 9 n = fraction_digits n ++ replicate k 48.
Proof.
  unfold fraction_digits. destruct (drop_zeros (reverse (padded 9 n))) as [k Hk]. exists k.
  apply (f_equal reverse) in Hk. rewrite reverse_involutive, reverse_app, reverse_replicate in Hk. done.
Qed.

Lemma take_digits l rest : Forall (λ b, is_digit b = true) l →
  (∀ c, head rest = Some c → is_digit c = false) → take_while is_digit (l ++ rest) = l.
Proof.
  intros Hl Hr. induction Hl as [|b l Hb _ IH]; cbn [app take_while].
  - destruct rest as [|c rest]; [done|]. cbn. by rewrite Hr.
  - by rewrite Hb, IH.
Qed.

(** The nanoseconds read back, whatever zeros were dropped. *)
Lemma fraction_read n rest : 0 ≤ n < 1000000000 →
  (∀ c, head rest = Some c → is_digit c = false ∧ c ≠ 46 ∧ c ≠ 44) →
  fraction (fraction_text n ++ rest) = (n, rest).
Proof.
  intros Hn Hr. unfold fraction_text. destruct (Z.eqb_spec n 0) as [->|Hne].
  { destruct rest as [|c [|d rest]]; [done|done|]. destruct (Hr c eq_refl) as (_ & H1 & H2).
    cbn. by rewrite (proj2 (Z.eqb_neq c 46)), (proj2 (Z.eqb_neq c 44)) by done. }
  destruct (padded_spec 9 n) as (Hlen & Hdig & Hval); [lia|].
  destruct (fraction_digits_spec n) as [k Hk]. rewrite Hk in Hlen, Hdig, Hval.
  rewrite length_app, length_replicate in Hlen. apply Forall_app in Hdig as [Hdig _].
  rewrite digits_val_zeros, Z.mod_small in Hval by (change (10 ^ Z.of_nat 9) with 1000000000; lia).
  assert (fraction_digits n ≠ []) as Hnil by (intros E; rewrite E in Hval; cbn in Hval; lia).
  destruct (fraction_digits n) as [|d ds]; [done|]. cbn [app fraction].
  assert (is_digit d = true) as -> by (by apply Forall_cons in Hdig as [? _]).
  cbn [Z.eqb Pos.eqb orb andb]. change (drop 1 (46 :: d :: ds ++ rest)) with ((d :: ds) ++ rest).
  rewrite take_digits by naive_solver. rewrite take_ge by (cbn [length] in *; lia).
  change (46 :: d :: ds ++ rest) with ((46 :: d :: ds) ++ rest).
  rewrite drop_app_length' by done. f_equal. rewrite <- Hval. unfold digits_val. do 2 f_equal. lia.
Qed.

(** ** The round trip *)

Lemma read_zone_text offset : Z.rem offset 60 = 0 → Z.abs (Z.quot offset 60) / 60 < 24 →
  read_zone (zone_text offset) = Some (offset, []).
Proof.
  intros Hrem Hh. pose proof (Z.quot_rem' offset 60) as Hq. rewrite Hrem in Hq.
  unfold zone_text. destruct (Z.eqb_spec offset 0) as [->|Hne]; [done|].
  set (zone := Z.quot offset 60) in *. set (a := Z.abs zone) in *.
  assert (0 ≤ a / 60 < 24) by (split; [apply Z.div_pos|]; lia).
  pose proof (Z.mod_pos_bound a 60 ltac:(lia)). pose proof (Z.div_mod a 60 ltac:(lia)).
  unfold read_zone. set (sign := if zone <? 0 then 45 else 43).
  assert ((sign =? 90) = false ∧ (sign =? 43) || (sign =? 45) = true) as [-> ->].
  { unfold sign. by destruct (zone <? 0). }
  unfold below. rewrite getnum_two by lia. cbn [mbind option_bind fst].
  rewrite (proj2 (Z.ltb_lt (a / 60) 24)) by lia. cbn [mbind option_bind].
  unfold literal. change (skip false (bytes_of ":") (58 :: ?v)) with (Some v). cbn [mbind option_bind].
  rewrite <- (app_nil_r (two (a mod 60))), getnum_two by lia. cbn [mbind option_bind fst].
  rewrite (proj2 (Z.ltb_lt (a mod 60) 60)) by lia. cbn [mbind option_bind].
  unfold sign. destruct (Z.ltb_spec zone 0); cbn [Z.eqb Pos.eqb]; do 2 f_equal; lia.
Qed.

Lemma zone_text_head offset c rest : head (zone_text offset ++ rest) = Some c →
  is_digit c = false ∧ c ≠ 46 ∧ c ≠ 44.
Proof. unfold zone_text. repeat case_match; cbn; intros [= <-]; done. Qed.

(** A client reads from the text the instant it was written for, in whatever
    zone of whole minutes. *)
Lemma read_rfc3339_text offset t l : Z.rem offset 60 = 0 →
  rfc3339 offset t = Some l → read_rfc3339 l = Some t.
Proof.
  intros Hrem. unfold rfc3339. cbv zeta. set (seconds := t / 1000000000 + offset).
  destruct (_ && _) eqn:Hok; [|done]. rewrite !andb_true_iff, !Z.leb_le, Z.ltb_lt in Hok.
  destruct Hok as [Hy Hz]. intros Hl%(inj Some). subst l.
  destruct (date_of_seconds seconds) as (Hm & Hd & Hdate). set (d := date_of (seconds / 86400)) in *.
  unfold read_rfc3339. rewrite long_year_four by done. cbn [mbind option_bind].
  unfold literal. change (skip false (bytes_of "-") (45 :: ?v)) with (Some v). cbn [mbind option_bind].
  rewrite getnum_two by lia. cbn [mbind option_bind].
  change (skip false (bytes_of "-") (45 :: ?v)) with (Some v). cbn [mbind option_bind].
  rewrite getnum_two by lia. cbn [mbind option_bind].
  change (skip false (bytes_of "T") (84 :: ?v)) with (Some v). cbn [mbind option_bind].
  pose proof (Z.mod_pos_bound t 1000000000 ltac:(lia)). pose proof (Z.mod_pos_bound seconds 86400 ltac:(lia)).
  rewrite (clock_time_fraction _ _ (t mod 1000000000) (zone_text offset)); [|lia|].
  2: { apply fraction_read; [lia|]. intros c Hc. apply (zone_text_head offset c []). by rewrite app_nil_r. }
  cbn [mbind option_bind]. rewrite read_zone_text by lia. cbn [mbind option_bind].
  rewrite bool_decide_true by done.
  assert (∀ y m d n k x, Date y m d n = Some x → Date y m d (n + k) = Some (x + k)) as Hadd.
  { intros y m d' n k x. unfold Date. destruct (valid_date _); [|done]. intros [= <-]. f_equal. lia. }
  rewrite (Hadd _ _ _ _ _ _ Hdate). cbn [mbind option_bind]. f_equal. unfold seconds.
  pose proof (Z.div_mod t 1000000000 ltac:(lia)). lia.
Qed.

Lemma rfc3339_bytes offset t l : rfc3339 offset t = Some l → Forall (λ b, 43 ≤ b < 91) l.
Proof.
  assert (Htwo : ∀ n, 0 ≤ n < 100 → Forall (λ b, 43 ≤ b < 91) (two n)).
  { intros n Hn. repeat constructor; Z.div_mod_to_equations; lia. }
  unfold rfc3339. cbv zeta. set (seconds := t / 1000000000 + offset).
  destruct (_ && _) eqn:Hok; [|done]. rewrite !andb_true_iff, !Z.leb_le, Z.ltb_lt in Hok.
  destruct Hok as [Hy Hz]. intros Hl%(inj Some). subst l. destruct (date_of_seconds seconds) as (Hm & Hd & _).
  set (d := date_of (seconds / 86400)) in *. pose proof (Z.mod_pos_bound seconds 86400 ltac:(lia)).
  assert (Hcons : ∀ c k, 43 ≤ c < 91 → Forall (λ b, 43 ≤ b < 91) k → Forall (λ b, 43 ≤ b < 91) (c :: k))
    by (intros; by constructor).
  unfold four. repeat first [apply Forall_app_2|apply Hcons; [lia|]];
    try (apply Htwo; Z.div_mod_to_equations; lia).
  - unfold fraction_text. destruct (_ =? 0); [constructor|]. constructor; [lia|].
    destruct (padded_spec 9 (t mod 1000000000)) as (_ & Hdig & _); [by apply Z.mod_pos_bound|].
    destruct (fraction_digits_spec (t mod 1000000000)) as [k Hk]. rewrite Hk in Hdig.
    apply Forall_app in Hdig as [Hdig _]. eapply Forall_impl; [exact Hdig|]. cbn. intros b.
    unfold is_digit. rewrite andb_true_iff, !Z.leb_le. lia.
  - pose proof (Z.abs_nonneg (Z.quot offset 60)).
    unfold zone_text. repeat case_match; (apply Hcons; [lia|]); try (by constructor);
      (apply Forall_app_2; [|apply Hcons; [lia|]]); apply Htwo; Z.div_mod_to_equations; lia.
Qed.
