(* ===== verification/Limiter.v ===== *)
(** * internal/worker/limiter.go

    The per-destination limiter of a Worker process: a concurrency bound and a
    minimum interval between attempts, with a refund for a permit whose claim
    was refused.  The mutex makes each method atomic, so a run is a sequence of
    methods; permits are objects of their own, shared with the goroutine that
    holds them. *)

From S2P Require Import Prelude GoStrings Model Database WorkerStore Scenario.
From Stdlib Require Import SpecFloat.

Local Open Scope Z_scope.

(** [time.Time{}], in nanoseconds from the Unix epoch. *)
Definition zero_time : Z := - 62135596800 * 1000000000.

(** ** Floating point durations *)

(** Conversion of an out-of-range float64 (or NaN) to int64 is up to the
    machine. *)
Class Machine := { float_overflow : spec_float → Z }.

Definition truncate (f : spec_float) : option Z :=
  match f with
  | S754_zero _ => Some 0
  | S754_finite s m e =>
      let v := if 0 <=? e then Z.pos m * 2 ^ e else Z.pos m / 2 ^ (- e) in
      Some (if s then - v else v)
  | _ => None
  end.

(** [time.Duration(f)] *)
Definition duration_of_float `{Machine} (f : spec_float) : Z :=
  match truncate f with
  | Some v => if (min_int64 <=? v) && (v <=? max_int64) then v else float_overflow f
  | None => float_overflow f
  end.

(** ** State *)

Module destinationLimitState.
Record t := mk {
  active : Z;
  maxConcurrent : Z;
  minInterval : Z;
  nextAllowed : Z;
  lastSequence : Z;       (* uint64 *)
  changed : nat           (* identity of the current channel *)
}.
End destinationLimitState.
Import destinationLimitState.

Module destinationPermit.
Record t := mk {
  state : string;         (* the destination whose state it points to *)
  sequence : Z;
  previousNext : Z;
  reservedNext : Z;
  released : bool
}.
End destinationPermit.

(** The limiter with the permits it has handed out. *)
Record destinationLimiter := mkLimiter {
  states : gmap string destinationLimitState.t;
  permits : list destinationPermit.t
}.

Definition newDestinationLimiter : destinationLimiter := mkLimiter ∅ [].

Section limiter.
Context `{Machine}.

Definition effective_concurrency (destination : DestinationVersion.t) : Z :=
  if DestinationVersion.MaxConcurrency destination <=? 0 then 1
  else DestinationVersion.MaxConcurrency destination.

Definition effective_interval (destination : DestinationVersion.t) : Z :=
  let rate := DestinationVersion.RatePerSecond destination in
  let rate := if SFleb rate (S754_zero false) then float64_of_Z 1 else rate in
  duration_of_float (SFdiv 53 1024 (float64_of_Z 1000000000) rate).

(** [limiter.state(destination)]: the state object, created or tightened. *)
Definition state (limiter : destinationLimiter) (destination : DestinationVersion.t)
    : destinationLimitState.t * destinationLimiter :=
  let maxConcurrent_ := effective_concurrency destination in
  let interval_ := effective_interval destination in
  let id := DestinationVersion.DestinationID destination in
  let st :=
    match states limiter !! id with
    | None => destinationLimitState.mk 0 maxConcurrent_ interval_ zero_time 0 0
    | Some st =>
        destinationLimitState.mk (active st)
          (if maxConcurrent_ <? maxConcurrent st then maxConcurrent_ else maxConcurrent st)
          (if minInterval st <? interval_ then interval_ else minInterval st)
          (nextAllowed st) (lastSequence st) (changed st)
    end in
  (st, mkLimiter (<[id := st]> (states limiter)) (permits limiter)).

(** The permit is the index of its object. *)
Definition tryAcquire (limiter : destinationLimiter) (now : Z)
    (destination : DestinationVersion.t) : option nat * destinationLimiter :=
  let id := DestinationVersion.DestinationID destination in
  let '(st, limiter) := state limiter destination in
  if (maxConcurrent st <=? active st) || (now <? nextAllowed st)
  then (None, limiter)
  else
    let sequence := (lastSequence st + 1) mod 2 ^ 64 in
    let reserved := now + minInterval st in
    let permit := destinationPermit.mk id sequence (nextAllowed st) reserved false in
    let st := destinationLimitState.mk (active st + 1) (maxConcurrent st) (minInterval st)
                reserved sequence (changed st) in
    (Some (length (permits limiter)),
     mkLimiter (<[id := st]> (states limiter)) (permits limiter ++ [permit])).

Definition release (limiter : destinationLimiter) (permit : nat) (claimed : bool)
    : destinationLimiter :=
  match permits limiter !! permit with
  | None => limiter
  | Some p =>
      if destinationPermit.released p then limiter
      else match states limiter !! destinationPermit.state p with
      | None => limiter
      | Some st =>
          let refund := negb claimed && (lastSequence st =? destinationPermit.sequence p) &&
                        (nextAllowed st =? destinationPermit.reservedNext p) in
          let st := destinationLimitState.mk (active st - 1) (maxConcurrent st) (minInterval st)
                      (if refund then destinationPermit.previousNext p else nextAllowed st)
                      (lastSequence st) (S (changed st)) in
          let p := destinationPermit.mk (destinationPermit.state p) (destinationPermit.sequence p)
                     (destinationPermit.previousNext p) (destinationPermit.reservedNext p) true in
          mkLimiter (<[destinationPermit.state p := st]> (states limiter))
            (<[permit := p]> (permits limiter))
      end
  end.

(** [t.Sub(u)] saturates. *)
Definition Sub (t u : Z) : Z := Z.max min_int64 (Z.min max_int64 (t - u)).

(** What a waiting [acquire] is woken by. *)
Inductive wake : Type :=
  | wake_done      (* ctx.Done *)
  | wake_changed   (* the state's channel was closed *)
  | wake_timer.

(** One iteration: a permit, or the wait and the channel to watch. *)
Definition acquire_round (limiter : destinationLimiter) (now1 now2 : Z)
    (destination : DestinationVersion.t)
    : (nat + Z * nat) * destinationLimiter :=
  match tryAcquire limiter now1 destination with
  | (Some permit, limiter) => (inl permit, limiter)
  | (None, limiter) =>
      let '(st, limiter) := state limiter destination in
      let wait := Sub (nextAllowed st) now2 in
      let wait := if (wait <=? 0) || (maxConcurrent st <=? active st)
                  then 10 * 1000000 else wait in
      (inr (wait, changed st), limiter)
  end.

(** The loop, against a script: the clock readings of each iteration, what
    the other goroutines did to the limiter while it waited, and what woke
    it.  [None] means the script ended first. *)
Fixpoint acquire (script : list (Z * Z * (destinationLimiter → destinationLimiter) * wake))
    (limiter : destinationLimiter) (destination : DestinationVersion.t)
    : option (option nat) * destinationLimiter :=
  match script with
  | [] => (None, limiter)
  | (now1, now2, others, woken) :: script =>
      match acquire_round limiter now1 now2 destination with
      | (inl permit, limiter) => (Some (Some permit), limiter)
      | (inr _, limiter) =>
          match woken with
          | wake_done => (Some None, others limiter)
          | _ => acquire script (others limiter) destination
          end
      end
  end.
End limiter.

(** ** Runs of the limiter *)

(** A permit that was handed out and not refunded. *)
Record grant := Grant {
  g_permit : nat;
  g_destination : string;
  g_time : Z;
  g_interval : Z
}.

Definition outstanding (limiter : destinationLimiter) (id : string) : Z :=
  Z.of_nat (length (filter (λ p, destinationPermit.state p = id ∧
                                 destinationPermit.released p = false) (permits limiter))).

Lemma filter_none {A} (P : A → Prop) `{!∀ x, Decision (P x)} l :
  Forall (λ x, ¬ P x) l → filter P l = [].
Proof. induction 1 as [|x l Hx _ IH]; [done|]. rewrite filter_cons, decide_False; done. Qed.

Lemma length_filter_insert {A} (P : A → Prop) `{!∀ x, Decision (P x)} l i x y :
  l !! i = Some x →
  Z.of_nat (length (filter P (<[i := y]> l))) =
  Z.of_nat (length (filter P l)) - (if decide (P x) then 1 else 0) +
    (if decide (P y) then 1 else 0).
Proof.
  revert i. induction l as [|z l IH]; intros [|i] Hi; simplify_eq/=.
  - rewrite !filter_cons. repeat case_decide; simpl; lia.
  - rewrite !filter_cons. specialize (IH _ Hi). destruct (decide (P z)); cbn [length]; lia.
Qed.

Section runs.
Context `{Machine}.

(** Any sequence of methods from any goroutines, with the grants that were
    kept and the destination versions that were presented. *)
Inductive run : destinationLimiter → list grant → list DestinationVersion.t → Prop :=
  | run_new : run newDestinationLimiter [] []
  | run_grant limiter grants seen now d p limiter' :
      run limiter grants seen → tryAcquire limiter now d = (Some p, limiter') →
      run limiter'
        (Grant p (DestinationVersion.DestinationID d) now (effective_interval d) :: grants)
        (d :: seen)
  | run_refuse limiter grants seen now d limiter' :
      run limiter grants seen → tryAcquire limiter now d = (None, limiter') →
      run limiter' grants (d :: seen)
  | run_release limiter grants seen p claimed :
      run limiter grants seen →
      run (release limiter p claimed)
        (if claimed : bool then grants else filter (λ g, g_permit g ≠ p) grants) seen.

(** ** The invariant *)

Record limiter_inv (l : destinationLimiter) (grants : list grant)
    (seen : list DestinationVersion.t) : Prop := {
  li_active id st : states l !! id = Some st → active st = outstanding l id;
  li_state i p : permits l !! i = Some p → is_Some (states l !! destinationPermit.state p);
  li_last id st : states l !! id = Some st →
    0 ≤ lastSequence st ≤ Z.of_nat (length (permits l));
  li_sequence i p st : permits l !! i = Some p →
    states l !! destinationPermit.state p = Some st →
    destinationPermit.sequence p ≤ lastSequence st;
  li_order i j p q : (i < j)%nat → permits l !! i = Some p → permits l !! j = Some q →
    destinationPermit.state p = destinationPermit.state q →
    destinationPermit.sequence p < destinationPermit.sequence q;
  li_grant g : g ∈ grants → ∃ p, permits l !! g_permit g = Some p ∧
    destinationPermit.state p = g_destination g;
  li_next g st : g ∈ grants → states l !! g_destination g = Some st →
    g_time g + g_interval g ≤ nextAllowed st;
  li_previous i p g : permits l !! i = Some p → g ∈ grants →
    g_destination g = destinationPermit.state p → (g_permit g < i)%nat →
    g_time g + g_interval g ≤ destinationPermit.previousNext p;
  li_interval id st : states l !! id = Some st → 0 ≤ minInterval st;
  li_seen d : d ∈ seen → ∃ st, states l !! DestinationVersion.DestinationID d = Some st ∧
    maxConcurrent st ≤ effective_concurrency d
}.

Lemma state_permits l d st l' : state l d = (st, l') → permits l' = permits l.
Proof. unfold state. by intros [= _ <-]. Qed.

(** [state] creates or tightens one state and touches nothing else. *)
Lemma state_inv l grants seen d st l' :
  limiter_inv l grants seen → 0 ≤ effective_interval d → state l d = (st, l') →
  limiter_inv l' grants (d :: seen) ∧
  states l' !! DestinationVersion.DestinationID d = Some st ∧
  maxConcurrent st ≤ effective_concurrency d ∧ effective_interval d ≤ minInterval st.
Proof.
  intros Hi Hpos. unfold state. set (id := DestinationVersion.DestinationID d).
  set (st0 := match states l !! id with None => _ | Some _ => _ end). intros [= <- <-].
  assert (Hmax : maxConcurrent st0 ≤ effective_concurrency d ∧
                 effective_interval d ≤ minInterval st0).
  { unfold st0. destruct (states l !! id) as [s|]; simpl; [|lia].
    destruct (Z.ltb_spec (effective_concurrency d) (maxConcurrent s)),
      (Z.ltb_spec (minInterval s) (effective_interval d)); lia. }
  assert (Hold : ∀ s, states l !! id = Some s → active st0 = active s ∧
    nextAllowed st0 = nextAllowed s ∧ lastSequence st0 = lastSequence s ∧
    maxConcurrent st0 ≤ maxConcurrent s).
  { intros s Hs. unfold st0. rewrite Hs. simpl. split_and!; try done.
    destruct (Z.ltb_spec (effective_concurrency d) (maxConcurrent s)); lia. }
  assert (Hnew : states l !! id = None → active st0 = 0 ∧ lastSequence st0 = 0).
  { intros Hn. unfold st0. by rewrite Hn. }
  clearbody st0. split; [|simpl; by rewrite lookup_insert_eq].
  destruct Hi as [Ha Hst Hla Hse Ho Hg Hn Hp Hiv Hs].
  assert (Hnone : states l !! id = None → ∀ i p, permits l !! i = Some p →
    destinationPermit.state p ≠ id).
  { intros HN i p Hip Heq. destruct (Hst _ _ Hip) as [s Hs']. congruence. }
  constructor; simpl; eauto.
  - intros id' s [[<- <-]|[Hne Hl]]%lookup_insert_Some; [|by apply Ha].
    destruct (states l !! id) as [s|] eqn:E; [destruct (Hold s) as [-> _]; [done|by apply Ha]|].
    destruct (Hnew eq_refl) as [-> _]. unfold outstanding. simpl.
    rewrite filter_none; [done|]. apply Forall_forall. intros p Hin [Hid _].
    apply list_elem_of_lookup in Hin as [i Hi]. by eapply Hnone.
  - intros i p Hip. destruct (decide (destinationPermit.state p = id)) as [->|Hne];
      [rewrite lookup_insert_eq; by eexists|rewrite lookup_insert_ne by done; by eapply Hst].
  - intros id' s [[<- <-]|[Hne Hl]]%lookup_insert_Some; [|by eapply Hla].
    destruct (states l !! id) as [s|] eqn:E.
    + destruct (Hold s) as (_ & _ & -> & _); [done|]. by eapply Hla.
    + destruct (Hnew eq_refl) as [_ ->]. lia.
  - intros i p s Hip [[Heq <-]|[Hne Hl]]%lookup_insert_Some; [|by eapply Hse].
    destruct (states l !! id) as [s|] eqn:E.
    + destruct (Hold s) as (_ & _ & -> & _); [done|]. eapply Hse; [done|]. by rewrite <- Heq.
    + exfalso. by eapply Hnone.
  - intros g s Hin [[Heq <-]|[Hne Hl]]%lookup_insert_Some; [|by eapply Hn].
    destruct (states l !! id) as [s|] eqn:E.
    + destruct (Hold s) as (_ & -> & _); [done|]. eapply Hn; [done|]. by rewrite <- Heq.
    + exfalso. destruct (Hg _ Hin) as (p & Hpp & Hps). eapply Hnone; [done..|congruence].
  - intros id' s [[<- <-]|[Hne Hl]]%lookup_insert_Some; [lia|by eapply Hiv].
  - intros d' [->|Hin]%elem_of_cons; [fold id; rewrite lookup_insert_eq; naive_solver|].
    destruct (Hs _ Hin) as (s & Hs' & Hle).
    destruct (decide (DestinationVersion.DestinationID d' = id)) as [Heq|Hne].
    + rewrite Heq, lookup_insert_eq. exists st0. split; [done|]. rewrite Heq in Hs'.
      destruct (Hold _ Hs') as (_ & _ & _ & ?). lia.
    + rewrite lookup_insert_ne by done. eauto.
Qed.

Lemma tryAcquire_refuse l grants seen now d l' :
  limiter_inv l grants seen → 0 ≤ effective_interval d →
  tryAcquire l now d = (None, l') → limiter_inv l' grants (d :: seen).
Proof.
  unfold tryAcquire. destruct (state l d) as [st l1] eqn:E. intros Hi Hd.
  destruct (_ || _); intros [=]; subst. by eapply state_inv.
Qed.

Definition permit_of (d : DestinationVersion.t) (st : destinationLimitState.t) (now : Z)
    : destinationPermit.t :=
  destinationPermit.mk (DestinationVersion.DestinationID d) (lastSequence st + 1)
    (nextAllowed st) (now + minInterval st) false.

Definition granted_state (st : destinationLimitState.t) (now : Z) : destinationLimitState.t :=
  destinationLimitState.mk (active st + 1) (maxConcurrent st) (minInterval st)
    (now + minInterval st) (lastSequence st + 1) (changed st).

(** What a grant does, while the sequence has not wrapped. *)
Lemma tryAcquire_Some l grants seen now d p l' :
  limiter_inv l grants seen → 0 ≤ effective_interval d →
  Z.of_nat (length (permits l')) < 2 ^ 64 →
  tryAcquire l now d = (Some p, l') →
  ∃ st l1, limiter_inv l1 grants (d :: seen) ∧
    states l1 !! DestinationVersion.DestinationID d = Some st ∧
    maxConcurrent st ≤ effective_concurrency d ∧ effective_interval d ≤ minInterval st ∧
    active st < maxConcurrent st ∧ nextAllowed st ≤ now ∧ p = length (permits l1) ∧
    l' = mkLimiter (<[DestinationVersion.DestinationID d := granted_state st now]> (states l1))
           (permits l1 ++ [permit_of d st now]).
Proof.
  unfold tryAcquire. intros Hi Hd Hlen. destruct (state l d) as [st l1] eqn:E.
  destruct (_ || _) eqn:Hc; [done|]. apply orb_false_iff in Hc as [Hc1 Hc2]. to_prop.
  destruct (state_inv _ _ _ _ _ _ Hi Hd E) as (Hi1 & Hst & Hm & Hiv).
  intros Heq. injection Heq as <- <-. exists st, l1.
  assert (Hmod : (lastSequence st + 1) mod 2 ^ 64 = lastSequence st + 1).
  { apply Z.mod_small. destruct (li_last _ _ _ Hi1 _ _ Hst). cbn [permits] in Hlen.
    rewrite length_app in Hlen. simpl in Hlen. lia. }
  rewrite Hmod. split_and!; done.
Qed.

Lemma grant_inv l grants seen d st now :
  limiter_inv l grants seen →
  states l !! DestinationVersion.DestinationID d = Some st → nextAllowed st ≤ now →
  effective_interval d ≤ minInterval st →
  limiter_inv
    (mkLimiter (<[DestinationVersion.DestinationID d := granted_state st now]> (states l))
       (permits l ++ [permit_of d st now]))
    (Grant (length (permits l)) (DestinationVersion.DestinationID d) now (effective_interval d)
       :: grants) seen.
Proof.
  set (id := DestinationVersion.DestinationID d). intros Hi Hst Hnow Hiv.
  destruct Hi as [Ha Hstt Hla Hse Ho Hg Hn Hp Hin Hs].
  pose proof (Hin _ _ Hst) as Hpos. pose proof (Hla _ _ Hst) as Hlast.
  assert (Happ : ∀ i p, (permits l ++ [permit_of d st now]) !! i = Some p →
    permits l !! i = Some p ∨ i = length (permits l) ∧ p = permit_of d st now).
  { intros i p [?|[Hge Hx]]%lookup_app_Some; [auto|right].
    apply list_lookup_singleton_Some in Hx as [? <-]. split; [lia|done]. }
  constructor; simpl.
  - intros id' s [[<- <-]|[Hne Hl]]%lookup_insert_Some; simpl; unfold outstanding; simpl;
      rewrite filter_app, filter_cons, length_app.
    + rewrite decide_True by done. rewrite (Ha _ _ Hst). unfold outstanding. simpl. lia.
    + rewrite decide_False by (simpl; naive_solver). rewrite (Ha _ _ Hl).
      unfold outstanding. simpl. lia.
  - intros i p [Hip|[_ ->]]%Happ; simpl; [|fold id; rewrite lookup_insert_eq; by eexists].
    destruct (decide (destinationPermit.state p = id)) as [->|Hne];
      [rewrite lookup_insert_eq; by eexists|rewrite lookup_insert_ne by done; by eapply Hstt].
  - rewrite length_app. simpl. intros id' s [[<- <-]|[Hne Hl]]%lookup_insert_Some; simpl; [lia|].
    specialize (Hla _ _ Hl). lia.
  - intros i p s [Hip|[_ ->]]%Happ Hs'; simpl in *.
    + apply lookup_insert_Some in Hs' as [[Heq <-]|[Hne Hl]]; [|by eapply Hse]. simpl.
      assert (destinationPermit.sequence p ≤ lastSequence st); [|lia].
      eapply Hse; [done|]. by rewrite <- Heq.
    + fold id in Hs'. rewrite lookup_insert_eq in Hs'. by simplify_eq.
  - intros i j p q Hij [Hip|[-> ->]]%Happ [Hjq|[-> ->]]%Happ Heq; simpl in *.
    + by eapply (Ho i j).
    + assert (destinationPermit.sequence p ≤ lastSequence st); [|lia].
      eapply Hse; [done|]. by rewrite Heq.
    + apply lookup_lt_Some in Hjq. lia.
    + lia.
  - intros g [->|Hgin]%elem_of_cons; simpl.
    + exists (permit_of d st now). split; [|done]. by apply list_lookup_middle.
    + destruct (Hg _ Hgin) as (p & Hp1 & Hp2). exists p. split; [|done].
      by apply lookup_app_l_Some.
  - intros g s [->|Hgin]%elem_of_cons; simpl.
    + fold id. rewrite lookup_insert_eq. intros [= <-]. simpl. lia.
    + intros [[Heq <-]|[Hne Hl]]%lookup_insert_Some; simpl; [|by eapply Hn].
      assert (g_time g + g_interval g ≤ nextAllowed st); [|lia].
      eapply Hn; [done|]. by rewrite <- Heq.
  - intros i p g [Hip|[-> ->]]%Happ [->|Hgin]%elem_of_cons Heq Hlt; simpl in *.
    + apply lookup_lt_Some in Hip. lia.
    + by eapply Hp.
    + lia.
    + eapply Hn; [done|]. by rewrite Heq.
  - intros id' s [[<- <-]|[Hne Hl]]%lookup_insert_Some; simpl; [done|by eapply Hin].
  - intros d' Hd'. destruct (Hs _ Hd') as (s & Hs' & Hle).
    destruct (decide (DestinationVersion.DestinationID d' = id)) as [Heq|Hne].
    + rewrite Heq, lookup_insert_eq. eexists. split; [done|]. simpl. rewrite Heq in Hs'.
      by simplify_eq.
    + rewrite lookup_insert_ne by done. eauto.
Qed.

Lemma limiter_inv_fewer l grants grants' seen :
  grants' ⊆ grants → limiter_inv l grants seen → limiter_inv l grants' seen.
Proof. intros Hsub []. constructor; eauto. Qed.

Definition released_permit (p : destinationPermit.t) : destinationPermit.t :=
  destinationPermit.mk (destinationPermit.state p) (destinationPermit.sequence p)
    (destinationPermit.previousNext p) (destinationPermit.reservedNext p) true.

Lemma outstanding_release l i p id :
  permits l !! i = Some p → destinationPermit.released p = false →
  outstanding (mkLimiter (states l) (<[i := released_permit p]> (permits l))) id =
  outstanding l id - (if decide (destinationPermit.state p = id) then 1 else 0).
Proof.
  intros Hi Hr. unfold outstanding. simpl. erewrite length_filter_insert by done.
  case_decide as H1; case_decide as H2; case_decide as H3; simpl in *; naive_solver lia.
Qed.

Lemma released_lookup (l : list destinationPermit.t) i j p q :
  l !! i = Some p → <[i := released_permit p]> l !! j = Some q →
  ∃ q0, l !! j = Some q0 ∧ destinationPermit.state q = destinationPermit.state q0 ∧
    destinationPermit.sequence q = destinationPermit.sequence q0 ∧
    destinationPermit.previousNext q = destinationPermit.previousNext q0.
Proof.
  intros Hi [(-> & <- & _)|[_ Hj]]%list_lookup_insert_Some; [by exists p|by exists q].
Qed.

(** The state a release leaves behind the permit's destination. *)
Lemma release_inv l grants seen i claimed :
  limiter_inv l grants seen →
  limiter_inv (release l i claimed)
    (if claimed then grants else filter (λ g, g_permit g ≠ i) grants) seen.
Proof.
  intros Hi. assert (Hfew : limiter_inv l
    (if claimed then grants else filter (λ g, g_permit g ≠ i) grants) seen).
  { eapply limiter_inv_fewer; [|done]. destruct claimed; [done|]. intros g. by intros [_ ?]%list_elem_of_filter. }
  unfold release. destruct (permits l !! i) as [p|] eqn:Hp; [|done].
  destruct (destinationPermit.released p) eqn:Hr; [done|].
  set (id := destinationPermit.state p).
  destruct (states l !! id) as [st|] eqn:Hst; [|done].
  fold (released_permit p). set (grants' := if claimed then _ else _) in *.
  set (refund := negb claimed && _ && _). simpl. fold id.
  pose proof (li_sequence _ _ _ Hi) as Hseq. pose proof (li_order _ _ _ Hi) as Hord.
  assert (Hrefund : refund = true → ∀ g, g ∈ grants' → g_destination g = id →
    g_time g + g_interval g ≤ destinationPermit.previousNext p).
  { unfold refund. intros Hrf g Hg Hd. to_prop. subst claimed. unfold grants' in Hg.
    apply list_elem_of_filter in Hg as [Hne Hg].
    destruct (li_grant _ _ _ Hi _ Hg) as (q & Hq & Hqs).
    eapply (li_previous _ _ _ Hi i); [done..|].
    destruct (decide (g_permit g < i)%nat) as [|Hge]; [done|exfalso].
    assert (destinationPermit.sequence p < destinationPermit.sequence q).
    { eapply (Hord i (g_permit g)); [lia|done|done|]. unfold id in *. congruence. }
    assert (destinationPermit.sequence q ≤ lastSequence st); [|lia].
    eapply Hseq; [done|]. rewrite Hqs, Hd. done. }
  clearbody refund grants'. clear Hi. destruct Hfew as [Ha Hstt Hla Hse Ho Hg Hn Hpv Hin Hs].
  constructor; simpl.
  - intros id' s Hl.
    transitivity (outstanding (mkLimiter (states l) (<[i := released_permit p]> (permits l))) id');
      [|done]. rewrite (outstanding_release l i p id' Hp Hr).
    apply lookup_insert_Some in Hl as [[<- <-]|[Hne Hl]]; simpl.
    + rewrite decide_True by done. by rewrite (Ha _ _ Hst).
    + rewrite decide_False by done. rewrite (Ha _ _ Hl). lia.
  - intros j q Hj. destruct (released_lookup _ _ _ _ _ Hp Hj) as (q0 & Hq0 & -> & _).
    destruct (decide (destinationPermit.state q0 = id)) as [->|Hne];
      [rewrite lookup_insert_eq; by eexists|rewrite lookup_insert_ne by done; by eapply Hstt].
  - rewrite length_insert. intros id' s [[<- <-]|[Hne Hl]]%lookup_insert_Some; simpl; by eapply Hla.
  - intros j q s Hj. destruct (released_lookup _ _ _ _ _ Hp Hj) as (q0 & Hq0 & -> & -> & _).
    intros [[Heq <-]|[Hne Hl]]%lookup_insert_Some; simpl; [|by eapply Hse].
    eapply Hse; [done|]. by rewrite <- Heq.
  - intros j k q s Hjk Hj Hk. destruct (released_lookup _ _ _ _ _ Hp Hj) as (q0 & Hq0 & -> & -> & _).
    destruct (released_lookup _ _ _ _ _ Hp Hk) as (s0 & Hs0 & -> & -> & _). by eapply Ho.
  - intros g Hgin. destruct (Hg _ Hgin) as (q & Hq & Hqs).
    destruct (decide (g_permit g = i)) as [Heq|Hne].
    + rewrite Heq in Hq |- *. assert (q = p) as -> by congruence.
      exists (released_permit p). by rewrite list_lookup_insert_eq by (by eapply lookup_lt_Some).
    + exists q. by rewrite list_lookup_insert_ne.
  - intros g s Hgin [[Heq <-]|[Hne Hl]]%lookup_insert_Some; simpl; [|by eapply Hn].
    destruct refund; [by apply Hrefund|]. eapply Hn; [done|]. by rewrite <- Heq.
  - intros j q g Hj Hgin. destruct (released_lookup _ _ _ _ _ Hp Hj) as (q0 & Hq0 & -> & _ & ->).
    by eapply Hpv.
  - intros id' s [[<- <-]|[Hne Hl]]%lookup_insert_Some; simpl; by eapply Hin.
  - intros d Hd. destruct (Hs _ Hd) as (s & Hs' & Hle).
    destruct (decide (DestinationVersion.DestinationID d = id)) as [Heq|Hne].
    + rewrite Heq, lookup_insert_eq. eexists. split; [done|]. simpl. rewrite Heq in Hs'.
      by simplify_eq.
    + rewrite lookup_insert_ne by done. eauto.
Qed.

Lemma release_length l i c : length (permits (release l i c)) = length (permits l).
Proof. unfold release. repeat case_match; simpl; rewrite ?length_insert; done. Qed.

Lemma tryAcquire_length l now d o l' :
  tryAcquire l now d = (o, l') → (length (permits l) ≤ length (permits l'))%nat.
Proof.
  unfold tryAcquire. destruct (state l d) as [st l1] eqn:E. apply state_permits in E.
  destruct (_ || _); intros [=]; subst; simpl; rewrite ?length_app; rewrite <- E; simpl; lia.
Qed.

Lemma run_inv l grants seen :
  run l grants seen → Forall (λ d, 0 ≤ effective_interval d) seen →
  Z.of_nat (length (permits l)) < 2 ^ 64 → limiter_inv l grants seen.
Proof.
  induction 1 as [|l grants seen now d p l' Hr IH Ht|l grants seen now d l' Hr IH Ht|
                  l grants seen p c Hr IH]; intros Hs Hlen.
  - constructor; simpl; try (intros *; rewrite ?lookup_empty, ?lookup_nil; done);
      intros; exfalso; by eapply not_elem_of_nil.
  - inversion Hs; subst. pose proof (tryAcquire_length _ _ _ _ _ Ht).
    destruct (tryAcquire_Some l grants seen now d p l') as
      (st & l1 & Hi & Hst & _ & Hiv & _ & Hnx & -> & ->); [apply IH; [done|lia]|done..|].
    by apply grant_inv.
  - inversion Hs; subst. pose proof (tryAcquire_length _ _ _ _ _ Ht).
    eapply tryAcquire_refuse; [apply IH; [done|lia]|done|done].
  - rewrite release_length in Hlen. apply release_inv. auto.
Qed.

(** C25: concurrency: whatever was acquired and released before, a permit is
    granted only when, with it, the permits in use for the destination stay
    within the concurrency of every version of it presented so far. *)
Theorem permits_respect_concurrency limiter grants seen now d p limiter' :
  run limiter grants seen → Forall (λ d, 0 ≤ effective_interval d) (d :: seen) →
  Z.of_nat (length (permits limiter')) < 2 ^ 64 →
  tryAcquire limiter now d = (Some p, limiter') →
  ∀ d', d' ∈ d :: seen →
    DestinationVersion.DestinationID d' = DestinationVersion.DestinationID d →
    outstanding limiter' (DestinationVersion.DestinationID d) ≤ effective_concurrency d'.
Proof.
  intros Hr Hs Hlen Ht d' Hd' Hid. inversion Hs; subst.
  pose proof (tryAcquire_length _ _ _ _ _ Ht).
  assert (Hi : limiter_inv limiter grants seen) by (apply run_inv; [done|done|lia]).
  destruct (tryAcquire_Some _ _ _ _ _ _ _ Hi ltac:(done) Hlen Ht)
    as (st & l1 & Hi1 & Hst & _ & Hiv & Hact & Hnx & -> & ->).
  destruct (li_seen _ _ _ Hi1 _ Hd') as (st' & Hst' & Hle).
  rewrite Hid, Hst in Hst'. injection Hst' as <-.
  pose proof (grant_inv _ _ _ d st now Hi1 Hst Hnx Hiv) as Hi2.
  rewrite <- (li_active _ _ _ Hi2 _ (granted_state st now)).
  - simpl. lia.
  - simpl. by rewrite lookup_insert_eq.
Qed.

(** C24: rate: a permit is granted only once the interval of every earlier
    permit of the destination that was not refunded has passed; a refund
    never lets a kept attempt be followed too soon. *)
Theorem permits_respect_rate limiter grants seen now d p limiter' :
  run limiter grants seen → Forall (λ d, 0 ≤ effective_interval d) (d :: seen) →
  Z.of_nat (length (permits limiter')) < 2 ^ 64 →
  tryAcquire limiter now d = (Some p, limiter') →
  ∀ g, g ∈ grants → g_destination g = DestinationVersion.DestinationID d →
    g_time g + g_interval g ≤ now.
Proof.
  intros Hr Hs Hlen Ht g Hg Hid. inversion Hs; subst.
  pose proof (tryAcquire_length _ _ _ _ _ Ht).
  assert (Hi : limiter_inv limiter grants seen) by (apply run_inv; [done|done|lia]).
  destruct (tryAcquire_Some _ _ _ _ _ _ _ Hi ltac:(done) Hlen Ht)
    as (st & l1 & Hi1 & Hst & _ & _ & _ & Hnx & _).
  assert (g_time g + g_interval g ≤ nextAllowed st); [|lia].
  eapply (li_next _ _ _ Hi1); [done|]. by rewrite Hid.
Qed.
End runs.

(** ** Concrete runs *)

(** amd64: the conversion of an out-of-range value gives the least int64. *)
#[global] Instance amd64 : Machine := {| float_overflow := λ _, min_int64 |}.

Definition t0 : Z := 1767268800000000000.
Definition after_first : destinationLimiter := (tryAcquire newDestinationLimiter t0 destination0).2.
Definition after_second : destinationLimiter := (tryAcquire after_first (t0 + 250000000) destination0).2.

(** Two attempts, 250 ms apart: the destination allows five per second. *)
Lemma first_run : run after_first [Grant 0 "billing" t0 200000000] [destination0].
Proof.
  apply (run_grant newDestinationLimiter [] [] t0 destination0 0 after_first run_new).
  vm_compute. reflexivity.
Qed.

Lemma permits_respect_concurrency_witness :
  outstanding after_second "billing" ≤ effective_concurrency destination0.
Proof.
  apply (permits_respect_concurrency after_first [Grant 0 "billing" t0 200000000] [destination0]
    (t0 + 250000000) destination0 1 after_second first_run).
  - repeat constructor; vm_compute; discriminate.
  - vm_compute. reflexivity.
  - vm_compute. reflexivity.
  - left.
  - reflexivity.
Defined.

Lemma permits_respect_rate_witness : t0 + 200000000 ≤ t0 + 250000000.
Proof.
  apply (permits_respect_rate after_first [Grant 0 "billing" t0 200000000] [destination0]
    (t0 + 250000000) destination0 1 after_second first_run) with
    (g := Grant 0 "billing" t0 200000000).
  - repeat constructor; vm_compute; discriminate.
  - vm_compute. reflexivity.
  - vm_compute. reflexivity.
  - left.
  - reflexivity.
Defined.

(** Too soon: refused. *)
Example refused_too_soon : (tryAcquire after_first (t0 + 199999999) destination0).1 = None.
Proof. vm_compute. reflexivity. Qed.

(** A refund gives the reservation back. *)
Example refunded : (tryAcquire (release after_first 0 false) t0 destination0).1 = Some 1%nat.
Proof. vm_compute. reflexivity. Qed.

(** One attempt per 10^10 seconds: the positive [numeric] 0.0000000001. *)
Definition destination_slow : DestinationVersion.t :=
  DestinationVersion.mk "slow" 1 "https://supplier.example/" "external_https" (Some ["POST"])
    (Some []) "" "" "Idempotency-Key" (Some []) (Some []) 1000000000 5000000000
    (SFdiv 53 1024 (float64_of_Z 1) (float64_of_Z 10000000000)) 8.

(** A positive rate below one attempt in about 292 years overflows the
    conversion to [time.Duration]; on amd64 the interval becomes negative, and
    the second of two simultaneous attempts is granted. *)
Theorem tiny_rate_is_not_limited :
  SFleb (DestinationVersion.RatePerSecond destination_slow) (S754_zero false) = false ∧
  effective_interval destination_slow < 0 ∧
  let first := (tryAcquire newDestinationLimiter t0 destination_slow).2 in
  (tryAcquire first t0 destination_slow).1 = Some 1%nat.
Proof. split_and!; vm_compute; reflexivity. Qed.
