(* ===== verification/Dispatch.v ===== *)
(** * internal/dispatch: signals, the broker and the Publisher

    A signal names a delivery generation.  The Publisher claims Outbox events,
    publishes each one's signal with a broker confirm, and only then records
    it as published; what it could not publish it gives back. *)

From S2P Require Import Prelude GoStrings Model Database Store Outbox Lifecycle Refinement Scenario.
From Stdlib Require Import Ascii.

Local Open Scope Z_scope.

(** ** Signals (rabbit.go) *)

Module Signal.
Record t := mk { DeliveryID : string; Generation : Z; TraceID : string }.
End Signal.

(** [hex.DecodeString] succeeds on an even number of hexadecimal digits. *)
Definition hex_digit (b : Z) : bool :=
  ((48 <=? b) && (b <=? 57)) || ((97 <=? b) && (b <=? 102)) || ((65 <=? b) && (b <=? 70)).
Definition hex_decodable (l : list Z) : bool :=
  Nat.even (length l) && forallb hex_digit l.

Definition validUUID (value : string) : bool :=
  let b := bytes_of value in
  if negb (len value =? 36) || negb (b !!! 8%nat =? 45) || negb (b !!! 13%nat =? 45) ||
     negb (b !!! 18%nat =? 45) || negb (b !!! 23%nat =? 45)
  then false
  else hex_decodable (take 8 b ++ take 4 (drop 9 b) ++ take 4 (drop 14 b) ++
                      take 4 (drop 19 b) ++ drop 24 b).

Definition Validate (signal : Signal.t) : bool :=
  validUUID (Signal.DeliveryID signal) && negb (Signal.Generation signal <? 0) &&
  validUUID (Signal.TraceID signal).

(** ** Topology (rabbit.go) *)

Definition ExchangeName : string := "reliable-notifier.dispatch".
Definition QueueName : string := "reliable-notifier.dispatch".
Definition RoutingKey : string := "delivery".
Definition DeadLetterExchange : string := "reliable-notifier.dispatch.dlx".
Definition DeadLetterQueue : string := "reliable-notifier.dispatch.dlq".
Definition DeadLetterKey : string := "dead".
Definition DeferralQueue : string := "reliable-notifier.dispatch.deferred".

(** The declarations, all durable; a queue carries its dead-letter target and
    its message time-to-live in milliseconds. *)
Inductive declaration : Type :=
  | ExchangeDeclare (name kind : string)
  | QueueDeclare (name : string) (dead_letter : option (string * string)) (ttl : option Z)
  | QueueBind (queue key exchange : string).

Definition topology : list declaration :=
  [ExchangeDeclare DeadLetterExchange "direct";
   QueueDeclare DeadLetterQueue None None;
   QueueBind DeadLetterQueue DeadLetterKey DeadLetterExchange;
   ExchangeDeclare ExchangeName "direct";
   QueueDeclare QueueName (Some (DeadLetterExchange, DeadLetterKey)) None;
   QueueBind QueueName RoutingKey ExchangeName;
   QueueDeclare DeferralQueue (Some (ExchangeName, RoutingKey)) (Some 250)].

(** [declareTopology]: the declarations made until one fails. *)
Fixpoint declare (fails : declaration → bool) (l : list declaration)
    : bool * list declaration :=
  match l with
  | [] => (true, [])
  | d :: l => if fails d then (false, []) else
      let '(ok, done_) := declare fails l in (ok, d :: done_)
  end.
Definition declareTopology (fails : declaration → bool) : bool * list declaration :=
  declare fails topology.

(** AMQP routing: a direct exchange delivers to the queues bound under the
    key; the default exchange to the queue of that name. *)
Definition routes (declared : list declaration) (exchange key : string) : list string :=
  omap (λ d, match d with
             | QueueBind q k e =>
                 if bool_decide (e = exchange ∧ k = key ∧ exchange ≠ "") then Some q else None
             | QueueDeclare q _ _ =>
                 if bool_decide (exchange = "" ∧ q = key) then Some q else None
             | _ => None
             end) declared.

(** Where a message goes that a queue gives up: rejected, or expired. *)
Definition dead_letters (declared : list declaration) (queue : string) : list string :=
  mjoin (omap (λ d, match d with
             | QueueDeclare q (Some (e, k)) _ =>
                 if bool_decide (q = queue) then Some (routes declared e k) else None
             | _ => None
             end) declared).

(** ** Publishing with confirms (rabbit.go) *)

(** The exchange and key of [Publish] and [Defer]. *)
Definition publish_target : string * string := (ExchangeName, RoutingKey).
Definition defer_target : string * string := ("", DeferralQueue).

(** The state behind a [RabbitBroker]: the tag of the next publication, and
    what is queued on the [confirms] and [returns] channels - confirmations
    with their tag and ack flag, and the tags of returned messages. *)
Record broker := Broker {
  next_tag : nat;
  confirms : list (nat * bool);
  returns : list nat;
  confirms_closed : bool
}.

(** What the connection puts on the channels meanwhile. *)
Record arrival := Arrival {
  new_confirms : list (nat * bool);
  new_returns : list nat;
  closes : bool
}.

Definition arrive (a : arrival) (b : broker) : broker :=
  Broker (next_tag b) (confirms b ++ new_confirms a) (returns b ++ new_returns a)
    (confirms_closed b || closes a).

Inductive publish_result : Type :=
  | Published | WasUnroutable | WasNacked | ConfirmClosed | ContextDone | SendFailed.

Definition sent_next (b : broker) : broker :=
  Broker (S (next_tag b)) (confirms b) (returns b) (confirms_closed b).
Definition take_confirm (b : broker) : broker :=
  Broker (next_tag b) (tail (confirms b)) (returns b) (confirms_closed b).
Definition take_return (b : broker) : broker :=
  Broker (next_tag b) (confirms b) (tail (returns b)) (confirms_closed b).

(** [publishSignal]: the send, then [select], which takes any ready branch
    after the arrivals [a]; after an ack the returns are looked at once more,
    after the arrivals [a'].  The tag of a confirmation is not looked at. *)
Inductive publishSignal (b : broker) (sent cancelled : bool) (a a' : arrival)
    : publish_result → broker → Prop :=
  | ps_send_failed :
      sent = false → publishSignal b sent cancelled a a' SendFailed b
  | ps_returned t l :
      sent = true → returns (arrive a (sent_next b)) = t :: l →
      publishSignal b sent cancelled a a' WasUnroutable (take_return (arrive a (sent_next b)))
  | ps_closed :
      sent = true → confirms (arrive a (sent_next b)) = [] →
      confirms_closed (arrive a (sent_next b)) = true →
      publishSignal b sent cancelled a a' ConfirmClosed (arrive a (sent_next b))
  | ps_nack t l :
      sent = true → confirms (arrive a (sent_next b)) = (t, false) :: l →
      publishSignal b sent cancelled a a' WasNacked (take_confirm (arrive a (sent_next b)))
  | ps_ack_returned t l t' l' :
      sent = true → confirms (arrive a (sent_next b)) = (t, true) :: l →
      returns (arrive a' (take_confirm (arrive a (sent_next b)))) = t' :: l' →
      publishSignal b sent cancelled a a' WasUnroutable
        (take_return (arrive a' (take_confirm (arrive a (sent_next b)))))
  | ps_ack t l :
      sent = true → confirms (arrive a (sent_next b)) = (t, true) :: l →
      returns (arrive a' (take_confirm (arrive a (sent_next b)))) = [] →
      publishSignal b sent cancelled a a' Published
        (arrive a' (take_confirm (arrive a (sent_next b))))
  | ps_cancelled :
      sent = true → cancelled = true →
      publishSignal b sent cancelled a a' ContextDone (arrive a (sent_next b)).

(** ** The Publisher (publisher.go) *)

Class PublisherEnv (W : Type) := {
  ClaimOutbox_ : string → Z → Z → W → result error (list OutboxEvent.t) * W;
  MarkOutboxPublished_ : OutboxEvent.t → W → result error unit * W;
  ReleaseOutbox_ : OutboxEvent.t → W → result error unit * W;
  Publish_ : Signal.t → W → bool * W     (* confirmed? *)
}.

Inductive publisher_event : Type :=
  | PuClaim (r : result error (list OutboxEvent.t))
  | PuPublish (signal : Signal.t) (confirmed : bool)
  | PuMark (event : OutboxEvent.t) (r : result error unit)
  | PuRelease (event : OutboxEvent.t).

Inductive publisher_error : Type :=
  | ClaimFailed (e : error)
  | PublishFailed
  | MarkFailed (e : error).

Module Publisher.
Record t := mk { owner : string; leaseDuration : Z; batchSize : Z }.
End Publisher.

Definition NewPublisher (store_nil broker_nil : bool) (owner : string) (leaseDuration batchSize : Z)
    : option Publisher.t :=
  if store_nil || broker_nil || String.eqb owner "" || (leaseDuration <=? 0) || (batchSize <=? 0)
  then None else Some (Publisher.mk owner leaseDuration batchSize).

Definition signal_of (event : OutboxEvent.t) : Signal.t :=
  Signal.mk (OutboxEvent.DeliveryID event) (OutboxEvent.Generation event)
    (OutboxEvent.TraceID event).

Section publisher.
Context {W : Type} `{PublisherEnv W}.

Fixpoint releaseRemaining (events : list OutboxEvent.t) : Eff publisher_event W unit :=
  match events with
  | [] => mret tt
  | event :: events =>
      perform (λ _, PuRelease event) (ReleaseOutbox_ event) ≫= λ _, releaseRemaining events
  end.

Fixpoint publish_each (published : Z) (events : list OutboxEvent.t)
    : Eff publisher_event W (Z * option publisher_error) :=
  match events with
  | [] => mret (published, None)
  | event :: rest =>
      perform (PuPublish (signal_of event)) (Publish_ (signal_of event)) ≫= λ confirmed : bool,
      if negb confirmed then
        releaseRemaining events ≫= λ _, mret (published, Some PublishFailed)
      else
        perform (PuMark event) (MarkOutboxPublished_ event) ≫= λ marked,
        match marked with
        | Err e => releaseRemaining events ≫= λ _, mret (published, Some (MarkFailed e))
        | Ok _ => publish_each (published + 1) rest
        end
  end.

Definition RunOnce (publisher : Publisher.t) : Eff publisher_event W (Z * option publisher_error) :=
  perform PuClaim
    (ClaimOutbox_ (Publisher.owner publisher) (Publisher.leaseDuration publisher)
       (Publisher.batchSize publisher)) ≫= λ claimed,
  match claimed with
  | Err e => mret (0, Some (ClaimFailed e))
  | Ok events => publish_each 0 events
  end.
End publisher.

(** ** Confirms *)

(** The broker confirms a message after it returned it if it could not be
    routed; arrivals for one publication on quiet channels. *)
Definition quiet_channels (b : broker) : Prop :=
  confirms b = [] ∧ returns b = [] ∧ confirms_closed b = false.

Definition broker_order (tag : nat) (routable : bool) (a : arrival) : Prop :=
  (∀ t ack, (t, ack) ∈ new_confirms a → t = tag ∧ (routable = false → tag ∈ new_returns a)) ∧
  (∀ t, t ∈ new_returns a → t = tag ∧ routable = false).

(** On quiet channels a publication is reported as published only when
    the broker acknowledged this very message and could route it. *)
Theorem published_means_routed_and_acked b sent cancelled a a' routable b' :
  quiet_channels b → broker_order (next_tag b) routable a →
  publishSignal b sent cancelled a a' Published b' →
  routable = true ∧ (next_tag b, true) ∈ new_confirms a.
Proof.
  intros (Hc & Hr & _) [Ho Hret] Hp. inversion Hp as [| | | | |t l Hs Hcf Hno|]; subst.
  simpl in *. rewrite Hc in Hcf. rewrite Hr in Hno. simpl in *.
  assert (Hin : (t, true) ∈ new_confirms a) by (rewrite Hcf; left).
  destruct (Ho _ _ Hin) as [-> Hrt]. split; [|done].
  destruct routable; [done|]. specialize (Hrt eq_refl).
  apply app_eq_nil in Hno as [Hnil _]. rewrite Hnil in Hrt. by apply not_elem_of_nil in Hrt.
Qed.

(** A reported return leaves the acknowledgement of the returned message
    on the channel; the next publication on the same broker takes it for its
    own and is reported as published although nothing arrived for it. *)
Theorem leftover_ack_confirms_the_next_signal b :
  quiet_channels b →
  let unroutable := Arrival [(next_tag b, true)] [next_tag b] false in
  let silence := Arrival [] [] false in
  ∃ b' b'', publishSignal b true false unroutable silence WasUnroutable b' ∧
            publishSignal b' true false silence silence Published b''.
Proof.
  intros (Hc & Hr & Hx) unroutable silence. eexists _, _. split.
  - apply (ps_returned _ _ _ _ _ (next_tag b) []); [done|]. simpl. by rewrite Hr.
  - apply (ps_ack _ _ _ _ _ (next_tag b) []); [done| |]; simpl; by rewrite ?Hc, ?Hr.
Qed.

Lemma published_means_routed_and_acked_witness :
  true = true ∧ (7%nat, true) ∈ [(7%nat, true)].
Proof.
  apply (published_means_routed_and_acked (Broker 7 [] [] false) true false
    (Arrival [(7%nat, true)] [] false) (Arrival [] [] false) true (Broker 8 [] [] false)).
  - by split_and!.
  - split; [|intros t Ht; by apply not_elem_of_nil in Ht].
    intros t ack Ht. apply list_elem_of_singleton in Ht. by simplify_eq.
  - by apply (ps_ack (Broker 7 [] [] false) true false (Arrival [(7%nat, true)] [] false)
      (Arrival [] [] false) 7%nat []).
Defined.

Lemma leftover_ack_confirms_the_next_signal_witness :
  ∃ b' b'',
    publishSignal (Broker 1 [] [] false) true false
      (Arrival [(1%nat, true)] [1%nat] false) (Arrival [] [] false) WasUnroutable b' ∧
    publishSignal b' true false (Arrival [] [] false) (Arrival [] [] false) Published b''.
Proof. by apply (leftover_ack_confirms_the_next_signal (Broker 1 [] [] false)). Defined.

(** The topology routes as the service relies on: published signals reach
    the dispatch queue, deferred ones wait 250 ms in the deferral queue and
    then return to the dispatch queue, and rejected ones end in the
    dead-letter queue. *)
Theorem topology_routes_signals :
  (declareTopology (λ _, false)).1 = true ∧
  let declared := (declareTopology (λ _, false)).2 in
  routes declared publish_target.1 publish_target.2 = [QueueName] ∧
  routes declared defer_target.1 defer_target.2 = [DeferralQueue] ∧
  dead_letters declared DeferralQueue = [QueueName] ∧
  dead_letters declared QueueName = [DeadLetterQueue] ∧
  dead_letters declared DeadLetterQueue = [].
Proof. vm_compute. by split_and!. Qed.

(** ** UUID texts *)

(** The two digits of a byte. *)
Definition hi (b : Z) : Z := byte_of (hex_char (Z.shiftr b 4)).
Definition lo (b : Z) : Z := byte_of (hex_char (Z.land b 15)).

Lemma hex_digits b : is_byte b → hex_digit (hi b) = true ∧ hex_digit (lo b) = true.
Proof.
  intros Hb. apply andb_true_iff. revert b Hb.
  apply (all_bytes (λ b, hex_digit (hi b) && hex_digit (lo b))). vm_compute. reflexivity.
Qed.

Definition version_byte (b : Z) : Z := Z.lor (Z.land b 15) 64.
Definition variant_byte (b : Z) : Z := Z.lor (Z.land b 63) 128.

Lemma version_digits b : is_byte b →
  hi (version_byte b) = 52 ∧ hex_digit (hi (version_byte b)) = true ∧
  hex_digit (lo (version_byte b)) = true.
Proof.
  intros Hb. assert (Ht : (hi (version_byte b) =? 52) && hex_digit (hi (version_byte b)) &&
    hex_digit (lo (version_byte b)) = true); [|by to_prop].
  revert b Hb. apply (all_bytes (λ b, (hi (version_byte b) =? 52) &&
    hex_digit (hi (version_byte b)) && hex_digit (lo (version_byte b)))). vm_compute. reflexivity.
Qed.

Lemma variant_digits b : is_byte b →
  hi (variant_byte b) ∈ [56; 57; 97; 98] ∧ hex_digit (hi (variant_byte b)) = true ∧
  hex_digit (lo (variant_byte b)) = true.
Proof.
  intros Hb. assert (Ht : bool_decide (hi (variant_byte b) ∈ [56; 57; 97; 98]) &&
    hex_digit (hi (variant_byte b)) && hex_digit (lo (variant_byte b)) = true); [|by to_prop].
  revert b Hb. apply (all_bytes (λ b, bool_decide (hi (variant_byte b) ∈ [56; 57; 97; 98]) &&
    hex_digit (hi (variant_byte b)) && hex_digit (lo (variant_byte b)))). vm_compute. reflexivity.
Qed.

(** A valid text is made of hexadecimal digits and dashes. *)
Lemma validUUID_bytes u : validUUID u = true →
  length (bytes_of u) = 36%nat ∧ Forall (λ b, b = 45 ∨ hex_digit b = true) (bytes_of u).
Proof.
  unfold validUUID, len. rewrite <- length_bytes_of. generalize (bytes_of u). intros b Hb.
  destruct (Z.eqb_spec (Z.of_nat (length b)) 36) as [Hl|]; [|done].
  assert (length b = 36%nat) as Hn by lia. split; [done|]. clear Hl.
  do 36 (destruct b as [|? b]; [discriminate Hn|]; injection Hn as Hn).
  destruct b; [|discriminate Hn]. clear Hn.
  cbn [lookup_total list_lookup_total take drop app negb orb] in Hb.
  case_match; [done|]. to_prop. unfold hex_decodable in Hb. cbn [forallb] in Hb. to_prop.
  subst. repeat (apply Forall_cons_2; [by auto|]). apply Forall_nil_2.
Qed.

Lemma newUUID_valid random : String.length random = 16%nat →
  ∃ u, newUUID (Some random) = Ok u ∧ validUUID u = true ∧
    bytes_of u !!! 14%nat = 52 ∧ bytes_of u !!! 19%nat ∈ [56; 57; 97; 98].
Proof.
  intros Hl. pose proof (bytes_of_range random) as Hb. unfold newUUID.
  rewrite <- length_bytes_of in Hl. generalize dependent (bytes_of random). clear random. intros random Hl Hb.
  do 16 (destruct random as [|? random]; [done|]). destruct random; [|done].
  repeat match goal with H : Forall is_byte (_ :: _) |- _ => inversion H; clear H; subst end.
  eexists. split; [reflexivity|]. cbn [insert list_insert lookup_total list_lookup_total
    take drop hex_string bytes_of]. unfold validUUID.
  match goal with |- context [len ?s] => set (u := s) end.
  assert (Hlen : len u = 36) by reflexivity. rewrite Hlen. clear Hlen.
  subst u. cbn [bytes_of lookup_total list_lookup_total take drop app].
  repeat match goal with |- context [byte_of "-"%char] => change (byte_of "-"%char) with 45 end.
  repeat match goal with
  | |- context [Z.lor (Z.land ?b 15) 64] => change (Z.lor (Z.land b 15) 64) with (version_byte b)
  | |- context [Z.lor (Z.land ?b 63) 128] => change (Z.lor (Z.land b 63) 128) with (variant_byte b)
  end.
  repeat match goal with
  | |- context [byte_of (hex_char (Z.shiftr ?b 4))] => change (byte_of (hex_char (Z.shiftr b 4))) with (hi b)
  | |- context [byte_of (hex_char (Z.land ?b 15))] => change (byte_of (hex_char (Z.land b 15))) with (lo b)
  end.
  cbn [Z.eqb Pos.eqb negb orb]. unfold hex_decodable.
  repeat match goal with
  | H : is_byte ?b |- context [version_byte ?b] =>
      destruct (version_digits b H) as (? & ? & ?); clear H
  | H : is_byte ?b |- context [variant_byte ?b] =>
      destruct (variant_digits b H) as (? & ? & ?); clear H
  | H : is_byte ?b |- _ => destruct (hex_digits b H) as [? ?]; clear H
  end.
  split_and!; [|done|done]. cbn [length Nat.even forallb andb].
  repeat match goal with H : hex_digit ?x = true |- context [hex_digit ?x] => rewrite H end.
  reflexivity.
Qed.

(** C37: From any sixteen random bytes [newUUID] makes a text that the
    signal validation accepts, with the version digit 4 and the RFC 4122
    variant. *)
Theorem new_uuids_are_valid random : String.length random = 16%nat →
  ∃ u, newUUID (Some random) = Ok u ∧ validUUID u = true ∧
    bytes_of u !!! 14%nat = 52 ∧ bytes_of u !!! 19%nat ∈ [56; 57; 97; 98].
Proof. apply newUUID_valid. Qed.

Lemma new_uuids_are_valid_witness :
  ∃ u, newUUID (Some (string_of (replicate 16 171))) = Ok u ∧ validUUID u = true ∧
    bytes_of u !!! 14%nat = 52 ∧ bytes_of u !!! 19%nat ∈ [56; 57; 97; 98].
Proof. apply new_uuids_are_valid. reflexivity. Defined.
