(* ===== verification/Amqp.v ===== *)
(** * Connections to RabbitMQ

    The constructors and [Close] methods of internal/dispatch/rabbit.go and
    internal/worker/rabbit.go and the queue probe of
    internal/dispatch/metrics.go, over the calls of the AMQP client they make.
    Every connection and channel that is not handed out is closed again. *)

From S2P Require Import Prelude GoStrings Model Database Scenario Dispatch.

Local Open Scope Z_scope.

(** A channel belongs to a connection. *)
Definition connection : Type := nat.
Definition channel : Type := connection * nat.

(** The calls of the client; a constructor answers [None] for an error. *)
Class AmqpEnv (W : Type) := {
  Dial_ : W → option connection * W;
  Channel_ : connection → W → option nat * W;
  Declare_ : channel → declaration → W → bool * W;
  Confirm_ : channel → W → bool * W;
  Qos_ : channel → Z → W → bool * W;
  Consume_ : channel → string → W → bool * W;
  Inspect_ : channel → string → W → option Z * W;
  CloseChannel_ : channel → W → bool * W;
  CloseConnection_ : connection → W → bool * W
}.

Inductive amqp_event : Type :=
  | AmDial (r : option connection)
  | AmChannel (c : connection) (r : option nat)
  | AmCall                                  (* a call that opens and closes nothing *)
  | AmCloseChannel (ch : channel)
  | AmCloseConnection (c : connection).

(** [RabbitBroker] and [RabbitConsumer], as far as their resources go. *)
Record RabbitBroker := mkRabbitBroker { b_connection : connection; b_channel : channel }.
Record RabbitConsumer := mkRabbitConsumer {
  c_connection : connection;
  c_channel : channel;
  c_deferrer : RabbitBroker
}.

Section connections.
Context {W : Type} `{AmqpEnv W}.

Definition dial : Eff amqp_event W (option connection) := perform AmDial Dial_.
Definition open_channel (c : connection) : Eff amqp_event W (option channel) :=
  perform (AmChannel c) (Channel_ c) ≫= λ n : option nat, mret (pair c <$> n).
Definition close_channel (ch : channel) : Eff amqp_event W bool :=
  perform (λ _, AmCloseChannel ch) (CloseChannel_ ch).
Definition close_connection (c : connection) : Eff amqp_event W bool :=
  perform (λ _, AmCloseConnection c) (CloseConnection_ c).
Definition other {A} (op : W → A * W) : Eff amqp_event W A := perform (λ _, AmCall) op.

(** [declareTopology]: until one declaration fails. *)
Fixpoint declare_each (ch : channel) (l : list declaration) : Eff amqp_event W bool :=
  match l with
  | [] => mret true
  | d :: l =>
      other (Declare_ ch d) ≫= λ ok : bool, if negb ok then mret false else declare_each ch l
  end.

(** [RabbitBroker.Close]: the first error, if any. *)
Definition CloseBroker (b : RabbitBroker) : Eff amqp_event W bool :=
  close_channel (b_channel b) ≫= λ ok : bool,
  close_connection (b_connection b) ≫= λ ok' : bool, mret (ok && ok').

Definition NewRabbitBroker : Eff amqp_event W (option RabbitBroker) :=
  dial ≫= λ dialled : option connection,
  match dialled with
  | None => mret None
  | Some c =>
      open_channel c ≫= λ opened : option channel,
      match opened with
      | None => close_connection c ≫= λ _ : bool, mret None
      | Some ch =>
          let broker := mkRabbitBroker c ch in
          declare_each ch topology ≫= λ declared : bool,
          if negb declared then CloseBroker broker ≫= λ _ : bool, mret None
          else
            other (Confirm_ ch) ≫= λ confirming : bool,
            if negb confirming then CloseBroker broker ≫= λ _ : bool, mret None
            else mret (Some broker)
      end
  end.

Definition NewRabbitConsumer : Eff amqp_event W (option RabbitConsumer) :=
  NewRabbitBroker ≫= λ made : option RabbitBroker,
  match made with
  | None => mret None
  | Some deferrer =>
      dial ≫= λ dialled : option connection,
      match dialled with
      | None => CloseBroker deferrer ≫= λ _ : bool, mret None
      | Some c =>
          open_channel c ≫= λ opened : option channel,
          match opened with
          | None =>
              CloseBroker deferrer ≫= λ _ : bool, close_connection c ≫= λ _ : bool, mret None
          | Some ch =>
              let back_out := CloseBroker deferrer ≫= λ _ : bool, close_channel ch ≫= λ _ : bool,
                             close_connection c ≫= λ _ : bool, mret None in
              other (Qos_ ch 8) ≫= λ limited : bool,
              if negb limited then back_out
              else
                other (Consume_ ch QueueName) ≫= λ consuming : bool,
                if negb consuming then back_out
                else mret (Some (mkRabbitConsumer c ch deferrer))
          end
      end
  end.

(** [RabbitConsumer.Close]: everything is closed, whatever fails. *)
Definition CloseConsumer (consumer : RabbitConsumer) : Eff amqp_event W bool :=
  CloseBroker (c_deferrer consumer) ≫= λ ok1 : bool,
  close_channel (c_channel consumer) ≫= λ ok2 : bool,
  close_connection (c_connection consumer) ≫= λ ok3 : bool, mret (ok1 && ok2 && ok3).

(** [QueueDepth]: the two closes are deferred, the last one first. *)
Definition QueueDepth (cancelled : bool) : Eff amqp_event W (option Z) :=
  if cancelled then mret None
  else
    dial ≫= λ dialled : option connection,
    match dialled with
    | None => mret None
    | Some c =>
        open_channel c ≫= λ opened : option channel,
        match opened with
        | None => close_connection c ≫= λ _ : bool, mret None
        | Some ch =>
            other (Inspect_ ch QueueName) ≫= λ queue : option Z,
            match queue with
            | None =>
                close_channel ch ≫= λ _ : bool, close_connection c ≫= λ _ : bool, mret None
            | Some messages =>
                other (Inspect_ ch DeferralQueue) ≫= λ deferred : option Z,
                close_channel ch ≫= λ _ : bool, close_connection c ≫= λ _ : bool,
                mret (Z.add messages <$> deferred)
            end
        end
    end.
End connections.

(** ** What is open *)

Record open_handles := OpenHandles { o_connections : list connection; o_channels : list channel }.
Definition nothing_open : open_handles := OpenHandles [] [].

Fixpoint remove_one {A} `{EqDecision A} (a : A) (l : list A) : list A :=
  match l with
  | [] => []
  | b :: l => if decide (a = b) then l else b :: remove_one a l
  end.

(** Closing a connection closes its channels. *)
Definition track (o : open_handles) (e : amqp_event) : open_handles :=
  match e with
  | AmDial (Some c) => OpenHandles (c :: o_connections o) (o_channels o)
  | AmChannel c (Some n) => OpenHandles (o_connections o) ((c, n) :: o_channels o)
  | AmCloseChannel ch => OpenHandles (o_connections o) (remove_one ch (o_channels o))
  | AmCloseConnection c =>
      OpenHandles (remove_one c (o_connections o)) (filter (λ ch, ch.1 ≠ c) (o_channels o))
  | _ => o
  end.
Definition tracked (o : open_handles) (t : list amqp_event) : open_handles := foldl track o t.

Section leaks.
Context {W : Type} `{AmqpEnv W}.

Lemma tracked_app o t t' : tracked o (t ++ t') = tracked (tracked o t) t'.
Proof. apply foldl_app. Qed.

Lemma open_channel_inv c w r t w' :
  open_channel c w = (r, t, w') →
  ∃ n, t = [AmChannel c n] ∧ r = pair c <$> n.
Proof. unfold open_channel. intros Ho. eff_inv. eauto. Qed.

Lemma declare_each_tracked ch l o w ok t w' :
  declare_each ch l w = (ok, t, w') → tracked o t = o.
Proof.
  revert w ok t w'. induction l as [|d l IH]; intros w ok t w' Hd; simpl in Hd; [by eff_inv|].
  unfold other in Hd. apply eff_bind_inv in Hd as (b & t1 & w1 & t2 & Hp & Hd & ->).
  apply perform_inv in Hp as [-> _]. rewrite tracked_app. destruct b; simpl in *; [by eapply IH|].
  by eff_inv.
Qed.

Definition with_broker (b : RabbitBroker) (o : open_handles) : open_handles :=
  OpenHandles (b_connection b :: o_connections o) (b_channel b :: o_channels o).

Lemma CloseBroker_trace b w ok t w' :
  CloseBroker b w = (ok, t, w') →
  t = [AmCloseChannel (b_channel b); AmCloseConnection (b_connection b)].
Proof. unfold CloseBroker, close_channel, close_connection. intros Hc. by eff_inv. Qed.

Lemma remove_one_head {A} `{EqDecision A} (a : A) l : remove_one a (a :: l) = l.
Proof. simpl. by rewrite decide_True. Qed.

Lemma close_last b :
  (b_channel b).1 = b_connection b →
  tracked (with_broker b nothing_open)
    [AmCloseChannel (b_channel b); AmCloseConnection (b_connection b)] = nothing_open.
Proof. intros _. simpl. rewrite !decide_True by done. done. Qed.

(** What a constructor leaves open: what it hands out. *)
Definition hands_out_broker (r : option RabbitBroker) (t : list amqp_event) : Prop :=
  match r with
  | None => tracked nothing_open t = nothing_open
  | Some b => (b_channel b).1 = b_connection b ∧
      tracked nothing_open t = with_broker b nothing_open
  end.

Lemma NewRabbitBroker_tracked w r t w' :
  NewRabbitBroker w = (r, t, w') → hands_out_broker r t.
Proof.
  unfold NewRabbitBroker, dial, other, close_connection. intros Hn.
  apply eff_bind_inv in Hn as (c & t1 & w1 & t2 & Hp & Hn & ->). apply perform_inv in Hp as [-> _].
  destruct c as [c|]; [|by eff_inv].
  apply eff_bind_inv in Hn as (ch & t3 & w3 & t4 & Hp & Hn & ->).
  apply open_channel_inv in Hp as (n & -> & ->).
  destruct n as [n|]; cbn [fmap option_fmap option_map] in Hn.
  2: { eff_inv. simpl. by rewrite decide_True. }
  apply eff_bind_inv in Hn as (ok & t5 & w5 & t6 & Hp & Hn & ->).
  pose proof (λ o, declare_each_tracked _ _ o _ _ _ _ Hp) as Hd. clear Hp.
  set (b := mkRabbitBroker c (c, n)) in *.
  assert (Hopen : ∀ rest, tracked nothing_open ([AmDial (Some c)] ++ [AmChannel c (Some n)] ++ t5 ++ rest)
    = tracked (with_broker b nothing_open) rest) by (intros rest; rewrite !tracked_app, Hd; done).
  destruct ok; simpl in Hn.
  2: { apply eff_bind_inv in Hn as (? & t7 & w7 & t8 & Hc & Hn & ->). eff_inv.
       apply CloseBroker_trace in Hc as ->. unfold hands_out_broker.
       rewrite app_nil_r, Hopen. by apply close_last. }
  apply eff_bind_inv in Hn as (ok & t7 & w7 & t8 & Hp & Hn & ->). apply perform_inv in Hp as [-> _].
  destruct ok; simpl in Hn.
  - eff_inv. unfold hands_out_broker. split; [done|]. by rewrite Hopen.
  - apply eff_bind_inv in Hn as (? & t9 & w9 & t10 & Hc & Hn & ->). eff_inv.
    apply CloseBroker_trace in Hc as ->. unfold hands_out_broker.
    rewrite app_nil_r, Hopen, tracked_app. by apply close_last.
Qed.

(** Closing the deferrer, then what there is of the consumer's own. *)
Lemma close_both c n d m :
  tracked (OpenHandles [c; d] [(c, n); (d, m)])
    [AmCloseChannel (d, m); AmCloseConnection d; AmCloseChannel (c, n); AmCloseConnection c]
  = nothing_open.
Proof.
  unfold tracked. cbn [foldl track remove_one o_connections o_channels].
  destruct (decide (c = d)) as [->|Hne]; [destruct (decide (n = m)) as [->|]|].
  all: repeat first [rewrite decide_True by congruence|rewrite decide_False by congruence|
    rewrite filter_cons_True by (simpl; congruence)|rewrite filter_cons_False by (simpl; congruence)|
    progress cbn [remove_one]]; done.
Qed.

Lemma close_without_channel c d m :
  tracked (OpenHandles [c; d] [(d, m)])
    [AmCloseChannel (d, m); AmCloseConnection d; AmCloseConnection c] = nothing_open.
Proof. unfold tracked. simpl. repeat (case_decide; simpl; simplify_eq; try done). Qed.

Definition hands_out_consumer (r : option RabbitConsumer) (t : list amqp_event) : Prop :=
  match r with
  | None => tracked nothing_open t = nothing_open
  | Some k => (c_channel k).1 = c_connection k ∧
      (b_channel (c_deferrer k)).1 = b_connection (c_deferrer k) ∧
      tracked nothing_open t =
        with_broker (mkRabbitBroker (c_connection k) (c_channel k))
          (with_broker (c_deferrer k) nothing_open)
  end.

Lemma CloseConsumer_trace k w ok t w' :
  CloseConsumer k w = (ok, t, w') →
  t = [AmCloseChannel (b_channel (c_deferrer k)); AmCloseConnection (b_connection (c_deferrer k));
       AmCloseChannel (c_channel k); AmCloseConnection (c_connection k)].
Proof.
  unfold CloseConsumer, close_channel, close_connection. intros Hc.
  apply eff_bind_inv in Hc as (? & t1 & w1 & t2 & Hb & Hc & ->).
  apply CloseBroker_trace in Hb as ->. by eff_inv.
Qed.

Lemma NewRabbitConsumer_tracked w r t w' :
  NewRabbitConsumer w = (r, t, w') → hands_out_consumer r t.
Proof.
  unfold NewRabbitConsumer, dial, other, close_connection, close_channel. intros Hn.
  apply eff_bind_inv in Hn as (made & t1 & w1 & t2 & Hb & Hn & ->).
  apply NewRabbitBroker_tracked in Hb. destruct made as [[d [d' m]]|].
  2: { eff_inv. unfold hands_out_consumer. by rewrite tracked_app, Hb. }
  destruct Hb as [Hd Hb]. simpl in Hd. subst d'.
  apply eff_bind_inv in Hn as (c & t3 & w3 & t4 & Hp & Hn & ->). apply perform_inv in Hp as [-> _].
  destruct c as [c|].
  2: { apply eff_bind_inv in Hn as (? & t5 & w5 & t6 & Hc & Hn & ->). eff_inv.
       apply CloseBroker_trace in Hc as ->. unfold hands_out_consumer.
       rewrite tracked_app, Hb. simpl. by rewrite !decide_True. }
  apply eff_bind_inv in Hn as (ch & t5 & w5 & t6 & Hp & Hn & ->).
  apply open_channel_inv in Hp as (n & -> & ->).
  destruct n as [n|]; cbn [fmap option_fmap option_map] in Hn.
  2: { apply eff_bind_inv in Hn as (? & t7 & w7 & t8 & Hc & Hn & ->). eff_inv.
       apply CloseBroker_trace in Hc as ->. unfold hands_out_consumer.
       rewrite tracked_app, Hb. apply close_without_channel. }
  apply eff_bind_inv in Hn as (ok & t7 & w7 & t8 & Hp & Hn & ->). apply perform_inv in Hp as [-> _].
  destruct ok; simpl in Hn.
  2: { apply eff_bind_inv in Hn as (? & t9 & w9 & t10 & Hc & Hn & ->). eff_inv.
       apply CloseBroker_trace in Hc as ->. unfold hands_out_consumer.
       rewrite tracked_app, Hb. apply close_both. }
  apply eff_bind_inv in Hn as (ok & t9 & w9 & t10 & Hp & Hn & ->). apply perform_inv in Hp as [-> _].
  destruct ok; simpl in Hn.
  - eff_inv. unfold hands_out_consumer. split_and!; [done|done|]. by rewrite tracked_app, Hb.
  - apply eff_bind_inv in Hn as (? & t11 & w11 & t12 & Hc & Hn & ->). eff_inv.
    apply CloseBroker_trace in Hc as ->. unfold hands_out_consumer.
    rewrite tracked_app, Hb. apply close_both.
Qed.

Lemma QueueDepth_tracked cancelled w r t w' :
  QueueDepth cancelled w = (r, t, w') → tracked nothing_open t = nothing_open.
Proof.
  unfold QueueDepth, dial, other, close_connection, close_channel. destruct cancelled; [by intros; eff_inv|].
  intros Hn. apply eff_bind_inv in Hn as (c & t1 & w1 & t2 & Hp & Hn & ->).
  apply perform_inv in Hp as [-> _]. destruct c as [c|]; [|by eff_inv].
  apply eff_bind_inv in Hn as (ch & t3 & w3 & t4 & Hp & Hn & ->).
  apply open_channel_inv in Hp as (n & -> & ->).
  destruct n as [n|]; cbn [fmap option_fmap option_map] in Hn; [|eff_inv; simpl; by rewrite decide_True].
  apply eff_bind_inv in Hn as (q & t5 & w5 & t6 & Hp & Hn & ->). apply perform_inv in Hp as [-> _].
  destruct q; eff_inv; simpl; by rewrite !decide_True.
Qed.

(** No connection leaks: a constructor that fails, at whatever call, has
    closed every connection and channel it opened; one that succeeds leaves
    open exactly what it hands out, and closing that - even when a close
    reports an error - leaves nothing; the queue probe leaves nothing. *)
Theorem connections_do_not_leak :
  (∀ w r t w', NewRabbitBroker w = (r, t, w') → hands_out_broker r t ∧
     ∀ b w2 ok t2 w3, r = Some b → CloseBroker b w2 = (ok, t2, w3) →
       tracked nothing_open (t ++ t2) = nothing_open) ∧
  (∀ w r t w', NewRabbitConsumer w = (r, t, w') → hands_out_consumer r t ∧
     ∀ k w2 ok t2 w3, r = Some k → CloseConsumer k w2 = (ok, t2, w3) →
       tracked nothing_open (t ++ t2) = nothing_open) ∧
  (∀ cancelled w r t w', QueueDepth cancelled w = (r, t, w') →
     tracked nothing_open t = nothing_open).
Proof.
  split_and!; [intros w r t w' Hn%NewRabbitBroker_tracked|
    intros w r t w' Hn%NewRabbitConsumer_tracked|apply QueueDepth_tracked].
  - split; [done|]. intros b w2 ok t2 w3 -> ->%CloseBroker_trace. destruct Hn as [Hb Hn].
    rewrite tracked_app, Hn. by apply close_last.
  - split; [done|]. intros [c [c' n] [d [d' m]]] w2 ok t2 w3 -> ->%CloseConsumer_trace.
    destruct Hn as (Hc & Hd & Hn). simpl in *. subst. rewrite tracked_app, Hn. apply close_both.
Qed.
End leaks.

(** A broker that refuses the consumer, and whose channels close badly. *)
#[local] Instance refusing : AmqpEnv nat := {|
  Dial_ n := (Some n, S n);
  Channel_ c n := (Some n, S n);
  Declare_ _ _ n := (true, S n);
  Confirm_ _ n := (true, S n);
  Qos_ _ _ n := (true, S n);
  Consume_ _ _ n := (bool_decide (n = 50)%nat, S n);
  Inspect_ _ _ n := (Some 3, S n);
  CloseChannel_ _ n := (false, S n);
  CloseConnection_ _ n := (true, S n)
|}.

Definition refused_consumer := NewRabbitConsumer 0%nat.

Lemma connections_do_not_leak_witness :
  refused_consumer.1.1 = None ∧ tracked nothing_open refused_consumer.1.2 = nothing_open.
Proof.
  split; [vm_compute; reflexivity|].
  pose proof (proj1 (proj2 connections_do_not_leak) 0%nat refused_consumer.1.1 refused_consumer.1.2
    refused_consumer.2) as Hn. apply Hn. vm_compute. reflexivity.
Defined.
