(* ===== verification/Publishing.v ===== *)
(** * What the Publisher guarantees

    The shape of one publication round over any store and broker; against the
    Outbox of the database, an event is recorded as published only after the
    broker confirmed its signal, and a round without failures publishes every
    event it claimed. *)

From S2P Require Import Prelude GoStrings Model Database Store Outbox Lifecycle Refinement Scenario Reliability Recovery Dispatch.

Local Open Scope Z_scope.

(** ** One round *)

Section round.
Context {W : Type} `{PublisherEnv W}.

(** Each event is published, confirmed and recorded in turn. *)
Definition recorded_each (done_ : list OutboxEvent.t) : list publisher_event :=
  mjoin ((λ e, [PuPublish (signal_of e) true; PuMark e (Ok tt)]) <$> done_).

Inductive round : list OutboxEvent.t → list publisher_event → Z → option publisher_error → Prop :=
  | round_complete done_ :
      round done_ (recorded_each done_) (Z.of_nat (length done_)) None
  | round_unpublished done_ e rest :
      round (done_ ++ e :: rest)
        (recorded_each done_ ++ PuPublish (signal_of e) false :: (PuRelease <$> e :: rest))
        (Z.of_nat (length done_)) (Some PublishFailed)
  | round_unrecorded done_ e rest err :
      round (done_ ++ e :: rest)
        (recorded_each done_ ++ PuPublish (signal_of e) true :: PuMark e (Err err) ::
           (PuRelease <$> e :: rest))
        (Z.of_nat (length done_)) (Some (MarkFailed err)).

Lemma releaseRemaining_trace events w u t w' :
  releaseRemaining events w = (u, t, w') → t = PuRelease <$> events.
Proof.
  revert w u t w'. induction events as [|e events IH]; intros w u t w'; simpl.
  { by intros [= _ <- _]. }
  unfold mbind, Eff_bind, perform. destruct (ReleaseOutbox_ e w) as [r w1].
  destruct (releaseRemaining events w1) as [[u2 t2] w2] eqn:E. intros [= _ <- _].
  apply IH in E as ->. done.
Qed.

Lemma recorded_each_cons e done_ :
  recorded_each (e :: done_) = PuPublish (signal_of e) true :: PuMark e (Ok tt) :: recorded_each done_.
Proof. done. Qed.

(** A round that ends without an error has published every event. *)
Lemma round_published events t n ev :
  round events t n None → ev ∈ events → PuPublish (signal_of ev) true ∈ t.
Proof.
  intros Hr. inversion Hr; subst. clear Hr. induction events as [|e events IH]; [by intros ?%not_elem_of_nil|].
  rewrite recorded_each_cons. intros [->|Hin]%elem_of_cons; [left|]. right. right. by apply IH.
Qed.

(** The count goes up by one per recorded event. *)
Lemma publish_each_round published events w n err t w' :
  publish_each published events w = ((n, err), t, w') → round events t (n - published) err.
Proof.
  revert published w n err t w'.
  induction events as [|e events IH]; intros published w n err t w'; simpl.
  { intros [= <- <- <- _]. rewrite Z.sub_diag. apply (round_complete []). }
  unfold mbind, Eff_bind, perform. destruct (Publish_ (signal_of e) w) as [confirmed w1].
  destruct confirmed; simpl.
  - destruct (MarkOutboxPublished_ e w1) as [[[]|err1] w2].
    + destruct (publish_each (published + 1) events w2) as [[[n2 err2] t2] w3] eqn:E.
      intros [= <- <- <- _]. apply IH in E.
      replace (n2 - published) with (n2 - (published + 1) + 1) by lia.
      inversion E; subst.
      * replace (_ + 1) with (Z.of_nat (length (e :: events))) by (simpl; lia).
        apply (round_complete (e :: events)).
      * replace (_ + 1) with (Z.of_nat (length (e :: done_))) by (simpl; lia).
        apply (round_unpublished (e :: done_)).
      * replace (_ + 1) with (Z.of_nat (length (e :: done_))) by (simpl; lia).
        apply (round_unrecorded (e :: done_)).
    + destruct (ReleaseOutbox_ e w2) as [r3 w3].
      destruct (releaseRemaining events w3) as [[u t3] w4] eqn:E.
      apply releaseRemaining_trace in E as ->. intros [= <- <- <- _].
      rewrite Z.sub_diag, app_nil_r. apply (round_unrecorded []).
  - destruct (ReleaseOutbox_ e w1) as [r2 w2].
    destruct (releaseRemaining events w2) as [[u t2] w3] eqn:E.
    apply releaseRemaining_trace in E as ->. intros [= <- <- <- _].
    rewrite Z.sub_diag, app_nil_r. apply (round_unpublished []).
Qed.

(** A round claims once; then, event by event, it publishes the signal
    and records it only after the confirm; at the first failure it gives back
    that event and all that follow, touches nothing else, and reports how
    many it had recorded. *)
Theorem publisher_round publisher w n err t w' :
  RunOnce publisher w = ((n, err), t, w') →
  (∃ e, t = [PuClaim (Err e)] ∧ n = 0 ∧ err = Some (ClaimFailed e)) ∨
  (∃ events calls, t = PuClaim (Ok events) :: calls ∧ round events calls n err).
Proof.
  unfold RunOnce, mbind, Eff_bind, perform.
  destruct (ClaimOutbox_ _ _ _ w) as [[events|e] w1].
  - destruct (publish_each 0 events w1) as [[[n1 err1] t1] w2] eqn:E.
    intros [= <- <- <- _]. right. apply publish_each_round in E. rewrite Z.sub_0_r in E. eauto.
  - intros [= <- <- <- _]. left. eauto.
Qed.
End round.

(** ** Against the Outbox *)

(** What the n-th interaction of the Publisher meets. *)
Record publisher_oracle := PublisherOracle {
  p_io : IO;
  p_clock : clock;
  p_scan : scan;
  p_random : random;
  p_confirmed : bool
}.

Record PublisherWorld := mkPublisherWorld { pw_db : DB; pw_tick : nat }.

Section outbox.
Context `{Unicode, Postgres}.
Context (env : nat → publisher_oracle).

Definition on_outbox {A} (op : publisher_oracle → DB → A * DB) (w : PublisherWorld)
    : A * PublisherWorld :=
  let '(a, db) := op (env (pw_tick w)) (pw_db w) in (a, mkPublisherWorld db (S (pw_tick w))).

#[local] Instance outbox_env : PublisherEnv PublisherWorld := {|
  ClaimOutbox_ owner lease limit := on_outbox (λ o,
    ClaimOutbox (p_io o) (p_clock o) (p_scan o) (p_random o) owner lease limit);
  MarkOutboxPublished_ ev := on_outbox (λ o, MarkOutboxPublished (p_io o) (p_clock o) ev);
  ReleaseOutbox_ ev := on_outbox (λ o, ReleaseOutbox (p_io o) ev);
  Publish_ signal := on_outbox (λ o db, (p_confirmed o, db))
|}.

(** From [db] to [db'] events keep their signal, and become published only
    if [confirmed] holds of them. *)
Definition publishes_only (confirmed : string → Prop) (db db' : DB) : Prop :=
  ∀ eid e', outbox_events db' !! eid = Some e' →
    ∃ e, outbox_events db !! eid = Some e ∧ same_signal e' e ∧
      (is_Some (e_published_at e') → is_Some (e_published_at e) ∨ confirmed eid).

Lemma publishes_only_refl P db : publishes_only P db db.
Proof. intros eid e He. exists e. split_and!; [done|by split|auto]. Qed.

Lemma publishes_only_trans (P Q R : string → Prop) db1 db2 db3 :
  publishes_only P db1 db2 → publishes_only Q db2 db3 →
  (∀ eid, P eid → R eid) → (∀ eid, Q eid → R eid) → publishes_only R db1 db3.
Proof.
  intros H1 H2 HP HQ eid e3 He3. destruct (H2 _ _ He3) as (e2 & He2 & [S1 S2] & Hp2).
  destruct (H1 _ _ He2) as (e1 & He1 & [S3 S4] & Hp1). exists e1.
  split_and!; [done|split; congruence|]. intros [Hs|Hq]%Hp2; [|auto].
  destruct (Hp1 Hs) as [?|?]; auto.
Qed.

(** An update of events that keeps the publication state. *)
Lemma update_events_publishes_only (P : string → Prop) f db t db' :
  update_events f db = Ok (t, db') →
  (∀ eid e e', f eid e = Some e' → same_signal e' e ∧
     (is_Some (e_published_at e') → is_Some (e_published_at e) ∨ P eid)) →
  publishes_only P db db'.
Proof.
  intros (_ & _ & ->)%update_events_Ok Hf eid e' He'. simpl in He'.
  apply lookup_map_update_Some in He' as (e & He & ->). exists e.
  destruct (f eid e) as [e'|] eqn:E; simpl; [|split_and!; [done|by split|auto]].
  apply Hf in E as [? ?]. auto.
Qed.

Lemma ClaimOutbox_publishes io clk sc rand owner lease limit db r db' :
  ClaimOutbox io clk sc rand owner lease limit db = (r, db') →
  publishes_only (λ _, False) db db'.
Proof.
  unfold ClaimOutbox. case_match; [intros [= _ <-]; apply publishes_only_refl|].
  destruct (newUUID _) as [token|]; [|intros [= _ <-]; apply publishes_only_refl].
  intros [->|[a Hb]]%exec_cases; [apply publishes_only_refl|].
  unfold claim_outbox_body in Hb. apply tx_bind_Ok in Hb as (t & db1 & Hu & Hr).
  apply tx_ret_Ok in Hr as [_ ->]. eapply update_events_publishes_only; [exact Hu|].
  intros eid e e' Hf. cbn beta in Hf. case_match; [|done]. simplify_eq. split; [done|auto].
Qed.

Lemma ReleaseOutbox_publishes io ev db r db' :
  ReleaseOutbox io ev db = (r, db') → publishes_only (λ _, False) db db'.
Proof.
  unfold ReleaseOutbox. destruct (exec _ _ _ _) as [r1 db1] eqn:Hx. intros Hr.
  assert (db' = db1) as ->.
  { destruct r1 as [[? ?]|]; [|congruence]. case_bool_decide; congruence. }
  apply exec_cases in Hx as [->|[a Hb]]; [apply publishes_only_refl|].
  unfold release_body in Hb. tx_inv. eapply update_events_publishes_only; [eassumption|].
  intros eid e e' Hf. cbn beta in Hf. case_match; [|done]. simplify_eq. split; [done|auto].
Qed.

Lemma MarkOutboxPublished_publishes io clk ev db r db' :
  MarkOutboxPublished io clk ev db = (r, db') →
  publishes_only (λ eid, uuid_in (OutboxEvent.ID ev) = Some eid) db db'.
Proof.
  intros [->|[a Hb]]%exec_cases; [apply publishes_only_refl|].
  unfold mark_body in Hb. tx_inv. eapply update_events_publishes_only; [eassumption|].
  intros eid e e' Hf. cbn beta in Hf. case_match; [|done]. simplify_eq. to_prop. subst.
  split; [done|]. auto.
Qed.

(** The events whose signal the trace shows confirmed. *)
Definition confirmed_in (t : list publisher_event) (eid : string) : Prop :=
  ∃ ev, uuid_in (OutboxEvent.ID ev) = Some eid ∧ PuPublish (signal_of ev) true ∈ t.

Lemma releaseRemaining_publishes events w u t w' :
  releaseRemaining events w = (u, t, w') → publishes_only (λ _, False) (pw_db w) (pw_db w').
Proof.
  revert w u t w'. induction events as [|e events IH]; intros w u t w'; simpl.
  { intros [= _ _ <-]. apply publishes_only_refl. }
  unfold mbind, Eff_bind, perform. simpl. unfold on_outbox.
  destruct (ReleaseOutbox _ e _) as [r db1] eqn:E1. simpl.
  destruct (releaseRemaining events _) as [[u2 t2] w2] eqn:E. intros [= _ _ <-].
  apply IH in E. apply ReleaseOutbox_publishes in E1.
  eapply publishes_only_trans; [exact E1|exact E|auto|auto].
Qed.

(** The claim that carried an event. *)
Definition claimed_in (events : list OutboxEvent.t) (t : list publisher_event) (eid : string) : Prop :=
  ∃ ev, ev ∈ events ∧ uuid_in (OutboxEvent.ID ev) = Some eid ∧ PuPublish (signal_of ev) true ∈ t.

Lemma publish_each_publishes published events w r t w' :
  publish_each published events w = (r, t, w') →
  publishes_only (claimed_in events t) (pw_db w) (pw_db w').
Proof.
  revert published w r t w'. induction events as [|e events IH]; intros published w r t w'; simpl.
  { intros [= _ _ <-]. apply publishes_only_refl. }
  unfold mbind, Eff_bind, perform. simpl. unfold on_outbox at 1. simpl.
  destruct (p_confirmed _); simpl.
  - unfold on_outbox at 1. destruct (MarkOutboxPublished _ _ e _) as [m db2] eqn:Em. simpl in Em.
    apply MarkOutboxPublished_publishes in Em. destruct m as [[]|err]; simpl.
    + destruct (publish_each _ events _) as [[r3 t3] w3] eqn:E. intros [= _ <- <-].
      apply IH in E. simpl in E.
      eapply publishes_only_trans; [exact Em|exact E| |].
      * intros eid Hid. exists e. split_and!; [left|done|left].
      * intros eid (ev & Hev & Hid & Hin). exists ev. split_and!; [by right|done|set_solver].
    + unfold on_outbox at 1. destruct (ReleaseOutbox _ e _) as [r3 db3] eqn:E3. simpl.
      destruct (releaseRemaining events _) as [[u4 t4] w4] eqn:E. intros [= _ <- <-].
      apply releaseRemaining_publishes in E. apply ReleaseOutbox_publishes in E3.
      eapply (publishes_only_trans _ (λ _, False)); [exact Em| | |by intros eid []];
        [eapply publishes_only_trans; [exact E3|exact E|auto|auto]|].
      intros eid Hid. exists e. split_and!; [left|done|left].
  - unfold on_outbox. simpl. destruct (ReleaseOutbox _ e _) as [r3 db3] eqn:E3. simpl.
    destruct (releaseRemaining events _) as [[u4 t4] w4] eqn:E. intros [= _ _ <-].
    apply releaseRemaining_publishes in E. apply ReleaseOutbox_publishes in E3.
    eapply publishes_only_trans; [exact E3|exact E|by intros eid []|by intros eid []].
Qed.

(** The events a claim returns are rows of the table. *)
Lemma ClaimOutbox_events io clk sc rand owner lease limit db events db' :
  ClaimOutbox io clk sc rand owner lease limit db = (Ok events, db') →
  ∀ ev, ev ∈ events → ∃ e, outbox_events db !! OutboxEvent.ID ev = Some e ∧
    OutboxEvent.DeliveryID ev = e_delivery_id e ∧ OutboxEvent.Generation ev = e_generation e ∧
    OutboxEvent.TraceID ev = e_trace_id e.
Proof.
  unfold ClaimOutbox. case_match; [done|]. destruct (newUUID _) as [token|]; [|done].
  intros Hb%exec_Ok ev Hin. unfold claim_outbox_body in Hb.
  apply tx_bind_Ok in Hb as (t & db1 & Hu & Hr). apply tx_ret_Ok in Hr as [-> ->].
  apply update_events_Ok in Hu as (_ & -> & _).
  apply list_elem_of_fmap in Hin as ([eid e'] & -> & Hin).
  rewrite merge_sort_Permutation, elem_of_map_to_list, lookup_map_touched in Hin.
  apply bind_Some in Hin as (e & He & Hf). cbn beta in Hf. case_match; [|done]. simplify_eq.
  exists e. by split_and!.
Qed.

(** C22: an event becomes published in the database only after the broker
    confirmed the signal of that delivery generation, whatever happened to
    the other calls of the round. *)
Theorem published_only_after_confirm publisher w r t w' eid e e' :
  (∀ k, is_Some (outbox_events (pw_db w) !! k) → uuid_in k = Some k) →
  RunOnce publisher w = (r, t, w') →
  outbox_events (pw_db w) !! eid = Some e → e_published_at e = None →
  outbox_events (pw_db w') !! eid = Some e' → is_Some (e_published_at e') →
  ∃ signal, PuPublish signal true ∈ t ∧
    Signal.DeliveryID signal = e_delivery_id e' ∧ Signal.Generation signal = e_generation e'.
Proof.
  intros Hk. unfold RunOnce, mbind, Eff_bind, perform. simpl. unfold on_outbox at 1.
  destruct (ClaimOutbox _ _ _ _ _ _ _ _) as [c db1] eqn:Ec. simpl. intros Hr He Hn He' Hp.
  pose proof (ClaimOutbox_publishes _ _ _ _ _ _ _ _ _ _ Ec) as H1.
  destruct c as [events|err].
  - destruct (publish_each 0 events _) as [[r2 t2] w2] eqn:E. injection Hr as <- <- <-.
    apply publish_each_publishes in E. simpl in E.
    destruct (E _ _ He') as (e1 & He1 & [S1 S2] & Hor).
    destruct (H1 _ _ He1) as (e0 & He0 & [S3 S4] & Hor1). simplify_eq.
    destruct (Hor Hp) as [Hp1|(ev & Hev & Hid & Hin)].
    { destruct (Hor1 Hp1) as [Hx|[]]. rewrite Hn in Hx. by destruct Hx. }
    destruct (ClaimOutbox_events _ _ _ _ _ _ _ _ _ _ Ec ev Hev) as (e2 & He2 & Hd & Hg & _).
    assert (OutboxEvent.ID ev = eid) as Heq.
    { rewrite (Hk (OutboxEvent.ID ev)) in Hid by (by eexists). congruence. }
    rewrite Heq in He2. simplify_eq. exists (signal_of ev). split_and!; simpl; [set_solver|congruence..].
  - injection Hr as <- <- <-. simpl in He'.
    destruct (H1 _ _ He') as (e0 & He0 & _ & Hor1). simplify_eq.
    destruct (Hor1 Hp) as [Hx|[]]. rewrite Hn in Hx. by destruct Hx.
Qed.

(** ** A round without failures *)

Lemma update_events_one f db id r r' :
  outbox_events db !! id = Some r → f id r = Some r' → (∀ id' s, id' ≠ id → f id' s = None) →
  check_event r' = true →
  update_events f db =
    Ok ({[id := r']}, set_outbox_events (<[id := r']> (outbox_events db)) db).
Proof.
  intros Hr Hf Hne Hc. destruct (map_update_one f _ _ _ _ Hr Hf Hne) as [Hu Ht].
  apply update_events_Ok. rewrite Hu, Ht. split_and!; [|done..]. by apply map_Forall_singleton.
Qed.

(** The event is leased to its holder for longer than every clock shows. *)
Definition held (later : Z → Prop) (db : DB) (ev : OutboxEvent.t) : Prop :=
  uuid_in (OutboxEvent.ID ev) = Some (OutboxEvent.ID ev) ∧
  uuid_in (OutboxEvent.LeaseToken ev) = Some (OutboxEvent.LeaseToken ev) ∧
  ∃ e u, outbox_events db !! OutboxEvent.ID ev = Some e ∧ event_ok e ∧
    e_published_at e = None ∧ e_lease_owner e = Some (OutboxEvent.LeaseOwner ev) ∧
    e_lease_token e = Some (OutboxEvent.LeaseToken ev) ∧ e_lease_until e = Some u ∧
    ∀ t, later t → t < u.

Lemma Mark_held clk later db ev :
  held later db ev → (∀ k n, later (clock_timestamp clk k n)) →
  ∃ e', MarkOutboxPublished healthy clk ev db =
    (Ok tt, set_outbox_events (<[OutboxEvent.ID ev := e']> (outbox_events db)) db) ∧
    is_Some (e_published_at e').
Proof.
  intros (Hid & Htok & e & u & He & Hok & Hp & Ho & Ht & Hu & Hlt) Hcl.
  exists (published_event (clock_timestamp clk (OutboxEvent.ID ev) 0) e). split; [|by eexists].
  unfold MarkOutboxPublished, exec, mark_body, mbind, Tx_bind, as_uuid. rewrite Hid, Htok. simpl.
  erewrite update_events_one; [|exact He| | |].
  - unfold tx_guard. by rewrite map_size_singleton.
  - cbn beta. unfold holds_lease. rewrite Hp, Ho, Ht, Hu, !bool_decide_true by done. simpl.
    by rewrite (proj2 (Z.ltb_lt _ _)) by apply Hlt, Hcl.
  - intros id' s Hne. cbn beta. by rewrite (bool_decide_false (id' = _)).
  - apply (event_ok_unleased e), Hok.
Qed.

Lemma publish_each_held published events w later :
  (∀ n, (pw_tick w ≤ n)%nat → p_io (env n) = healthy ∧ p_confirmed (env n) = true ∧
     ∀ k i, later (clock_timestamp (p_clock (env n)) k i)) →
  NoDup (OutboxEvent.ID <$> events) → Forall (held later (pw_db w)) events →
  ∃ t w', publish_each published events w =
    ((published + Z.of_nat (length events), None), t, w') ∧
    (∀ ev, ev ∈ events → ∃ e', outbox_events (pw_db w') !! OutboxEvent.ID ev = Some e' ∧
       is_Some (e_published_at e')) ∧
    (∀ eid, eid ∉ OutboxEvent.ID <$> events →
       outbox_events (pw_db w') !! eid = outbox_events (pw_db w) !! eid).
Proof.
  revert published w. induction events as [|ev events IH]; intros published w Henv Hnd Hh.
  { exists [], w. simpl. rewrite Z.add_0_r. split_and!; [done| |done].
    intros ev Hin. by apply not_elem_of_nil in Hin. }
  apply NoDup_cons in Hnd as [Hn Hnd]. inversion Hh as [|? ? Hev Hrest]; subst.
  destruct (Henv (pw_tick w) ltac:(lia)) as (_ & Hc & _).
  destruct (Henv (S (pw_tick w)) ltac:(lia)) as (Hio & _ & Hcl).
  destruct (Mark_held _ _ _ _ Hev Hcl) as (e' & Hm & Hp').
  set (w2 := mkPublisherWorld
    (set_outbox_events (<[OutboxEvent.ID ev := e']> (outbox_events (pw_db w))) (pw_db w))
    (S (S (pw_tick w)))).
  destruct (IH (published + 1) w2) as (t & w' & Hx & Hpub & Hkeep).
  - intros n Hle. apply Henv. simpl in Hle. lia.
  - done.
  - apply Forall_forall. intros ev' Hin. rewrite Forall_forall in Hrest.
    destruct (Hrest _ Hin) as (H1 & H2 & e & u & He & H3). split_and!; [done|done|].
    exists e, u. split; [|done]. simpl. rewrite lookup_insert_ne; [done|].
    intros Heq. apply Hn. rewrite Heq. apply list_elem_of_fmap. eauto.
  - eexists _, w'. split_and!.
    + simpl. unfold mbind, Eff_bind, perform. simpl. unfold on_outbox. simpl.
      rewrite Hc. simpl. rewrite Hio, Hm. fold w2. rewrite Hx. simpl.
      do 3 f_equal. lia.
    + intros ev' [->|Hin]%elem_of_cons; [|by apply Hpub].
      exists e'. split; [|done]. rewrite Hkeep by done. simpl. by rewrite lookup_insert_eq.
    + intros eid Hnin. rewrite fmap_cons, not_elem_of_cons in Hnin. destruct Hnin as [Hne Hnin].
      rewrite Hkeep by done. simpl. by rewrite lookup_insert_ne.
Qed.

Definition outbox_candidates (clk : clock) (sc : scan) (limit : Z) (db : DB)
    : list (string * outbox_row) :=
  select_for_update sc (publishable clk) (λ e, (e_available_at e, e_created_at e)) limit
    (outbox_events db).

Lemma ClaimOutbox_healthy clk sc rand owner lease limit db token :
  Inv db → owner ≠ "" → 0 < lease → 0 < limit → newUUID (rand 0%nat) = Ok token →
  ∃ events db', ClaimOutbox healthy clk sc rand owner lease limit db = (Ok events, db') ∧
    NoDup (OutboxEvent.ID <$> events) ∧
    (∀ eid e, (eid, e) ∈ outbox_candidates clk sc limit db → eid ∈ OutboxEvent.ID <$> events) ∧
    ∀ ev, ev ∈ events →
      OutboxEvent.LeaseToken ev = token ∧
      ∃ e, outbox_events db' !! OutboxEvent.ID ev = Some e ∧ event_ok e ∧
        e_published_at e = None ∧ e_lease_owner e = Some (OutboxEvent.LeaseOwner ev) ∧
        e_lease_token e = Some token ∧
        e_lease_until e =
          Some (clock_timestamp clk (OutboxEvent.ID ev) 2 + Milliseconds lease * ms).
Proof.
  intros Hinv Ho Hl Hlim Hu. unfold ClaimOutbox.
  rewrite (proj2 (String.eqb_neq _ _) Ho), (proj2 (Z.leb_gt _ _) Hl), (proj2 (Z.leb_gt _ _) Hlim), Hu.
  simpl. unfold exec, claim_outbox_body, mbind, Tx_bind. fold (outbox_candidates clk sc limit db).
  set (cands := outbox_candidates clk sc limit db).
  set (f := λ (eid : string) (e : outbox_row), if bool_decide (eid ∈ cands.*1) then _ else _).
  assert (Hcand : ∀ eid e, outbox_events db !! eid = Some e → eid ∈ cands.*1 →
    publishable clk eid e = true).
  { intros eid e He ([k e0] & -> & Hin)%list_elem_of_fmap.
    apply select_elem in Hin as (He0 & Hp & _). simpl in *. congruence. }
  assert (Hok : ∀ eid e', map_touched f (outbox_events db) !! eid = Some e' →
    ∃ e, outbox_events db !! eid = Some e ∧
      e' = lease_event clk eid owner token (Milliseconds lease) e ∧ e_published_at e = None ∧
      event_ok e').
  { intros eid e' He'. rewrite lookup_map_touched in He'. apply bind_Some in He' as (e & He & Hf).
    unfold f in Hf. case_bool_decide as Hin; [|done]. simplify_eq. exists e.
    specialize (Hcand _ _ He Hin). unfold publishable in Hcand. to_prop.
    pose proof (inv_event_ok _ Hinv _ _ He) as Hok. split_and!; [done|done|done|].
    unfold lease_event. replace (e_published_at e) with (@None Z) by done.
    by apply event_ok_leased. }
  assert (Hup : update_events f db = Ok (map_touched f (outbox_events db),
    set_outbox_events (map_update f (outbox_events db)) db)).
  { apply update_events_Ok. split_and!; [|done..]. intros eid e' He'.
    destruct (Hok _ _ He') as (e & _ & _ & _ & [? _]). done. }
  rewrite Hup. eexists _, _. split_and!; [reflexivity| | |].
  - rewrite <- list_fmap_compose.
    assert (Hp : (OutboxEvent.ID ∘ λ ke : string * outbox_row, event_of owner token ke.1 ke.2) <$>
      merge_sort (rank_le sc) (map_to_list (map_touched f (outbox_events db))) ≡ₚ
      (map_to_list (map_touched f (outbox_events db))).*1) by by rewrite merge_sort_Permutation.
    rewrite Hp. apply NoDup_fst_map_to_list.
  - intros eid e Hin. apply select_elem in Hin as Hin2. destruct Hin2 as (He & _).
    apply list_elem_of_fmap. exists (event_of owner token eid (lease_event clk eid owner token (Milliseconds lease) e)).
    split; [done|]. apply list_elem_of_fmap. eexists (eid, _). split; [reflexivity|].
    rewrite merge_sort_Permutation, elem_of_map_to_list, lookup_map_touched, He. simpl.
    unfold f. rewrite bool_decide_true; [done|]. apply list_elem_of_fmap. by exists (eid, e).
  - intros ev Hin. apply list_elem_of_fmap in Hin as ([eid e'] & -> & Hin). simpl.
    rewrite merge_sort_Permutation, elem_of_map_to_list in Hin. split; [done|].
    destruct (Hok _ _ Hin) as (e & He & Heq & Hp & Hev). exists e'.
    assert (map_update f (outbox_events db) !! eid = Some e') as ->.
    { rewrite lookup_map_update, He. rewrite lookup_map_touched, He in Hin. simpl in *. by rewrite Hin. }
    subst e'. split_and!; done.
Qed.

(** A round in which every call works, the broker confirms and the
    leases outlast it publishes every event it could claim - up to the batch
    size, those available and not leased to another Publisher. *)
Theorem healthy_round_publishes_all publisher w token :
  let clk := p_clock (env (pw_tick w)) in
  let later := λ t, ∃ n k i, (pw_tick w < n)%nat ∧ t = clock_timestamp (p_clock (env n)) k i in
  Inv (pw_db w) → Publisher.owner publisher ≠ "" → 0 < Publisher.leaseDuration publisher →
  0 < Publisher.batchSize publisher →
  (∀ n, p_io (env n) = healthy ∧ p_confirmed (env n) = true) →
  newUUID (p_random (env (pw_tick w)) 0%nat) = Ok token → uuid_in token = Some token →
  (∀ k, is_Some (outbox_events (pw_db w) !! k) → uuid_in k = Some k) →
  (∀ t k, later t →
     t < clock_timestamp clk k 2 + Milliseconds (Publisher.leaseDuration publisher) * ms) →
  ∃ n t w', RunOnce publisher w = ((n, None), t, w') ∧
    ∀ eid e, (eid, e) ∈ outbox_candidates clk (p_scan (env (pw_tick w)))
               (Publisher.batchSize publisher) (pw_db w) →
      PuPublish (Signal.mk (e_delivery_id e) (e_generation e) (e_trace_id e)) true ∈ t ∧
      ∃ e', outbox_events (pw_db w') !! eid = Some e' ∧ is_Some (e_published_at e').
Proof.
  intros clk later Hinv Ho Hl Hb Henv Hu Htok Hk Hlater.
  destruct (ClaimOutbox_healthy clk (p_scan (env (pw_tick w))) (p_random (env (pw_tick w)))
    (Publisher.owner publisher) (Publisher.leaseDuration publisher) (Publisher.batchSize publisher)
    (pw_db w) token Hinv Ho Hl Hb Hu) as (events & db1 & Hc & Hnd & Hall & Hev).
  set (w1 := mkPublisherWorld db1 (S (pw_tick w))).
  destruct (publish_each_held 0 events w1 later) as (t & w' & Hx & Hpub & _).
  - intros n Hle. destruct (Henv n) as [? ?]. split_and!; [done|done|]. intros k i.
    exists n, k, i. simpl in Hle. split; [lia|done].
  - done.
  - apply Forall_forall. intros ev Hin. destruct (Hev _ Hin) as (Ht & e & He & Hoke & Hp & How & Htk & Hun).
    split_and!; [| |exists e; eexists; rewrite Ht; split_and!; try done].
    + destruct (ClaimOutbox_events _ _ _ _ _ _ _ _ _ _ Hc _ Hin) as (e0 & He0 & _). apply Hk. by eexists.
    + by rewrite Ht.
    + intros t0 Ht0. by apply Hlater.
  - exists (0 + Z.of_nat (length events)). eexists _, w'. split.
    + unfold RunOnce, mbind, Eff_bind, perform. simpl. unfold on_outbox.
      destruct (Henv (pw_tick w)) as [Hio _]. rewrite Hio. fold clk. rewrite Hc. fold w1.
      by rewrite Hx.
    + intros eid e Hin. apply Hall in Hin as Hid.
      apply list_elem_of_fmap in Hid as (ev & -> & Hev'). split; [|by apply Hpub].
      destruct (ClaimOutbox_events _ _ _ _ _ _ _ _ _ _ Hc _ Hev') as (e0 & He0 & E1 & E2 & E3).
      apply select_elem in Hin as (He & _). simplify_eq.
      rewrite <- E1, <- E2, <- E3. apply elem_of_app. right. change (PuPublish (signal_of ev) true ∈ t).
      apply publish_each_round in Hx. by apply (round_published _ _ _ _ Hx).
Qed.

(** ** A round changes nothing but the Outbox *)

Definition outbox_only (db db' : DB) : Prop := db' = set_outbox_events (outbox_events db') db.

Lemma outbox_only_refl db : outbox_only db db.
Proof. by destruct db. Qed.
Lemma outbox_only_trans db1 db2 db3 : outbox_only db1 db2 → outbox_only db2 db3 → outbox_only db1 db3.
Proof. unfold outbox_only. intros -> ->. done. Qed.

Lemma update_events_only f db t db' : update_events f db = Ok (t, db') → outbox_only db db'.
Proof. by intros (_ & _ & ->)%update_events_Ok. Qed.

Lemma ClaimOutbox_only io clk sc rand owner lease limit db r db' :
  ClaimOutbox io clk sc rand owner lease limit db = (r, db') → outbox_only db db'.
Proof.
  unfold ClaimOutbox. case_match; [intros [= _ <-]; apply outbox_only_refl|].
  destruct (newUUID _) as [token|]; [|intros [= _ <-]; apply outbox_only_refl].
  intros [->|[a Hb]]%exec_cases; [apply outbox_only_refl|].
  unfold claim_outbox_body in Hb. apply tx_bind_Ok in Hb as (t & db1 & Hu & Hr).
  apply tx_ret_Ok in Hr as [_ ->]. by eapply update_events_only.
Qed.

Lemma ReleaseOutbox_only io ev db r db' : ReleaseOutbox io ev db = (r, db') → outbox_only db db'.
Proof.
  unfold ReleaseOutbox. destruct (exec _ _ _ _) as [r1 db1] eqn:Hx. intros Hr.
  assert (db' = db1) as ->.
  { destruct r1 as [[? ?]|]; [|congruence]. case_bool_decide; congruence. }
  apply exec_cases in Hx as [->|[a Hb]]; [apply outbox_only_refl|].
  unfold release_body in Hb. tx_inv. by eapply update_events_only.
Qed.

Lemma MarkOutboxPublished_only io clk ev db r db' :
  MarkOutboxPublished io clk ev db = (r, db') → outbox_only db db'.
Proof.
  intros [->|[a Hb]]%exec_cases; [apply outbox_only_refl|].
  unfold mark_body in Hb. tx_inv. by eapply update_events_only.
Qed.

(** What each statement of the Outbox keeps, a round keeps. *)
Section kept.
Context (R : DB → DB → Prop) `{!PreOrder R}.
Hypothesis R_claim : ∀ io clk sc rand owner lease limit db r db',
  ClaimOutbox io clk sc rand owner lease limit db = (r, db') → R db db'.
Hypothesis R_mark : ∀ io clk ev db r db', MarkOutboxPublished io clk ev db = (r, db') → R db db'.
Hypothesis R_release : ∀ io ev db r db', ReleaseOutbox io ev db = (r, db') → R db db'.

Lemma on_outbox_kept {A} (op : publisher_oracle → DB → A * DB) w a w' :
  (∀ o db a db', op o db = (a, db') → R db db') → on_outbox op w = (a, w') → R (pw_db w) (pw_db w').
Proof. intros Hop. unfold on_outbox. destruct (op _ _) as [a1 db1] eqn:E. intros [= _ <-]. by eapply Hop. Qed.

Lemma releaseRemaining_kept events w u t w' :
  releaseRemaining events w = (u, t, w') → R (pw_db w) (pw_db w').
Proof.
  revert w u t w'. induction events as [|e events IH]; intros w u t w' Hr; simpl in Hr; [by eff_inv|].
  eff_inv. etransitivity; [|by eapply IH]. eapply on_outbox_kept; [|eassumption].
  intros o db a0 db'. apply R_release.
Qed.

Lemma publish_each_kept published events w r t w' :
  publish_each published events w = (r, t, w') → R (pw_db w) (pw_db w').
Proof.
  revert published w r t w'. induction events as [|e events IH]; intros published w r t w' Hr;
    cbn [publish_each] in Hr; [by eff_inv|].
  apply eff_bind_inv in Hr as (c & ? & w1 & t2 & Hp & Hr & ->). apply perform_inv in Hp as [-> Hp].
  transitivity (pw_db w1); [eapply (on_outbox_kept (λ o db, (p_confirmed o, db))); [|exact Hp]|].
  { by intros o db a0 db' [= _ <-]. }
  destruct c; cbn [negb] in Hr.
  - apply eff_bind_inv in Hr as (m & ? & w2 & t3 & Hm & Hr & ->). apply perform_inv in Hm as [-> Hm].
    transitivity (pw_db w2);
      [eapply (on_outbox_kept (λ o, MarkOutboxPublished (p_io o) (p_clock o) e)); [|exact Hm]|].
    { intros o db a0 db'. apply R_mark. }
    destruct m; [by eapply IH|].
    apply eff_bind_inv in Hr as (? & ? & ? & ? & Hl%releaseRemaining_kept & Hr & ->). by eff_inv.
  - apply eff_bind_inv in Hr as (? & ? & ? & ? & Hl%releaseRemaining_kept & Hr & ->). by eff_inv.
Qed.

Lemma RunOnce_kept publisher w r t w' :
  RunOnce publisher w = (r, t, w') → R (pw_db w) (pw_db w').
Proof.
  unfold RunOnce. intros Hr. apply eff_bind_inv in Hr as (c & ? & w1 & t2 & Hc & Hr & ->).
  apply perform_inv in Hc as [-> Hc].
  transitivity (pw_db w1); [eapply (on_outbox_kept (λ o, ClaimOutbox (p_io o) (p_clock o) (p_scan o)
    (p_random o) (Publisher.owner publisher) (Publisher.leaseDuration publisher)
    (Publisher.batchSize publisher))); [|exact Hc]|].
  { intros o db a0 db'. apply R_claim. }
  destruct c; [by eapply publish_each_kept|]. by eff_inv.
Qed.
End kept.

#[local] Instance outbox_only_preorder : PreOrder outbox_only.
Proof. split; [exact outbox_only_refl|exact outbox_only_trans]. Qed.

Lemma RunOnce_only publisher w r t w' :
  RunOnce publisher w = (r, t, w') → outbox_only (pw_db w) (pw_db w').
Proof. apply (RunOnce_kept outbox_only); [apply ClaimOutbox_only|apply MarkOutboxPublished_only|apply ReleaseOutbox_only]. Qed.

Lemma RunOnce_Inv publisher w r t w' :
  RunOnce publisher w = (r, t, w') → Inv (pw_db w) → Inv (pw_db w').
Proof.
  assert (PreOrder (λ db db', Inv db → Inv db')) by (split; [by intros db|intros db1 db2 db3; auto]).
  apply (RunOnce_kept (λ db db', Inv db → Inv db')).
  - intros. eapply (step_Inv (mkStore 1)); [done|]. by eapply step_ClaimOutbox.
  - intros. eapply (step_Inv (mkStore 1)); [done|]. by eapply step_MarkOutboxPublished.
  - intros. eapply (step_Inv (mkStore 1)); [done|]. by eapply step_ReleaseOutbox.
Qed.
End outbox.

(** ** A concrete round *)

Definition round_oracle (n : nat) : publisher_oracle :=
  PublisherOracle healthy (still (noon + (1 + Z.min 100 (Z.of_nat n)) * 1000)) (scan_all (outbox_events db_sub))
    (draws (40 + Z.of_nat n)) true.

Definition publisher0 : Publisher.t := Publisher.mk "p1" 30000000000 100.
Definition pworld0 : PublisherWorld := mkPublisherWorld db_sub 0.

#[global] Instance pworld_env : PublisherEnv PublisherWorld := outbox_env round_oracle.

Definition published0 := RunOnce publisher0 pworld0.

Example published0_ok : published0.1.1 = (1, None).
Proof. vm_compute. reflexivity. Qed.

Lemma published0_eq :
  RunOnce publisher0 pworld0 = ((published0.1.1.1, published0.1.1.2), published0.1.2, published0.2).
Proof. fold published0. by destruct published0 as [[[? ?] ?] ?]. Qed.

Lemma publisher_round_witness :
  (∃ e, published0.1.2 = [PuClaim (Err e)] ∧ published0.1.1.1 = 0 ∧
     published0.1.1.2 = Some (ClaimFailed e)) ∨
  (∃ events calls, published0.1.2 = PuClaim (Ok events) :: calls ∧
     round events calls published0.1.1.1 published0.1.1.2).
Proof. apply (publisher_round publisher0 pworld0 _ _ _ published0.2), published0_eq. Defined.

(** The single event of the run. *)
Definition event_id0 : string := uuid_of (draws 1 1%nat).
Definition event_in (db : DB) : outbox_row :=
  default (new_event "" 0 "" 0 0) (outbox_events db !! event_id0).

Lemma outbox_keys_canonical db :
  forallb canonical_text (map_to_list (outbox_events db)).*1 = true →
  ∀ k, is_Some (outbox_events db !! k) → uuid_in k = Some k.
Proof.
  intros Hall k [e He]. rewrite forallb_forall in Hall. specialize (Hall k). simpl.
  rewrite Hall; [done|]. apply list_elem_of_In, list_elem_of_fmap. exists (k, e). split; [done|].
  by apply elem_of_map_to_list.
Qed.

Lemma published_only_after_confirm_witness :
  ∃ signal, PuPublish signal true ∈ published0.1.2 ∧
    Signal.DeliveryID signal = e_delivery_id (event_in (pw_db published0.2)) ∧
    Signal.Generation signal = e_generation (event_in (pw_db published0.2)).
Proof.
  apply (published_only_after_confirm round_oracle publisher0 pworld0
    (published0.1.1.1, published0.1.1.2) published0.1.2 published0.2 event_id0 (event_in db_sub)).
  - apply outbox_keys_canonical. vm_compute. reflexivity.
  - apply published0_eq.
  - vm_compute. reflexivity.
  - vm_compute. reflexivity.
  - vm_compute. reflexivity.
  - vm_compute. eexists. reflexivity.
Defined.

Lemma healthy_round_publishes_all_witness :
  ∃ n t w', RunOnce publisher0 pworld0 = ((n, None), t, w') ∧
    ∃ e', outbox_events (pw_db w') !! event_id0 = Some e' ∧ is_Some (e_published_at e').
Proof.
  destruct (healthy_round_publishes_all round_oracle publisher0 pworld0 (uuid_of (draws 40 0%nat)))
    as (n & t & w' & Hx & Hall).
  - apply (reachable_Inv _ _ sub_reachable).
  - discriminate.
  - reflexivity.
  - reflexivity.
  - intros n. split; reflexivity.
  - vm_compute. reflexivity.
  - vm_compute. reflexivity.
  - apply outbox_keys_canonical. vm_compute. reflexivity.
  - intros t k (n & k' & i & _ & ->). unfold round_oracle. cbn [p_clock clock_timestamp still].
    change (Milliseconds (Publisher.leaseDuration publisher0)) with 30000.
    change (pw_tick pworld0) with 0%nat. unfold ms. lia.
  - exists n, t, w'. split; [exact Hx|]. apply (Hall event_id0 (event_in db_sub)).
    apply list_elem_of_lookup_2 with (i := 0%nat). vm_compute. reflexivity.
Defined.
