(* ===== verification/Worker.v ===== *)
(** * internal/worker/worker.go

    Processing one dispatch signal: eligibility, observation, permit, claim,
    the supplier call, and the commit of its classified result.  What the
    Worker is given - its store, its sender, its limiter and its clock - is an
    interface over an abstract world; [Process] records the calls it makes. *)

From S2P Require Import Prelude GoStrings Model Database Store WorkerStore Limiter Dispatch Calendar HttpDate.

Local Open Scope Z_scope.

(** outbound.Result, and the errors a sender returns as far as the Worker
    tells them apart: [outbound.IsPermanent] and [context.DeadlineExceeded]. *)
Module Result.
Record t := mk { StatusCode : Z; RetryAfter : string }.
End Result.

Record send_error := SendError { is_permanent : bool; is_deadline : bool }.

(** ** Classification *)

Inductive resultClass : Type := resultSuccess | resultRetryable | resultPermanent.

Definition isSuccess (status : Z) (configured : list Z) : bool :=
  match configured with
  | [] => (200 <=? status) && (status <? 300)
  | _ => existsb (λ expected, status =? expected) configured
  end.

Definition classify (status : Z) (sendErr : option send_error)
    (destination : DestinationVersion.t) : resultClass :=
  match sendErr with
  | Some err => if is_permanent err then resultPermanent else resultRetryable
  | None =>
      if isSuccess status (elems (DestinationVersion.SuccessStatuses destination))
      then resultSuccess
      else if existsb (λ configured, status =? configured)
                (elems (DestinationVersion.RetryStatuses destination))
      then resultRetryable
      else if (status =? 408) || (status =? 425) || (status =? 429) || (500 <=? status)
      then resultRetryable
      else resultPermanent
  end.

Definition resultErrorCategory (status : Z) (err : option send_error) : string :=
  match err with
  | Some e => if is_deadline e then "timeout" else "network_or_request_error"
  | None => "http_" +:+ FormatInt status
  end.

(** ** Backoff *)

Definition Second : Z := 1000000000.
Definition Hour : Z := 3600 * Second.

Section backoff.
Context `{HttpTime}.

Definition parseRetryAfter (now : Z) (raw : string) : option Z :=
  let raw := TrimSpace raw in
  if String.eqb raw "" then None
  else match ParseInt raw with
  | Some seconds =>
      if seconds <? 0 then None
      else if Z.quot Hour Second <? seconds then Some Hour
      else Some (seconds * Second)
  | None =>
      match ParseTime raw with
      | None => None
      | Some at_ =>
          if negb (now <? at_) then None
          else let delay := Sub at_ now in
               Some (if Hour <? delay then Hour else delay)
      end
  end.

(** [worker.jitter] as [New] sets it; [nano] is [time.Now().UnixNano()]. *)
Definition jitter (nano maximum : Z) : Z :=
  if maximum <=? 0 then 0 else Z.rem nano maximum.

Definition nextAttemptAt (nano now generation : Z) (retryAfter : string) : Z :=
  match parseRetryAfter now retryAfter with
  | Some delay => now + delay
  | None =>
      let exponent := if 12 <? generation then 12 else generation in
      let maximum := Second * Z.shiftl 1 exponent in
      let maximum := if Hour <? maximum then Hour else maximum in
      now + jitter nano maximum
  end.
End backoff.

(** [New]: the owner and the lease duration; a nil logger is replaced. *)
Definition New (store_nil sender_nil : bool) (owner : string) (leaseDuration : Z)
    : option (string * Z) :=
  if store_nil || sender_nil || String.eqb owner "" || (leaseDuration <=? 0) then None
  else Some (owner, leaseDuration).

(** ** The world of a Worker *)

Class WorkerEnv (W : Type) := {
  EligibleDestination_ : string → Z → W → Prelude.result error DestinationVersion.t * W;
  ObserveSignal_ : string → Z → W → Prelude.result error unit * W;
  ClaimDelivery_ : string → Z → string → Z → W →
    Prelude.result error (Delivery.t * DestinationVersion.t) * W;
  CompleteSuccess_ : AttemptResult.t → W → Prelude.result error unit * W;
  CompleteRetry_ : AttemptResult.t → Z → W → Prelude.result error unit * W;
  CompletePermanent_ : AttemptResult.t → W → Prelude.result error unit * W;
  Send_ : Delivery.t → DestinationVersion.t → W → (Result.t * option send_error) * W;
  tryAcquire_ : DestinationVersion.t → W → option nat * W;
  release_ : nat → bool → W → unit * W;
  now_ : W → Z * W;
  nano_ : W → Z * W
}.

(** The calls that matter to the outside, with their answers. *)
Inductive event : Type :=
  | EvEligible (r : Prelude.result error DestinationVersion.t)
  | EvObserve (r : Prelude.result error unit)
  | EvAcquire (permit : option nat)
  | EvClaim (r : Prelude.result error (Delivery.t * DestinationVersion.t))
  | EvSend (task : Delivery.t) (destination : DestinationVersion.t)
  | EvComplete (class : ResultClass) (attempt : AttemptResult.t) (next : option Z)
      (r : Prelude.result error unit)
  | EvRelease (permit : nat) (claimed : bool).

(** [(ack, err)]; the error is nil or the store's. *)
Definition answer : Type := bool * option error.

Section process.
Context {W : Type} `{WorkerEnv W, HttpTime}.
Context (owner : string) (leaseDuration : Z).

Definition attempt_result (task : Delivery.t) (startedAt finishedAt : Z) (result : Result.t)
    (category : string) : AttemptResult.t :=
  {| AttemptResult.DeliveryID := Delivery.ID task;
     AttemptResult.Generation := Delivery.Generation task;
     AttemptResult.LeaseOwner := Delivery.LeaseOwner task;
     AttemptResult.LeaseToken := Delivery.LeaseToken task;
     AttemptResult.ResponseStatus :=
       if Result.StatusCode result =? 0 then None else Some (Result.StatusCode result);
     AttemptResult.ErrorCategory := category;
     AttemptResult.StartedAt := startedAt;
     AttemptResult.FinishedAt := finishedAt |}.

(** The switch: which completion, with which attempt. *)
Definition outcome (nano : Z) (task : Delivery.t) (destination : DestinationVersion.t)
    (startedAt finishedAt : Z) (result : Result.t) (err : option send_error)
    : ResultClass * AttemptResult.t * option Z :=
  let status := Result.StatusCode result in
  let attempt := attempt_result task startedAt finishedAt result in
  match classify status err destination with
  | resultSuccess => (ClassSucceeded, attempt "", None)
  | resultPermanent => (ClassPermanentFailure, attempt (resultErrorCategory status err), None)
  | resultRetryable =>
      let nextAttempt := nextAttemptAt nano finishedAt (Delivery.Generation task)
                           (Result.RetryAfter result) in
      if negb (nextAttempt <? Delivery.RetryDeadline task)
      then (ClassPermanentFailure, attempt "retry_deadline_exhausted", None)
      else (ClassRetryableFailure, attempt (resultErrorCategory status err), Some nextAttempt)
  end.

Definition complete (o : ResultClass * AttemptResult.t * option Z) : Eff event W (Prelude.result error unit) :=
  let '(class, attempt, next) := o in
  perform (EvComplete class attempt next)
    (match class, next with
     | ClassSucceeded, _ => CompleteSuccess_ attempt
     | ClassPermanentFailure, _ => CompletePermanent_ attempt
     | ClassRetryableFailure, Some nextAttempt => CompleteRetry_ attempt nextAttempt
     | ClassRetryableFailure, None => CompletePermanent_ attempt
     end).

(** From the granted claim to the answer; the deferred release comes last. *)
Definition attempt (permit : nat) (task : Delivery.t) (destination : DestinationVersion.t)
    : Eff event W answer :=
  quietly now_ ≫= λ startedAt,
  perform (λ _, EvSend task destination) (Send_ task destination) ≫= λ '(result, err),
  quietly now_ ≫= λ finishedAt,
  quietly nano_ ≫= λ nano,
  complete (outcome nano task destination startedAt finishedAt result err) ≫= λ committed,
  perform (λ _, EvRelease permit true) (release_ permit true) ≫= λ _,
  mret (match committed with
        | Ok _ => (true, None)
        | Err ErrWorkerLeaseLost => (true, None)
        | Err e => (false, Some e)
        end).

Definition Process (signal : Signal.t) : Eff event W answer :=
  perform EvEligible
    (EligibleDestination_ (Signal.DeliveryID signal) (Signal.Generation signal)) ≫= λ eligible,
  match eligible with
  | Err ErrDeliveryNotClaimable => mret (true, None)
  | Err e => mret (false, Some e)
  | Ok destination =>
      perform EvObserve
        (ObserveSignal_ (Signal.DeliveryID signal) (Signal.Generation signal)) ≫= λ observed,
      match observed with
      | Err e => mret (false, Some e)
      | Ok _ =>
          perform EvAcquire (tryAcquire_ destination) ≫= λ acquired,
          match acquired with
          | None => mret (false, None)
          | Some permit =>
              perform EvClaim
                (ClaimDelivery_ (Signal.DeliveryID signal) (Signal.Generation signal)
                   owner leaseDuration) ≫= λ claimed,
              match claimed with
              | Err e =>
                  perform (λ _, EvRelease permit false) (release_ permit false) ≫= λ _,
                  mret (match e with
                        | ErrDeliveryNotClaimable => (true, None)
                        | _ => (false, Some e)
                        end)
              | Ok (task, destination) => attempt permit task destination
              end
          end
      end
  end.
End process.
