(* ===== verification/Processing.v ===== *)
(** * What a Worker guarantees

    Bounds of the retry backoff, the decision table of results, the protocol
    of one [Process] call, and the Worker running against the store. *)

From S2P Require Import Prelude GoStrings Model Database Store WorkerStore Outbox Scheduling Replay Lifecycle Refinement Scenario Reliability Recovery Limiter Dispatch GoUrl Calendar HttpDate Worker.

Local Open Scope Z_scope.

(** ** Backoff *)

Section backoff.
Context `{HttpTime}.

Lemma parseRetryAfter_bounds now raw delay :
  parseRetryAfter now raw = Some delay → 0 ≤ delay ≤ Hour.
Proof.
  unfold parseRetryAfter, Hour, Second. case_match; [done|].
  destruct (ParseInt _) as [s|].
  - destruct (Z.ltb_spec s 0); [done|].
    destruct (Z.ltb_spec (Z.quot (3600 * 1000000000) 1000000000) s) as [|Hle];
      intros [= <-]; [lia|]. change (Z.quot (3600 * 1000000000) 1000000000) with 3600 in Hle. lia.
  - destruct (ParseTime _) as [at_|]; [|done]. destruct (Z.ltb_spec now at_); [|done]. simpl.
    intros [= <-]. unfold Sub, max_int64, min_int64.
    destruct (Z.ltb_spec (3600 * 1000000000) (Z.max (- 2 ^ 63) (Z.min (2 ^ 63 - 1) (at_ - now)))); lia.
Qed.

Lemma visible_not_space a : 33 ≤ a < 128 → IsSpace a = false.
Proof.
  intros Ha. unfold IsSpace.
  repeat match goal with |- context [?x =? ?y] => rewrite (proj2 (Z.eqb_neq x y)) by lia end.
  repeat match goal with |- context [?x <=? a] => rewrite (proj2 (Z.leb_gt x a)) by lia end.
  rewrite ?andb_false_l, ?orb_false_r. by rewrite (proj2 (Z.leb_gt a 13)), andb_false_r by lia.
Qed.

(** The text of a date: ASCII, a letter first and last. *)
Lemma http_date_text seconds : four_digit_year seconds →
  Forall is_ascii (http_date seconds) ∧
  ∃ a l, http_date seconds = a :: l ++ [84] ∧ 65 ≤ a ≤ 90.
Proof.
  intros Hy. destruct (date_of_seconds seconds) as (Hm & Hd & _). unfold four_digit_year in Hy.
  assert (Htwo : ∀ n, 0 ≤ n < 100 → Forall is_ascii (two n)).
  { intros n Hn. unfold two, is_ascii. repeat constructor; Z.div_mod_to_equations; lia. }
  assert (Hlit : ∀ l, forallb (λ b, (0 <=? b) && (b <? 128)) l = true → Forall is_ascii l).
  { intros l Hl. rewrite forallb_forall in Hl. apply Forall_forall. intros b Hb.
    apply list_elem_of_In, Hl in Hb. to_prop. unfold is_ascii. lia. }
  assert (Hnames : ∀ l : list (list Z), forallb (forallb (λ b, (0 <=? b) && (b <? 128))) l = true →
    ∀ i, Forall is_ascii (l !!! i)).
  { intros l Hl i. rewrite forallb_forall in Hl. destruct (l !! i) as [x|] eqn:E.
    - rewrite (list_lookup_total_correct _ _ _ E).
      apply Hlit, Hl, list_elem_of_In, list_elem_of_lookup_2 with i, E.
    - rewrite list_lookup_total_alt, E. constructor. }
  split.
  - unfold http_date, four. pose proof (Z.mod_pos_bound seconds 86400 ltac:(lia)).
    repeat match goal with
    | |- Forall _ (_ ++ _) => apply Forall_app_2
    | |- Forall _ (two _) => apply Htwo; Z.div_mod_to_equations; lia
    | |- Forall _ (_ !!! _) => apply Hnames; reflexivity
    | |- _ => apply Hlit; reflexivity
    end.
  - unfold http_date. assert (0 ≤ weekday (seconds / 86400) < 7) as Hw by (apply Z.mod_pos_bound; lia).
    assert (∃ a x, shortDayNames !!! Z.to_nat (weekday (seconds / 86400)) = a :: x ∧ 65 ≤ a ≤ 90)
      as (a & x & -> & Ha).
    { revert Hw. generalize (weekday (seconds / 86400)). intros i Hi.
      assert (i = 0 ∨ i = 1 ∨ i = 2 ∨ i = 3 ∨ i = 4 ∨ i = 5 ∨ i = 6) as Hc by lia.
      destruct Hc as [->|[->|[->|[->|[->|[->| ->]]]]]]; eexists _, _; (split; [reflexivity|]); split; vm_compute; congruence. }
    assert (Hend : ∀ p t : list Z, (∃ l, t = l ++ [84]) → ∃ l, p ++ t = l ++ [84]).
    { intros p t (l & ->). exists (p ++ l). by rewrite app_assoc. }
    match goal with |- context [(a :: x) ++ ?t] => assert (∃ l, t = l ++ [84]) as (l & ->) end.
    { repeat apply Hend. by exists [32; 71; 77]. }
    exists a, (x ++ l). split; [|done]. cbn [app]. by rewrite app_assoc.
Qed.

(** A time in the preferred format of HTTP. *)
Lemma nextAttemptAt_date nano now generation seconds :
  four_digit_year seconds → is_int64 (seconds * Second - now) →
  nextAttemptAt nano now generation (string_of (http_date seconds)) =
    if now <? seconds * Second then Z.min (seconds * Second) (now + Hour)
    else nextAttemptAt nano now generation "".
Proof.
  intros Hy Hi. destruct (http_date_text seconds Hy) as (Hascii & a & l & E & Ha).
  assert (Hb : bytes_of (string_of (http_date seconds)) = http_date seconds)
    by (apply bytes_of_string_of, is_ascii_byte, Hascii).
  assert (Hsp : IsSpace a = false) by (apply visible_not_space; lia).
  unfold nextAttemptAt at 1. unfold parseRetryAfter.
  rewrite (TrimSpace_ends _ a l 84) by (rewrite ?Hb; done).
  rewrite (proj2 (String.eqb_neq _ _)) by (rewrite E; done).
  assert (ParseInt (string_of (http_date seconds)) = None) as ->.
  { unfold ParseInt. rewrite Hb, E. 
    assert (digit_value a = None) as Hdv.
    { unfold digit_value. by rewrite (proj2 (Z.leb_gt a 57)), andb_false_r by lia. }
    assert ((match a :: l ++ [84] with 45 :: t => (true, t) | 43 :: t => (false, t) | t => (false, t) end) =
      (false, a :: l ++ [84])) as ->.
    { destruct a as [|[p|p|]|]; try lia; repeat (destruct p as [p|p|]; try done; try lia). }
    cbn [parse_digits]. by rewrite Hdv. }
  rewrite ParseTime_http_date by (done || by apply is_ascii_byte). change 1000000000 with Second.
  destruct (Z.ltb_spec now (seconds * Second)); cbn [negb]; [|reflexivity].
  unfold Sub, is_int64 in *. rewrite Z.max_r, Z.min_r by lia.
  destruct (Z.ltb_spec Hour (seconds * Second - now)); lia.
Qed.

Lemma jitter_bounds nano maximum : 0 ≤ nano → 0 ≤ jitter nano maximum ≤ Z.max 0 maximum.
Proof.
  intros Hn. unfold jitter. destruct (Z.leb_spec maximum 0); [lia|].
  pose proof (Z.rem_bound_pos nano maximum). lia.
Qed.

(** A number of seconds. *)
Lemma nextAttemptAt_seconds nano now generation seconds : 0 ≤ seconds ≤ max_int64 →
  nextAttemptAt nano now generation (FormatInt seconds) = now + Z.min (seconds * Second) Hour.
Proof.
  intros Hs. destruct (FormatInt_nat seconds Hs) as (b & l & E & Hd & _ & Hp).
  unfold nextAttemptAt, parseRetryAfter. rewrite TrimSpace_ascii.
  2: { rewrite E. eapply Forall_impl; [done|]. intros c Hc. cbn in Hc. split; [unfold is_ascii; lia|].
       apply visible_not_space; lia. }
  rewrite Hp, (proj2 (String.eqb_neq _ _)) by (intros Hf; by rewrite Hf in E). rewrite (proj2 (Z.ltb_ge seconds 0)) by lia.
  change (Z.quot Hour Second) with 3600. unfold Hour, Second.
  destruct (Z.ltb_spec 3600 seconds); lia.
Qed.

(** No usable header: a draw below a bound that doubles up to an hour. *)
Lemma nextAttemptAt_backoff nano now generation : 0 ≤ nano → 0 ≤ generation →
  now ≤ nextAttemptAt nano now generation "" < now + Z.min Hour (Second * 2 ^ generation).
Proof.
  intros Hn Hg. change (nextAttemptAt nano now generation "") with
    (now + jitter nano (if Hour <? Second * Z.shiftl 1 (if 12 <? generation then 12 else generation) then Hour
       else Second * Z.shiftl 1 (if 12 <? generation then 12 else generation))).
  assert (1 ≤ 2 ^ generation) by (pose proof (Z.pow_pos_nonneg 2 generation); lia).
  assert ((if Hour <? Second * Z.shiftl 1 (if 12 <? generation then 12 else generation) then Hour
    else Second * Z.shiftl 1 (if 12 <? generation then 12 else generation)) =
    Z.min Hour (Second * 2 ^ generation)) as ->.
  { destruct (Z.ltb_spec 12 generation) as [H12|H12].
    - pose proof (Z.pow_le_mono_r 2 12 generation ltac:(lia) ltac:(lia)) as Hp.
      change (Hour <? Second * Z.shiftl 1 12) with true. change (2 ^ 12) with 4096 in Hp.
      unfold Hour, Second. lia.
    - rewrite Z.shiftl_1_l. destruct (Z.ltb_spec Hour (Second * 2 ^ generation)); lia. }
  unfold jitter. rewrite (proj2 (Z.leb_gt _ _)) by (unfold Hour, Second; lia).
  pose proof (Z.rem_bound_pos nano (Z.min Hour (Second * 2 ^ generation)) Hn ltac:(unfold Hour, Second; lia)).
  lia.
Qed.

(** The next attempt is never before the attempt finished and never more
    than an hour after it, whatever the supplier put in Retry-After and
    however many generations have gone by. *)
Theorem next_attempt_is_bounded nano now generation retryAfter :
  0 ≤ nano → 0 ≤ generation →
  now ≤ nextAttemptAt nano now generation retryAfter ≤ now + Hour.
Proof.
  intros Hn Hg. unfold nextAttemptAt.
  destruct (parseRetryAfter now retryAfter) as [delay|] eqn:E.
  { apply parseRetryAfter_bounds in E. lia. }
  set (maximum := if Hour <? _ then _ else _).
  assert (maximum ≤ Hour) by (unfold maximum; case_match; to_prop; lia).
  pose proof (jitter_bounds nano maximum Hn). assert (0 < Hour) by done. lia.
Qed.

(** C40: when the next attempt of a delivery may start: whatever the supplier
    put in Retry-After, not before the attempt has finished and within an hour
    of it; with a number of seconds in the header, after that many seconds, cut
    at an hour; with a time in the preferred format of HTTP that is still to
    come, at that time, cut likewise; and with no header or a time that has
    passed, within a bound of one second that doubles with each generation up
    to an hour. *)
Theorem retries_are_timed nano now generation :
  0 ≤ nano → 0 ≤ generation →
  let next := nextAttemptAt nano now generation in
  (∀ retryAfter, now ≤ next retryAfter ≤ now + Hour) ∧
  (∀ seconds, 0 ≤ seconds ≤ max_int64 → next (FormatInt seconds) = now + Z.min (seconds * Second) Hour) ∧
  (∀ seconds, four_digit_year seconds → is_int64 (seconds * Second - now) →
     next (string_of (http_date seconds)) =
       if now <? seconds * Second then Z.min (seconds * Second) (now + Hour) else next "") ∧
  now ≤ next "" < now + Z.min Hour (Second * 2 ^ generation).
Proof.
  intros Hn Hg next. subst next. split; [intros; by apply next_attempt_is_bounded|].
  split; [intros; by apply nextAttemptAt_seconds|]. split; [intros; by apply nextAttemptAt_date|].
  by apply nextAttemptAt_backoff.
Qed.

(** The decision table: a result is a success exactly when there was no
    error and the status is a configured success (any 2xx when none is
    configured); it is retried exactly when the error was not permanent, or
    the status is no success and is configured for retry, or is 408, 425, 429
    or anything from 500 on - configured or not. *)
Theorem results_are_classified status err destination :
  (classify status err destination = resultSuccess ↔
    err = None ∧
    (elems (DestinationVersion.SuccessStatuses destination) = [] ∧ 200 ≤ status < 300 ∨
     status ∈ elems (DestinationVersion.SuccessStatuses destination))) ∧
  (classify status err destination = resultRetryable ↔
    (∃ e, err = Some e ∧ is_permanent e = false) ∨
    (err = None ∧
     isSuccess status (elems (DestinationVersion.SuccessStatuses destination)) = false ∧
     (status ∈ elems (DestinationVersion.RetryStatuses destination) ∨
      status = 408 ∨ status = 425 ∨ status = 429 ∨ 500 ≤ status))).
Proof.
  assert (Hex : ∀ l, existsb (λ c, status =? c) l = true ↔ status ∈ l).
  { intros l. rewrite existsb_exists, list_elem_of_In. setoid_rewrite Z.eqb_eq. naive_solver. }
  assert (Hok : isSuccess status (elems (DestinationVersion.SuccessStatuses destination)) = true ↔
    (elems (DestinationVersion.SuccessStatuses destination) = [] ∧ 200 ≤ status < 300 ∨
     status ∈ elems (DestinationVersion.SuccessStatuses destination))).
  { unfold isSuccess. destruct (elems _) as [|s l].
    - rewrite andb_true_iff, Z.leb_le, Z.ltb_lt. split; [auto|].
      intros [[_ ?]|[]%not_elem_of_nil]; done.
    - rewrite Hex. split; [auto|]. by intros [[? _]|?]. }
  unfold classify. destruct err as [e|].
  { split; split; [by destruct (is_permanent e)|by intros [? _]| |].
    - intros Hr. left. exists e. split; [done|]. by destruct (is_permanent e).
    - by intros [(e' & [= <-] & ->)|[? _]]. }
  rewrite <- Hok. clear Hok. rewrite <- Hex. clear Hex.
  destruct (isSuccess _ _).
  { split; split; [done|done|done|]. by intros [(? & ? & _)|(_ & ? & _)]. }
  split; [split; [by repeat case_match|by intros [_ ?]]|].
  destruct (existsb _ _); [split; [intros _; right; auto|done]|].
  destruct (_ || _) eqn:Eo; (split; [|done || intros Hd]).
  - intros _. right. split_and!; try done. right.
    repeat (apply orb_true_iff in Eo as [Eo|Eo]); to_prop; auto.
  - done.
  - to_prop. destruct Hd as [(? & ? & _)|(_ & _ & [?|Hs])]; try done. lia.
Qed.
End backoff.

(** ** The protocol of one signal *)

Section protocol.
Context {W : Type} `{WorkerEnv W, HttpTime}.
Context (owner : string) (leaseDuration : Z).

Definition is_send (e : event) : bool := match e with EvSend _ _ => true | _ => false end.

(** The complete calls of an attempt. *)
Definition attempt_trace (p : nat) (task : Delivery.t) (destination : DestinationVersion.t)
    (class : ResultClass) (a : AttemptResult.t) (next : option Z)
    (r : Prelude.result error unit) : list event :=
  [EvClaim (Ok (task, destination)); EvSend task destination; EvComplete class a next r;
   EvRelease p true].

(** The ways a call can go. *)
Inductive protocol : list event → answer → Prop :=
  | p_ineligible :
      protocol [EvEligible (Err ErrDeliveryNotClaimable)] (true, None)
  | p_eligibility_failed e :
      e ≠ ErrDeliveryNotClaimable → protocol [EvEligible (Err e)] (false, Some e)
  | p_observation_failed d e :
      protocol [EvEligible (Ok d); EvObserve (Err e)] (false, Some e)
  | p_limited d :
      protocol [EvEligible (Ok d); EvObserve (Ok tt); EvAcquire None] (false, None)
  | p_not_claimable d p :
      protocol [EvEligible (Ok d); EvObserve (Ok tt); EvAcquire (Some p);
                EvClaim (Err ErrDeliveryNotClaimable); EvRelease p false] (true, None)
  | p_claim_failed d p e :
      e ≠ ErrDeliveryNotClaimable →
      protocol [EvEligible (Ok d); EvObserve (Ok tt); EvAcquire (Some p);
                EvClaim (Err e); EvRelease p false] (false, Some e)
  | p_settled d p task d' class a next r :
      r = Ok tt ∨ r = Err ErrWorkerLeaseLost →
      protocol ([EvEligible (Ok d); EvObserve (Ok tt); EvAcquire (Some p)] ++
                attempt_trace p task d' class a next r) (true, None)
  | p_commit_failed d p task d' class a next e :
      e ≠ ErrWorkerLeaseLost →
      protocol ([EvEligible (Ok d); EvObserve (Ok tt); EvAcquire (Some p)] ++
                attempt_trace p task d' class a next (Err e)) (false, Some e).

Lemma attempt_shape p task d w a t w' :
  attempt p task d w = (a, t, w') →
  ∃ class att next r, EvClaim (Ok (task, d)) :: t = attempt_trace p task d class att next r ∧
    a = match r with
        | Ok _ => (true, None)
        | Err ErrWorkerLeaseLost => (true, None)
        | Err e => (false, Some e)
        end.
Proof.
  unfold attempt, complete, mbind, Eff_bind, quietly, perform, mret, Eff_ret.
  destruct (now_ w) as [s w1]. destruct (Send_ task d w1) as [[res err] w2].
  destruct (now_ w2) as [f w3]. destruct (nano_ w3) as [n w4].
  destruct (outcome n task d s f res err) as [[class att] next].
  set (op := match class with ClassSucceeded => _ | _ => _ end).
  destruct (op w4) as [r w5]. destruct (release_ p true w5) as [[] w6].
  intros [= <- <- _]. by exists class, att, next, r.
Qed.

Lemma Process_protocol signal w a t w' :
  Process owner leaseDuration signal w = (a, t, w') → protocol t a.
Proof.
  unfold Process, mbind, Eff_bind, perform, mret, Eff_ret.
  destruct (EligibleDestination_ _ _ w) as [[d|e] w1];
    [|destruct (decide (e = ErrDeliveryNotClaimable)) as [->|Hne];
      [intros [= <- <- _]; constructor|destruct e; intros [= <- <- _]; by constructor]].
  destruct (ObserveSignal_ _ _ w1) as [[[]|e] w2]; [|intros [= <- <- _]; constructor].
  destruct (tryAcquire_ d w2) as [[p|] w3]; [|intros [= <- <- _]; constructor].
  destruct (ClaimDelivery_ _ _ _ _ w3) as [[[task d']|e] w4].
  - destruct (attempt p task d' w4) as [[a4 t4] w5] eqn:E. intros [= <- <- _].
    apply attempt_shape in E as (class & att & next & r & Ht & ->). simpl. rewrite Ht.
    destruct r as [[]|e]; [apply (p_settled d p task d'); auto|].
    destruct (decide (e = ErrWorkerLeaseLost)) as [->|Hne];
      [apply (p_settled d p task d'); auto|].
    replace (match e with ErrWorkerLeaseLost => _ | _ => _ end) with ((false, Some e) : answer)
      by (by destruct e). by apply (p_commit_failed d p task d').
  - destruct (release_ p false w4) as [[] w5]. intros [= <- <- _].
    destruct (decide (e = ErrDeliveryNotClaimable)) as [->|Hne]; [constructor|].
    replace (match e with ErrDeliveryNotClaimable => _ | _ => _ end)
      with ((false, Some e) : answer) by (by destruct e). by constructor.
Qed.

(** C20: the supplier is called only under a granted claim: each call carries
    the task and the destination version of the claim right before it, and a
    signal leads to at most one call. *)
Theorem sends_once_under_its_claim signal w a t w' task d :
  Process owner leaseDuration signal w = (a, t, w') → EvSend task d ∈ t →
  ∃ before after, t = before ++ EvClaim (Ok (task, d)) :: EvSend task d :: after ∧
    existsb is_send (before ++ after) = false.
Proof.
  intros Hp%Process_protocol Hin.
  destruct Hp; try (exfalso; unfold attempt_trace in Hin; set_solver);
    unfold attempt_trace in Hin |- *; simpl in Hin;
    repeat (apply elem_of_cons in Hin as [Heq|Hin]; [try done|]);
    try (by apply not_elem_of_nil in Hin); injection Heq as <- <-;
    (eexists [_; _; _], [_; _]; split; reflexivity).
Qed.

(** C21: a message is acknowledged only when nothing is left to do for its
    signal: the delivery was not claimable, or a result was committed, or the
    result was refused because the lease had passed to someone else. *)
Theorem acknowledges_only_settled_signals signal w t w' :
  Process owner leaseDuration signal w = ((true, None), t, w') →
  EvEligible (Err ErrDeliveryNotClaimable) ∈ t ∨ EvClaim (Err ErrDeliveryNotClaimable) ∈ t ∨
  ∃ class a next r, EvComplete class a next r ∈ t ∧ (r = Ok tt ∨ r = Err ErrWorkerLeaseLost).
Proof.
  intros Hp%Process_protocol. inversion Hp; subst; unfold attempt_trace; [set_solver..|].
  right; right. exists class, a, next, r. split; [|assumption]. set_solver.
Qed.

(** Every permit is given back exactly once, and it is refundable
    exactly when no claim was granted under it. *)
Theorem permit_is_given_back_once signal w a t w' p :
  Process owner leaseDuration signal w = (a, t, w') → EvAcquire (Some p) ∈ t →
  ∃ before claimed, t = before ++ [EvRelease p claimed] ∧
    (∀ p' c, EvRelease p' c ∉ before) ∧
    (claimed = true ↔ ∃ task d, EvClaim (Ok (task, d)) ∈ t).
Proof.
  intros Hp%Process_protocol Hin.
  destruct Hp; unfold attempt_trace in Hin |- *; simpl in Hin;
    repeat (apply elem_of_cons in Hin as [Heq|Hin]; [try done|]);
    try (by apply not_elem_of_nil in Hin); injection Heq as <-;
    first [eexists [_; _; _; _], _; (split; [reflexivity|])
          |eexists [_; _; _; _; _; _], _; (split; [reflexivity|])]; set_solver.
Qed.
End protocol.

(** ** A Worker running against the store *)

(** What the n-th interaction of the process meets: the outcomes of its
    database calls, the clocks, the random source, the process clock, and what
    the other processes did to the database and the other goroutines to the
    limiter just before. *)
Record oracle := Oracle {
  o_io : IO;
  o_clock : clock;
  o_random : random;
  o_now : Z;
  o_others : DB → DB;
  o_goroutines : destinationLimiter → destinationLimiter
}.

Record World := mkWorld {
  w_db : DB;
  w_limiter : destinationLimiter;
  w_tick : nat
}.

Section service.
Context `{Unicode, Postgres, Machine, HttpTime}.
Context (env : nat → oracle).
Context (supplier : nat → Delivery.t → DestinationVersion.t → Result.t * option send_error).

Definition db_at (w : World) : DB := o_others (env (w_tick w)) (w_db w).
Definition limiter_at (w : World) : destinationLimiter :=
  o_goroutines (env (w_tick w)) (w_limiter w).

Definition on_db {A} (op : oracle → DB → A * DB) (w : World) : A * World :=
  let '(a, db) := op (env (w_tick w)) (db_at w) in
  (a, mkWorld db (limiter_at w) (S (w_tick w))).

Definition on_limiter {A} (op : oracle → destinationLimiter → A * destinationLimiter) (w : World)
    : A * World :=
  let '(a, l) := op (env (w_tick w)) (limiter_at w) in
  (a, mkWorld (db_at w) l (S (w_tick w))).

#[local] Instance service_env : WorkerEnv World := {|
  EligibleDestination_ id g := on_db (λ o db,
    (EligibleDestination (o_io o) (o_clock o) id g db, db));
  ObserveSignal_ id g := on_db (λ o, ObserveSignal (o_io o) (o_clock o) id g);
  ClaimDelivery_ id g owner lease := on_db (λ o,
    ClaimDelivery (o_io o) (o_clock o) (o_random o) id g owner lease);
  CompleteSuccess_ a := on_db (λ o, CompleteSuccess (o_io o) (o_clock o) (o_random o) a);
  CompleteRetry_ a next := on_db (λ o, CompleteRetry (o_io o) (o_clock o) (o_random o) a next);
  CompletePermanent_ a := on_db (λ o, CompletePermanent (o_io o) (o_clock o) (o_random o) a);
  Send_ task d := λ w,
    (supplier (w_tick w) task d, mkWorld (db_at w) (limiter_at w) (S (w_tick w)));
  tryAcquire_ d := on_limiter (λ o l, tryAcquire l (o_now o) d);
  release_ p c := on_limiter (λ o l, (tt, release l p c));
  now_ := λ w, (o_now (env (w_tick w)), mkWorld (db_at w) (limiter_at w) (S (w_tick w)));
  nano_ := λ w, (o_now (env (w_tick w)), mkWorld (db_at w) (limiter_at w) (S (w_tick w)))
|}.

(** The other processes are processes of this service. *)
Definition others_run (store : Store) : Prop :=
  ∀ n db, reachable store db → reachable store (o_others (env n) db).

Lemma on_db_reachable {A} store (op : oracle → DB → A * DB) w a w' :
  others_run store → reachable store (w_db w) →
  (∀ o db r db', op o db = (r, db') → db' = db ∨ step store db db') →
  on_db op w = (a, w') → reachable store (w_db w').
Proof.
  unfold on_db. intros Ho Hr Hop. destruct (op _ _) as [r db'] eqn:E. intros [= _ <-]. simpl.
  assert (reachable store (db_at w)) by by apply Ho.
  apply Hop in E as [->|?]; [done|]. by eapply reachable_step.
Qed.

(** Every call of the interface keeps the database reachable. *)
Definition keeps {A} (store : Store) (op : World → A * World) : Prop :=
  ∀ w a w', op w = (a, w') → reachable store (w_db w) → reachable store (w_db w').

Definition keeps_eff {A} (store : Store) (m : Eff event World A) : Prop :=
  ∀ w a t w', m w = (a, t, w') → reachable store (w_db w) → reachable store (w_db w').

Lemma keeps_bind {A B} store (m : Eff event World A) (f : A → Eff event World B) :
  keeps_eff store m → (∀ a, keeps_eff store (f a)) → keeps_eff store (m ≫= f).
Proof.
  intros Hm Hf w b t w'. unfold mbind, Eff_bind. destruct (m w) as [[a t1] w1] eqn:E.
  destruct (f a w1) as [[b' t2] w2] eqn:E2. intros [= _ _ <-] Hr. by eapply Hf, Hm.
Qed.

Lemma keeps_ret {A} store (a : A) : keeps_eff store (mret a).
Proof. by intros w b t w' [= _ _ <-]. Qed.

Lemma keeps_perform {A} store (ev : A → event) op : keeps store op → keeps_eff store (perform ev op).
Proof.
  intros Hop w a t w'. unfold perform. destruct (op w) as [a' w1] eqn:E. intros [= _ _ <-]. by eapply Hop.
Qed.

Lemma keeps_quietly {A} store (op : World → A * World) : keeps store op → keeps_eff store (quietly op).
Proof.
  intros Hop w a t w'. unfold quietly. destruct (op w) as [a' w1] eqn:E. intros [= _ _ <-]. by eapply Hop.
Qed.

Lemma keeps_tick {A} store (f : World → A) :
  others_run store →
  keeps store (λ w, (f w, mkWorld (db_at w) (limiter_at w) (S (w_tick w)))).
Proof. intros Ho w a w' [= _ <-] Hr. by apply Ho. Qed.

Lemma keeps_limiter {A} store (op : oracle → destinationLimiter → A * destinationLimiter) :
  others_run store → keeps store (on_limiter op).
Proof.
  intros Ho w a w'. unfold on_limiter. destruct (op _ _) as [r l]. intros [= _ <-] Hr. by apply Ho.
Qed.

Lemma keeps_db {A} store (op : oracle → DB → A * DB) :
  others_run store → (∀ o db r db', op o db = (r, db') → db' = db ∨ step store db db') →
  keeps store (on_db op).
Proof. intros Ho Hop w a w' Hx Hr. by eapply on_db_reachable. Qed.

Lemma keeps_complete store o : others_run store → keeps_eff store (complete o).
Proof.
  intros Ho. destruct o as [[class att] next]. unfold complete.
  apply keeps_perform. destruct class as [| |]; [|destruct next as [n|]|];
    apply keeps_db; try exact Ho; intros or db r db' Hx; right.
  - eapply step_CompleteSuccess, Hx.
  - eapply step_CompleteRetry, Hx.
  - eapply step_CompletePermanent, Hx.
  - eapply step_CompletePermanent, Hx.
Qed.

Lemma keeps_attempt store p task d : others_run store → keeps_eff store (attempt p task d).
Proof.
  intros Ho. unfold attempt.
  repeat first
    [ apply keeps_ret
    | apply keeps_complete; exact Ho
    | apply keeps_quietly, keeps_tick; exact Ho
    | apply keeps_perform, keeps_tick; exact Ho
    | apply keeps_perform, keeps_limiter; exact Ho
    | apply keeps_bind; [|intros ?]
    | case_match ].
Qed.

(** A Worker processing a signal, with any supplier, any failures of its
    calls and any interference from other processes, keeps the database
    reachable - so everything proved of reachable states holds after it. *)
Theorem processing_keeps_states_reachable store owner lease signal w a t w' :
  others_run store → reachable store (w_db w) →
  Process owner lease signal w = (a, t, w') → reachable store (w_db w').
Proof.
  intros Ho Hr Hp. revert w a t w' Hp Hr. change (keeps_eff store (Process owner lease signal)).
  unfold Process. apply keeps_bind; [|intros eligible].
  { apply keeps_perform, keeps_db; [exact Ho|]. intros o db r db' [= _ <-]. by left. }
  destruct eligible as [d|e]; [|destruct e; apply keeps_ret].
  apply keeps_bind; [|intros [[]|e]; [|apply keeps_ret]].
  { apply keeps_perform, keeps_db; [exact Ho|]. intros o db r db' Hx. right.
    eapply step_ObserveSignal, Hx. }
  apply keeps_bind; [apply keeps_perform, keeps_limiter; exact Ho|intros [p|]; [|apply keeps_ret]].
  apply keeps_bind; [|intros [[task d']|e]; [apply keeps_attempt; exact Ho|]].
  { apply keeps_perform, keeps_db; [exact Ho|]. intros o db r db' Hx. right.
    eapply step_ClaimDelivery, Hx. }
  apply keeps_bind; [apply keeps_perform, keeps_limiter; exact Ho|intros []; apply keeps_ret].
Qed.
End service.

(** ** A result under a held lease *)

Section held_lease.
Context `{Unicode, Postgres, HttpTime}.

(** What the Worker decided, as the store sees it. *)
Lemma outcome_attempt nano task d s f res err class att next :
  outcome nano task d s f res err = (class, att, next) →
  AttemptResult.DeliveryID att = Delivery.ID task ∧
  AttemptResult.Generation att = Delivery.Generation task ∧
  AttemptResult.LeaseOwner att = Delivery.LeaseOwner task ∧
  AttemptResult.LeaseToken att = Delivery.LeaseToken task ∧
  AttemptResult.StartedAt att = s ∧ AttemptResult.FinishedAt att = f ∧
  (class = ClassRetryableFailure → ∃ n, next = Some n ∧ n < Delivery.RetryDeadline task).
Proof.
  unfold outcome. destruct (classify _ _ _); [intros [= <- <- <-]; by split_and!| |
    intros [= <- <- <-]; by split_and!].
  destruct (Z.ltb_spec (nextAttemptAt nano f (Delivery.Generation task) (Result.RetryAfter res))
    (Delivery.RetryDeadline task)); simpl; intros [= <- <- <-]; split_and!; try done; eauto.
Qed.

(** As long as the claimed row is untouched and the lease runs, the
    result the Worker decides on is committed: success, failure, or a retry
    whose time, rounded to the database's microseconds, still passes the
    deadline guard of the statement. *)
Theorem held_lease_result_is_committed io clk rand did g owner lease db task d db1
    db2 clk' rand' aid nano s f res err class att next :
  ClaimDelivery io clk rand did g owner lease db = (Ok (task, d), db1) →
  Inv db2 → deliveries db2 !! Delivery.ID task = deliveries db1 !! Delivery.ID task →
  uuid_in (Delivery.ID task) = Some (Delivery.ID task) →
  uuid_in (Delivery.LeaseToken task) = Some (Delivery.LeaseToken task) →
  (∀ u, Delivery.LeaseUntil task = Some u →
     time_of (clock_timestamp clk' (Delivery.ID task) 1) < u) →
  newUUID (rand' 0%nat) = Ok aid → delivery_attempts db2 !! aid = None →
  s ≤ f → Delivery.Generation task < max_int64 →
  outcome nano task d s f res err = (class, att, next) →
  ∃ db3 r, completeResult healthy clk' rand' att class next db2 = (Ok tt, db3) ∧
    deliveries db3 !! Delivery.ID task = Some r ∧
    d_status r = status_after class ∧
    d_generation r = generation_after class (Delivery.Generation task) ∧
    delivery_attempts db3 !! aid =
      Some (attempt_of (Delivery.ID task) (Delivery.LeaseToken task) class att).
Proof.
  intros Hc Hinv Hrow Hid Htok Hlease Hu Ha Hsf Hmax Ho.
  unfold ClaimDelivery in Hc. case_match; [done|]. destruct (newUUID (rand 0%nat)) as [tok|]; [|done].
  apply run_tx_Ok, claim_body_Ok in Hc as (id & r & _ & Hr & Hcl & -> & _ & ->). simpl in *.
  rewrite (claim_update_lookup _ _ _ _ _ _ _ _ Hr Hcl) in Hrow.
  apply outcome_attempt in Ho as (E1 & E2 & E3 & E4 & E5 & E6 & E7). simpl in *.
  specialize (Hlease _ eq_refl).
  eexists _, _. split_and!.
  - apply (completeResult_in_fence clk' rand' att class next db2 id tok aid
      (claimed_row clk id owner tok (interval lease) r)); try done; try congruence.
    unfold fence. rewrite E2, E3, Z.eqb_refl. simpl.
    rewrite (bool_decide_true (Some owner = Some owner)), (bool_decide_true (Some tok = Some tok)),
      (proj2 (Z.ltb_lt _ _)) by (done || (unfold time_of in Hlease; lia)). simpl.
    destruct class; [done| |done]. destruct (E7 eq_refl) as (n & -> & Hn). simpl.
    apply Z.ltb_lt. unfold timestamptz_of, time_of in *. apply Z.div_lt_upper_bound; lia.
  - simpl. by rewrite lookup_insert_eq.
  - by destruct class.
  - by destruct class.
  - simpl. by rewrite lookup_insert_eq.
Qed.
End held_lease.

(** ** A concrete run *)

(** The local zone of the process is UTC. *)
#[global] Instance utc_local : HttpTime := {| lookupName := λ _ _, None |}.

Definition quiet_oracle (n : nat) : oracle :=
  let t := (1 + Z.of_nat n) * 100000 in
  Oracle healthy (still (noon + t)) (draws (20 + Z.of_nat n)) (time_of (noon + t)) (λ db, db) (λ l, l).

Definition answers_200 (n : nat) (task : Delivery.t) (d : DestinationVersion.t)
    : Result.t * option send_error := (Result.mk 200 "", None).

Definition world0 : World := mkWorld db_sub newDestinationLimiter 0.
Definition signal0 : Signal.t := Signal.mk id0 0 id0.

#[global] Instance world_env : WorkerEnv World := service_env quiet_oracle answers_200.

Definition processed := Process "w1" 30000000000 signal0 world0.

Example processed_ok : processed.1.1 = (true, None).
Proof. vm_compute. reflexivity. Qed.
Example processed_succeeded : d_status (row0 (w_db processed.2)) = StatusSucceeded.
Proof. vm_compute. reflexivity. Qed.

Lemma processed_eq : Process "w1" 30000000000 signal0 world0 = (processed.1.1, processed.1.2, processed.2).
Proof. fold processed. by destruct processed as [[? ?] ?]. Qed.

Lemma next_attempt_is_bounded_witness :
  1000 ≤ nextAttemptAt 77 1000 3 "120" ≤ 1000 + Hour.
Proof. apply next_attempt_is_bounded; lia. Defined.

(** A date half a minute ahead, and two minutes. *)
Lemma retries_are_timed_witness :
  string_of (http_date 784111777) = "Sun, 06 Nov 1994 08:49:37 GMT" ∧
  nextAttemptAt 5 784111747000000000 3 "Sun, 06 Nov 1994 08:49:37 GMT" = 784111777000000000 ∧
  nextAttemptAt 5 784111747000000000 3 "120" = 784111867000000000.
Proof.
  assert (Hd : string_of (http_date 784111777) = "Sun, 06 Nov 1994 08:49:37 GMT") by (vm_compute; reflexivity).
  destruct (retries_are_timed 5 784111747000000000 3 ltac:(lia) ltac:(lia)) as (_ & Hs & Ht & _).
  split; [exact Hd|]. rewrite <- Hd. split.
  - rewrite (Ht 784111777); vm_compute; [reflexivity|split; discriminate|split; congruence].
  - change "120" with (FormatInt 120). rewrite (Hs 120); [reflexivity|]. vm_compute. split; congruence.
Defined.

Definition task_sent : Delivery.t :=
  match processed.1.2 !! 4%nat with Some (EvSend task _) => task | _ => delivery0 end.
Definition destination_sent : DestinationVersion.t :=
  match processed.1.2 !! 4%nat with Some (EvSend _ d) => d | _ => destination0 end.

Lemma sends_once_under_its_claim_witness :
  ∃ before after, processed.1.2 =
    before ++ EvClaim (Ok (task_sent, destination_sent)) :: EvSend task_sent destination_sent :: after ∧
    existsb is_send (before ++ after) = false.
Proof.
  apply (sends_once_under_its_claim "w1" 30000000000 signal0 world0 processed.1.1 processed.1.2
    processed.2); [apply processed_eq|].
  apply list_elem_of_lookup_2 with (i := 4%nat). vm_compute. reflexivity.
Defined.

Lemma acknowledges_only_settled_signals_witness :
  EvEligible (Err ErrDeliveryNotClaimable) ∈ processed.1.2 ∨
  EvClaim (Err ErrDeliveryNotClaimable) ∈ processed.1.2 ∨
  ∃ class a next r, EvComplete class a next r ∈ processed.1.2 ∧
    (r = Ok tt ∨ r = Err ErrWorkerLeaseLost).
Proof.
  apply (acknowledges_only_settled_signals "w1" 30000000000 signal0 world0 _ processed.2).
  rewrite processed_eq, processed_ok. reflexivity.
Defined.

Lemma permit_is_given_back_once_witness :
  ∃ before claimed, processed.1.2 = before ++ [EvRelease 0 claimed] ∧
    (∀ p' c, EvRelease p' c ∉ before) ∧
    (claimed = true ↔ ∃ task d, EvClaim (Ok (task, d)) ∈ processed.1.2).
Proof.
  apply (permit_is_given_back_once "w1" 30000000000 signal0 world0 processed.1.1 processed.1.2
    processed.2); [apply processed_eq|].
  apply list_elem_of_lookup_2 with (i := 2%nat). vm_compute. reflexivity.
Defined.

Lemma processing_keeps_states_reachable_witness : reachable store0 (w_db processed.2).
Proof.
  apply (processing_keeps_states_reachable quiet_oracle answers_200 store0 "w1" 30000000000 signal0
    world0 processed.1.1 processed.1.2 processed.2); [intros n db Hr; exact Hr|apply sub_reachable|].
  apply processed_eq.
Defined.

(** A 503 with Retry-After, one second after the claim. *)
Definition outcome0 : ResultClass * AttemptResult.t * option Z :=
  outcome 5 task0.1 task0.2 (time_of (noon + second)) (time_of (noon + 2 * second))
    (Result.mk 503 "120") None.

Lemma held_lease_result_is_committed_witness : ∃ db3 r,
  completeResult healthy (still (noon + 2 * second)) (draws 3) outcome0.1.2 outcome0.1.1 outcome0.2
    db_claimed = (Ok tt, db3) ∧
  deliveries db3 !! Delivery.ID task0.1 = Some r ∧
  d_status r = status_after outcome0.1.1 ∧
  d_generation r = generation_after outcome0.1.1 (Delivery.Generation task0.1) ∧
  delivery_attempts db3 !! uuid_of (draws 3 0%nat) =
    Some (attempt_of (Delivery.ID task0.1) (Delivery.LeaseToken task0.1) outcome0.1.1 outcome0.1.2).
Proof.
  apply (held_lease_result_is_committed healthy (still (noon + second)) (draws 2) id0 0 "w1"
    30000000000 db_sub task0.1 task0.2 db_claimed db_claimed (still (noon + 2 * second)) (draws 3)
    (uuid_of (draws 3 0%nat)) 5 (time_of (noon + second)) (time_of (noon + 2 * second))
    (Result.mk 503 "120") None);
    [vm_compute; reflexivity|apply (reachable_Inv _ _ claimed_reachable)|reflexivity|
     vm_compute; reflexivity|vm_compute; reflexivity| |vm_compute; reflexivity|
     vm_compute; reflexivity|vm_compute; discriminate|vm_compute; reflexivity|
     vm_compute; reflexivity].
  intros u Hu. vm_compute in Hu. injection Hu as <-. vm_compute. reflexivity.
Defined.
