(* ===== verification/Outbound.v ===== *)
(** * internal/outbound/client.go

    The sender: validation of the destination and of the stored headers, the
    resolution and filtering of addresses, the credential, and the one HTTPS
    request.  The resolver, the environment variables and the transport are an
    interface over an abstract world; [Send] records the calls it makes. *)

From S2P Require Import Prelude GoStrings Model Scenario Worker Hash Netip GoUrl.

Local Open Scope Z_scope.

Definition testNetworkPolicy : string := "test-only-supplier".

(** ** Headers as package net/textproto keeps them *)

(** The bytes of an RFC 9110 token. *)
Definition token_byte (b : Z) : bool :=
  is_alpha b || is_digit b ||
  mem b [33; 35; 36; 37; 38; 39; 42; 43; 45; 46; 94; 95; 96; 124; 126].

Definition upper_ascii (b : Z) : Z := if (97 <=? b) && (b <=? 122) then b - 32 else b.

(** Letters upper case at the start and after a hyphen, lower case elsewhere. *)
Fixpoint canonical_bytes (upper : bool) (l : list Z) : list Z :=
  match l with
  | [] => []
  | b :: l =>
      let b := if upper then upper_ascii b else lower_ascii b in
      b :: canonical_bytes (b =? 45) l
  end.

Definition is_token (name : string) : bool := forallb token_byte (bytes_of name).

Definition CanonicalMIMEHeaderKey (name : string) : string :=
  if is_token name then string_of (canonical_bytes true (bytes_of name)) else name.

(** [http.Header.Set] *)
Definition header_set (name value : string) (h : gmap string string) : gmap string string :=
  <[CanonicalMIMEHeaderKey name := value]> h.

(** ** The sender *)

Record Sender := mkSender {
  testPolicy : bool;
  testRoots : option string;       (* the PEM text the pool was made from *)
  testHostname : string
}.

(** [readFile] is [os.ReadFile]; [parsesPEM] is [AppendCertsFromPEM]. *)
Definition NewSender (secrets_nil : bool) (testPolicy : bool) (testCAFile : string)
    (readFile : string → option string) (parsesPEM : string → bool) : result unit Sender :=
  if secrets_nil then Err tt
  else if testPolicy then
    if String.eqb testCAFile "" then Err tt
    else match readFile testCAFile with
    | None => Err tt
    | Some certificate =>
        if parsesPEM certificate
        then Ok (mkSender testPolicy (Some certificate) "fake-supplier.test")
        else Err tt
    end
  else Ok (mkSender testPolicy None "fake-supplier.test").

(** What is handed to the HTTP client: redirects are not followed, so one
    request is one exchange. *)
Module Request.
Record t := mk {
  Method : string;
  URL : Url.t;
  Header : gmap string string;
  Body : string;
  ServerName : string;
  RootCAs : option string;
  ConnectTimeout : Z;
  Timeout : Z
}.
End Request.

(** The answers of the world: an error says whether it is
    [context.DeadlineExceeded].  [Do_] also lists the endpoints the transport
    asked its dialer for; an address that does not split is [None]. *)
Class SenderEnv (W : Type) := {
  LookupIP_ : string → W → result bool (list (list Z)) * W;
  LookupEnv_ : string → W → option string * W;
  Do_ : Request.t → W → (list (option (string * string)) * result bool Result.t) * W
}.

Inductive send_event : Type :=
  | EvLookup (host : string) (r : result bool (list (list Z)))
  | EvSecret (name : string) (r : option string)
  | EvRequest (r : Request.t)
  | EvDial (ip : list Z) (port : string).

Section sender.
Context `{Unicode, IpLiteral}.

(** ** Validation *)

Definition validateURL (rawURL : string) : option Url.t :=
  target ← ParseRequestURI rawURL;
  if negb (bool_decide (Url.Scheme target = bytes_of "https")) ||
     bool_decide (Url.Host target = []) || String.eqb (Hostname target) "" ||
     Url.User target || negb (bool_decide (Url.Fragment target = []))
  then None
  else if String.eqb (Port target) "" then Some target
  else match ParseInt (Port target) with
  | None => None
  | Some port => if (port <? 1) || (65535 <? port) then None else Some target
  end.

Definition validatePolicy (sender : Sender) (hostname policy : string) : bool :=
  if String.eqb policy "public-internet" then true
  else if String.eqb policy testNetworkPolicy
  then testPolicy sender && String.eqb hostname (testHostname sender)
  else false.

Definition validateAddresses (policy : string) (addresses : list (list Z)) : option (list Z) :=
  match addresses with
  | [] => None
  | first :: _ =>
      if String.eqb policy testNetworkPolicy then Some first
      else if existsb forbidden addresses then None
      else Some first
  end.

Definition roots (sender : Sender) (policy : string) : option string :=
  if negb (String.eqb policy testNetworkPolicy) then None else testRoots sender.

Definition bad_name_chars : string := string_of [32; 9; 13; 10; 58].
Definition line_ends : string := string_of [13; 10].

Definition validInjectedHeader (name : string) : bool :=
  let canonical := canonical_name name in
  if String.eqb canonical "" || ContainsAny canonical bad_name_chars then false
  else negb (bool_decide (canonical ∈
    ["host"; "connection"; "keep-alive"; "proxy-authenticate"; "te"; "trailer";
     "transfer-encoding"; "upgrade"; "cookie"; "set-cookie"; "content-length"])).

Definition allowed_names (destination : DestinationVersion.t) : gset string :=
  list_to_set (canonical_name <$> elems (DestinationVersion.AllowedHeaders destination)).

Definition protected_names (destination : DestinationVersion.t) : gset string :=
  list_to_set
    ["authorization"; "proxy-authorization"; "host"; "connection"; "keep-alive";
     "proxy-authenticate"; "te"; "trailer"; "transfer-encoding"; "upgrade"; "cookie";
     "set-cookie"; "content-length";
     ToLower (DestinationVersion.IdempotencyHeader destination);
     ToLower (DestinationVersion.CredentialHeader destination)].

Fixpoint stored_headers_ok (allowed protected seen : gset string)
    (order : list (string * string)) : bool :=
  match order with
  | [] => true
  | (name, value) :: order =>
      let canonical := canonical_name name in
      if String.eqb canonical "" || ContainsAny canonical bad_name_chars ||
         ContainsAny value line_ends then false
      else if bool_decide (canonical ∈ seen) then false
      else if bool_decide (canonical ∈ protected) then false
      else if negb (bool_decide (canonical ∈ allowed)) then false
      else stored_headers_ok allowed protected ({[canonical]} ∪ seen) order
  end.

(** [order] is the order in which the range loop visits the headers. *)
Definition validateStoredHeaders (order : list (string * string))
    (destination : DestinationVersion.t) : bool :=
  if negb (validInjectedHeader (DestinationVersion.CredentialHeader destination)) ||
     negb (validInjectedHeader (DestinationVersion.IdempotencyHeader destination)) ||
     EqualFold (DestinationVersion.CredentialHeader destination)
       (DestinationVersion.IdempotencyHeader destination)
  then false
  else stored_headers_ok (allowed_names destination) (protected_names destination) ∅ order.

Definition containsFold (values : list string) (candidate : string) : bool :=
  existsb (λ value, EqualFold (TrimSpace value) (TrimSpace candidate)) values.

(** ** Sending *)

(** [http.NewRequestWithContext] refuses a method that is no token. *)
Definition valid_method (method : string) : bool :=
  negb (String.eqb method "") && is_token method.

Definition dial_port (target : Url.t) : string :=
  if String.eqb (Port target) "" then "443" else Port target.

(** [DialContext]: the endpoint dialled for the address the transport asks. *)
Definition dial_context (target : Url.t) (validatedIP : list Z) (address : option (string * string))
    : option (list Z * string) :=
  '(host, dialPort) ← address;
  if negb (EqualFold host (Hostname target)) || negb (String.eqb dialPort (dial_port target))
  then None
  else Some (validatedIP, dial_port target).

Definition request_headers (order : list (string * string)) (task : Delivery.t)
    (destination : DestinationVersion.t) (secret : string) : gmap string string :=
  let caller := foldl (λ h '(name, value), header_set name value h) ∅ order in
  header_set (DestinationVersion.CredentialHeader destination) secret
    (header_set (DestinationVersion.IdempotencyHeader destination)
       (Delivery.SupplierIdempotencyValue task) caller).

Definition request (sender : Sender) (order : list (string * string)) (task : Delivery.t)
    (destination : DestinationVersion.t) (target : Url.t) (secret : string) : Request.t :=
  {| Request.Method := Delivery.Method task;
     Request.URL := target;
     Request.Header := request_headers order task destination secret;
     Request.Body := Delivery.Body task;
     Request.ServerName := Hostname target;
     Request.RootCAs := roots sender (DestinationVersion.NetworkPolicy destination);
     Request.ConnectTimeout := DestinationVersion.ConnectTimeout destination;
     Request.Timeout := DestinationVersion.RequestTimeout destination |}.

Definition no_result : Result.t := Result.mk 0 "".
Definition permanent : Result.t * option send_error := (no_result, Some (SendError true false)).
Definition failed (deadline : bool) : Result.t * option send_error :=
  (no_result, Some (SendError false deadline)).

Context {W : Type} `{SenderEnv W}.

(** [EnvironmentSecrets.Resolve] *)
Definition Resolve (reference : string) : Eff send_event W (option string) :=
  if negb (HasPrefix reference "env:") then mret None
  else let name := from_index 4 reference in
  if String.eqb name "" then mret None
  else perform (EvSecret name) (LookupEnv_ name) ≫= λ value,
  mret (match value with
        | Some v => if String.eqb v "" then None else Some v
        | None => None
        end).

(** [client.Do]: the request, and a dial for every endpoint it is let through. *)
Definition do_request (target : Url.t) (validatedIP : list Z) (r : Request.t)
    : Eff send_event W (result bool Result.t) := λ w,
  let '((endpoints, answer), w) := Do_ r w in
  (answer,
   EvRequest r :: ((λ '(ip, port), EvDial ip port) <$>
                   omap (dial_context target validatedIP) endpoints), w).

Definition Send (sender : Sender) (order : list (string * string)) (task : Delivery.t)
    (destination : DestinationVersion.t) : Eff send_event W (Result.t * option send_error) :=
  if DestinationVersion.RequestTimeout destination <=? 0 then mret permanent
  else match validateURL (DestinationVersion.URL destination) with
  | None => mret permanent
  | Some target =>
      if negb (IsSupportedOutboundMethod (Delivery.Method task)) then mret permanent
      else if negb (containsFold (elems (DestinationVersion.AllowedMethods destination))
                      (Delivery.Method task)) then mret permanent
      else if negb (validateStoredHeaders order destination) then mret permanent
      else if negb (validatePolicy sender (Hostname target)
                      (DestinationVersion.NetworkPolicy destination)) then mret permanent
      else
        perform (EvLookup (Hostname target)) (LookupIP_ (Hostname target)) ≫= λ resolved,
        match resolved with
        | Err deadline => mret (failed deadline)
        | Ok addresses =>
            match validateAddresses (DestinationVersion.NetworkPolicy destination) addresses with
            | None => mret permanent
            | Some validatedIP =>
                Resolve (DestinationVersion.SecretRef destination) ≫= λ credential,
                match credential with
                | None => mret (failed false)
                | Some secret =>
                    if negb (valid_method (Delivery.Method task)) then mret permanent
                    else
                      do_request target validatedIP
                        (request sender order task destination target secret) ≫= λ answer,
                      mret (match answer with
                            | Err deadline => failed deadline
                            | Ok response => (response, None)
                            end)
                end
            end
        end
  end.
End sender.

(** ** Header names up to case *)

Lemma token_byte_plain b : is_byte b → token_byte b = true → is_ascii b ∧ IsSpace b = false.
Proof.
  intros Hb Ht.
  pose proof (all_bytes (λ b, negb (token_byte b) || ((b <? 128) && negb (IsSpace b)))
    ltac:(by vm_compute) b Hb) as H. simpl in H. rewrite Ht in H. simpl in H. to_prop.
  unfold is_byte, is_ascii in *. split; [lia|done].
Qed.

Lemma token_ascii name : is_token name = true →
  Forall (λ b, is_ascii b ∧ IsSpace b = false) (bytes_of name).
Proof.
  unfold is_token. rewrite forallb_forall. intros Ht. apply Forall_forall. intros b Hb.
  apply token_byte_plain; [|by apply Ht, list_elem_of_In].
  pose proof (bytes_of_range name) as Hr. rewrite Forall_forall in Hr. auto.
Qed.

Lemma lower_upper b : lower_ascii (upper_ascii b) = lower_ascii b.
Proof. unfold lower_ascii, upper_ascii. repeat case_match; to_prop; rewrite ?andb_false_iff, ?Z.leb_gt in *; lia. Qed.

Lemma lower_lower b : lower_ascii (lower_ascii b) = lower_ascii b.
Proof. unfold lower_ascii. repeat case_match; to_prop; rewrite ?andb_false_iff, ?Z.leb_gt in *; lia. Qed.

Lemma canonical_bytes_lower upper l : lower_ascii <$> canonical_bytes upper l = lower_ascii <$> l.
Proof.
  revert upper. induction l as [|b l IH]; intros upper; [done|]. cbn. f_equal; [|apply IH].
  destruct upper; [apply lower_upper|apply lower_lower].
Qed.

Lemma canonical_bytes_token upper l :
  Forall is_byte l → forallb token_byte l = true →
  Forall is_byte (canonical_bytes upper l) ∧ forallb token_byte (canonical_bytes upper l) = true.
Proof.
  intros Hl. revert upper. induction Hl as [|b l Hb _ IH]; intros upper; [done|].
  cbn. intros [Ht Htl]%andb_true_iff.
  assert (Hc : is_byte (if upper then upper_ascii b else lower_ascii b) ∧
               token_byte (if upper then upper_ascii b else lower_ascii b) = true).
  { pose proof (all_bytes (λ b, negb (token_byte b) ||
      (token_byte (upper_ascii b) && token_byte (lower_ascii b) &&
       (0 <=? upper_ascii b) && (upper_ascii b <? 256) &&
       (0 <=? lower_ascii b) && (lower_ascii b <? 256))) ltac:(by vm_compute) b Hb) as H.
    simpl in H. rewrite Ht in H. simpl in H. to_prop. unfold is_byte. by destruct upper. }
  destruct (IH ((if upper then upper_ascii b else lower_ascii b) =? 45) Htl) as [H1 H2].
  split; [constructor; [apply Hc|done]|]. by rewrite (proj2 Hc), H2.
Qed.

Lemma CanonicalMIMEHeaderKey_inj a b :
  CanonicalMIMEHeaderKey a = CanonicalMIMEHeaderKey b →
  a = b ∨ is_token a = true ∧ is_token b = true ∧
    lower_ascii <$> bytes_of a = lower_ascii <$> bytes_of b.
Proof.
  assert (Hcanon : ∀ s, is_token s = true →
    bytes_of (string_of (canonical_bytes true (bytes_of s))) = canonical_bytes true (bytes_of s) ∧
    is_token (string_of (canonical_bytes true (bytes_of s))) = true).
  { intros s Hs. destruct (canonical_bytes_token true _ (bytes_of_range s) Hs) as [H1 H2].
    unfold is_token. by rewrite bytes_of_string_of. }
  unfold CanonicalMIMEHeaderKey.
  destruct (is_token a) eqn:Ea, (is_token b) eqn:Eb; [|intros <-|intros ->|by left].
  - intros Heq%(f_equal bytes_of). right. split_and!; [done|done|].
    rewrite (proj1 (Hcanon a Ea)), (proj1 (Hcanon b Eb)) in Heq.
    apply (f_equal (fmap lower_ascii)) in Heq. by rewrite !canonical_bytes_lower in Heq.
  - rewrite (proj2 (Hcanon _ Ea)) in Eb. done.
  - rewrite (proj2 (Hcanon _ Eb)) in Ea. done.
Qed.

Section names.
Context `{Unicode}.

Lemma lower_ToLower l : Forall is_ascii l → unicode_ToLower <$> l = lower_ascii <$> l.
Proof.
  intros Hl. induction Hl as [|b l Hb _ IH]; [done|]. cbn. f_equal; [|exact IH].
  unfold unicode_ToLower, lower_ascii, is_ascii in *. by rewrite (proj2 (Z.ltb_lt b 128)) by lia.
Qed.

Lemma token_canonical_name name : is_token name = true →
  canonical_name name = ToLower name ∧ bytes_of (ToLower name) = lower_ascii <$> bytes_of name.
Proof.
  intros Ht%token_ascii. unfold canonical_name. rewrite TrimSpace_ascii by done. split; [done|].
  apply Forall_and in Ht as [Ht _]. rewrite ToLower_ascii, lower_ToLower by done. done.
Qed.

(** Names that meet in a header map have one canonical name, when one of them
    is a token. *)
Lemma same_key_same_name a b :
  is_token a = true → CanonicalMIMEHeaderKey a = CanonicalMIMEHeaderKey b →
  is_token b = true ∧ canonical_name a = canonical_name b ∧ canonical_name a = ToLower b ∧
  EqualFold b a = true.
Proof.
  intros Ha Heq. assert (is_token b = true ∧
    lower_ascii <$> bytes_of a = lower_ascii <$> bytes_of b) as [Hb Hl].
  { destruct (CanonicalMIMEHeaderKey_inj _ _ Heq) as [<-|(_ & ? & ?)]; done. }
  destruct (token_canonical_name a Ha) as [Ea Ea']. destruct (token_canonical_name b Hb) as [Eb Eb'].
  assert (ToLower a = ToLower b) as Hlow by (apply bytes_of_inj; congruence).
  split_and!; [done|congruence|congruence|].
  apply token_ascii, Forall_and in Ha as [Ha _]. apply token_ascii, Forall_and in Hb as [Hb _].
  apply EqualFold_ascii; [done|done|]. by rewrite !lower_ToLower.
Qed.
End names.

(** ** The ways an attempt can go *)

(** The answer, the calls and the world of a run that ended here. *)
Ltac advance := cbv beta iota zeta delta [mret Eff_ret mbind Eff_bind perform negb].
Ltac answered := advance; cbn [app]; intros [= <- <- _].

Section attempts.
Context `{Unicode, IpLiteral}.
Context {W : Type} `{SenderEnv W}.
Context (sender : Sender) (order : list (string * string)) (task : Delivery.t)
  (d : DestinationVersion.t).

(** The checks before the first call. *)
Record cleared (u : Url.t) : Prop := {
  cl_timeout : 0 < DestinationVersion.RequestTimeout d;
  cl_url : validateURL (DestinationVersion.URL d) = Some u;
  cl_method : IsSupportedOutboundMethod (Delivery.Method task) = true;
  cl_allowed : containsFold (elems (DestinationVersion.AllowedMethods d))
                 (Delivery.Method task) = true;
  cl_headers : validateStoredHeaders order d = true;
  cl_policy : validatePolicy sender (Hostname u) (DestinationVersion.NetworkPolicy d) = true
}.

Definition dials (u : Url.t) (ip : list Z) (endpoints : list (option (string * string)))
    : list send_event :=
  (λ '(ip, port), EvDial ip port) <$> omap (dial_context u ip) endpoints.

Inductive sent : list send_event → Result.t * option send_error → Prop :=
  | s_refused : (∀ u, ¬ cleared u) → sent [] permanent
  | s_unresolved u deadline :
      cleared u → sent [EvLookup (Hostname u) (Err deadline)] (failed deadline)
  | s_forbidden u addresses :
      cleared u → validateAddresses (DestinationVersion.NetworkPolicy d) addresses = None →
      sent [EvLookup (Hostname u) (Ok addresses)] permanent
  | s_no_secret u addresses ip t :
      cleared u → validateAddresses (DestinationVersion.NetworkPolicy d) addresses = Some ip →
      t = [] ∨ (∃ name v, t = [EvSecret name v]) →
      sent (EvLookup (Hostname u) (Ok addresses) :: t) (failed false)
  | s_bad_method u addresses ip name secret :
      cleared u → validateAddresses (DestinationVersion.NetworkPolicy d) addresses = Some ip →
      valid_method (Delivery.Method task) = false →
      sent [EvLookup (Hostname u) (Ok addresses); EvSecret name (Some secret)] permanent
  | s_requested u addresses ip name secret endpoints answer :
      cleared u → validateAddresses (DestinationVersion.NetworkPolicy d) addresses = Some ip →
      DestinationVersion.SecretRef d = "env:" +:+ name →
      sent (EvLookup (Hostname u) (Ok addresses) :: EvSecret name (Some secret) ::
            EvRequest (request sender order task d u secret) :: dials u ip endpoints)
        (match answer with Err deadline => failed deadline | Ok response => (response, None) end).

Lemma HasPrefix_split p s :
  HasPrefix s p = true → s = p +:+ from_index (String.length p) s.
Proof.
  unfold HasPrefix. revert s. induction p as [|c p IH]; intros [|c' s] Hp; try done.
  simpl in Hp. destruct (Ascii.ascii_dec c c') as [->|]; [|done].
  change (String c' s = String c' (p +:+ from_index (String.length p) s)). f_equal. by apply IH.
Qed.

Lemma Resolve_cases reference w r t w' :
  Resolve reference w = (r, t, w') →
  (r = None ∧ (t = [] ∨ ∃ name v, t = [EvSecret name v])) ∨
  ∃ name secret, r = Some secret ∧ t = [EvSecret name (Some secret)] ∧
    reference = "env:" +:+ name.
Proof.
  unfold Resolve. advance.
  destruct (HasPrefix reference "env:") eqn:Hp; [|answered; auto].
  destruct (String.eqb (from_index 4 reference) "") eqn:Hn; [answered; auto|].
  destruct (LookupEnv_ (from_index 4 reference) w) as [[v|] w1]; [|answered; eauto 10].
  destruct (String.eqb v "") eqn:Hv; answered; [eauto 10|].
  right. exists (from_index 4 reference), v. split_and!; [done|done|].
  by apply (HasPrefix_split "env:").
Qed.

Ltac refused := constructor; intros ? []; simplify_eq; first [lia|congruence].

Lemma Send_sent w ans t w' : Send sender order task d w = (ans, t, w') → sent t ans.
Proof.
  unfold Send. advance.
  destruct (Z.leb_spec (DestinationVersion.RequestTimeout d) 0); [answered; refused|].
  destruct (validateURL _) as [u|] eqn:Hu; [|answered; refused].
  destruct (IsSupportedOutboundMethod _) eqn:Hm; [|answered; refused].
  destruct (containsFold _ _) eqn:Hc; [|answered; refused].
  destruct (validateStoredHeaders _ _) eqn:Hh; [|answered; refused].
  destruct (validatePolicy _ _ _) eqn:Hp; [|answered; refused].
  assert (Hcl : cleared u) by by constructor.
  destruct (LookupIP_ _ w) as [[addresses|dl] w1]; [|answered; by constructor].
  destruct (validateAddresses _ _) as [ip|] eqn:Hv; [|answered; by constructor].
  destruct (Resolve _ w1) as [[r tr] w2] eqn:Er.
  apply Resolve_cases in Er as [[-> Htr]|(name & secret & -> & -> & Href)].
  { answered. rewrite app_nil_r. by eapply s_no_secret. }
  destruct (valid_method _) eqn:Hvm; [|answered; by eapply s_bad_method].
  unfold do_request. destruct (Do_ _ w2) as [[endpoints answer] w3]. answered.
  rewrite app_nil_r. by apply (s_requested u addresses ip name secret endpoints answer).
Qed.

Lemma dials_inv u ip endpoints e :
  e ∈ dials u ip endpoints → e = EvDial ip (dial_port u).
Proof.
  unfold dials. rewrite list_elem_of_fmap. intros ([ip' port] & -> & Hin).
  apply list_elem_of_omap in Hin as (a & _ & Ha). unfold dial_context in Ha.
  destruct a as [[host dialPort]|]; [|done]. simpl in Ha. by case_match; simplify_eq.
Qed.

Lemma validateAddresses_head policy addresses ip :
  validateAddresses policy addresses = Some ip → head addresses = Some ip.
Proof. destruct addresses; [done|]. simpl. by repeat case_match. Qed.

Lemma validateAddresses_public policy addresses ip :
  policy ≠ testNetworkPolicy → validateAddresses policy addresses = Some ip →
  Forall (Forall is_byte) addresses →
  Forall (λ a, ∃ x, AddrFromSlice a = Some x ∧ ¬ reserved x) addresses.
Proof.
  intros Hp Hv Hb. unfold validateAddresses in Hv. destruct addresses as [|a0 l]; [done|].
  rewrite (proj2 (String.eqb_neq _ _)) in Hv by done.
  destruct (existsb forbidden (a0 :: l)) eqn:E; [done|]. clear Hv ip.
  rewrite Forall_forall in Hb |- *. intros a Ha. pose proof (forbidden_reserved a (Hb a Ha)) as Hr.
  assert (forbidden a = false) as Hf.
  { apply not_true_is_false. intros Ht.
    assert (existsb forbidden (a0 :: l) = true); [|congruence].
    apply existsb_exists. exists a. split; [by apply list_elem_of_In|done]. }
  rewrite Hf in Hr. destruct (AddrFromSlice a) as [x|]; [|by destruct Hr as [_ Hr]; discriminate (Hr I)].
  exists x. split; [done|]. intros Hx. by apply Hr in Hx.
Qed.

(** C12: the network boundary: every connection an attempt opens is an HTTPS
    one to the first address the destination's host resolved to in this very
    attempt, on the port of the registered URL; under the public policy none
    of the resolved addresses is reserved, and the only other policy is the
    test one, for a sender in test mode and the test host. *)
Theorem connections_stay_inside_boundary w ans t w' ip port :
  Send sender order task d w = (ans, t, w') →
  (∀ h addresses, EvLookup h (Ok addresses) ∈ t → Forall (Forall is_byte) addresses) →
  EvDial ip port ∈ t →
  ∃ u addresses, validateURL (DestinationVersion.URL d) = Some u ∧
    Url.Scheme u = bytes_of "https" ∧ EvLookup (Hostname u) (Ok addresses) ∈ t ∧
    head addresses = Some ip ∧ port = dial_port u ∧
    (DestinationVersion.NetworkPolicy d = "public-internet" ∧
       Forall (λ a, ∃ x, AddrFromSlice a = Some x ∧ ¬ reserved x) addresses ∨
     DestinationVersion.NetworkPolicy d = testNetworkPolicy ∧ testPolicy sender = true ∧
       Hostname u = testHostname sender).
Proof.
  intros Hs%Send_sent Hbytes Hd. destruct Hs as [| | |? ? ? ? ? ? [->|(?&?&->)]| |
    u addresses ip' name secret endpoints answer Hcl Hv]; try (exfalso; set_solver).
  assert (Hin : EvDial ip port ∈ dials u ip' endpoints) by set_solver.
  apply dials_inv in Hin as [= -> ->]. destruct Hcl.
  exists u, addresses. split; [done|]. split_and!.
  - unfold validateURL in cl_url0. destruct (ParseRequestURI _) as [v|]; [|done]. simpl in cl_url0.
    repeat case_match; simplify_eq; to_prop; done.
  - left.
  - by eapply validateAddresses_head.
  - done.
  - unfold validatePolicy in cl_policy0.
    destruct (String.eqb_spec (DestinationVersion.NetworkPolicy d) "public-internet") as [Hpub|].
    + left. split; [done|]. apply (validateAddresses_public (DestinationVersion.NetworkPolicy d) _ ip');
        [by rewrite Hpub|done|].
      apply (Hbytes (Hostname u)). left.
    + case_match; [|done]. to_prop. by right.
Qed.

Definition is_request (e : send_event) : bool := match e with EvRequest _ => true | _ => false end.

(** What the error of an attempt means: a permanent one is decided before
    anything was sent - no request, no connection -; an attempt makes at most
    one request, and exactly one when it reports no error. *)
Theorem permanent_errors_precede_the_request w res err t w' :
  Send sender order task d w = ((res, err), t, w') →
  (∀ e, err = Some e → is_permanent e = true →
     (∀ r, EvRequest r ∉ t) ∧ ∀ ip port, EvDial ip port ∉ t) ∧
  (length (filter (λ e, is_request e = true) t) ≤ 1)%nat ∧
  (err = None → ∃ before r after, t = before ++ EvRequest r :: after ∧
     existsb is_request (before ++ after) = false).
Proof.
  intros Hs%Send_sent. set (a := (res, err)) in Hs. change res with a.1. change err with a.2.
  clearbody a. clear res err.
  assert (Hnil : ∀ u ip l, filter (λ e, is_request e = true) (dials u ip l) = []).
  { intros u ip l. destruct (filter _ _) as [|e k] eqn:E; [done|].
    assert (He : e ∈ filter (λ e, is_request e = true) (dials u ip l)) by (rewrite E; left).
    apply list_elem_of_filter in He as [Hr ->%dials_inv]. done. }
  assert (Hnex : ∀ u ip l, existsb is_request (dials u ip l) = false).
  { intros u ip l. apply not_true_is_false. intros (e & He & Hr)%existsb_exists.
    apply list_elem_of_In, dials_inv in He as ->. done. }
  destruct Hs as [| | |? ? ? ? ? ? [->|(?&?&->)]| |u addresses ip' name secret endpoints answer Hcl Hv];
    try (split_and!; [intros e [= <-]; set_solver|simpl; lia|done]).
  rewrite !filter_cons_False, filter_cons_True, Hnil by done. split_and!.
  - intros e He Hp. destruct answer; simplify_eq/=.
  - simpl; lia.
  - intros _. eexists [_; _], _, _. split; [reflexivity|]. rewrite existsb_app. simpl. apply Hnex.
Qed.

(** *** The headers of the request *)

Lemma stored_headers_ok_spec allowed protected seen l :
  stored_headers_ok allowed protected seen l = true →
  (∀ n v, (n, v) ∈ l → canonical_name n ∈ allowed ∧ canonical_name n ∉ protected ∧
     canonical_name n ∉ seen) ∧
  NoDup (canonical_name <$> l.*1).
Proof.
  revert seen. induction l as [|[n v] l IH]; intros seen; cbn; [intros _; split; [set_solver|constructor]|].
  repeat case_match; try done. intros [Hin Hnd]%IH. to_prop. split.
  - intros n' v' [[= -> ->]|Hl]%elem_of_cons; [done|]. apply Hin in Hl. set_solver.
  - constructor; [|done]. intros Hc. apply list_elem_of_fmap in Hc as (n' & Hn & Hn').
    apply list_elem_of_fmap in Hn' as ([n2 v2] & -> & Hl). apply Hin in Hl. simpl in *. set_solver.
Qed.

Lemma fold_set_other l h k :
  (∀ n v, (n, v) ∈ l → CanonicalMIMEHeaderKey n ≠ k) →
  foldl (λ h '(name, value), header_set name value h) h l !! k = h !! k.
Proof.
  revert h. induction l as [|[n v] l IH]; intros h Hl; [done|]. cbn.
  rewrite IH by (intros; eapply Hl; by right). unfold header_set.
  by rewrite lookup_insert_ne by (eapply Hl; by left).
Qed.

Lemma fold_set_inv l h k v :
  foldl (λ h '(name, value), header_set name value h) h l !! k = Some v →
  h !! k = Some v ∨ ∃ n, (n, v) ∈ l ∧ k = CanonicalMIMEHeaderKey n.
Proof.
  revert h. induction l as [|[n v'] l IH]; intros h; cbn; [by left|]. intros [Hk|(n' & ? & ?)]%IH.
  - unfold header_set in Hk. apply lookup_insert_Some in Hk as [[<- <-]|[_ ?]]; [|by left].
    right. exists n. split; [left|done].
  - right. exists n'. split; [by right|done].
Qed.

Lemma fold_set_in l h n v :
  NoDup (canonical_name <$> l.*1) → (n, v) ∈ l → is_token n = true →
  foldl (λ h '(name, value), header_set name value h) h l !! CanonicalMIMEHeaderKey n = Some v.
Proof.
  intros Hnd Hin Ht. apply list_elem_of_split in Hin as (l1 & l2 & ->).
  rewrite foldl_app. cbn. rewrite fold_set_other; [apply lookup_insert_eq|].
  intros n' v' Hin Heq. destruct (same_key_same_name n n' Ht (eq_sym Heq)) as (_ & Hc & _).
  rewrite !fmap_app, NoDup_app in Hnd. destruct Hnd as (_ & _ & Hnd). rewrite !fmap_cons in Hnd.
  apply NoDup_cons in Hnd as [Hnd _]. apply Hnd. change ((n, v).1) with n. rewrite Hc.
  apply list_elem_of_fmap. exists n'. split; [done|]. apply list_elem_of_fmap. by exists (n', v').
Qed.

(** C28: the headers of the request: the credential just resolved and the
    delivery's own idempotency value under the names the destination
    configures, every caller header unchanged, and nothing else - a caller
    header is there only if it is allowlisted and not protected, so none
    replaces an injected or a framing header. *)
Theorem request_carries_the_right_headers w ans t w' r :
  Send sender order task d w = (ans, t, w') →
  enumerates order (Delivery.CallerHeaders task) → EvRequest r ∈ t →
  (∃ name secret, EvSecret name (Some secret) ∈ t ∧
     DestinationVersion.SecretRef d = "env:" +:+ name ∧
     Request.Header r !! CanonicalMIMEHeaderKey (DestinationVersion.CredentialHeader d) =
       Some secret) ∧
  Request.Header r !! CanonicalMIMEHeaderKey (DestinationVersion.IdempotencyHeader d) =
    Some (Delivery.SupplierIdempotencyValue task) ∧
  (∀ n v, Delivery.CallerHeaders task !! n = Some v → is_token n = true →
     Request.Header r !! CanonicalMIMEHeaderKey n = Some v) ∧
  (∀ k v, Request.Header r !! k = Some v →
     k = CanonicalMIMEHeaderKey (DestinationVersion.CredentialHeader d) ∨
     k = CanonicalMIMEHeaderKey (DestinationVersion.IdempotencyHeader d) ∨
     ∃ n, Delivery.CallerHeaders task !! n = Some v ∧ k = CanonicalMIMEHeaderKey n ∧
       canonical_name n ∈ allowed_names d ∧ canonical_name n ∉ protected_names d).
Proof.
  intros Hs%Send_sent Horder Hr. destruct Hs as [| | |? ? ? ? ? ? [->|(?&?&->)]| |
    u addresses ip name secret endpoints answer [_ _ _ _ Hh _] Hv Href]; try (exfalso; set_solver).
  assert (r = request sender order task d u secret) as ->.
  { apply elem_of_cons in Hr as [|Hr]; [done|]. apply elem_of_cons in Hr as [|Hr]; [done|].
    apply elem_of_cons in Hr as [[=]|Hr%dials_inv]; done. }
  unfold validateStoredHeaders in Hh. case_match eqn:Hinj; [done|]. to_prop.
  apply stored_headers_ok_spec in Hh as [Hok Hnd].
  assert (Hlook : ∀ n v, (n, v) ∈ order ↔ Delivery.CallerHeaders task !! n = Some v).
  { intros n v. rewrite Horder. apply elem_of_map_to_list. }
  unfold request, request_headers. cbn [Request.Header].
  set (cred := DestinationVersion.CredentialHeader d) in *.
  set (idem := DestinationVersion.IdempotencyHeader d) in *.
  assert (Hne : CanonicalMIMEHeaderKey cred ≠ CanonicalMIMEHeaderKey idem).
  { intros Heq. destruct (CanonicalMIMEHeaderKey_inj _ _ Heq) as [Heq'|(_ & Ht & _)];
      [rewrite Heq', EqualFold_refl in *; done|].
    destruct (same_key_same_name idem cred Ht) as (_ & _ & _ & ?); [done|congruence]. }
  split_and!.
  - exists name, secret. split_and!; [right; left|done|]. apply lookup_insert_eq.
  - unfold header_set at 1. rewrite lookup_insert_ne by done. apply lookup_insert_eq.
  - intros n v Hn Ht. apply Hlook in Hn. destruct (Hok n v Hn) as (_ & Hprot & _).
    unfold header_set. rewrite !lookup_insert_ne.
    + by apply fold_set_in.
    + intros Heq. destruct (same_key_same_name n idem Ht (eq_sym Heq)) as (_ & _ & Hl & _).
      apply Hprot. rewrite Hl. unfold protected_names. set_solver.
    + intros Heq. destruct (same_key_same_name n cred Ht (eq_sym Heq)) as (_ & _ & Hl & _).
      apply Hprot. rewrite Hl. unfold protected_names. set_solver.
  - unfold header_set at 1 2. intros k v [[<- _]|[_ Hk]]%lookup_insert_Some; [by left|].
    apply lookup_insert_Some in Hk as [[<- _]|[_ Hk]]; [by right; left|]. right; right.
    apply fold_set_inv in Hk as [Hk|(n & Hn & ->)]; [done|].
    exists n. rewrite <- Hlook. destruct (Hok n v Hn) as (? & ? & _). done.
Qed.
End attempts.

(** ** Fragments *)

Lemma setPath_fragment scheme user host rest query u :
  setPath scheme user host rest query = Some u → Url.Fragment u = [].
Proof. unfold setPath. intros (path & _ & [= <-])%bind_Some. done. Qed.

Lemma ParseRequestURI_fragment `{IpLiteral} raw u :
  ParseRequestURI raw = Some u → Url.Fragment u = [].
Proof.
  unfold ParseRequestURI. do 3 (case_match; [intros; by simplify_eq/=|]).
  intros (found & _ & Hp)%bind_Some. case_match. case_match.
  case_match; [case_match; by simplify_eq/=|].
  case_match; [|by eapply setPath_fragment]. case_match.
  apply bind_Some in Hp as ([user host] & _ & Hp). by eapply setPath_fragment.
Qed.

(** The check on the fragment never refuses anything: the parser does not
    split one off, so a URL with a fragment is accepted and the fragment is
    part of the path that is requested. *)
Theorem fragments_are_not_refused `{IpLiteral} :
  (∀ raw u, ParseRequestURI raw = Some u → Url.Fragment u = []) ∧
  ∃ u, validateURL "https://supplier.example/notify#token" = Some u ∧
    Url.Path u = bytes_of "/notify#token".
Proof.
  split; [intros raw u; apply ParseRequestURI_fragment|].
  eexists. split; vm_compute; reflexivity.
Qed.

(** ** An attempt *)

#[global] Instance no_ip_literal : IpLiteral := {| parse_ip_literal := λ _, None |}.

(** A world with one public supplier, whose transport once asks for another
    endpoint. *)
#[global] Instance public_world : SenderEnv unit := {|
  LookupIP_ host w := (Ok [[93; 184; 216; 34]; [93; 184; 216; 35]], w);
  LookupEnv_ name w := (if String.eqb name "KEY" then Some "s3cret" else None, w);
  Do_ r w := (([Some ("supplier.example", "443"); Some ("other.example", "443")],
               Ok (Result.mk 200 "")), w)
|}.

Definition sender0 : Sender := mkSender false None "fake-supplier.test".

Definition destination_pub : DestinationVersion.t :=
  {| DestinationVersion.DestinationID := "billing";
     DestinationVersion.Version := 1;
     DestinationVersion.URL := "https://supplier.example/notify";
     DestinationVersion.NetworkPolicy := "public-internet";
     DestinationVersion.AllowedMethods := Some ["POST"];
     DestinationVersion.AllowedHeaders := Some ["x-event"];
     DestinationVersion.SecretRef := "env:KEY";
     DestinationVersion.CredentialHeader := "Authorization";
     DestinationVersion.IdempotencyHeader := "Idempotency-Key";
     DestinationVersion.SuccessStatuses := Some [];
     DestinationVersion.RetryStatuses := Some [];
     DestinationVersion.ConnectTimeout := 3 * Second;
     DestinationVersion.RequestTimeout := 15 * Second;
     DestinationVersion.RatePerSecond := DestinationVersion.RatePerSecond destination0;
     DestinationVersion.MaxConcurrency := 1 |}.

Definition task_pub : Delivery.t :=
  Delivery.mk id0 "app" "billing" 1 "POST" {["x-event" := "paid"]} "{}" id0 StatusDelivering 0
    0 (24 * Hour) 0 "w1" id0 None.
Definition order_pub : list (string * string) := map_to_list (Delivery.CallerHeaders task_pub).
Definition sent_pub := Send sender0 order_pub task_pub destination_pub tt.

Lemma run_parts {A B E W} (x : A * B * list E * W) : x = (x.1.1.1, x.1.1.2, x.1.2, x.2).
Proof. by destruct x as [[[? ?] ?] ?]. Qed.

Lemma connections_stay_inside_boundary_witness :
  EvDial [93; 184; 216; 34] "443" ∈ sent_pub.1.2 ∧
  ∃ u addresses, validateURL (DestinationVersion.URL destination_pub) = Some u ∧
    head addresses = Some [93; 184; 216; 34] ∧
    Forall (λ a, ∃ x, AddrFromSlice a = Some x ∧ ¬ reserved x) addresses.
Proof.
  assert (Hd : EvDial [93; 184; 216; 34] "443" ∈ sent_pub.1.2).
  { vm_compute. do 3 right. left. }
  split; [exact Hd|].
  destruct (connections_stay_inside_boundary sender0 order_pub task_pub destination_pub tt
    sent_pub.1.1 sent_pub.1.2 sent_pub.2 [93; 184; 216; 34] "443")
    as (u & addresses & Hu & _ & _ & Hh & _ & [[_ Hf]|[Hp _]]).
  - unfold sent_pub. by destruct (Send _ _ _ _ _) as [[? ?] ?].
  - intros h l. vm_compute. intros Hin.
    repeat (apply elem_of_cons in Hin as [Heq|Hin];
      [first [discriminate Heq|injection Heq as _ ->; repeat constructor; done]|]).
    by apply not_elem_of_nil in Hin.
  - exact Hd.
  - exists u, addresses. auto.
  - discriminate Hp.
Defined.

(** The same attempt for a destination registered without TLS. *)
Definition destination_plain : DestinationVersion.t :=
  {| DestinationVersion.DestinationID := "billing";
     DestinationVersion.Version := 2;
     DestinationVersion.URL := "http://supplier.example/notify";
     DestinationVersion.NetworkPolicy := "public-internet";
     DestinationVersion.AllowedMethods := Some ["POST"];
     DestinationVersion.AllowedHeaders := Some ["x-event"];
     DestinationVersion.SecretRef := "env:KEY";
     DestinationVersion.CredentialHeader := "Authorization";
     DestinationVersion.IdempotencyHeader := "Idempotency-Key";
     DestinationVersion.SuccessStatuses := None;
     DestinationVersion.RetryStatuses := None;
     DestinationVersion.ConnectTimeout := 3 * Second;
     DestinationVersion.RequestTimeout := 15 * Second;
     DestinationVersion.RatePerSecond := DestinationVersion.RatePerSecond destination0;
     DestinationVersion.MaxConcurrency := 1 |}.

Definition sent_plain := Send sender0 order_pub task_pub destination_plain tt.

Lemma permanent_errors_precede_the_request_witness :
  sent_plain.1.1.2 = Some (SendError true false) ∧ (∀ r, EvRequest r ∉ sent_plain.1.2) ∧
  sent_pub.1.1.2 = None ∧ ∃ r, EvRequest r ∈ sent_pub.1.2.
Proof.
  split; [by vm_compute|]. split.
  { destruct (permanent_errors_precede_the_request sender0 order_pub task_pub destination_plain tt
      sent_plain.1.1.1 sent_plain.1.1.2 sent_plain.1.2 sent_plain.2
      (run_parts _)) as (Hn & _). apply (Hn (SendError true false)); by vm_compute. }
  split; [by vm_compute|].
  destruct (permanent_errors_precede_the_request sender0 order_pub task_pub destination_pub tt
    sent_pub.1.1.1 sent_pub.1.1.2 sent_pub.1.2 sent_pub.2 (run_parts _))
    as (_ & _ & Hr). destruct Hr as (before & r & after & Ht & _); [by vm_compute|].
  exists r. rewrite Ht. apply elem_of_app. right. left.
Defined.

Definition request_pub : Request.t :=
  request sender0 order_pub task_pub destination_pub
    (default (Url.mk [] false [] [] [] []) (validateURL (DestinationVersion.URL destination_pub)))
    "s3cret".

Lemma request_carries_the_right_headers_witness :
  Request.Header request_pub !! "Idempotency-Key" = Some id0 ∧
  Request.Header request_pub !! "X-Event" = Some "paid" ∧
  ∃ secret, Request.Header request_pub !! "Authorization" = Some secret.
Proof.
  destruct (request_carries_the_right_headers sender0 order_pub task_pub destination_pub tt
    sent_pub.1.1 sent_pub.1.2 sent_pub.2 request_pub) as ((? & secret & _ & _ & Hs) & Hi & Hc & _).
  - unfold sent_pub. by destruct (Send _ _ _ _ _) as [[? ?] ?].
  - unfold enumerates. reflexivity.
  - vm_compute. do 2 right. left.
  - split; [exact Hi|]. split; [|by exists secret].
    apply (Hc "x-event" "paid"); by vm_compute.
Defined.
