(* ===== verification/Consumer.v ===== *)
(** * internal/worker/rabbit.go

    What the Worker does with one message of the dispatch queue: decode and
    validate the signal, process it, and acknowledge, defer, requeue or
    dead-letter the message.  The message body is what
    [RabbitBroker.publishSignal] (internal/dispatch/rabbit.go) encodes. *)

From S2P Require Import Prelude GoStrings GoUrl Json Model Scenario Dispatch.

Local Open Scope Z_scope.

(** ** The wire format *)

(** [json.Marshal(signal)] *)
Definition marshal_signal (s : Signal.t) : list Z :=
  [123] ++ quote "delivery_id" ++ [58] ++ quote (Signal.DeliveryID s) ++
  [44] ++ quote "generation" ++ [58] ++ bytes_of (FormatInt (Signal.Generation s)) ++
  [44] ++ quote "trace_id" ++ [58] ++ quote (Signal.TraceID s) ++ [125].

Section decoding.
Context `{Unicode}.

(** A string or null into a string field; a number or null into an int64. *)
Definition into_string (old : string) (v : json) : option string :=
  match v with JStr s => Some (string_of s) | JNull => Some old | _ => None end.
Definition into_int64 (old : Z) (v : json) : option Z :=
  match v with JNum n => ParseInt (string_of n) | JNull => Some old | _ => None end.

(** One member into the struct, its key matched without regard to case;
    unknown fields are refused. *)
Definition fill_member (signal : Signal.t) (m : list Z * json) : option Signal.t :=
  let key := string_of m.1 in
  let '(Signal.mk id generation trace) := signal in
  if EqualFold key "delivery_id" then
    id ← into_string id m.2; Some (Signal.mk id generation trace)
  else if EqualFold key "generation" then
    generation ← into_int64 generation m.2; Some (Signal.mk id generation trace)
  else if EqualFold key "trace_id" then
    trace ← into_string trace m.2; Some (Signal.mk id generation trace)
  else None.

Fixpoint fill_members (signal : Signal.t) (ms : list (list Z * json)) : option Signal.t :=
  match ms with
  | [] => Some signal
  | m :: ms => signal ← fill_member signal m; fill_members signal ms
  end.

Definition unmarshal_signal (v : json) : option Signal.t :=
  match v with
  | JObj ms => fill_members (Signal.mk "" 0 "") ms
  | JNull => Some (Signal.mk "" 0 "")
  | _ => None
  end.

(** The second [Decode] must meet the end of the body. *)
Definition decodeSignal (body : list Z) : option Signal.t :=
  match next_value body with
  | Err _ => None
  | Ok (v, rest) =>
      signal ← unmarshal_signal v;
      match skip_ws rest with [] => Some signal | _ => None end
  end.
End decoding.

(** ** One message *)

(** The broker's answers are whether a call succeeded. *)
Class ConsumerEnv (W : Type) := {
  Process_ : Signal.t → W → (bool * option error) * W;
  Defer_ : Signal.t → W → bool * W;
  Ack_ : W → bool * W;
  Nack_ : bool → W → bool * W
}.

Inductive message_event : Type :=
  | EvProcess (signal : Signal.t) (answer : bool * option error)
  | EvDefer (signal : Signal.t) (ok : bool)
  | EvAck (ok : bool)
  | EvNack (requeue ok : bool).

Inductive message_error : Type :=
  | ErrAck
  | ErrNack
  | ErrProcess (e : error)
  | ErrDefer.

Section consumer.
Context `{Unicode} {W : Type} `{ConsumerEnv W}.

Definition nack (requeue : bool) (otherwise : option message_error)
    : Eff message_event W (option message_error) :=
  perform (EvNack requeue) (Nack_ requeue) ≫= λ ok,
  mret (if ok : bool then otherwise else Some ErrNack).

Definition ack : Eff message_event W (option message_error) :=
  perform EvAck Ack_ ≫= λ ok, mret (if ok : bool then None else Some ErrAck).

Definition processMessage (body : list Z) : Eff message_event W (option message_error) :=
  match decodeSignal body with
  | None => nack false None
  | Some signal =>
      if negb (Validate signal) then nack false None
      else
        perform (EvProcess signal) (Process_ signal) ≫= λ '(acknowledge, err),
        match err with
        | Some e => nack true (Some (ErrProcess e))
        | None =>
            if negb acknowledge then
              perform (EvDefer signal) (Defer_ signal) ≫= λ ok,
              if negb ok then nack true (Some ErrDefer) else ack
            else ack
        end
  end.
End consumer.

(** ** Signals survive the queue *)

Section wire.
Context `{Unicode}.

Lemma hex_digit_plain b : hex_digit b = true → plain b.
Proof. unfold hex_digit, plain. rewrite !orb_true_iff, !andb_true_iff, !Z.leb_le. lia. Qed.

Lemma validUUID_plain u : validUUID u = true → Forall plain (bytes_of u).
Proof.
  intros [_ Hu]%validUUID_bytes. eapply Forall_impl; [exact Hu|].
  intros b [->|Hb]; [unfold plain; lia|by apply hex_digit_plain].
Qed.

(** [Forall plain] of a text given in full. *)
Ltac plain_text :=
  let b := fresh in let Hb := fresh in
  apply Forall_forall; intros b Hb; vm_compute in Hb;
  repeat (apply elem_of_cons in Hb as [->|Hb]; [unfold plain; lia|]);
  by apply not_elem_of_nil in Hb.

Lemma parse_object fuel d t :
  0 < d → parse_value (S fuel) d (123 :: 34 :: t) =
  ('(ms, r) ← parse_members fuel (d - 1) (34 :: t); Ok (JObj ms, r)).
Proof. intros Hd. cbn [parse_value skip_ws is_ws Z.eqb Pos.eqb orb]. by rewrite (proj2 (Z.leb_gt d 0)). Qed.

(** A member whose value [text] reads as [v], with more to come or at the end. *)
Lemma parse_member fuel d k text v c rest :
  Forall plain k → parse_value fuel d (text ++ c :: rest) = Ok (v, c :: rest) →
  parse_members (S fuel) d (34 :: k ++ 34 :: 58 :: text ++ c :: rest) =
  if is_ws c then parse_members (S fuel) d (34 :: k ++ 34 :: 58 :: text ++ c :: rest)
  else if c =? 125 then Ok ([(k, v)], rest)
  else if c =? 44 then '(ms, r) ← parse_members fuel d rest; Ok ((k, v) :: ms, r)
  else Err Syntax.
Proof.
  intros Hk Hv. destruct (is_ws c) eqn:Hc; [done|].
  cbn [parse_members skip_ws is_ws Z.eqb Pos.eqb orb negb]. rewrite parse_string_plain by done.
  cbn [mbind result_bind skip_ws is_ws Z.eqb Pos.eqb orb negb]. rewrite Hv.
  cbn [mbind result_bind skip_ws]. by rewrite Hc.
Qed.

Lemma parse_plain_string fuel d v c rest :
  Forall plain v → parse_value (S fuel) d ((34 :: v ++ [34]) ++ c :: rest) = Ok (JStr v, c :: rest).
Proof.
  intros Hv. rewrite <- app_comm_cons, <- app_assoc.
  cbn [parse_value skip_ws is_ws Z.eqb Pos.eqb orb app]. by rewrite parse_string_plain.
Qed.

Lemma parse_nat fuel d n c rest :
  0 ≤ n ≤ max_int64 → ends_number c →
  parse_value (S fuel) d (bytes_of (FormatInt n) ++ c :: rest) =
    Ok (JNum (bytes_of (FormatInt n)), c :: rest).
Proof.
  intros Hn Hc. destruct (FormatInt_nat n Hn) as (b & ds & -> & Hds & Hz & _).
  assert (48 ≤ b ≤ 57) by (by apply Forall_cons in Hds as [? _]).
  cbn [parse_value skip_ws app].
  assert (is_ws b = false) as -> by (unfold is_ws; rewrite !orb_false_iff, !Z.eqb_neq; lia).
  rewrite !(proj2 (Z.eqb_neq b _)) by lia.
  assert (is_digit b = true) as ->
    by (unfold is_digit; rewrite (proj2 (Z.leb_le 48 b)), (proj2 (Z.leb_le b 57)) by lia; done).
  cbn [orb]. change (b :: ds ++ c :: rest) with (b :: ds ++ c :: rest).
  by rewrite parse_number_nat.
Qed.

Lemma marshal_parses s :
  Validate s = true → is_int64 (Signal.Generation s) →
  next_value (marshal_signal s) =
    Ok (JObj [(bytes_of "delivery_id", JStr (bytes_of (Signal.DeliveryID s)));
              (bytes_of "generation", JNum (bytes_of (FormatInt (Signal.Generation s))));
              (bytes_of "trace_id", JStr (bytes_of (Signal.TraceID s)))], []).
Proof.
  intros Hv Hg. unfold Validate in Hv. to_prop.
  assert (Hid : Forall plain (bytes_of (Signal.DeliveryID s))) by by apply validUUID_plain.
  assert (Htr : Forall plain (bytes_of (Signal.TraceID s))) by by apply validUUID_plain.
  assert (Hk1 : Forall plain (bytes_of "delivery_id")) by plain_text.
  assert (Hk2 : Forall plain (bytes_of "generation")) by plain_text.
  assert (Hk3 : Forall plain (bytes_of "trace_id")) by plain_text.
  rewrite (next_value_fuel _ (6 + 2 * length (marshal_signal s))) by lia.
  generalize (2 * length (marshal_signal s))%nat. intros n. unfold marshal_signal.
  rewrite !quote_plain by done.
  replace ([123] ++ _) with (123 :: 34 :: bytes_of "delivery_id" ++ 34 :: 58 ::
    (34 :: bytes_of (Signal.DeliveryID s) ++ [34]) ++ 44 ::
    34 :: bytes_of "generation" ++ 34 :: 58 :: bytes_of (FormatInt (Signal.Generation s)) ++ 44 ::
    34 :: bytes_of "trace_id" ++ 34 :: 58 :: (34 :: bytes_of (Signal.TraceID s) ++ [34]) ++ 125 :: [])
    by (cbn [app]; rewrite <- ?app_assoc; cbn [app]; rewrite <- ?app_assoc; done).
  assert (Hn : 0 ≤ Signal.Generation s ≤ max_int64) by (unfold is_int64 in Hg; lia).
  assert (Hc : ends_number 44) by done.
  change (6 + n)%nat with (S (S (S (S (S (S n)))))).
  rewrite parse_object by (unfold maxNestingDepth; lia).
  rewrite (parse_member _ _ _ _ _ _ _ Hk1 (parse_plain_string _ _ _ _ _ Hid)).
  cbn [is_ws Z.eqb Pos.eqb orb].
  rewrite (parse_member _ _ _ _ _ _ _ Hk2 (parse_nat _ _ _ _ _ Hn Hc)).
  cbn [is_ws Z.eqb Pos.eqb orb].
  rewrite (parse_member _ _ _ _ _ _ _ Hk3 (parse_plain_string _ _ _ _ _ Htr)).
  done.
Qed.

Lemma decode_marshal s :
  Validate s = true → is_int64 (Signal.Generation s) →
  decodeSignal (marshal_signal s) = Some s.
Proof.
  intros Hv Hg. unfold decodeSignal. rewrite (marshal_parses s Hv Hg).
  unfold Validate in Hv. to_prop.
  destruct (FormatInt_nat (Signal.Generation s)) as (_ & _ & _ & _ & _ & Hp);
    [unfold is_int64 in Hg; lia|].
  destruct s as [id g trace]. cbn [Signal.DeliveryID Signal.Generation Signal.TraceID] in *.
  assert (EqualFold "generation" "delivery_id" = false) as E1 by by vm_compute.
  assert (EqualFold "trace_id" "delivery_id" = false) as E2 by by vm_compute.
  assert (EqualFold "trace_id" "generation" = false) as E3 by by vm_compute.
  unfold unmarshal_signal, fill_members, fill_member. cbn [fst snd].
  rewrite !string_of_bytes_of, E1, E2, E3, !EqualFold_refl. cbn [into_string into_int64 mbind option_bind].
  rewrite !string_of_bytes_of, Hp. done.
Qed.

(** C15: every valid signal survives the queue: the consumer decodes what the
    publisher encoded to the same signal. *)
Theorem signals_round_trip s :
  Validate s = true → is_int64 (Signal.Generation s) →
  decodeSignal (marshal_signal s) = Some s.
Proof. apply decode_marshal. Qed.
End wire.

(** ** Messages are settled *)

Section settling.
Context `{Unicode} {W : Type} `{ConsumerEnv W}.

(** An acknowledgement or a rejection, as opposed to a call made before. *)
Definition settles (e : message_event) : bool :=
  match e with EvAck _ | EvNack _ _ => true | _ => false end.

(** The ways a message can go. *)
Inductive handled (body : list Z) : list message_event → option message_error → Prop :=
  | h_malformed ok r :
      decodeSignal body = None ∨ (∃ s, decodeSignal body = Some s ∧ Validate s = false) →
      handled body [EvNack false ok] r
  | h_failed s a e ok r :
      decodeSignal body = Some s → Validate s = true →
      handled body [EvProcess s (a, Some e); EvNack true ok] r
  | h_settled s ok r :
      decodeSignal body = Some s → Validate s = true →
      handled body [EvProcess s (true, None); EvAck ok] r
  | h_deferred s ok r :
      decodeSignal body = Some s → Validate s = true →
      handled body [EvProcess s (false, None); EvDefer s true; EvAck ok] r
  | h_not_deferred s ok r :
      decodeSignal body = Some s → Validate s = true →
      handled body [EvProcess s (false, None); EvDefer s false; EvNack true ok] r.

Lemma processMessage_handled body w r t w' :
  processMessage body w = (r, t, w') → handled body t r.
Proof.
  unfold processMessage, nack, ack, mbind, Eff_bind, perform, mret, Eff_ret.
  destruct (decodeSignal body) as [s|] eqn:Hs.
  2: { destruct (Nack_ false w) as [ok w1]. intros [= _ <- _]. apply h_malformed. by left. }
  destruct (Validate s) eqn:Hv; cbn [negb].
  2: { destruct (Nack_ false w) as [ok w1]. intros [= _ <- _]. apply h_malformed. eauto. }
  destruct (Process_ s w) as [[a [e|]] w1].
  { destruct (Nack_ true w1) as [ok w2]. intros [= _ <- _]. by apply h_failed. }
  destruct a; cbn [negb].
  { destruct (Ack_ w1) as [ok w2]. intros [= _ <- _]. by apply h_settled. }
  destruct (Defer_ s w1) as [[] w2]; cbn [negb].
  - destruct (Ack_ w2) as [ok w3]. intros [= _ <- _]. by apply h_deferred.
  - destruct (Nack_ true w2) as [ok w3]. intros [= _ <- _]. by apply h_not_deferred.
Qed.

(** C14: every message is settled exactly once, as the last call: it is
    acknowledged only after its signal was processed to the end or durably
    deferred, dead-lettered exactly when it carries no valid signal - then
    without being processed -, and requeued otherwise. *)
Theorem message_is_settled_once body w r t w' :
  processMessage body w = (r, t, w') →
  ∃ calls last, t = calls ++ [last] ∧ settles last = true ∧ existsb settles calls = false ∧
    (∀ ok, last = EvAck ok → ∃ s, decodeSignal body = Some s ∧ Validate s = true ∧
       (EvProcess s (true, None) ∈ calls ∨
        EvProcess s (false, None) ∈ calls ∧ EvDefer s true ∈ calls)) ∧
    ((∃ ok, last = EvNack false ok) ↔
       decodeSignal body = None ∨ (∃ s, decodeSignal body = Some s ∧ Validate s = false)) ∧
    ((∃ ok, last = EvNack false ok) → calls = []).
Proof.
  intros Hh%processMessage_handled.
  destruct Hh as [ok r Hb|s a e ok r Hs Hv|s ok r Hs Hv|s ok r Hs Hv|s ok r Hs Hv];
    first [eexists [], _; split; [reflexivity|]
          |eexists [_], _; split; [reflexivity|]
          |eexists [_; _], _; split; [reflexivity|]];
    (split; [reflexivity|]; split; [reflexivity|]; split;
      [intros ok' Hl; first [discriminate Hl|exists s; split_and!; [done|done|set_solver]]|]; split;
      [split; [intros [? Hl]; first [discriminate Hl|assumption]
              |intros Hbad; first [by eexists|exfalso; naive_solver congruence]]
      |intros [? Hl]; first [reflexivity|discriminate Hl]]).
Qed.
End settling.

(** ** Witnesses *)

Definition signal_ok : Signal.t := Signal.mk id0 3 id0.

Lemma signals_round_trip_witness :
  Validate signal_ok = true ∧ decodeSignal (marshal_signal signal_ok) = Some signal_ok.
Proof.
  split; [by vm_compute|]. apply signals_round_trip; [by vm_compute|].
  unfold is_int64, min_int64, max_int64, signal_ok. cbn [Signal.Generation]. lia.
Defined.

#[global] Instance busy_broker : ConsumerEnv unit := {|
  Process_ s w := ((false, None), w);
  Defer_ s w := (true, w);
  Ack_ w := (true, w);
  Nack_ requeue w := (true, w)
|}.

Definition deferred_message := processMessage (marshal_signal signal_ok) tt.

Lemma message_is_settled_once_witness :
  ∃ calls, deferred_message.1.2 = calls ++ [EvAck true] ∧ existsb settles calls = false.
Proof.
  destruct (message_is_settled_once (marshal_signal signal_ok) tt deferred_message.1.1
    deferred_message.1.2 deferred_message.2) as (calls & last & Ht & _ & Hc & _).
  - by vm_compute.
  - assert (deferred_message.1.2 =
      [EvProcess signal_ok (false, None); EvDefer signal_ok true] ++ [EvAck true]) as E by by vm_compute.
    rewrite E in Ht |- *. apply app_inj_2 in Ht as [<- _]; [|done].
    eexists. split; [reflexivity|]. exact Hc.
Defined.
