(* ===== verification/Consuming.v ===== *)
(** * RabbitConsumer.Run (internal/worker/rabbit.go)

    The consumer takes messages and starts a goroutine for each; the first
    failure is handed over a channel of capacity one and cancels the others;
    the function returns only after all of them are done.  The interleavings
    of the loop and the goroutines are the runs of a step relation. *)

From S2P Require Import Prelude GoStrings GoUrl Json Model Scenario Dispatch Consumer.

Local Open Scope Z_scope.

(** Why [Run] returns. *)
Inductive run_error : Type :=
  | ContextError
  | Failure (e : message_error)
  | ChannelClosed.

(** The loop, then the deferred function, then the return. *)
Inductive phase : Type :=
  | Looping
  | Leaving (r : run_error)
  | Returned (r : run_error).

(** [taken]: the messages received, numbered in order; [running]: the
    goroutines at work; [finished]: their results, in order of completion;
    [failures]: the channel. *)
Record run_state := RunState {
  taken : list (list Z);
  running : list nat;
  finished : list (nat * option message_error);
  failures : option message_error;
  run_cancelled : bool;
  run_phase : phase
}.

Definition run_start : run_state := RunState [] [] [] None false Looping.

(** The end of a goroutine: a failure goes into the channel if it has room,
    and then cancels the run. *)
Definition finish (i : nat) (err : option message_error) (s : run_state) : run_state :=
  let goroutines := filter (λ j, j ≠ i) (running s) in
  let results := finished s ++ [(i, err)] in
  match err, failures s with
  | Some e, None => RunState (taken s) goroutines results (Some e) true (run_phase s)
  | _, _ => RunState (taken s) goroutines results (failures s) (run_cancelled s) (run_phase s)
  end.

(** Leaving the loop cancels the run. *)
Definition leave (r : run_error) (left_over : option message_error) (s : run_state) : run_state :=
  RunState (taken s) (running s) (finished s) left_over true (Leaving r).

Section run.
Context `{Unicode} {W : Type} `{ConsumerEnv W}.

(** The results [processMessage] can have. *)
Definition processes (body : list Z) (err : option message_error) : Prop :=
  ∃ w t w', processMessage body w = (err, t, w').

Inductive run_step : run_state → run_state → Prop :=
  | rs_context s :
      run_phase s = Looping → run_step s (leave ContextError (failures s) s)
  | rs_failure s e :
      run_phase s = Looping → failures s = Some e → run_step s (leave (Failure e) None s)
  | rs_closed s :
      run_phase s = Looping → run_step s (leave ChannelClosed (failures s) s)
  | rs_message s body :
      run_phase s = Looping →
      run_step s (RunState (taken s ++ [body]) (length (taken s) :: running s) (finished s)
                    (failures s) (run_cancelled s) Looping)
  | rs_finish s i body err :
      i ∈ running s → taken s !! i = Some body → processes body err →
      run_step s (finish i err s)
  | rs_return s r :
      run_phase s = Leaving r → running s = [] →
      run_step s (RunState (taken s) [] (finished s) (failures s) (run_cancelled s) (Returned r)).

(** *** Invariant *)

(** The first failure among the results. *)
Definition first_failure (l : list (nat * option message_error)) : option message_error :=
  head (omap snd l).

Record run_inv (s : run_state) : Prop := {
  ri_once : running s ++ (finished s).*1 ≡ₚ seq 0 (length (taken s));
  ri_outcome : ∀ i err, (i, err) ∈ finished s →
    ∃ body, taken s !! i = Some body ∧ processes body err;
  ri_looping : run_phase s = Looping →
    failures s = first_failure (finished s) ∧ run_cancelled s = bool_decide (failures s ≠ None);
  ri_left : ∀ r, (run_phase s = Leaving r ∨ run_phase s = Returned r) → run_cancelled s = true ∧
    ∀ e, r = Failure e → first_failure (finished s) = Some e;
  ri_returned : ∀ r, run_phase s = Returned r → running s = []
}.

Lemma first_failure_app l k :
  first_failure (l ++ k) = match first_failure l with Some e => Some e | None => first_failure k end.
Proof. unfold first_failure. rewrite omap_app. by destruct (omap snd l). Qed.

Lemma filter_out_Permutation (i : nat) l :
  NoDup l → i ∈ l → l ≡ₚ i :: filter (λ j, j ≠ i) l.
Proof.
  intros Hnd Hin. apply list_elem_of_split in Hin as (l1 & l2 & ->).
  apply NoDup_app in Hnd as (_ & Hd & Hnd). apply NoDup_cons in Hnd as [Hi _].
  assert (Hkeep : ∀ k : list nat, i ∉ k → filter (λ j, j ≠ i) k = k).
  { intros k. induction k as [|j k IH]; [done|]. intros [Hj Hk]%not_elem_of_cons.
    rewrite filter_cons_True by done. by rewrite IH. }
  rewrite filter_app, filter_cons_False by (by intros Hn; apply Hn).
  rewrite (Hkeep l1), (Hkeep l2); [|done|]; [by rewrite <- Permutation_middle|].
  intros Hl. apply (Hd i Hl). left.
Qed.

Lemma finish_fields i err s :
  taken (finish i err s) = taken s ∧ running (finish i err s) = filter (λ j, j ≠ i) (running s) ∧
  finished (finish i err s) = finished s ++ [(i, err)] ∧ run_phase (finish i err s) = run_phase s ∧
  failures (finish i err s) = (match failures s with Some e => Some e | None => err end) ∧
  run_cancelled (finish i err s) =
    match err, failures s with Some _, None => true | _, _ => run_cancelled s end.
Proof. unfold finish. destruct err, (failures s); done. Qed.

Lemma finish_inv s i body err :
  run_inv s → i ∈ running s → taken s !! i = Some body → processes body err →
  run_inv (finish i err s).
Proof.
  intros [Honce Hout Hloop Hleft Hret] Hi Hb Hp.
  destruct (finish_fields i err s) as (Et & Er & Ef & Eph & Efa & Ec).
  assert (Hnd : NoDup (running s ++ (finished s).*1)) by (rewrite Honce; apply NoDup_seq).
  apply NoDup_app in Hnd as (Hnd & _ & _).
  constructor; rewrite ?Et, ?Er, ?Ef, ?Eph, ?Efa, ?Ec.
  - rewrite <- Honce. rewrite (filter_out_Permutation i (running s)) at 2 by done.
    rewrite fmap_app. simpl. rewrite app_assoc. symmetry. apply Permutation_cons_append.
  - intros j e [Hin|[= -> ->]%list_elem_of_singleton]%elem_of_app; eauto.
  - intros Hl. destruct (Hloop Hl) as [Hf Hc]. rewrite first_failure_app, <- Hf.
    destruct (failures s) as [e|] eqn:E.
    + split; [done|]. rewrite Hc. by destruct err.
    + destruct err; [done|]. split; [done|]. by rewrite Hc.
  - intros r Hr. destruct (Hleft r Hr) as [-> Hfirst]. split; [by destruct err, (failures s)|].
    intros e He. by rewrite first_failure_app, (Hfirst e He).
  - intros r Hr. rewrite (Hret r Hr) in Hi. by apply not_elem_of_nil in Hi.
Qed.

Lemma run_step_inv s s' : run_inv s → run_step s s' → run_inv s'.
Proof.
  intros Hinv Hs. destruct Hs as [s Hl|s e Hl Hf|s Hl|s body Hl|s i body err Hi Hb Hp|s r Hl Hrun].
  5: { by eapply finish_inv. }
  all: destruct Hinv as [Honce Hout Hloop Hleft Hret].
  - constructor; simpl; try done. by intros r [[= <-]|[=]].
  - destruct (Hloop Hl) as [Hfirst _]. constructor; simpl; try done.
    intros r [[= <-]|[=]]. split; [done|]. intros e' [= <-]. congruence.
  - constructor; simpl; try done. by intros r [[= <-]|[=]].
  - constructor; simpl; try done.
    + rewrite length_app, seq_app. simpl. rewrite Honce. apply Permutation_cons_append.
    + intros i err Hin. destruct (Hout i err Hin) as (b & Hb & Hp). exists b. split; [|done].
      by apply lookup_app_l_Some.
    + auto.
    + by intros r [[=]|[=]].
  - constructor; simpl; try done; [by rewrite Hrun in Honce|].
    intros r' [[=]|[= <-]]. apply Hleft. by left.
Qed.

Lemma run_start_inv : run_inv run_start.
Proof. constructor; simpl; try done; [set_solver|by intros ? [|]]. Qed.

Lemma run_reachable_inv s : rtc run_step run_start s → run_inv s.
Proof.
  apply (rtc_ind_r run_inv); [apply run_start_inv|]. intros. by eapply run_step_inv.
Qed.

(** C34: the consumer abandons no message: in every interleaving, each message
    it took is processed exactly once; when it returns all of them are, the
    first failure - if it returns a failure - is the one returned, and from
    the first failure on the others are cancelled. *)
Theorem consumer_waits_for_its_messages s :
  rtc run_step run_start s →
  running s ++ (finished s).*1 ≡ₚ seq 0 (length (taken s)) ∧
  (first_failure (finished s) ≠ None → run_cancelled s = true) ∧
  ∀ r, run_phase s = Returned r →
    (finished s).*1 ≡ₚ seq 0 (length (taken s)) ∧
    (∀ i body, taken s !! i = Some body → ∃ err, (i, err) ∈ finished s ∧ processes body err) ∧
    (∀ e, r = Failure e → first_failure (finished s) = Some e).
Proof.
  intros [Honce Hout Hloop Hleft Hret]%run_reachable_inv. split; [done|]. split.
  { intros Hf. destruct (run_phase s) as [|r|r] eqn:Hp.
    - destruct (Hloop eq_refl) as [E ->]. rewrite E. by apply bool_decide_eq_true.
    - apply (Hleft r). by left.
    - apply (Hleft r). by right. }
  intros r Hr. rewrite (Hret r Hr) in Honce. simpl in Honce. split_and!; [done| |].
  - intros i body Hb. assert (Hi : i ∈ (finished s).*1).
    { rewrite Honce. apply elem_of_seq. apply lookup_lt_Some in Hb. lia. }
    apply list_elem_of_fmap in Hi as ([j err] & -> & Hin). exists err. split; [done|].
    destruct (Hout _ _ Hin) as (b & Hb' & Hp). simpl in Hb. congruence.
  - apply (Hleft r). by right.
Qed.

(** Goroutines end, so leaving ends. *)
Lemma leaving_returns s r n :
  inhabited W → run_inv s → run_phase s = Leaving r → length (running s) = n →
  ∃ s', rtc run_step s s' ∧ run_phase s' = Returned r.
Proof.
  intros [w]. revert s. induction (Nat.lt_wf_0 n) as [n _ IH]. intros s Hinv Hr Hn.
  destruct (running s) as [|i l] eqn:Hrun.
  { eexists. split; [apply rtc_once; by apply (rs_return s r)|done]. }
  assert (Hi : i ∈ running s) by (rewrite Hrun; left).
  destruct (taken s !! i) as [body|] eqn:Hb.
  2: { apply lookup_ge_None in Hb. assert (i ∈ seq 0 (length (taken s))) as Hs.
       { rewrite <- (ri_once _ Hinv). apply elem_of_app. by left. }
       apply elem_of_seq in Hs. lia. }
  destruct (processMessage body w) as [[err t] w'] eqn:Hp.
  assert (Hstep : run_step s (finish i err s)) by (eapply rs_finish; [done|done|by exists w, t, w']).
  destruct (finish_fields i err s) as (_ & Er & _ & Eph & _).
  assert (length (running (finish i err s)) < n)%nat.
  { rewrite Er, Hrun, <- Hn. rewrite filter_cons_False by (intros Hne; by apply Hne). simpl.
    pose proof (length_filter (λ j, j ≠ i) l). lia. }
  destruct (IH _ H1 (finish i err s)) as (s' & Hs' & Hd); [by eapply run_step_inv|congruence|done|].
  exists s'. split; [by eapply rtc_l|done].
Qed.

(** The consumer can always stop: whatever it has taken and whatever
    failed, from every state of a run there is a way to its return - no
    goroutine can block on handing over its failure. *)
Theorem consumer_can_always_return s :
  inhabited W → rtc run_step run_start s →
  ∃ s' r, rtc run_step s s' ∧ run_phase s' = Returned r.
Proof.
  intros Hw Hs. apply run_reachable_inv in Hs as Hinv.
  destruct (run_phase s) as [|r|r] eqn:Hp.
  - assert (Hstep : run_step s (leave ChannelClosed (failures s) s)) by by apply rs_closed.
    destruct (leaving_returns (leave ChannelClosed (failures s) s) ChannelClosed _ Hw
      (run_step_inv _ _ Hinv Hstep) eq_refl eq_refl) as (s' & Hs' & Hd).
    exists s', ChannelClosed. split; [by eapply rtc_l|done].
  - destruct (leaving_returns s r _ Hw Hinv Hp eq_refl) as (s' & Hs' & Hd). eauto.
  - exists s, r. split; [apply rtc_refl|done].
Qed.
End run.

(** ** A run *)

(** A malformed message that the broker does not take back, so that the run
    fails. *)
#[local] Instance deaf_broker : ConsumerEnv unit := {|
  Process_ s w := ((true, None), w);
  Defer_ s w := (false, w);
  Ack_ w := (true, w);
  Nack_ requeue w := (false, w)
|}.

Definition run_one : run_state := RunState [[]] [0%nat] [] None false Looping.
Definition run_failed : run_state := finish 0 (Some ErrNack) run_one.
Definition run_over : run_state := leave (Failure ErrNack) None run_failed.
Definition run_returned : run_state :=
  RunState [[]] [] (finished run_over) None true (Returned (Failure ErrNack)).

Lemma run_one_reachable : rtc run_step run_start run_one.
Proof. apply rtc_once. by apply (rs_message run_start []). Qed.

Lemma run_returned_reachable : rtc run_step run_start run_returned.
Proof.
  etrans; [apply run_one_reachable|].
  eapply rtc_l; [apply (rs_finish run_one 0 [] (Some ErrNack)); [left|done|]|].
  { exists tt. do 2 eexists. vm_compute. reflexivity. }
  eapply rtc_l; [by apply (rs_failure run_failed ErrNack)|]. apply rtc_once.
  by apply (rs_return run_over (Failure ErrNack)).
Qed.

Lemma consumer_waits_for_its_messages_witness :
  (finished run_returned).*1 ≡ₚ seq 0 1 ∧ first_failure (finished run_returned) = Some ErrNack.
Proof.
  destruct (consumer_waits_for_its_messages run_returned run_returned_reachable) as (_ & _ & Hr).
  destruct (Hr _ eq_refl) as (Hp & _ & Hf). split; [exact Hp|]. by apply Hf.
Defined.

Lemma consumer_can_always_return_witness :
  ∃ s' r, rtc run_step run_one s' ∧ run_phase s' = Returned r.
Proof.
  apply (consumer_can_always_return run_one); [exact (inhabits tt)|apply run_one_reachable].
Defined.
