(* ===== verification/Http.v ===== *)
(** * internal/delivery/http.go and submission_metrics.go

    The HTTP API over the store: what is read from a request, every check in
    its order, the answer to every error, and the submission counters.  A
    handler runs among other requests: before each of its store calls the
    others may have changed the database.  An answer is what its JSON text is
    made of; the text is in Answers. *)

From S2P Require Import Prelude GoStrings GoUrl Json Model Database Store Replay Worker Hash Netip Outbound.

Local Open Scope Z_scope.

Definition maxDeliveryPayloadBytes : Z := 256 * 1024.
Definition maxSubmissionJSONBytes : Z := 512 * 1024.
Definition statusAttemptLimit : Z := 20.

(** ** Requests and answers *)

(** What the handlers read: two headers, the body, and the path's id. *)
Module HttpRequest.
Record t := mk {
  Authorization : string;
  IdempotencyKey : string;
  Body : list Z;
  PathID : string
}.
End HttpRequest.

Module attemptSummaryResponse.
Record t := mk {
  Generation : Z;
  ResultClass : ResultClass;
  ResponseStatus : option Z;
  ErrorCategory : option string;
  StartedAt : Z;
  FinishedAt : Z
}.
End attemptSummaryResponse.

Module deliveryResponse.
Record t := mk {
  ID : string;
  Status : Status;
  DestinationID : string;
  DestinationVersion : Z;
  Generation : Z;
  AcceptedAt : Z;
  NextAttemptAt : Z;
  RetryDeadline : Z;
  Attempts : option (list attemptSummaryResponse.t)
}.
End deliveryResponse.

Definition responseFromDelivery (delivery : Delivery.t) : deliveryResponse.t :=
  {| deliveryResponse.ID := Delivery.ID delivery;
     deliveryResponse.Status := Delivery.Status delivery;
     deliveryResponse.DestinationID := Delivery.DestinationID delivery;
     deliveryResponse.DestinationVersion := Delivery.DestinationVersion delivery;
     deliveryResponse.Generation := Delivery.Generation delivery;
     deliveryResponse.AcceptedAt := Delivery.AcceptedAt delivery;
     deliveryResponse.NextAttemptAt := Delivery.NextAttemptAt delivery;
     deliveryResponse.RetryDeadline := Delivery.RetryDeadline delivery;
     deliveryResponse.Attempts := None |}.

(** [writeError] and [writeJSON]: a status with an error code or a payload. *)
Inductive content : Type :=
  | ErrorCode (code message : string)
  | Payload (p : deliveryResponse.t).

Module Response.
Record t := mk {
  Status : Z;
  RetryAfter : option string;
  Content : content
}.
End Response.

Definition writeError (status : Z) (code message : string) : Response.t :=
  Response.mk status None (ErrorCode code message).
Definition writeJSON (status : Z) (p : deliveryResponse.t) : Response.t :=
  Response.mk status None (Payload p).
Definition internalError : Response.t := writeError 503 "service_unavailable" "service is temporarily unavailable".

(** ** Bodies *)

Definition is_container (v : json) : bool :=
  match v with JArr _ | JObj _ => true | _ => false end.

Inductive body_error : Type := TooLarge | Malformed.

(** The first [Decode] behind [http.MaxBytesReader], and whether
    [ensureJSONEOF] then meets the end of the body.  A value that is complete
    within the limit is decoded even when the body goes on beyond it; only a
    container shows its end without one more byte. *)
Definition decode_limited (limit : Z) (body : list Z) : result body_error (json * bool) :=
  let visible := take (Z.to_nat limit) body in
  let truncated := limit <? Z.of_nat (length body) in
  match next_value visible with
  | Err UnexpectedEnd => Err (if truncated then TooLarge else Malformed)
  | Err Syntax => Err Malformed
  | Ok (v, rest) =>
      if truncated && bool_decide (rest = []) && negb (is_container v) then Err TooLarge
      else Ok (v, bool_decide (skip_ws rest = []) && negb truncated)
  end.

(** [base64.StdEncoding.DecodeString]: line ends are skipped. *)
Definition base64_value (b : Z) : option Z :=
  if (65 <=? b) && (b <=? 90) then Some (b - 65)
  else if (97 <=? b) && (b <=? 122) then Some (b - 71)
  else if is_digit b then Some (b + 4)
  else if b =? 43 then Some 62
  else if b =? 47 then Some 63
  else None.

Fixpoint base64_quads (l : list Z) : option (list Z) :=
  match l with
  | [] => Some []
  | a :: b :: c :: d :: rest =>
      x ← base64_value a;
      y ← base64_value b;
      let first := Z.lor (Z.shiftl x 2) (Z.shiftr y 4) in
      if c =? 61 then
        if (d =? 61) && bool_decide (rest = []) then Some [first] else None
      else
        z ← base64_value c;
        let second := Z.lor (Z.shiftl (Z.land y 15) 4) (Z.shiftr z 2) in
        if d =? 61 then
          if bool_decide (rest = []) then Some [first; second] else None
        else
          w ← base64_value d;
          more ← base64_quads rest;
          Some (first :: second :: Z.lor (Z.shiftl (Z.land z 3) 6) w :: more)
  | _ => None
  end.

Definition base64_decode (s : list Z) : option (list Z) :=
  base64_quads (filter (λ b, negb ((b =? 10) || (b =? 13)) = true) s).

(** [submissionRequest]; an absent [headers] member is [None]. *)
Module submissionRequest.
Record t := mk {
  DestinationID : string;
  Method : string;
  Headers : option json;
  BodyBase64 : list Z
}.
End submissionRequest.

Section handlers.
Context `{Unicode, Postgres}.

(** A string field of a decoded object; null leaves it as it was. *)
Definition string_field (old : list Z) (v : json) : option (list Z) :=
  match v with JStr s => Some s | JNull => Some old | _ => None end.

Definition submission_member (r : submissionRequest.t) (m : list Z * json)
    : option submissionRequest.t :=
  let key := string_of m.1 in
  let '(submissionRequest.mk destination method headers body) := r in
  if EqualFold key "destination_id" then
    s ← string_field (bytes_of destination) m.2;
    Some (submissionRequest.mk (string_of s) method headers body)
  else if EqualFold key "method" then
    s ← string_field (bytes_of method) m.2;
    Some (submissionRequest.mk destination (string_of s) headers body)
  else if EqualFold key "headers" then
    Some (submissionRequest.mk destination method (Some m.2) body)
  else if EqualFold key "body_base64" then
    s ← string_field body m.2;
    Some (submissionRequest.mk destination method headers s)
  else None.

Definition reason_member (reason : list Z) (m : list Z * json) : option (list Z) :=
  if EqualFold (string_of m.1) "reason" then string_field reason m.2 else None.

Fixpoint fill {A B} (f : A → B → option A) (a : A) (l : list B) : option A :=
  match l with
  | [] => Some a
  | b :: l => a ← f a b; fill f a l
  end.

(** A struct from a value: an object fills it, null leaves it zero. *)
Definition unmarshal {A} (f : A → list Z * json → option A) (zero : A) (v : json) : option A :=
  match v with
  | JObj ms => fill f zero ms
  | JNull => Some zero
  | _ => None
  end.

(** The loop of [decodeCallerHeaders] over the members of the object. *)
Fixpoint caller_headers (seen : gset string) (headers : gmap string string)
    (ms : list (list Z * json)) : option (gmap string string) :=
  match ms with
  | [] => Some headers
  | (k, v) :: ms =>
      let name := string_of k in
      let canonical := canonical_name name in
      if bool_decide (canonical ∈ seen) then None
      else
        value ← string_field [] v;
        caller_headers ({[canonical]} ∪ seen) (<[name := string_of value]> headers) ms
  end.

Definition decodeCallerHeaders (raw : option json) : option (gmap string string) :=
  match raw with
  | None | Some JNull => Some ∅
  | Some (JObj ms) => caller_headers ∅ ∅ ms
  | Some _ => None
  end.

(** ** Checks *)

(** The error of the first header, in the order the map is visited, that is
    protected or not allowed. *)
Fixpoint validateCallerHeaders (headers : list (string * string))
    (destination : DestinationVersion.t) : option string :=
  match headers with
  | [] => None
  | (name, _) :: headers =>
      if bool_decide (name ∈ protected_names destination)
      then Some "caller attempted to set a protected Header"
      else if negb (bool_decide (name ∈ allowed_names destination))
      then Some "caller Header is not allowlisted"
      else validateCallerHeaders headers destination
  end.

(** This package's [containsFold] does not trim the candidate. *)
Definition containsFold (values : list string) (candidate : string) : bool :=
  existsb (λ value, EqualFold (TrimSpace value) candidate) values.

Definition payloadSize (headers : gmap string string) (body : list Z) : Z :=
  foldl (λ size '(name, value), size + len name + len value) (Z.of_nat (length body))
    (map_to_list headers).

(** ** What a handler meets

    The outcomes of the calls of its n-th store operation, the clocks of the
    statements, the random source, the process clock, what other requests did
    to the database before the n-th operation, and the orders in which maps
    are visited. *)

Record api_env := ApiEnv {
  e_io : nat → IO;
  e_clock : nat → clock;
  e_random : random;
  e_now : Z;
  e_others : nat → DB → DB;
  e_visit : nat → gmap string string → list (string * string);
  e_keys : gmap string string → list string
}.

(** [NewAPI] needs a store; a nil logger is replaced. *)
Definition NewAPI (store_nil : bool) : bool := negb store_nil.

Definition bearer : string := "Bearer ".

(** [authenticatePrincipal]: the principal, or the answer already written. *)
Definition authenticatePrincipal (env : api_env) (request : HttpRequest.t) (db : DB)
    : result Response.t Principal.t :=
  let authorization := HttpRequest.Authorization request in
  if negb (HasPrefix authorization bearer) || (len authorization =? len bearer)
  then Err (writeError 401 "unauthorized" "valid caller authentication is required")
  else match AuthenticatePrincipal (e_io env 0) (from_index 7 authorization) db with
  | Ok principal => Ok principal
  | Err ErrUnauthorized => Err (writeError 401 "unauthorized" "valid caller authentication is required")
  | Err _ => Err internalError
  end.

Definition authenticate (env : api_env) (request : HttpRequest.t) (db : DB)
    : result Response.t string :=
  match authenticatePrincipal env request db with
  | Err response => Err response
  | Ok principal => Ok (Principal.CallerID principal)
  end.

(** The part of [submit] before the destination is looked up: key, input,
    canonical headers, body. *)
Definition read_submission (env : api_env) (request : HttpRequest.t)
    : result Response.t (string * submissionRequest.t * gmap string string * list Z) :=
  let idempotencyKey := TrimSpace (HttpRequest.IdempotencyKey request) in
  if String.eqb idempotencyKey "" || (200 <? len idempotencyKey)
  then Err (writeError 400 "invalid_idempotency_key" "Idempotency-Key is required")
  else match decode_limited maxSubmissionJSONBytes (HttpRequest.Body request) with
  | Err TooLarge => Err (writeError 413 "payload_too_large" "request exceeds size limit")
  | Err Malformed => Err (writeError 400 "invalid_request" "request body is invalid")
  | Ok (v, at_end) =>
      match unmarshal submission_member (submissionRequest.mk "" "" None []) v with
      | None => Err (writeError 400 "invalid_request" "request body is invalid")
      | Some input =>
          if negb at_end
          then Err (writeError 400 "invalid_request" "request body must contain one JSON value")
          else match decodeCallerHeaders (submissionRequest.Headers input) with
          | None => Err (writeError 400 "invalid_headers" "caller Header names must be unique")
          | Some callerHeaders =>
              match base64_decode (submissionRequest.BodyBase64 input) with
              | None => Err (writeError 400 "invalid_body_encoding" "body_base64 is invalid")
              | Some body =>
                  match CanonicalCallerHeaders (e_visit env 0 callerHeaders) with
                  | Err _ => Err (writeError 400 "invalid_headers" "caller Header names must be unique")
                  | Ok canonicalHeaders =>
                      if maxDeliveryPayloadBytes <? payloadSize canonicalHeaders body
                      then Err (writeError 413 "payload_too_large" "Header and Body payload exceeds 256 KiB")
                      else Ok (idempotencyKey, input, canonicalHeaders, body)
                  end
              end
          end
      end
  end.

(** The part between the destination and the store: the submission. *)
Definition make_submission (env : api_env) (callerID idempotencyKey : string)
    (input : submissionRequest.t) (headers : gmap string string) (body : list Z)
    (destination : DestinationVersion.t) : result Response.t Submission.t :=
  let method := ToUpper (TrimSpace (submissionRequest.Method input)) in
  if negb (IsSupportedOutboundMethod method) ||
     negb (containsFold (elems (DestinationVersion.AllowedMethods destination)) method)
  then Err (writeError 400 "method_not_allowed" "method is not allowed for destination")
  else match validateCallerHeaders (e_visit env 2 headers) destination with
  | Some message => Err (writeError 400 "header_not_allowed" message)
  | None =>
  match RequestHash (e_visit env 1 headers) (e_keys env)
               (HashInput.mk (DestinationVersion.DestinationID destination)
                  (DestinationVersion.Version destination) method headers (string_of body)) with
  | Err _ => Err (writeError 400 "invalid_request" "request cannot be canonicalized")
  | Ok requestHash =>
      Ok {| Submission.CallerID := callerID;
            Submission.IdempotencyKey := idempotencyKey;
            Submission.RequestHash := string_of requestHash;
            Submission.DestinationID := DestinationVersion.DestinationID destination;
            Submission.DestinationVersion := DestinationVersion.Version destination;
            Submission.Method := method;
            Submission.CallerHeaders := headers;
            Submission.Body := string_of body;
            Submission.SupplierIdempotencyValue := "";
            Submission.AcceptedAt := e_now env;
            Submission.RetryDeadline := e_now env + 24 * Hour |}
  end
  end.

(** ** POST /deliveries *)

Definition answer_submit (r : result error Delivery.t) : Response.t :=
  match r with
  | Ok delivery => writeJSON 202 (responseFromDelivery delivery)
  | Err ErrIdempotencyConflict => writeError 409 "idempotency_conflict" "Idempotency-Key was reused with different content"
  | Err ErrBacklogCapacity =>
      Response.mk 503 (Some "60") (ErrorCode "backlog_capacity_exceeded" "active delivery backlog is full")
  | Err _ => internalError
  end.

Definition submit (store : Store) (env : api_env) (request : HttpRequest.t) (db : DB)
    : Response.t * DB :=
  let db := e_others env 0 db in
  match authenticate env request db with
  | Err response => (response, db)
  | Ok callerID =>
      match read_submission env request with
      | Err response => (response, db)
      | Ok (idempotencyKey, input, headers, body) =>
          let db := e_others env 1 db in
          match AuthorizedDestination (e_io env 1) callerID
                  (submissionRequest.DestinationID input) db with
          | Err ErrDestinationDenied => (writeError 403 "destination_forbidden" "destination is not authorized", db)
          | Err _ => (internalError, db)
          | Ok destination =>
              match make_submission env callerID idempotencyKey input
                      headers body destination with
              | Err response => (response, db)
              | Ok submission =>
                  let '(r, db) := Submit store (e_io env 2) (e_clock env) (e_random env)
                                    submission (e_others env 2 db) in
                  (answer_submit r, db)
              end
          end
      end
  end.

(** ** GET /deliveries/{id} *)

Definition attempt_response (a : AttemptSummary.t) : attemptSummaryResponse.t :=
  {| attemptSummaryResponse.Generation := AttemptSummary.Generation a;
     attemptSummaryResponse.ResultClass := AttemptSummary.ResultClass a;
     attemptSummaryResponse.ResponseStatus := AttemptSummary.ResponseStatus a;
     attemptSummaryResponse.ErrorCategory := AttemptSummary.ErrorCategory a;
     attemptSummaryResponse.StartedAt := AttemptSummary.StartedAt a;
     attemptSummaryResponse.FinishedAt := AttemptSummary.FinishedAt a |}.

Definition with_attempts (p : deliveryResponse.t) (attempts : list AttemptSummary.t)
    : deliveryResponse.t :=
  {| deliveryResponse.ID := deliveryResponse.ID p;
     deliveryResponse.Status := deliveryResponse.Status p;
     deliveryResponse.DestinationID := deliveryResponse.DestinationID p;
     deliveryResponse.DestinationVersion := deliveryResponse.DestinationVersion p;
     deliveryResponse.Generation := deliveryResponse.Generation p;
     deliveryResponse.AcceptedAt := deliveryResponse.AcceptedAt p;
     deliveryResponse.NextAttemptAt := deliveryResponse.NextAttemptAt p;
     deliveryResponse.RetryDeadline := deliveryResponse.RetryDeadline p;
     deliveryResponse.Attempts := Some (attempt_response <$> attempts) |}.

Definition get (env : api_env) (request : HttpRequest.t) (db : DB) : Response.t * DB :=
  let db := e_others env 0 db in
  match authenticate env request db with
  | Err response => (response, db)
  | Ok callerID =>
      let db := e_others env 1 db in
      match Get (e_io env 1) callerID (HttpRequest.PathID request) db with
      | Err ErrNotFound => (writeError 404 "delivery_not_found" "delivery was not found", db)
      | Err _ => (internalError, db)
      | Ok delivery =>
          let db := e_others env 2 db in
          match ListAttemptSummaries (e_io env 2) callerID
                  (Delivery.ID delivery) statusAttemptLimit db with
          | Err _ => (internalError, db)
          | Ok attempts =>
              (writeJSON 200 (with_attempts (responseFromDelivery delivery) attempts), db)
          end
      end
  end.

(** ** POST /deliveries/{id}/replay *)

Definition answer_replay (r : result error Delivery.t) : Response.t :=
  match r with
  | Ok replayed => writeJSON 202 (responseFromDelivery replayed)
  | Err ErrNotFound => writeError 404 "delivery_not_found" "delivery was not found"
  | Err ErrReplayConflict => writeError 409 "delivery_not_replayable" "delivery is not permanently failed"
  | Err _ => internalError
  end.

(** The reason, or the answer that refuses the body. *)
Definition read_reason (request : HttpRequest.t) : result Response.t string :=
  match decode_limited 4096 (HttpRequest.Body request) with
  | Err _ => Err (writeError 400 "invalid_replay" "replay request is invalid")
  | Ok (v, at_end) =>
      match unmarshal reason_member [] v with
      | None => Err (writeError 400 "invalid_replay" "replay request is invalid")
      | Some input =>
          if negb at_end then Err (writeError 400 "invalid_replay" "replay request is invalid")
          else
            let reason := TrimSpace (string_of input) in
            if String.eqb reason "" || (1000 <? len reason)
            then Err (writeError 400 "invalid_replay_reason" "reason must contain 1 to 1000 bytes")
            else Ok reason
      end
  end.

Definition replay (env : api_env) (request : HttpRequest.t) (db : DB) : Response.t * DB :=
  let db := e_others env 0 db in
  match authenticatePrincipal env request db with
  | Err response => (response, db)
  | Ok principal =>
      if negb (Principal.IsOperator principal) then (writeError 403 "operator_required" "operator authorization is required", db)
      else match read_reason request with
      | Err response => (response, db)
      | Ok reason =>
          let '(r, db) := Replay (e_io env 1) (e_clock env) (e_random env)
                            (HttpRequest.PathID request) (Principal.CallerID principal) reason
                            (e_others env 1 db) in
          (answer_replay r, db)
      end
  end.
End handlers.

(** ** Submission metrics (submission_metrics.go) *)

Module submissionMetrics.
Record t := mk { accepted : Z; rejected : Z }.      (* atomic.Uint64 *)
End submissionMetrics.

Definition observe (status : Z) (m : submissionMetrics.t) : submissionMetrics.t :=
  if status =? 202
  then submissionMetrics.mk ((submissionMetrics.accepted m + 1) mod 2 ^ 64)
         (submissionMetrics.rejected m)
  else submissionMetrics.mk (submissionMetrics.accepted m)
         ((submissionMetrics.rejected m + 1) mod 2 ^ 64).

Definition snapshot (m : submissionMetrics.t) : gmap string Z :=
  <["accepted" := submissionMetrics.accepted m]>
  {["rejected" := submissionMetrics.rejected m]}.

(** [statusResponseWriter]: the status it keeps and what reached the client. *)
Inductive write : Type := WriteHeader (status : Z) | Write.

Definition status_writer (st : Z * list write) (w : write) : Z * list write :=
  let '(status, sent) := st in
  match w with
  | WriteHeader s => if negb (status =? 0) then st else (s, sent ++ [WriteHeader s])
  | Write => if status =? 0 then (200, sent ++ [WriteHeader 200; Write]) else (status, sent ++ [Write])
  end.

(** An answer writes its status and then its body. *)
Definition written (response : Response.t) : Z * list write :=
  foldl status_writer (0, []) [WriteHeader (Response.Status response); Write].

(** The registered handler of POST /deliveries. *)
Definition post_deliveries `{Unicode, Postgres} (store : Store) (env : api_env)
    (request : HttpRequest.t) (m : submissionMetrics.t) (db : DB)
    : Response.t * submissionMetrics.t * DB :=
  let '(response, db) := submit store env request db in
  (response, observe (written response).1 m, db).
