(* ===== verification/Api.v ===== *)
(** * What users of the HTTP API can rely on

    Only a committed submission is answered with 202, a refused request
    changes nothing, the API admits only what the sender will send, status
    stays with its caller, and replay with operators. *)

From S2P Require Import Prelude GoStrings GoUrl Json Utf8 Sha256 Model Database Store Replay Lifecycle Refinement Scenario Reliability Admission Recovery Worker Hash Netip Outbound Http.

Local Open Scope Z_scope.

(** The database after what other requests did before the first [n] calls. *)
Definition before (env : api_env) (n : nat) (db : DB) : DB :=
  foldl (λ db k, e_others env k db) db (seq 0 n).

(** Nobody interferes. *)
Definition alone (env : api_env) : Prop := ∀ n db, e_others env n db = db.

Lemma alone_before env n db : alone env → before env n db = db.
Proof.
  intros Ha. unfold before. generalize (seq 0 n). intros l.
  induction l as [|k l IH]; [done|]. cbn. by rewrite Ha.
Qed.

Section api.
Context `{Unicode, Postgres}.

(** ** The parts of a handler *)

(** The caller a bearer key belongs to. *)
Definition bears (request : HttpRequest.t) (db : DB) (caller : string) (c : caller_row) : Prop :=
  ∃ key, HttpRequest.Authorization request = bearer +:+ key ∧ key ≠ "" ∧
    callers db !! caller = Some c ∧ c_api_key_hash c = Sum256 key.

Lemma authenticatePrincipal_Ok env request db p :
  authenticatePrincipal env request db = Ok p →
  ∃ c, bears request db (Principal.CallerID p) c ∧ Principal.IsOperator p = c_is_operator c.
Proof.
  unfold authenticatePrincipal. case_match eqn:Hc; [done|]. to_prop.
  unfold AuthenticatePrincipal, query_row.
  destruct (e_io env 0 0%nat); [|done].
  destruct (map_find _ _) as [[id c]|] eqn:E; simpl; [|done]. intros [= <-]. simpl.
  apply map_find_Some in E as [Hid Hh]. to_prop. exists c. split; [|done].
  exists (from_index 7 (HttpRequest.Authorization request)).
  match goal with Hp : HasPrefix _ _ = true |- _ => apply (HasPrefix_split bearer) in Hp as Heq end.
  change (String.length bearer) with 7%nat in Heq. split_and!; [done| |done|done].
  intros Hnil. rewrite Hnil in Heq. rewrite Heq in *. done.
Qed.

Lemma authenticatePrincipal_Err env request db r :
  authenticatePrincipal env request db = Err r → 
  r = writeError 401 "unauthorized" "valid caller authentication is required" ∨ r = internalError.
Proof. unfold authenticatePrincipal. intros. repeat case_match; simplify_eq; auto. Qed.

Lemma read_submission_Err env request r :
  read_submission env request = Err r → Response.Status r ∈ [400; 413].
Proof. unfold read_submission. intros. repeat case_match; simplify_eq; set_solver. Qed.

Lemma make_submission_Err env caller key input headers body d r :
  make_submission env caller key input headers body d = Err r → Response.Status r = 400.
Proof. unfold make_submission. intros. repeat case_match; simplify_eq; done. Qed.

(** A request that got as far as the store. *)
Record admitted (env : api_env) (request : HttpRequest.t) (db : DB) (principal : Principal.t)
    (input : submissionRequest.t) (headers : gmap string string) (body : list Z)
    (destination : DestinationVersion.t) (sub : Submission.t) : Prop := {
  ad_principal : authenticatePrincipal env request (before env 1 db) = Ok principal;
  ad_read : read_submission env request =
    Ok (TrimSpace (HttpRequest.IdempotencyKey request), input, headers, body);
  ad_destination : AuthorizedDestination (e_io env 1) (Principal.CallerID principal)
    (submissionRequest.DestinationID input) (before env 2 db) = Ok destination;
  ad_submission : make_submission env (Principal.CallerID principal)
    (TrimSpace (HttpRequest.IdempotencyKey request)) input headers body destination = Ok sub
}.

(** What the body of a request says: it is one JSON value within the limit,
    with this input, whose headers are these in canonical form and whose
    [body_base64] encodes this body. *)
Definition says (env : api_env) (request : HttpRequest.t) (input : submissionRequest.t)
    (headers : gmap string string) (body : list Z) : Prop :=
  ∃ v raw,
    decode_limited maxSubmissionJSONBytes (HttpRequest.Body request) = Ok (v, true) ∧
    unmarshal submission_member (submissionRequest.mk "" "" None []) v = Some input ∧
    decodeCallerHeaders (submissionRequest.Headers input) = Some raw ∧
    CanonicalCallerHeaders (e_visit env 0 raw) = Ok headers ∧
    base64_decode (submissionRequest.BodyBase64 input) = Some body.

(** What a replay request says. *)
Definition gives_reason (request : HttpRequest.t) (reason : string) : Prop :=
  ∃ v input, decode_limited 4096 (HttpRequest.Body request) = Ok (v, true) ∧
    unmarshal reason_member [] v = Some input ∧ reason = TrimSpace (string_of input).

Lemma read_submission_key env request key input headers body :
  read_submission env request = Ok (key, input, headers, body) →
  key = TrimSpace (HttpRequest.IdempotencyKey request) ∧
  payloadSize headers body ≤ maxDeliveryPayloadBytes ∧
  (∃ raw, CanonicalCallerHeaders (e_visit env 0 raw) = Ok headers) ∧
  says env request input headers body.
Proof.
  unfold read_submission. intros. repeat case_match; simplify_eq; to_prop; split_and!; eauto.
  subst. eexists _, _. split_and!; done.
Qed.

(** Refused before the store, or answered from the store's result. *)
Lemma submit_cases store env request db response db' :
  submit store env request db = (response, db') →
  (Response.Status response ≠ 202 ∧
     (db' = before env 1 db ∨ db' = before env 2 db)) ∨
  ∃ principal input headers body destination sub r,
    admitted env request db principal input headers body destination sub ∧
    Submit store (e_io env 2) (e_clock env) (e_random env) sub (before env 3 db) = (r, db') ∧
    response = answer_submit r.
Proof.
  unfold submit, authenticate. destruct (authenticatePrincipal _ _ _) as [principal|r] eqn:Ea.
  2: { intros [= <- <-]. left. split; [|by left].
       by apply authenticatePrincipal_Err in Ea as [->| ->]. }
  destruct (read_submission _ _) as [[[[key input] headers] body]|r] eqn:Er.
  2: { intros [= <- <-]. left. split; [|by left]. apply read_submission_Err in Er.
       intros Hs. rewrite Hs in Er. set_solver. }
  destruct (AuthorizedDestination _ _ _ _) as [destination|e] eqn:Ed.
  2: { intros Hr. left. destruct e; simplify_eq; (split; [done|by right]). }
  destruct (make_submission _ _ _ _ _ _ _) as [sub|r] eqn:Em.
  2: { intros [= <- <-]. left. split; [|by right]. apply make_submission_Err in Em.
       intros Hs. congruence. }
  destruct (Submit _ _ _ _ _ _) as [r db1] eqn:Es. intros [= <- <-]. right.
  pose proof (read_submission_key _ _ _ _ _ _ Er) as (-> & _).
  exists principal, input, headers, body, destination, sub, r. done.
Qed.

Lemma answer_submit_202 r :
  Response.Status (answer_submit r) = 202 → ∃ d, r = Ok d.
Proof. destruct r as [d|[]]; cbn; try done. eauto. Qed.

Lemma AuthorizedDestination_Ok io caller did db d :
  AuthorizedDestination io caller did db = Ok d →
  (caller, did) ∈ caller_destinations db ∧ DestinationVersion.DestinationID d = did ∧
  ∃ v, destinations db !! did = Some (DestinationVersion.Version d) ∧
    destination_versions db !! (did, DestinationVersion.Version d) = Some v ∧
    d = destination_of did (DestinationVersion.Version d) v.
Proof.
  unfold AuthorizedDestination, query_row, queryDestinationVersion.
  destruct (io 0%nat); [|done]. case_bool_decide as Hin; [|done].
  destruct (destinations db !! did) as [current|] eqn:Hd; [|done]. simpl.
  destruct (destination_versions db !! (did, current)) as [v|] eqn:Hv; [|done]. simpl.
  intros [= <-]. simpl. split_and!; [done|done|]. by exists v.
Qed.

Lemma make_submission_Ok env caller key input headers body d sub :
  make_submission env caller key input headers body d = Ok sub →
  Submission.CallerID sub = caller ∧ Submission.IdempotencyKey sub = key ∧
  Submission.DestinationID sub = DestinationVersion.DestinationID d ∧
  Submission.DestinationVersion sub = DestinationVersion.Version d ∧
  Submission.CallerHeaders sub = headers ∧ Submission.Body sub = string_of body ∧
  Submission.Method sub = ToUpper (TrimSpace (submissionRequest.Method input)) ∧
  IsSupportedOutboundMethod (Submission.Method sub) = true ∧
  Http.containsFold (elems (DestinationVersion.AllowedMethods d)) (Submission.Method sub) = true ∧
  validateCallerHeaders (e_visit env 2 headers) d = None ∧
  ∃ hash, RequestHash (e_visit env 1 headers) (e_keys env)
    (HashInput.mk (Submission.DestinationID sub) (Submission.DestinationVersion sub)
       (Submission.Method sub) headers (Submission.Body sub)) = Ok hash ∧
    Submission.RequestHash sub = string_of hash.
Proof.
  unfold make_submission. case_match eqn:Hm; [done|]. case_match eqn:Hh; [done|]. to_prop.
  destruct (RequestHash _ _ _) as [hash|] eqn:E; [|done]. intros [= <-]. simpl.
  split_and!; try done. eauto.
Qed.

Lemma make_submission_times env caller key input headers body d sub :
  make_submission env caller key input headers body d = Ok sub →
  Submission.AcceptedAt sub = e_now env ∧ Submission.RetryDeadline sub = e_now env + 24 * Hour.
Proof. unfold make_submission. intros. repeat case_match; simplify_eq; done. Qed.

(** C8: 202 means committed: the request bore the key of a caller who is
    authorized for the destination its body names, the headers and the decoded
    body it holds are within 256 KiB, and the database holds, under that caller
    and the request's idempotency key, the delivery the answer names, with the
    hash of exactly that destination version, method, headers and body: either
    one accepted before, left as it was, or a new pending one, with its event,
    that stores them. *)
Theorem accepted_request_is_durable store env request db response db' :
  submit store env request db = (response, db') → Response.Status response = 202 →
  ∃ caller c p r input d headers body hash,
    bears request (before env 1 db) caller c ∧
    (caller, submissionRequest.DestinationID input) ∈ caller_destinations (before env 2 db) ∧
    destinations (before env 2 db) !! submissionRequest.DestinationID input =
      Some (DestinationVersion.Version d) ∧
    says env request input headers body ∧
    payloadSize headers body ≤ maxDeliveryPayloadBytes ∧
    RequestHash (e_visit env 1 headers) (e_keys env)
      (HashInput.mk (submissionRequest.DestinationID input) (DestinationVersion.Version d)
         (ToUpper (TrimSpace (submissionRequest.Method input))) headers (string_of body)) = Ok hash ∧
    Response.Content response = Payload p ∧
    deliveries db' !! deliveryResponse.ID p = Some r ∧
    d_caller_id r = caller ∧
    d_idempotency_key r = TrimSpace (HttpRequest.IdempotencyKey request) ∧
    d_request_hash r = string_of hash ∧
    (db' = before env 3 db ∨
     (deliveries (before env 3 db) !! deliveryResponse.ID p = None ∧
      d_status r = StatusPending ∧ d_generation r = 0 ∧
      has_event db' (deliveryResponse.ID p) 0 = true ∧
      d_destination_id r = submissionRequest.DestinationID input ∧
      d_destination_version r = DestinationVersion.Version d ∧
      d_method r = ToUpper (TrimSpace (submissionRequest.Method input)) ∧
      d_caller_headers r = json_headers headers ∧ d_body r = string_of body)).
Proof.
  intros [[? _]|Hs]%submit_cases Hst; [done|].
  destruct Hs as (principal & input & headers & body & d & sub & r & [Ha Hr Hd Hm] & Hs & ->).
  apply answer_submit_202 in Hst as [dl ->].
  apply run_tx_Ok, Submit_Ok in Hs as (row & Hrow & [Hc Hk] & Hh & Hor).
  apply authenticatePrincipal_Ok in Ha as (c & Hb & _).
  apply read_submission_key in Hr as (_ & Hsize & _ & Hsays).
  apply AuthorizedDestination_Ok in Hd as (Hin & Hid & v & Hcur & _).
  apply make_submission_Ok in Hm as (E1 & E2 & E3 & E4 & E5 & E6 & E7 & _ & _ & _ & hash & Ehash & E8).
  exists (Principal.CallerID principal), c, (responseFromDelivery dl), row, input, d, headers, body, hash.
  rewrite E3, E4, E6, E7, Hid in Ehash. simpl.
  split_and!; try done; [congruence|congruence|congruence|].
  destruct Hor as [[-> _]|(? & ? & ? & ? & (F1 & F2 & F3 & F4 & F5) & _)]; [by left|right].
  rewrite E3, Hid in F1. rewrite E4 in F2. rewrite E7 in F3. rewrite E5 in F4. rewrite E6 in F5. auto 10.
Qed.

(** C11: a refused request changes nothing: unless the answer is the generic
    503, under which a commit may have been lost, the database is as the other
    requests left it, for submissions and replays alike. *)
Theorem refused_request_changes_nothing store env request db response db' :
  (submit store env request db = (response, db') ∨ replay env request db = (response, db')) →
  Response.Status response ≠ 202 → response ≠ internalError →
  ∃ n, (1 ≤ n ≤ 3)%nat ∧ db' = before env n db.
Proof.
  intros [Hs|Hr] H202 Hint.
  - apply submit_cases in Hs as [[_ [->| ->]]|Hs]; [by exists 1%nat; split; [lia|]|by exists 2%nat; split; [lia|]|].
    destruct Hs as (principal & input & headers & body & d & sub & r & _ & Hs & ->).
    exists 3%nat. split; [lia|]. destruct r as [dl|e]; [done|].
    apply run_tx_Err in Hs as [-> _]; [done|]. intros ->. done.
  - unfold replay in Hr. destruct (authenticatePrincipal _ _ _) as [principal|r] eqn:Ea.
    2: { simplify_eq. by exists 1%nat; split; [lia|]. }
    destruct (Principal.IsOperator principal); simpl in Hr; [|simplify_eq; by exists 1%nat; split; [lia|]].
    destruct (read_reason _) as [reason|r]; [|simplify_eq; by exists 1%nat; split; [lia|]].
    destruct (Replay _ _ _ _ _ _ _) as [r db1] eqn:Er. simplify_eq.
    exists 2%nat. split; [lia|]. destruct r as [dl|e]; [done|].
    unfold Replay in Er. repeat case_match; simplify_eq; try done.
    apply run_tx_Err in Er as [-> _]; [done|]. intros ->. done.
Qed.

(** ** Replay *)

Lemma read_reason_Ok request reason :
  read_reason request = Ok reason → reason ≠ "" ∧ len reason ≤ 1000 ∧ gives_reason request reason.
Proof.
  unfold read_reason. intros. repeat case_match; simplify_eq; to_prop. destruct_and?.
  subst. split_and!; try done. eexists _, _. split_and!; done.
Qed.

Lemma read_reason_Err request r : read_reason request = Err r → Response.Status r = 400.
Proof. unfold read_reason. intros. repeat case_match; by simplify_eq. Qed.

(** C33: replay belongs to operators: it is accepted only for the key of an
    operator and with a reason of 1 to 1000 bytes, the trimmed reason of the
    JSON value its body holds; then the delivery of the path had failed
    permanently and is pending again under its next generation, and an audit
    names that operator and that reason. *)
Theorem replay_needs_an_operator env request db response db' :
  replay env request db = (response, db') → Response.Status response = 202 →
  ∃ operator c reason id r r' aid u,
    bears request (before env 1 db) operator c ∧ c_is_operator c = true ∧
    gives_reason request reason ∧ 1 ≤ len reason ≤ 1000 ∧
    uuid_in (HttpRequest.PathID request) = Some id ∧
    deliveries (before env 2 db) !! id = Some r ∧ d_status r = StatusFailedPermanent ∧
    deliveries db' !! id = Some r' ∧ d_status r' = StatusPending ∧
    d_generation r' = d_generation r + 1 ∧ content_of r' = content_of r ∧
    has_event db' id (d_generation r') = true ∧
    replay_audits db' !! aid = Some u ∧
    r_delivery_id u = id ∧ r_operator_id u = operator ∧ r_reason u = reason ∧
    r_from_generation u = d_generation r ∧ r_to_generation u = d_generation r' ∧
    Response.Content response = Payload (responseFromDelivery (delivery_of id r')).
Proof.
  unfold replay. intros Hr Hst.
  destruct (authenticatePrincipal _ _ _) as [principal|resp] eqn:Ea.
  2: { simplify_eq. by apply authenticatePrincipal_Err in Ea as [->| ->]. }
  apply authenticatePrincipal_Ok in Ea as (c & Hb & Hop).
  destruct (Principal.IsOperator principal); [|by simplify_eq/=]. cbn [negb] in Hr.
  destruct (read_reason _) as [reason|resp] eqn:Er.
  2: { simplify_eq. apply read_reason_Err in Er. congruence. }
  apply read_reason_Ok in Er as (Hne & Hlen & Hgives).
  destruct (Replay _ _ _ _ _ _ _) as [[d|e] db1] eqn:E; simplify_eq; [|by destruct e].
  apply Replay_Ok in E as (r & r' & aid & u & Hid & Hl & Hs & Hl' & Hd & Hp & Hg & Hc & _ & _ & He &
    Hu & -> & _).
  exists (Principal.CallerID principal), c, reason, (Delivery.ID d), r, r', aid. eexists.
  split_and!; try done; [|by rewrite <- Hd].
  destruct reason; [done|]. unfold len. simpl. lia.
Qed.

(** ** Status *)

(** C30: status belongs to the caller: a query changes nothing; its 200 shows
    the delivery of the path as it was, owned by the bearer of the key, with
    at most 20 of its own recorded attempts, newest first and all of them when
    fewer; its 404 means that this caller owns no such delivery. *)
Theorem status_is_the_callers_own env request db response db' :
  (∀ s u, uuid_in s = Some u → uuid_in u = Some u) →
  get env request db = (response, db') →
  (∃ n, (1 ≤ n ≤ 3)%nat ∧ db' = before env n db) ∧
  (Response.Status response = 200 → ∃ caller c id r attempts,
     bears request (before env 1 db) caller c ∧
     uuid_in (HttpRequest.PathID request) = Some id ∧
     deliveries (before env 2 db) !! id = Some r ∧ d_caller_id r = caller ∧
     Response.Content response =
       Payload (with_attempts (responseFromDelivery (delivery_of id r)) attempts) ∧
     Z.of_nat (length attempts) ≤ 20 ∧
     StronglySorted (λ s s', AttemptSummary.StartedAt s' ≤ AttemptSummary.StartedAt s) attempts ∧
     (∀ s, s ∈ attempts → ∃ aid a, delivery_attempts db' !! aid = Some a ∧
        owned caller id db' a ∧ s = summary_of a) ∧
     (Z.of_nat (length attempts) < 20 → ∀ aid a, delivery_attempts db' !! aid = Some a →
        owned caller id db' a → summary_of a ∈ attempts)) ∧
  (Response.Status response = 404 → ∃ caller c id,
     bears request (before env 1 db) caller c ∧
     uuid_in (HttpRequest.PathID request) = Some id ∧
     ∀ r, deliveries (before env 2 db) !! id = Some r → d_caller_id r ≠ caller).
Proof.
  unfold get, authenticate. intros Huuid Hg.
  destruct (authenticatePrincipal _ _ _) as [principal|resp] eqn:Ea.
  2: { simplify_eq. split; [by exists 1%nat; split; [lia|]|].
       by apply authenticatePrincipal_Err in Ea as [->| ->]. }
  apply authenticatePrincipal_Ok in Ea as (c & Hb & _).
  change (e_others env 1 (e_others env 0 db)) with (before env 2 db) in Hg.
  rewrite Get_eq in Hg. destruct (uuid_in (HttpRequest.PathID request)) as [id|] eqn:Hid.
  2: { simplify_eq. split; [by exists 2%nat; split; [lia|]|done]. }
  destruct (e_io env 1 0%nat).
  2: { simplify_eq. split; [by exists 2%nat; split; [lia|]|done]. }
  destruct (deliveries (before env 2 db) !! id) as [r|] eqn:Hr; [case_bool_decide as Hc|].
  - change (e_others env 2 (before env 2 db)) with (before env 3 db) in Hg.
    destruct (ListAttemptSummaries _ _ _ _ _) as [attempts|e] eqn:El; simplify_eq.
    2: { split; [by exists 3%nat; split; [lia|]|done]. }
    split; [by exists 3%nat; split; [lia|]|]. split; [|done]. intros _.
    apply ListAttemptSummaries_Ok in El as (id' & Hid' & Hlen & Hsort & Hin & Hall).
    simpl in Hid'. rewrite (Huuid _ _ Hid) in Hid'. simplify_eq.
    exists (d_caller_id r), c, id', r, attempts. rewrite Hc. split_and!; done.
  - simplify_eq. split; [by exists 2%nat; split; [lia|]|]. split; [done|]. intros _.
    exists (Principal.CallerID principal), c, id. split_and!; [done|done|]. intros r' Hr'. by simplify_eq.
  - simplify_eq. split; [by exists 2%nat; split; [lia|]|]. split; [done|]. intros _.
    exists (Principal.CallerID principal), c, id. split_and!; [done|done|]. intros r' Hr'. by simplify_eq.
Qed.
End api.

(** ** From admission to sending

    What the API admits is stored as JSON and read back by the worker; the
    sender then applies checks of its own. *)

(** Lower case never is an ASCII capital. *)
Definition lower_is_lower `{Unicode} : Prop := ∀ r, 128 ≤ r → ¬ (65 ≤ to_lower_hi r ≤ 90).

(** Upper case beyond ASCII is no other case of an ASCII letter but K (whose
    KELVIN SIGN is upper case already), and the replacement character has no
    case: U+017F, the other case of S beyond ASCII, is lower case. *)
Definition upper_is_upper `{Unicode} : Prop :=
  to_upper_hi RuneError = RuneError ∧
  ∀ q c, 128 ≤ q → 128 ≤ to_upper_hi q → 65 ≤ c ≤ 90 → c ≠ 75 → fold_hi c (to_upper_hi q) = false.

Section handover.
Context `{Unicode, Postgres}.

Lemma validHeaderName_token n : validHeaderName n = true → n ≠ "" ∧ is_token n = true.
Proof.
  unfold validHeaderName, is_token. intros [Hn Hr]%andb_true_iff. to_prop. split; [done|].
  pose proof (bytes_of_range n) as Hb. unfold range_runes in Hr.
  assert (Forall is_ascii (bytes_of n)) as Ha.
  { apply ascii_runes; [done|]. apply Forall_forall. intros r Hin. rewrite forallb_forall in Hr.
    apply list_elem_of_In in Hin. specialize (Hr r Hin). to_prop. lia. }
  rewrite runes_ascii in Hr by done. rewrite forallb_forall in Hr |- *. intros b Hin.
  specialize (Hr b Hin). apply list_elem_of_In in Hin. rewrite Forall_forall in Hb.
  pose proof (all_bytes (λ b, (b <? 33) || (126 <? b) || bool_decide (b ∈ separators) ||
    token_byte b) ltac:(by vm_compute) b (Hb b Hin)) as Hall. simpl in Hall.
  apply negb_true_iff in Hr. by rewrite Hr in Hall.
Qed.

Lemma ToLower_no_capital s b :
  lower_is_lower → b ∈ bytes_of (ToLower s) → ¬ (65 ≤ b ≤ 90).
Proof.
  intros Hlow Hin Hb. apply ascii_of_map_runes in Hin as (r & _ & ->); [|unfold is_ascii; lia].
  unfold unicode_ToLower in Hb. destruct (Z.ltb_spec r 128).
  - case_match; to_prop; rewrite ?andb_false_iff, ?Z.leb_gt in *; lia.
  - by apply (Hlow r).
Qed.

(** A valid canonical name is its own canonical name, and JSON keeps it. *)
Lemma canonical_fixed raw :
  lower_is_lower → validHeaderName (canonical_name raw) = true →
  canonical_name (canonical_name raw) = canonical_name raw.
Proof.
  intros Hlow [_ Ht]%validHeaderName_token. destruct (token_canonical_name _ Ht) as [-> E].
  apply bytes_of_inj. rewrite E. rewrite <- (list_fmap_id (bytes_of (canonical_name raw))) at 2.
  apply list_fmap_ext. intros i b Hin%list_elem_of_lookup_2.
  apply ToLower_no_capital in Hin; [|done]. unfold lower_ascii. case_match; to_prop; simpl; lia.
Qed.

Lemma token_no_bad_chars n : is_token n = true → ContainsAny n bad_name_chars = false.
Proof.
  unfold is_token, ContainsAny. rewrite forallb_forall. intros Ht. apply not_true_is_false.
  intros (b & Hin & Hb)%existsb_exists. to_prop. specialize (Ht b Hin).
  assert (b ∈ [32; 9; 13; 10; 58]) as Hb' by exact Hb. clear Hb.
  repeat (apply elem_of_cons in Hb' as [->|Hb']; [done|]). by apply not_elem_of_nil in Hb'.
Qed.

Lemma json_string_ascii s : Forall is_ascii (bytes_of s) → json_string s = s.
Proof.
  intros Hs. apply bytes_of_inj. unfold json_string. rewrite map_runes_ascii by done.
  apply list_fmap_id.
Qed.

Lemma json_string_token s : is_token s = true → json_string s = s.
Proof. intros Ht%token_ascii. apply json_string_ascii. by apply Forall_and in Ht as [Ht _]. Qed.

Lemma drop_while_elem {A} (P : A → bool) l a : a ∈ drop_while P l → a ∈ l.
Proof. induction l as [|b l IH]; [done|]. simpl. destruct (P b); [right; auto|done]. Qed.

Lemma trim_by_elem {A} (P : A → bool) l a : a ∈ trim_by P l → a ∈ l.
Proof.
  unfold trim_by. rewrite elem_of_reverse. intros Ha%drop_while_elem.
  rewrite elem_of_reverse in Ha. by apply drop_while_elem in Ha.
Qed.

Lemma Trim_elem s cutset b : b ∈ bytes_of (Trim s cutset) → b ∈ bytes_of s.
Proof.
  unfold Trim. rewrite bytes_of_string_of; [apply trim_by_elem|]. apply Forall_forall.
  intros c Hc%trim_by_elem. pose proof (bytes_of_range s) as Hr. rewrite Forall_forall in Hr. auto.
Qed.

(** Neither trimming nor JSON brings a line end into a valid value. *)
Lemma stored_value_clean raw :
  validHeaderValue raw = true →
  ContainsAny (json_string (trimOptionalWhitespace raw)) line_ends = false.
Proof.
  intros Hv. apply not_true_is_false. unfold ContainsAny. intros (b & Hin & Hb)%existsb_exists.
  to_prop. apply list_elem_of_In in Hin. assert (Hb' : b = 13 ∨ b = 10) by set_solver.
  apply ascii_of_map_runes in Hin as (r & Hr & <-); [|unfold is_ascii; lia].
  unfold range_runes in Hr.
  rewrite elem_of_runes_ascii in Hr; [|unfold is_ascii; lia|apply bytes_of_range].
  apply Trim_elem in Hr. unfold validHeaderValue in Hv. rewrite forallb_forall in Hv.
  rewrite <- (elem_of_runes_ascii b) in Hr; [|unfold is_ascii; lia|apply bytes_of_range].
  apply list_elem_of_In in Hr. specialize (Hv b Hr). to_prop. lia.
Qed.

Lemma json_headers_inv m n v :
  json_headers m !! n = Some v →
  ∃ n0 v0, m !! n0 = Some v0 ∧ n = json_string n0 ∧ v = json_string v0.
Proof.
  unfold json_headers. intros Hl.
  assert (Hgen : ∀ l (acc : gmap string string), foldl (λ acc kv, <[json_string kv.1 := json_string kv.2]> acc) acc l !! n
      = Some v → acc !! n = Some v ∨ ∃ kv, kv ∈ l ∧ n = json_string kv.1 ∧ v = json_string kv.2).
  { clear. induction l as [|kv l IH]; intros acc; simpl; [by left|]. intros [Ha|(kv' & ? & ?)]%IH.
    - apply lookup_insert_Some in Ha as [[<- <-]|[_ ?]]; [|by left]. right. exists kv. set_solver.
    - right. exists kv'. set_solver. }
  apply Hgen in Hl as [?|([n0 v0] & Hin & -> & ->)]; [done|].
  rewrite merge_sort_Permutation, elem_of_map_to_list in Hin. eauto.
Qed.

(** A canonical header: its name is some canonical name, its value trimmed. *)
Lemma canonical_header order m n v :
  CanonicalCallerHeaders order = Ok m → m !! n = Some v →
  validHeaderName n = true ∧ (∃ raw, n = canonical_name raw) ∧
  ∃ raw, validHeaderValue raw = true ∧ v = trimOptionalWhitespace raw.
Proof.
  unfold CanonicalCallerHeaders. intros (Hv & Hnd & _ & ->)%canonical_loop_Ok.
  rewrite (right_id_L ∅ (∪)). intros Hl%elem_of_list_to_map_2.
  unfold canonical_pairs in Hl. apply list_elem_of_fmap in Hl as ([k w] & [= -> ->] & Hin).
  unfold all_valid in Hv. rewrite Forall_forall in Hv. destruct (Hv _ Hin).
  split_and!; eauto.
Qed.

Lemma stored_headers_ok_intro allowed protected seen l :
  NoDup l.*1 →
  (∀ n v, (n, v) ∈ l → canonical_name n = n ∧ n ≠ "" ∧ ContainsAny n bad_name_chars = false ∧
     ContainsAny v line_ends = false ∧ n ∉ seen ∧ n ∉ protected ∧ n ∈ allowed) →
  stored_headers_ok allowed protected seen l = true.
Proof.
  revert seen. induction l as [|[n v] l IH]; intros seen Hnd Hl; [done|]. cbn [stored_headers_ok].
  apply NoDup_cons in Hnd as [Hn Hnd]. destruct (Hl n v) as (-> & Hne & -> & -> & Hs & Hp & Ha); [left|].
  rewrite (proj2 (String.eqb_neq _ _)) by done. simpl.
  rewrite (bool_decide_eq_false_2 (n ∈ seen)), (bool_decide_eq_false_2 (n ∈ protected)),
    (bool_decide_eq_true_2 (n ∈ allowed)) by done. simpl. apply IH; [done|].
  intros n' v' Hin. destruct (Hl n' v') as (? & ? & ? & ? & ? & ? & ?); [by right|].
  split_and!; try done. intros [->%elem_of_singleton|]%elem_of_union; [|done].
  apply Hn. apply list_elem_of_fmap. by exists (n, v').
Qed.

Lemma validateCallerHeaders_None headers d :
  validateCallerHeaders headers d = None →
  ∀ n v, (n, v) ∈ headers → n ∉ protected_names d ∧ n ∈ allowed_names d.
Proof.
  induction headers as [|[n' v'] headers IH]; simpl; intros Hv n v Hin; [by apply not_elem_of_nil in Hin|].
  case_bool_decide as Hp; [done|]. case_bool_decide as Ha; [|done].
  apply elem_of_cons in Hin as [Heq|Hin]; [by simplify_eq|by eapply IH].
Qed.

(** The loops of a handler visit every entry of a map once. *)
Definition visits_all (env : api_env) : Prop := ∀ n m, enumerates (e_visit env n m) m.

(** The stored form of an admitted submission's headers. *)
Lemma admitted_headers env request db principal input headers body d sub n v :
  lower_is_lower → visits_all env →
  admitted env request db principal input headers body d sub →
  json_headers (Submission.CallerHeaders sub) !! n = Some v →
  canonical_name n = n ∧ n ≠ "" ∧ ContainsAny n bad_name_chars = false ∧
  ContainsAny v line_ends = false ∧ n ∉ protected_names d ∧ n ∈ allowed_names d.
Proof.
  intros Hlow Hvis [_ Hr _ Hm] Hl.
  apply read_submission_key in Hr as (_ & _ & (raw & Hcan) & _).
  apply make_submission_Ok in Hm as (_ & _ & _ & _ & E & _ & _ & _ & _ & Hval & _).
  rewrite E in Hl. apply json_headers_inv in Hl as (n0 & v0 & Hl & -> & ->).
  pose proof (canonical_header _ _ _ _ Hcan Hl) as (Hn & (rn & Hrn) & rv & Hrv & ->).
  destruct (validHeaderName_token _ Hn) as [Hne Ht]. rewrite (json_string_token n0) by done.
  apply elem_of_map_to_list in Hl. rewrite <- (Hvis 2%nat headers) in Hl.
  destruct (validateCallerHeaders_None _ _ Hval _ _ Hl).
  split_and!; try done; [|by apply token_no_bad_chars|by apply stored_value_clean].
  rewrite Hrn. apply canonical_fixed; [done|]. by rewrite <- Hrn.
Qed.

Lemma all2_length f l k : all2 f l k = true → length l = length k.
Proof.
  revert k. induction l as [|a l IH]; intros [|b k]; simpl; try done.
  intros [_ ?%IH]%andb_true_iff. by f_equal.
Qed.

(** A rune in upper case. *)
Definition uppered (r : Z) : Prop :=
  is_ascii r ∨ ∃ q, 128 ≤ q ∧ 128 ≤ r ∧ r = to_upper_hi q.

Lemma ToUpper_runes s : upper_is_upper → Forall uppered (range_runes (ToUpper s)).
Proof.
  intros [Herr _]. unfold ToUpper. rewrite runes_map_runes. apply Forall_fmap, Forall_true. intros q.
  assert (He : uppered RuneError) by (right; exists RuneError; unfold RuneError in *; lia).
  unfold compose, written_rune. case_match eqn:E; [|done].
  apply orb_true_iff in E. rewrite !andb_true_iff, !Z.leb_le, Z.ltb_lt in E.
  destruct (decide (unicode_ToUpper q < 128)); [left; unfold is_ascii; lia|right].
  unfold unicode_ToUpper in *. destruct (Z.ltb_spec q 128); [exfalso; case_match; to_prop; lia|].
  exists q. lia.
Qed.

(** What folds to an upper-case letter other than K and is in upper case is a
    letter of ASCII. *)
Lemma fold_letter a b :
  upper_is_upper → uppered a → 65 ≤ b ≤ 90 → b ≠ 75 → fold_eq a b = true →
  is_ascii a ∧ is_alpha a = true.
Proof.
  intros [_ Hup] Ha Hb Hk Hf. unfold fold_eq in Hf. apply orb_true_iff in Hf.
  destruct Ha as [Ha|(q & Hq & Ha & ->)].
  - split; [done|]. unfold is_ascii, is_alpha in *. rewrite Z.eqb_eq in Hf.
    rewrite (proj2 (Z.ltb_lt a 128)), (proj2 (Z.ltb_lt b 128)) in Hf by lia. cbn [andb] in Hf.
    rewrite !andb_true_iff, !Z.leb_le, Z.eqb_eq in Hf.
    rewrite orb_true_iff, !andb_true_iff, !Z.leb_le. lia.
  - exfalso. rewrite Z.eqb_eq in Hf. destruct Hf as [Hf|Hf]; [lia|].
    rewrite (proj2 (Z.ltb_ge (to_upper_hi q) 128)) in Hf by lia. cbn [andb] in Hf.
    rewrite Z.min_r, Z.max_l, Hup in Hf by lia. done.
Qed.

Lemma fold_letters l k :
  upper_is_upper → Forall uppered l → Forall (λ b, 65 ≤ b ≤ 90 ∧ b ≠ 75) k →
  all2 fold_eq l k = true → Forall (λ b, is_ascii b ∧ is_alpha b = true) l.
Proof.
  intros Hup Hl. revert k. induction Hl as [|a l Ha _ IH]; intros [|b k] Hk Heq; try done.
  apply Forall_cons in Hk as [[Hb Hbk] Hk]. simpl in Heq. apply andb_true_iff in Heq as [Hf Heq].
  constructor; [by apply (fold_letter a b)|by apply (IH k)].
Qed.

(** A supported method in upper case is made of ASCII letters. *)
Lemma supported_method_letters raw :
  upper_is_upper → IsSupportedOutboundMethod (ToUpper raw) = true →
  ToUpper raw ≠ "" ∧ Forall (λ b, is_alpha b = true) (bytes_of (ToUpper raw)).
Proof.
  intros Hup Hm. pose proof (ToUpper_runes raw Hup) as Hu. generalize dependent (ToUpper raw).
  intros m Hm Hu. unfold IsSupportedOutboundMethod in Hm.
  assert (∃ verb, EqualFold m verb = true ∧ verb ≠ "" ∧ Forall is_ascii (bytes_of verb) ∧
    Forall (λ b, 65 ≤ b ≤ 90 ∧ b ≠ 75) (bytes_of verb)) as (verb & Hf & Hne & Hva & Hv).
  { rewrite !orb_true_iff in Hm. destruct Hm as [[[E|E]|E]|E]; eexists;
      (split; [exact E|]; split_and!; [done|repeat constructor; done..]). }
  unfold EqualFold in Hf. unfold range_runes in Hf at 2. rewrite (runes_ascii (bytes_of verb)) in Hf by done.
  pose proof (fold_letters _ _ Hup Hu Hv Hf) as Hl. unfold range_runes in *.
  assert (Forall is_ascii (bytes_of m)) as Ha.
  { apply ascii_runes; [apply bytes_of_range|]. eapply Forall_impl; [exact Hl|].
    unfold is_ascii. cbn. lia. }
  rewrite runes_ascii in Hf, Hl by done. split.
  - intros ->. apply all2_length in Hf. destruct verb; done.
  - by apply Forall_and in Hl as [_ Hl].
Qed.

Lemma letters_method m :
  m ≠ "" → Forall (λ b, is_alpha b = true) (bytes_of m) → TrimSpace m = m ∧ valid_method m = true.
Proof.
  intros Hne Hl. assert (is_token m = true) as Ht.
  { unfold is_token. apply forallb_forall. intros b Hb%list_elem_of_In. rewrite Forall_forall in Hl.
    unfold token_byte. by rewrite (Hl b Hb). }
  split; [by apply TrimSpace_ascii, token_ascii|]. unfold valid_method.
  by rewrite (proj2 (String.eqb_neq _ _)), Ht by done.
Qed.

Context `{IpLiteral} {W : Type} `{SenderEnv W}.

(** C13: what the API admits, the sender sends: for a submission admitted under
    a destination whose two injected headers are different usable names, stored
    and read back, an attempt ends with a permanent error only because of the
    destination itself - its timeout, its URL, its policy, or the addresses
    its host resolves to - and never because of the caller's method, in
    whatever letters it was written, or headers.  Of the case tables of package
    unicode it takes that lower case never is an ASCII capital, and that no
    upper-case rune beyond ASCII is another case of an ASCII letter but K. *)
Theorem admitted_requests_are_sendable env request db principal input headers body d sub
    sender order task w res e t w' :
  lower_is_lower → upper_is_upper → visits_all env →
  admitted env request db principal input headers body d sub →
  validInjectedHeader (DestinationVersion.CredentialHeader d) = true →
  validInjectedHeader (DestinationVersion.IdempotencyHeader d) = true →
  EqualFold (DestinationVersion.CredentialHeader d) (DestinationVersion.IdempotencyHeader d)
    = false →
  Delivery.Method task = Submission.Method sub →
  enumerates order (json_headers (Submission.CallerHeaders sub)) →
  Send sender order task d w = ((res, Some e), t, w') → is_permanent e = true →
  DestinationVersion.RequestTimeout d ≤ 0 ∨
  validateURL (DestinationVersion.URL d) = None ∨
  ∃ u, validateURL (DestinationVersion.URL d) = Some u ∧
    (validatePolicy sender (Hostname u) (DestinationVersion.NetworkPolicy d) = false ∨
     ∃ addresses, EvLookup (Hostname u) (Ok addresses) ∈ t ∧
       validateAddresses (DestinationVersion.NetworkPolicy d) addresses = None).
Proof.
  intros Hlow Hup Hvis Had Hcred Hidem Hdiff Hmeth Horder Hs%Send_sent Hperm.
  assert (Hheaders : validateStoredHeaders order d = true).
  { unfold validateStoredHeaders. rewrite Hcred, Hidem, Hdiff. simpl.
    apply stored_headers_ok_intro.
    - rewrite Horder. apply NoDup_fst_map_to_list.
    - intros n v Hin. rewrite Horder, elem_of_map_to_list in Hin.
      destruct (admitted_headers _ _ _ _ _ _ _ _ _ _ _ Hlow Hvis Had Hin) as (?&?&?&?&?&?).
      split_and!; try done. }
  destruct Had as [_ _ _ Hm].
  apply make_submission_Ok in Hm as (_ & _ & _ & _ & _ & _ & Eup & Hsup & Hall & _).
  destruct (supported_method_letters _ Hup ltac:(rewrite <- Eup; exact Hsup)) as [Hne Hlet].
  rewrite <- Eup in Hne, Hlet.
  destruct (letters_method _ Hne Hlet) as [Htrim Hvm].
  inversion Hs as [Hno| |u addresses Hcl Hv| |u addresses ip name secret Hcl Hv Hbad|
    u addresses ip name secret endpoints answer]; subst; try done.
  - destruct (decide (DestinationVersion.RequestTimeout d ≤ 0)) as [|]; [by left|right].
    destruct (validateURL (DestinationVersion.URL d)) as [u|] eqn:Hu; [right|by left].
    exists u. split; [done|left]. apply not_true_is_false. intros Hp. apply (Hno u).
    constructor; rewrite ?Hmeth; try done; [lia|].
    unfold Outbound.containsFold. by rewrite Htrim.
  - right; right. exists u. destruct Hcl. split; [done|]. right. exists addresses. split; [left|done].
  - congruence.
  - unfold failed in *. destruct answer; simplify_eq/=.
Qed.
End handover.

(** ** Requests against a small database *)

(** JSON text written with single quotes. *)
Definition json_text (s : string) : list Z := (λ b, if b =? 39 then 34 else b) <$> bytes_of s.

(** No other request interferes and nothing fails. *)
Definition env0 : api_env :=
  {| e_io := λ _, healthy;
     e_clock := at_ 0;
     e_random := draws 1;
     e_now := time_of noon;
     e_others := λ _ db, db;
     e_visit := λ _ m, map_to_list m;
     e_keys := λ m, (map_to_list m).*1 |}.

Definition db_shop : DB :=
  (Bootstrap healthy (BootstrapConfig.mk "shop" "shop-key" destination_pub) empty_db).2.

Definition post0 : HttpRequest.t :=
  {| HttpRequest.Authorization := "Bearer shop-key";
     HttpRequest.IdempotencyKey := " order-1 ";
     HttpRequest.Body := json_text
       "{'destination_id':'billing','method':'post','headers':{'X-Event':'paid'},'body_base64':'cGFpZA=='}";
     HttpRequest.PathID := "" |}.

Definition posted : Response.t * DB := submit store0 env0 post0 db_shop.

Lemma accepted_request_is_durable_witness :
  Response.Status posted.1 = 202 ∧
  ∃ p r, Response.Content posted.1 = Payload p ∧
    deliveries posted.2 !! deliveryResponse.ID p = Some r ∧ d_idempotency_key r = "order-1".
Proof.
  assert (Hst : Response.Status posted.1 = 202) by (vm_compute; reflexivity).
  split; [exact Hst|].
  destruct (accepted_request_is_durable store0 env0 post0 db_shop posted.1 posted.2
    (surjective_pairing _) Hst)
    as (caller & c & p & r & input & d & headers & body & hash & Hb & _ & _ & _ & _ & _ & Hp & Hr & Hc & Hk & _).
  exists p, r. split_and!; [exact Hp|exact Hr|rewrite Hk; vm_compute; reflexivity].
Defined.

(** The same key for another body, and the same request again without a key. *)
Definition post_other : HttpRequest.t :=
  {| HttpRequest.Authorization := "Bearer shop-key";
     HttpRequest.IdempotencyKey := "order-1";
     HttpRequest.Body := json_text
       "{'destination_id':'billing','method':'POST','body_base64':'b3RoZXI='}";
     HttpRequest.PathID := "" |}.
Definition conflicted : Response.t * DB := submit store0 env0 post_other posted.2.

Lemma refused_request_changes_nothing_witness :
  Response.Status conflicted.1 = 409 ∧ conflicted.2 = posted.2.
Proof.
  assert (Hst : Response.Status conflicted.1 = 409) by (vm_compute; reflexivity).
  split; [exact Hst|].
  destruct (refused_request_changes_nothing store0 env0 post_other posted.2 conflicted.1 conflicted.2)
    as (n & Hn & E).
  - left. apply surjective_pairing.
  - rewrite Hst. discriminate.
  - intros Heq. rewrite Heq in Hst. discriminate Hst.
  - rewrite E. destruct n as [|[|[|[|n]]]]; [lia|reflexivity..|lia].
Defined.

(** An operator replays the delivery that failed. *)
Definition db_ops : DB :=
  mkDB (<["ops" := CallerRow (Sum256 "ops-key") true]> (callers db_failed)) (destinations db_failed)
    (destination_versions db_failed) (caller_destinations db_failed) (deliveries db_failed)
    (outbox_events db_failed) (delivery_attempts db_failed) (replay_audits db_failed).
Definition env1 : api_env :=
  {| e_io := λ _, healthy;
     e_clock := at_ hour;
     e_random := draws 9;
     e_now := time_of (noon + hour);
     e_others := λ _ db, db;
     e_visit := λ _ m, map_to_list m;
     e_keys := λ m, (map_to_list m).*1 |}.
Definition ask (authorization body : string) : HttpRequest.t :=
  HttpRequest.mk authorization "" (json_text body) id0.
Definition replayed : Response.t * DB :=
  replay env1 (ask "Bearer ops-key" "{'reason':'supplier fixed'}") db_ops.

Lemma replay_needs_an_operator_witness :
  Response.Status replayed.1 = 202 ∧
  Response.Status (replay env1 (ask "Bearer shop-key" "{'reason':'mine'}") db_ops).1 = 403 ∧
  ∃ r' aid u, deliveries replayed.2 !! id0 = Some r' ∧ d_status r' = StatusPending ∧
    replay_audits replayed.2 !! aid = Some u ∧ r_reason u = "supplier fixed".
Proof.
  assert (Hst : Response.Status replayed.1 = 202) by (vm_compute; reflexivity).
  split; [exact Hst|]. split; [vm_compute; reflexivity|].
  destruct (replay_needs_an_operator env1 _ db_ops replayed.1 replayed.2 (surjective_pairing _) Hst)
    as (op & c & reason & id & r & r' & aid & u & _ & _ & Hg & _ & Hid & _ & _ & Hr & Hs & _ & _ & _ &
        Hu & _ & _ & Hreason & _).
  exists r', aid, u. assert (id = id0) as <-.
  { change (uuid_in id0 = Some id) in Hid. revert Hid. vm_compute. by intros [= <-]. }
  split_and!; [exact Hr|exact Hs|exact Hu|]. rewrite Hreason. destruct Hg as (v & input & Ev & Ei & ->).
  revert Ev. vm_compute (decode_limited _ _). intros [= <-]. revert Ei. vm_compute. by intros [= <-].
Defined.

(** The owner of a delivery that was sent, and a stranger, ask for it. *)
Definition db_known : DB :=
  mkDB (<["thief" := CallerRow (Sum256 "thief-key") false]> (callers db_succeeded))
    (destinations db_succeeded) (destination_versions db_succeeded)
    (caller_destinations db_succeeded) (deliveries db_succeeded) (outbox_events db_succeeded)
    (delivery_attempts db_succeeded) (replay_audits db_succeeded).
Definition shown : Response.t * DB := get env1 (ask "Bearer shop-key" "") db_known.
Definition hidden : Response.t * DB := get env1 (ask "Bearer thief-key" "") db_known.

Lemma status_is_the_callers_own_witness :
  (Response.Status shown.1 = 200 ∧ ∃ p, Response.Content shown.1 = Payload p ∧
     deliveryResponse.ID p = id0) ∧
  (Response.Status hidden.1 = 404 ∧ ∃ caller c,
     bears (ask "Bearer thief-key" "") db_known caller c ∧
     ∀ r, deliveries db_known !! id0 = Some r → d_caller_id r ≠ caller).
Proof.
  assert (Huuid : ∀ s u, uuid_in s = Some u → uuid_in u = Some u).
  { intros s u. unfold uuid_in, canonical_uuid. destruct (canonical_text s) eqn:E; [|done].
    intros [= <-]. by rewrite E. }
  assert (Hid : ∀ id, uuid_in id0 = Some id → id = id0).
  { intros id. vm_compute. by intros [= <-]. }
  assert (Hs : Response.Status shown.1 = 200) by (vm_compute; reflexivity).
  assert (Hh : Response.Status hidden.1 = 404) by (vm_compute; reflexivity).
  split; (split; [assumption|]).
  - destruct (status_is_the_callers_own env1 _ db_known shown.1 shown.2 Huuid (surjective_pairing _))
      as (_ & H200 & _).
    destruct (H200 Hs) as (caller & c & id & r & attempts & _ & E & _ & _ & Hp & _).
    eexists. split; [exact Hp|]. by apply Hid.
  - destruct (status_is_the_callers_own env1 _ db_known hidden.1 hidden.2 Huuid
      (surjective_pairing _)) as (_ & _ & H404).
    destruct (H404 Hh) as (caller & c & id & Hb & E & Hr). apply Hid in E as ->.
    exists caller, c. by split.
Defined.

(** The request above, from the API to the sender, whose supplier resolves to
    an address inside the boundary. *)
#[local] Instance inside_world : SenderEnv unit := {|
  LookupIP_ host w := (Ok [[10; 0; 0; 7]], w);
  LookupEnv_ name w := (None, w);
  Do_ r w := (([], Err false), w)
|}.
(** The case tables with U+017F, the lower-case long s. *)
#[local] Instance long_s : Unicode := {|
  to_lower_hi r := r;
  to_upper_hi r := if r =? 383 then 83 else r;
  fold_hi a b := (a =? b) || ((b =? 383) && ((a =? 83) || (a =? 115)))
|}.
Definition post_long : HttpRequest.t :=
  HttpRequest.mk "Bearer shop-key" "order-1" (json_text
    "{'destination_id':'billing','method':'poſt','headers':{'X-Event':'paid'},'body_base64':'cGFpZA=='}") "".
Definition shop : Principal.t := Principal.mk "shop" false.
Definition read0 : string * submissionRequest.t * gmap string string * list Z :=
  match read_submission env0 post_long with
  | Ok x => x
  | Err _ => ("", submissionRequest.mk "" "" None [], ∅, [])
  end.
Definition bound0 : DestinationVersion.t :=
  match AuthorizedDestination healthy "shop" "billing" db_shop with
  | Ok d => d
  | Err _ => destination_pub
  end.
Definition submission0 : Submission.t :=
  match make_submission env0 "shop" "order-1" read0.1.1.2 read0.1.2 read0.2 bound0 with
  | Ok s => s
  | Err _ => sub0
  end.
Definition order0 : list (string * string) :=
  map_to_list (json_headers (Submission.CallerHeaders submission0)).
Definition attempted :=
  Send sender0 order0 (submitted_delivery id0 id0 submission0) bound0 tt.

Lemma admitted_requests_are_sendable_witness :
  Submission.Method submission0 = "POST" ∧ attempted.1.1.2 = Some (SendError true false) ∧
  ∃ u, validateURL (DestinationVersion.URL bound0) = Some u ∧
    ∃ addresses, EvLookup (Hostname u) (Ok addresses) ∈ attempted.1.2 ∧
      validateAddresses (DestinationVersion.NetworkPolicy bound0) addresses = None.
Proof.
  split; [vm_compute; reflexivity|]. split; [vm_compute; reflexivity|].
  destruct (admitted_requests_are_sendable env0 post_long db_shop shop read0.1.1.2 read0.1.2 read0.2
    bound0 submission0 sender0 order0 (submitted_delivery id0 id0 submission0) tt
    attempted.1.1.1 (SendError true false) attempted.1.2 attempted.2)
    as [Hbad|[Hbad|(u & Hu & [Hbad|Haddr])]].
  - intros r Hr. cbn. lia.
  - split; [reflexivity|]. intros q c Hq. cbn. destruct (Z.eqb_spec q 383) as [->|]; [lia|].
    intros Hu Hc Hk. rewrite (proj2 (Z.eqb_neq c q)), (proj2 (Z.eqb_neq q 383)) by lia. reflexivity.
  - intros n m. unfold enumerates. reflexivity.
  - constructor; vm_compute; reflexivity.
  - vm_compute. reflexivity.
  - vm_compute. reflexivity.
  - vm_compute. reflexivity.
  - vm_compute. reflexivity.
  - unfold enumerates, order0. reflexivity.
  - vm_compute. reflexivity.
  - reflexivity.
  - exfalso. revert Hbad. vm_compute. intros Hbad. by apply Hbad.
  - exfalso. revert Hbad. vm_compute. discriminate.
  - exfalso. revert Hu Hbad. vm_compute. intros [= <-]. discriminate.
  - exists u. by split.
Defined.
