(* ===== verification/Answers.v ===== *)
(** * The text of an answer: writeJSON and writeError (http.go)

    The JSON text the handlers' answers are written as, and a client that
    reads it: what it reads is what the handler answered.  A [time.Time]
    carries a location: the instants of a new submission are in UTC, those
    read from the database in the process's zone, so the offset at an instant
    is a variable. *)

From S2P Require Import Prelude GoStrings GoUrl Json Utf8 JsonText Calendar HttpDate Timestamp Model Database Store Scenario Admission Http Api.

Local Open Scope Z_scope.

(** ** Marshalling *)

Definition string_json (s : string) : json := JStr (bytes_of s).
Definition int_json (n : Z) : json := JNum (bytes_of (FormatInt n)).
Definition key (s : string) : list Z := bytes_of s.

Section marshal.
Context (zone : Z → Z).

Definition time_json (t : Z) : option json := JStr <$> rfc3339 (zone t) t.

(** The members of the structs, in the order of their fields; a nil pointer
    is null. *)
Definition attempt_json (a : attemptSummaryResponse.t) : option json :=
  started ← time_json (attemptSummaryResponse.StartedAt a);
  finished ← time_json (attemptSummaryResponse.FinishedAt a);
  Some (JObj
    [(key "generation", int_json (attemptSummaryResponse.Generation a));
     (key "result_class", string_json (class_text (attemptSummaryResponse.ResultClass a)));
     (key "response_status", from_option int_json JNull (attemptSummaryResponse.ResponseStatus a));
     (key "error_category", from_option string_json JNull (attemptSummaryResponse.ErrorCategory a));
     (key "started_at", started);
     (key "finished_at", finished)]).

(** [attempts] is left out when nil, and is an array otherwise, even when
    empty. *)
Definition delivery_json (p : deliveryResponse.t) : option json :=
  accepted ← time_json (deliveryResponse.AcceptedAt p);
  next ← time_json (deliveryResponse.NextAttemptAt p);
  deadline ← time_json (deliveryResponse.RetryDeadline p);
  attempts ← match deliveryResponse.Attempts p with
             | None => Some []
             | Some l => vs ← mapM attempt_json l; Some [(key "attempts", JArr vs)]
             end;
  Some (JObj
    ([(key "id", string_json (deliveryResponse.ID p));
      (key "status", string_json (status_text (deliveryResponse.Status p)));
      (key "destination_id", string_json (deliveryResponse.DestinationID p));
      (key "destination_version", int_json (deliveryResponse.DestinationVersion p));
      (key "generation", int_json (deliveryResponse.Generation p));
      (key "accepted_at", accepted);
      (key "next_attempt_at", next);
      (key "retry_deadline", deadline)] ++ attempts)).

Definition error_json (code message : string) : json :=
  JObj [(key "error", JObj [(key "code", string_json code); (key "message", string_json message)])].

Definition content_json (c : content) : option json :=
  match c with
  | ErrorCode code message => Some (error_json code message)
  | Payload p => delivery_json p
  end.

(** The body of an answer: the status has gone out before, so that a value
    that cannot be marshalled leaves it empty. *)
Definition response_body (r : Response.t) : list Z :=
  match content_json (Response.Content r) with
  | Some v => encode v ++ [10]
  | None => []
  end.
End marshal.

(** ** A client *)

Fixpoint get_member (k : string) (ms : list (list Z * json)) : option json :=
  match ms with
  | [] => None
  | (k', v) :: ms => if bool_decide (k' = key k) then Some v else get_member k ms
  end.

Definition read_string (v : json) : option string :=
  match v with JStr s => Some (string_of s) | _ => None end.
Definition read_int (v : json) : option Z :=
  match v with JNum literal => ParseInt (string_of literal) | _ => None end.
Definition read_time (v : json) : option Z :=
  match v with JStr s => read_rfc3339 s | _ => None end.
Definition read_nullable {A} (f : json → option A) (v : json) : option (option A) :=
  match v with JNull => Some None | _ => Some <$> f v end.

Definition read_status (v : json) : option Status :=
  s ← read_string v;
  if String.eqb s "pending" then Some StatusPending
  else if String.eqb s "delivering" then Some StatusDelivering
  else if String.eqb s "succeeded" then Some StatusSucceeded
  else if String.eqb s "failed_permanent" then Some StatusFailedPermanent
  else None.

Definition read_class (v : json) : option ResultClass :=
  s ← read_string v;
  if String.eqb s "succeeded" then Some ClassSucceeded
  else if String.eqb s "retryable_failure" then Some ClassRetryableFailure
  else if String.eqb s "permanent_failure" then Some ClassPermanentFailure
  else None.

Definition read_attempt (v : json) : option attemptSummaryResponse.t :=
  match v with
  | JObj ms =>
      generation ← get_member "generation" ms ≫= read_int;
      class ← get_member "result_class" ms ≫= read_class;
      status ← get_member "response_status" ms ≫= read_nullable read_int;
      category ← get_member "error_category" ms ≫= read_nullable read_string;
      started ← get_member "started_at" ms ≫= read_time;
      finished ← get_member "finished_at" ms ≫= read_time;
      Some (attemptSummaryResponse.mk generation class status category started finished)
  | _ => None
  end.

Definition read_attempts (v : option json) : option (option (list attemptSummaryResponse.t)) :=
  match v with
  | None => Some None
  | Some (JArr vs) => Some <$> mapM read_attempt vs
  | Some _ => None
  end.

Definition read_delivery (ms : list (list Z * json)) : option deliveryResponse.t :=
  id ← get_member "id" ms ≫= read_string;
  status ← get_member "status" ms ≫= read_status;
  destination ← get_member "destination_id" ms ≫= read_string;
  version ← get_member "destination_version" ms ≫= read_int;
  generation ← get_member "generation" ms ≫= read_int;
  accepted ← get_member "accepted_at" ms ≫= read_time;
  next ← get_member "next_attempt_at" ms ≫= read_time;
  deadline ← get_member "retry_deadline" ms ≫= read_time;
  attempts ← read_attempts (get_member "attempts" ms);
  Some (deliveryResponse.mk id status destination version generation accepted next deadline attempts).

Definition read_content (v : json) : option content :=
  match v with
  | JObj ms =>
      match get_member "error" ms with
      | Some (JObj es) =>
          code ← get_member "code" es ≫= read_string;
          message ← get_member "message" es ≫= read_string;
          Some (ErrorCode code message)
      | Some _ => None
      | None => Payload <$> read_delivery ms
      end
  | _ => None
  end.

Definition read_body (l : list Z) : option content :=
  match next_value l with
  | Ok (v, rest) => if bool_decide (skip_ws rest = []) then read_content v else None
  | Err _ => None
  end.

Lemma get_member_here k v ms : get_member k ((key k, v) :: ms) = Some v.
Proof. cbn. by rewrite bool_decide_true. Qed.

Lemma get_member_skip k k' v ms : k' ≠ k → get_member k ((key k', v) :: ms) = get_member k ms.
Proof. intros Hk. cbn. rewrite bool_decide_false; [done|]. by intros ?%bytes_of_inj. Qed.

(** Finds every member a goal asks for, and reads it with [t]. *)
Ltac members t :=
  repeat (first [rewrite get_member_here | rewrite get_member_skip by done | t]; cbn [mbind option_bind]).

(** ** Integers read back *)

Lemma ParseInt_FormatInt n : is_int64 n → ParseInt (FormatInt n) = Some n.
Proof.
  intros Hn. destruct (Z.ltb_spec n 0) as [Hneg|Hpos].
  2: { unfold is_int64 in Hn. by destruct (FormatInt_nat n) as (? & ? & _ & _ & _ & ?); [lia|]. }
  unfold is_int64, min_int64, max_int64 in Hn. unfold ParseInt, FormatInt.
  rewrite (proj2 (Z.ltb_lt n 0)) by lia. cbn [bytes_of]. change (byte_of _) with 45.
  destruct (format_digits_head 20 (- n) "") as (b & l & E & _); [|lia|].
  { change (10 ^ Z.of_nat 20) with (10 ^ 20). lia. }
  pose proof (format_digits_digits 20 (- n) "" (Forall_nil_2 _)) as Hd.
  pose proof (format_digits_value 20 (- n) "") as Hv. rewrite E in *.
  rewrite parse_digits_value by done.
  rewrite Hv by (change (10 ^ Z.of_nat 20) with (10 ^ 20); lia). cbn [digits_value bytes_of mbind option_bind].
  change (digits_value [] (- n)) with (- n). unfold min_int64, max_int64. rewrite Z.opp_involutive.
  by rewrite (proj2 (Z.leb_le (- 2 ^ 63) n)), (proj2 (Z.leb_le n (2 ^ 63 - 1))) by lia.
Qed.

Lemma read_int_json n : is_int64 n → read_int (int_json n) = Some n.
Proof. intros Hn. cbn. by rewrite string_of_bytes_of, ParseInt_FormatInt. Qed.

Lemma read_string_json s : read_string (string_json s) = Some s.
Proof. cbn. by rewrite string_of_bytes_of. Qed.

Lemma read_status_json s : read_status (string_json (status_text s)) = Some s.
Proof. unfold read_status. rewrite read_string_json. by destruct s. Qed.

Lemma read_class_json c : read_class (string_json (class_text c)) = Some c.
Proof. unfold read_class. rewrite read_string_json. by destruct c. Qed.

Lemma read_nullable_int o : from_option is_int64 True o →
  read_nullable read_int (from_option int_json JNull o) = Some o.
Proof.
  destruct o as [n|]; [|done]. cbn [from_option]. intros Hn.
  change (Some <$> read_int (int_json n) = Some (Some n)). by rewrite read_int_json.
Qed.

Lemma read_nullable_string o :
  read_nullable read_string (from_option string_json JNull o) = Some o.
Proof.
  destruct o as [s|]; [|done]. cbn [from_option].
  change (Some <$> read_string (string_json s) = Some (Some s)). by rewrite read_string_json.
Qed.

(** ** What can be presented *)

(** 64-bit integers and UTF-8 texts, as the types of the columns make them. *)
Definition attempt_presentable (a : attemptSummaryResponse.t) : Prop :=
  is_int64 (attemptSummaryResponse.Generation a) ∧
  from_option is_int64 True (attemptSummaryResponse.ResponseStatus a) ∧
  from_option (λ s, text (bytes_of s) = true) True (attemptSummaryResponse.ErrorCategory a).

Definition presentable (c : content) : Prop :=
  match c with
  | ErrorCode code message => text (bytes_of code) = true ∧ text (bytes_of message) = true
  | Payload p =>
      text (bytes_of (deliveryResponse.ID p)) = true ∧
      text (bytes_of (deliveryResponse.DestinationID p)) = true ∧
      is_int64 (deliveryResponse.DestinationVersion p) ∧ is_int64 (deliveryResponse.Generation p) ∧
      Forall attempt_presentable (default [] (deliveryResponse.Attempts p))
  end.

Lemma readable_int n : is_int64 n → readable (int_json n) = true.
Proof. apply FormatInt_integer. Qed.

Lemma text_ascii l : Forall is_ascii l → text l = true.
Proof. intros Hl. apply text_spec. split; [by apply is_ascii_byte|by apply valid_ascii]. Qed.

Section round_trip.
Context (zone : Z → Z) (Hzone : ∀ t, Z.rem (zone t) 60 = 0).

Lemma time_json_spec t v : time_json zone t = Some v →
  readable v = true ∧ height v = 0 ∧ read_time v = Some t.
Proof.
  intros (l & Hl & ->)%fmap_Some. cbn [readable height read_time]. split_and!; [|done|].
  - apply text_ascii. eapply Forall_impl; [by eapply rfc3339_bytes|]. unfold is_ascii. cbn. lia.
  - by eapply read_rfc3339_text.
Qed.

Lemma attempt_json_spec a v : attempt_presentable a → attempt_json zone a = Some v →
  readable v = true ∧ height v = 1 ∧ read_attempt v = Some a.
Proof.
  intros (Hg & Hs & Hc) Hv. unfold attempt_json in Hv.
  apply bind_Some in Hv as (started & (Hs1 & Hs2 & Hs3)%time_json_spec & Hv).
  apply bind_Some in Hv as (finished & (Hf1 & Hf2 & Hf3)%time_json_spec & Hv).
  apply (inj Some) in Hv as <-. split_and!.
  - cbn [readable forallb fst snd]. rewrite Hs1, Hf1, (readable_int _ Hg), !andb_true_r. cbn [andb].
    destruct (attemptSummaryResponse.ResultClass a), (attemptSummaryResponse.ResponseStatus a),
      (attemptSummaryResponse.ErrorCategory a); cbn [from_option] in *; cbn [readable string_json];
      rewrite ?readable_int, ?Hc by done; reflexivity.
  - cbn [height map fold_right fst snd]. rewrite Hs2, Hf2.
    by destruct (attemptSummaryResponse.ResponseStatus a), (attemptSummaryResponse.ErrorCategory a).
  - unfold read_attempt. members ltac:(first [rewrite read_int_json by done|rewrite read_class_json
      |rewrite read_nullable_int by done|rewrite read_nullable_string|rewrite Hs3|rewrite Hf3]).
    by destruct a.
Qed.

Lemma attempts_json_spec l vs : Forall attempt_presentable l → mapM (attempt_json zone) l = Some vs →
  Forall (λ v, readable v = true ∧ height v = 1) vs ∧ mapM read_attempt vs = Some l.
Proof.
  intros Hl. revert vs. induction Hl as [|a l Ha _ IH]; intros vs Hvs; [by injection Hvs as <-|].
  cbn in Hvs. apply bind_Some in Hvs as (v & Hv & Hvs). apply bind_Some in Hvs as (vs' & Hvs' & [= <-]).
  destruct (IH vs' Hvs') as [Hr Hm]. destruct (attempt_json_spec a v Ha Hv) as (H1 & H2 & H3).
  split; [by constructor|]. cbn. by rewrite H3, Hm.
Qed.

Lemma heights_max vs h : Forall (λ v, readable v = true ∧ height v = h) vs → 0 ≤ h →
  fold_right Z.max 0 (map height vs) ≤ h.
Proof. intros Hvs Hh. induction Hvs as [|v vs [_ Hv] _ IH]; cbn; lia. Qed.

Lemma delivery_json_spec p v : presentable (Payload p) → delivery_json zone p = Some v →
  readable v = true ∧ height v ≤ 3 ∧ read_content v = Some (Payload p).
Proof.
  intros (Hid & Hdest & Hver & Hgen & Hatt) Hv. unfold delivery_json in Hv.
  apply bind_Some in Hv as (accepted & (Ha1 & Ha2 & Ha3)%time_json_spec & Hv).
  apply bind_Some in Hv as (next & (Hn1 & Hn2 & Hn3)%time_json_spec & Hv).
  apply bind_Some in Hv as (deadline & (Hd1 & Hd2 & Hd3)%time_json_spec & Hv).
  apply bind_Some in Hv as (attempts & Hatts & Hv). apply (inj Some) in Hv as <-.
  assert (∃ o, attempts = match o with None => [] | Some vs => [(key "attempts", JArr vs)] end ∧
    Forall (λ v, readable v = true ∧ height v = 1) (default [] o) ∧
    read_attempts (JArr <$> o) = Some (deliveryResponse.Attempts p)) as (o & -> & Ho & Hread).
  { destruct (deliveryResponse.Attempts p) as [l|]; [|injection Hatts as <-; by exists None].
    apply bind_Some in Hatts as (vs & Hvs & [= <-]). apply attempts_json_spec in Hvs as [Hr Hm]; [|done].
    exists (Some vs). cbn. by rewrite Hm. }
  split_and!.
  - cbn [readable app forallb fst snd]. rewrite Ha1, Hn1, Hd1, (readable_int _ Hver), (readable_int _ Hgen).
    unfold string_json. cbn [readable]. rewrite Hid, Hdest.
    assert (forallb readable (default [] o) = true) as Hb.
    { apply forallb_Forall. eapply Forall_impl; [exact Ho|]. by intros ? [? _]. }
    by destruct (deliveryResponse.Status p), o; cbn [forallb readable fst snd default from_option id] in *; rewrite ?Hb.
  - pose proof (heights_max _ 1 Ho ltac:(lia)).
    destruct o; cbn [height app map fold_right fst snd string_json int_json default from_option id] in *;
      rewrite Ha2, Hn2, Hd2; lia.
  - cbn [read_content app]. set (last := match o with None => [] | Some _ => _ end).
    assert (get_member "error" last = None ∧ get_member "attempts" last = JArr <$> o) as [Herr Hlast].
    { subst last. destruct o; [|done]. by rewrite get_member_here, get_member_skip by done. }
    unfold read_delivery. members ltac:(first [rewrite Herr|rewrite read_string_json|rewrite read_status_json
      |rewrite read_int_json by done|rewrite Ha3|rewrite Hn3|rewrite Hd3|rewrite Hlast, Hread]).
    by destruct p.
Qed.

(** The content of an answer is what its value reads as. *)
Lemma content_json_spec c v : presentable c → content_json zone c = Some v →
  readable v = true ∧ height v ≤ 3 ∧ read_content v = Some c.
Proof.
  destruct c as [code message|p]; [|by apply delivery_json_spec].
  intros [Hc Hm] Hv. apply (inj Some) in Hv as <-. split_and!.
  - unfold error_json, string_json. cbn [readable forallb fst snd]. by rewrite Hc, Hm.
  - done.
  - unfold error_json. cbn [read_content]. members ltac:(rewrite read_string_json). done.
Qed.

Lemma read_body_text c v : presentable c → content_json zone c = Some v →
  read_body (encode v ++ [10]) = Some c.
Proof.
  intros Hc Hv. destruct (content_json_spec c v Hc Hv) as (Hr & Hh & Hread).
  unfold read_body. rewrite next_value_encode; [by rewrite bool_decide_true|done|unfold maxNestingDepth; lia|].
  apply delimiter_follows. set_solver.
Qed.
End round_trip.

(** ** Instants that have a text *)

(** A year of four digits, where clocks are less than a day off. *)
Definition datable (zone : Z → Z) (t : Z) : bool :=
  let y := year (date_of ((t / 1000000000 + zone t) / 86400)) in
  (0 <=? y) && (y <=? 9999) && (Z.abs (Z.quot (zone t) 60) / 60 <? 24).

Definition attempt_instants (a : attemptSummaryResponse.t) : list Z :=
  [attemptSummaryResponse.StartedAt a; attemptSummaryResponse.FinishedAt a].

Definition instants (c : content) : list Z :=
  match c with
  | ErrorCode _ _ => []
  | Payload p =>
      [deliveryResponse.AcceptedAt p; deliveryResponse.NextAttemptAt p; deliveryResponse.RetryDeadline p] ++
      mjoin (attempt_instants <$> default [] (deliveryResponse.Attempts p))
  end.

Section instants.
Context (zone : Z → Z).

Lemma time_json_Some t : is_Some (time_json zone t) ↔ datable zone t = true.
Proof.
  unfold time_json, rfc3339, datable. rewrite fmap_is_Some.
  destruct (_ && _); (split; [try done; by intros []|try done; by eexists]).
Qed.

Lemma attempt_json_Some a :
  is_Some (attempt_json zone a) ↔ forallb (datable zone) (attempt_instants a) = true.
Proof.
  unfold attempt_json, attempt_instants. cbn [forallb]. rewrite !andb_true_iff, <- !time_json_Some.
  destruct (time_json zone _), (time_json zone _); cbn; unfold is_Some; naive_solver.
Qed.

Lemma attempts_json_Some l :
  is_Some (mapM (attempt_json zone) l) ↔ forallb (datable zone) (mjoin (attempt_instants <$> l)) = true.
Proof.
  induction l as [|a l IH]; [by cbn; split; [|by eexists]|].
  rewrite fmap_cons. change (mjoin (?x :: ?k)) with (x ++ mjoin k).
  rewrite forallb_app, andb_true_iff, <- IH, <- attempt_json_Some. cbn [mapM].
  destruct (attempt_json zone a), (mapM (attempt_json zone) l); cbn; unfold is_Some; naive_solver.
Qed.

Lemma content_json_Some c :
  is_Some (content_json zone c) ↔ forallb (datable zone) (instants c) = true.
Proof.
  destruct c as [code message|p]; [by split; [|by eexists]|]. unfold content_json, delivery_json, instants.
  rewrite forallb_app, andb_true_iff, <- attempts_json_Some. cbn [forallb].
  rewrite !andb_true_iff, <- !time_json_Some.
  destruct (time_json zone _), (time_json zone _), (time_json zone _), (deliveryResponse.Attempts p) as [l|];
    cbn [default from_option id]; try destruct (mapM (attempt_json zone) l); cbn; unfold is_Some; naive_solver.
Qed.
End instants.

(** C31: A client that reads the body of an answer gets what the handler
    answered: the error code and message, or the delivery with every field and
    every attempt, whatever characters its texts have and whatever zone of
    whole minutes its instants are in.  An instant whose year has not four
    digits leaves the body empty, the status having been sent. *)
Theorem answers_read_back zone r :
  (∀ t, Z.rem (zone t) 60 = 0) → presentable (Response.Content r) →
  if forallb (datable zone) (instants (Response.Content r))
  then read_body (response_body zone r) = Some (Response.Content r)
  else response_body zone r = [].
Proof.
  intros Hz Hp. pose proof (content_json_Some zone (Response.Content r)) as Hs. unfold response_body.
  destruct (content_json zone _) as [v|] eqn:Hv.
  - rewrite (proj1 Hs) by done. by apply (read_body_text zone).
  - destruct (forallb _ _); [|done]. by destruct (proj2 Hs eq_refl).
Qed.

(** ** Status answers *)

(** The rows of a database: 64-bit integers, UTF-8 texts and instants that
    have a text. *)
Definition delivery_storable (zone : Z → Z) (id : string) (r : delivery_row) : Prop :=
  text (bytes_of id) = true ∧ text (bytes_of (d_destination_id r)) = true ∧
  is_int64 (d_destination_version r) ∧ is_int64 (d_generation r) ∧
  Forall (λ t, datable zone (time_of t) = true)
    [d_accepted_at r; d_next_attempt_at r; d_retry_deadline r].
Definition attempt_storable (zone : Z → Z) (_ : string) (a : attempt_row) : Prop :=
  is_int64 (a_generation a) ∧ from_option is_int64 True (a_response_status a) ∧
  from_option (λ s, text (bytes_of s) = true) True (a_error_category a) ∧
  Forall (λ t, datable zone (time_of t) = true) [a_started_at a; a_finished_at a].
Definition storable (zone : Z → Z) (db : DB) : Prop :=
  map_Forall (delivery_storable zone) (deliveries db) ∧
  map_Forall (attempt_storable zone) (delivery_attempts db).

#[export] Instance is_int64_dec n : Decision (is_int64 n).
Proof. unfold is_int64. apply _. Defined.
#[export] Instance from_option_dec {A} (P : A → Prop) `{∀ a, Decision (P a)} o :
  Decision (from_option P True o).
Proof. destruct o; apply _. Defined.

#[export] Instance storable_dec zone db : Decision (storable zone db).
Proof. unfold storable, delivery_storable, attempt_storable. apply _. Defined.

Section status.
Context `{Unicode, Postgres}.

(** An answer whose text reads back; the refusals of the handlers are plain
    text. *)
Definition told (zone : Z → Z) (r : Response.t) : Prop :=
  presentable (Response.Content r) ∧ forallb (datable zone) (instants (Response.Content r)) = true.

Lemma attempts_told zone env caller id db attempts : storable zone db →
  ListAttemptSummaries env caller id statusAttemptLimit db = Ok attempts →
  Forall attempt_presentable (attempt_response <$> attempts) ∧
  forallb (datable zone) (mjoin (attempt_instants <$> (attempt_response <$> attempts))) = true.
Proof.
  intros Hst (id' & _ & _ & _ & Hin & _)%ListAttemptSummaries_Ok.
  assert (Hall : Forall (λ s, ∃ aid a, delivery_attempts db !! aid = Some a ∧ s = summary_of a) attempts).
  { apply Forall_forall. intros s (aid & a & Ha & _ & ->)%Hin. by exists aid, a. }
  clear Hin. induction Hall as [|s attempts (aid & a & Ha & ->) _ [IHp IHi]]; [done|].
  destruct (proj2 Hst aid a Ha) as (Hg & Hs & Hc & Ht).
  apply Forall_cons in Ht as [Ht1 Ht]. apply Forall_cons in Ht as [Ht2 _]. split.
  - rewrite fmap_cons. constructor; [|done]. by split_and!.
  - rewrite !fmap_cons. change (mjoin (?x :: ?k)) with (x ++ mjoin k).
    rewrite forallb_app, IHi, andb_true_r. cbn. by rewrite Ht1, Ht2.
Qed.

Lemma get_told zone env request db : (∀ n, storable zone (before env n db)) →
  told zone (get env request db).1.
Proof.
  intros Hst. unfold get, authenticate.
  destruct (authenticatePrincipal _ _ _) as [principal|resp] eqn:Ea.
  2: { by apply authenticatePrincipal_Err in Ea as [->| ->]. }
  change (e_others env 1 (e_others env 0 db)) with (before env 2 db).
  rewrite Get_eq. destruct (uuid_in (HttpRequest.PathID request)) as [id|]; [|done].
  destruct (e_io env 1 0%nat); [|done].
  destruct (deliveries (before env 2 db) !! id) as [r|] eqn:Hr; [|done].
  destruct (bool_decide _); [|done]. change (e_others env 2 (before env 2 db)) with (before env 3 db).
  destruct (ListAttemptSummaries _ _ _ _ _) as [attempts|e] eqn:El; [|done].
  apply (attempts_told zone) in El as [Hp Hi]; [|done].
  destruct (proj1 (Hst 2%nat) id r Hr) as (H1 & H2 & H3 & H4 & Ht).
  repeat (apply Forall_cons in Ht as [? Ht]). split; [by split_and!|].
  cbn [Response.Content fst writeJSON instants]. rewrite forallb_app. apply andb_true_iff. split; [|done].
  cbn. by rewrite !andb_true_iff.
Qed.

(** The delivery and the attempt as a client is to see them. *)
Definition shown_attempt (a : attempt_row) : attemptSummaryResponse.t :=
  {| attemptSummaryResponse.Generation := a_generation a;
     attemptSummaryResponse.ResultClass := a_result_class a;
     attemptSummaryResponse.ResponseStatus := a_response_status a;
     attemptSummaryResponse.ErrorCategory := a_error_category a;
     attemptSummaryResponse.StartedAt := a_started_at a * 1000;
     attemptSummaryResponse.FinishedAt := a_finished_at a * 1000 |}.
Definition shown_delivery (id : string) (r : delivery_row) (attempts : list attempt_row)
    : deliveryResponse.t :=
  {| deliveryResponse.ID := id;
     deliveryResponse.Status := d_status r;
     deliveryResponse.DestinationID := d_destination_id r;
     deliveryResponse.DestinationVersion := d_destination_version r;
     deliveryResponse.Generation := d_generation r;
     deliveryResponse.AcceptedAt := d_accepted_at r * 1000;
     deliveryResponse.NextAttemptAt := d_next_attempt_at r * 1000;
     deliveryResponse.RetryDeadline := d_retry_deadline r * 1000;
     deliveryResponse.Attempts := Some (shown_attempt <$> attempts) |}.

(** The rows a status query shows: those of the delivery of the path, with its
    attempts, newest first, without repetition, at most twenty and all of them
    when fewer. *)
Definition shows (env : api_env) (request : HttpRequest.t) (db db' : DB) (id : string)
    (r : delivery_row) (rows : list (string * attempt_row)) : Prop :=
  uuid_in (HttpRequest.PathID request) = Some id ∧
  deliveries (before env 2 db) !! id = Some r ∧
  Z.of_nat (length rows) ≤ 20 ∧ NoDup rows ∧ StronglySorted newest_first rows ∧
  (∀ aid a, (aid, a) ∈ rows → delivery_attempts db' !! aid = Some a ∧ a_delivery_id a = id) ∧
  (Z.of_nat (length rows) < 20 → ∀ aid a r', delivery_attempts db' !! aid = Some a →
     a_delivery_id a = id → deliveries db' !! id = Some r' → d_caller_id r' = d_caller_id r →
     (aid, a) ∈ rows).

Lemma get_answers env request db :
  (∀ s u, uuid_in s = Some u → uuid_in u = Some u) →
  let response := (get env request db).1 in
  (Response.Status response = 200 ∧ ∃ id r rows,
     shows env request db (get env request db).2 id r rows ∧
     Response.Content response = Payload (shown_delivery id r rows.*2)) ∨
  response = writeError 401 "unauthorized" "valid caller authentication is required" ∨
  response = writeError 404 "delivery_not_found" "delivery was not found" ∨
  response = internalError.
Proof.
  intros Huuid. unfold get, authenticate.
  destruct (authenticatePrincipal _ _ _) as [principal|resp] eqn:Ea.
  2: { apply authenticatePrincipal_Err in Ea as [->| ->]; auto. }
  change (e_others env 1 (e_others env 0 db)) with (before env 2 db).
  rewrite Get_eq. destruct (uuid_in (HttpRequest.PathID request)) as [id|] eqn:Hid; [|by auto].
  destruct (e_io env 1 0%nat); [|by auto].
  destruct (deliveries (before env 2 db) !! id) as [r|] eqn:Hr; [|by auto].
  destruct (bool_decide _) eqn:Hc; [|by auto]. apply bool_decide_eq_true in Hc.
  destruct (ListAttemptSummaries _ _ _ _ _) as [attempts|e] eqn:El; [|by auto].
  apply ListAttemptSummaries_rows in El as (id' & rows & Hid' & -> & Hlen & Hnd & Hsort & Hin & Hall).
  simpl in Hid'. rewrite (Huuid _ _ Hid) in Hid'. injection Hid' as <-.
  left. split; [done|]. exists id, r, rows. split.
  - split_and!; try done.
    + intros aid a [? [? _]]%Hin. done.
    + intros Hlt aid a r' Ha Hd Hr' Hc'. apply Hall; [done|done|]. split; [done|]. exists r'. split; [done|]. congruence.
  - cbn. unfold with_attempts, shown_delivery. cbn. repeat f_equal. by rewrite <- !list_fmap_compose.
Qed.

End status.

(** ** Witnesses *)

Module texts.
(** A delivery to a destination with an awkward name, in a zone ahead of UTC,
    that failed once. *)
Definition p0 : deliveryResponse.t :=
  {| deliveryResponse.ID := "3f0c";
     deliveryResponse.Status := StatusPending;
     deliveryResponse.DestinationID := string_of (bytes_of "<b\\" ++ [9; 226; 130; 172; 226; 128; 168]);
     deliveryResponse.DestinationVersion := -3;
     deliveryResponse.Generation := 2;
     deliveryResponse.AcceptedAt := 1700000000123450000;
     deliveryResponse.NextAttemptAt := 1700000060000000000;
     deliveryResponse.RetryDeadline := 1700086400123450000;
     deliveryResponse.Attempts := Some [attemptSummaryResponse.mk 1 ClassRetryableFailure (Some 503) None
       1700000001000000000 1700000002000000000] |}.
Definition east : Z → Z := λ _, 19800.
Definition far : Response.t :=
  writeJSON 202 (deliveryResponse.mk "3f0c" StatusPending "d" 1 1 0 0 (253402300800 * 1000000000) None).

End texts.
Import texts.

Lemma answers_read_back_witness :
  (read_body (response_body east (writeJSON 200 p0)) = Some (Payload p0) ∧
   read_body (response_body east internalError) =
     Some (ErrorCode "service_unavailable" "service is temporarily unavailable")) ∧
  response_body east far = [].
Proof.
  assert (Hz : ∀ t, Z.rem (east t) 60 = 0) by done.
  split; [split|].
  - refine (answers_read_back east (writeJSON 200 p0) Hz _).
    repeat split; try done; repeat constructor; done.
  - exact (answers_read_back east internalError Hz (conj eq_refl eq_refl)).
  - refine (answers_read_back east far Hz _). repeat split; try done; repeat constructor; done.
Defined.

Definition sent_id : string := default "" (head (map_to_list (delivery_attempts db_known)).*1).

