(* ===== verification/Requests.v ===== *)
(** * What a client submits is what the service reads

    A reference client writes a submission as JSON, its body in base64; the
    handler of POST /deliveries reads from that text the submission meant:
    destination, method, canonical headers, and the body byte for byte. *)

From S2P Require Import Prelude GoStrings GoUrl Json Utf8 JsonText Model Database Store Lifecycle Refinement Scenario Admission Hash Netip Outbound Http Api.

Local Open Scope Z_scope.

(** ** Base64 *)

Definition base64_char (v : Z) : Z :=
  if v <? 26 then 65 + v
  else if v <? 52 then 71 + v
  else if v <? 62 then v - 4
  else if v =? 62 then 43 else 47.

Fixpoint base64_encode (l : list Z) : list Z :=
  match l with
  | a :: b :: c :: l =>
      base64_char (a / 4) :: base64_char (a mod 4 * 16 + b / 16) ::
      base64_char (b mod 16 * 4 + c / 64) :: base64_char (c mod 64) :: base64_encode l
  | [a; b] =>
      [base64_char (a / 4); base64_char (a mod 4 * 16 + b / 16); base64_char (b mod 16 * 4); 61]
  | [a] => [base64_char (a / 4); base64_char (a mod 4 * 16); 61; 61]
  | [] => []
  end.

(** Three bytes at a time. *)
Lemma threes_ind (P : list Z → Prop) :
  P [] → (∀ a, P [a]) → (∀ a b, P [a; b]) → (∀ a b c l, P l → P (a :: b :: c :: l)) → ∀ l, P l.
Proof.
  intros H0 H1 H2 H3. fix IH 1. intros [|a [|b [|c l]]]; [done|apply H1|apply H2|apply H3, IH].
Qed.

Lemma sextets (P : Z → bool) : forallb P (seqZ 0 64) = true → ∀ v, 0 ≤ v < 64 → P v = true.
Proof.
  intros Hall v Hv. rewrite forallb_forall in Hall. apply Hall, list_elem_of_In, elem_of_seqZ. lia.
Qed.

Lemma base64_value_char v : 0 ≤ v < 64 → base64_value (base64_char v) = Some v.
Proof.
  intros Hv. apply (bool_decide_eq_true (base64_value (base64_char v) = Some v)).
  revert v Hv. apply (sextets (λ v, bool_decide (base64_value (base64_char v) = Some v))). reflexivity.
Qed.

(** A character of the alphabet is neither padding nor a line end. *)
Lemma base64_char_range v : 0 ≤ v < 64 → 43 ≤ base64_char v < 123 ∧ base64_char v ≠ 61.
Proof. intros Hv. unfold base64_char. repeat case_match; to_prop; lia. Qed.

Lemma byte_parts a : is_byte a → 0 ≤ a / 4 < 64 ∧ 0 ≤ a mod 4 < 4 ∧ 0 ≤ a / 16 < 16 ∧
  0 ≤ a mod 16 < 16 ∧ 0 ≤ a / 64 < 4 ∧ 0 ≤ a mod 64 < 64.
Proof. unfold is_byte. intros Ha. Z.div_mod_to_equations. lia. Qed.

Lemma first_byte a y : is_byte a → 0 ≤ y < 16 →
  Z.lor (Z.shiftl (a / 4) 2) (Z.shiftr (a mod 4 * 16 + y) 4) = a.
Proof.
  intros Ha Hy. pose proof (byte_parts a Ha). rewrite Z.shiftr_div_pow2 by lia. change (2 ^ 4) with 16.
  rewrite Z.div_add_l, (Z.div_small y), Z.add_0_r by lia. rewrite lor_shiftl by lia.
  change (2 ^ 2) with 4. pose proof (Z.div_mod a 4). lia.
Qed.

Lemma second_byte b x z : is_byte b → 0 ≤ z < 4 →
  Z.lor (Z.shiftl (Z.land (x * 16 + b / 16) 15) 4) (Z.shiftr (b mod 16 * 4 + z) 2) = b.
Proof.
  intros Hb Hz. pose proof (byte_parts b Hb). change 15 with (Z.ones 4). rewrite Z.land_ones by lia.
  change (2 ^ 4) with 16. rewrite (Z.add_comm (x * 16)), Z.mod_add, Z.mod_small by lia.
  rewrite Z.shiftr_div_pow2 by lia. change (2 ^ 2) with 4.
  rewrite Z.div_add_l, (Z.div_small z), Z.add_0_r by lia. rewrite lor_shiftl by lia.
  change (2 ^ 4) with 16. pose proof (Z.div_mod b 16). lia.
Qed.

Lemma third_byte c x : is_byte c → Z.lor (Z.shiftl (Z.land (x * 4 + c / 64) 3) 6) (c mod 64) = c.
Proof.
  intros Hc. pose proof (byte_parts c Hc). change 3 with (Z.ones 2). rewrite Z.land_ones by lia.
  change (2 ^ 2) with 4. rewrite (Z.add_comm (x * 4)), Z.mod_add, Z.mod_small by lia.
  rewrite lor_shiftl by lia. change (2 ^ 6) with 64. pose proof (Z.div_mod c 64). lia.
Qed.

Lemma base64_quads_encode l : Forall is_byte l → base64_quads (base64_encode l) = Some l.
Proof.
  induction l as [|a|a b|a b c l IH] using threes_ind; intros Hl; [done|..];
    repeat (apply Forall_cons in Hl as [? Hl]);
    repeat match goal with H : is_byte ?x |- _ => pose proof (byte_parts x H); revert H end; intros;
    cbn [base64_encode base64_quads];
    rewrite !base64_value_char by lia; cbn [mbind option_bind].
  - cbn [Z.eqb Pos.eqb andb]. rewrite bool_decide_true by done.
    rewrite <- (Z.add_0_r (a mod 4 * 16)), first_byte by (done || lia). done.
  - rewrite (proj2 (Z.eqb_neq (base64_char (b mod 16 * 4)) 61)) by (apply base64_char_range; lia).
    rewrite first_byte by (done || lia). cbn [Z.eqb Pos.eqb]. rewrite bool_decide_true by done.
    rewrite <- (Z.add_0_r (b mod 16 * 4)), second_byte by (done || lia). done.
  - rewrite (proj2 (Z.eqb_neq (base64_char (b mod 16 * 4 + c / 64)) 61)) by (apply base64_char_range; lia).
    rewrite (proj2 (Z.eqb_neq (base64_char (c mod 64)) 61)) by (apply base64_char_range; lia).
    rewrite IH by done. cbn [mbind option_bind].
    rewrite first_byte, second_byte, third_byte by (done || lia). done.
Qed.

Lemma base64_encode_chars l : Forall is_byte l → Forall (λ b, 43 ≤ b < 123) (base64_encode l).
Proof.
  induction l as [|a|a b|a b c l IH] using threes_ind; intros Hl; [constructor|..];
    repeat (apply Forall_cons in Hl as [? Hl]);
    repeat match goal with H : is_byte ?x |- _ => pose proof (byte_parts x H); revert H end; intros;
    cbn [base64_encode];
    repeat (apply List.Forall_cons; [try (apply base64_char_range; lia); lia|]); first [by apply IH|constructor].
Qed.

Lemma filter_all {A} (P : A → Prop) `{∀ a, Decision (P a)} l : Forall P l → filter P l = l.
Proof. induction 1 as [|a l Ha _ IH]; [done|]. by rewrite filter_cons_True, IH. Qed.

Lemma base64_decode_encode l : Forall is_byte l → base64_decode (base64_encode l) = Some l.
Proof.
  intros Hl. unfold base64_decode. rewrite filter_all; [by apply base64_quads_encode|].
  eapply Forall_impl; [by apply base64_encode_chars|]. cbn. intros b Hb.
  by rewrite (proj2 (Z.eqb_neq b 10)), (proj2 (Z.eqb_neq b 13)) by lia.
Qed.

(** ** The client *)

Definition headers_json (hs : list (string * string)) : json :=
  JObj ((λ h, (bytes_of h.1, JStr (bytes_of h.2))) <$> hs).

Definition submission_json (destination method : string) (hs : list (string * string)) (body : list Z) : json :=
  JObj [(bytes_of "destination_id", JStr (bytes_of destination));
        (bytes_of "method", JStr (bytes_of method));
        (bytes_of "headers", headers_json hs);
        (bytes_of "body_base64", JStr (base64_encode body))].

Definition submission_text destination method hs body : list Z :=
  encode (submission_json destination method hs body).

(** UTF-8 throughout, but for the body, which is bytes. *)
Definition sensible (destination method : string) (hs : list (string * string)) (body : list Z) : Prop :=
  text (bytes_of destination) = true ∧ text (bytes_of method) = true ∧
  Forall (λ h, text (bytes_of h.1) = true ∧ text (bytes_of h.2) = true) hs ∧ Forall is_byte body.

Lemma submission_readable destination method hs body : sensible destination method hs body →
  readable (submission_json destination method hs body) = true ∧
  height (submission_json destination method hs body) ≤ 2.
Proof.
  intros (Hd & Hm & Hh & Hb). unfold submission_json, headers_json. split.
  - cbn [readable forallb fst snd]. rewrite Hd, Hm.
    assert (text (base64_encode body) = true) as ->.
    { apply text_spec. pose proof (base64_encode_chars body Hb) as Hc.
      split; [|apply valid_ascii]; (eapply Forall_impl; [exact Hc|]); unfold is_byte, is_ascii; cbn; lia. }
    assert (forallb (λ m, text m.1 && readable m.2)
      ((λ h : string * string, (bytes_of h.1, JStr (bytes_of h.2))) <$> hs) = true) as ->.
    { apply forallb_Forall, Forall_fmap. eapply Forall_impl; [exact Hh|]. cbn. intros h [-> ->]. done. }
    reflexivity.
  - cbn [height map fold_right fst snd].
    assert (fold_right Z.max 0 (map (λ m, height m.2)
      ((λ h : string * string, (bytes_of h.1, JStr (bytes_of h.2))) <$> hs)) = 0) as ->; [|done].
    clear. induction hs as [|h hs IH]; [done|]. cbn in *. by rewrite IH.
Qed.

Section reading.
Context `{Unicode, Postgres}.

(** Distinct names make the map the client meant. *)
Lemma caller_headers_distinct hs seen m :
  NoDup (canonical_name <$> hs.*1) → (∀ n, n ∈ canonical_name <$> hs.*1 → n ∉ seen) →
  caller_headers seen m ((λ h, (bytes_of h.1, JStr (bytes_of h.2))) <$> hs) =
    Some (foldl (λ m h, <[h.1 := h.2]> m) m hs).
Proof.
  revert seen m. induction hs as [|[n v] hs IH]; intros seen m Hnd Hseen; [done|].
  csimpl in *. apply NoDup_cons in Hnd as [Hn Hnd]. rewrite !string_of_bytes_of.
  rewrite bool_decide_false by (apply Hseen; left). rewrite IH; [done|done|].
  intros n' Hn'. specialize (Hseen n'). set_solver.
Qed.

Lemma foldl_insert_map hs (m : gmap string string) : NoDup hs.*1 → (∀ n, n ∈ hs.*1 → m !! n = None) →
  foldl (λ m h, <[h.1 := h.2]> m) m hs = list_to_map hs ∪ m.
Proof.
  revert m. induction hs as [|[n v] hs IH]; intros m Hnd Hm; csimpl in *.
  { by rewrite (left_id_L ∅ (∪)). }
  apply NoDup_cons in Hnd as [Hn Hnd]. rewrite IH; [|done|].
  - rewrite <- insert_union_r, insert_union_l; [done|]. by apply not_elem_of_list_to_map_1.
  - intros n' Hn'. rewrite lookup_insert_ne; [apply Hm; by right|]. by intros ->.
Qed.

(** [decodeCallerHeaders] of what the client wrote. *)
Lemma decodeCallerHeaders_text hs : NoDup (canonical_name <$> hs.*1) →
  decodeCallerHeaders (Some (headers_json hs)) = Some (list_to_map hs).
Proof.
  intros Hnd. cbn. rewrite caller_headers_distinct; [|done|set_solver].
  rewrite foldl_insert_map, (right_id_L ∅ (∪)); [done| |set_solver]. by apply NoDup_fmap_1 in Hnd.
Qed.

(** [Decode] of what the client wrote, member by member. *)
Lemma destination_member d m h b s :
  submission_member (submissionRequest.mk d m h b) (bytes_of "destination_id", JStr (bytes_of s)) =
    Some (submissionRequest.mk s m h b).
Proof. unfold submission_member. cbn [fst snd string_field mbind option_bind]. by rewrite !string_of_bytes_of. Qed.

Lemma method_member d m h b s :
  submission_member (submissionRequest.mk d m h b) (bytes_of "method", JStr (bytes_of s)) =
    Some (submissionRequest.mk d s h b).
Proof. unfold submission_member. cbn [fst snd string_field mbind option_bind]. by rewrite !string_of_bytes_of. Qed.

Lemma headers_member d m h b v :
  submission_member (submissionRequest.mk d m h b) (bytes_of "headers", v) =
    Some (submissionRequest.mk d m (Some v) b).
Proof. unfold submission_member. cbn [fst snd]. by rewrite !string_of_bytes_of. Qed.

Lemma body_member d m h b s :
  submission_member (submissionRequest.mk d m h b) (bytes_of "body_base64", JStr s) =
    Some (submissionRequest.mk d m h s).
Proof. unfold submission_member. cbn [fst snd string_field mbind option_bind]. by rewrite !string_of_bytes_of. Qed.

Lemma unmarshal_text destination method hs body :
  unmarshal submission_member (submissionRequest.mk "" "" None [])
    (submission_json destination method hs body) =
  Some (submissionRequest.mk destination method (Some (headers_json hs)) (base64_encode body)).
Proof.
  unfold unmarshal, submission_json. cbn [fill].
  rewrite destination_member. cbn [mbind option_bind]. rewrite method_member. cbn [mbind option_bind].
  rewrite headers_member. cbn [mbind option_bind]. by rewrite body_member.
Qed.

Lemma decode_limited_text limit v :
  readable v = true → height v ≤ maxNestingDepth → is_container v = true →
  Z.of_nat (length (encode v)) ≤ limit → decode_limited limit (encode v) = Ok (v, true).
Proof.
  intros Hv Hh Hc Hl. unfold decode_limited. rewrite take_ge by lia.
  rewrite <- (app_nil_r (encode v)) at 1. rewrite next_value_encode by (done || by destruct v).
  rewrite (proj2 (Z.ltb_ge limit _)) by lia. cbn [andb negb skip_ws]. by rewrite bool_decide_true.
Qed.

(** The names and values are those of headers. *)
Lemma canonical_of_text env hs : visits_all env → all_valid hs → NoDup (canonical_name <$> hs.*1) →
  CanonicalCallerHeaders (e_visit env 0 (list_to_map hs)) = Ok (list_to_map (canonical_pairs hs)).
Proof.
  intros Hvis Hall Hnd. apply (CanonicalCallerHeaders_order hs).
  - rewrite (Hvis 0%nat), map_to_list_to_map; [done|]. by apply NoDup_fmap_1 in Hnd.
  - apply CanonicalCallerHeaders_Ok. split_and!; [done| |done].
    unfold canonical_pairs. rewrite <- list_fmap_compose. by rewrite <- list_fmap_compose in Hnd.
Qed.

(** ** Headers as they are stored *)

Lemma json_string_text s : text (bytes_of s) = true → Store.json_string s = s.
Proof.
  rewrite text_spec. intros [Hb Hv]. unfold Store.json_string, map_runes, range_runes.
  change (string_of (sanitize (bytes_of s)) = s). by rewrite sanitize_valid, string_of_bytes_of.
Qed.

Lemma json_headers_text m : map_Forall (λ n v, text (bytes_of n) = true ∧ text (bytes_of v) = true) m →
  json_headers m = m.
Proof.
  intros Hm. unfold json_headers. set (l := merge_sort key_order (map_to_list m)).
  assert (Hp : l ≡ₚ map_to_list m) by apply merge_sort_Permutation.
  assert (Hl : ∀ k (acc : gmap string string), k ⊆ l → foldl (λ acc kv, <[Store.json_string kv.1 := Store.json_string kv.2]> acc) acc k =
    foldl (λ m h, <[h.1 := h.2]> m) acc k).
  { induction k as [|[n v] k IH]; intros acc Hk; [done|]. cbn [foldl fst snd].
    assert (Hin : (n, v) ∈ map_to_list m) by (rewrite <- Hp; set_solver).
    apply elem_of_map_to_list in Hin. destruct (Hm n v Hin) as [Hn Hv].
    rewrite !json_string_text by done. apply IH. set_solver. }
  rewrite Hl, foldl_insert_map, (right_id_L ∅ (∪)) by (done || set_solver || rewrite Hp; apply NoDup_fst_map_to_list).
  rewrite (list_to_map_proper l (map_to_list m)), list_to_map_to_list;
    [done|rewrite Hp; apply NoDup_fst_map_to_list|done].
Qed.

Lemma trimmed_text v : text (bytes_of v) = true → text (bytes_of (trimOptionalWhitespace v)) = true.
Proof.
  rewrite !text_spec. intros [Hb Hv]. unfold trimOptionalWhitespace, Trim. split; [apply bytes_of_range|].
  rewrite bytes_of_string_of.
  - apply valid_trim; [|done]. intros b Hb'%bool_decide_eq_true. set_unfold in Hb'.
    destruct Hb' as [->|[->|[]]]; by vm_compute.
  - rewrite Forall_forall in *. intros b Hin. apply Hb. by eapply trim_by_elem.
Qed.

(** Canonical headers are stored as they are. *)
Lemma canonical_headers_text hs : all_valid hs → NoDup (canonical_name <$> hs.*1) →
  Forall (λ h, text (bytes_of h.1) = true ∧ text (bytes_of h.2) = true) hs →
  json_headers (list_to_map (canonical_pairs hs)) = list_to_map (canonical_pairs hs).
Proof.
  intros Hall Hnd Ht. apply json_headers_text. intros n v Hl. apply elem_of_list_to_map_2 in Hl.
  unfold canonical_pairs in Hl. apply list_elem_of_fmap in Hl as ([n0 v0] & E & Hin). cbn in E. simplify_eq.
  unfold all_valid in Hall. rewrite Forall_forall in Hall, Ht. destruct (Hall _ Hin) as [Hn _].
  destruct (Ht _ Hin) as [_ Hv]. split; [|by apply trimmed_text].
  apply validHeaderName_token in Hn as [_ Hn]. apply text_spec. split; [apply bytes_of_range|].
  apply valid_ascii. apply token_ascii in Hn. by apply Forall_and in Hn as [Hn _].
Qed.
(** ** Reading and storing a submission *)

Section submission.
Context (env : api_env) (authorization key path destination method : string)
  (hs : list (string * string)) (body : list Z).

(** The request of the client, and when it is a proper one. *)
Definition written_request : HttpRequest.t :=
  HttpRequest.mk authorization key (submission_text destination method hs body) path.

Record proper : Prop := {
  pr_sensible : sensible destination method hs body;
  pr_headers : all_valid hs;
  pr_distinct : NoDup (canonical_name <$> hs.*1);
  pr_key : TrimSpace key ≠ "" ∧ len (TrimSpace key) ≤ 200;
  pr_fits : Z.of_nat (length (submission_text destination method hs body)) ≤ maxSubmissionJSONBytes
}.

Definition meant : submissionRequest.t :=
  submissionRequest.mk destination method (Some (headers_json hs)) (base64_encode body).

Lemma read_submission_text : visits_all env → proper →
  read_submission env written_request =
    if maxDeliveryPayloadBytes <? payloadSize (list_to_map (canonical_pairs hs)) body
    then Err (writeError 413 "payload_too_large" "Header and Body payload exceeds 256 KiB")
    else Ok (TrimSpace key, meant, list_to_map (canonical_pairs hs), body).
Proof.
  intros Hvis [Hs Hall Hnd [Hkey Hlen] Hfit].
  destruct (submission_readable destination method hs body Hs) as [Hr Hh].
  unfold read_submission, written_request. cbn [HttpRequest.IdempotencyKey HttpRequest.Body].
  rewrite (proj2 (String.eqb_neq _ "")), (proj2 (Z.ltb_ge 200 _)) by done. cbn [orb].
  unfold submission_text in *. rewrite decode_limited_text by (done || unfold maxNestingDepth; lia).
  rewrite unmarshal_text. cbn [negb submissionRequest.Headers submissionRequest.BodyBase64].
  rewrite decodeCallerHeaders_text by done.
  rewrite base64_decode_encode by (by destruct Hs as (_ & _ & _ & ?)).
  by rewrite canonical_of_text.
Qed.

(** C9: What a client writes is what is read and stored.  Take a request with
    an Idempotency-Key of 1 to 200 bytes after trimming, whose body is the JSON
    text of a destination, a method, headers with valid names and values and
    distinct canonical names, and any bytes as body, and let that text be within
    the 512 KiB the API reads.  Then POST /deliveries reads these, with the
    headers in canonical form and the body byte for byte, whatever escapes the
    texts contain and in whatever order the header map is visited, and refuses
    the request at this point, with 413, exactly when the canonical headers and
    the body exceed 256 KiB.  And when the answer is 202, the delivery it names
    is in the database: one that was there before, or a new one with exactly
    that destination, method, headers and body. *)
Theorem written_submissions_are_stored store db response db' :
  visits_all env → proper →
  read_submission env written_request =
    (if maxDeliveryPayloadBytes <? payloadSize (list_to_map (canonical_pairs hs)) body
     then Err (writeError 413 "payload_too_large" "Header and Body payload exceeds 256 KiB")
     else Ok (TrimSpace key, meant, list_to_map (canonical_pairs hs), body)) ∧
  (submit store env written_request db = (response, db') → Response.Status response = 202 →
   ∃ p r, Response.Content response = Payload p ∧ deliveries db' !! deliveryResponse.ID p = Some r ∧
     d_idempotency_key r = TrimSpace key ∧
     (db' = before env 3 db ∨
      deliveries (before env 3 db) !! deliveryResponse.ID p = None ∧ d_status r = StatusPending ∧
      d_destination_id r = destination ∧ d_method r = ToUpper (TrimSpace method) ∧
      d_caller_headers r = list_to_map (canonical_pairs hs) ∧ bytes_of (d_body r) = body)).
Proof.
  intros Hvis Hp. pose proof (read_submission_text Hvis Hp) as Hread. split; [done|].
  intros [[? _]|Hs]%submit_cases Hst; [done|].
  destruct Hs as (principal & input & headers & body' & d & sub & r & [Ha Hr Hd Hm] & Hs & ->).
  rewrite Hread in Hr. case_match; [done|]. injection Hr as <- <- <-.
  apply answer_submit_202 in Hst as [dl ->].
  apply AuthorizedDestination_Ok in Hd as (_ & Hid & _).
  apply make_submission_Ok in Hm as (_ & E2 & E3 & _ & E5 & E6 & E7 & _).
  exists (responseFromDelivery dl). cbn [answer_submit writeJSON Response.Content deliveryResponse.ID responseFromDelivery].
  apply run_tx_Ok, submit_body_Ok in Hs as [[-> Hq]|(_ & _ & id & oid & tid & sv & _ & _ & _ & _ & -> & Hb)].
  - apply lookup_key_Some in Hq as (r & Hr & [_ Hk] & Hdl & _). exists r. split_and!; [done|done|by rewrite Hk, E2|by left].
  - destruct Hb as (Hi & _ & _ & _ & ->). apply insert_delivery_Ok in Hi as (Hn & _).
    eexists. cbn. rewrite lookup_insert_eq. split_and!; [done|done|done|]. right. cbn.
    rewrite E3, E5, E6, E7, Hid. destruct Hp as [(_ & _ & Htext & Hbody) Hall Hnd _ _].
    by rewrite canonical_headers_text, bytes_of_string_of.
Qed.
End submission.
End reading.

(** ** A submission with an escape, a header to fold and a binary body *)

Definition order_body : list Z := [0; 255; 10; 34; 195].
Definition order_headers : list (string * string) := [(" X-Event ", "a<b ")].
Definition order_text : list Z := submission_text "billing" "post" order_headers order_body.

Lemma order_proper : proper " order-9 " "billing" "post" order_headers order_body.
Proof.
  split.
  - split_and!; [reflexivity|reflexivity|repeat constructor|]. repeat constructor; unfold is_byte; lia.
  - repeat constructor.
  - apply (bool_decide_unpack _). vm_compute. reflexivity.
  - split; vm_compute; discriminate.
  - vm_compute. discriminate.
Qed.

Definition shop_order : Response.t * DB :=
  submit store0 env0 (written_request "Bearer shop-key" " order-9 " "" "billing" "post" order_headers order_body) db_shop.

Lemma written_submissions_are_stored_witness :
  order_text = json_text
    "{'destination_id':'billing','method':'post','headers':{' X-Event ':'a\u003cb '},'body_base64':'AP8KIsM='}" ∧
  read_submission env0 (HttpRequest.mk "Bearer shop-key" " order-9 " order_text "") =
    Ok ("order-9", meant "billing" "post" order_headers order_body, {["x-event" := "a<b"]}, order_body) ∧
  ∃ id r, deliveries shop_order.2 !! id = Some r ∧ d_method r = "POST" ∧
    d_caller_headers r = {["x-event" := "a<b"]} ∧ bytes_of (d_body r) = order_body.
Proof.
  split; [reflexivity|].
  destruct (written_submissions_are_stored env0 "Bearer shop-key" " order-9 " "" "billing" "post" order_headers
    order_body store0 db_shop shop_order.1 shop_order.2) as [Hread Hstored].
  - intros n m. unfold enumerates. reflexivity.
  - apply order_proper.
  - split; [exact Hread|].
    destruct (Hstored (surjective_pairing _)) as (p & r & _ & Hr & _ & Hor); [vm_compute; reflexivity|].
    exists (deliveryResponse.ID p), r. split; [exact Hr|].
    destruct Hor as [E|(_ & _ & _ & Hm & Hh & Hb)].
    + exfalso. apply (f_equal (λ db, size (deliveries db))) in E. revert E. vm_compute. discriminate.
    + split_and!; [rewrite Hm; reflexivity|rewrite Hh; reflexivity|exact Hb].
Defined.
