(* ===== verification/Pipeline.v ===== *)
(** * A message from the queue to the supplier and back

    The consumer, the Worker, the store and the sender put together: what one
    message does when nothing else interferes with its delivery. *)

From S2P Require Import Prelude GoStrings GoUrl Json Model Database Store WorkerStore Lifecycle Refinement Scenario Reliability Recovery Hash Netip Limiter Dispatch HttpDate Worker Processing Outbound Consumer Http Api.

Local Open Scope Z_scope.

(** ** Statements on an undisturbed delivery *)

Section statements.
Context `{Unicode, Postgres}.

(** Due before every clock of the window, open after it. *)
Definition open_in (lo hi g : Z) (r : delivery_row) : Prop :=
  d_status r = StatusPending ∧ d_generation r = g ∧ d_next_attempt_at r ≤ lo ∧
  hi < d_retry_deadline r.

Lemma open_claimable lo hi g r due open_ :
  open_in lo hi g r → lo ≤ due → open_ ≤ hi → claimable g due open_ r = true.
Proof.
  intros (Hs & Hg & Hn & Hd) H1 H2. unfold claimable.
  rewrite bool_decide_true, (proj2 (Z.eqb_eq _ _)), (proj2 (Z.leb_le _ _)), (proj2 (Z.ltb_lt _ _))
    by (done || lia). done.
Qed.

Lemma EligibleDestination_open lo hi clk did id g db r v :
  (∀ id k, lo ≤ clock_timestamp clk id k ≤ hi) →
  uuid_in did = Some id → deliveries db !! id = Some r → open_in lo hi g r →
  destination_versions db !! (d_destination_id r, d_destination_version r) = Some v →
  EligibleDestination healthy clk did g db =
    Ok (destination_of (d_destination_id r) (d_destination_version r) v).
Proof.
  intros Hclk Hid Hr Ho Hv. unfold EligibleDestination, as_uuid. rewrite Hid. simpl. rewrite Hr. simpl.
  rewrite (open_claimable lo hi) by (done || apply Hclk). simpl.
  unfold queryDestinationVersion. by rewrite Hv.
Qed.

(** Observation succeeds and leaves the deliveries alone. *)
Lemma ObserveSignal_succeeds clk did id g db :
  Inv db → uuid_in did = Some id →
  ∃ m, ObserveSignal healthy clk did g db = (Ok tt, set_outbox_events m db) ∧
    Inv (set_outbox_events m db).
Proof.
  intros Hinv Hid.
  assert (∃ m, ObserveSignal healthy clk did g db = (Ok tt, set_outbox_events m db)) as [m Hm].
  { unfold ObserveSignal, as_uuid. rewrite Hid. unfold exec, observe_body.
    match goal with |- context [update_events ?f db] => set (F := f) end.
    assert (update_events F db = Ok (map_touched F (outbox_events db),
      set_outbox_events (map_update F (outbox_events db)) db)) as ->; [|eexists; reflexivity].
    apply update_events_Ok. split_and!; [|done|done]. intros eid e' Ht.
    rewrite lookup_map_touched in Ht. apply bind_Some in Ht as (e & He & Hf).
    unfold F in Hf. cbn beta in Hf. repeat case_match; simplify_eq.
    apply (event_ok_same_lease e); [by eapply inv_event_ok|auto]. }
  exists m. split; [done|]. eapply (step_Inv (mkStore 1)); [exact Hinv|]. by eapply step_ObserveSignal.
Qed.
End statements.

(** ** The parts put together *)

Section pipeline.
Context `{Unicode, Postgres, Machine, HttpTime, IpLiteral} {SW : Type} `{SenderEnv SW}.

(** What each interaction meets, the sender's world and the order of a map
    at that time, and whether the broker takes an acknowledgement. *)
Context (env : nat → oracle) (sender : Sender) (sender_world : nat → SW)
  (visit : nat → gmap string string → list (string * string)) (broker_ok : nat → bool)
  (owner : string) (lease : Z).

Definition send_from (n : nat) (task : Delivery.t) (d : DestinationVersion.t)
    : Result.t * option send_error :=
  (Send sender (visit n (Delivery.CallerHeaders task)) task d (sender_world n)).1.1.

#[local] Instance pipeline_worker : WorkerEnv World := service_env env send_from.

#[local] Instance pipeline : ConsumerEnv World := {|
  Process_ signal w := let '(a, _, w) := Process owner lease signal w in (a, w);
  Defer_ _ w := (broker_ok (w_tick w), w);
  Ack_ w := (broker_ok (w_tick w), w);
  Nack_ _ w := (broker_ok (w_tick w), w)
|}.

(** Nothing fails or interferes, database clocks stay in the window, shorter
    than the lease, and the process clock does not go back during the request
    of the run that starts at tick [k]. *)
Record undisturbed (lo hi : Z) (k : nat) : Prop := {
  un_io n : o_io (env n) = healthy;
  un_others n db : o_others (env n) db = db;
  un_goroutines n l : o_goroutines (env n) l = l;
  un_clock n id j : lo ≤ clock_timestamp (o_clock (env n)) id j ≤ hi;
  un_now : o_now (env (4 + k)) ≤ o_now (env (6 + k));
  un_lease : hi < lo + interval lease
}.

(** A delivery that can be claimed, a destination that grants a permit, and
    identifiers to draw. *)
Record ready (lo hi : Z) (w : World) (id : string) (g : Z) (r : delivery_row) (v : version_row)
    (p : nat) (token aid : string) : Prop := {
  re_inv : Inv (w_db w);
  re_id : uuid_in id = Some id;
  re_row : deliveries (w_db w) !! id = Some r;
  re_open : open_in lo hi g r;
  re_max : g < max_int64;
  re_version : destination_versions (w_db w) !! (d_destination_id r, d_destination_version r) = Some v;
  re_permit : (tryAcquire (w_limiter w) (o_now (env (2 + w_tick w)))
    (destination_of (d_destination_id r) (d_destination_version r) v)).1 = Some p;
  re_token : newUUID (o_random (env (3 + w_tick w)) 0%nat) = Ok token;
  re_token_id : uuid_in token = Some token;
  re_aid : newUUID (o_random (env (8 + w_tick w)) 0%nat) = Ok aid;
  re_fresh : delivery_attempts (w_db w) !! aid = None;
  re_owner : owner ≠ "";
  re_lease : 0 < lease
}.

Section run.
Context (lo hi : Z) (w : World) (id : string) (g : Z) (r : delivery_row) (v : version_row)
  (p : nat) (token aid : string).
Context (Hun : undisturbed lo hi (w_tick w)) (Hre : ready lo hi w id g r v p token aid).

Lemma on_db_eq {A} (op : oracle → DB → A * DB) db l k :
  on_db env op (mkWorld db l k) =
    let '(a, db') := op (env k) db in (a, mkWorld db' l (S k)).
Proof.
  unfold on_db, db_at, limiter_at. simpl. by rewrite (un_others _ _ _ Hun), (un_goroutines _ _ _ Hun).
Qed.

Lemma on_limiter_eq {A} (op : oracle → destinationLimiter → A * destinationLimiter) db l k :
  on_limiter env op (mkWorld db l k) =
    let '(a, l') := op (env k) l in (a, mkWorld db l' (S k)).
Proof.
  unfold on_limiter, db_at, limiter_at. simpl. by rewrite (un_others _ _ _ Hun), (un_goroutines _ _ _ Hun).
Qed.

Lemma db_at_eq x : db_at env x = w_db x.
Proof. apply (un_others _ _ _ Hun). Qed.
Lemma limiter_at_eq x : limiter_at env x = w_limiter x.
Proof. apply (un_goroutines _ _ _ Hun). Qed.

Let d : DestinationVersion.t := destination_of (d_destination_id r) (d_destination_version r) v.
Let claimed : delivery_row :=
  claimed_row (o_clock (env (3 + w_tick w))) id owner token (interval lease) r.
Let task : Delivery.t := leased_delivery id claimed.

(** What the run leaves: the row with its result, the attempt, and no signal
    of a later generation. *)
Record settled (class : ResultClass) (att : AttemptResult.t) (next : option Z) (db' : DB) : Prop := {
  se_inv : Inv db';
  se_row : deliveries db' !! id =
    Some (completed_row (clock_timestamp (o_clock (env (8 + w_tick w))) id 0) class
            (timestamptz_of <$> next) claimed);
  se_attempts : delivery_attempts db' = <[aid := attempt_of id token class att]> (delivery_attempts (w_db w));
  se_versions : destination_versions db' = destination_versions (w_db w);
  se_events eid e : outbox_events db' !! eid = Some e → e_delivery_id e = id → e_generation e ≤ g
}.

Lemma settled_result class att next db' : settled class att next db' →
  (∃ r', deliveries db' !! id = Some r' ∧ d_status r' = status_after class ∧
     d_generation r' = generation_after class g ∧ content_of r' = content_of r) ∧
  delivery_attempts db' !! aid = Some (attempt_of id token class att).
Proof.
  intros [_ Hr Ha _ _]. split; [|by rewrite Ha, lookup_insert_eq]. eexists. split; [exact Hr|].
  destruct (re_open _ _ _ _ _ _ _ _ _ _ Hre) as (_ & Hg & _ & _). simpl.
  split_and!; [by destruct class|by destruct class; simpl; rewrite Hg|done].
Qed.

(** The claim, on the database the observation left. *)
Lemma claim_undisturbed db :
  Inv db → deliveries db = deliveries (w_db w) →
  destination_versions db = destination_versions (w_db w) →
  ClaimDelivery healthy (o_clock (env (3 + w_tick w))) (o_random (env (3 + w_tick w))) id g owner lease db =
    (Ok (task, d), set_deliveries (<[id := claimed]> (deliveries db)) db).
Proof.
  intros Hinv Hd Hv. destruct Hre.
  destruct (claim_decides (o_clock (env (3 + w_tick w))) (o_random (env (3 + w_tick w))) id id g owner
    lease token db Hinv re_id0 re_owner0 re_lease0 re_token0)
    as [(r' & v' & Hr' & _ & Hv' & E)|[Hno _]].
  - rewrite Hd in Hr'. simplify_eq. rewrite Hv in Hv'. simplify_eq. exact E.
  - rewrite <- Hd in re_row0. specialize (Hno _ re_row0).
    rewrite (open_claimable lo hi) in Hno; [done|done|apply Hun|apply Hun].
Qed.

(** The result, on the database of the claim. *)
Lemma result_undisturbed db res err class att next :
  Inv db → deliveries db !! id = Some claimed → delivery_attempts db = delivery_attempts (w_db w) →
  destination_versions db = destination_versions (w_db w) →
  outcome (o_now (env (7 + w_tick w))) task d (o_now (env (4 + w_tick w)))
    (o_now (env (6 + w_tick w))) res err = (class, att, next) →
  ∃ db', completeResult healthy (o_clock (env (8 + w_tick w))) (o_random (env (8 + w_tick w)))
      att class next db = (Ok tt, db') ∧
    settled class att next db'.
Proof.
  intros Hinv Hrow Hatt Hver Ho. destruct Hre. destruct re_open0 as (Hs & Hg & Hn & Hdl).
  apply outcome_attempt in Ho as (E1 & E2 & E3 & E4 & E5 & E6 & E7). simpl in *.
  match goal with |- ∃ db', ?op = (Ok tt, db') ∧ _ => assert (op = (Ok tt, set_delivery_attempts
    (<[aid := attempt_of id token class att]> (delivery_attempts db))
    (set_deliveries (<[id := completed_row (clock_timestamp (o_clock (env (8 + w_tick w))) id 0) class
       (timestamptz_of <$> next) claimed]> (deliveries db)) db))) as Hop;
    [apply (completeResult_in_fence _ _ att class next db id token aid claimed)|] end.
  - done.
  - by rewrite E1.
  - by rewrite E4.
  - done.
  - by rewrite Hatt.
  - done.
  - unfold fence. rewrite E2, E3. simpl. rewrite Z.eqb_refl.
    rewrite (bool_decide_true (Some owner = Some owner)), (bool_decide_true (Some token = Some token)) by done.
    pose proof (un_clock _ _ _ Hun (8 + w_tick w) id 1%nat). pose proof (un_clock _ _ _ Hun (3 + w_tick w) id 0%nat).
    pose proof (un_lease _ _ _ Hun). simpl in *. rewrite (proj2 (Z.ltb_lt _ _)) by lia.
    destruct class; [done| |done]. destruct (E7 eq_refl) as (n & -> & Hn'). simpl.
    apply Z.ltb_lt. unfold timestamptz_of, time_of in *. apply Z.div_lt_upper_bound; lia.
  - rewrite E5, E6. apply Hun.
  - intros _. simpl. lia.
  - eexists. split; [exact Hop|]. split.
    + destruct (completeResult_refines _ _ _ _ _ _ _ _ _ Hop) as [T HT]. exact (Inv_step _ _ _ Hinv HT).
    + apply lookup_insert_eq.
    + simpl. by rewrite Hatt.
    + exact Hver.
    + simpl. intros eid e He Hid. destruct (inv_event _ Hinv _ _ He) as (r0 & Hr0 & Hle).
      rewrite Hid, Hrow in Hr0.
      injection Hr0 as <-. change (d_generation claimed) with (d_generation r) in Hle. lia.
Qed.

Lemma World_eta (x : World) : x = mkWorld (w_db x) (w_limiter x) (w_tick x).
Proof. by destruct x. Qed.

Lemma outcome_next nano tsk dst st f res err class att next :
  outcome nano tsk dst st f res err = (class, att, next) →
  class = ClassRetryableFailure ∧ is_Some next ∨ class ≠ ClassRetryableFailure ∧ next = None.
Proof.
  unfold outcome. intros Ho. repeat case_match; simplify_eq; eauto.
Qed.

(** The request and its result. *)
Lemma attempt_undisturbed db l res err class att next :
  Inv db → deliveries db !! id = Some claimed → delivery_attempts db = delivery_attempts (w_db w) →
  destination_versions db = destination_versions (w_db w) →
  send_from (5 + w_tick w) task d = (res, err) →
  outcome (o_now (env (7 + w_tick w))) task d (o_now (env (4 + w_tick w)))
    (o_now (env (6 + w_tick w))) res err = (class, att, next) →
  ∃ t w', attempt p task d (mkWorld db l (4 + w_tick w)) = ((true, None), t, w') ∧
    settled class att next (w_db w') ∧ w_tick w' = (10 + w_tick w)%nat.
Proof.
  intros Hinv Hrow Hatt Hver Hsend Hout.
  destruct (result_undisturbed db res err class att next Hinv Hrow Hatt Hver Hout) as (db' & Hc & Hfin).
  assert (Hop : ∀ l', (match class, next with
     | ClassSucceeded, _ => CompleteSuccess_ att
     | ClassPermanentFailure, _ => CompletePermanent_ att
     | ClassRetryableFailure, Some nextAttempt => CompleteRetry_ att nextAttempt
     | ClassRetryableFailure, None => CompletePermanent_ att
     end) (mkWorld db l' (8 + w_tick w)) = (Ok tt, mkWorld db' l' (9 + w_tick w))).
  { intros l'. apply outcome_next in Hout as Hnext.
    assert (Hrun : ∀ op : DB → result error unit * DB, op db = (Ok tt, db') →
      (let '(a, db2) := op db in (a, mkWorld db2 l' (S (8 + w_tick w)))) =
      (Ok tt, mkWorld db' l' (9 + w_tick w))) by (intros op ->; done).
    destruct class; [destruct Hnext as [[? _]|[_ ->]]|destruct Hnext as [[_ [n ->]]|[? _]]|
      destruct Hnext as [[? _]|[_ ->]]]; try done;
      cbn [CompleteSuccess_ CompleteRetry_ CompletePermanent_ pipeline_worker service_env];
      rewrite on_db_eq, (un_io _ _ _ Hun); by apply (Hrun (λ x, completeResult _ _ _ _ _ _ x)). }
  unfold attempt, complete, quietly, perform, mret, Eff_ret, mbind, Eff_bind.
  cbn [now_ Send_ nano_ release_ pipeline_worker service_env w_tick].
  rewrite !db_at_eq, !limiter_at_eq. change (S (4 + w_tick w)) with (5 + w_tick w)%nat. rewrite Hsend.
  cbn beta iota zeta. rewrite ?db_at_eq, ?limiter_at_eq.
  cbn [w_db w_limiter w_tick].
  change (S (5 + w_tick w)) with (6 + w_tick w)%nat. change (S (6 + w_tick w)) with (7 + w_tick w)%nat.
  change (S (7 + w_tick w)) with (8 + w_tick w)%nat. rewrite Hout.
  cbn beta iota zeta. rewrite Hop. rewrite on_limiter_eq.
  do 2 eexists. split; [reflexivity|]. by split.
Qed.

(** The whole of [Process]. *)
Lemma Process_undisturbed trace res err class att next :
  send_from (5 + w_tick w) task d = (res, err) →
  outcome (o_now (env (7 + w_tick w))) task d (o_now (env (4 + w_tick w)))
    (o_now (env (6 + w_tick w))) res err = (class, att, next) →
  ∃ t w', Process owner lease (Signal.mk id g trace) w = ((true, None), t, w') ∧
    settled class att next (w_db w') ∧ w_tick w' = (10 + w_tick w)%nat.
Proof.
  intros Hsend Hout. destruct Hre.
  assert (Process owner lease (Signal.mk id g trace) w = Process owner lease (Signal.mk id g trace)
    (mkWorld (w_db w) (w_limiter w) (w_tick w))) as -> by (f_equal; apply World_eta).
  unfold Process, perform. cbn [EligibleDestination_ ObserveSignal_ tryAcquire_ ClaimDelivery_
    pipeline_worker service_env Signal.DeliveryID Signal.Generation].
  unfold mbind at 1, Eff_bind at 1. rewrite on_db_eq, (un_io _ _ _ Hun).
  rewrite (EligibleDestination_open lo hi _ id id g (w_db w) r v) by (done || apply Hun).
  unfold mbind at 1, Eff_bind at 1. rewrite on_db_eq, (un_io _ _ _ Hun).
  destruct (ObserveSignal_succeeds (o_clock (env (S (w_tick w)))) id id g (w_db w) re_inv0 re_id0)
    as (m & -> & Hinv1).
  unfold mbind at 1, Eff_bind at 1. rewrite on_limiter_eq.
  change (S (S (w_tick w))) with (2 + w_tick w)%nat.
  destruct (tryAcquire _ _ _) as [pr l1]. simpl in re_permit0. subst pr.
  unfold mbind at 1, Eff_bind at 1. rewrite on_db_eq, (un_io _ _ _ Hun).
  change (S (2 + w_tick w)) with (3 + w_tick w)%nat.
  rewrite claim_undisturbed by done.
  assert (Hinv2 : Inv (set_deliveries (<[id := claimed]> (deliveries (w_db w)))
    (set_outbox_events m (w_db w)))).
  { eapply (step_Inv (mkStore 1)); [exact Hinv1|]. eapply step_ClaimDelivery.
    exact (claim_undisturbed (set_outbox_events m (w_db w)) Hinv1 eq_refl eq_refl). }
  destruct (attempt_undisturbed _ l1 res err class att next Hinv2) as (t & w' & Ha & Hfin);
    [apply lookup_insert_eq|done..|].
  change (S (3 + w_tick w)) with (4 + w_tick w)%nat. cbn [deliveries set_outbox_events].
  rewrite Ha. do 2 eexists. split; [reflexivity|]. exact Hfin.
Qed.

(** One undisturbed message settles its delivery: a signal published for
    a due delivery, taken from the queue while its destination has a permit
    and nothing fails or interferes, is acknowledged after exactly the result
    the supplier's answer calls for was committed - with the attempt, under
    the generation of the signal, and with the accepted content unchanged. *)
Theorem message_settles_its_delivery trace res err class att next :
  validUUID id = true → validUUID trace = true → broker_ok (10 + w_tick w) = true →
  send_from (5 + w_tick w) task d = (res, err) →
  outcome (o_now (env (7 + w_tick w))) task d (o_now (env (4 + w_tick w)))
    (o_now (env (6 + w_tick w))) res err = (class, att, next) →
  let signal := Signal.mk id g trace in
  ∃ w', processMessage (marshal_signal signal) w =
      (None, [EvProcess signal (true, None); EvAck true], w') ∧
    settled class att next (w_db w').
Proof.
  intros Hid Htr Hack Hsend Hout signal.
  destruct (Process_undisturbed trace res err class att next Hsend Hout)
    as (t & w' & Hp & Hset & Htick).
  exists w'. split; [|done].
  assert (Hg : 0 ≤ g ≤ max_int64).
  { rewrite <- (proj1 (proj2 (re_open _ _ _ _ _ _ _ _ _ _ Hre))).
    eapply check_delivery_generation, inv_check; apply Hre. }
  assert (Hval : Validate signal = true).
  { unfold Validate. simpl. by rewrite Hid, Htr, (proj2 (Z.ltb_ge _ _)) by lia. }
  unfold processMessage. rewrite decode_marshal; [|done|].
  2: { unfold is_int64, min_int64. simpl. lia. }
  rewrite Hval. cbn [negb]. unfold perform, mbind, Eff_bind. cbn [Process_ pipeline]. fold signal in Hp.
  rewrite Hp. cbn [negb]. unfold ack, perform, mbind, Eff_bind. cbn [Ack_ pipeline].
  by rewrite Htick, Hack.
Qed.
End run.
End pipeline.

(** ** The accepted request of [Api], one second later *)

Definition calm_oracle (n : nat) : oracle :=
  Oracle healthy (still (noon + second)) (draws (20 + Z.of_nat n)) (time_of (noon + second))
    (λ db, db) (λ l, l).
Definition by_key (n : nat) (m : gmap string string) : list (string * string) := map_to_list m.

Definition accepted : result error Delivery.t * DB :=
  Submit store0 healthy (at_ 0) (draws 1) submission0 db_shop.
Definition accepted_world : World := mkWorld accepted.2 newDestinationLimiter 0.
Definition accepted_id : string :=
  match accepted.1 with Ok delivery => Delivery.ID delivery | Err _ => "" end.
Definition accepted_row : delivery_row :=
  default (submitted_row (still 0) "" "" sub0) (deliveries accepted.2 !! accepted_id).
Definition accepted_version : version_row :=
  default (VersionRow "" "" [] [] "" "" "" [] [] 0 0 (DestinationVersion.RatePerSecond destination0) 0)
    (destination_versions accepted.2 !! ("billing", 1)).
Definition accepted_claim : Delivery.t :=
  leased_delivery accepted_id (claimed_row (still (noon + second)) accepted_id "w1"
    (uuid_of (draws 23 0%nat)) (interval 30000000000) accepted_row).
Definition accepted_destination : DestinationVersion.t :=
  destination_of "billing" 1 accepted_version.
Definition accepted_outcome : ResultClass * AttemptResult.t * option Z :=
  outcome (time_of (noon + second)) accepted_claim accepted_destination (time_of (noon + second))
    (time_of (noon + second)) (Result.mk 200 "") None.

#[local] Instance queue_env : ConsumerEnv World :=
  pipeline calm_oracle sender0 (λ _, tt) by_key (λ _, true) "w1" 30000000000.

Lemma accepted_reachable : reachable store0 accepted.2.
Proof.
  eapply reachable_step; [|eapply step_Submit, surjective_pairing].
  eapply reachable_step; [apply (reachable_fresh _ empty_db); by split_and!|].
  eapply step_Bootstrap, surjective_pairing.
Qed.

Lemma calm_undisturbed : undisturbed calm_oracle 30000000000 (noon + second) (noon + second) 0.
Proof. by split; intros; simpl; unfold still, interval, noon, second; simpl; try lia. Qed.

Lemma accepted_ready : ready calm_oracle "w1" 30000000000 (noon + second) (noon + second) accepted_world
  accepted_id 0 accepted_row accepted_version 0 (uuid_of (draws 23 0%nat)) (uuid_of (draws 28 0%nat)).
Proof.
  split; [apply (reachable_Inv store0), accepted_reachable|vm_compute; reflexivity|
    vm_compute; reflexivity| |vm_compute; reflexivity..|discriminate|lia].
  split_and!; vm_compute; (reflexivity || discriminate).
Qed.

Lemma message_settles_its_delivery_witness : ∃ w',
  processMessage (marshal_signal (Signal.mk accepted_id 0 accepted_id)) accepted_world =
    (None, [EvProcess (Signal.mk accepted_id 0 accepted_id) (true, None); EvAck true], w') ∧
  ∃ r', deliveries (w_db w') !! accepted_id = Some r' ∧ d_status r' = StatusSucceeded.
Proof.
  destruct (message_settles_its_delivery calm_oracle sender0 (λ _, tt) by_key (λ _, true) "w1" 30000000000
    (noon + second) (noon + second) accepted_world accepted_id 0 accepted_row accepted_version 0
    (uuid_of (draws 23 0%nat)) (uuid_of (draws 28 0%nat)) calm_undisturbed accepted_ready accepted_id
    (Result.mk 200 "") None ClassSucceeded accepted_outcome.1.2 None)
    as (w' & Hp & Hset).
  - vm_compute. reflexivity.
  - vm_compute. reflexivity.
  - reflexivity.
  - vm_compute. reflexivity.
  - vm_compute. reflexivity.
  - destruct (settled_result _ _ _ _ _ _ _ _ _ _ _ _ _ accepted_ready _ _ _ _ Hset)
      as [(r' & Hr' & Hs & _) _].
    exists w'. split; [exact Hp|]. exists r'. split; [exact Hr'|exact Hs].
Defined.
