(* ===== verification/Journey.v ===== *)
(** * From the caller to the supplier

    The whole way of one notification when nothing fails: the API accepts a
    request, a round of the Publisher announces it, the consumer takes the
    message, and the Worker sends it and commits the result.  Each part is the
    one of its own file; only the database, the message and the clocks pass
    between them. *)

From S2P Require Import Prelude GoStrings GoUrl Json Model Database Store WorkerStore Outbox Lifecycle Refinement Scenario Reliability Admission Recovery Hash Netip Limiter Dispatch Publishing HttpDate Worker Processing Outbound Consumer Http Api Pipeline.

Local Open Scope Z_scope.

(** Each of the at most three draws of an operation gives sixteen bytes. *)
Definition draws_bytes (rand : random) : Prop :=
  ∀ k, (k < 3)%nat → ∃ s, rand k = Some s ∧ String.length s = 16%nat.

Section journey.
Context `{Unicode, Postgres, Machine, HttpTime, IpLiteral} {SW : Type} `{SenderEnv SW}.

(** PostgreSQL reads the texts [newUUID] makes as they are. *)
Hypothesis uuid_law : ∀ s u, String.length s = 16%nat → newUUID (Some s) = Ok u → uuid_in u = Some u.

Lemma drawn_uuid rand k u : draws_bytes rand → (k < 3)%nat → newUUID (rand k) = Ok u → uuid_in u = Some u.
Proof. intros Hr Hk Hu. destruct (Hr k Hk) as (s & Hs & Hlen). rewrite Hs in Hu. by eapply uuid_law. Qed.

Lemma drawn_valid rand k u : draws_bytes rand → (k < 3)%nat → newUUID (rand k) = Ok u → validUUID u = true.
Proof.
  intros Hr Hk Hu. destruct (Hr k Hk) as (s & Hs & Hlen). rewrite Hs in Hu.
  destruct (newUUID_valid s Hlen) as (u' & Hu' & Hv & _). congruence.
Qed.

(** ** From the Outbox to the supplier *)

(** A due delivery with its event in the Outbox, for clocks in a window. *)
Record queued (lo hi : Z) (db : DB) (id : string) (g : Z) (r : delivery_row) (eid : string)
    (e : outbox_row) : Prop := {
  qu_inv : Inv db;
  qu_id : validUUID id = true;
  qu_uuid : uuid_in id = Some id;
  qu_row : deliveries db !! id = Some r;
  qu_open : open_in lo hi g r;
  qu_max : g < max_int64;
  qu_event : outbox_events db !! eid = Some e;
  qu_signal : e_delivery_id e = id ∧ e_generation e = g;
  qu_trace : validUUID (e_trace_id e) = true;
  qu_unpublished : e_published_at e = None ∧ e_lease_until e = None ∧ e_available_at e ≤ lo
}.

Section delivering.
Context (penv : nat → publisher_oracle) (publisher : Publisher.t) (lo hi : Z) (ptoken : string).

#[local] Instance journey_outbox : PublisherEnv PublisherWorld := outbox_env penv.

(** A round in which every call is answered, the broker confirms, no row is
    locked, the batch has room, and the clocks stay in a window that is shorter
    than the Outbox lease. *)
Record calm_round (db : DB) : Prop := {
  cr_owner : Publisher.owner publisher ≠ "";
  cr_lease : 0 < Publisher.leaseDuration publisher;
  cr_batch : Z.of_nat (size (outbox_events db)) ≤ Publisher.batchSize publisher;
  cr_calls n : p_io (penv n) = healthy ∧ p_confirmed (penv n) = true;
  cr_random : draws_bytes (p_random (penv 0%nat));
  cr_token : newUUID (p_random (penv 0%nat) 0%nat) = Ok ptoken;
  cr_keys k : is_Some (outbox_events db !! k) → uuid_in k = Some k;
  cr_covers : covers (p_scan (penv 0%nat)) (outbox_events db);
  cr_unlocked k : scan_locked (p_scan (penv 0%nat)) k = false;
  cr_clock n k i : lo ≤ clock_timestamp (p_clock (penv n)) k i ≤ hi;
  cr_window : hi < lo + Milliseconds (Publisher.leaseDuration publisher) * ms
}.

Lemma queued_published db id g r eid e :
  queued lo hi db id g r eid e → calm_round db →
  ∃ n t pw, RunOnce publisher (mkPublisherWorld db 0) = ((n, None), t, pw) ∧
    PuPublish (Signal.mk id g (e_trace_id e)) true ∈ t ∧
    outbox_only db (pw_db pw) ∧ Inv (pw_db pw).
Proof.
  intros Hq Hc. destruct (qu_signal _ _ _ _ _ _ _ _ Hq) as [Hd Hg].
  destruct (qu_unpublished _ _ _ _ _ _ _ _ Hq) as (Hu & Hl & Hav).
  pose proof (qu_event _ _ _ _ _ _ _ _ Hq) as He.
  assert (Hsize : 0 < Z.of_nat (size (outbox_events db))).
  { assert (size (outbox_events db) ≠ 0%nat); [|lia]. rewrite map_size_non_empty_iff. intros Hemp.
    by rewrite Hemp, lookup_empty in He. }
  destruct (healthy_round_publishes_all penv publisher (mkPublisherWorld db 0) ptoken)
    as (n & t & pw & Hrun & Hall);
    [apply Hq|apply Hc|apply Hc|pose proof (cr_batch _ Hc); lia|apply Hc|apply Hc|
     eapply drawn_uuid; [apply (cr_random _ Hc)| |apply (cr_token _ Hc)]; lia|apply Hc|..].
  - intros ts k (m & k' & i & _ & ->). simpl. pose proof (cr_clock _ Hc m k' i).
    pose proof (cr_clock _ Hc 0%nat k 2%nat). pose proof (cr_window _ Hc). lia.
  - exists n, t, pw. split; [exact Hrun|]. destruct (Hall eid e) as [Hpub _].
    { apply select_complete; [apply Hc|apply Hc|done| |apply Hc]. unfold publishable.
      rewrite Hu, Hl. pose proof (cr_clock _ Hc 0%nat eid 0%nat). simpl.
      rewrite andb_true_r. apply Z.leb_le. lia. }
    rewrite Hd, Hg in Hpub. split_and!; [done| |].
    + exact (RunOnce_only penv _ _ _ _ _ Hrun).
    + apply (RunOnce_Inv penv _ _ _ _ _ Hrun), Hq.
Qed.

Context (env : nat → oracle) (sender : Sender) (sender_world : nat → SW)
  (visit : nat → gmap string string → list (string * string)) (broker_ok : nat → bool)
  (owner : string) (lease : Z) (l : destinationLimiter) (v : version_row) (permit : nat)
  (token aid : string).

#[local] Instance journey_consumer : ConsumerEnv World :=
  pipeline env sender sender_world visit broker_ok owner lease.

(** The destination has a permit, and there are identifiers to draw. *)
Record prepared (db : DB) (destination : string) (version : Z) : Prop := {
  pr_version : destination_versions db !! (destination, version) = Some v;
  pr_permit : (tryAcquire l (o_now (env 2%nat)) (destination_of destination version v)).1 = Some permit;
  pr_random : draws_bytes (o_random (env 3%nat));
  pr_token : newUUID (o_random (env 3%nat) 0%nat) = Ok token;
  pr_aid : newUUID (o_random (env 8%nat) 0%nat) = Ok aid;
  pr_fresh : delivery_attempts db !! aid = None;
  pr_owner : owner ≠ "";
  pr_lease : 0 < lease
}.

Lemma queued_ready db id g r eid e pw :
  queued lo hi db id g r eid e → outbox_only db (pw_db pw) → Inv (pw_db pw) →
  prepared db (d_destination_id r) (d_destination_version r) →
  ready env owner lease lo hi (mkWorld (pw_db pw) l 0) id g r v permit token aid.
Proof.
  intros Hq Ho Hinv Hp. destruct Hq, Hp.
  assert (E1 : deliveries (pw_db pw) = deliveries db) by by rewrite Ho.
  assert (E2 : destination_versions (pw_db pw) = destination_versions db) by by rewrite Ho.
  assert (E3 : delivery_attempts (pw_db pw) = delivery_attempts db) by by rewrite Ho.
  split; cbn [w_db w_limiter w_tick Nat.add]; rewrite ?E1, ?E2, ?E3; try done.
  eapply drawn_uuid; [done| |done]. lia.
Qed.

(** A round and a message later. *)
Lemma queued_delivered db id g r eid e res err class att next :
  queued lo hi db id g r eid e → calm_round db → undisturbed env lease lo hi 0 →
  prepared db (d_destination_id r) (d_destination_version r) → broker_ok 10%nat = true →
  let signal := Signal.mk id g (e_trace_id e) in
  let d := destination_of (d_destination_id r) (d_destination_version r) v in
  let task := leased_delivery id (claimed_row (o_clock (env 3%nat)) id owner token (interval lease) r) in
  send_from sender sender_world visit 5 task d = (res, err) →
  outcome (o_now (env 7%nat)) task d (o_now (env 4%nat)) (o_now (env 6%nat)) res err = (class, att, next) →
  ∃ n t pw w', RunOnce publisher (mkPublisherWorld db 0) = ((n, None), t, pw) ∧
    PuPublish signal true ∈ t ∧ outbox_only db (pw_db pw) ∧
    processMessage (marshal_signal signal) (mkWorld (pw_db pw) l 0) =
      (None, [EvProcess signal (true, None); EvAck true], w') ∧
    settled env owner lease (mkWorld (pw_db pw) l 0) id g r token aid class att next (w_db w').
Proof.
  intros Hq Hround Hun Hprep Hack signal d task Hsend Hout.
  destruct (queued_published _ _ _ _ _ _ Hq Hround) as (n & t & pw & Hrun & Hpub & Honly & Hinv).
  pose proof (queued_ready _ _ _ _ _ _ pw Hq Honly Hinv Hprep) as Hready.
  destruct (message_settles_its_delivery env sender sender_world visit broker_ok owner lease lo hi
    (mkWorld (pw_db pw) l 0) id g r v permit token aid Hun Hready (e_trace_id e) res err class att next)
    as (w' & Hw & Hset); [apply Hq|apply Hq|done|exact Hsend|exact Hout|].
  by exists n, t, pw, w'.
Qed.
End delivering.

(** ** The request *)

Section accepted.
Context (store : Store) (aenv : api_env) (request : HttpRequest.t) (response : Response.t) (db0 db1 : DB)
  (p : deliveryResponse.t).

(** A new submission is accepted, and the random source gives bytes. *)
Record accepted_new : Prop := {
  an_inv : Inv db0;
  an_alone : alone aenv;
  an_submit : submit store aenv request db0 = (response, db1);
  an_status : Response.Status response = 202;
  an_payload : Response.Content response = Payload p;
  an_new : deliveries db0 !! deliveryResponse.ID p = None;
  an_random : draws_bytes (e_random aenv)
}.

(** What the accepted request left in the database. *)
Record announced (r : delivery_row) (eid : string) (e : outbox_row) : Prop := {
  ao_inv : Inv db1;
  ao_id : validUUID (deliveryResponse.ID p) = true;
  ao_uuid : uuid_in (deliveryResponse.ID p) = Some (deliveryResponse.ID p);
  ao_row : deliveries db1 !! deliveryResponse.ID p = Some r;
  ao_status : d_status r = StatusPending;
  ao_generation : d_generation r = 0;
  ao_due : d_next_attempt_at r = timestamptz_of (e_now aenv);
  ao_deadline : d_retry_deadline r = timestamptz_of (e_now aenv + 24 * Hour);
  ao_destination : d_destination_id r = deliveryResponse.DestinationID p ∧
    d_destination_version r = deliveryResponse.DestinationVersion p;
  ao_event : outbox_events db1 !! eid = Some e;
  ao_signal : e_delivery_id e = deliveryResponse.ID p ∧ e_generation e = 0;
  ao_trace : validUUID (e_trace_id e) = true;
  ao_unpublished : e_published_at e = None ∧ e_lease_until e = None ∧
    e_available_at e = timestamptz_of (e_now aenv);
  ao_attempts : delivery_attempts db1 = delivery_attempts db0;
  ao_versions : destination_versions db1 = destination_versions db0
}.

Lemma request_announced : accepted_new → ∃ r eid e, announced r eid e.
Proof.
  intros Ha. pose proof (an_submit Ha) as Hs. apply submit_cases in Hs as [[Hbad _]|Hs].
  { by rewrite (an_status Ha) in Hbad. }
  destruct Hs as (principal & input & headers & body & d & sub & res & [_ _ _ Hm] & Hs & Hresp).
  rewrite alone_before in Hs by apply Ha.
  pose proof (an_status Ha) as Hst. rewrite Hresp in Hst. apply answer_submit_202 in Hst as [dl ->].
  pose proof (an_payload Ha) as Hp. rewrite Hresp in Hp. simpl in Hp. injection Hp as Hp.
  apply make_submission_times in Hm as [Hnow Hdead].
  assert (Hinv1 : Inv db1) by (eapply step_Inv; [apply Ha|by eapply step_Submit]).
  apply run_tx_Ok, submit_body_Ok in Hs as [[-> Hq]|(_ & _ & id & oid & tid & sv & Hid & Ho & Ht & _ & -> & Hb)].
  { apply lookup_key_Some in Hq as (r & Hr & _). pose proof (an_new Ha) as Hnew.
    rewrite <- Hp in Hnew. simpl in Hnew. congruence. }
  destruct Hb as (_ & _ & _ & _ & Hdb).
  exists (submitted_row (e_clock aenv 4%nat) id sv sub), oid. eexists.
  split; [exact Hinv1|rewrite <- ?Hp, ?Hdb; simpl; rewrite ?Hnow, ?Hdead; try reflexivity..];
    [eapply drawn_valid; [apply Ha| |done]; lia|eapply drawn_uuid; [apply Ha| |done]; lia|apply lookup_insert_eq|done|
     apply lookup_insert_eq|done|eapply drawn_valid; [apply Ha| |done]; lia|done].
Qed.

Context (penv : nat → publisher_oracle) (publisher : Publisher.t) (lo hi : Z) (ptoken : string).
Context (env : nat → oracle) (sender : Sender) (sender_world : nat → SW)
  (visit : nat → gmap string string → list (string * string)) (broker_ok : nat → bool)
  (owner : string) (lease : Z) (l : destinationLimiter) (v : version_row) (permit : nat)
  (token aid : string).

#[local] Instance accepted_outbox : PublisherEnv PublisherWorld := outbox_env penv.
#[local] Instance accepted_consumer : ConsumerEnv World :=
  pipeline env sender sender_world visit broker_ok owner lease.

Lemma announced_queued r eid e : announced r eid e →
  timestamptz_of (e_now aenv) ≤ lo → hi < timestamptz_of (e_now aenv + 24 * Hour) →
  queued lo hi db1 (deliveryResponse.ID p) 0 r eid e.
Proof.
  intros Ha Hlo Hhi. destruct Ha. destruct ao_unpublished0 as (Hu & Hl & Hav).
  split; try done; [split_and!; [done|done|lia|lia]|]. split_and!; [done|done|lia].
Qed.

(** An accepted notification reaches its supplier: after a new submission
    was answered 202, a round of the Publisher without failures has announced
    it under its id and generation 0, and the message of that announcement,
    processed without failures while the destination has a permit, is
    acknowledged with the delivery in the state the supplier's answer calls
    for - succeeded, pending again under the next generation, or failed - and
    with the attempt on record. *)
Theorem accepted_notification_reaches_its_supplier :
  accepted_new → calm_round penv publisher lo hi ptoken db1 → undisturbed env lease lo hi 0 →
  prepared env owner lease l v permit token aid db0 (deliveryResponse.DestinationID p)
    (deliveryResponse.DestinationVersion p) →
  timestamptz_of (e_now aenv) ≤ lo → hi < timestamptz_of (e_now aenv + 24 * Hour) →
  broker_ok 10%nat = true →
  ∃ r signal n t pw, let id := deliveryResponse.ID p in
    let d := destination_of (deliveryResponse.DestinationID p) (deliveryResponse.DestinationVersion p) v in
    let task := leased_delivery id (claimed_row (o_clock (env 3%nat)) id owner token (interval lease) r) in
    deliveries db1 !! id = Some r ∧ Signal.DeliveryID signal = id ∧
    RunOnce publisher (mkPublisherWorld db1 0) = ((n, None), t, pw) ∧ PuPublish signal true ∈ t ∧
    ∀ res err class att next,
      send_from sender sender_world visit 5 task d = (res, err) →
      outcome (o_now (env 7%nat)) task d (o_now (env 4%nat)) (o_now (env 6%nat)) res err = (class, att, next) →
      ∃ w', processMessage (marshal_signal signal) (mkWorld (pw_db pw) l 0) =
          (None, [EvProcess signal (true, None); EvAck true], w') ∧
        (∃ r', deliveries (w_db w') !! id = Some r' ∧ d_status r' = status_after class ∧
           d_generation r' = generation_after class 0 ∧ content_of r' = content_of r) ∧
        delivery_attempts (w_db w') !! aid = Some (attempt_of id token class att).
Proof.
  intros Hacc Hround Hun Hprep Hlo Hhi Hack. destruct (request_announced Hacc) as (r & eid & e & Hann).
  pose proof (announced_queued _ _ _ Hann Hlo Hhi) as Hq. destruct (ao_destination _ _ _ Hann) as [Ed Ev].
  assert (Hprep' : prepared env owner lease l v permit token aid db1 (d_destination_id r)
    (d_destination_version r)).
  { destruct Hprep. rewrite Ed, Ev. split; try done; [by rewrite (ao_versions _ _ _ Hann)|].
    by rewrite (ao_attempts _ _ _ Hann). }
  destruct (queued_published _ _ _ _ _ _ _ _ _ _ _ Hq Hround) as (n & t & pw & Hrun & Hpub & Honly & Hinv).
  exists r, (Signal.mk (deliveryResponse.ID p) 0 (e_trace_id e)), n, t, pw.
  split; [apply Hann|]. split; [done|]. split; [exact Hrun|]. split; [exact Hpub|].
  intros res err class att next Hsend Hout. rewrite <- Ed, <- Ev in Hsend, Hout.
  destruct (queued_delivered penv publisher lo hi ptoken env sender sender_world visit broker_ok owner lease l
    v permit token aid db1 _ 0 r eid e res err class att next Hq Hround Hun Hprep' Hack Hsend Hout)
    as (n' & t' & pw' & w' & Hrun' & _ & _ & Hw & Hset).
  rewrite Hrun in Hrun'. injection Hrun' as <- <- <-. exists w'. split; [exact Hw|].
  eapply settled_result; [|exact Hset]. by eapply queued_ready.
Qed.
End accepted.
End journey.

(** ** The accepted request of [Api], one second later *)

Lemma hex_char_lower b : is_byte b →
  lower_hex (byte_of (hex_char (Z.shiftr b 4))) = true ∧ lower_hex (byte_of (hex_char (Z.land b 15))) = true.
Proof.
  intros Hb. apply andb_true_iff. revert b Hb.
  apply (all_bytes (λ b, lower_hex (byte_of (hex_char (Z.shiftr b 4))) &&
    lower_hex (byte_of (hex_char (Z.land b 15))))). vm_compute. reflexivity.
Qed.

Lemma version_is_byte b : is_byte b → is_byte (Z.lor (Z.land b 15) 64) ∧ is_byte (Z.lor (Z.land b 63) 128).
Proof.
  intros Hb. apply (bool_decide_eq_true (_ ∧ _)). revert b Hb.
  apply (all_bytes (λ b, bool_decide (0 ≤ Z.lor (Z.land b 15) 64 < 256 ∧ 0 ≤ Z.lor (Z.land b 63) 128 < 256))).
  vm_compute. reflexivity.
Qed.

(** The concrete [uuid_in] reads what [newUUID] makes. *)
Lemma canonical_law s u : String.length s = 16%nat → newUUID (Some s) = Ok u → uuid_in u = Some u.
Proof.
  intros Hl. pose proof (bytes_of_range s) as Hb. unfold newUUID. rewrite <- length_bytes_of in Hl.
  generalize dependent (bytes_of s). clear s. intros l Hl Hb.
  do 16 (destruct l as [|? l]; [done|]). destruct l; [|done].
  repeat match goal with H : Forall is_byte (_ :: _) |- _ => inversion H; clear H; subst end.
  intros [= <-]. cbn [uuid_in canonical_uuid].
  match goal with |- (if ?c then _ else _) = _ => assert (c = true) as -> end; [|done].
  unfold canonical_text. cbn [insert list_insert lookup_total list_lookup_total take drop hex_string bytes_of].
  repeat match goal with |- context [byte_of (hex_char (Z.shiftr ?b 4))] =>
    let H := fresh in assert (is_byte b) as H by (first [done|by apply version_is_byte]);
    destruct (hex_char_lower b H); clear H;
    generalize dependent (byte_of (hex_char (Z.shiftr b 4))); generalize dependent (byte_of (hex_char (Z.land b 15)));
    intros end.
  cbn. repeat match goal with H : lower_hex _ = true |- _ => rewrite H; clear H end. reflexivity.
Qed.

Lemma draws_are_bytes n : draws_bytes (draws n).
Proof. intros k Hk. eexists. split; reflexivity. Qed.

Definition posted_payload : deliveryResponse.t :=
  match Response.Content posted.1 with
  | Payload p => p
  | ErrorCode _ _ => responseFromDelivery delivery0
  end.
Definition round_at (t : Z) (operation : Z) (db : DB) (n : nat) : publisher_oracle :=
  PublisherOracle healthy (still t) (scan_all (outbox_events db)) (draws operation) true.
Definition journey_round : nat → publisher_oracle := round_at (noon + second) 40 posted.2.
Definition posted_version : version_row :=
  default accepted_version (destination_versions db_shop !! ("billing", 1)).

Lemma posted_new : accepted_new store0 env0 post0 posted.1 db_shop posted.2 posted_payload.
Proof.
  split; [|done|vm_compute; reflexivity..|apply draws_are_bytes].
  apply (reachable_Inv store0). eapply reachable_step; [apply (reachable_fresh _ empty_db); by split_and!|].
  eapply step_Bootstrap, surjective_pairing.
Qed.

Lemma round_at_calm t operation db :
  forallb canonical_text (map_to_list (outbox_events db)).*1 = true →
  Z.of_nat (size (outbox_events db)) ≤ Publisher.batchSize publisher0 →
  calm_round (round_at t operation db) publisher0 t t (uuid_of (draws operation 0%nat)) db.
Proof.
  intros Hkeys Hsize.
  split; [discriminate|done|done|done|apply draws_are_bytes|reflexivity|by apply outbox_keys_canonical|
    apply scan_all_covers|done|intros n k i; cbn; lia|].
  change (Milliseconds (Publisher.leaseDuration publisher0)) with 30000. unfold ms. lia.
Qed.

Lemma journey_calm : calm_round journey_round publisher0 (noon + second) (noon + second)
  (uuid_of (draws 40 0%nat)) posted.2.
Proof. apply round_at_calm; [vm_compute; reflexivity|vm_compute; discriminate]. Qed.

Lemma journey_prepared : prepared calm_oracle "w1" 30000000000 newDestinationLimiter posted_version 0
  (uuid_of (draws 23 0%nat)) (uuid_of (draws 28 0%nat)) db_shop
  (deliveryResponse.DestinationID posted_payload) (deliveryResponse.DestinationVersion posted_payload).
Proof.
  split; [vm_compute; reflexivity|vm_compute; reflexivity|apply draws_are_bytes|
    vm_compute; reflexivity..|discriminate|done].
Qed.

#[local] Instance journey0_outbox : PublisherEnv PublisherWorld := outbox_env journey_round.
#[local] Instance journey0_consumer : ConsumerEnv World :=
  pipeline calm_oracle sender0 (λ _, tt) by_key (λ _, true) "w1" 30000000000.

Lemma accepted_notification_reaches_its_supplier_witness : ∃ signal n t pw w' r',
  RunOnce publisher0 (mkPublisherWorld posted.2 0) = ((n, None), t, pw) ∧ PuPublish signal true ∈ t ∧
  processMessage (marshal_signal signal) (mkWorld (pw_db pw) newDestinationLimiter 0) =
    (None, [EvProcess signal (true, None); EvAck true], w') ∧
  deliveries (w_db w') !! deliveryResponse.ID posted_payload = Some r' ∧ d_status r' = StatusSucceeded.
Proof.
  destruct (accepted_notification_reaches_its_supplier canonical_law store0 env0 post0 posted.1 db_shop
    posted.2 posted_payload journey_round publisher0 (noon + second) (noon + second)
    (uuid_of (draws 40 0%nat)) calm_oracle sender0 (λ _, tt) by_key (λ _, true) "w1" 30000000000
    newDestinationLimiter posted_version 0 (uuid_of (draws 23 0%nat)) (uuid_of (draws 28 0%nat))
    posted_new journey_calm calm_undisturbed journey_prepared)
    as (r & signal & n & t & pw & Hr & _ & Hrun & Hpub & Hdeliver).
  - vm_compute. discriminate.
  - vm_compute. reflexivity.
  - reflexivity.
  - assert (Er : deliveries posted.2 !! deliveryResponse.ID posted_payload = Some accepted_row)
      by (vm_compute; reflexivity).
    rewrite Er in Hr. apply (inj Some) in Hr. destruct Hr.
    destruct (Hdeliver (Result.mk 200 "") None ClassSucceeded accepted_outcome.1.2 None)
      as (w' & Hp & (r' & Hr' & Hs & _) & _); [vm_compute; reflexivity|vm_compute; reflexivity|].
    exists signal, n, t, pw, w', r'. split; [exact Hrun|]. split; [exact Hpub|]. split; [exact Hp|].
    split; [exact Hr'|exact Hs].
Defined.
