(* ===== verification/Persistence.v ===== *)
(** * Until it is settled

    Two facts about a delivery over time.  While its destination answers with
    failures worth a retry, cycles of the service - a scheduling pass, a round
    of the Publisher, the message, the attempt - go on until an answer settles
    it, one attempt for each generation.  And whatever suppliers, brokers and
    Workers do, the first recovery and scheduling passes after the deadline
    leave no delivery open. *)

From S2P Require Import Prelude GoStrings GoUrl Json Model Database Store WorkerStore Outbox Scheduling Lifecycle Refinement Scenario Reliability Admission Recovery Hash Netip Limiter Dispatch Publishing HttpDate Worker Processing Outbound Consumer Http Api Pipeline Journey.

Local Open Scope Z_scope.

(** ** Past the deadline *)

(** The row of a delivery after both passes. *)
Definition closed_row (clk1 clk2 : clock) (id : string) (r : delivery_row) : delivery_row :=
  let r := if bool_decide (d_status r = StatusDelivering) then recovered_row clk1 id r else r in
  default r (expire_update clk2 id r).

Lemma closed_row_terminal clk1 clk2 id r :
  statement_timestamp clk1 ≤ statement_timestamp clk2 → d_retry_deadline r ≤ statement_timestamp clk1 →
  content_of (closed_row clk1 clk2 id r) = content_of r ∧
  d_generation (closed_row clk1 clk2 id r) = d_generation r ∧
  (d_status r = StatusPending ∨ d_status r = StatusDelivering →
   d_status (closed_row clk1 clk2 id r) = StatusFailedPermanent) ∧
  (d_status r = StatusSucceeded ∨ d_status r = StatusFailedPermanent →
   closed_row clk1 clk2 id r = r).
Proof.
  intros Hc Hd. unfold closed_row, expire_update, retry_expired, recovered_row, past_deadline.
  rewrite (proj2 (Z.leb_le _ _) Hd). assert (Hd2 : (d_retry_deadline r <=? statement_timestamp clk2) = true)
    by (apply Z.leb_le; lia).
  destruct (d_status r) eqn:E; simpl; rewrite ?E, ?Hd2; simpl; rewrite ?E; split_and!;
    naive_solver.
Qed.

(** C17: no delivery stays open past its deadline: after a recovery pass and
    then a scheduling pass whose calls work and whose new identifiers are fresh,
    with nothing between the two, each delivery whose deadline had passed by
    the first and whose lease, if any, had expired by then is permanently
    failed if it was pending or delivering, and otherwise exactly as it was; its
    content and generation are as before.  The recovery pass must see the whole
    table within its limit and find the row unlocked, and the rows under lease
    must leave room for the next generation and not be younger than its
    clock. *)
Theorem deadlines_close_deliveries clk1 sc1 gen1 limit1 clk2 sc2 gen2 limit2 db :
  Inv db → 0 < limit1 → recoverable clk1 db →
  fresh_uuids gen1 0 db (delivery_attempts db) → fresh_uuids gen1 1 db (outbox_events db) →
  covers sc1 (deliveries db) → Z.of_nat (size (deliveries db)) ≤ limit1 → 0 < limit2 →
  let recovered := (RecoverExpiredDeliveries healthy clk1 sc1 gen1 limit1 db).2 in
  fresh_uuids gen2 0 recovered (outbox_events recovered) →
  statement_timestamp clk1 ≤ statement_timestamp clk2 →
  ∃ n1 db1 n2 db2,
    RecoverExpiredDeliveries healthy clk1 sc1 gen1 limit1 db = (Ok n1, db1) ∧
    ScheduleDueRetries healthy clk2 sc2 gen2 limit2 db1 = (Ok n2, db2) ∧
    ∀ id r, deliveries db !! id = Some r → d_retry_deadline r ≤ statement_timestamp clk1 →
      (∀ until, d_lease_until r = Some until → until ≤ statement_timestamp clk1) →
      scan_locked sc1 id = false →
      ∃ r', deliveries db2 !! id = Some r' ∧ content_of r' = content_of r ∧
        d_generation r' = d_generation r ∧
        (d_status r = StatusPending ∨ d_status r = StatusDelivering →
         d_status r' = StatusFailedPermanent) ∧
        (d_status r = StatusSucceeded ∨ d_status r = StatusFailedPermanent → r' = r).
Proof.
  intros Hinv Hl1 Hrec Hf0 Hf1 Hcov Hsz Hl2 recovered Hf2 Hclk.
  destruct (RecoverExpiredDeliveries_healthy clk1 sc1 gen1 limit1 db Hinv Hl1 Hrec Hf0 Hf1)
    as (n1 & db1 & Hr1 & Hd1 & _). unfold recovered in Hf2. rewrite Hr1 in Hf2.
  assert (Hinv1 : Inv db1) by (eapply (step_Inv (mkStore 1)); [exact Hinv|by eapply step_RecoverExpiredDeliveries]).
  destruct (ScheduleDueRetries_healthy clk2 sc2 gen2 limit2 db1 Hinv1 Hl2 Hf2) as (n2 & db2 & Hr2 & Hd2 & _).
  exists n1, db1, n2, db2. split; [done|]. split; [done|]. intros id r Hr Hdl Hlease Hlk.
  exists (closed_row clk1 clk2 id r). split; [|by apply closed_row_terminal].
  rewrite Hd2, Hd1, lookup_map_update, Hr. simpl. f_equal. unfold closed_row.
  destruct (decide (d_status r = StatusDelivering)) as [E|E].
  - rewrite bool_decide_true by done. rewrite recover_update_selected; [done|].
    destruct (check_delivery_lease _ (inv_check _ Hinv _ _ Hr) E) as (? & ? & until & _ & _ & Hu).
    apply select_complete; try done. unfold lease_expired.
    by rewrite bool_decide_true, Hu, (proj2 (Z.leb_le _ _) (Hlease _ Hu)).
  - rewrite bool_decide_false by done. unfold recover_update.
    by rewrite (bool_decide_false (d_status r = StatusDelivering)), andb_false_r.
Qed.

(** ** Cycles of attempts *)

(** What one cycle meets: the scheduling pass, the round of the Publisher, and
    the Worker with its limiter, sender and broker. *)
Record cycle (SW : Type) := mkCycle {
  cy_clock : clock;
  cy_scan : scan;
  cy_uuids : uuid_source;
  cy_limit : Z;
  cy_publisher : Publisher.t;
  cy_round : nat → publisher_oracle;
  cy_oracle : nat → oracle;
  cy_world : nat → SW;
  cy_visit : nat → gmap string string → list (string * string);
  cy_limiter : destinationLimiter;
  cy_broker : nat → bool
}.
Arguments mkCycle {SW}.
Arguments cy_clock {SW}.
Arguments cy_scan {SW}.
Arguments cy_uuids {SW}.
Arguments cy_limit {SW}.
Arguments cy_publisher {SW}.
Arguments cy_round {SW}.
Arguments cy_oracle {SW}.
Arguments cy_world {SW}.
Arguments cy_visit {SW}.
Arguments cy_limiter {SW}.
Arguments cy_broker {SW}.

Section cycles.
Context `{Unicode, Postgres, Machine, HttpTime, IpLiteral} {SW : Type} `{SenderEnv SW}.
Hypothesis uuid_law : ∀ s u, String.length s = 16%nat → newUUID (Some s) = Ok u → uuid_in u = Some u.
Context (sender : Sender) (owner : string) (lease : Z).
Implicit Types (c : cycle SW) (cs : list (cycle SW)).

Definition scheduled c (db : DB) : DB :=
  (ScheduleDueRetries healthy (cy_clock c) (cy_scan c) (cy_uuids c) (cy_limit c) db).2.

Definition published c (db : DB) : Z * option publisher_error * list publisher_event * PublisherWorld :=
  @RunOnce _ (outbox_env (cy_round c)) (cy_publisher c) (mkPublisherWorld (scheduled c db) 0).

(** The signal of the event of the delivery's generation. *)
Definition signal_for (db : DB) (id : string) (g : Z) : Signal.t :=
  Signal.mk id g (match map_find (λ _ e, event_for id g e) (outbox_events db) with
                  | Some (_, e) => e_trace_id e
                  | None => ""
                  end).

Definition taken c (id : string) (g : Z) (db : DB) : option message_error * list message_event * World :=
  @processMessage _ _
    (pipeline (cy_oracle c) sender (cy_world c) (cy_visit c) (cy_broker c) owner lease)
    (marshal_signal (signal_for (scheduled c db) id g))
    (mkWorld (pw_db (published c db).2) (cy_limiter c) 0).

Definition run_cycle c (id : string) (g : Z) (db : DB) : DB := w_db (taken c id g db).2.

(** The answer of the supplier to the attempt of the cycle, and what the
    Worker makes of it. *)
Definition cycle_token c : string := uuid_of (o_random (cy_oracle c 3%nat) 0%nat).

Definition cycle_outcome c (id : string) (v : version_row) (r : delivery_row)
    : ResultClass * AttemptResult.t * option Z :=
  let env := cy_oracle c in
  let d := destination_of (d_destination_id r) (d_destination_version r) v in
  let task := leased_delivery id
    (claimed_row (o_clock (env 3%nat)) id owner (cycle_token c) (interval lease) r) in
  let '(res, err) := send_from sender (cy_world c) (cy_visit c) 5 task d in
  outcome (o_now (env 7%nat)) task d (o_now (env 4%nat)) (o_now (env 6%nat)) res err.

Definition cycle_class c id v r : ResultClass := (cycle_outcome c id v r).1.1.

(** A delivery the service owes an attempt: pending, and any event of its
    generation still to be published. *)
Record waiting (id : string) (db : DB) (r : delivery_row) : Prop := {
  wa_inv : Inv db;
  wa_id : validUUID id = true;
  wa_uuid : uuid_in id = Some id;
  wa_row : deliveries db !! id = Some r;
  wa_status : d_status r = StatusPending;
  wa_event eid e : outbox_events db !! eid = Some e → e_delivery_id e = id → e_generation e = d_generation r →
    validUUID (e_trace_id e) = true ∧ e_published_at e = None ∧ e_lease_until e = None ∧
    e_available_at e ≤ d_next_attempt_at r
}.

(** Nothing fails in the cycle, the delivery is due in its window and its
    deadline lies after it. *)
Record calm_cycle c (id : string) (v : version_row) (r : delivery_row) (db : DB)
    (lo hi : Z) (ptoken : string) (permit : nat) (aid : string) : Prop := {
  cc_limit : 0 < cy_limit c;
  cc_fresh : fresh_uuids (cy_uuids c) 0 db (outbox_events db);
  cc_trace : validUUID (cy_uuids c id 1%nat) = true;
  cc_covers : covers (cy_scan c) (deliveries db);
  cc_size : Z.of_nat (size (deliveries db)) ≤ cy_limit c;
  cc_unlocked : scan_locked (cy_scan c) id = false;
  cc_due : d_next_attempt_at r ≤ lo;
  cc_open : hi < d_retry_deadline r;
  cc_clock : lo ≤ clock_timestamp (cy_clock c) id 1;
  cc_statement : statement_timestamp (cy_clock c) ≤ hi;
  cc_max : d_generation r < max_int64;
  cc_round : calm_round (cy_round c) (cy_publisher c) lo hi ptoken (scheduled c db);
  cc_undisturbed : undisturbed (cy_oracle c) lease lo hi 0;
  cc_prepared : prepared (cy_oracle c) owner lease (cy_limiter c) v permit (cycle_token c) aid db
    (d_destination_id r) (d_destination_version r);
  cc_broker : cy_broker c 10%nat = true
}.

(** The scheduling pass leaves the event of the generation in the Outbox. *)
Lemma waiting_queued c id v r db lo hi ptoken permit aid :
  waiting id db r → calm_cycle c id v r db lo hi ptoken permit aid →
  destination_versions (scheduled c db) = destination_versions db ∧
  delivery_attempts (scheduled c db) = delivery_attempts db ∧
  ∃ eid e, queued lo hi (scheduled c db) id (d_generation r) r eid e.
Proof.
  intros Hw Hc. destruct (ScheduleDueRetries_healthy (cy_clock c) (cy_scan c) (cy_uuids c) (cy_limit c) db)
    as (n & db1 & Hrun & Hd & Hins); [apply Hw|apply Hc|apply Hc|].
  assert (Hinv1 : Inv db1) by (eapply (step_Inv (mkStore 1)); [apply Hw|by eapply step_ScheduleDueRetries]).
  unfold scheduled. rewrite Hrun. cbn [snd]. destruct Hins as [Fr Kp Or Mk _].
  split; [by rewrite Fr|]. split; [by rewrite Fr|].
  assert (Hr1 : deliveries db1 !! id = Some r).
  { rewrite Hd, (wa_row _ _ _ Hw). simpl. f_equal. apply expire_update_before.
    pose proof (cc_statement _ _ _ _ _ _ _ _ _ _ Hc). pose proof (cc_open _ _ _ _ _ _ _ _ _ _ Hc). lia. }
  assert (Hev : has_event db1 id (d_generation r) = true).
  { destruct (has_event db id (d_generation r)) eqn:Hh; [by eapply has_event_mono; [apply Kp|]|].
    refine (Mk (id, r) _ _ _ eq_refl). destruct Hw, Hc. apply due_selected; try done; lia. }
  apply has_event_true in Hev as (eid & e & He & Hid & Hg). exists eid, e.
  assert (Hok : validUUID (e_trace_id e) = true ∧ e_published_at e = None ∧ e_lease_until e = None ∧
    e_available_at e ≤ d_next_attempt_at r).
  { destruct (Or _ _ He) as [Hold|(_ & _ & _ & [id' r'] & Hin & Hnew)]; [by eapply wa_event|].
    unfold scheduled_event in Hnew. simplify_eq. simpl in *.
    apply select_elem in Hin as (Hr' & _). rewrite (wa_row _ _ _ Hw) in Hr'. simplify_eq.
    split_and!; [apply Hc|done..]. }
  destruct Hok as (Ht & Hp & Hl & Ha). destruct Hw, Hc.
  split; try done. split_and!; [done|done|lia].
Qed.

(** The signal of the cycle is that of the event. *)
Lemma signal_for_event db id g eid e :
  Inv db → outbox_events db !! eid = Some e → e_delivery_id e = id → e_generation e = g →
  signal_for db id g = Signal.mk id g (e_trace_id e).
Proof.
  intros Hinv He Hid Hg. unfold signal_for. destruct (map_find _ _) as [[k e']|] eqn:E.
  - apply map_find_Some in E as [He' Hf]. unfold event_for in Hf. to_prop. destruct Hf as [Hid' Hg'].
    assert (k = eid) as -> by (eapply inv_event_unique; [exact Hinv|done|done|split; congruence]).
    by simplify_eq.
  - rewrite map_find_None in E. apply E in He. unfold event_for in He. to_prop. by destruct He.
Qed.

(** The cycle announced the delivery and its message was acknowledged. *)
Definition cycle_ok c (id : string) (g : Z) (db : DB) : Prop :=
  let signal := signal_for (scheduled c db) id g in
  PuPublish signal true ∈ (published c db).1.2 ∧
  (taken c id g db).1 = (None, [EvProcess signal (true, None); EvAck true]).

(** What a calm cycle leaves. *)
Record attempted (id : string) (r : delivery_row) (class : ResultClass) (db db' : DB) (r' : delivery_row)
    : Prop := {
  am_row : deliveries db' !! id = Some r';
  am_status : d_status r' = status_after class;
  am_generation : d_generation r' = generation_after class (d_generation r);
  am_content : content_of r' = content_of r;
  am_attempt : ∃ aid a, delivery_attempts db' !! aid = Some a ∧ attempt_matches a id (d_generation r) class;
  am_kept aid a : delivery_attempts db !! aid = Some a → delivery_attempts db' !! aid = Some a;
  am_waiting : class = ClassRetryableFailure → waiting id db' r'
}.

Lemma settled_attempted env w id r token aid class att next db db' :
  waiting id db r → delivery_attempts (w_db w) = delivery_attempts db → delivery_attempts db !! aid = None →
  AttemptResult.Generation att = d_generation r →
  settled env owner lease w id (d_generation r) r token aid class att next db' →
  ∃ r', attempted id r class db db' r'.
Proof.
  intros Hw Ea Hfr Hg [Hinv Hrow Hatt _ Hev]. rewrite Ea in Hatt. eexists.
  assert (Hgen : ∀ ts next claimed, d_generation claimed = d_generation r →
    d_generation (completed_row ts class next claimed) = generation_after class (d_generation r)).
  { intros ts nx cl Hcl. destruct class; simpl; congruence. }
  split; [exact Hrow|by destruct class|by apply Hgen|done| | |].
  - exists aid. eexists. rewrite Hatt, lookup_insert_eq. split; [done|]. by split_and!.
  - intros aid' a Ha. rewrite Hatt, lookup_insert_ne; [done|]. intros <-. congruence.
  - intros ->. destruct Hw. split; try done. intros eid e He Hid Hge.
    specialize (Hev _ _ He Hid). rewrite Hgen in Hge by done. simpl in Hge. lia.
Qed.

Lemma cycle_attempts c id v r db lo hi ptoken permit aid :
  waiting id db r → calm_cycle c id v r db lo hi ptoken permit aid →
  cycle_ok c id (d_generation r) db ∧
  ∃ r', attempted id r (cycle_class c id v r) db (run_cycle c id (d_generation r) db) r'.
Proof.
  intros Hw Hc. destruct (waiting_queued _ _ _ _ _ _ _ _ _ _ Hw Hc) as (Ev & Ea & eid & e & Hq).
  pose proof (signal_for_event _ _ _ _ _ (qu_inv _ _ _ _ _ _ _ _ Hq) (qu_event _ _ _ _ _ _ _ _ Hq)
    (proj1 (qu_signal _ _ _ _ _ _ _ _ Hq)) (proj2 (qu_signal _ _ _ _ _ _ _ _ Hq))) as Hsig.
  assert (Hprep : prepared (cy_oracle c) owner lease (cy_limiter c) v permit (cycle_token c) aid
    (scheduled c db) (d_destination_id r) (d_destination_version r)).
  { destruct (cc_prepared _ _ _ _ _ _ _ _ _ _ Hc). split; try done; congruence. }
  destruct (cycle_outcome c id v r) as [[class att] next] eqn:Eo. unfold cycle_class. rewrite Eo. cbn [fst].
  unfold cycle_outcome in Eo. destruct (send_from _ _ _ _ _ _) as [res err] eqn:Es.
  destruct (queued_delivered uuid_law (cy_round c) (cy_publisher c) lo hi ptoken (cy_oracle c) sender
    (cy_world c) (cy_visit c) (cy_broker c) owner lease (cy_limiter c) v permit (cycle_token c) aid
    (scheduled c db) id (d_generation r) r eid e res err class att next Hq (cc_round _ _ _ _ _ _ _ _ _ _ Hc)
    (cc_undisturbed _ _ _ _ _ _ _ _ _ _ Hc) Hprep (cc_broker _ _ _ _ _ _ _ _ _ _ Hc) Es Eo)
    as (n & t & pw & w' & Hrun & Hpub & Honly & Hmsg & Hset).
  rewrite <- Hsig in Hpub, Hmsg.
  assert (Epub : published c db = ((n, None), t, pw)) by exact Hrun.
  assert (Etak : taken c id (d_generation r) db =
    (None, [EvProcess (signal_for (scheduled c db) id (d_generation r)) (true, None); EvAck true], w')).
  { unfold taken. rewrite Epub. exact Hmsg. }
  split; [split; [by rewrite Epub|by rewrite Etak]|]. unfold run_cycle. rewrite Etak.
  eapply settled_attempted; [exact Hw| |apply (pr_fresh _ _ _ _ _ _ _ _ _ _ _ (cc_prepared _ _ _ _ _ _ _ _ _ _ Hc))| |exact Hset].
  - cbn [w_db]. rewrite <- Ea. by rewrite Honly.
  - apply outcome_attempt in Eo as (_ & -> & _). done.
Qed.

(** ** Cycle after cycle *)

(** Calm cycles, all but the last of which end in a failure worth a retry. *)
Fixpoint persistent cs (id : string) (v : version_row) (db : DB) : Prop :=
  match cs with
  | [] => True
  | c :: cs => ∃ r lo hi ptoken permit aid,
      deliveries db !! id = Some r ∧ calm_cycle c id v r db lo hi ptoken permit aid ∧
      (cs ≠ [] → cycle_class c id v r = ClassRetryableFailure) ∧
      persistent cs id v (run_cycle c id (d_generation r) db)
  end.

Lemma persistent_cons c cs id v db r lo hi ptoken permit aid :
  deliveries db !! id = Some r → calm_cycle c id v r db lo hi ptoken permit aid →
  (cs ≠ [] → cycle_class c id v r = ClassRetryableFailure) →
  persistent cs id v (run_cycle c id (d_generation r) db) → persistent (c :: cs) id v db.
Proof. intros. by exists r, lo, hi, ptoken, permit, aid. Qed.

(** The database after them, how each ended, and that each was announced and
    acknowledged. *)
Fixpoint run_cycles cs (id : string) (db : DB) : DB :=
  match cs, deliveries db !! id with
  | c :: cs, Some r => run_cycles cs id (run_cycle c id (d_generation r) db)
  | _, _ => db
  end.

Fixpoint classes cs (id : string) (v : version_row) (db : DB) : list ResultClass :=
  match cs, deliveries db !! id with
  | c :: cs, Some r => cycle_class c id v r :: classes cs id v (run_cycle c id (d_generation r) db)
  | _, _ => []
  end.

Fixpoint all_ok cs (id : string) (db : DB) : Prop :=
  match cs, deliveries db !! id with
  | c :: cs, Some r => cycle_ok c id (d_generation r) db ∧
                       all_ok cs id (run_cycle c id (d_generation r) db)
  | _, _ => True
  end.

Lemma cycles_settle cs id v db r :
  cs ≠ [] → waiting id db r → persistent cs id v db →
  let db' := run_cycles cs id db in
  all_ok cs id db ∧ ∃ r' class,
    last (classes cs id v db) = Some class ∧ length (classes cs id v db) = length cs ∧
    deliveries db' !! id = Some r' ∧ d_status r' = status_after class ∧
    d_generation r' = generation_after class (d_generation r + Z.of_nat (length cs) - 1) ∧
    content_of r' = content_of r ∧
    (∀ aid a, delivery_attempts db !! aid = Some a → delivery_attempts db' !! aid = Some a) ∧
    ∀ k ck, classes cs id v db !! k = Some ck →
      ∃ aid a, delivery_attempts db' !! aid = Some a ∧ attempt_matches a id (d_generation r + Z.of_nat k) ck.
Proof.
  revert db r. induction cs as [|c cs IH]; intros db r Hne Hw Hp; [done|].
  destruct Hp as (r0 & lo & hi & pt & permit & aid & Hr0 & Hc & Hretry & Hp).
  rewrite (wa_row _ _ _ Hw) in Hr0. injection Hr0 as <-.
  destruct (cycle_attempts _ _ _ _ _ _ _ _ _ _ Hw Hc) as (Hok & r1 & [Hr1 Hs1 Hg1 Hc1 (aid1 & a1 & Ha1 & Hm1) Hk1 Hw1]).
  cbn [run_cycles classes all_ok length]. rewrite (wa_row _ _ _ Hw).
  destruct (decide (cs = [])) as [->|Hcs].
  { split; [by split|]. exists r1. eexists. cbn [run_cycles classes length]. split_and!; [done|done|done|done| |done|done|].
    - rewrite Hg1. f_equal. lia.
    - intros [|k] ck Hk; [|done]. simpl in Hk. injection Hk as <-. exists aid1, a1.
      by rewrite Z.add_0_r. }
  specialize (Hretry Hcs). rewrite Hretry in *. simpl in Hg1.
  destruct (IH _ r1 Hcs (Hw1 eq_refl) Hp) as (Hoks & r' & class & Hl & Hlen & Hr' & Hs' & Hg' & Hc' & Hk' & Ha').
  split; [by split|]. exists r', class. split_and!.
  - destruct (classes cs _ _ _); [done|exact Hl].
  - cbn [length]. by rewrite Hlen.
  - exact Hr'.
  - exact Hs'.
  - rewrite Hg', Hg1. f_equal. lia.
  - congruence.
  - eauto.
  - intros [|k] ck Hk; cbn [lookup list_lookup] in Hk.
    + injection Hk as <-. exists aid1, a1. rewrite Z.add_0_r. eauto.
    + destruct (Ha' k ck Hk) as (aid2 & a2 & Ha2 & Hm2). exists aid2, a2. split; [done|].
      rewrite Hg1 in Hm2. by replace (d_generation r + Z.of_nat (S k)) with (d_generation r + 1 + Z.of_nat k) by lia.
Qed.

Lemma announced_waiting aenv db0 db1 p r eid e :
  announced aenv db0 db1 p r eid e → waiting (deliveryResponse.ID p) db1 r.
Proof.
  intros [Hinv Hid Hu Hr Hs Hg Hdue _ _ He [Hd Hge] Ht (Hp & Hl & Ha) _ _]. split; try done.
  intros eid' e' He' Hid' Hg'. assert (eid' = eid) as ->.
  { eapply inv_event_unique; [exact Hinv|done|done|]. split; congruence. }
  rewrite He in He'. injection He' as <-. split_and!; [done|done|done|lia].
Qed.

End cycles.

(** ** The accepted request of [Api], answered 503 and then 200 *)

(** A supplier whose answer is the state of its world. *)
#[local] Instance moody_supplier : SenderEnv Z := {|
  LookupIP_ host w := (Ok [[93; 184; 216; 34]], w);
  LookupEnv_ name w := (if String.eqb name "KEY" then Some "s3cret" else None, w);
  Do_ r w := (([Some ("supplier.example", "443")], Ok (Result.mk w "")), w)
|}.

Definition oracle_at (t operation : Z) (n : nat) : oracle :=
  Oracle healthy (still t) (draws (operation + Z.of_nat n)) (time_of t) (λ db, db) (λ l, l).
Definition uuids_at (operation : Z) : uuid_source := λ _ n, uuid_of (draws operation n).

(** A cycle on a given database, all of it at one moment. *)
Definition cycle_at (t operation status : Z) (db : DB) : cycle Z :=
  let sc := scan_all (deliveries db) in
  let gen := uuids_at (operation + 20) in
  mkCycle (still t) sc gen 10 publisher0
    (round_at t (operation + 21) (ScheduleDueRetries healthy (still t) sc gen 10 db).2)
    (oracle_at t operation) (λ _, status) by_key newDestinationLimiter (λ _, true).

Definition posted_id : string := deliveryResponse.ID posted_payload.
Definition row_of (db : DB) : delivery_row := default accepted_row (deliveries db !! posted_id).

Definition refused : cycle Z := cycle_at (noon + second) 20 503 posted.2.
Definition after_refusal : DB :=
  run_cycle sender0 "w1" 30000000000 refused posted_id (d_generation (row_of posted.2)) posted.2.
Lemma after_refusal_eq : after_refusal =
  run_cycle sender0 "w1" 30000000000 refused posted_id (d_generation (row_of posted.2)) posted.2.
Proof. reflexivity. Qed.
Definition answered : cycle Z := cycle_at (noon + 10 * second) 50 200 after_refusal.

Example refused_then_answered :
  classes sender0 "w1" 30000000000 [refused; answered] posted_id posted_version posted.2 =
    [ClassRetryableFailure; ClassSucceeded].
Proof. vm_compute. reflexivity. Qed.

Lemma fresh_one gen n db (m : gmap string outbox_row) id :
  (map_to_list (deliveries db)).*1 = [id] → m !! gen id n = None → fresh_uuids gen n db m.
Proof.
  intros Hl Hm.
  assert (Hone : ∀ id' r, deliveries db !! id' = Some r → id' = id).
  { intros id' r Hr. apply list_elem_of_singleton. rewrite <- Hl. apply list_elem_of_fmap.
    exists (id', r). split; [done|]. by apply elem_of_map_to_list. }
  intros id1 r1 H1. rewrite (Hone _ _ H1). split; [done|]. intros id2 r2 H2 _. by rewrite (Hone _ _ H2).
Qed.

Lemma oracle_at_undisturbed t operation :
  undisturbed (oracle_at t operation) 30000000000 t t 0.
Proof.
  split; intros; try done; simpl; try lia. change (interval 30000000000) with 30000000. lia.
Qed.

(** Each condition of a concrete cycle by computation. *)
Ltac calm_by_computation :=
  split; [reflexivity| |vm_compute; reflexivity|apply scan_all_covers|vm_compute; discriminate|reflexivity|
    vm_compute; discriminate|vm_compute; reflexivity|vm_compute; discriminate|vm_compute; discriminate|
    vm_compute; reflexivity| |apply oracle_at_undisturbed| |reflexivity];
  [apply (fresh_one _ _ _ _ posted_id); vm_compute; reflexivity
  |apply round_at_calm; [vm_compute; reflexivity|vm_compute; discriminate]
  |split; [vm_compute; reflexivity|vm_compute; reflexivity|apply draws_are_bytes|
     vm_compute; reflexivity..|discriminate|done]].

Lemma refused_calm : calm_cycle "w1" 30000000000 refused posted_id posted_version (row_of posted.2) posted.2
  (noon + second) (noon + second) (uuid_of (draws 41 0%nat)) 0 (uuid_of (draws 28 0%nat)).
Proof. calm_by_computation. Qed.

Lemma answered_calm : calm_cycle "w1" 30000000000 answered posted_id posted_version (row_of after_refusal)
  after_refusal (noon + 10 * second) (noon + 10 * second) (uuid_of (draws 71 0%nat)) 0
  (uuid_of (draws 58 0%nat)).
Proof. calm_by_computation. Qed.

Lemma answered_persistent :
  persistent sender0 "w1" 30000000000 [answered] posted_id posted_version after_refusal.
Proof.
  eapply persistent_cons; [|exact answered_calm|by intros []|exact I]. vm_compute. reflexivity.
Qed.

Lemma posted_persistent :
  persistent sender0 "w1" 30000000000 [refused; answered] posted_id posted_version posted.2.
Proof.
  assert (Hr : deliveries posted.2 !! posted_id = Some (row_of posted.2)) by (vm_compute; reflexivity).
  refine (persistent_cons _ _ _ _ _ _ _ _ _ _ _ _ _ _ Hr refused_calm _ _).
  - intros _. vm_compute. reflexivity.
  - rewrite <- after_refusal_eq. exact answered_persistent.
Qed.


(** A Worker claimed the delivery and was never heard of again. *)
Lemma deadlines_close_deliveries_witness :
  let t := still (noon + 48 * hour) in
  let all := scan_all (deliveries db_claimed) in
  ∃ n1 db1 n2 db2 r',
    RecoverExpiredDeliveries healthy t all fresh_gen 10 db_claimed = (Ok n1, db1) ∧
    ScheduleDueRetries healthy t all fresh_gen 10 db1 = (Ok n2, db2) ∧
    deliveries db2 !! id0 = Some r' ∧ d_status r' = StatusFailedPermanent ∧
    content_of r' = content_of (row0 db_claimed).
Proof.
  intros t all.
  destruct (deadlines_close_deliveries t all fresh_gen 10 t all fresh_gen 10 db_claimed)
    as (n1 & db1 & n2 & db2 & H1 & H2 & Hall).
  - apply (reachable_Inv _ _ claimed_reachable).
  - reflexivity.
  - intros id r ->%claimed_only _.
    split; vm_compute; reflexivity || discriminate.
  - apply fresh_gen_fresh. vm_compute. reflexivity.
  - apply fresh_gen_fresh. vm_compute. reflexivity.
  - apply scan_all_covers.
  - vm_compute. discriminate.
  - reflexivity.
  - apply fresh_gen_fresh. vm_compute. reflexivity.
  - reflexivity.
  - destruct (Hall id0 (row0 db_claimed)) as (r' & Hr' & Hc & _ & Ht & _).
    + vm_compute. reflexivity.
    + vm_compute. discriminate.
    + intros u Hu. vm_compute in Hu. injection Hu as <-. vm_compute. discriminate.
    + reflexivity.
    + exists n1, db1, n2, db2, r'. split; [exact H1|]. split; [exact H2|]. split; [exact Hr'|].
      split; [|exact Hc]. apply Ht. right. vm_compute. reflexivity.
Defined.
