(* ===== verification/Service.v ===== *)
(** * cmd/notifier: the process

    Configuration from the environment, startup, the maintenance loops, the
    drain loop of retention, alerts, metrics and health, and the loops that
    keep a Publisher and a consumer connected.  A loop of the program runs
    until it is cancelled; here it is given a number of rounds and answers
    [None] when it would go on. *)

From S2P Require Import Prelude GoStrings Model Database Store Scheduling Lifecycle Refinement Scenario Recovery Dispatch Worker Hash Netip GoUrl Outbound Http.
From Stdlib Require Import SpecFloat.

Local Open Scope Z_scope.

Definition Millisecond : Z := 1000000.
Definition Minute : Z := 60 * Second.

(** ** Configuration (main.go, worker.go) *)

(** [os.Getenv]: the empty string for a variable that is not set. *)
Definition environment : Type := string → string.

Definition envOr (getenv : environment) (name fallback : string) : string :=
  if negb (String.eqb (getenv name) "") then getenv name else fallback.

(** The float64 1. *)
Definition float_one : spec_float := S754_finite false 4503599627370496 (-52).

Definition localBootstrapConfig (getenv : environment) : BootstrapConfig.t :=
  BootstrapConfig.mk
    (envOr getenv "BOOTSTRAP_CALLER_ID" "caller-a")
    (envOr getenv "BOOTSTRAP_CALLER_API_KEY" "caller-a-test-key")
    {| DestinationVersion.DestinationID := envOr getenv "BOOTSTRAP_DESTINATION_ID" "supplier-a";
       DestinationVersion.Version := 1;
       DestinationVersion.URL :=
         envOr getenv "BOOTSTRAP_DESTINATION_URL" "https://fake-supplier.test:8443/notify";
       DestinationVersion.NetworkPolicy := "test-only-supplier";
       DestinationVersion.AllowedMethods := Some ["POST"];
       DestinationVersion.AllowedHeaders := Some ["content-type"; "x-event-type"];
       DestinationVersion.SecretRef := "env:SUPPLIER_AUTH_VALUE";
       DestinationVersion.CredentialHeader := "Authorization";
       DestinationVersion.IdempotencyHeader := "Idempotency-Key";
       DestinationVersion.SuccessStatuses := Some [];
       DestinationVersion.RetryStatuses := Some [408; 425; 429];
       DestinationVersion.ConnectTimeout := 3 * Second;
       DestinationVersion.RequestTimeout := 15 * Second;
       DestinationVersion.RatePerSecond := float_one;
       DestinationVersion.MaxConcurrency := 1 |}.

(** [build] is [testNetworkPolicyBuildEnabled], set by the build tag. *)
Definition allowTestNetworkPolicy (build : bool) (environment bootstrap allowance : string)
    : bool :=
  build && String.eqb environment "test" && String.eqb bootstrap "true" &&
  String.eqb allowance "true".

(** The sender [runWorker] makes. *)
Definition worker_sender (build : bool) (getenv : environment)
    (readFile : string → option string) (parsesPEM : string → bool) : result unit Sender :=
  NewSender false
    (allowTestNetworkPolicy build (envOr getenv "APP_ENV" "production")
       (envOr getenv "BOOTSTRAP_LOCAL_CONFIG" "false")
       (envOr getenv "ALLOW_TEST_NETWORK_POLICY" "false"))
    (envOr getenv "TEST_SUPPLIER_CA_FILE" "") readFile parsesPEM.

(** ** Startup and shutdown (main.go) *)

Inductive failure : Type :=
  | invalid_database_configuration
  | database_unavailable
  | invalid_backlog_limit
  | invalid_store
  | bootstrap_failed
  | invalid_api
  | listen_failed
  | shutdown_failed.

Inductive routine : Type :=
  | PublisherRoutine | WorkerRoutine | RetryScheduler | LeaseReconciler | Retention
  | OperationalAlerts.

(** Up to the goroutines: the store, or why the process exits.  [pool_ok] and
    [ping_ok] are the outcomes of [pgxpool.New] and [Ping]. *)
Definition startup (getenv : environment) (pool_ok ping_ok : bool) (io : IO) (db : DB)
    : result failure Store * DB :=
  if negb pool_ok then (Err invalid_database_configuration, db)
  else if negb ping_ok then (Err database_unavailable, db)
  else match ParseInt (envOr getenv "BACKLOG_LIMIT" "100000") with
  | None => (Err invalid_backlog_limit, db)
  | Some backlogLimit =>
      if backlogLimit <=? 0 then (Err invalid_backlog_limit, db)
      else match NewStore false backlogLimit with
      | Err _ => (Err invalid_store, db)
      | Ok store =>
          if String.eqb (envOr getenv "BOOTSTRAP_LOCAL_CONFIG" "false") "true" then
            match Bootstrap io (localBootstrapConfig getenv) db with
            | (Err _, db) => (Err bootstrap_failed, db)
            | (Ok _, db) => (if NewAPI false then Ok store else Err invalid_api, db)
            end
          else (if NewAPI false then Ok store else Err invalid_api, db)
      end
  end.

Definition routines (getenv : environment) : list routine :=
  (if String.eqb (envOr getenv "PUBLISHER_ENABLED" "true") "true" then [PublisherRoutine] else []) ++
  (if String.eqb (envOr getenv "WORKER_ENABLED" "true") "true" then [WorkerRoutine] else []) ++
  [RetryScheduler; LeaseReconciler; Retention; OperationalAlerts].

(** What ends the final [select]. *)
Inductive ending : Type :=
  | ServerStopped (closed : bool)       (* ListenAndServe returned; ErrServerClosed? *)
  | Interrupted (shutdown_ok : bool).   (* SIGINT or SIGTERM, then Shutdown *)

(** The started goroutines and why the process fails, if it does; [None] is
    exit status 0. *)
Definition main (getenv : environment) (pool_ok ping_ok : bool) (io : IO) (last : ending) (db : DB)
    : list routine * option failure * DB :=
  match startup getenv pool_ok ping_ok io db with
  | (Err f, db) => ([], Some f, db)
  | (Ok _, db) =>
      (routines getenv,
       match last with
       | ServerStopped closed => if closed then None else Some listen_failed
       | Interrupted ok => if ok then None else Some shutdown_failed
       end, db)
  end.

(** ** Health (main.go) *)

Inductive health_route : Type := Healthz | Readyz.

Definition registerHealthRoutes (ready : bool) (route : health_route) : Z :=
  match route with
  | Healthz => 204
  | Readyz => if negb ready then 503 else 204
  end.

(** ** Alerts and metrics (scheduling.go, metrics.go) *)

Inductive warning : Type :=
  | BacklogAging (age : Z)
  | OutboxDelayed (age : Z)
  | LeasesExpired (count : Z).

(** The ages are in microseconds; sixty seconds is a float64. *)
Definition alertOperationalState (snapshot : OperationalSnapshot.t) : list warning :=
  (if 60 * 1000000 <=? OperationalSnapshot.OldestPending snapshot
   then [BacklogAging (OperationalSnapshot.OldestPending snapshot)] else []) ++
  (if 60 * 1000000 <=? OperationalSnapshot.OldestOutbox snapshot
   then [OutboxDelayed (OperationalSnapshot.OldestOutbox snapshot)] else []) ++
  (if 0 <? OperationalSnapshot.ExpiredLeases snapshot
   then [LeasesExpired (OperationalSnapshot.ExpiredLeases snapshot)] else []).

(** The value of a sample before its conversion to float64; [None] is NaN. *)
Definition sample : Type := string * option string * option Z.

(** [values.ResultClasses[class]]: zero when absent. *)
Definition class_count (snapshot : OperationalSnapshot.t) (c : ResultClass) : Z :=
  default 0 (snd <$> find (λ cn : ResultClass * Z, bool_decide (cn.1 = c))
                       (OperationalSnapshot.ResultClasses snapshot)).

(** [None] is the 503 answer; [queueDepth] is [None] when the probe failed. *)
Definition newMetricsHandler (snapshot : result error OperationalSnapshot.t)
    (queueDepth : option Z) (counts : gmap string Z) : option (list sample) :=
  match snapshot with
  | Err _ => None
  | Ok values =>
      Some ([("notifier_oldest_pending_seconds", None, Some (OperationalSnapshot.OldestPending values));
             ("notifier_oldest_outbox_seconds", None, Some (OperationalSnapshot.OldestOutbox values));
             ("notifier_expired_leases", None, Some (OperationalSnapshot.ExpiredLeases values));
             ("notifier_queue_depth", None, queueDepth);
             ("notifier_rabbitmq_up", None,
                Some (match queueDepth with Some _ => 1 | None => 0 end));
             ("notifier_permanent_failures", None,
                Some (OperationalSnapshot.PermanentFailures values))] ++
            ((λ c, ("notifier_delivery_results_total", Some (class_text c),
                    Some (class_count values c))) <$>
               [ClassSucceeded; ClassRetryableFailure; ClassPermanentFailure]) ++
            ((λ o, ("notifier_submissions_total", Some o, Some (default 0 (counts !! o)))) <$>
               ["accepted"; "rejected"]))
  end.

(** ** Loops *)

(** [ctx.Err() != nil], and a timer or ticker against [ctx.Done()]: did the
    timer fire? *)
Class Runtime (W : Type) := {
  cancelled_ : W → bool * W;
  wait_ : Z → W → bool * W
}.

Inductive loop_event : Type :=
  | EvAlert (w : warning)
  | EvCycle (failed : bool)
  | EvWarn (component : string)
  | EvTick (fired : bool).

Section maintenance.
Context {W : Type} `{Runtime W}.

(** [run] answers whether its cycle failed, or [None] while it still runs. *)
Fixpoint runMaintenanceLoop (rounds : nat) (interval : Z) (component : string)
    (run : Eff loop_event W (option bool)) : Eff loop_event W (option unit) :=
  match rounds with
  | O => mret None
  | S rounds =>
      run ≫= λ outcome : option bool,
      match outcome with
      | None => mret None
      | Some failed =>
          emit (EvCycle failed) ≫= λ _,
          (if failed
           then quietly cancelled_ ≫= λ cancelled : bool,
                if negb cancelled then emit (EvWarn component) else mret tt
           else mret tt) ≫= λ _,
          perform EvTick (wait_ interval) ≫= λ fired : bool,
          if fired then runMaintenanceLoop rounds interval component run else mret (Some tt)
      end
  end.
End maintenance.

(** The two's complement of 64 bits. *)
Definition int64 (z : Z) : Z := (z + 2 ^ 63) mod 2 ^ 64 - 2 ^ 63.

(** What the n-th interaction of a loop meets: the outcome of its calls, the
    clock, the scan, fresh identifiers, what the rest of the system did to the
    database since, whether the context is done and whether the timer fires. *)
Record moment := Moment {
  m_io : IO;
  m_clock : clock;
  m_scan : scan;
  m_uuids : uuid_source;
  m_others : DB → DB;
  m_cancelled : bool;
  m_fires : bool
}.

Record ServiceWorld := mkServiceWorld { sv_db : DB; sv_tick : nat }.

Section service.
Context `{Unicode, Postgres}.
Context (env : nat → moment).

Definition on_db {A} (op : moment → DB → A * DB) (w : ServiceWorld) : A * ServiceWorld :=
  let m := env (sv_tick w) in
  let '(a, db) := op m (m_others m (sv_db w)) in (a, mkServiceWorld db (S (sv_tick w))).

#[local] Instance service_runtime : Runtime ServiceWorld := {|
  cancelled_ := on_db (λ m db, (m_cancelled m, db));
  wait_ _ := on_db (λ m db, (m_fires m, db))
|}.

Definition did_fail {A} (r : result error A) : bool := negb (is_ok r).

Definition retry_cycle : Eff loop_event ServiceWorld (option bool) :=
  quietly (on_db (λ m, ScheduleDueRetries (m_io m) (m_clock m) (m_scan m) (m_uuids m) 100))
    ≫= λ r, mret (Some (did_fail r)).
Definition runRetryScheduler (rounds : nat) : Eff loop_event ServiceWorld (option unit) :=
  runMaintenanceLoop rounds (100 * Millisecond) "retry_scheduler" retry_cycle.

Definition lease_cycle : Eff loop_event ServiceWorld (option bool) :=
  quietly (on_db (λ m, RecoverExpiredDeliveries (m_io m) (m_clock m) (m_scan m) (m_uuids m) 100))
    ≫= λ recovered : result error Z,
  if did_fail recovered then mret (Some true)
  else quietly (on_db (λ m, ReconcileStalledSignals (m_io m) (m_clock m) (m_scan m) (m_uuids m)
                              Minute 100)) ≫= λ r,
       mret (Some (did_fail r)).
Definition runLeaseReconciler (rounds : nat) : Eff loop_event ServiceWorld (option unit) :=
  runMaintenanceLoop rounds Second "lease_reconciler" lease_cycle.

(** [drainRetention]: the total and the error, or [None] while it goes on. *)
Inductive drain_error : Type := DrainStore (e : error) | DrainCancelled.

Definition successRetention : Z := 7 * 24 * Hour.
Definition failureRetention : Z := 30 * 24 * Hour.

Definition retention_batch (batchSize : Z) : ServiceWorld → result error Z * ServiceWorld :=
  on_db (λ m, DeleteExpiredTerminal (m_io m) (m_clock m) (m_scan m)
                successRetention failureRetention batchSize).

Fixpoint drainRetention (batches : nat) (batchSize total : Z) (w : ServiceWorld)
    : option (Z * option drain_error) * ServiceWorld :=
  match batches with
  | O => (None, w)
  | S batches =>
      match retention_batch batchSize w with
      | (Err e, w) => (Some (total, Some (DrainStore e)), w)
      | (Ok deleted, w) =>
          let total := int64 (total + deleted) in
          if deleted <? batchSize then (Some (total, None), w)
          else match cancelled_ w with
          | (true, w) => (Some (total, Some DrainCancelled), w)
          | (false, w) => drainRetention batches batchSize total w
          end
      end
  end.

Definition retention_cycle (batches : nat) : Eff loop_event ServiceWorld (option bool) :=
  quietly (drainRetention batches 1000 0) ≫= λ drained : option (Z * option drain_error),
  mret ((λ te : Z * option drain_error, bool_decide (te.2 ≠ None)) <$> drained).
Definition runRetention (rounds batches : nat) : Eff loop_event ServiceWorld (option unit) :=
  runMaintenanceLoop rounds Hour "retention" (retention_cycle batches).

Fixpoint warn_all (ws : list warning) : Eff loop_event ServiceWorld unit :=
  match ws with
  | [] => mret tt
  | w :: ws => emit (EvAlert w) ≫= λ _, warn_all ws
  end.

Definition alerts_cycle : Eff loop_event ServiceWorld (option bool) :=
  quietly (on_db (λ m db, (OperationalMetrics (m_io m) (m_clock m) db, db))) ≫= λ read : result error OperationalSnapshot.t,
  match read with
  | Err _ => mret (Some true)
  | Ok snapshot => warn_all (alertOperationalState snapshot) ≫= λ _, mret (Some false)
  end.
Definition runOperationalAlerts (rounds : nat) : Eff loop_event ServiceWorld (option unit) :=
  runMaintenanceLoop rounds (30 * Second) "operational_alerts" alerts_cycle.
End service.

(** ** Keeping connected (publisher.go, worker.go) *)

(** [os.Hostname], which may fail. *)
Definition hostname (found : option string) : string :=
  match found with
  | None => "publisher"
  | Some value => if String.eqb value "" then "publisher" else value
  end.

(** [fmt.Sprintf] with the host, the process id and the start time. *)
Definition publisher_owner (found : option string) (pid nano : Z) : string :=
  hostname found +:+ "-" +:+ FormatInt pid +:+ "-" +:+ FormatInt nano.

(** The constructors and [Close] of a broker or a consumer, and
    [RabbitConsumer.Run], which answers whether it returned an error. *)
Class LinkEnv (W : Type) := {
  connect_ : W → bool * W;
  close_ : W → unit * W;
  run_consumer_ : W → bool * W
}.

Inductive link_event : Type :=
  | LkContext (cancelled : bool)
  | LkConnect (ok : bool)
  | LkClose
  | LkRound (published : Z) (err : option publisher_error)
  | LkConsumed (err : bool)
  | LkWait (fired : bool)
  | LkLog (category : string).

Section links.
Context {W : Type} `{Runtime W, LinkEnv W, PublisherEnv W}.

Definition waitFor (duration : Z) : Eff link_event W bool := perform LkWait (wait_ duration).
Definition context_done : Eff link_event W bool := perform LkContext cancelled_.
Definition log (category : string) : Eff link_event W unit := emit (LkLog category).
Definition close : Eff link_event W unit := perform (λ _, LkClose) close_.

Definition run_once (publisher : Publisher.t)
    : Eff link_event W (Z * option publisher_error) :=
  perform (λ r, LkRound r.1 r.2) (λ w, let '(r, _, w) := RunOnce publisher w in (r, w)).

(** The inner loop: [Some true] goes on to close the broker and wait,
    [Some false] closes it and returns. *)
Fixpoint publish_session (rounds : nat) (publisher : Publisher.t)
    : Eff link_event W (option bool) :=
  match rounds with
  | O => mret None
  | S rounds =>
      context_done ≫= λ cancelled : bool,
      if cancelled then mret (Some true)
      else
        run_once publisher ≫= λ r : Z * option publisher_error,
        match r.2 with
        | Some _ => log "publication_failed" ≫= λ _ : unit, mret (Some true)
        | None =>
            if r.1 =? 0 then
              waitFor (200 * Millisecond) ≫= λ fired : bool,
              if negb fired then mret (Some false) else publish_session rounds publisher
            else publish_session rounds publisher
        end
  end.

Fixpoint runPublisher (sessions rounds : nat) (owner : string) : Eff link_event W (option unit) :=
  match sessions with
  | O => mret None
  | S sessions =>
      context_done ≫= λ cancelled : bool,
      if cancelled then mret (Some tt)
      else
        perform LkConnect connect_ ≫= λ connected : bool,
        if negb connected then
          log "rabbitmq_unavailable" ≫= λ _ : unit,
          waitFor Second ≫= λ fired : bool,
          if negb fired then mret (Some tt) else runPublisher sessions rounds owner
        else match NewPublisher false false owner (30 * Second) 100 with
        | None =>
            close ≫= λ _ : unit, log "invalid_configuration" ≫= λ _ : unit, mret (Some tt)
        | Some publisher =>
            publish_session rounds publisher ≫= λ ended : option bool,
            match ended with
            | None => mret None
            | Some false => close ≫= λ _ : unit, mret (Some tt)
            | Some true =>
                close ≫= λ _ : unit,
                waitFor Second ≫= λ fired : bool,
                if negb fired then mret (Some tt) else runPublisher sessions rounds owner
            end
        end
  end.

Definition workerErrorCategory (err : bool) : string :=
  if negb err then "consumer_closed" else "delivery_or_broker_failure".

(** The loop of [runWorker]. *)
Fixpoint consume_sessions (sessions : nat) : Eff link_event W (option unit) :=
  match sessions with
  | O => mret None
  | S sessions =>
      context_done ≫= λ cancelled : bool,
      if cancelled then mret (Some tt)
      else
        perform LkConnect connect_ ≫= λ connected : bool,
        if negb connected then
          log "broker_unavailable" ≫= λ _ : unit,
          waitFor Second ≫= λ fired : bool,
          if negb fired then mret (Some tt) else consume_sessions sessions
        else
          perform LkConsumed run_consumer_ ≫= λ err : bool,
          close ≫= λ _ : unit,
          context_done ≫= λ cancelled : bool,
          if cancelled then mret (Some tt)
          else
            log (workerErrorCategory err) ≫= λ _ : unit,
            waitFor Second ≫= λ fired : bool,
            if negb fired then mret (Some tt) else consume_sessions sessions
  end.

(** [runWorker]: a configuration that is refused ends it at once. *)
Definition runWorker (build : bool) (getenv : environment) (readFile : string → option string)
    (parsesPEM : string → bool) (sessions : nat) : Eff link_event W (option unit) :=
  match worker_sender build getenv readFile parsesPEM with
  | Err _ => log "invalid_configuration" ≫= λ _ : unit, mret (Some tt)
  | Ok _ =>
      match New false false (envOr getenv "WORKER_ID" "worker-1") (90 * Second) with
      | None => log "invalid_configuration" ≫= λ _ : unit, mret (Some tt)
      | Some _ => consume_sessions sessions
      end
  end.
End links.
