(* ===== verification/Operation.v ===== *)
(** * What the process guarantees

    Loops survive failures and end only when they are cancelled, connections
    are closed before the next is opened, retention finishes, the test network
    policy stays out of production, and startup ends in a usable store or
    exits. *)

From S2P Require Import Prelude GoStrings Model Database Store Scheduling Lifecycle Refinement Scenario Recovery Dispatch Worker Hash Netip GoUrl Outbound Http Service.

Local Open Scope Z_scope.

(** ** Maintenance goes on *)

Section maintenance.
Context {W : Type} `{Runtime W}.

Definition is_tick (e : loop_event) : bool := match e with EvTick _ => true | _ => false end.
Definition is_cycle (e : loop_event) : bool := match e with EvCycle _ => true | _ => false end.
Definition count (p : loop_event → bool) (t : list loop_event) : nat :=
  length (filter (λ e, p e = true) t).

Lemma count_app p t t' : count p (t ++ t') = (count p t + count p t')%nat.
Proof. unfold count. by rewrite filter_app, length_app. Qed.

(** Maintenance survives its failures: over any number of rounds, with
    cycles that fail or not, the loop runs one cycle per tick and goes on as
    long as the timer fires; it returns only when the context is done. *)
Theorem maintenance_survives_failures rounds interval component run w res t w' :
  (∀ w r t w', run w = (r, t, w') → is_Some r ∧ count is_tick t = 0%nat ∧ count is_cycle t = 0%nat) →
  runMaintenanceLoop rounds interval component run w = (res, t, w') →
  count is_cycle t = count is_tick t ∧
  (res = None → count is_cycle t = rounds ∧ EvTick false ∉ t) ∧
  (res = Some tt → ∃ t', t = t' ++ [EvTick false] ∧ EvTick false ∉ t').
Proof.
  intros Hrun. revert w res t w'. induction rounds as [|rounds IH]; intros w res t w' Hl; simpl in Hl.
  { eff_inv. split_and!; [done|intros _; split; [done|set_solver]|done]. }
  apply eff_bind_inv in Hl as (o & t0 & w0 & t1 & Hr & Hl & ->).
  destruct (Hrun _ _ _ _ Hr) as ([failed ->] & Ht0 & Hc0).
  assert (Hno : EvTick false ∉ t0).
  { intros Hin. unfold count in Ht0. apply nil_length_inv in Ht0.
    assert (EvTick false ∈ filter (λ e, is_tick e = true) t0) as Hf by by apply list_elem_of_filter.
    rewrite Ht0 in Hf. by apply not_elem_of_nil in Hf. }
  apply eff_bind_inv in Hl as (u & t2 & w2 & t3 & He & Hl & ->).
  apply emit_inv in He as [-> ->].
  apply eff_bind_inv in Hl as (u' & t4 & w4 & t5 & He & Hl & ->).
  assert (count is_tick t4 = 0%nat ∧ count is_cycle t4 = 0%nat ∧ EvTick false ∉ t4) as (Ht4 & Hc4 & Hn4).
  { eff_inv; split_and!; try done; set_solver. }
  apply eff_bind_inv in Hl as (fired & t6 & w6 & t7 & Hp & Hl & ->).
  apply perform_inv in Hp as [-> _].
  assert (Hlast : t7 = [] ∧ fired = false ∧ res = Some tt ∨ fired = true ∧
    runMaintenanceLoop rounds interval component run w6 = (res, t7, w')).
  { destruct fired; [by right|]. apply eff_ret_inv in Hl as (-> & -> & _). by left. }
  rewrite !count_app, Ht0, Hc0, Ht4, Hc4.
  destruct Hlast as [(-> & -> & ->)|[-> Hl']].
  - split_and!; [done|done|]. intros _. exists (t0 ++ [EvCycle failed] ++ t4).
    split; [by rewrite <- !app_assoc|]. set_solver.
  - destruct (IH _ _ _ _ Hl') as (Hcc & Hnone & Hsome). split_and!.
    + simpl. change (count is_cycle [EvTick true]) with 0%nat. change (count is_tick [EvTick true]) with 1%nat.
      change (count is_cycle [EvCycle failed]) with 1%nat. change (count is_tick [EvCycle failed]) with 0%nat. lia.
    + intros ->. destruct (Hnone eq_refl) as [Hn Hin]. split; [|set_solver].
      change (count is_cycle [EvTick true]) with 0%nat. change (count is_cycle [EvCycle failed]) with 1%nat. lia.
    + intros ->. destruct (Hsome eq_refl) as (t' & -> & Hin).
      exists (t0 ++ [EvCycle failed] ++ t4 ++ [EvTick true] ++ t').
      split; [by rewrite <- !app_assoc|]. set_solver.
Qed.
End maintenance.

(** ** Connections *)

(** Follow the open connection through a run: [None] is a connection opened
    over another, or a close of none. *)
Fixpoint links (open : bool) (t : list link_event) : option bool :=
  match t with
  | [] => Some open
  | LkConnect true :: t => if open then None else links true t
  | LkClose :: t => if open then links false t else None
  | _ :: t => links open t
  end.

Lemma links_app b t t' : links b (t ++ t') = links b t ≫= λ b', links b' t'.
Proof.
  revert b. induction t as [|e t IH]; intros b; [done|].
  destruct e as [?|[]| |? ?|?|?|?]; simpl; destruct b; try done; apply IH.
Qed.

(** The context was seen to be done. *)
Definition saw_cancellation (t : list link_event) : Prop := LkContext true ∈ t ∨ LkWait false ∈ t.

(** How a supervised loop leaves its connection, whether it goes on or not. *)
Definition supervised (res : option unit) (t : list link_event) : Prop :=
  is_Some (links false t) ∧
  (res = Some tt → links false t = Some false ∧ saw_cancellation t).

Section supervision.
Context {W : Type} `{Runtime W, LinkEnv W, PublisherEnv W}.

(** A prefix that leaves nothing open and the rest of the loop. *)
Lemma supervised_app res t t' :
  links false t = Some false → supervised res t' → supervised res (t ++ t').
Proof.
  intros Ht [Hs Hr]. unfold supervised. rewrite links_app, Ht. simpl. split; [done|].
  intros Hres. destruct (Hr Hres) as [Hl Hc]. split; [done|].
  unfold saw_cancellation in *. set_solver.
Qed.

Lemma supervised_end t :
  links false t = Some false → saw_cancellation t → supervised (Some tt) t.
Proof. intros Hl Hc. split; [by rewrite Hl|done]. Qed.

Lemma supervised_running t : is_Some (links false t) → supervised None t.
Proof. by split. Qed.

Lemma publish_session_links rounds p w r t w' :
  publish_session rounds p w = (r, t, w') →
  links true t = Some true ∧ (r = Some false → LkWait false ∈ t).
Proof.
  revert w r t w'. induction rounds as [|rounds IH]; intros w r t w' Hs; simpl in Hs; [by eff_inv|].
  unfold context_done, run_once, waitFor, log in Hs.
  apply eff_bind_inv in Hs as (c & t1 & w1 & t2 & Hc & Hs & ->). apply perform_inv in Hc as [-> _].
  destruct c; [by eff_inv|].
  apply eff_bind_inv in Hs as ([n e] & t3 & w3 & t4 & Hr & Hs & ->).
  apply perform_inv in Hr as [-> _]. simpl in *.
  destruct e; [by eff_inv|].
  destruct (n =? 0).
  - apply eff_bind_inv in Hs as (f & t5 & w5 & t6 & Hf & Hs & ->). apply perform_inv in Hf as [-> _].
    destruct f; simpl in Hs.
    + destruct (IH _ _ _ _ Hs) as [Hl Hw]. split; [done|]. intros Hr. specialize (Hw Hr). set_solver.
    + eff_inv. split; [done|set_solver].
  - destruct (IH _ _ _ _ Hs) as [Hl Hw]. split; [done|]. intros Hr. specialize (Hw Hr). set_solver.
Qed.

(** Wait, then stop or go round again. *)
Lemma supervised_retry (next : Eff link_event W (option unit)) pre w res t w' :
  links false pre = Some false →
  (∀ w res t w', next w = (res, t, w') → supervised res t) →
  (waitFor Second ≫= λ fired : bool, if negb fired then mret (Some tt) else next) w = (res, t, w') →
  supervised res (pre ++ t).
Proof.
  intros Hpre Hnext Hw. apply eff_bind_inv in Hw as (f & t1 & w1 & t2 & Hf & Hw & ->).
  apply perform_inv in Hf as [-> _]. apply supervised_app; [done|]. destruct f; simpl in Hw.
  - apply (supervised_app res [LkWait true]); [done|]. by eapply Hnext.
  - eff_inv. apply supervised_end; [done|]. right. simpl. set_solver.
Qed.

Lemma NewPublisher_valid owner :
  owner ≠ "" → NewPublisher false false owner (30 * Second) 100 =
    Some (Publisher.mk owner (30 * Second) 100).
Proof. intros Hne. unfold NewPublisher. by rewrite (proj2 (String.eqb_neq _ _) Hne). Qed.

Lemma runPublisher_supervised sessions rounds owner w res t w' :
  owner ≠ "" → runPublisher sessions rounds owner w = (res, t, w') → supervised res t.
Proof.
  intros Hne. revert w res t w'. induction sessions as [|sessions IH]; intros w res t w' Hs; simpl in Hs.
  { eff_inv. by apply supervised_running. }
  apply eff_bind_inv in Hs as (c & t1 & w1 & t2 & Hc & Hs & ->). apply perform_inv in Hc as [-> _].
  destruct c; [eff_inv; apply supervised_end; [done|left; left]|].
  apply (supervised_app res [LkContext false]); [done|].
  apply eff_bind_inv in Hs as (k & t3 & w3 & t4 & Hk & Hs & ->). apply perform_inv in Hk as [-> _].
  destruct k; simpl in Hs.
  2: { apply eff_bind_inv in Hs as (u & t5 & w5 & t6 & Hu & Hs & ->). apply emit_inv in Hu as [-> ->].
       rewrite app_assoc. by eapply supervised_retry. }
  rewrite NewPublisher_valid in Hs by done.
  apply eff_bind_inv in Hs as (ended & t5 & w5 & t6 & He & Hs & ->).
  destruct (publish_session_links _ _ _ _ _ _ He) as [Hl Hstop].
  destruct ended as [[]|].
  - apply eff_bind_inv in Hs as (u & t7 & w7 & t8 & Hu & Hs & ->). apply perform_inv in Hu as [-> _].
    rewrite !app_assoc. eapply supervised_retry; [|done|done].
    simpl. by rewrite links_app, Hl.
  - apply eff_bind_inv in Hs as (u & t7 & w7 & t8 & Hu & Hs & ->). apply perform_inv in Hu as [-> _].
    eff_inv. apply supervised_end; [simpl; by rewrite links_app, Hl|].
    right. specialize (Hstop eq_refl). set_solver.
  - eff_inv. apply supervised_running. rewrite app_nil_r. simpl. by rewrite Hl.
Qed.

Lemma consume_sessions_supervised sessions w res t w' :
  consume_sessions sessions w = (res, t, w') → supervised res t.
Proof.
  revert w res t w'. induction sessions as [|sessions IH]; intros w res t w' Hs; simpl in Hs.
  { eff_inv. by apply supervised_running. }
  apply eff_bind_inv in Hs as (c & t1 & w1 & t2 & Hc & Hs & ->). apply perform_inv in Hc as [-> _].
  destruct c; [eff_inv; apply supervised_end; [done|left; left]|].
  apply (supervised_app res [LkContext false]); [done|].
  apply eff_bind_inv in Hs as (k & t3 & w3 & t4 & Hk & Hs & ->). apply perform_inv in Hk as [-> _].
  destruct k; simpl in Hs.
  2: { apply eff_bind_inv in Hs as (u & t5 & w5 & t6 & Hu & Hs & ->). apply emit_inv in Hu as [-> ->].
       rewrite app_assoc. by eapply supervised_retry. }
  apply eff_bind_inv in Hs as (err & t5 & w5 & t6 & He & Hs & ->). apply perform_inv in He as [-> _].
  apply eff_bind_inv in Hs as (u & t7 & w7 & t8 & Hu & Hs & ->). apply perform_inv in Hu as [-> _].
  apply eff_bind_inv in Hs as (c & t9 & w9 & t10 & Hc & Hs & ->). apply perform_inv in Hc as [-> _].
  rewrite !app_assoc. destruct c.
  - eff_inv. apply supervised_end; [done|]. left. set_solver.
  - apply eff_bind_inv in Hs as (u' & t11 & w11 & t12 & Hu & Hs & ->). apply emit_inv in Hu as [-> ->].
    rewrite app_assoc. by eapply supervised_retry.
Qed.

Lemma append_ne s t : t ≠ "" → s +:+ t ≠ "".
Proof. by destruct s. Qed.

(** The Publisher and the Worker stay connected and leak nothing: each
    runs on whatever fails - dialling, a round, a consumer -, opens a
    connection only after closing the one before, and returns only after the
    context was seen to be done, with its connection closed; only a refused
    configuration ends the Worker earlier. *)
Theorem loops_end_only_when_cancelled found pid nano build getenv readFile parsesPEM
    sessions rounds w res t w' :
  (runPublisher sessions rounds (publisher_owner found pid nano) w = (res, t, w') ∨
   (∃ sender, worker_sender build getenv readFile parsesPEM = Ok sender) ∧
   runWorker build getenv readFile parsesPEM sessions w = (res, t, w')) →
  supervised res t.
Proof.
  intros [Hp|[[sender Hok] Hw]].
  - eapply runPublisher_supervised; [|done]. unfold publisher_owner.
    by apply append_ne.
  - unfold runWorker in Hw. rewrite Hok in Hw. unfold New, envOr in Hw.
    destruct (String.eqb (getenv "WORKER_ID") "") eqn:E; simpl in Hw; rewrite ?E in Hw; simpl in Hw;
      by eapply consume_sessions_supervised.
Qed.
End supervision.

(** ** The test network policy *)

(** The four conditions of test mode. *)
Definition test_mode (build : bool) (getenv : environment) : Prop :=
  build = true ∧ getenv "APP_ENV" = "test" ∧ getenv "BOOTSTRAP_LOCAL_CONFIG" = "true" ∧
  getenv "ALLOW_TEST_NETWORK_POLICY" = "true".

Lemma envOr_eq getenv name fallback v :
  fallback ≠ v → v ≠ "" → envOr getenv name fallback = v ↔ getenv name = v.
Proof.
  intros Hf Hv. unfold envOr. destruct (String.eqb_spec (getenv name) "") as [->|]; simpl; [|done].
  split; congruence.
Qed.

Lemma allowTestNetworkPolicy_true build getenv :
  allowTestNetworkPolicy build (envOr getenv "APP_ENV" "production")
    (envOr getenv "BOOTSTRAP_LOCAL_CONFIG" "false")
    (envOr getenv "ALLOW_TEST_NETWORK_POLICY" "false") = true ↔ test_mode build getenv.
Proof.
  unfold allowTestNetworkPolicy, test_mode. rewrite !andb_true_iff, !String.eqb_eq.
  rewrite !envOr_eq by done. tauto.
Qed.

Section test_policy.
Context `{Unicode, IpLiteral} {W : Type} `{SenderEnv W}.

(** The test network policy stays in test builds: the Worker's sender
    honours it exactly when the binary was built for it and all three
    variables say so; any other configuration yields a sender, and that sender
    refuses a destination under the test policy for good, before it resolves,
    reads a secret or connects. *)
Theorem test_policy_needs_test_mode build getenv readFile parsesPEM :
  (∀ sender, worker_sender build getenv readFile parsesPEM = Ok sender →
     (testPolicy sender = true ↔ test_mode build getenv)) ∧
  (¬ test_mode build getenv → ∃ sender,
     worker_sender build getenv readFile parsesPEM = Ok sender ∧
     ∀ order task d w ans t w', DestinationVersion.NetworkPolicy d = testNetworkPolicy →
       Send sender order task d w = (ans, t, w') → ans = permanent ∧ t = []).
Proof.
  unfold worker_sender. pose proof (allowTestNetworkPolicy_true build getenv) as Hmode.
  destruct (allowTestNetworkPolicy _ _ _ _) eqn:Ha.
  - split.
    + intros sender. unfold NewSender. repeat case_match; try done. intros [= <-]. simpl. tauto.
    + intros Hno. tauto.
  - split; [intros sender [= <-]; simpl; rewrite <- Hmode; done|].
    intros _. eexists. split; [done|]. intros order task d w ans t w' Hp Hs%Send_sent.
    assert (Hno : ∀ u, ¬ cleared (mkSender false None "fake-supplier.test") order task d u).
    { intros u [_ _ _ _ _ Hpol]. unfold validatePolicy in Hpol. by rewrite Hp in Hpol. }
    inversion Hs; subst; try (exfalso; by eapply Hno). done.
Qed.
End test_policy.

(** ** Retention finishes *)

(** Old enough for retention at [t], by the durations of the loop. *)
Definition old_at (t : Z) (r : delivery_row) : bool :=
  match d_status r with
  | StatusSucceeded => d_updated_at r <=? t - Milliseconds successRetention * ms
  | StatusFailedPermanent => d_updated_at r <=? t - Milliseconds failureRetention * ms
  | _ => false
  end.
Definition old_count (t : Z) (db : DB) : Z := map_count (old_at t) (deliveries db).

Section counting.
Context {A : Type}.

Lemma map_count_size (P : A → bool) (m : gmap string A) :
  map_count P m = Z.of_nat (size (filter (λ kv, P kv.2 = true) m)).
Proof.
  unfold map_count. f_equal. rewrite map_filter_alt, <- length_map_to_list, map_to_list_to_map; [done|].
  apply NoDup_filter_fst, NoDup_fst_map_to_list.
Qed.

Lemma map_count_split (P : A → bool) (Q : string * A → Prop) `{!∀ x, Decision (Q x)}
    (m : gmap string A) :
  map_count P m = map_count P (filter Q m) + map_count P (filter (λ kv, ¬ Q kv) m).
Proof.
  rewrite !map_count_size. rewrite <- (map_filter_union_complement Q m) at 1.
  pose proof (map_disjoint_filter_complement Q m) as Hd.
  rewrite map_filter_union, map_size_disj_union by (done || by apply map_disjoint_filter). lia.
Qed.

Lemma map_count_all (P : A → bool) (m : gmap string A) :
  map_Forall (λ _ a, P a = true) m → map_count P m = Z.of_nat (size m).
Proof.
  intros Hall. rewrite map_count_size. do 2 f_equal. apply map_filter_id. intros i x Hx. by apply (Hall i).
Qed.

Lemma map_count_nonneg (P : A → bool) (m : gmap string A) : 0 ≤ map_count P m.
Proof. unfold map_count. lia. Qed.
End counting.

Lemma list_filter_all {A} (P : A → Prop) `{!∀ x, Decision (P x)} l : Forall P l → filter P l = l.
Proof. induction 1 as [|a l Ha _ IH]; [done|]. by rewrite filter_cons_True, IH. Qed.

(** A selection shorter than its limit is complete. *)
Lemma select_short {R} sc w ord limit (m : gmap string R) id r :
  id ∈ scan_order sc → (length (select_for_update sc w ord limit m) < Z.to_nat limit)%nat →
  m !! id = Some r → w id r = true → scan_locked sc id = false →
  (id, r) ∈ select_for_update sc w ord limit m.
Proof.
  intros Hc Hlen Hl Hw Hlk. unfold select_for_update in *. rewrite length_take in Hlen.
  rewrite take_ge by lia. apply list_elem_of_filter; split; [done|]. rewrite merge_sort_Permutation.
  apply list_elem_of_filter; split; [done|]. by apply scan_rows_elem.
Qed.

Lemma retention_expired_terminal clk s f id r :
  retention_expired clk s f id r = true → is_terminal r = true.
Proof.
  unfold retention_expired, is_terminal. intros Hr. apply bool_decide_eq_true.
  destruct (d_status r); auto; done.
Qed.

Lemma retention_expired_old clk t id r :
  (∀ id k, clock_timestamp clk id k ≤ t) →
  retention_expired clk (Milliseconds successRetention) (Milliseconds failureRetention) id r = true →
  old_at t r = true.
Proof.
  unfold retention_expired, old_at. intros Ht. pose proof (Ht id 0%nat). pose proof (Ht id 1%nat).
  case_match; try done; rewrite !Z.leb_le; lia.
Qed.

Section retention.
Context (clk : clock) (sc : scan) (limit : Z) (db : DB).

Let selected : list (string * delivery_row) :=
  select_for_update sc
    (retention_expired clk (Milliseconds successRetention) (Milliseconds failureRetention))
    (λ r, (d_updated_at r, d_created_at r)) limit (deliveries db).
Let ids : gset string := list_to_set selected.*1.

Lemma selected_terminal :
  filter (λ kr : string * delivery_row, is_terminal kr.2 = true) selected = selected.
Proof.
  apply list_filter_all. apply Forall_forall. intros [id r] (_ & Hr & _)%select_elem. simpl.
  by eapply retention_expired_terminal.
Qed.

Lemma selected_ids id :
  id ∈ ids ↔ ∃ r, (id, r) ∈ selected.
Proof.
  unfold ids. rewrite elem_of_list_to_set, list_elem_of_fmap. split.
  - intros ([i r] & -> & Hin). eauto.
  - intros [r Hin]. by exists (id, r).
Qed.

Lemma selected_count : size (filter (λ kr, kr.1 ∈ ids) (deliveries db)) = length selected.
Proof.
  rewrite <- size_dom.
  assert (dom (filter (λ kr, kr.1 ∈ ids) (deliveries db)) = ids) as ->.
  { apply set_eq. intros id. rewrite elem_of_dom. split.
    - intros [r [_ Hr]%map_lookup_filter_Some]. done.
    - intros Hin. pose proof Hin as Hin'. apply selected_ids in Hin' as [r Hr].
      apply select_elem in Hr as (Hr & _). exists r. by apply map_lookup_filter_Some. }
  unfold ids. rewrite size_list_to_set by apply select_NoDup. apply length_fmap.
Qed.

Lemma retention_deleted io n db' :
  DeleteExpiredTerminal io clk sc successRetention failureRetention limit db = (Ok n, db') →
  0 < limit ∧ n = Z.of_nat (length selected) ∧
  deliveries db' = filter (λ kr, kr.1 ∉ ids) (deliveries db).
Proof.
  unfold DeleteExpiredTerminal. change (successRetention <=? 0) with false.
  change (failureRetention <=? 0) with false. cbn [orb].
  destruct (Z.leb_spec limit 0); [done|]. unfold exec, retention_body, delete_deliveries.
  fold selected. rewrite selected_terminal. fold ids.
  destruct (io 0%nat); [|done]. intros [= <- <-]. split; [done|]. split; [|done].
  by rewrite selected_count.
Qed.

Lemma retention_count io n db' t :
  (∀ id k, clock_timestamp clk id k ≤ t) →
  DeleteExpiredTerminal io clk sc successRetention failureRetention limit db = (Ok n, db') →
  old_count t db' = old_count t db - n.
Proof.
  intros Ht (_ & -> & Hdb)%retention_deleted. unfold old_count. rewrite Hdb.
  rewrite (map_count_split (old_at t) (λ kr, kr.1 ∈ ids) (deliveries db)).
  rewrite (map_count_all (old_at t) (filter (λ kr, kr.1 ∈ ids) (deliveries db))).
  - rewrite selected_count. lia.
  - intros id r [Hr Hin]%map_lookup_filter_Some. simpl in Hin.
    apply selected_ids in Hin as [r' (Hr' & Hx & _)%select_elem]. simplify_eq.
    by eapply retention_expired_old.
Qed.

(** A batch that is not full leaves nothing its statement saw as expired. *)
Lemma retention_last io n db' :
  DeleteExpiredTerminal io clk sc successRetention failureRetention limit db = (Ok n, db') →
  n < limit → ∀ id r, deliveries db' !! id = Some r →
    id ∈ scan_order sc → scan_locked sc id = false →
    retention_expired clk (Milliseconds successRetention) (Milliseconds failureRetention) id r = false.
Proof.
  intros (Hlim & -> & Hdb)%retention_deleted Hn id r Hr Hcov Hlk.
  rewrite Hdb in Hr. apply map_lookup_filter_Some in Hr as [Hr Hout]. simpl in Hout.
  apply not_true_is_false. intros Hx. apply Hout, selected_ids. exists r.
  apply select_short; try done. fold selected. lia.
Qed.
End retention.

Section drain.
Context (env : nat → moment).

(** By [t] at the latest; the rest of the system makes nothing old. *)
Context (t : Z).
Context (Hclock : ∀ n id k, clock_timestamp (m_clock (env n)) id k ≤ t).
Context (Hothers : ∀ n db, old_count t (m_others (env n) db) ≤ old_count t db).

Lemma cancelled_old w b w' :
  cancelled_ (Runtime := service_runtime env) w = (b, w') → old_count t (sv_db w') ≤ old_count t (sv_db w).
Proof. intros [= _ <-]. apply Hothers. Qed.

Lemma drain_terminates batches batchSize total w :
  0 < batchSize → old_count t (sv_db w) < Z.of_nat batches * batchSize →
  is_Some (drainRetention env batches batchSize total w).1.
Proof.
  intros Hb. revert total w. induction batches as [|batches IH]; intros total w Hc.
  { pose proof (map_count_nonneg (old_at t) (deliveries (sv_db w))). unfold old_count in Hc. lia. }
  cbn [drainRetention]. unfold retention_batch, on_db at 1.
  destruct (DeleteExpiredTerminal _ _ _ _ _ _ _) as [[n|e] db'] eqn:Hd; [|eauto].
  destruct (Z.ltb_spec n batchSize); [eauto|].
  destruct (cancelled_ _) as [[] w2] eqn:Hcan; [eauto|]. apply IH.
  apply cancelled_old in Hcan. simpl in Hcan.
  apply (retention_count _ _ _ _ _ _ _ t (Hclock _)) in Hd.
  pose proof (Hothers (sv_tick w) (sv_db w)). lia.
Qed.

(** Without errors it ends on a batch that is not full. *)
Lemma drain_finished batches batchSize total w total' w' :
  drainRetention env batches batchSize total w = (Some (total', None), w') →
  ∃ n db deleted, sv_tick w' = S n ∧
    DeleteExpiredTerminal (m_io (env n)) (m_clock (env n)) (m_scan (env n))
      successRetention failureRetention batchSize db = (Ok deleted, sv_db w') ∧
    deleted < batchSize.
Proof.
  revert total w. induction batches as [|batches IH]; intros total w; cbn [drainRetention]; [done|].
  unfold retention_batch, on_db at 1.
  destruct (DeleteExpiredTerminal _ _ _ _ _ _ _) as [[n|e] db'] eqn:Hd; [|done].
  destruct (Z.ltb_spec n batchSize).
  - intros [= _ <-]. by eexists _, _, _.
  - destruct (cancelled_ _) as [[] w2]; [done|]. apply IH.
Qed.

(** A day in the database's microseconds. *)
Definition day : Z := 24 * 3600 * 1000000.

Lemma kept_young clk id r :
  retention_expired clk (Milliseconds successRetention) (Milliseconds failureRetention) id r = false →
  (d_status r = StatusSucceeded → clock_timestamp clk id 0 < d_updated_at r + 7 * day) ∧
  (d_status r = StatusFailedPermanent → clock_timestamp clk id 1 < d_updated_at r + 30 * day).
Proof.
  unfold retention_expired. change (Milliseconds successRetention * ms) with (7 * day).
  change (Milliseconds failureRetention * ms) with (30 * day).
  intros Hx. split; intros Hs; rewrite Hs in Hx; apply Z.leb_gt in Hx; lia.
Qed.

(** C35: draining retention ends and does the work: whatever the other parts
    of the service do meanwhile, short of producing deliveries that are
    already old, the loop returns within one batch more than the old
    deliveries fill; when it returns without an error, its last statement
    deleted less than a batch and left, of the deliveries it could see and
    lock, no success that is a week old and no permanent failure that is thirty
    days old by the clock of that statement. *)
Theorem retention_drains batches batchSize w :
  0 < batchSize → old_count t (sv_db w) < Z.of_nat batches * batchSize →
  is_Some (drainRetention env batches batchSize 0 w).1 ∧
  ∀ total w', drainRetention env batches batchSize 0 w = (Some (total, None), w') →
    ∃ n db deleted, sv_tick w' = S n ∧
      DeleteExpiredTerminal (m_io (env n)) (m_clock (env n)) (m_scan (env n))
        (7 * 24 * Hour) (30 * 24 * Hour) batchSize db = (Ok deleted, sv_db w') ∧
      deleted < batchSize ∧
      ∀ id r, deliveries (sv_db w') !! id = Some r →
        id ∈ scan_order (m_scan (env n)) → scan_locked (m_scan (env n)) id = false →
        (d_status r = StatusSucceeded →
           clock_timestamp (m_clock (env n)) id 0 < d_updated_at r + 7 * day) ∧
        (d_status r = StatusFailedPermanent →
           clock_timestamp (m_clock (env n)) id 1 < d_updated_at r + 30 * day).
Proof.
  intros Hb Hc. split; [by apply drain_terminates|]. intros total w' Hd.
  apply drain_finished in Hd as (n & db & deleted & Hn & Hd & Hlt). exists n, db, deleted.
  split_and!; [done|done|done|]. intros id r Hr Hin Hlk. apply kept_young. by eapply retention_last.
Qed.
End drain.

(** ** Startup *)

Lemma ParseInt_range s n : ParseInt s = Some n → is_int64 n.
Proof.
  unfold ParseInt, is_int64. intros Hp. case_match. case_match; [done|].
  apply bind_Some in Hp as (m & _ & Hp). case_match; [|done]. simplify_eq. to_prop. lia.
Qed.

Lemma startup_Ok getenv pool_ok ping_ok io db store db' :
  startup getenv pool_ok ping_ok io db = (Ok store, db') →
  ParseInt (envOr getenv "BACKLOG_LIMIT" "100000") = Some (backlogLimit store) ∧
  0 < backlogLimit store ∧
  (getenv "BOOTSTRAP_LOCAL_CONFIG" ≠ "true" ∧ db' = db ∨
   getenv "BOOTSTRAP_LOCAL_CONFIG" = "true" ∧
     Bootstrap io (localBootstrapConfig getenv) db = (Ok tt, db')).
Proof.
  unfold startup. case_match; [done|]. case_match; [done|].
  destruct (ParseInt _) as [limit|] eqn:Hp; [|done].
  destruct (Z.leb_spec limit 0) as [|Hpos]; [done|].
  unfold NewStore. rewrite (proj2 (Z.leb_gt _ _) Hpos).
  destruct (String.eqb_spec (envOr getenv "BOOTSTRAP_LOCAL_CONFIG" "false") "true") as [E|E];
    rewrite envOr_eq in E by done.
  - destruct (Bootstrap _ _ _) as [[[]|] db2] eqn:Hb; [|done]. intros [= <- <-]. auto.
  - intros [= <- <-]. auto.
Qed.

(** The process comes up with a usable store or exits: a store has a
    positive 64-bit backlog limit, the one configured; the database is touched
    only when the local configuration is asked for, and is then the
    bootstrapped one; no goroutine starts before that, and none in a process
    that exits. *)
Theorem startup_is_all_or_nothing getenv pool_ok ping_ok io last db started failed db' :
  main getenv pool_ok ping_ok io last db = (started, failed, db') →
  (started = [] ∧ is_Some failed ∧ ∀ store, startup getenv pool_ok ping_ok io db ≠ (Ok store, db')) ∨
  (∃ store, startup getenv pool_ok ping_ok io db = (Ok store, db') ∧
     started = routines getenv ∧
     ParseInt (envOr getenv "BACKLOG_LIMIT" "100000") = Some (backlogLimit store) ∧
     0 < backlogLimit store ≤ max_int64 ∧
     (getenv "BOOTSTRAP_LOCAL_CONFIG" ≠ "true" → db' = db) ∧
     (getenv "BOOTSTRAP_LOCAL_CONFIG" = "true" →
        Bootstrap io (localBootstrapConfig getenv) db = (Ok tt, db'))).
Proof.
  unfold main. destruct (startup getenv pool_ok ping_ok io db) as [[store|f] db1] eqn:Hs.
  2: { intros [= <- <- <-]. left. split_and!; eauto. }
  intros [= <- _ <-]. right. exists store.
  apply startup_Ok in Hs as Hok. destruct Hok as (Hp & Hpos & Hor).
  pose proof (ParseInt_range _ _ Hp) as [_ Hmax]. split_and!; try done; naive_solver.
Qed.

(** ** Concrete runs *)

(** Eight days after the delivery of the concrete run succeeded; the timer
    fires until the sixth interaction. *)
Definition later : Z := noon + 8 * 24 * hour.
Definition moment0 (n : nat) : moment :=
  Moment healthy (still later) (scan_all (deliveries db_succeeded)) fresh_gen (λ db, db) false
    (bool_decide (n < 6)%nat).
Definition service0 : ServiceWorld := mkServiceWorld db_succeeded 0.

Definition scheduled := runRetryScheduler moment0 10 service0.

Lemma maintenance_survives_failures_witness :
  scheduled.1.1 = Some tt ∧ count is_cycle scheduled.1.2 = 4%nat ∧
  count is_cycle scheduled.1.2 = count is_tick scheduled.1.2.
Proof.
  split; [vm_compute; reflexivity|]. split; [vm_compute; reflexivity|].
  apply (maintenance_survives_failures (H := service_runtime moment0) 10 (100 * Millisecond)
    "retry_scheduler" (retry_cycle moment0) service0 scheduled.1.1 scheduled.1.2 scheduled.2).
  - intros w r t w' Hr. unfold retry_cycle in Hr. eff_inv. split_and!; [by eexists|reflexivity..].
  - unfold scheduled, runRetryScheduler. by destruct (runMaintenanceLoop _ _ _ _ _) as [[? ?] ?].
Defined.

Definition drained0 := drainRetention moment0 2 1 0 service0.

Lemma retention_drains_witness :
  drained0.1 = Some (1, None) ∧
  ∃ n db deleted, DeleteExpiredTerminal (m_io (moment0 n)) (m_clock (moment0 n)) (m_scan (moment0 n))
    (7 * 24 * Hour) (30 * 24 * Hour) 1 db = (Ok deleted, sv_db drained0.2) ∧ deleted < 1.
Proof.
  assert (H1 : drained0.1 = Some (1, None)) by (vm_compute; reflexivity). split; [exact H1|].
  destruct (retention_drains moment0 later ltac:(intros; simpl; lia) ltac:(intros; simpl; lia)
    2 1 service0 ltac:(lia) ltac:(vm_compute; reflexivity)) as [_ Hdone].
  destruct (Hdone 1 drained0.2) as (n & db & deleted & _ & Hd & Hlt & _).
  - rewrite <- H1. apply surjective_pairing.
  - exists n, db, deleted. split; [exact Hd|exact Hlt].
Defined.

(** A broker that cannot be reached at first and is lost once; nothing to
    publish; the context is done after forty calls. *)
#[local] Instance ticks_runtime : Runtime nat := {|
  cancelled_ n := (bool_decide (40 < n)%nat, S n);
  wait_ _ n := (bool_decide (n < 40)%nat, S n)
|}.
#[local] Instance ticks_link : LinkEnv nat := {|
  connect_ n := (bool_decide (2 < n)%nat, S n);
  close_ n := (tt, S n);
  run_consumer_ n := (bool_decide (n < 20)%nat, S n)
|}.
#[local] Instance ticks_publisher : PublisherEnv nat := {|
  ClaimOutbox_ _ _ _ n := (if bool_decide (n = 9)%nat then Err ErrDatabase else Ok [], S n);
  MarkOutboxPublished_ _ n := (Ok tt, S n);
  ReleaseOutbox_ _ n := (Ok tt, S n);
  Publish_ _ n := (true, S n)
|}.

Definition getenv0 : environment := λ _, "".
Definition supervised0 := runPublisher 20 20 (publisher_owner None 7 9) 0%nat.
Definition consumed0 := runWorker false getenv0 (λ _, None) (λ _, false) 20 0%nat.

Lemma loops_end_only_when_cancelled_witness :
  (supervised0.1.1 = Some tt ∧ supervised (Some tt) supervised0.1.2) ∧
  (consumed0.1.1 = Some tt ∧ supervised (Some tt) consumed0.1.2).
Proof.
  split; (split; [vm_compute; reflexivity|]).
  - apply (loops_end_only_when_cancelled None 7 9 false getenv0 (λ _, None) (λ _, false) 20 20 0%nat
      (Some tt) supervised0.1.2 supervised0.2). left. vm_compute. reflexivity.
  - apply (loops_end_only_when_cancelled None 7 9 false getenv0 (λ _, None) (λ _, false) 20 20 0%nat
      (Some tt) consumed0.1.2 consumed0.2). right. split; [by eexists|]. vm_compute. reflexivity.
Defined.

(** A local start against an empty database. *)
Definition getenv_local : environment :=
  λ name, if String.eqb name "BOOTSTRAP_LOCAL_CONFIG" then "true" else "".
Definition started0 := main getenv_local true true healthy (Interrupted true) empty_db.

Lemma startup_is_all_or_nothing_witness :
  started0.1.2 = None ∧ ∃ store, startup getenv_local true true healthy empty_db = (Ok store, started0.2) ∧
    0 < backlogLimit store ≤ max_int64.
Proof.
  split; [vm_compute; reflexivity|].
  destruct (startup_is_all_or_nothing getenv_local true true healthy (Interrupted true) empty_db
    started0.1.1 started0.1.2 started0.2) as [(_ & [f Hf] & _)|(store & Hs & _ & _ & Hr & _)].
  - unfold started0. by destruct (main _ _ _ _ _ _) as [[? ?] ?].
  - exfalso. revert Hf. vm_compute. discriminate.
  - exists store. by split.
Defined.
