(* ===== verification/Process.v ===== *)
(** * The life of the process: main (cmd/notifier/main.go)

    The process from the start of [main] to its exit: the startup, which may
    fail, then the goroutines - the loops, the HTTP server and [main] itself,
    waiting in its [select] for the server's error or a signal and then
    shutting the server down.  The scheduler interleaves them freely, and a
    signal may arrive at any time.  The server of net/http is a parameter, the
    class [HttpServer], with what its documentation says of [ListenAndServe]
    and [Shutdown] as the laws [ServerLaws]; how the loops end is the subject
    of Operation, and here they may return at any time. *)

From S2P Require Import Prelude GoStrings Model Database Store Scenario Http Service Operation.

Local Open Scope Z_scope.

(** ** The server of net/http *)

(** What [ListenAndServe] returns. *)
Inductive serve_error : Type := ErrServerClosed | ListenError.

Class HttpServer := {
  server : Type;
  new_server : server;
  inShutdown : server → bool;               (* Shutdown has been called *)
  serves : server → server → Prop;          (* its own work and its clients' *)
  serve_returns : server → serve_error → server → Prop;
  begin_shutdown : server → server;
  shutdown_returns : server → bool → server → Prop    (* nil, or an error? *)
}.

(** [ListenAndServe] returns [ErrServerClosed] only after [Shutdown] has been
    called, and [Shutdown] returns, by the deadline of its context at the
    latest. *)
Class ServerLaws `{HttpServer} : Prop := {
  new_open : inShutdown new_server = false;
  serves_keeps s s' : serves s s' → inShutdown s' = inShutdown s;
  serve_returns_keeps s e s' : serve_returns s e s' → inShutdown s' = inShutdown s;
  closed_after_shutdown s s' : serve_returns s ErrServerClosed s' → inShutdown s = true;
  shutdown_begun s : inShutdown (begin_shutdown s) = true;
  shutdown_ends s : inShutdown s = true → ∃ ok s', shutdown_returns s ok s'
}.

Section process.
Context `{HttpServer}.

(** ** State *)

(** [main]: in its startup, in the [select], in [Shutdown], or over with an exit
    status - or killed by a signal that came before [NotifyContext]. *)
Inductive phase : Type :=
  | Booting | Selecting | ShuttingDown | Ended (outcome : option failure) | Killed.

Record process := Process {
  p_phase : phase;
  p_signalled : bool;                 (* ctx is done *)
  p_server : option server;           (* built and serving *)
  p_served : option serve_error;      (* what ListenAndServe has returned *)
  p_errs : option serve_error;        (* the channel, which holds one error *)
  p_shutdown : option bool;           (* what Shutdown has returned: nil? *)
  p_loops : list routine              (* the goroutines that have not returned *)
}.

(** The start of [main]. *)
Definition launched : process := Process Booting false None None None None [].

Definition over (ph : phase) : Prop := ph = Killed ∨ ∃ outcome, ph = Ended outcome.
Definition running (p : process) : Prop := ¬ over (p_phase p).

(** ** Steps *)

(** The environment of the process, the outcomes of the calls of its startup
    and the database it finds. *)
Context (getenv : environment) (pool_ok ping_ok : bool) (io : IO) (db : DB).

(** [main] itself: it starts up, or exits; it takes the server's error, or the
    signal, and then the result of [Shutdown]. *)
Inductive main_step : process → process → Prop :=
  | start_fails f db' sig errs :
      startup getenv pool_ok ping_ok io db = (Err f, db') →
      main_step (Process Booting sig None None errs None [])
        (Process (Ended (Some f)) sig None None errs None [])
  | starts store db' sig errs :
      startup getenv pool_ok ping_ok io db = (Ok store, db') →
      main_step (Process Booting sig None None errs None [])
        (Process Selecting sig (Some new_server) None errs None (routines getenv))
  | take_error sig srv served e shut loops :
      main_step (Process Selecting sig srv served (Some e) shut loops)
        (Process (Ended (match e with ErrServerClosed => None | ListenError => Some listen_failed end))
           sig srv served None shut loops)
  | take_signal srv served errs shut loops :
      main_step (Process Selecting true (Some srv) served errs shut loops)
        (Process ShuttingDown true (Some (begin_shutdown srv)) served errs shut loops)
  | shutdown_ended sig srv srv' served errs shut loops (ok : bool) :
      shutdown_returns srv ok srv' →
      main_step (Process ShuttingDown sig (Some srv) served errs shut loops)
        (Process (Ended (if ok then None else Some shutdown_failed)) sig (Some srv') served errs
           (Some ok) loops).

(** The rest: the server and its goroutine, the signal, and the loops. *)
Inductive other_step : process → process → Prop :=
  | server_works ph sig srv srv' served errs shut loops :
      ¬ over ph → serves srv srv' →
      other_step (Process ph sig (Some srv) served errs shut loops)
        (Process ph sig (Some srv') served errs shut loops)
  | server_returns ph sig srv srv' e shut loops :
      ¬ over ph → serve_returns srv e srv' →
      other_step (Process ph sig (Some srv) None None shut loops)
        (Process ph sig (Some srv') (Some e) (Some e) shut loops)
  | killed sig srv served errs shut loops :
      other_step (Process Booting sig srv served errs shut loops)
        (Process Killed sig srv served errs shut loops)
  | signal ph sig srv served errs shut loops :
      ¬ over ph → ph ≠ Booting →
      other_step (Process ph sig srv served errs shut loops)
        (Process ph true srv served errs shut loops)
  | returns ph sig srv served errs shut loops loops' r :
      ¬ over ph → loops ≡ₚ r :: loops' →
      other_step (Process ph sig srv served errs shut loops)
        (Process ph sig srv served errs shut loops').

Definition process_step (p p' : process) : Prop := main_step p p' ∨ other_step p p'.

Definition lives (p : process) : Prop := rtc process_step launched p.

(** ** What always holds *)

(** How each phase was reached. *)
Definition reached (p : process) : Prop :=
  match p_phase p with
  | Booting | Killed =>
      p_signalled p = false ∧ p_server p = None ∧ p_served p = None ∧ p_errs p = None ∧
      p_shutdown p = None ∧ p_loops p = []
  | Selecting =>
      (∃ store db', startup getenv pool_ok ping_ok io db = (Ok store, db')) ∧
      p_shutdown p = None ∧ (∃ s, p_server p = Some s ∧ inShutdown s = false) ∧
      p_served p ≠ Some ErrServerClosed ∧ p_errs p = p_served p
  | ShuttingDown =>
      (∃ store db', startup getenv pool_ok ping_ok io db = (Ok store, db')) ∧
      p_signalled p = true ∧ p_shutdown p = None ∧ (∃ s, p_server p = Some s ∧ inShutdown s = true)
  | Ended None =>
      (∃ store db', startup getenv pool_ok ping_ok io db = (Ok store, db')) ∧
      p_signalled p = true ∧ p_shutdown p = Some true
  | Ended (Some f) =>
      ((∃ db', startup getenv pool_ok ping_ok io db = (Err f, db')) ∧
       p_server p = None ∧ p_loops p = []) ∨
      ((∃ store db', startup getenv pool_ok ping_ok io db = (Ok store, db')) ∧
       (f = listen_failed ∧ p_served p = Some ListenError ∧ p_shutdown p = None ∨
        f = shutdown_failed ∧ p_signalled p = true ∧ p_shutdown p = Some false))
  end.

Context `{!ServerLaws}.

Lemma main_step_reached p p' : reached p → main_step p p' → reached p'.
Proof.
  intros Hr Hs. destruct Hs; unfold reached in *; cbn in *; destruct_and?.
  - left. eauto.
  - split_and!; [by eauto|done| |done|naive_solver]. exists new_server. split; [done|apply new_open].
  - destruct e; [naive_solver|]. right. split; [done|]. left. naive_solver.
  - split_and!; [done|done|done|]. eexists. split; [done|]. apply shutdown_begun.
  - destruct ok; [done|]. right. split; [done|]. by right.
Qed.

Lemma other_step_reached p p' : reached p → other_step p p' → reached p'.
Proof.
  intros Hr Hs. destruct Hs as [ph sig srv srv' served errs shut loops Ho Hw
    |ph sig srv srv' e shut loops Ho Hw| |ph sig srv served errs shut loops Ho Hb
    |ph sig srv served errs shut loops loops' r Ho Hp]; unfold reached in *; cbn in *.
  - apply serves_keeps in Hw. destruct ph; try (by destruct Ho; unfold over; eauto).
    + naive_solver.
    + destruct Hr as (? & ? & (s & [= <-] & Hi) & ? & ?). split_and!; try done. exists srv'.
      by rewrite Hw.
    + destruct Hr as (? & ? & ? & (s & [= <-] & Hi)). split_and!; try done. exists srv'. by rewrite Hw.
  - pose proof (serve_returns_keeps _ _ _ Hw) as Hk.
    destruct ph; try (by destruct Ho; unfold over; eauto).
    + naive_solver.
    + destruct Hr as (? & ? & (s & [= <-] & Hi) & ? & ?). split_and!; try done.
      * exists srv'. by rewrite Hk.
      * intros [= ->]. apply closed_after_shutdown in Hw. congruence.
    + destruct Hr as (? & ? & ? & (s & [= <-] & Hi)). split_and!; try done. exists srv'. by rewrite Hk.
  - done.
  - destruct ph; try done; try (by destruct Ho; unfold over; eauto). naive_solver.
  - destruct ph; try (by destruct Ho; unfold over; eauto); try done.
    destruct Hr as (? & ? & ? & ? & ? & ->). by apply Permutation_nil_cons in Hp.
Qed.

Lemma lives_reached p : lives p → reached p.
Proof.
  revert p. unfold lives. apply rtc_ind_r; [done|].
  intros p1 p2 _ [Hs|Hs]; eauto using main_step_reached, other_step_reached.
Qed.

(** ** Ending *)

(** The steps [main] still takes. *)
Definition main_left (p : process) : nat :=
  match p_phase p with Booting => 3 | Selecting => 2 | ShuttingDown => 1 | Ended _ | Killed => 0 end.

Lemma main_step_left p p' : main_step p p' → (main_left p' < main_left p)%nat.
Proof. destruct 1; cbn; lia. Qed.

Lemma main_steps_left n p p' : nsteps main_step n p p' → (n + main_left p' ≤ main_left p)%nat.
Proof. induction 1 as [|n p1 p2 p3 Hs _ IH]; [lia|]. apply main_step_left in Hs. lia. Qed.

(** [main] can move in its startup, and once there is a signal or an error. *)
Lemma main_moves p :
  reached p → running p → p_phase p = Booting ∨ p_signalled p = true ∨ p_errs p ≠ None →
  ∃ p', main_step p p'.
Proof.
  destruct p as [ph sig srv served errs shut loops]. unfold running, reached. cbn. intros Hr Ho Hor.
  destruct ph; try (by destruct Ho; unfold over; eauto).
  - destruct Hr as (-> & -> & -> & -> & -> & ->).
    destruct (startup getenv pool_ok ping_ok io db) as [[store|f] db'] eqn:E; eexists;
      [by eapply starts|by eapply start_fails].
  - destruct Hr as (_ & _ & (s & -> & _) & _). destruct errs as [e|]; [eexists; apply take_error|].
    destruct Hor as [|[->|]]; [done| |done]. eexists. apply take_signal.
  - destruct Hr as (_ & _ & _ & s & -> & (ok & s' & Hs)%shutdown_ends).
    eexists. by eapply shutdown_ended.
Qed.

Lemma over_stays p p' : process_step p p' → ¬ over (p_phase p).
Proof.
  intros [Hs|Hs]; destruct Hs; cbn; try done; intros [?|[? ?]]; done.
Qed.


(** The function [main] of this development says how each process ends. *)
Lemma process_refines_main p outcome :
  lives p → p_phase p = Ended outcome →
  ∃ last started db', last ≠ ServerStopped true ∧
    main getenv pool_ok ping_ok io last db = (started, outcome, db').
Proof.
  intros Hr%lives_reached He. unfold reached in Hr. rewrite He in Hr. unfold main.
  destruct outcome as [f|].
  - destruct Hr as [((db' & ->) & _)|((store & db' & ->) & [(-> & _)|(-> & _)])].
    + by exists (Interrupted true), [], db'.
    + by exists (ServerStopped false), (routines getenv), db'.
    + by exists (Interrupted false), (routines getenv), db'.
  - destruct Hr as ((store & db' & ->) & _). by exists (Interrupted true), (routines getenv), db'.
Qed.
End process.

(** ** Concrete runs *)

(** A server that counts the connections that are not idle: it can always fail
    before it is shut down, and [Shutdown] returns nil when every connection is
    idle and the context's error otherwise. *)
Record counting := Counting { closing : bool; busy : nat }.
#[local] Instance counting_server : HttpServer := {|
  server := counting;
  new_server := Counting false 0;
  inShutdown := closing;
  serves s s' := closing s' = closing s ∧
    (busy s = S (busy s') ∨ closing s = false ∧ busy s' = S (busy s));
  serve_returns s e s' := s' = s ∧ e = (if closing s then ErrServerClosed else ListenError);
  begin_shutdown s := Counting true (busy s);
  shutdown_returns s ok s' := s' = s ∧ ok = (busy s =? 0)%nat
|}.
#[local] Instance counting_laws : ServerLaws.
Proof.
  split; cbn; [done|by intros s s' [? _]|by intros s e s' [-> _]| |done|eauto].
  intros s s' [_ He]. by destruct (closing s).
Qed.

(** A process that gets SIGTERM while its Worker is busy exits with status 0
    without waiting for it: its lease runs out and is recovered.  One without
    its database exits with status 1, and so does one whose client hangs. *)
Notation lives0 ping_ok := (lives (λ _, "") true ping_ok healthy empty_db).
Definition only_loops : list routine := routines (λ _, "").
Definition exited : process :=
  Process (Ended None) true (Some (Counting true 0)) None None (Some true) only_loops.
Definition unable : process :=
  Process (Ended (Some database_unavailable)) false None None None None [].
Definition hung : process :=
  Process (Ended (Some shutdown_failed)) true (Some (Counting true 1)) (Some ErrServerClosed)
    (Some ErrServerClosed) (Some false) only_loops.

Lemma over_not ph : (∀ o, ph ≠ Ended o) → ph ≠ Killed → ¬ over ph.
Proof. intros Ho Hk [?|[o ?]]; [done|]. by eapply Ho. Qed.

Lemma startup0 : ∃ store db', startup (λ _, "") true true healthy empty_db = (Ok store, db').
Proof. vm_compute. eauto. Qed.

Lemma exits : lives0 true exited.
Proof.
  destruct startup0 as (store & db' & Hst). unfold lives, launched.
  eapply rtc_l; [left; by eapply starts|].
  eapply rtc_l; [right; apply signal; [by apply over_not|done]|].
  eapply rtc_l; [left; apply take_signal|].
  eapply rtc_l; [left; eapply shutdown_ended; by split|]. reflexivity.
Qed.

Lemma unables : lives0 false unable.
Proof.
  unfold lives, launched. eapply rtc_l; [left; by eapply start_fails|]. reflexivity.
Qed.

Lemma hangs : lives0 true hung.
Proof.
  destruct startup0 as (store & db' & Hst). unfold lives, launched.
  eapply rtc_l; [left; by eapply starts|].
  eapply rtc_l; [right; eapply (server_works (H := counting_server) _ _ _ (Counting false 1)); [by apply over_not|cbn; auto]|].
  eapply rtc_l; [right; apply signal; [by apply over_not|done]|].
  eapply rtc_l; [left; apply take_signal|].
  eapply rtc_l; [right; eapply server_returns; [by apply over_not|by split]|].
  eapply rtc_l; [left; eapply shutdown_ended; by split|]. reflexivity.
Qed.

