(* ===== verification/Routing.v ===== *)
(** * Routes: http.ServeMux, the API of the service and the fake supplier

    The part of [http.ServeMux] the program relies on: cleaning a path,
    matching it against patterns of a method and segments, 404 and 405.  Then
    the table [cmd/notifier/main.go] and [API.Register] build with the handler
    behind each route, and the one of cmd/fake-supplier. *)

From S2P Require Import Prelude GoStrings GoUrl Json Model Database Store Scheduling Worker Hash Netip Outbound Lifecycle Refinement Scenario Reliability Admission Dispatch Http Api Service IpText Amqp Probe.

Local Open Scope Z_scope.

(** ** Paths *)

Fixpoint split_on (c : Z) (l : list Z) : list (list Z) :=
  match l with
  | [] => [[]]
  | b :: l =>
      match split_on c l with
      | [] => [[]]
      | s :: ss => if b =? c then [] :: s :: ss else (b :: s) :: ss
      end
  end.

(** One element of a rooted path in [path.Clean]; the kept ones are reversed. *)
Definition clean_segment (kept : list (list Z)) (s : list Z) : list (list Z) :=
  if bool_decide (s = []) || bool_decide (s = [46]) then kept
  else if bool_decide (s = [46; 46]) then tail kept
  else s :: kept.

Definition join_path (segments : list (list Z)) : list Z := mjoin (cons 47 <$> segments).

(** [path.Clean] of a rooted path. *)
Definition Clean (p : list Z) : list Z :=
  match reverse (foldl clean_segment [] (split_on 47 p)) with
  | [] => [47]
  | segments => join_path segments
  end.

Definition cleanPath (p : list Z) : list Z :=
  if bool_decide (p = []) then [47]
  else
    let p := if starts [47] p then p else 47 :: p in
    let np := Clean p in
    if bool_decide (last p = Some 47) && negb (bool_decide (np = [47])) then np ++ [47] else np.

(** [pathUnescape]: the text itself when it is badly escaped. *)
Definition pathUnescape (s : list Z) : list Z := default s (unescape encodePath s).

Definition firstSegment (path : list Z) : list Z * list Z :=
  if bool_decide (path = [47]) then ([47], [])
  else
    let path := drop 1 path in
    match cut_at 47 path with
    | Some (s, rest) => (pathUnescape s, 47 :: rest)
    | None => (pathUnescape path, [])
    end.

(** ** Patterns *)

Inductive segment : Type := Lit (s : list Z) | Wild.

(** A single wildcard does not match a trailing slash. *)
Fixpoint matchPath (segments : list segment) (path : list Z) : option (list (list Z)) :=
  match segments, path with
  | [], [] => Some []
  | [], _ | _, [] => None
  | s :: segments, _ =>
      let '(seg, rest) := firstSegment path in
      match s with
      | Lit l => if bool_decide (seg = l) then matchPath segments rest else None
      | Wild => if bool_decide (seg = [47]) then None else cons seg <$> matchPath segments rest
      end
  end.

Record pattern (H : Type) := mkPattern {
  p_method : string;
  p_segments : list segment;
  p_handler : H
}.
Arguments mkPattern {H}.
Arguments p_method {H}.
Arguments p_segments {H}.
Arguments p_handler {H}.

(** A pattern for GET is also one for HEAD. *)
Definition method_matches (pattern_method method : string) : bool :=
  String.eqb pattern_method method || (String.eqb pattern_method "GET" && String.eqb method "HEAD").

Section mux.
Context {H : Type}.
Implicit Types (mux : list (pattern H)).

Definition match_pattern (method : string) (path : list Z) (p : pattern H)
    : option (H * list (list Z)) :=
  if method_matches (p_method p) method
  then pair (p_handler p) <$> matchPath (p_segments p) path else None.

(** [matchingMethods], sorted as for the Allow header; a path without a
    trailing slash is also tried with one. *)
Definition matchingMethods mux (path : list Z) : list string :=
  let methods := p_method <$> filter (λ p, is_Some (matchPath (p_segments p) path) ∨
    last path ≠ Some 47 ∧ is_Some (matchPath (p_segments p) (path ++ [47]))) mux in
  merge_sort String.le (remove_dups
    (methods ++ (if bool_decide ("GET" ∈ methods) then ["HEAD"] else []))).

Inductive routed : Type :=
  | BadRequest                                     (* a request for * *)
  | Redirect (path : list Z)                       (* to the cleaned path *)
  | Handle (h : H) (wildcards : list (list Z))
  | MethodNotAllowed (allow : list string)
  | NotFound.

(** [ServeMux.ServeHTTP] up to the call of the handler; [path] is
    [r.URL.EscapedPath()] and [star] whether the request URI is "*".  No
    pattern here ends in a slash, so none redirects to one. *)
Definition route mux (star : bool) (method : string) (path : list Z) : routed :=
  if star then BadRequest
  else
    let cleaned := if String.eqb method "CONNECT" then path else cleanPath path in
    if negb (bool_decide (cleaned = path)) then Redirect cleaned
    else match omap (match_pattern method path) mux with
    | (h, wildcards) :: _ => Handle h wildcards
    | [] =>
        match matchingMethods mux path with
        | [] => NotFound
        | allow => MethodNotAllowed allow
        end
    end.

(** Patterns that no request matches twice, so that their order is no matter. *)
Definition exclusive mux : Prop :=
  ∀ method path, (length (omap (match_pattern method path) mux) ≤ 1)%nat.
End mux.
Arguments routed : clear implicits.

(** ** The routes of the service *)

Inductive service_route : Type := RHealthz | RReadyz | RSubmit | RGet | RReplay | RMetrics.

Definition lit (s : string) : segment := Lit (bytes_of s).

(** [registerHealthRoutes], [API.Register] and the metrics handler. *)
Definition health_patterns : list (pattern service_route) :=
  [mkPattern "GET" [lit "healthz"] RHealthz;
   mkPattern "GET" [lit "readyz"] RReadyz].
Definition Register : list (pattern service_route) :=
  [mkPattern "POST" [lit "deliveries"] RSubmit;
   mkPattern "GET" [lit "deliveries"; Wild] RGet;
   mkPattern "POST" [lit "deliveries"; Wild; lit "replay"] RReplay].
Definition service_mux : list (pattern service_route) :=
  health_patterns ++ Register ++ [mkPattern "GET" [lit "metrics"] RMetrics].

(** ** The fake supplier *)

Inductive supplier_route : Type := SHealthz | SNotify.

Definition newMux : list (pattern supplier_route) :=
  [mkPattern "GET" [lit "healthz"] SHealthz;
   mkPattern "POST" [lit "notify"] SNotify].

(** Both handlers answer 204; the mux itself 301 or 307, 404 and 405. *)
Definition supplier_status (r : routed supplier_route) : option Z :=
  match r with
  | Handle SHealthz _ | Handle SNotify _ => Some 204
  | BadRequest => Some 400
  | Redirect _ => None
  | MethodNotAllowed _ => Some 405
  | NotFound => Some 404
  end.

(** [main]: [listen] is [ListenAndServeTLS] of the server with the files of the
    certificate and the key, and whether its error is [ErrServerClosed]; the
    result is the exit status of the process. *)
Record supplier_server := mkSupplierServer {
  sv_addr : string;
  sv_handler : list (pattern supplier_route);
  sv_read_header_timeout : Z
}.

Definition supplier_main (getenv : environment) (listen : supplier_server → string → string → bool) : Z :=
  let addr := envOr getenv "HTTPS_ADDR" ":8443" in
  let certFile := envOr getenv "TLS_CERT_FILE" "/certs/fake-supplier.crt" in
  let keyFile := envOr getenv "TLS_KEY_FILE" "/certs/fake-supplier.key" in
  let server := mkSupplierServer addr newMux (5 * Second) in
  if negb (listen server certFile keyFile) then 1 else 0.

(** ** A request to the service *)

(** What comes back: a bare status, an answer of the API, or the samples of
    the metrics, [None] when they are unavailable. *)
Inductive answer : Type :=
  | Bare (status : Z)
  | Moved (path : list Z)
  | Api (response : Response.t)
  | Metrics (samples : option (list sample)).

(** [request.PathValue("id")] *)
Definition with_id (request : HttpRequest.t) (wildcards : list (list Z)) : HttpRequest.t :=
  HttpRequest.mk (HttpRequest.Authorization request) (HttpRequest.IdempotencyKey request)
    (HttpRequest.Body request) (string_of (default [] (head wildcards))).

Record service_state := mkServiceState { ss_metrics : submissionMetrics.t; ss_db : DB }.

Definition SubmissionCounts (s : service_state) : gmap string Z := snapshot (ss_metrics s).

Section serve.
Context `{Unicode, Postgres}.

(** [ready] is the outcome of the ping, [depth] that of the queue probe. *)
Definition serve (store : Store) (env : api_env) (ready : bool) (depth : option Z) (star : bool)
    (method : string) (path : list Z) (request : HttpRequest.t) (s : service_state)
    : answer * service_state :=
  match route service_mux star method path with
  | BadRequest => (Bare 400, s)
  | Redirect p => (Moved p, s)
  | NotFound => (Bare 404, s)
  | MethodNotAllowed _ => (Bare 405, s)
  | Handle RHealthz _ => (Bare (registerHealthRoutes ready Healthz), s)
  | Handle RReadyz _ => (Bare (registerHealthRoutes ready Readyz), s)
  | Handle RSubmit _ =>
      let '(response, m, db) := post_deliveries store env request (ss_metrics s) (ss_db s) in
      (Api response, mkServiceState m db)
  | Handle RGet wildcards =>
      let '(response, db) := get env (with_id request wildcards) (ss_db s) in
      (Api response, mkServiceState (ss_metrics s) db)
  | Handle RReplay wildcards =>
      let '(response, db) := replay env (with_id request wildcards) (ss_db s) in
      (Api response, mkServiceState (ss_metrics s) db)
  | Handle RMetrics _ =>
      let db := e_others env 0 (ss_db s) in
      (Metrics (newMetricsHandler (OperationalMetrics (e_io env 0) (e_clock env 0%nat) db) depth
                  (SubmissionCounts s)),
       mkServiceState (ss_metrics s) db)
  end.
End serve.

(** ** Patterns that exclude each other *)

(** Could one path match both lists of segments? *)
Fixpoint segments_overlap (a b : list segment) : bool :=
  match a, b with
  | [], [] => true
  | s :: a, t :: b =>
      match s, t with Lit x, Lit y => bool_decide (x = y) | _, _ => true end && segments_overlap a b
  | _, _ => false
  end.

Definition methods_overlap (m n : string) : bool :=
  String.eqb m n || (String.eqb m "GET" && String.eqb n "HEAD") ||
  (String.eqb m "HEAD" && String.eqb n "GET").

Definition overlaps {H} (p q : pattern H) : bool :=
  methods_overlap (p_method p) (p_method q) && segments_overlap (p_segments p) (p_segments q).

Fixpoint pairwise_disjoint {H} (mux : list (pattern H)) : bool :=
  match mux with
  | [] => true
  | p :: mux => forallb (λ q, negb (overlaps p q)) mux && pairwise_disjoint mux
  end.

Lemma matchPath_overlap a b path x y :
  matchPath a path = Some x → matchPath b path = Some y → segments_overlap a b = true.
Proof.
  revert b path x y. induction a as [|s a IH]; intros [|t b] [|c path] x y Ha Hb; try done.
  cbn [matchPath] in Ha, Hb. destruct (firstSegment _) as [seg rest].
  assert (∃ x', matchPath a rest = Some x') as [x' Ha'].
  { clear Hb. destruct s; case_bool_decide; try done; [by eauto|apply fmap_Some in Ha as (? & ? & _); by eauto]. }
  assert (∃ y', matchPath b rest = Some y') as [y' Hb'].
  { clear Ha. destruct t; case_bool_decide; try done; [by eauto|apply fmap_Some in Hb as (? & ? & _); by eauto]. }
  cbn [segments_overlap]. rewrite (IH _ _ _ _ Ha' Hb'), andb_true_r.
  destruct s, t; try done. repeat case_bool_decide; congruence.
Qed.

Lemma method_matches_overlap m n method :
  method_matches m method = true → method_matches n method = true → methods_overlap m n = true.
Proof.
  unfold method_matches, methods_overlap. rewrite !orb_true_iff, !andb_true_iff, !String.eqb_eq.
  naive_solver congruence.
Qed.

Lemma match_overlaps {H} (p q : pattern H) method path x y :
  match_pattern method path p = Some x → match_pattern method path q = Some y → overlaps p q = true.
Proof.
  unfold match_pattern, overlaps. intros Hp Hq. repeat case_match; try done.
  apply fmap_Some in Hp as (? & Hp & _), Hq as (? & Hq & _).
  rewrite (method_matches_overlap _ _ method) by done. by eapply matchPath_overlap.
Qed.

Lemma pairwise_exclusive {H} (mux : list (pattern H)) : pairwise_disjoint mux = true → exclusive mux.
Proof.
  intros Hd method path. induction mux as [|p mux IH]; [simpl; lia|].
  cbn [pairwise_disjoint] in Hd. apply andb_true_iff in Hd as [Hp Hd]. specialize (IH Hd).
  cbn [omap list_omap]. destruct (match_pattern method path p) as [x|] eqn:Ep; [|exact IH].
  assert (omap (match_pattern method path) mux = []) as ->; [|simpl; lia].
  destruct (omap _ _) as [|y l] eqn:E; [done|].
  assert (Hy : y ∈ omap (match_pattern method path) mux) by (rewrite E; left).
  apply list_elem_of_omap in Hy as (q & Hq & Hm). rewrite forallb_forall in Hp.
  apply list_elem_of_In in Hq. specialize (Hp q Hq). by rewrite (match_overlaps _ _ _ _ _ _ Ep Hm) in Hp.
Qed.

(** The handler of a request is that of any pattern it matches. *)
Lemma route_handle {H} (mux : list (pattern H)) method path p ws :
  exclusive mux → p ∈ mux → cleanPath path = path → method ≠ "CONNECT" →
  method_matches (p_method p) method = true → matchPath (p_segments p) path = Some ws →
  route mux false method path = Handle (p_handler p) ws.
Proof.
  intros Hex Hp Hc Hn Hm Hw. unfold route.
  rewrite (proj2 (String.eqb_neq _ _) Hn), Hc, bool_decide_true by done. cbn [negb].
  assert (Hin : (p_handler p, ws) ∈ omap (match_pattern method path) mux).
  { apply list_elem_of_omap. exists p. split; [done|]. unfold match_pattern. by rewrite Hm, Hw. }
  specialize (Hex method path). destruct (omap _ _) as [|[h ws'] [|? ?]]; simpl in *; [|set_solver|lia].
  by apply not_elem_of_nil in Hin.
Qed.

Lemma route_Handle_inv {H} (mux : list (pattern H)) star method path h ws :
  route mux star method path = Handle h ws →
  ∃ p, p ∈ mux ∧ h = p_handler p ∧ method_matches (p_method p) method = true ∧
    matchPath (p_segments p) path = Some ws.
Proof.
  unfold route. destruct star; [done|]. case_match; [done|].
  destruct (omap _ _) as [|[h' ws'] l] eqn:E; [by destruct (matchingMethods mux path)|]. intros [= <- <-].
  assert (Hin : (h', ws') ∈ omap (match_pattern method path) mux) by (rewrite E; left).
  apply list_elem_of_omap in Hin as (p & Hp & Hm). unfold match_pattern in Hm. case_match; [|done].
  apply fmap_Some in Hm as (? & ? & ?). simplify_eq. eauto.
Qed.

Lemma service_exclusive : exclusive service_mux.
Proof. apply pairwise_exclusive. vm_compute. reflexivity. Qed.
Lemma supplier_exclusive : exclusive newMux.
Proof. apply pairwise_exclusive. vm_compute. reflexivity. Qed.

(** ** Paths made of plain segments *)

(** A segment that cleaning keeps and that stands for itself. *)
Definition plain_segment (s : list Z) : Prop :=
  s ≠ [] ∧ s ≠ [46] ∧ s ≠ [46; 46] ∧ 47 ∉ s ∧ 37 ∉ s.

Lemma split_on_cons c l : ∃ s ss, split_on c l = s :: ss.
Proof. induction l as [|b l (s & ss & IH)]; simpl; [eauto|]. rewrite IH. case_match; eauto. Qed.

Lemma split_on_app c s l : c ∉ s → split_on c (s ++ c :: l) = s :: split_on c l.
Proof.
  induction s as [|b s IH]; intros Hs; simpl.
  - destruct (split_on_cons c l) as (s & ss & ->). by rewrite Z.eqb_refl.
  - apply not_elem_of_cons in Hs as [Hb Hs]. rewrite IH by done.
    by rewrite (proj2 (Z.eqb_neq b c)) by congruence.
Qed.

Lemma split_on_none c s : c ∉ s → split_on c s = [s].
Proof.
  induction s as [|b s IH]; intros Hs; simpl; [done|]. apply not_elem_of_cons in Hs as [Hb Hs].
  rewrite IH by done. by rewrite (proj2 (Z.eqb_neq b c)) by congruence.
Qed.

Lemma join_path_cons s l : join_path (s :: l) = 47 :: s ++ join_path l.
Proof. done. Qed.

Lemma split_on_tail s l :
  47 ∉ s → Forall (λ s, 47 ∉ s) l → split_on 47 (s ++ join_path l) = s :: l.
Proof.
  intros Hs Hl. revert s Hs. induction Hl as [|t l Ht Hl IH]; intros s Hs.
  - unfold join_path. cbn. rewrite app_nil_r. by apply split_on_none.
  - rewrite join_path_cons, split_on_app by done. by rewrite IH.
Qed.

Lemma clean_plain kept l : Forall plain_segment l → foldl clean_segment kept l = reverse l ++ kept.
Proof.
  intros Hl. revert kept. induction Hl as [|s l (H0 & H1 & H2 & _) _ IH]; intros kept; [done|].
  cbn [foldl]. unfold clean_segment at 2. rewrite !bool_decide_false by done. cbn [orb].
  by rewrite IH, reverse_cons, <- app_assoc.
Qed.

Lemma join_path_last l : Forall plain_segment l → last (join_path l) ≠ Some 47.
Proof.
  induction 1 as [|s l Hs _ IH]; [done|]. rewrite join_path_cons.
  change (47 :: s ++ join_path l) with ([47] ++ s ++ join_path l). rewrite !last_app.
  destruct (last (join_path l)) as [b|] eqn:E; [congruence|]. destruct Hs as (H0 & _ & _ & H47 & _).
  destruct (last s) as [b|] eqn:Es; [|by apply last_None in Es]. intros [= ->].
  apply last_Some in Es as [s' ->]. apply H47. set_solver.
Qed.

Lemma cleanPath_join l : Forall plain_segment l → l ≠ [] → cleanPath (join_path l) = join_path l.
Proof.
  intros Hl Hne. destruct l as [|s l]; [done|]. unfold cleanPath.
  rewrite bool_decide_false by (by rewrite join_path_cons).
  assert (starts [47] (join_path (s :: l)) = true) as -> by (rewrite join_path_cons; by apply bool_decide_true).
  rewrite (bool_decide_false (last _ = _)) by (by apply join_path_last). cbn [andb]. unfold Clean.
  change (join_path (s :: l)) with ([] ++ join_path (s :: l)). rewrite split_on_tail.
  - change (foldl clean_segment [] ([] :: s :: l)) with (foldl clean_segment [] (s :: l)).
    rewrite clean_plain, app_nil_r, reverse_involutive by done. done.
  - apply not_elem_of_nil.
  - eapply Forall_impl; [exact Hl|]. intros ? Hp. apply Hp.
Qed.

Lemma unescape_plain s : 37 ∉ s → unescape encodePath s = Some s.
Proof.
  induction s as [|b s IH]; intros Hs; [done|]. apply not_elem_of_cons in Hs as [Hb Hs].
  cbn [unescape]. rewrite (proj2 (Z.eqb_neq b 37)) by congruence. cbn [andb]. by rewrite IH.
Qed.

Lemma cut_at_app c s l : c ∉ s → cut_at c (s ++ c :: l) = Some (s, l).
Proof.
  induction s as [|b s IH]; intros Hs; simpl; [by rewrite Z.eqb_refl|].
  apply not_elem_of_cons in Hs as [Hb Hs]. rewrite (proj2 (Z.eqb_neq b c)) by congruence. by rewrite IH.
Qed.

Lemma cut_at_none c s : c ∉ s → cut_at c s = None.
Proof.
  induction s as [|b s IH]; intros Hs; simpl; [done|].
  apply not_elem_of_cons in Hs as [Hb Hs]. rewrite (proj2 (Z.eqb_neq b c)) by congruence. by rewrite IH.
Qed.

Lemma firstSegment_join s l : plain_segment s → firstSegment (join_path (s :: l)) = (s, join_path l).
Proof.
  intros (H0 & _ & _ & H47 & H37). unfold firstSegment. rewrite join_path_cons.
  rewrite bool_decide_false by (destruct s; [done|]; by intros [=]). cbn [drop]. rewrite drop_0.
  destruct l as [|t l].
  - unfold join_path at 1. cbn. rewrite app_nil_r, cut_at_none by done.
    unfold pathUnescape. by rewrite unescape_plain.
  - rewrite join_path_cons, cut_at_app by done. unfold pathUnescape. by rewrite unescape_plain.
Qed.

(** Matching segment by segment. *)
Fixpoint match_segments (pattern : list segment) (l : list (list Z)) : option (list (list Z)) :=
  match pattern, l with
  | [], [] => Some []
  | Lit x :: pattern, s :: l => if bool_decide (s = x) then match_segments pattern l else None
  | Wild :: pattern, s :: l => cons s <$> match_segments pattern l
  | _, _ => None
  end.

Lemma matchPath_join pattern l :
  Forall plain_segment l → matchPath pattern (join_path l) = match_segments pattern l.
Proof.
  intros Hl. revert pattern. induction Hl as [|s l Hs Hl IH]; intros [|p pattern]; try done.
  - by destruct p.
  - cbn [matchPath match_segments]. rewrite firstSegment_join by done. rewrite join_path_cons.
    destruct p; [by rewrite IH|]. rewrite bool_decide_false, IH; [done|].
    intros ->. destruct Hs as (_ & _ & _ & H47 & _). set_solver.
Qed.

(** ** Ids of the API in its paths *)

Definition delivery_path (id : string) (rest : list (list Z)) : list Z :=
  join_path (bytes_of "deliveries" :: bytes_of id :: rest).
Definition submit_path : list Z := join_path [bytes_of "deliveries"].

(** [plain_segment] of a text given in full. *)
Ltac plain_literal := split_and!; (discriminate || (apply (bool_decide_unpack _); vm_compute; exact I)).

Lemma uuid_segment id : validUUID id = true → plain_segment (bytes_of id).
Proof.
  intros [Hl Hb]%validUUID_bytes. destruct (bytes_of id) as [|a [|b [|c l]]] eqn:E; [done..|].
  assert (Hno : ∀ x, x ∈ a :: b :: c :: l → x ≠ 47 ∧ x ≠ 37).
  { intros x Hx. rewrite Forall_forall in Hb. apply Hb in Hx as [->|Hx]; [lia|].
    unfold hex_digit in Hx. rewrite !orb_true_iff, !andb_true_iff, !Z.leb_le in Hx. lia. }
  split_and!; [done..| |]; intros Hx; apply Hno in Hx; lia.
Qed.

(** The routes the service offers under such an id. *)
Lemma delivery_routes id : validUUID id = true →
  route service_mux false "GET" (delivery_path id []) = Handle RGet [bytes_of id] ∧
  route service_mux false "POST" (delivery_path id [bytes_of "replay"]) = Handle RReplay [bytes_of id].
Proof.
  intros Hu%uuid_segment.
  assert (Hd : plain_segment (bytes_of "deliveries")) by plain_literal.
  assert (Hr : plain_segment (bytes_of "replay")) by plain_literal.
  assert (H1 : Forall plain_segment [bytes_of "deliveries"; bytes_of id]) by auto.
  assert (H2 : Forall plain_segment [bytes_of "deliveries"; bytes_of id; bytes_of "replay"]) by auto.
  unfold delivery_path. split.
  - apply (route_handle service_mux "GET" _ (mkPattern "GET" [lit "deliveries"; Wild] RGet));
      [apply service_exclusive|set_solver|by apply cleanPath_join|done|done|].
    cbn [p_segments]. rewrite matchPath_join by done. cbn [match_segments lit]. by rewrite bool_decide_true.
  - apply (route_handle service_mux "POST" _ (mkPattern "POST" [lit "deliveries"; Wild; lit "replay"] RReplay));
      [apply service_exclusive|set_solver|by apply cleanPath_join|done|done|].
    cbn [p_segments]. rewrite matchPath_join by done. cbn [match_segments lit].
    by rewrite !bool_decide_true.
Qed.

(** ** The service behind its routes *)

Section service.
Context `{Unicode, Postgres}.

Lemma serve_submit store env ready depth request s :
  serve store env ready depth false "POST" submit_path request s =
    let '(response, m, db) := post_deliveries store env request (ss_metrics s) (ss_db s) in
    (Api response, mkServiceState m db).
Proof.
  unfold serve.
  assert (route service_mux false "POST" submit_path = Handle RSubmit []) as -> by (vm_compute; reflexivity).
  done.
Qed.

Lemma with_id_PathID request id : HttpRequest.PathID (with_id request [bytes_of id]) = id.
Proof. apply string_of_bytes_of. Qed.

(** Every call to the database is answered. *)
Definition answered (env : api_env) : Prop := ∀ n k, e_io env n k = IoOk.

Lemma authenticate_again env env' request request' db db' principal :
  authenticatePrincipal env request db = Ok principal → answered env' →
  HttpRequest.Authorization request' = HttpRequest.Authorization request → callers db' = callers db →
  authenticatePrincipal env' request' db' = Ok principal.
Proof.
  unfold authenticatePrincipal, AuthenticatePrincipal, query_row. intros Ha Hio -> ->.
  case_match; [done|]. rewrite Hio. destruct (e_io env 0 0%nat); [|done].
  by destruct (map_find _ _) as [[? ?]|].
Qed.

(** An accepted submission and the row it stands for. *)
Lemma submit_accepted store env request db response db' :
  submit store env request db = (response, db') → Response.Status response = 202 → alone env →
  ∃ principal p r, authenticatePrincipal env request db = Ok principal ∧ callers db' = callers db ∧
    Response.Content response = Payload p ∧ deliveries db' !! deliveryResponse.ID p = Some r ∧
    d_caller_id r = Principal.CallerID principal ∧
    d_status r = deliveryResponse.Status p ∧ d_generation r = deliveryResponse.Generation p ∧
    d_destination_id r = deliveryResponse.DestinationID p ∧
    d_destination_version r = deliveryResponse.DestinationVersion p.
Proof.
  intros [[? _]|Hs]%submit_cases Hst Halone; [done|].
  destruct Hs as (principal & input & headers & body & d & sub & r & [Ha _ _ Hm] & Hs & ->).
  rewrite alone_before in Ha, Hs by done. apply answer_submit_202 in Hst as [dl ->].
  apply make_submission_Ok in Hm as (E1 & _). apply run_tx_Ok, submit_body_Ok in Hs as [[-> Hq]|Hs].
  - apply lookup_key_Some in Hq as (row & Hrow & Hk & Hd & _).
    exists principal, (responseFromDelivery dl), row. rewrite Hd in *. simpl in *.
    split_and!; try done. destruct Hk. congruence.
  - destruct Hs as (_ & _ & id & oid & tid & sv & _ & _ & _ & _ & -> & _ & _ & _ & _ & ->).
    eexists principal, _, _. split_and!; [done|done|reflexivity|apply lookup_insert_eq|simpl; congruence|done..].
Qed.

(** C38: a caller reads its own write: after a 202, the path the answer's id
    makes leads, through the same router, to a 200 that shows this delivery in
    the state the 202 announced, for the same key and while nothing else
    happens. *)
Theorem accepted_delivery_can_be_fetched store env env' ready depth request request' s response s' :
  serve store env ready depth false "POST" submit_path request s = (Api response, s') →
  Response.Status response = 202 → alone env → alone env' → answered env' →
  (∀ id r, deliveries (ss_db s') !! id = Some r → uuid_in id = Some id ∧ validUUID id = true) →
  HttpRequest.Authorization request' = HttpRequest.Authorization request →
  ∃ p p' attempts, Response.Content response = Payload p ∧
    serve store env' ready depth false "GET" (delivery_path (deliveryResponse.ID p) []) request' s' =
      (Api (writeJSON 200 (with_attempts p' attempts)), s') ∧
    deliveryResponse.ID p' = deliveryResponse.ID p ∧
    deliveryResponse.Status p' = deliveryResponse.Status p ∧
    deliveryResponse.Generation p' = deliveryResponse.Generation p ∧
    deliveryResponse.DestinationID p' = deliveryResponse.DestinationID p ∧
    deliveryResponse.DestinationVersion p' = deliveryResponse.DestinationVersion p.
Proof.
  rewrite serve_submit. unfold post_deliveries. destruct (submit _ _ _ _) as [rs db'] eqn:Es.
  intros [= -> <-] Hst Hal Hal' Hio Hkeys Hauth. cbn [ss_db] in Hkeys.
  destruct (submit_accepted _ _ _ _ _ _ Es Hst Hal)
    as (principal & p & r & Ha & Hcal & Hp & Hr & Hown & E1 & E2 & E3 & E4).
  destruct (Hkeys _ _ Hr) as [Hid Hu].
  exists p, (responseFromDelivery (delivery_of (deliveryResponse.ID p) r)). eexists.
  split; [exact Hp|]. split; [|simpl; by rewrite E1, E2, E3, E4]. unfold serve. rewrite (proj1 (delivery_routes _ Hu)).
  cbn [ss_db ss_metrics]. unfold get, authenticate.
  rewrite !Hal', (authenticate_again env env' request _ (ss_db s) db' principal), Get_eq, with_id_PathID by done.
  rewrite Hid, Hio, Hr, bool_decide_true by done.
  unfold ListAttemptSummaries, as_uuid. cbn [Delivery.ID delivery_of]. rewrite Hid. cbn [mbind result_bind].
  rewrite Hio. reflexivity.
Qed.

(** What can change the database behind a route. *)
Lemma submit_changes store env request db response db' :
  submit store env request db = (response, db') → alone env → db' ≠ db →
  ∃ caller c, bears request db caller c.
Proof.
  intros [[_ Hsame]|Hs]%submit_cases Hal Hne.
  - rewrite !alone_before in Hsame by done. naive_solver.
  - destruct Hs as (principal & ? & ? & ? & ? & ? & ? & [Ha _ _ _] & _ & _).
    rewrite alone_before in Ha by done. apply authenticatePrincipal_Ok in Ha as (c & Hb & _). eauto.
Qed.

Lemma replay_changes env request db response db' :
  replay env request db = (response, db') → alone env → db' ≠ db →
  ∃ caller c, bears request db caller c ∧ c_is_operator c = true.
Proof.
  unfold replay. intros Hr Hal Hne. rewrite !Hal in Hr.
  destruct (authenticatePrincipal _ _ _) as [principal|] eqn:Ha; [|by simplify_eq].
  destruct (Principal.IsOperator principal) eqn:Eo; [|simpl in Hr; by simplify_eq].
  apply authenticatePrincipal_Ok in Ha as (c & Hb & Hc). exists (Principal.CallerID principal), c.
  split; [done|congruence].
Qed.

Lemma get_keeps env request db response db' :
  get env request db = (response, db') → alone env → db' = db.
Proof.
  unfold get, authenticate. intros Hg Hal. destruct (authenticatePrincipal _ _ _); [|simplify_eq; apply Hal].
  destruct (Get _ _ _ _) as [|e]; [destruct (ListAttemptSummaries _ _ _ _ _)|destruct e]; simplify_eq;
    by rewrite !Hal.
Qed.

(** C39: only an authenticated POST writes: when a request has changed the
    database, its method is POST, it bears the key of a caller, and it went to
    /deliveries or, for an operator, to the replay of a delivery. *)
Theorem only_authenticated_posts_write store env ready depth star method path request s a s' :
  serve store env ready depth star method path request s = (a, s') → alone env →
  ss_db s' ≠ ss_db s →
  method = "POST" ∧ ∃ caller c, bears request (ss_db s) caller c ∧
    (matchPath [lit "deliveries"] path = Some [] ∨
     c_is_operator c = true ∧ ∃ id, matchPath [lit "deliveries"; Wild; lit "replay"] path = Some [id]).
Proof.
  unfold serve. intros Hs Hal Hne.
  destruct (route _ _ _ _) as [|p|h ws|al|] eqn:Er; try (simplify_eq; done).
  apply route_Handle_inv in Er as (p & Hp & -> & Hm & Hw).
  unfold service_mux, health_patterns, Register in Hp. cbn [app] in Hp.
  rewrite !elem_of_cons, elem_of_nil in Hp.
  destruct Hp as [->|[->|[->|[->|[->|[->|[]]]]]]]; cbn [p_handler p_segments p_method] in *;
    try (simplify_eq; done).
  - unfold method_matches in Hm. rewrite orb_true_iff in Hm. destruct Hm as [Hm|Hm]; to_prop; [|done].
    split; [done|]. unfold post_deliveries in Hs. destruct (submit _ _ _ _) as [rs db'] eqn:Es.
    simplify_eq. destruct (submit_changes _ _ _ _ _ _ Es Hal Hne) as (caller & c & Hb).
    exists caller, c. split; [done|]. left. rewrite Hw. clear -Hw. destruct ws; [done|].
    destruct path; [done|]. cbn in Hw. destruct (firstSegment _) as [seg [|? ?]]; by case_bool_decide.
  - destruct (get _ _ _) as [rs db'] eqn:Eg. simplify_eq. by apply get_keeps in Eg.
  - unfold method_matches in Hm. rewrite orb_true_iff in Hm. destruct Hm as [Hm|Hm]; to_prop; [|done].
    split; [done|]. destruct (replay _ _ _) as [rs db'] eqn:Es. simplify_eq.
    destruct (replay_changes _ _ _ _ _ Es Hal Hne) as (caller & c & Hb & Ho).
    exists caller, c. split; [done|]. right. split; [done|].
    assert (∃ id, ws = [id]) as [id ->]; [|by exists id]. clear -Hw.
    destruct path; [done|]. cbn [matchPath lit] in Hw. destruct (firstSegment _) as [seg rest].
    case_bool_decide; [|done]. destruct rest; [done|]. destruct (firstSegment _) as [seg' rest'].
    case_bool_decide; [done|]. apply fmap_Some in Hw as (l & Hl & ->). destruct rest'; [done|].
    destruct (firstSegment _) as [seg'' rest'']. case_bool_decide; [|done]. destruct rest''; [|done].
    simplify_eq. eauto.
  - simplify_eq. cbn [ss_db] in Hne. by rewrite Hal in Hne.
Qed.

(** ** Counting submissions *)

Record served_request := Served {
  q_env : api_env;
  q_ready : bool;
  q_depth : option Z;
  q_star : bool;
  q_method : string;
  q_path : list Z;
  q_request : HttpRequest.t
}.

Definition serve_one (store : Store) (q : served_request) (s : service_state) : answer * service_state :=
  serve store (q_env q) (q_ready q) (q_depth q) (q_star q) (q_method q) (q_path q) (q_request q) s.

Fixpoint serve_all (store : Store) (qs : list served_request) (s : service_state)
    : list answer * service_state :=
  match qs with
  | [] => ([], s)
  | q :: qs =>
      let '(a, s) := serve_one store q s in
      let '(l, s) := serve_all store qs s in (a :: l, s)
  end.

(** Was this a submission, and how did it end? *)
Definition submission (accepted : bool) (qa : served_request * answer) : bool :=
  match route service_mux (q_star qa.1) (q_method qa.1) (q_path qa.1), qa.2 with
  | Handle RSubmit _, Api response => Bool.eqb (Response.Status response =? 202) accepted
  | _, _ => false
  end.
Definition count_submissions (accepted : bool) (qs : list served_request) (l : list answer) : Z :=
  Z.of_nat (length (filter (λ qa, submission accepted qa = true) (zip qs l))).

Lemma written_202 response : ((written response).1 =? 202) = (Response.Status response =? 202).
Proof.
  unfold written. cbn. destruct (Z.eqb_spec (Response.Status response) 0) as [->|]; done.
Qed.

Definition counters (s : service_state) : Z * Z :=
  (submissionMetrics.accepted (ss_metrics s), submissionMetrics.rejected (ss_metrics s)).
Definition in_range (n : Z) : Prop := 0 ≤ n < 2 ^ 64.

Lemma serve_one_counts store q s a s' :
  serve_one store q s = (a, s') → in_range (counters s).1 → in_range (counters s).2 →
  counters s' = (((counters s).1 + Z.b2z (submission true (q, a))) mod 2 ^ 64,
                 ((counters s).2 + Z.b2z (submission false (q, a))) mod 2 ^ 64).
Proof.
  unfold serve_one, serve, submission, in_range, counters. cbn [fst snd]. intros Hs H1 H2.
  destruct (route _ _ _ _) as [|p|[] ws|al|];
    [| | | |destruct (post_deliveries _ _ _ _ _) as [[rs m] db'] eqn:Ep|destruct (get _ _ _) as [rs db']|
        destruct (replay _ _ _) as [rs db']| | |]; simplify_eq; cbn [ss_metrics Z.b2z];
    try (rewrite !Z.add_0_r, !Z.mod_small by lia; done).
  unfold post_deliveries in Ep. destruct (submit _ _ _ _) as [rs' db2]. simplify_eq. unfold observe.
  rewrite written_202. destruct (Response.Status rs =? 202); cbn;
    rewrite Z.add_0_r, (Z.mod_small _ _ H1) || rewrite Z.add_0_r, (Z.mod_small _ _ H2); done.
Qed.

(** The counters count: from any counters, after any sequence of requests
    of all kinds, the two counters have grown by the number of submissions
    answered 202 and by the number of other submissions, modulo 2^64; requests
    to other routes, refused by the router or not, change neither.  The
    metrics page shows these numbers. *)
Theorem counters_count_submissions store qs s l s' :
  serve_all store qs s = (l, s') → in_range (counters s).1 → in_range (counters s).2 →
  counters s' = (((counters s).1 + count_submissions true qs l) mod 2 ^ 64,
                 ((counters s).2 + count_submissions false qs l) mod 2 ^ 64) ∧
  ∀ q samples s'', serve_one store q s' = (Metrics (Some samples), s'') →
    ("notifier_submissions_total", Some "accepted", Some (counters s').1) ∈ samples ∧
    ("notifier_submissions_total", Some "rejected", Some (counters s').2) ∈ samples.
Proof.
  intros Hs H1 H2. split.
  - revert s l Hs H1 H2. induction qs as [|q qs IH]; intros s l Hs H1 H2; simpl in Hs.
    { simplify_eq. unfold in_range in *. destruct (counters s') as [x y]. cbn [fst snd] in *.
      unfold count_submissions. cbn [zip zip_with filter list_filter length Z.of_nat].
      by rewrite !Z.add_0_r, !Z.mod_small by lia. }
    destruct (serve_one store q s) as [a s1] eqn:Ea, (serve_all store qs s1) as [l1 s2] eqn:El. simplify_eq.
    apply serve_one_counts in Ea as Hc; [|done|done].
    assert (Hr : ∀ x, in_range (x mod 2 ^ 64)) by (intros x; apply Z.mod_pos_bound; lia).
    apply IH in El as ->; [|rewrite Hc; apply Hr..]. rewrite Hc. cbn [fst snd].
    assert (Hcount : ∀ b, count_submissions b (q :: qs) (a :: l1) =
      Z.b2z (submission b (q, a)) + count_submissions b qs l1).
    { intros b. unfold count_submissions. cbn [zip zip_with]. destruct (submission b (q, a)) eqn:E.
      - rewrite filter_cons_True by done. cbn [length Z.b2z]. lia.
      - by rewrite filter_cons_False by (by rewrite E). }
    rewrite !Hcount, !Zplus_mod_idemp_l, !Z.add_assoc. done.
  - intros q samples s'' Hm. unfold serve_one, serve in Hm.
    destruct (route _ _ _ _) as [|p|[] ws|al|]; simplify_eq;
      try (destruct (get _ _ _)); try (destruct (replay _ _ _)); try (destruct (post_deliveries _ _ _ _ _) as [[? ?] ?]);
      simplify_eq.
    unfold newMetricsHandler, SubmissionCounts in *. destruct (OperationalMetrics _ _ _); [|done]. simplify_eq.
    assert (snapshot (ss_metrics s') !! "accepted" = Some (counters s').1) as -> by done.
    assert (snapshot (ss_metrics s') !! "rejected" = Some (counters s').2) as -> by done.
    cbn [default]. set_solver.
Qed.
End service.

(** ** The fixtures of a local run *)

(** The local fixtures fit together: with the default URL, the bootstrap
    destination names the registered host and a path where the fake supplier
    answers its allowed method 204, which is a success; every other answer of
    its router is a permanent failure; and the URL of the HTTPS probe is one
    the probe accepts and the supplier answers as the probe wants. *)
Theorem local_fixtures_agree `{IpLiteral, Unicode} getenv :
  getenv "BOOTSTRAP_DESTINATION_URL" = "" → getenv "FAKE_SUPPLIER_URL" = "" →
  let d := BootstrapConfig.Destination (localBootstrapConfig getenv) in
  let probed := envOr getenv "FAKE_SUPPLIER_URL" "https://fake-supplier.test:18443/healthz" in
  (∃ u, validateURL (DestinationVersion.URL d) = Some u ∧ Hostname u = registeredHostname ∧
     Outbound.containsFold (elems (DestinationVersion.AllowedMethods d)) "POST" = true ∧
     supplier_status (route newMux false "POST" (Url.Path u)) = Some 204) ∧
  classify 204 None d = resultSuccess ∧
  (∀ star method path status, supplier_status (route newMux star method path) = Some status →
     status ≠ 204 → classify status None d = resultPermanent) ∧
  registered_url probed = true ∧
  ∃ u, ParseRequestURI probed = Some u ∧
    supplier_status (route newMux false "GET" (Url.Path u)) = Some 204.
Proof.
  intros Hd Hp. unfold localBootstrapConfig, envOr. rewrite Hd, Hp. cbn -[validateURL registered_url ParseRequestURI classify Outbound.containsFold].
  split_and!.
  - eexists. split; [vm_compute; reflexivity|]. split_and!; vm_compute; reflexivity.
  - vm_compute. reflexivity.
  - intros star method path status Hst Hne. destruct (route _ _ _ _) as [|p|[] ws|al|]; simpl in Hst;
      simplify_eq; done.
  - vm_compute. reflexivity.
  - eexists. split; [vm_compute; reflexivity|]. vm_compute. reflexivity.
Qed.

Lemma local_fixtures_agree_witness :
  let d := BootstrapConfig.Destination (localBootstrapConfig no_variables) in
  ∃ u, validateURL (DestinationVersion.URL d) = Some u ∧
    supplier_status (route newMux false "POST" (Url.Path u)) = Some 204.
Proof.
  destruct (local_fixtures_agree no_variables eq_refl eq_refl) as [(u & Hu & _ & _ & Hs) _].
  exists u. split; [exact Hu|exact Hs].
Defined.

(** ** Requests of the scenario *)

Definition state0 : service_state := mkServiceState (submissionMetrics.mk 0 0) db_shop.
Definition post_served : answer * service_state :=
  serve store0 env0 true (Some 0) false "POST" submit_path post0 state0.
Definition post_answer : Response.t :=
  match post_served.1 with Api r => r | _ => internalError end.

Lemma env0_alone : alone env0.
Proof. done. Qed.

Lemma accepted_delivery_can_be_fetched_witness : ∃ p p' attempts,
  Response.Content post_answer = Payload p ∧
  serve store0 env0 true (Some 0) false "GET" (delivery_path (deliveryResponse.ID p) []) post0 post_served.2 =
    (Api (writeJSON 200 (with_attempts p' attempts)), post_served.2) ∧
  deliveryResponse.Status p' = deliveryResponse.Status p.
Proof.
  destruct (accepted_delivery_can_be_fetched store0 env0 env0 true (Some 0) post0 post0 state0 post_answer
    post_served.2) as (p & p' & attempts & Hp & Hg & _ & Hs & _).
  - vm_compute. reflexivity.
  - vm_compute. reflexivity.
  - exact env0_alone.
  - exact env0_alone.
  - intros n k. reflexivity.
  - intros id r Hr.
    assert (Hall : bool_decide (map_Forall (λ id (_ : delivery_row), uuid_in id = Some id ∧ validUUID id = true)
      (deliveries (ss_db post_served.2))) = true) by (vm_compute; reflexivity).
    apply bool_decide_eq_true in Hall. exact (Hall id r Hr).
  - reflexivity.
  - exists p, p', attempts. split; [exact Hp|split; [exact Hg|exact Hs]].
Defined.

Lemma only_authenticated_posts_write_witness :
  ∃ caller c, bears post0 db_shop caller c.
Proof.
  destruct (only_authenticated_posts_write store0 env0 true (Some 0) false "POST" submit_path post0 state0
    post_served.1 post_served.2 (surjective_pairing _) env0_alone) as (_ & caller & c & Hb & _).
  - intros Heq. apply (f_equal (λ db, size (deliveries db))) in Heq. vm_compute in Heq. discriminate Heq.
  - exists caller, c. exact Hb.
Defined.

(** A submission, the same again without its key, and a status query. *)
Definition requests0 : list served_request :=
  [Served env0 true (Some 0) false "POST" submit_path post0;
   Served env0 true (Some 0) false "POST" submit_path (HttpRequest.mk "" "" [] "");
   Served env0 true (Some 0) false "GET" (bytes_of "/healthz") post0].
Definition served0 := serve_all store0 requests0 state0.

Lemma counters_count_submissions_witness : counters served0.2 = (1, 1).
Proof.
  rewrite (proj1 (counters_count_submissions store0 requests0 state0 served0.1 served0.2
    (surjective_pairing _) ltac:(unfold in_range; simpl; lia) ltac:(unfold in_range; simpl; lia))).
  vm_compute. reflexivity.
Defined.
